(* ===== verification/_CoqProject ===== *)
-Q . S2P
Prelude.v
OMap.v
RBTreeModel.v
RBTreeSpec.v
RBTreeShape.v
RBTreeSearch.v
RBTreeInsert.v
RBTreeRemove.v
RBTreeUnlink.v
RBTree.v
RBTreeTheorems.v
MemConf.v
PgAlloc.v
Mutex.v
Vmr.v
VmrTheorems.v
VmrLocks.v
VmrClaims.v
PageTable.v
PageTree.v
PageMap.v
PageRange.v
PageClaims.v
PageTheorems.v
Kima.v
KimaFit.v
KimaPool.v
KimaAlloc.v
KimaTheorems.v
KList.v
KListTheorems.v
Fs.v
FsPath.v
FsTheorems.v
Ps.v
PsTheorems.v
KDyn.v
KDynTheorems.v
KHash.v
KHashTheorems.v
Exec.v
ExecTheorems.v
ElfTheorems.v
ElfClaims.v
CString.v
CStringTheorems.v
CMath.v
CMathTheorems.v
CFormat.v
CFormatTheorems.v
KMap.v
KMapTheorems.v
Console.v
ConsoleFormat.v
ConsoleLog.v
ConsoleScreen.v
MmInit.v
MmInitAreas.v
MmInitSteps.v
MmInitFirst.v
MmInitLoops.v
MmInitOthers.v
MmInitDirect.v
MmInitMap.v
MmInitTheorems.v
MmInitBoot.v
Initcar.v
InitcarLoad.v
InitcarTheorems.v
