(* ===== verification/Prelude.v ===== *)
(** * PbOS: a verification development of the kernel's core

    PbOS is a small kernel in C++.  This library models the parts on which the
    rest of it stands: the ordered tree all its indexes are built on, the
    allocator of physical pages, the page tables of the x86_64 port, the areas
    of an address space, the kernel heap, and the locks; and on top of them
    the file system, the process table and the scheduler.  Each model is a
    translation of the source into functions on an explicit state; what they
    promise is proved about those functions.

    ** The parts and how they interact

    - Red-black tree (kernel/kfxx/rbtree.cc, include/pbos/kfxx/rbtree.hh):
      [RBTreeModel] translates the pointer code, on a heap of nodes, function
      by function.  [RBTreeSpec] relates the heap to an abstract tree,
      [RBTreeShape], [RBTreeSearch], [RBTreeInsert], [RBTreeRemove] and
      [RBTreeUnlink] prove the operations, [RBTree] and [RBTreeTheorems] state
      the results.  All other parts use the tree as an ordered map: [OMap] has
      the operations of that map, and [RBTreeTheorems.programs_refine_map]
      is the refinement that justifies it.
    - Page frames (kernel/mm/pgalloc.cc): [PgAlloc].  Areas of physical memory
      with a free list and a descriptor for each page.
    - Bringing up physical memory ([hn_mm_init_pmadlist], [hn_push_pmad] and
      [hn_mm_init_areas] of hal/x86_64/mm/init.cc): [MmInit] has the code, on
      the areas and descriptors of [PgAlloc] and over an interface
      [MmInit.EarlyVm] to the early mapping.  [MmInitMap] proves the areas;
      [MmInitAreas] and [MmInitSteps] have the pages and what a step does,
      [MmInitFirst], [MmInitLoops] and [MmInitOthers] the descriptors,
      [MmInitDirect] the direct mapping, [MmInitTheorems] and [MmInitBoot] the
      results: what is left at the end is what [PageMap] assumes.
    - Addresses (arch/x86_64/memconf.h, include/pbos/kfxx/utils.hh,
      include/pbos/km/result.h): [MemConf].  Table indexes, page rounding,
      alignment, result codes.
    - Page tables (hal/x86_64/mm/vmmgr/vm.cc, hal/x86_64/mm/context.cc):
      [PageTable] has the code; tables are pages taken from [PgAlloc].
      [PageTree] is the theory of tables as trees, [PageMap] and [PageRange]
      follow the loops of [kh_mmap], [PageClaims] and [PageTheorems] have the
      results.
    - Virtual memory areas (kernel/mm/misc.cc, include/pbos/ki/mm/context.hh):
      [Vmr] has the code, over an interface [Vmr.Backend] to the page tables
      and the heap; [VmrTheorems], [VmrLocks] and [VmrClaims] the results.
    - Kernel heap (kernel/mm/kima): [Kima] has the code, over an interface
      [Kima.Backend] to the memory manager; [KimaFit] the search
      for a place, [KimaPool] the invariant and the records, [KimaAlloc] an
      allocation step by step, [KimaTheorems] the results.
    - Locks (kernel/ps/mutex.cc, include/pbos/ps/mutex.h,
      hal/x86_64/kf/spinlock.cc): [Mutex].  Threads take the steps of the code
      in any order.
    - Containers (include/pbos/kfxx): [KList] has the linked list, [KDyn] the
      dynamic array, each over an interface to its allocator; [KHash] has the
      hash set and the hash map over the sequences that the first two
      implement.  [KListTheorems], [KDynTheorems] and [KHashTheorems] have the
      results: the directories of the file system, finite maps in [Fs], are
      hash maps whose keys are inserted once.  [KMap] has the ordered map and
      set, which own the nodes of a tree of [RBTreeModel], and [KMapTheorems]
      the refinement of finite maps.
    - File system (kernel/fs): [Fs] has file nodes, directories, paths, control
      blocks and the root file system, with the operations of a file system as
      a record of function pointers.  [FsPath] proves the resolution of paths,
      [FsTheorems] has the results.
    - Initial archive (hal/x86_64/initcar): [Initcar] makes the archive that the
      boot loader left in memory a directory of [Fs], on the memory of
      [CString], over interfaces to the layout of the archive ([Initcar.Format],
      a header outside the repository) and the memory manager
      ([Initcar.Mapping]).  [InitcarLoad] proves the loop over the entries,
      [InitcarTheorems] the loading as a whole and the reading of the files.
    - Processes (kernel/ps/proc.cc, kernel/ps/thread.cc, kernel/ps/sched.cc,
      kernel/ps/sched/simploop.c, [ps_exec] of kernel/ps/exec.cc,
      hal/x86_64/ps/sched.cc): [Ps], over an interface [Ps.World] to the other
      parts; [PsTheorems] has the results.
    - Executables (hal/x86_64/ps/thread.cc, [ki_elf_load_exec] of
      kernel/ps/loader/x86_64/elf/elf.cc): [Exec] builds the stacks and the
      image of a process page by page with the operations of [Vmr], over an
      interface [Exec.Env] to the page allocator and the current context and a
      map of frames to bytes.  [ExecTheorems] states what [Exec] relies on
      ([EnvLaws]) and proves the stacks, [ElfTheorems] the loader, [ElfClaims]
      loads a file on a machine that meets the interface.

    - C library (lib/freestdc/src): [CString] has the string and memory
      functions on a map of addresses to bytes, [CMath] the digits of numbers
      and 64-bit arithmetic, [CFormat] the parsing of formats and [vsprintf]
      with them.  [CStringTheorems], [CMathTheorems] and [CFormatTheorems] have
      the results.
    - Output (hal/x86_64/display/vga.cc, hal/x86_64/kd/logger.cc): [Console] has
      the text screen, the debug port and the formatted output of both, over an
      interface [Console.Ports] to the devices.  [ConsoleFormat] proves the
      conversions for any printer, [ConsoleLog] is the debug port,
      [ConsoleScreen] the screen.

    ** Conventions

    Kernel code is a function [M S A] from a state to an [outcome]: a result
    with a new state, or [Panic] for [km_panic] and failed assertions (which
    are on in the modelled build), [Fault] for an access through a null or
    dangling pointer and a division by zero, [NoFuel] for a loop cut off by
    the model.  Addresses and sizes are integers with the wrap-around of 64
    bits written out by [w64]; a null pointer is [None] where pointers are
    opaque and 0 where the code computes with them.  A loop is a [loop] or
    [for_loop] with a bound.  The theorems state that operations return [Ok],
    so the bounds are enough: a tree search may visit every node, a walk over
    areas or descriptors every entry (twice, for the search of the heap), and a
    loop over a page table has as many rounds as the source gives it.

    ** What is shown

    - C1 to C5, the tree: insertion and removal keep the colours, the order
      and the cached values; lookups are those of the map; searches are
      logarithmic; the refinement.
    - C6 to C8, page frames: allocation, references, and that a page never
      becomes free again.
    - C9 to C11, bringing up physical memory: the areas, the descriptors and
      free lists, and the state that the page tables start from.
    - C12 to C14, locks: exclusion over a lawful spinlock, and what goes
      wrong with the one that is shipped.
    - C15 to C18, areas: mapping, merging, splitting, probing.
    - C19 and C20, page tables: mapping a range and looking it up.
    - C21 and C22, kernel heap: an allocation gives a fresh aligned block and
      keeps the pool, any sequence of them gives disjoint blocks.
    - C23, linked list: refinement of sequences.
    - C24, file system: path resolution.
    - C25, initial archive: what was packed is what is read.
    - C26 and C27, processes: identifiers, the fairness of the round robin.
    - C28, dynamic array: refinement of sequences.
    - C29 to C31, hash set and map: refinement of collections and of finite
      maps, the end of iteration.
    - C32, executables: a loaded file is in memory and its thread ready to
      start.
    - C33 to C35, the C library: formatted output, copies, the arithmetic of
      wide integers.
    - C36 and C37, ordered map: refinement of finite maps, and that clearing
      ends and gives every node back.
    - C38 to C40, output: the log sends what the format says, the screen is a
      terminal, and formatted output on it.

    Theorems without a number state more results of the same kind
    ([VmrClaims.probe_then_unlock], [FsTheorems.link_subnode_correct],
    [CStringTheorems.strings_compose]) or what
    goes wrong at a known place of the source, among them [Mutex.rw_mutex_race],
    [MmInitTheorems.pool_boundary],
    [InitcarTheorems.read_behind_end], [ElfClaims.no_first_page_unmaps_all],
    [KimaTheorems.alloc_free_alloc_faults], [FsTheorems.last_unref_never_returns]
    and [PsTheorems.failed_exec_removes_first].

    ** Not modelled

    - Of the dynamic array, element types whose construction, move or
      destruction runs code; of the hash set, fallible comparators.
    - Of the tree and the ordered map, the variants for fallible or two-way comparison.
    - Of the page tables, the temporary mapping of the early stage, the
      helpers that round addresses to a level, and TLB flushes; of
      [kh_mmap], ranges that cross an entry of the top-level table are
      modelled but no theorem is about them.
    - The other ports (i386 and aarch64), which repeat the structure of
      x86_64; so the assembly versions of the string functions for i386.
    - Boot but for the memory of C9 to C11, interrupts, ACPI: access to
      hardware.  Of C9 to C11, the first page tables, which are set up with the
      segments, and the totality of the early mapping, which is assumed
      ([MmInitAreas.EarlyLaws]).
    - Of the log, the spinlock around it.
    - Of the file system, the keys of a directory's hash map as views into
      name buffers: the name of a linked node is taken not to change.
    - Of processes, the switch of register contexts, binary prototypes and the
      cache of read-only pages; of the ELF loader, kernel modules and shared
      modules, and the store of the kernel stack in the task state segment.
    - Devices and buses. *)

From Stdlib Require Export ZArith Lia Sorted.
From Corelib Require Export ssreflect.
From stdpp Require Export base list gmap option numbers sorting.

#[global] Open Scope Z_scope.

(** ** Outcomes of kernel code

    Every modelled operation ends in one of four ways.  [Ok] is a normal
    return; [Panic] is [km_panic] (also a failing [kd_assert] or
    [kd_dbgcheck], which are enabled in the modelled build); [Fault] is an
    access through a null or dangling pointer; [NoFuel] marks a loop that was
    cut off by the bound of the model, which the theorems show never to
    happen. *)
Inductive outcome (A : Type) : Type :=
  | Ok (a : A)
  | Panic
  | Fault
  | NoFuel.
Arguments Ok {A} a.
Arguments Panic {A}.
Arguments Fault {A}.
Arguments NoFuel {A}.

(** A computation on a state [S]. *)
Definition M (S A : Type) : Type := S -> outcome (A * S).

Definition ret {S A} (a : A) : M S A := fun s => Ok (a, s).

Definition bind {S A B} (m : M S A) (f : A -> M S B) : M S B :=
  fun s => match m s with
           | Ok (a, s') => f a s'
           | Panic => Panic
           | Fault => Fault
           | NoFuel => NoFuel
           end.

Definition panic {S A} : M S A := fun _ => Panic.
Definition fault {S A} : M S A := fun _ => Fault.

(** [kd_assert(c)] and [kd_dbgcheck(c, ...)] (include/pbos/kd/assert.h). *)
Definition kd_assert {S} (c : bool) : M S unit := if c then ret tt else panic.

Definition when {S} (b : bool) (m : M S unit) : M S unit := if b then m else ret tt.

Declare Scope pbos_scope.
Delimit Scope pbos_scope with pbos.

Notation "x <- m ; k" := (bind m (fun x => k))
  (at level 20, m at level 100, k at level 200, only parsing) : pbos_scope.
Notation "' p <- m ; k" := (bind m (fun y => match y with p => k end))
  (at level 20, p pattern, m at level 100, k at level 200, only parsing) : pbos_scope.
Notation "m ;; k" := (bind m (fun _ => k)) : pbos_scope.

#[global] Open Scope pbos_scope.

(** A loop whose body returns [inl s] to go round again and [inr r] to leave.
    The bound [n] is chosen by each caller and shown to be enough. *)
Fixpoint loop {S L R} (n : nat) (body : L -> M S (L + R)) (x : L) : M S R :=
  match n with
  | O => fun _ => NoFuel
  | Datatypes.S n' =>
      r <- body x;
      match r with
      | inl x' => loop n' body x'
      | inr b => ret b
      end
  end.

Lemma bind_ok {S A B} (m : M S A) (f : A -> M S B) s a s' :
  m s = Ok (a, s') -> bind m f s = f a s'.
Proof. unfold bind. by intros ->. Qed.

Lemma bind_ret {S A B} (a : A) (f : A -> M S B) s : bind (ret a) f s = f a s.
Proof. reflexivity. Qed.

Lemma bind_assoc {S A B C} (m : M S A) (f : A -> M S B) (g : B -> M S C) s :
  bind (bind m f) g s = bind m (fun x => bind (f x) g) s.
Proof. unfold bind. by destruct (m s) as [[? ?]| | |]. Qed.

Lemma bind_assert {S B} (f : unit -> M S B) s : bind (kd_assert true) f s = f tt s.
Proof. reflexivity. Qed.

Lemma kd_assert_true {S} (s : S) : kd_assert true s = Ok (tt, s).
Proof. reflexivity. Qed.

Lemma loop_exit {S L R} n (body : L -> M S (L + R)) x s r s' :
  body x s = Ok (inr r, s') -> loop (Datatypes.S n) body x s = Ok (r, s').
Proof. intros H. simpl. by rewrite (bind_ok _ _ _ _ _ H). Qed.

Lemma loop_next {S L R} n (body : L -> M S (L + R)) x s y s' :
  body x s = Ok (inl y, s') -> loop (Datatypes.S n) body x s = loop n body y s'.
Proof. intros H. simpl. by rewrite (bind_ok _ _ _ _ _ H). Qed.

(** A counted loop [for (i = i0; i < i0 + n; ++i)].  Its body goes on, leaves
    the loop, or leaves the function; the loop gives its last index with the
    variables it carries. *)
Inductive flow (A R : Type) : Type :=
  | Next (a : A)
  | Break (a : A)
  | Return (r : R).
Arguments Next {A R} a.
Arguments Break {A R} a.
Arguments Return {A R} r.

Fixpoint for_loop {S A R} (n : nat) (i : Z) (body : Z -> A -> M S (flow A R)) (a : A) : M S (A * Z + R) :=
  match n with
  | O => ret (inl (a, i))
  | Datatypes.S n' =>
      r <- body i a;
      match r with
      | Next a' => for_loop n' (i + 1) body a'
      | Break a' => ret (inl (a', i))
      | Return b => ret (inr b)
      end
  end.

(** The rule for counted loops whose body always returns. *)
Lemma for_loop_rule {S A R} (I : Z -> A -> S -> Prop) (Q : A * Z + R -> S -> Prop)
    (body : Z -> A -> M S (flow A R)) n i a s :
  I i a s ->
  (forall j a s, i <= j < i + Z.of_nat n -> I j a s ->
     exists r s', body j a s = Ok (r, s') /\
       match r with
       | Next a' => I (j + 1) a' s'
       | Break a' => Q (inl (a', j)) s'
       | Return b => Q (inr b) s'
       end) ->
  (forall a s, I (i + Z.of_nat n) a s -> Q (inl (a, i + Z.of_nat n)) s) ->
  exists r s', for_loop n i body a s = Ok (r, s') /\ Q r s'.
Proof.
  revert i a s. induction n as [|n IH]; intros i a s Hi Hbody Hend.
  - exists (inl (a, i)), s. split; [done |]. replace i with (i + Z.of_nat 0) at 1 by lia.
    apply Hend. by replace (i + Z.of_nat 0) with i by lia.
  - destruct (Hbody i a s ltac:(lia) Hi) as (r & s1 & E & Hr).
    destruct r as [a'|a'|b]; simpl; rewrite (bind_ok _ _ _ _ _ E); [| by eexists _, _ ..].
    apply IH; [done | |].
    + intros j a0 s0 Hj. apply Hbody. lia.
    + intros a0 s0. replace (i + 1 + Z.of_nat n) with (i + Z.of_nat (Datatypes.S n)) by lia. apply Hend.
Qed.

(** The computation returns, with a result and a state as given: total
    correctness, composed along [bind]. *)
Definition runs {S A} (m : M S A) (s : S) (Q : A -> S -> Prop) : Prop :=
  exists a s', m s = Ok (a, s') /\ Q a s'.

Lemma runs_ret {S A} (a : A) (s : S) (Q : A -> S -> Prop) : Q a s -> runs (ret a) s Q.
Proof. by exists a, s. Qed.

Lemma runs_eq {S A} (m : M S A) s a s' (Q : A -> S -> Prop) : m s = Ok (a, s') -> Q a s' -> runs m s Q.
Proof. by exists a, s'. Qed.

Lemma runs_bind {S A B} (m : M S A) (f : A -> M S B) s (P : A -> S -> Prop) Q :
  runs m s P -> (forall a s', P a s' -> runs (f a) s' Q) -> runs (bind m f) s Q.
Proof. intros (a & s' & E & H) Hf. unfold runs. rewrite (bind_ok _ _ _ _ _ E). by apply Hf. Qed.

Lemma runs_mono {S A} (m : M S A) s (P Q : A -> S -> Prop) :
  runs m s P -> (forall a s', P a s' -> Q a s') -> runs m s Q.
Proof. intros (a & s' & E & H) HQ. exists a, s'. auto. Qed.

Lemma runs_assert {S A} (c : bool) (f : unit -> M S A) s Q :
  c = true -> runs (f tt) s Q -> runs (bind (kd_assert c) f) s Q.
Proof. by intros ->. Qed.

Lemma runs_when {S A} (b : bool) (m : M S unit) (f : unit -> M S A) s (P : S -> Prop) Q :
  (b = true -> runs m s (fun _ => P)) -> (b = false -> P s) ->
  (forall s', P s' -> runs (f tt) s' Q) -> runs (bind (when b m) f) s Q.
Proof.
  intros Ht Hf H. apply (runs_bind _ _ _ (fun _ => P)); [|by intros []; apply H].
  destruct b; [by apply Ht | by apply runs_ret, Hf].
Qed.

(** The rule for loops: an invariant and a measure below the bound. *)
Lemma loop_rule {S L R} (I : L -> S -> Prop) (mu : L -> nat) (Q : R -> S -> Prop)
    (body : L -> M S (L + R)) n x s :
  I x s -> (mu x < n)%nat ->
  (forall x s, I x s -> runs (body x) s (fun r s' =>
     match r with inl y => I y s' /\ (mu y < mu x)%nat | inr b => Q b s' end)) ->
  runs (loop n body x) s Q.
Proof.
  revert x s. induction n as [|n IH]; intros x s Hi Hn Hbody; [lia |]. simpl.
  eapply runs_bind; [by apply Hbody |]. intros [y|b] s' Hr; [| by apply runs_ret].
  destruct Hr as [Hy Hm]. apply IH; [done | lia | done].
Qed.

(** The code returns with [Q], or the kernel stops itself with [km_panic]; it
    neither hangs nor touches memory it does not own. *)
Definition ends {S A} (m : M S A) (s : S) (Q : A -> S -> Prop) : Prop := m s = Panic \/ runs m s Q.

Lemma runs_ends {S A} (m : M S A) s Q : runs m s Q -> ends m s Q.
Proof. by right. Qed.

Lemma ends_ret {S A} (a : A) (s : S) (Q : A -> S -> Prop) : Q a s -> ends (ret a) s Q.
Proof. intros HQ. by apply runs_ends, runs_ret. Qed.

Lemma ends_bind {S A B} (m : M S A) (f : A -> M S B) s (P : A -> S -> Prop) Q :
  ends m s P -> (forall a s', P a s' -> ends (f a) s' Q) -> ends (bind m f) s Q.
Proof.
  intros [Em|(a & s' & Em & HP)] Hf; [left; unfold bind; by rewrite Em |].
  unfold ends, runs. rewrite (bind_ok _ _ _ _ _ Em). by apply Hf.
Qed.

Lemma ends_mono {S A} (m : M S A) s (P Q : A -> S -> Prop) :
  ends m s P -> (forall a s', P a s' -> Q a s') -> ends m s Q.
Proof. intros [Em|Hr] HQ; [by left | right; by eapply runs_mono]. Qed.

Lemma loop_ends {S L R} (I : L -> S -> Prop) (mu : L -> nat) (Q : R -> S -> Prop)
    (body : L -> M S (L + R)) n x s :
  I x s -> (mu x < n)%nat ->
  (forall x s, I x s -> ends (body x) s (fun r s' =>
     match r with inl y => I y s' /\ (mu y < mu x)%nat | inr b => Q b s' end)) ->
  ends (loop n body x) s Q.
Proof.
  revert x s. induction n as [|n IH]; intros x s Hi Hn Hbody; [lia |]. simpl.
  eapply ends_bind; [by apply Hbody |]. intros [y|b] s' Hr; [| by apply ends_ret].
  destruct Hr as [Hy Hm]. apply IH; [done | lia | done].
Qed.

(** ** Pointers

    Node addresses are opaque locations; [nullptr] is [None]. *)
Abbreviation loc := positive.
Abbreviation ptr := (option positive).

Definition ptr_eqb (a b : ptr) : bool := bool_decide (a = b).
Definition nonnull (a : ptr) : bool := match a with Some _ => true | None => false end.

Lemma ptr_eqb_refl p : ptr_eqb p p = true.
Proof. unfold ptr_eqb. by rewrite bool_decide_eq_true. Qed.

Lemma ptr_eqb_ne p q : p <> q -> ptr_eqb p q = false.
Proof. unfold ptr_eqb. by rewrite bool_decide_eq_false. Qed.

Lemma ptr_eqb_true p q : ptr_eqb p q = true <-> p = q.
Proof. unfold ptr_eqb. apply bool_decide_eq_true. Qed.

(** ** Machine integers

    Addresses and sizes are 64-bit: [uintptr_t] and [size_t] are [Z] with the
    wrap-around written out by [w64]. *)
Definition w64 (z : Z) : Z := z mod 2 ^ 64.
Definition UINTPTR_MAX : Z := 2 ^ 64 - 1.

Definition in64 (z : Z) : Prop := 0 <= z < 2 ^ 64.

(** The value of an [int] computed from [z], which wraps on the target *)
Definition s32 (z : Z) : Z := (z + 2 ^ 31) mod 2 ^ 32 - 2 ^ 31.

Lemma s32_small z : - 2 ^ 31 <= z < 2 ^ 31 -> s32 z = z.
Proof. unfold s32. intros. rewrite Z.mod_small; lia. Qed.

Lemma w64_range z : in64 (w64 z).
Proof. unfold in64, w64. apply Z.mod_pos_bound. lia. Qed.

Lemma w64_small z : in64 z -> w64 z = z.
Proof. unfold in64, w64. intros. by apply Z.mod_small. Qed.

Lemma w64_add_l a b : w64 (w64 a + b) = w64 (a + b).
Proof. unfold w64. apply Zplus_mod_idemp_l. Qed.

Lemma testbit_small a n k : 0 <= a < 2 ^ k -> 0 <= k -> k <= n -> Z.testbit a n = false.
Proof.
  intros Ha Hk Hn. rewrite -(Z.mod_small a (2 ^ k)) //. apply Z.mod_pow2_bits_high. lia.
Qed.

Lemma lor_add a b k : 0 <= b < 2 ^ k -> 0 <= k -> Z.lor (Z.shiftl a k) b = a * 2 ^ k + b.
Proof.
  intros Hb Hk. rewrite -(Z.shiftl_mul_pow2 a k) // Z.lor_comm Z.add_comm.
  assert (H0 : Z.land b (Z.shiftl a k) = 0).
  { apply Z.bits_inj'. intros n Hn. rewrite Z.land_spec Z.shiftl_spec // Z.bits_0.
    destruct (Z.lt_ge_cases n k) as [Hlt|Hge].
    - by rewrite (Z.testbit_neg_r a (n - k)); [lia | apply andb_false_r].
    - by rewrite (testbit_small b n k). }
  pose proof (Z.add_lor_land b (Z.shiftl a k)). lia.
Qed.

Create HintDb pbos.
Create Rewrite HintDb pbos.
#[export] Hint Resolve w64_range : pbos.
#[export] Hint Rewrite @ptr_eqb_refl @bind_ret @kd_assert_true : pbos.
