(* ===== verification/OMap.v ===== *)
(** * Ordered maps: the abstract view of the kernel's trees

    What a [kfxx::RBTree] promises to its clients, as functions on finite maps
    with integer keys: the greatest entry at or below a key
    ([find_max_lteq]), the entries next to a key, the first and the last
    entry.  [RBTree] shows that the pointer code implements them; the memory
    managers are modelled on top of them. *)

From S2P Require Import Prelude.

Module OMap.

Section Best.
Context {A : Type}.

(** The entry whose key satisfies [P] and is best for [better]. *)
Definition best (P : Z -> bool) (better : Z -> Z -> bool) (m : gmap Z A) : option (Z * A) :=
  map_fold (fun k v acc =>
    if P k then
      match acc with
      | Some (k', v') => if better k k' then Some (k, v) else Some (k', v')
      | None => Some (k, v)
      end
    else acc) None m.

(** Specification of [best] for a total order. *)
Definition best_post (P : Z -> bool) (better : Z -> Z -> bool) (m : gmap Z A)
    (r : option (Z * A)) : Prop :=
  match r with
  | Some (k, v) => m !! k = Some v /\ P k = true /\
      forall k' v', m !! k' = Some v' -> P k' = true -> k' = k \/ better k k' = true
  | None => forall k v, m !! k = Some v -> P k = false
  end.

Definition order (better : Z -> Z -> bool) : Prop :=
  (forall a b, better a b = true \/ better b a = true \/ a = b) /\
  (forall a b c, better a b = true -> better b c = true -> better a c = true).

Lemma best_ok P better m : order better -> best_post P better m (best P better m).
Proof.
  intros [Htot Htr]. unfold best.
  apply (map_fold_weak_ind (fun r m => best_post P better m r)); clear m.
  - intros k v. by rewrite lookup_empty.
  - intros k v m r Hk IH. unfold best_post in *.
    destruct (P k) eqn:HP; [destruct r as [[k' v']|]; [destruct (better k k') eqn:Hb |] |].
    + destruct IH as (Hm & HP' & Hbest). rewrite lookup_insert_eq. split_and!; [done | done |].
      intros k2 v2 [[-> ->]|[Hne Hl]]%lookup_insert_Some HP2; [by left |].
      destruct (Hbest _ _ Hl HP2) as [->|Hb2]; eauto.
    + destruct IH as (Hm & HP' & Hbest).
      assert (k <> k') by congruence. rewrite lookup_insert_ne //. split_and!; [done | done |].
      intros k2 v2 [[-> ->]|[Hne Hl]]%lookup_insert_Some HP2; [| by eauto].
      destruct (Htot k2 k') as [?|[?|?]]; [congruence | by right | congruence].
    + rewrite lookup_insert_eq. split_and!; [done | done |].
      intros k2 v2 [[-> ->]|[Hne Hl]]%lookup_insert_Some HP2; [by left |].
      rewrite (IH _ _ Hl) in HP2. done.
    + destruct r as [[k' v']|].
      * destruct IH as (Hm & HP' & Hbest). assert (k <> k') by congruence.
        rewrite lookup_insert_ne //. split_and!; [done | done |].
        intros k2 v2 [[-> ->]|[Hne Hl]]%lookup_insert_Some HP2; [congruence | by eauto].
      * intros k2 v2 [[-> ->]|[Hne Hl]]%lookup_insert_Some; [done | by eauto].
Qed.

(** The best entry is unique. *)
Lemma best_unique P better m k v :
  order better -> (forall a, better a a = false) -> best_post P better m (Some (k, v)) ->
  best P better m = Some (k, v).
Proof.
  intros Ho Hirr (Hm & HP & Hb). pose proof (best_ok P better m Ho) as Hr.
  destruct (best P better m) as [[k' v']|]; simpl in Hr.
  - destruct Hr as (Hm' & HP' & Hb').
    assert (k = k') as ->; [| congruence].
    destruct (Hb _ _ Hm' HP') as [?|H1]; [done |]. destruct (Hb' _ _ Hm HP) as [?|H2]; [done |].
    destruct Ho as [_ Htr]. pose proof (Hirr k) as Hk. by rewrite (Htr _ _ _ H1 H2) in Hk.
  - rewrite (Hr _ _ Hm) in HP. done.
Qed.

Lemma best_none P better m :
  order better -> (forall k v, m !! k = Some v -> P k = false) -> best P better m = None.
Proof.
  intros Ho Hn. pose proof (best_ok P better m Ho) as Hr.
  destruct (best P better m) as [[k v]|]; [| done].
  destruct Hr as (Hm & HP & _). by rewrite (Hn _ _ Hm) in HP.
Qed.

Definition above (a b : Z) : bool := b <? a.
Definition below (a b : Z) : bool := a <? b.

Lemma above_order : order above.
Proof. split; unfold above; intros; lia. Qed.

Lemma below_order : order below.
Proof. split; unfold below; intros; lia. Qed.

(** [find_max_lteq], [get_next], [get_prev], first and last entry. *)
Definition max_lteq (key : Z) (m : gmap Z A) := best (fun k => k <=? key) above m.
Definition next (key : Z) (m : gmap Z A) := best (fun k => key <? k) below m.
Definition prev (key : Z) (m : gmap Z A) := best (fun k => k <? key) above m.
Definition first (m : gmap Z A) := best (fun _ => true) below m.
Definition last (m : gmap Z A) := best (fun _ => true) above m.

Lemma max_lteq_some key m k v : max_lteq key m = Some (k, v) ->
  m !! k = Some v /\ k <= key /\ forall k' v', m !! k' = Some v' -> k' <= key -> k' <= k.
Proof.
  intros He. pose proof (best_ok (fun k => k <=? key) above m above_order) as Hr.
  unfold max_lteq in He. rewrite He in Hr. destruct Hr as (? & ? & Hb). split_and!; [done | lia |].
  intros k' v' Hk' Hle. unfold above in Hb. destruct (Hb _ _ Hk' ltac:(lia)); lia.
Qed.

Lemma max_lteq_none key m : max_lteq key m = None -> forall k v, m !! k = Some v -> key < k.
Proof.
  intros He k v Hk. pose proof (best_ok (fun k => k <=? key) above m above_order) as Hr.
  unfold max_lteq in He. rewrite He in Hr. specialize (Hr _ _ Hk). simpl in Hr. lia.
Qed.

Lemma next_some key m k v : next key m = Some (k, v) ->
  m !! k = Some v /\ key < k /\ forall k' v', m !! k' = Some v' -> key < k' -> k <= k'.
Proof.
  intros He. pose proof (best_ok (fun k => key <? k) below m below_order) as Hr.
  unfold next in He. rewrite He in Hr. destruct Hr as (? & ? & Hb). split_and!; [done | lia |].
  intros k' v' Hk' Hle. unfold below in Hb. destruct (Hb _ _ Hk' ltac:(lia)); lia.
Qed.

Lemma next_none key m : next key m = None -> forall k v, m !! k = Some v -> k <= key.
Proof.
  intros He k v Hk. pose proof (best_ok (fun k => key <? k) below m below_order) as Hr.
  unfold next in He. rewrite He in Hr. specialize (Hr _ _ Hk). simpl in Hr. lia.
Qed.

Lemma prev_some key m k v : prev key m = Some (k, v) ->
  m !! k = Some v /\ k < key /\ forall k' v', m !! k' = Some v' -> k' < key -> k' <= k.
Proof.
  intros He. pose proof (best_ok (fun k => k <? key) above m above_order) as Hr.
  unfold prev in He. rewrite He in Hr. destruct Hr as (? & ? & Hb). split_and!; [done | lia |].
  intros k' v' Hk' Hle. unfold above in Hb. destruct (Hb _ _ Hk' ltac:(lia)); lia.
Qed.

Lemma prev_none key m : prev key m = None -> forall k v, m !! k = Some v -> key <= k.
Proof.
  intros He k v Hk. pose proof (best_ok (fun k => k <? key) above m above_order) as Hr.
  unfold prev in He. rewrite He in Hr. specialize (Hr _ _ Hk). simpl in Hr. lia.
Qed.

Lemma first_some m k v : first m = Some (k, v) ->
  m !! k = Some v /\ forall k' v', m !! k' = Some v' -> k <= k'.
Proof.
  intros He. pose proof (best_ok (fun _ => true) below m below_order) as Hr.
  unfold first in He. rewrite He in Hr. destruct Hr as (? & _ & Hb). split_and!; [done |].
  intros k' v' Hk'. unfold below in Hb. destruct (Hb _ _ Hk' eq_refl); lia.
Qed.

Lemma first_none m : first m = None -> m = ∅.
Proof.
  intros He. pose proof (best_ok (fun _ => true) below m below_order) as Hr.
  unfold first in He. rewrite He in Hr. apply map_empty. intros i.
  destruct (m !! i) eqn:Hi; [| done]. by specialize (Hr _ _ Hi).
Qed.

Lemma last_some m k v : last m = Some (k, v) ->
  m !! k = Some v /\ forall k' v', m !! k' = Some v' -> k' <= k.
Proof.
  intros He. pose proof (best_ok (fun _ => true) above m above_order) as Hr.
  unfold last in He. rewrite He in Hr. destruct Hr as (? & _ & Hb). split_and!; [done |].
  intros k' v' Hk'. unfold above in Hb. destruct (Hb _ _ Hk' eq_refl); lia.
Qed.

(** The neighbours of a key only depend on the keys of the map. *)
Definition same_keys (m m' : gmap Z A) : Prop := forall k, is_Some (m !! k) <-> is_Some (m' !! k).

Lemma next_key m k j v : m !! j = Some v -> k < j ->
  (forall i x, m !! i = Some x -> k < i -> j <= i) -> next k m = Some (j, v).
Proof.
  intros Hj Hlt Hmin. destruct (next k m) as [[i x]|] eqn:Hn.
  - apply next_some in Hn as (Hi & Hki & Hm). pose proof (Hm _ _ Hj Hlt). pose proof (Hmin _ _ Hi Hki).
    assert (i = j) as -> by lia. by simplify_eq.
  - pose proof (next_none _ _ Hn _ _ Hj). lia.
Qed.

Lemma next_same_keys m m' k j v : same_keys m m' -> next k m = Some (j, v) -> fst <$> next k m' = Some j.
Proof.
  intros Hs (Hj & Hlt & Hmin)%next_some. destruct (proj1 (Hs j) ltac:(by eexists)) as [v' Hv'].
  rewrite (next_key m' k j v' Hv' Hlt); [| done].
  intros i x Hi. destruct (proj2 (Hs i) ltac:(by eexists)) as [y Hy]. by eapply Hmin.
Qed.

(** Stepping forward and then back. *)
Lemma prev_of_next m m' k j v : same_keys m m' -> is_Some (m !! k) -> next k m = Some (j, v) ->
  fst <$> prev j m' = Some k.
Proof.
  intros Hs Hk (Hj & Hlt & Hmin)%next_some. destruct (proj1 (Hs k) Hk) as [x Hx].
  destruct (prev j m') as [[i y]|] eqn:Hn.
  - apply prev_some in Hn as (Hi & Hij & Hm). pose proof (Hm _ _ Hx Hlt).
    destruct (proj2 (Hs i) ltac:(by eexists)) as [z Hz]. simpl. f_equal.
    destruct (Z.lt_ge_cases k i) as [Hc|]; [pose proof (Hmin _ _ Hz Hc) |]; lia.
  - pose proof (prev_none _ _ Hn _ _ Hx). lia.
Qed.

Lemma same_keys_insert m k v v' : m !! k = Some v -> same_keys m (<[k := v']> m).
Proof.
  intros Hk j. destruct (decide (j = k)) as [->|Hne].
  - rewrite Hk lookup_insert_eq. split; by eexists.
  - by rewrite lookup_insert_ne.
Qed.

Lemma same_keys_trans m1 m2 m3 : same_keys m1 m2 -> same_keys m2 m3 -> same_keys m1 m3.
Proof. intros H1 H2 k. by rewrite (H1 k). Qed.

End Best.

End OMap.
