(* ===== verification/RBTreeModel.v ===== *)
(** * The intrusive red-black tree, at pointer level

    Models class [_RBTreeBase] (kernel/kfxx/rbtree.cc) and its wrapper
    [RBTreeImpl<T, Cmp<T>, false, true>] (include/pbos/kfxx/rbtree.hh), the
    instance [kfxx::RBTree<T>] that the kernel uses: comparisons are total and
    three-way.  Nodes are intrusive: they live in a heap that also holds nodes
    outside the tree, and every operation works on that heap through parent,
    left and right pointers, as the source does.  Keys ([rb_value]) are
    integers, which covers the pointer and id keys of the kernel's trees. *)

From S2P Require Import Prelude.

Module RB.

(** [enum class RBColor] *)
Inductive RBColor := Black | Red.

#[global] Instance RBColor_eq_dec : EqDecision RBColor.
Proof. solve_decision. Defined.

(** [struct _RBTreeBase::NodeBase] with the [rb_value] of [RBTreeImpl::Node]. *)
Record Node := mkNode {
  p : ptr;
  l : ptr;
  r : ptr;
  color : RBColor;
  rb_value : Z
}.

(** The fields of [_RBTreeBase], with the heap its node pointers refer to. *)
Record tree_st := mkTree {
  heap : gmap loc Node;
  _root : ptr;
  _cached_min_node : ptr;
  _cached_max_node : ptr;
  _size : Z
}.

(** Reading and writing [x->f]: a null or dangling [x] faults. *)
Definition load (x : ptr) : M tree_st Node := fun s =>
  match x with
  | None => Fault
  | Some a => match heap s !! a with Some n => Ok (n, s) | None => Fault end
  end.

Definition with_heap (s : tree_st) (h : gmap loc Node) : tree_st :=
  mkTree h (_root s) (_cached_min_node s) (_cached_max_node s) (_size s).

Definition store (x : ptr) (f : Node -> Node) : M tree_st unit := fun s =>
  match x with
  | None => Fault
  | Some a =>
      match heap s !! a with
      | Some n => Ok (tt, with_heap s (<[a := f n]> (heap s)))
      | None => Fault
      end
  end.

Definition set_p (x v : ptr) := store x (fun n => mkNode v (l n) (r n) (color n) (rb_value n)).
Definition set_l (x v : ptr) := store x (fun n => mkNode (p n) v (r n) (color n) (rb_value n)).
Definition set_r (x v : ptr) := store x (fun n => mkNode (p n) (l n) v (color n) (rb_value n)).
Definition set_color (x : ptr) (c : RBColor) :=
  store x (fun n => mkNode (p n) (l n) (r n) c (rb_value n)).

Definition get_p (x : ptr) : M tree_st ptr := n <- load x; ret (p n).
Definition get_l (x : ptr) : M tree_st ptr := n <- load x; ret (l n).
Definition get_r (x : ptr) : M tree_st ptr := n <- load x; ret (r n).
Definition get_color (x : ptr) : M tree_st RBColor := n <- load x; ret (color n).
Definition get_value (x : ptr) : M tree_st Z := n <- load x; ret (rb_value n).

Definition get_root : M tree_st ptr := fun s => Ok (_root s, s).
Definition set_root (v : ptr) : M tree_st unit := fun s =>
  Ok (tt, mkTree (heap s) v (_cached_min_node s) (_cached_max_node s) (_size s)).

(** The bound of every pointer-chasing loop: one more than the number of
    nodes in the heap. *)
Definition bound : M tree_st nat := fun s => Ok (S (size (heap s)), s).

Definition while {L R} (body : L -> M tree_st (L + R)) (x : L) : M tree_st R :=
  n <- bound; loop n body x.

(** [_is_red] and [_is_black] (rbtree.hh:31-32) *)
Definition is_red_color (c : RBColor) : bool := match c with Red => true | Black => false end.

Definition _is_red (x : ptr) : M tree_st bool :=
  if nonnull x then c <- get_color x; ret (is_red_color c) else ret false.

Definition _is_black (x : ptr) : M tree_st bool :=
  if nonnull x then c <- get_color x; ret (negb (is_red_color c)) else ret true.

(** [_get_min_node] / [_get_max_node] *)
Definition _get_min_node (node : ptr) : M tree_st ptr :=
  if negb (nonnull node) then ret None
  else while (fun node =>
         nl <- get_l node;
         if nonnull nl then ret (inl nl) else ret (inr node)) node.

Definition _get_max_node (node : ptr) : M tree_st ptr :=
  if negb (nonnull node) then ret None
  else while (fun node =>
         nr <- get_r node;
         if nonnull nr then ret (inl nr) else ret (inr node)) node.

(** [_lrot] *)
Definition _lrot (x : ptr) : M tree_st unit :=
  y <- get_r x;
  kd_assert (nonnull y);;
  yl <- get_l y;
  set_r x yl;;
  when (nonnull yl) (set_p yl x);;
  xp <- get_p x;
  set_p y xp;;
  (if negb (nonnull xp) then set_root y
   else xpl <- get_l xp;
        if ptr_eqb xpl x then set_l xp y else set_r xp y);;
  set_l y x;;
  set_p x y.

(** [_rrot] *)
Definition _rrot (x : ptr) : M tree_st unit :=
  y <- get_l x;
  kd_assert (nonnull y);;
  yr <- get_r y;
  set_l x yr;;
  when (nonnull yr) (set_p yr x);;
  xp <- get_p x;
  set_p y xp;;
  (if negb (nonnull xp) then set_root y
   else xpl <- get_l xp;
        if ptr_eqb xpl x then set_l xp y else set_r xp y);;
  set_r y x;;
  set_p x y.

(** One round of the [while] loop of [_insert_fixup]: [inr] leaves the loop. *)
Definition insert_fixup_round (v : ptr * ptr) : M tree_st ((ptr * ptr) + unit) :=
  let '(node, gp) := v in
  p <- get_p gp;
  pred <- _is_red p;
  if negb (nonnull p && pred) then ret (inr tt) else
  gp <- get_p p;
  gpl <- get_l gp;
  if ptr_eqb p gpl then
    u <- get_r gp;
    ured <- _is_red u;
    if (ured : bool) then
      set_color p Black;; set_color u Black;; set_color gp Red;;
      ret (inl (gp, gp))
    else
      pr <- get_r p;
      '(node, p) <- (if ptr_eqb node pr then _lrot p;; ret (p, node)
                     else ret (node, p));
      _rrot gp;;
      set_color p Black;;
      set_color gp Red;;
      ret (inl (node, gp))
  else
    u <- get_l gp;
    ured <- _is_red u;
    if (ured : bool) then
      set_color p Black;; set_color u Black;; set_color gp Red;;
      ret (inl (gp, gp))
    else
      pl <- get_l p;
      '(node, p) <- (if ptr_eqb node pl then _rrot p;; ret (p, node)
                     else ret (node, p));
      _lrot gp;;
      set_color p Black;;
      set_color gp Red;;
      ret (inl (node, gp)).

(** [_insert_fixup] *)
Definition _insert_fixup (node : ptr) : M tree_st unit :=
  while insert_fixup_round (node, node);;
  root <- get_root;
  set_color root Black.

(** The unlinking part of [_remove_fixup] (rbtree.cc:116-171): splices [node]
    out and returns [(y, x, p)], the node taken out, the subtree that replaced
    it and that subtree's parent. *)
Definition remove_unlink (node : ptr) : M tree_st (ptr * ptr * ptr) :=
  nl <- get_l node;
  nr <- get_r node;
  '(y, x) <- (if negb (nonnull nl) then ret (node, nr)
              else if negb (nonnull nr) then ret (node, nl)
              else y <- _get_min_node nr; yr <- get_r y; ret (y, yr));
  if negb (ptr_eqb y node) then
    nl <- get_l node;
    set_p nl y;;
    set_l y nl;;
    nr <- get_r node;
    p <- (if negb (ptr_eqb y nr) then
            yp <- get_p y;
            when (nonnull x) (set_p x yp);;
            set_l yp x;;
            set_r y nr;;
            set_p nr y;;
            ret yp
          else ret y);
    root <- get_root;
    np <- get_p node;
    (if ptr_eqb root node then set_root y
     else npl <- get_l np;
          if ptr_eqb npl node then set_l np y else set_r np y);;
    set_p y np;;
    yc <- get_color y;
    nc <- get_color node;
    set_color y nc;;
    set_color node yc;;
    ret (node, x, p)
  else
    p <- get_p y;
    when (nonnull x) (set_p x p);;
    root <- get_root;
    (if ptr_eqb root node then set_root x
     else np <- get_p node;
          npl <- get_l np;
          if ptr_eqb npl node then set_l np x else set_r np x);;
    ret (y, x, p).

(** One round of the rebalancing loop of [_remove_fixup], on [(x, p)]. *)
Definition remove_fixup_round (v : ptr * ptr) : M tree_st ((ptr * ptr) + ptr) :=
  let '(x, p) := v in
  root <- get_root;
  xblack <- _is_black x;
  if negb (negb (ptr_eqb x root) && xblack) then ret (inr x) else
  pl <- get_l p;
  if ptr_eqb x pl then
    w <- get_r p;
    wred <- _is_red w;
    w <- (if (wred : bool) then
            set_color w Black;; set_color p Red;; _lrot p;; get_r p
          else ret w);
    wl <- get_l w;
    wr <- get_r w;
    wlb <- _is_black wl;
    wrb <- _is_black wr;
    if wlb && wrb then
      set_color w Red;;
      pp <- get_p p;
      ret (inl (p, pp))
    else
      w <- (if (wrb : bool) then
              when (nonnull wl) (set_color wl Black);;
              set_color w Red;; _rrot w;; get_r p
            else ret w);
      pc <- get_color p;
      set_color w pc;;
      set_color p Black;;
      wr <- get_r w;
      when (nonnull wr) (set_color wr Black);;
      _lrot p;;
      ret (inr x)
  else
    w <- get_l p;
    wred <- _is_red w;
    w <- (if (wred : bool) then
            set_color w Black;; set_color p Red;; _rrot p;; get_l p
          else ret w);
    wr <- get_r w;
    wl <- get_l w;
    wrb <- _is_black wr;
    wlb <- _is_black wl;
    if wrb && wlb then
      set_color w Red;;
      pp <- get_p p;
      ret (inl (p, pp))
    else
      w <- (if (wlb : bool) then
              when (nonnull wr) (set_color wr Black);;
              set_color w Red;; _lrot w;; get_l p
            else ret w);
      pc <- get_color p;
      set_color w pc;;
      set_color p Black;;
      wl <- get_l w;
      when (nonnull wl) (set_color wl Black);;
      _rrot p;;
      ret (inr x).

(** The rebalancing part of [_remove_fixup] (rbtree.cc:173-241). *)
Definition remove_rebalance (y x p : ptr) : M tree_st ptr :=
  yb <- _is_black y;
  when (yb : bool)
    (x <- while remove_fixup_round (x, p);
     when (nonnull x) (set_color x Black));;
  ret y.

(** [_remove_fixup] *)
Definition _remove_fixup (node : ptr) : M tree_st ptr :=
  '(y, x, p) <- remove_unlink node;
  remove_rebalance y x p.

(** [_get_next] / [_get_prev] *)
Definition climb_next (node : ptr) : M tree_st ptr :=
  while (fun node =>
    np <- get_p node;
    if nonnull np then
      npr <- get_r np;
      if ptr_eqb node npr then ret (inl np) else ret (inr np)
    else ret (inr np)) node.

Definition _get_next (node last_node : ptr) : M tree_st ptr :=
  kd_assert (nonnull node);;
  if negb (ptr_eqb node last_node) then
    nr <- get_r node;
    if nonnull nr then _get_min_node nr else climb_next node
  else ret None.

Definition climb_prev (node : ptr) : M tree_st ptr :=
  while (fun node =>
    np <- get_p node;
    if nonnull np then
      npl <- get_l np;
      if ptr_eqb node npl then ret (inl np) else ret (inr np)
    else ret (inr np)) node.

Definition _get_prev (node first_node : ptr) : M tree_st ptr :=
  kd_assert (nonnull node);;
  if negb (ptr_eqb node first_node) then
    nl <- get_l node;
    if nonnull nl then _get_max_node nl else climb_prev node
  else ret None.

(** [Cmp<T>::operator()] (include/pbos/kfxx/cmp.hh) *)
Definition Cmp (lhs rhs : Z) : Z :=
  if lhs <? rhs then -1 else if rhs <? lhs then 1 else 0.

(** [RBTreeImpl::_get], the non-fallible three-way instance: one round of its
    loop, and the loop. *)
Definition search_round (key : Z) (i : ptr) : M tree_st (ptr + ptr) :=
  if nonnull i then
    v <- get_value i;
    let result := Cmp v key in
    if result <? 0 then x <- get_r i; ret (inl x)
    else if 0 <? result then x <- get_l i; ret (inl x)
    else ret (inr i)
  else ret (inr None).

Definition _get (key : Z) : M tree_st ptr :=
  i <- get_root;
  while (search_round key) i.

(** [RBTreeImpl::_find_max_lteq] *)
Definition lteq_round (key : Z) : ptr * ptr -> M tree_st (ptr * ptr + ptr) :=
  fun '(cur_node, max_node) =>
    if nonnull cur_node then
      v <- get_value cur_node;
      let result := Cmp v key in
      if result <? 0 then x <- get_r cur_node; ret (inl (x, cur_node))
      else if 0 <? result then x <- get_l cur_node; ret (inl (x, max_node))
      else ret (inr cur_node)
    else ret (inr max_node).

Definition _find_max_lteq (data : Z) : M tree_st ptr :=
  root <- get_root;
  while (lteq_round data) (root, None).

(** [RBTreeImpl::_get_slot]: [None] when the key is present, otherwise the
    parent below which the free slot was found. *)
Definition slot_round (key : Z) : ptr * ptr -> M tree_st (ptr * ptr + option ptr) :=
  fun '(i, parent_out) =>
    if nonnull i then
      v <- get_value i;
      let result := Cmp v key in
      if result <? 0 then x <- get_r i; ret (inl (x, i))
      else if 0 <? result then x <- get_l i; ret (inl (x, i))
      else ret (inr None)
    else ret (inr (Some parent_out)).

Definition _get_slot (key : Z) : M tree_st (option ptr) :=
  root <- get_root;
  while (slot_round key) (root, None).

(** [update_node_caches]: the tail shared by [_insert] and [_remove]. *)
Definition update_node_caches (dsize : Z) : M tree_st unit :=
  root <- get_root;
  mn <- _get_min_node root;
  mx <- _get_max_node root;
  fun s => Ok (tt, mkTree (heap s) (_root s) mn mx (w64 (_size s + dsize))).

(** [RBTreeImpl::_insert] *)
Definition _insert (parent node : ptr) : M tree_st bool :=
  nl <- get_l node;
  kd_assert (negb (nonnull nl));;
  nr <- get_r node;
  kd_assert (negb (nonnull nr));;
  root <- get_root;
  (if negb (nonnull root) then
     set_root node;; set_color node Black
   else
     nv <- get_value node;
     pv <- get_value parent;
     let result := Cmp nv pv in
     (if result <? 0 then set_l parent node
      else if 0 <? result then set_r parent node
      else kd_assert false);;
     set_p node parent;;
     set_color node Red;;
     _insert_fixup node);;
  update_node_caches 1;;
  ret true.

(** [RBTreeImpl::_remove] *)
Definition _remove (node : ptr) : M tree_st ptr :=
  y <- _remove_fixup node;
  update_node_caches (-1);;
  ret y.

(** Public operations of [RBTreeImpl]. *)
Definition find_max_lteq (data : Z) : M tree_st ptr := _find_max_lteq data.

Definition find (key : Z) : M tree_st ptr := _get key.

Definition insert (node : ptr) : M tree_st bool :=
  k <- get_value node;
  slot <- _get_slot k;
  match slot with
  | None => ret false
  | Some parent => _insert parent node
  end.

Definition insert_unwrap (node : ptr) : M tree_st unit :=
  b <- insert node;
  if (b : bool) then ret tt else panic.

Definition remove (node : ptr) : M tree_st unit :=
  y <- _remove node;
  set_l y None;;
  set_r y None;;
  set_p y None.

Definition tree_size : M tree_st Z := fun s => Ok (_size s, s).

Definition get_next (node last_node : ptr) : M tree_st ptr := _get_next node last_node.
Definition get_prev (node first_node : ptr) : M tree_st ptr := _get_prev node first_node.

(** [begin().node] *)
Definition begin : M tree_st ptr := root <- get_root; _get_min_node root.

(** ** Iterators *)

(** [enum class IteratorDirection] (include/pbos/kfxx/basedefs.hh) *)
Inductive IteratorDirection := Forward | Reversed | Invalid.

(** [RBTreeImpl::Iterator]; its [tree] member is the state it runs on. *)
Record Iterator := mkIterator { node : ptr; direction : IteratorDirection }.

Definition is_forward (d : IteratorDirection) : bool :=
  match d with Forward => true | _ => false end.

(** [Iterator::operator++] *)
Definition iter_inc (it : Iterator) : M tree_st Iterator :=
  if negb (nonnull (node it)) then panic
  else
    n <- (if is_forward (direction it) then get_next (node it) None
          else get_prev (node it) None);
    ret (mkIterator n (direction it)).

(** [Iterator::operator--] *)
Definition iter_dec (it : Iterator) : M tree_st Iterator := fun s =>
  (if is_forward (direction it) then
     if ptr_eqb (node it) (_cached_min_node s) then panic
     else
       n <- (if negb (nonnull (node it)) then ret (_cached_max_node s)
             else get_prev (node it) None);
       ret (mkIterator n (direction it))
   else
     if ptr_eqb (node it) (_cached_max_node s) then panic
     else
       n <- (if negb (nonnull (node it)) then ret (_cached_min_node s)
             else get_next (node it) None);
       ret (mkIterator n (direction it))) s.

(** [Iterator::operator*] *)
Definition iter_deref (it : Iterator) : M tree_st Z :=
  if negb (nonnull (node it)) then panic else get_value (node it).

(** [begin], [end], [begin_reversed], [end_reversed] *)
Definition iter_begin : M tree_st Iterator := n <- begin; ret (mkIterator n Forward).
Definition iter_end : Iterator := mkIterator None Forward.
Definition iter_begin_reversed : M tree_st Iterator := fun s =>
  Ok (mkIterator (_cached_max_node s) Reversed, s).
Definition iter_end_reversed : Iterator := mkIterator None Reversed.

(** ** Moving a tree

    Two trees over one heap: moving takes the nodes over and leaves the source
    empty; assignment and destruction refuse to drop nodes. *)
Definition reset_tree (other : tree_st) : tree_st := mkTree (heap other) None None None 0.

Definition move_construct (other : tree_st) : tree_st * tree_st :=
  (mkTree (heap other) (_root other) (_cached_min_node other) (_cached_max_node other)
     (_size other), reset_tree other).

Definition move_assign (this other : tree_st) : outcome (tree_st * tree_st) :=
  if nonnull (_root this) then Panic else Ok (move_construct other).

Definition destroy (this : tree_st) : outcome unit :=
  if nonnull (_root this) then Panic else Ok tt.

End RB.
