(* ===== verification/RBTreeSpec.v ===== *)
(** * Red-black trees as values: zippers, invariants, rebalancing

    The functional counterpart of the pointer code of [RBTreeModel].  A tree
    carries the address and the key of each node; a [ctx] is the path from a
    position up to the root.  [ins_fix] and [del_fix] are the rebalancing
    loops of [_insert_fixup] and [_remove_fixup] on that representation.  The
    lemmas of this file show that they keep the in-order sequence and restore
    the red-black invariant; [RBTreeInsert] and [RBTreeRemove] connect them to
    the pointer code. *)

From S2P Require Import Prelude RBTreeModel.
Import RB.

Module RBS.

Inductive tree :=
  | E
  | T (c : RBColor) (a : tree) (x : loc) (k : Z) (b : tree).

(** A step of the path above the focus: [FL] when the focus is the left
    child ([sib] is the right subtree), [FR] when it is the right child. *)
Inductive frame :=
  | FL (c : RBColor) (x : loc) (k : Z) (sib : tree)
  | FR (c : RBColor) (x : loc) (k : Z) (sib : tree).

Definition ctx := list frame.

Definition plug1 (f : frame) (t : tree) : tree :=
  match f with
  | FL c x k b => T c t x k b
  | FR c x k a => T c a x k t
  end.

Fixpoint plug (c : ctx) (t : tree) : tree :=
  match c with
  | [] => t
  | f :: c' => plug c' (plug1 f t)
  end.

Definition isblk (t : tree) : bool := match t with T Red _ _ _ _ => false | _ => true end.
Definition blacken (t : tree) : tree := match t with E => E | T _ a x k b => T Black a x k b end.

(** The in-order sequence of (address, key), of a tree and of what lies left
    and right of a focus. *)
Fixpoint inorder (t : tree) : list (loc * Z) :=
  match t with
  | E => []
  | T _ a x k b => inorder a ++ (x, k) :: inorder b
  end.

Fixpoint cl (c : ctx) : list (loc * Z) :=
  match c with
  | [] => []
  | FL _ _ _ _ :: c' => cl c'
  | FR _ x k a :: c' => cl c' ++ inorder a ++ [(x, k)]
  end.

Fixpoint cr (c : ctx) : list (loc * Z) :=
  match c with
  | [] => []
  | FL _ x k b :: c' => (x, k) :: inorder b ++ cr c'
  | FR _ _ _ _ :: c' => cr c'
  end.

Definition zipper_list (c : ctx) (t : tree) : list (loc * Z) := cl c ++ inorder t ++ cr c.

Lemma inorder_plug c t : inorder (plug c t) = zipper_list c t.
Proof.
  unfold zipper_list. revert t.
  induction c as [|[? x k b|? x k a] c IH]; intros t; simpl.
  - by rewrite app_nil_r.
  - rewrite IH. simpl. by rewrite -!app_assoc.
  - rewrite IH. simpl. by rewrite -!app_assoc.
Qed.

Lemma inorder_blacken t : inorder (blacken t) = inorder t.
Proof. by destruct t. Qed.

Lemma isblk_blacken t : isblk (blacken t) = true.
Proof. by destruct t. Qed.

Lemma blacken_id t : isblk t = true -> blacken t = t.
Proof. by destruct t as [|[] ????]. Qed.

(** ** The red-black invariant

    [rbh t n]: [t] has no red node with a red child and every path to a leaf
    crosses [n] black nodes. *)
Inductive rbh : tree -> nat -> Prop :=
  | rbh_E : rbh E 0
  | rbh_R a x k b n :
      rbh a n -> rbh b n -> isblk a = true -> isblk b = true -> rbh (T Red a x k b) n
  | rbh_B a x k b n :
      rbh a n -> rbh b n -> rbh (T Black a x k b) (S n).

Definition is_rb (t : tree) : Prop := isblk t = true /\ exists n, rbh t n.

(** Whether a tree plugged into the context must have a black root. *)
Definition needs_black (c : ctx) : bool :=
  match c with
  | [] => true
  | FL Red _ _ _ :: _ | FR Red _ _ _ :: _ => true
  | _ => false
  end.

(** [crb c n]: plugging a tree of black height [n] into [c] gives a
    red-black tree. *)
Inductive crb : ctx -> nat -> Prop :=
  | crb_nil n : crb [] n
  | crb_LR x k b c n :
      rbh b n -> isblk b = true -> needs_black c = false -> crb c n ->
      crb (FL Red x k b :: c) n
  | crb_LB x k b c n : rbh b n -> crb c (S n) -> crb (FL Black x k b :: c) n
  | crb_RR x k a c n :
      rbh a n -> isblk a = true -> needs_black c = false -> crb c n ->
      crb (FR Red x k a :: c) n
  | crb_RB x k a c n : rbh a n -> crb c (S n) -> crb (FR Black x k a :: c) n.

#[export] Hint Constructors rbh crb : pbos.

(** What a focus satisfies: black height [n], and a black root if needed. *)
Definition fits (c : ctx) (t : tree) (n : nat) : Prop :=
  crb c n /\ rbh t n /\ (needs_black c = true -> isblk t = true).

Lemma fits_plug c t n : fits c t n -> is_rb (plug c t).
Proof.
  revert t n. induction c as [|f c IH]; intros t n (Hc & Ht & Hb); simpl.
  - split; [by apply Hb | by exists n].
  - inversion Hc; subst; simpl in *;
      [ apply (IH _ n) | apply (IH _ (S n)) | apply (IH _ n) | apply (IH _ (S n)) ];
      (split; [done | split; [constructor; auto | simpl; congruence]]).
Qed.

Lemma fits_plug_blacken c t n : fits c t n -> is_rb (blacken (plug c t)).
Proof.
  intros Hf%fits_plug. by rewrite (blacken_id _ (proj1 Hf)).
Qed.

Lemma plug_fits c t : is_rb (plug c t) -> exists n, fits c t n.
Proof.
  revert t. induction c as [|f c IH]; intros t Hp; simpl in *.
  - destruct Hp as [Hb [n Hn]]. exists n. unfold fits. eauto with pbos.
  - destruct (IH _ Hp) as (n & Hc & Ht & Hb).
    destruct f as [[] x k b|[] x k a]; inversion Ht; subst; simpl in *; eexists;
      (split; [| split; [eassumption | done]]);
      [apply crb_LB | apply crb_LR | apply crb_RB | apply crb_RR]; auto;
      destruct (needs_black c); naive_solver.
Qed.

Lemma rbh_blacken t n : rbh t n -> exists m, rbh (blacken t) m.
Proof. inversion 1; subst; simpl; eauto with pbos. Qed.

Lemma rbh_blacken_red a x k b n :
  rbh (T Red a x k b) n -> rbh (T Black a x k b) (S n).
Proof. inversion 1; subst; eauto with pbos. Qed.

(** ** Rebalancing after an insertion *)

Fixpoint ins_fix (c : ctx) (t : tree) : tree :=
  match c with
  | FL Red px pk pb :: FL _ gx gk u :: c' =>
      if isblk u then plug c' (T Black t px pk (T Red pb gx gk u))
      else ins_fix c' (T Red (T Black t px pk pb) gx gk (blacken u))
  | FR Red px pk pa :: FL _ gx gk u :: c' =>
      if isblk u then
        match t with
        | T _ ta x k tb => plug c' (T Black (T Red pa px pk ta) x k (T Red tb gx gk u))
        | E => plug c t
        end
      else ins_fix c' (T Red (T Black pa px pk t) gx gk (blacken u))
  | FR Red px pk pa :: FR _ gx gk u :: c' =>
      if isblk u then plug c' (T Black (T Red u gx gk pa) px pk t)
      else ins_fix c' (T Red (blacken u) gx gk (T Black pa px pk t))
  | FL Red px pk pb :: FR _ gx gk u :: c' =>
      if isblk u then
        match t with
        | T _ ta x k tb => plug c' (T Black (T Red u gx gk ta) x k (T Red tb px pk pb))
        | E => plug c t
        end
      else ins_fix c' (T Red (blacken u) gx gk (T Black t px pk pb))
  | _ => plug c t
  end.

(** Two frames at a time, as the loop walks. *)
Lemma ctx_ind2 (P : ctx -> Prop) :
  P [] -> (forall f, P [f]) -> (forall f g c, P c -> P (f :: g :: c)) -> forall c, P c.
Proof.
  intros H0 H1 H2 c. enough (P c /\ forall f, P (f :: c)) by tauto.
  induction c as [|g c [IH1 IH2]]; auto.
Qed.

Ltac list_norm := repeat (rewrite -?app_assoc /=); rewrite ?inorder_blacken.

Lemma ins_fix_inorder c t : inorder (ins_fix c t) = zipper_list c t.
Proof.
  revert t. induction c as [|f|f g c IH] using ctx_ind2; intros t.
  - by rewrite -inorder_plug.
  - rewrite -inorder_plug. by destruct f as [[]|[]].
  - destruct f as [[] x k b|[] x k a], g as [? gx gk u|? gx gk u];
      try (by rewrite -inorder_plug);
      cbn -[zipper_list]; destruct (isblk u), t;
      rewrite ?IH ?inorder_plug; unfold zipper_list; simpl; by list_norm.
Qed.

(** A red tree of the right height at a position that may already have a red
    parent: the state of the loop. *)
Lemma ins_fix_rb c a x k b n :
  crb c n -> rbh (T Red a x k b) n -> is_rb (blacken (ins_fix c (T Red a x k b))).
Proof.
  revert a x k b n.
  induction c as [|f|f g c IH] using ctx_ind2; intros a x k b n Hc Ht.
  - split; [apply isblk_blacken | by apply rbh_blacken with n].
  - inversion Hc; subst; simpl in *; try done; (split; [done |]); eauto with pbos.
  - assert (Hfit : needs_black (f :: g :: c) = false ->
      is_rb (blacken (plug (f :: g :: c) (T Red a x k b)))).
    { intros Hn. apply fits_plug_blacken with n. by rewrite /fits Hn. }
    inversion Hc; subst; try by apply Hfit.
    all: match goal with Hg : crb ?gc _, _ : needs_black ?gc = false |- _ => inversion Hg; subst; try done end.
    all: inversion Ht; subst; simpl; clear Hfit.
    all: match goal with |- context [isblk ?u] => destruct (isblk u) eqn:Hub end.
    all: match goal with
         | |- is_rb (blacken (plug _ _)) =>
             eapply fits_plug_blacken; split; [eassumption | split; [eauto 8 with pbos | done]]
         | IH : forall _, _, Hu : rbh ?u _, Hub : isblk ?u = false |- _ =>
             eapply IH; [eassumption |];
             inversion Hu; subst; try done; simpl; eauto 8 with pbos
         end.
Qed.

(** ** Rebalancing after a removal *)

(** One position below a node of colour [pc]: [t] is one black node short and
    its sibling [w] is black.  The flag tells whether the shortage is gone. *)
Definition balL (pc : RBColor) (t : tree) (px : loc) (pk : Z) (w : tree) : option (tree * bool) :=
  match w with
  | T Black a wx wk b =>
      if isblk a && isblk b then Some (T pc t px pk (T Red a wx wk b), false)
      else if isblk b then
        match a with
        | T _ aa ax ak ab => Some (T pc (T Black t px pk aa) ax ak (T Black ab wx wk b), true)
        | E => None
        end
      else Some (T pc (T Black t px pk a) wx wk (blacken b), true)
  | _ => None
  end.

Definition balR (pc : RBColor) (w : tree) (px : loc) (pk : Z) (t : tree) : option (tree * bool) :=
  match w with
  | T Black a wx wk b =>
      if isblk b && isblk a then Some (T pc (T Red a wx wk b) px pk t, false)
      else if isblk a then
        match b with
        | T _ ba bx bk bb => Some (T pc (T Black a wx wk ba) bx bk (T Black bb px pk t), true)
        | E => None
        end
      else Some (T pc (blacken a) wx wk (T Black b px pk t), true)
  | _ => None
  end.

(** The outcome of a balancing step put back into its context: finished, or
    still short (then a red root is simply blackened). *)
Definition settle (c : ctx) (r : option (tree * bool)) : option tree :=
  match r with
  | Some (s, true) => Some (plug c s)
  | Some (s, false) => Some (plug c (blacken s))
  | None => None
  end.

Fixpoint del_fix (c : ctx) (t : tree) : option tree :=
  if isblk t then
    match c with
    | [] => Some t
    | FL _ px pk (T Red wa wx wk wb) :: c' =>
        settle (FL Black wx wk wb :: c') (balL Red t px pk wa)
    | FL pc px pk w :: c' =>
        match balL pc t px pk w with
        | Some (s, true) => Some (plug c' s)
        | Some (s, false) => del_fix c' s
        | None => None
        end
    | FR _ px pk (T Red wa wx wk wb) :: c' =>
        settle (FR Black wx wk wa :: c') (balR Red wb px pk t)
    | FR pc px pk w :: c' =>
        match balR pc w px pk t with
        | Some (s, true) => Some (plug c' s)
        | Some (s, false) => del_fix c' s
        | None => None
        end
    end
  else Some (plug c (blacken t)).

Definition root_height (pc : RBColor) (n : nat) : nat :=
  match pc with Red => n | Black => S n end.

(** What a balancing step guarantees: the sequence is kept, the colour of the
    position is kept, and the height is either restored or short by one with
    the root blackened. *)
Definition bal_post (pc : RBColor) (ls : list (loc * Z)) (n : nat)
    (r : option (tree * bool)) : Prop :=
  exists s fin, r = Some (s, fin) /\ inorder s = ls /\
    isblk s = bool_decide (pc = Black) /\
    if fin then rbh s (root_height pc (S n)) else rbh (blacken s) (S n).

Lemma balL_spec pc t px pk w n :
  rbh t n -> isblk t = true -> rbh w (S n) -> isblk w = true ->
  bal_post pc (inorder t ++ (px, pk) :: inorder w) n (balL pc t px pk w).
Proof.
  intros Ht Htb Hw Hwb. inversion Hw as [|? ? ? ? ? ? ? ? ?|a wx wk b ? Ha Hb]; subst; [done |].
  unfold bal_post; simpl.
  destruct a as [|[] aa ax ak ab], b as [|[] ba bx bk bb]; simpl;
    (do 2 eexists; split; [done |]); simpl; list_norm;
    (split; [done |]); (split; [by destruct pc |]);
    inversion Ha; inversion Hb; subst; try (destruct pc); simpl; eauto 9 with pbos.
Qed.

Lemma balR_spec pc t px pk w n :
  rbh t n -> isblk t = true -> rbh w (S n) -> isblk w = true ->
  bal_post pc (inorder w ++ (px, pk) :: inorder t) n (balR pc w px pk t).
Proof.
  intros Ht Htb Hw Hwb. inversion Hw as [|? ? ? ? ? ? ? ? ?|a wx wk b ? Ha Hb]; subst; [done |].
  unfold bal_post; simpl.
  destruct a as [|[] aa ax ak ab], b as [|[] ba bx bk bb]; simpl;
    (do 2 eexists; split; [done |]); simpl; list_norm;
    (split; [done |]); (split; [by destruct pc |]);
    inversion Ha; inversion Hb; subst; try (destruct pc); simpl; eauto 9 with pbos.
Qed.

Definition del_post (ls : list (loc * Z)) (r : option tree) : Prop :=
  exists t, r = Some t /\ is_rb t /\ inorder t = ls.

Lemma settle_spec c ls n r :
  crb c (S n) -> needs_black c = false -> bal_post Red ls n r ->
  del_post (cl c ++ ls ++ cr c) (settle c r).
Proof.
  intros Hc Hn (s & fin & -> & Hin & Hb & Hs).
  destruct fin; simpl; eexists; (split; [done | split]).
  - apply fits_plug with (S n). by rewrite /fits Hn.
  - by rewrite inorder_plug /zipper_list Hin.
  - apply fits_plug with (S n). by rewrite /fits Hn.
  - by rewrite inorder_plug /zipper_list inorder_blacken Hin.
Qed.

Lemma del_fix_red c t n :
  crb c (S n) -> rbh t n -> isblk t = false -> del_post (zipper_list c t) (del_fix c t).
Proof.
  intros Hc Ht Hb. exists (plug c (blacken t)).
  destruct t as [|[] a x k b]; try done. split; [by destruct c | split].
  - apply fits_plug with (S n). split; [done | split; [by apply rbh_blacken_red | done]].
  - by rewrite inorder_plug.
Qed.

(** A balancing step with a black sibling, and the rest of the loop above it:
    [IH] is the statement for the remaining path. *)
Lemma del_continue c pc ls n r :
  (forall t n, crb c (S n) -> rbh t n -> isblk t = true ->
     del_post (zipper_list c t) (del_fix c t)) ->
  crb c (root_height pc (S n)) -> (pc = Red -> needs_black c = false) ->
  bal_post pc ls n r ->
  del_post (cl c ++ ls ++ cr c)
    (match r with Some (s, true) => Some (plug c s) | Some (s, false) => del_fix c s | None => None end).
Proof.
  intros IH Hc Hn (s & fin & -> & <- & Hb & Hs). fold (zipper_list c s). destruct fin.
  - eexists. split; [done | split; [| by rewrite inorder_plug]].
    apply fits_plug with (root_height pc (S n)). split; [done | split; [done |]].
    intros Hnb. destruct pc; [done | naive_solver].
  - destruct pc; simpl in *.
    + apply IH with (S n); [done | | done]. by rewrite (blacken_id s Hb) in Hs.
    + destruct s as [|[] a x k b]; try done. inversion Hs; subst.
      exists (plug c (T Black a x k b)). split; [by destruct c | split].
      * apply fits_plug with (S n). by split; [| split].
      * by rewrite inorder_plug.
Qed.

(** [del_fix] repairs a tree that is one black node short at the focus. *)
Lemma del_fix_ok c t n :
  crb c (S n) -> rbh t n -> del_post (zipper_list c t) (del_fix c t).
Proof.
  intros Hc Ht. destruct (isblk t) eqn:Hb; [| by apply del_fix_red with n].
  revert t n Hc Ht Hb. induction c as [|f c IH]; intros t n Hc Ht Hb.
  - simpl. rewrite Hb. exists t. unfold is_rb, zipper_list. simpl. rewrite app_nil_r. eauto.
  - assert (IH' : forall t n, crb c (S n) -> rbh t n -> isblk t = true ->
      del_post (zipper_list c t) (del_fix c t)) by eauto.
    inversion Hc as [|x k w c' ? Hw Hwb Hnb Hc'|x k w c' ? Hw Hc'
                     |x k w c' ? Hw Hwb Hnb Hc'|x k w c' ? Hw Hc']; subst; simpl; rewrite Hb.
    + pose proof (del_continue c Red _ n _ IH' Hc' (fun _ => Hnb)
        (balL_spec Red t x k w n Ht Hb Hw Hwb)) as H.
      unfold zipper_list; simpl. rewrite -!app_assoc /= in H. by destruct w as [|[]].
    + destruct (isblk w) eqn:Hwb.
      * pose proof (del_continue c Black _ n _ IH' Hc' (fun H => match H with end)
          (balL_spec Black t x k w n Ht Hb Hw Hwb)) as H.
        unfold zipper_list; simpl. rewrite -!app_assoc /= in H. by destruct w as [|[]].
      * destruct w as [|[] wa wx wk wb]; try done. inversion Hw; subst.
        pose proof (settle_spec (FL Black wx wk wb :: c) _ n _ ltac:(eauto with pbos) eq_refl
          (balL_spec Red t x k wa n Ht Hb ltac:(done) ltac:(done))) as H.
        unfold zipper_list; simpl in *. by rewrite -!app_assoc /= -?app_assoc /= in H |- *.
    + pose proof (del_continue c Red _ n _ IH' Hc' (fun _ => Hnb)
        (balR_spec Red t x k w n Ht Hb Hw Hwb)) as H.
      unfold zipper_list; simpl. rewrite -!app_assoc /= in H |- *. by destruct w as [|[]].
    + destruct (isblk w) eqn:Hwb.
      * pose proof (del_continue c Black _ n _ IH' Hc' (fun H => match H with end)
          (balR_spec Black t x k w n Ht Hb Hw Hwb)) as H.
        unfold zipper_list; simpl. rewrite -!app_assoc /= in H |- *. by destruct w as [|[]].
      * destruct w as [|[] wa wx wk wb]; try done. inversion Hw; subst.
        pose proof (settle_spec (FR Black wx wk wa :: c) _ n _ ltac:(eauto with pbos) eq_refl
          (balR_spec Red t x k wb n Ht Hb ltac:(done) ltac:(done))) as H.
        unfold zipper_list; simpl in *. by rewrite -!app_assoc /= -?app_assoc /= in H |- *.
Qed.

End RBS.
