(* ===== verification/RBTreeShape.v ===== *)
(** * From the heap to trees: representation predicates and rotations

    [zrep s c t] says that the pointer structure of the state [s] is the tree
    [t] in focus below the path [c]: child, parent and root pointers, colours
    and keys all agree, and no address occurs twice.  The lemmas give the
    effect of reading, recolouring and rotating at the focus. *)

From S2P Require Import Prelude RBTreeModel RBTreeSpec.
Import RB RBS.

Module RBShape.

Definition rt (t : tree) : ptr := match t with E => None | T _ _ x _ _ => Some x end.
Definition tlocs (t : tree) : list loc := (inorder t).*1.

Definition floc (f : frame) : loc := match f with FL _ x _ _ | FR _ x _ _ => x end.
Definition cpar (c : ctx) : ptr := match c with [] => None | f :: _ => Some (floc f) end.

(** The root pointer of a focus. *)
Fixpoint croot (c : ctx) (hole : ptr) : ptr :=
  match c with [] => hole | f :: c' => croot c' (Some (floc f)) end.

Fixpoint rep (h : gmap loc Node) (par : ptr) (t : tree) : Prop :=
  match t with
  | E => True
  | T c a x k b =>
      h !! x = Some (mkNode par (rt a) (rt b) c k) /\ rep h (Some x) a /\ rep h (Some x) b
  end.

Fixpoint crep (h : gmap loc Node) (c : ctx) (hole : ptr) : Prop :=
  match c with
  | [] => True
  | FL col x k b :: c' =>
      h !! x = Some (mkNode (cpar c') hole (rt b) col k) /\ rep h (Some x) b /\ crep h c' (Some x)
  | FR col x k a :: c' =>
      h !! x = Some (mkNode (cpar c') (rt a) hole col k) /\ rep h (Some x) a /\ crep h c' (Some x)
  end.

Definition zlocs (c : ctx) (t : tree) : list loc := (zipper_list c t).*1.

Definition zrep (s : tree_st) (c : ctx) (t : tree) : Prop :=
  _root s = croot c (rt t) /\ crep (heap s) c (rt t) /\ rep (heap s) (cpar c) t /\
  NoDup (zlocs c t).

(** The whole tree of a state. *)
Definition treerep (s : tree_st) (t : tree) : Prop := zrep s [] t.

(** [s'] differs from [s] only in the nodes [ls] and in the root pointer. *)
Definition touches (s s' : tree_st) (ls : list loc) : Prop :=
  (forall z, z ∉ ls -> heap s' !! z = heap s !! z) /\ dom (heap s') = dom (heap s) /\
  _cached_min_node s' = _cached_min_node s /\ _cached_max_node s' = _cached_max_node s /\
  _size s' = _size s.

Lemma touches_refl s ls : touches s s ls.
Proof. repeat split. Qed.

Lemma touches_trans s1 s2 s3 ls :
  touches s1 s2 ls -> touches s2 s3 ls -> touches s1 s3 ls.
Proof.
  intros (E1 & D1 & ? & ? & ?) (E2 & D2 & ? & ? & ?). repeat split; try congruence.
  intros z Hz. by rewrite E2 // E1.
Qed.

Lemma touches_size s s' ls : touches s s' ls -> size (heap s') = size (heap s).
Proof. intros (_ & D & _). by rewrite -!size_dom D. Qed.

(** ** Moving the focus *)

Lemma zipper_list_plug1 f c t : zipper_list c (plug1 f t) = zipper_list (f :: c) t.
Proof. unfold zipper_list. destruct f; simpl; by rewrite -!app_assoc /=. Qed.

Lemma zrep_up s f c t : zrep s (f :: c) t <-> zrep s c (plug1 f t).
Proof.
  unfold zrep, zlocs. rewrite zipper_list_plug1.
  destruct f; simpl; intuition.
Qed.

Lemma zrep_plug s c t : zrep s c t <-> treerep s (plug c t).
Proof.
  revert t. induction c as [|f c IH]; intros t; simpl; [done |].
  by rewrite zrep_up IH.
Qed.

Lemma zrep_left s c col a x k b : zrep s c (T col a x k b) <-> zrep s (FL col x k b :: c) a.
Proof. symmetry. apply (zrep_up s (FL col x k b)). Qed.

Lemma zrep_right s c col a x k b : zrep s c (T col a x k b) <-> zrep s (FR col x k a :: c) b.
Proof. symmetry. apply (zrep_up s (FR col x k a)). Qed.

(** ** Frame properties *)

Lemma tlocs_T c a x k b : tlocs (T c a x k b) = tlocs a ++ x :: tlocs b.
Proof. unfold tlocs. simpl. by rewrite fmap_app fmap_cons. Qed.

Lemma rep_ext h h' par t :
  (forall z, z ∈ tlocs t -> h' !! z = h !! z) -> rep h par t -> rep h' par t.
Proof.
  revert par. induction t as [|c a IHa x k b IHb]; intros par He; simpl; [done |].
  setoid_rewrite tlocs_T in He. intros (Hx & Ha & Hb).
  split; [| split].
  - rewrite He; [set_solver | done].
  - apply IHa; [| done]. intros; apply He; set_solver.
  - apply IHb; [| done]. intros; apply He; set_solver.
Qed.

Lemma crep_ext h h' c hole :
  (forall z, z ∈ (cl c).*1 \/ z ∈ (cr c).*1 -> h' !! z = h !! z) ->
  crep h c hole -> crep h' c hole.
Proof.
  revert hole. induction c as [|[col x k b|col x k a] c IH]; intros hole He; simpl; [done | |].
  all: intros (Hx & Hs & Hc); simpl in He; rewrite ?fmap_app ?fmap_cons ?fmap_app /= in He.
  all: split; [rewrite He; [set_solver | done] |].
  all: split; [apply rep_ext with h; [intros z Hz; apply He; unfold tlocs in Hz; set_solver | done]
              | apply IH; [intros z Hz; apply He; set_solver | done]].
Qed.

(** ** Disjointness facts from [NoDup] *)

Ltac nodup H :=
  unfold zlocs, zipper_list in H; cbn [cl cr inorder app] in H;
  repeat (progress (rewrite ?fmap_app ?fmap_cons ?fmap_nil in H; cbn [fst app] in H));
  repeat match goal with
  | |- context [(inorder ?t).*1] => change (inorder t).*1 with (tlocs t)
  | H : context [(inorder ?t).*1] |- _ => change (inorder t).*1 with (tlocs t) in H
  end;
  repeat match goal with
  | H : NoDup (_ ++ _) |- _ => apply list.NoDup_app in H as (? & ? & ?)
  | H : NoDup (_ :: _) |- _ => apply list.NoDup_cons in H as (? & ?)
  end.

Lemma rep_insert h par t x n : x ∉ tlocs t -> rep h par t -> rep (<[x := n]> h) par t.
Proof.
  intros Hx. apply rep_ext. intros z Hz. rewrite lookup_insert_ne; [by intros -> | done].
Qed.

Lemma crep_insert h c hole x n :
  x ∉ (cl c).*1 -> x ∉ (cr c).*1 -> crep h c hole -> crep (<[x := n]> h) c hole.
Proof.
  intros H1 H2. apply crep_ext. intros z Hz.
  rewrite lookup_insert_ne; [intros ->; tauto | done].
Qed.

(** Closing goals of the form [x ∉ ls] or [x <> y] from the [NoDup] facts. *)
Ltac in_list :=
  match goal with
  | H : ?x ∈ ?L |- ?x ∈ ?L => exact H
  | |- ?x ∈ ?x :: _ => apply list_elem_of_here
  | |- _ ∈ _ :: _ => apply list_elem_of_further; in_list
  | |- _ ∈ _ ++ _ => apply elem_of_app; first [left; in_list | right; in_list]
  end.

Ltac clash x :=
  match goal with
  | H : x ∉ _ |- False => apply H; in_list
  | H : forall z, z ∈ _ -> z ∉ _ |- False => apply (H x); in_list
  end.

Ltac apart :=
  first [ assumption | congruence
        | match goal with
          | |- ?x <> ?y => intros <-; clash x
          | |- ?x ∉ _ => intros ?; clash x
          end ].

Lemma rt_ne t x : x ∉ tlocs t -> rt t <> Some x.
Proof. destruct t; simpl; [done |]. rewrite tlocs_T. set_solver. Qed.

(** ** Running the pointer code

    [exec] evaluates the monadic code on a state whose relevant lookups are
    hypotheses, deciding pointer comparisons from the disequalities at hand. *)

Ltac lookup_step :=
  match goal with
  | |- context [<[?i := _]> _ !! ?i] => rewrite lookup_insert_eq
  | |- context [<[?i := _]> _ !! ?j] => rewrite (lookup_insert_ne _ i j); [congruence |]
  | H : ?h !! ?i = Some _ |- context [?h !! ?i] => rewrite H
  | H : ?h !! ?i = None |- context [?h !! ?i] => rewrite H
  end.

Ltac ptr_step :=
  match goal with
  | |- context [ptr_eqb ?a ?a] => rewrite (ptr_eqb_refl a)
  | |- context [ptr_eqb (rt ?t) (Some ?x)] =>
      rewrite (ptr_eqb_ne (rt t) (Some x)); [apply rt_ne; apart |]
  | |- context [ptr_eqb (Some ?x) (rt ?t)] =>
      rewrite (ptr_eqb_ne (Some x) (rt t)); [apply not_eq_sym, rt_ne; apart |]
  | |- context [ptr_eqb ?a ?b] => rewrite (ptr_eqb_ne a b); [congruence |]
  end.

Ltac exec :=
  repeat first
    [ progress cbn [bind ret load store with_heap heap _root _cached_min_node _cached_max_node
        _size p l r color rb_value get_p get_l get_r get_color get_value set_p set_l set_r
        set_color get_root set_root nonnull negb andb kd_assert when rt cpar floc]
    | progress unfold bind, ret, load, store, get_p, get_l, get_r, get_color, get_value,
        set_p, set_l, set_r, set_color, get_root, set_root, kd_assert, when, with_heap
    | lookup_step | ptr_step ].

Ltac repsolve :=
  repeat match goal with
  | |- _ /\ _ => split
  | |- True => exact I
  | |- rep (<[_ := _]> _) _ ?t => apply rep_insert; [apart |]
  | |- crep (<[_ := _]> _) ?c _ => apply crep_insert; [apart | apart |]
  | |- _ !! _ = Some _ => repeat lookup_step; reflexivity
  | |- _ => assumption
  end.

(** [msteps] runs the code one operation at a time, leaving the rest folded. *)
Section Steps.
Context {B : Type} (s : tree_st) (a : loc) (n : Node).
Hypothesis Ha : heap s !! a = Some n.

Lemma bind_load (f : Node -> M tree_st B) : bind (load (Some a)) f s = f n s.
Proof. apply bind_ok. unfold load. by rewrite Ha. Qed.

Lemma bind_get_p (f : ptr -> M tree_st B) : bind (get_p (Some a)) f s = f (p n) s.
Proof. unfold get_p. by rewrite bind_assoc bind_load. Qed.

Lemma bind_get_l (f : ptr -> M tree_st B) : bind (get_l (Some a)) f s = f (l n) s.
Proof. unfold get_l. by rewrite bind_assoc bind_load. Qed.

Lemma bind_get_r (f : ptr -> M tree_st B) : bind (get_r (Some a)) f s = f (r n) s.
Proof. unfold get_r. by rewrite bind_assoc bind_load. Qed.

Lemma bind_get_color (f : RBColor -> M tree_st B) :
  bind (get_color (Some a)) f s = f (color n) s.
Proof. unfold get_color. by rewrite bind_assoc bind_load. Qed.

Lemma bind_get_value (f : Z -> M tree_st B) :
  bind (get_value (Some a)) f s = f (rb_value n) s.
Proof. unfold get_value. by rewrite bind_assoc bind_load. Qed.

Lemma bind_is_red (f : bool -> M tree_st B) :
  bind (_is_red (Some a)) f s = f (is_red_color (color n)) s.
Proof. unfold _is_red. simpl. by rewrite bind_assoc bind_get_color. Qed.

Lemma bind_is_black (f : bool -> M tree_st B) :
  bind (_is_black (Some a)) f s = f (negb (is_red_color (color n))) s.
Proof. unfold _is_black. simpl. by rewrite bind_assoc bind_get_color. Qed.
End Steps.

Lemma bind_get_root {B} s (f : ptr -> M tree_st B) : bind get_root f s = f (_root s) s.
Proof. reflexivity. Qed.

Ltac mstep :=
  lazymatch goal with
  | |- context [bind (bind _ _) _ _] => rewrite bind_assoc
  | |- context [bind (ret _) _ _] => rewrite bind_ret
  | |- context [bind (kd_assert true) _ _] => rewrite bind_assert
  | |- context [bind get_root _ _] => rewrite bind_get_root
  | |- context [bind (_is_red None) _ _] => unfold _is_red
  | |- context [bind (_is_black None) _ _] => unfold _is_black
  | |- context [bind (?g (Some ?a)) _ ?s] =>
      match goal with H : heap s !! a = Some _ |- _ =>
        lazymatch g with
        | get_p => rewrite (bind_get_p _ _ _ H)
        | get_l => rewrite (bind_get_l _ _ _ H)
        | get_r => rewrite (bind_get_r _ _ _ H)
        | get_color => rewrite (bind_get_color _ _ _ H)
        | get_value => rewrite (bind_get_value _ _ _ H)
        | _is_red => rewrite (bind_is_red _ _ _ H)
        | _is_black => rewrite (bind_is_black _ _ _ H)
        end
      end
  end.

Ltac msteps :=
  repeat first
    [ mstep
    | progress cbn [p l r color rb_value nonnull negb andb is_red_color rt cpar floc plug1 when]
    | ptr_step ].

(** The same addresses in the same order. *)
Ltac same_locs H :=
  unfold zlocs, zipper_list in H |- *; simpl in H |- *;
  repeat (rewrite -?app_assoc /= in H); repeat (rewrite -?app_assoc /=); exact H.

Ltac inlocs :=
  unfold zlocs, zipper_list; cbn [cl cr inorder app];
  repeat (progress (rewrite ?fmap_app ?fmap_cons; cbn [fst app])); in_list.

Ltac touch_solve :=
  unfold touches; simpl; split_and!; try reflexivity;
  lazymatch goal with
  | |- dom _ = _ => repeat (rewrite dom_insert_lookup_L; [repeat lookup_step; eauto |]); reflexivity
  | |- _ =>
      let z' := fresh "z" in let Hz := fresh "Hz" in intros z' Hz;
      repeat (rewrite lookup_insert_ne; [intros ->; apply Hz; inlocs |]); reflexivity
  end.

(** Record that the named addresses are pairwise distinct. *)
Tactic Notation "distinct" constr(x) constr(y) := assert (x <> y) by apart.
Tactic Notation "distinct" constr(x) constr(y) constr(z) := distinct x y; distinct x z; distinct y z.
Tactic Notation "distinct" constr(x) constr(y) constr(z) constr(w) :=
  distinct x y z; distinct x w; distinct y w; distinct z w.

(** [_lrot] and [_rrot] at the focus rotate the tree; each undoes the other. *)
Lemma lrot_ok s c cx a x kx cy b y ky d :
  zrep s c (T cx a x kx (T cy b y ky d)) ->
  exists s', _lrot (Some x) s = Ok (tt, s') /\
    zrep s' c (T cy (T cx a x kx b) y ky d) /\
    touches s s' (zlocs c (T cx a x kx (T cy b y ky d))).
Proof.
  destruct s as [h root mn mx sz].
  intros (Hroot & Hc & Ht & Hnd). simpl in Ht.
  destruct c as [|[pc px pk pb|pc px pk pa] c], b as [|bc ba bx bk bb];
    pose proof Hnd as Hnd'; nodup Hnd'; simpl in *; destruct_and?;
    [ distinct x y | distinct x y bx | distinct x y px | distinct x y bx px
    | distinct x y px | distinct x y bx px ];
    (eexists; split; [unfold _lrot; exec; reflexivity |]);
    (split; [unfold zrep; simpl; repsolve; first [done | same_locs Hnd] | touch_solve]).
Qed.

Lemma rrot_ok s c cx a x kx cy b y ky d :
  zrep s c (T cy (T cx a x kx b) y ky d) ->
  exists s', _rrot (Some y) s = Ok (tt, s') /\
    zrep s' c (T cx a x kx (T cy b y ky d)) /\
    touches s s' (zlocs c (T cy (T cx a x kx b) y ky d)).
Proof.
  destruct s as [h root mn mx sz].
  intros (Hroot & Hc & Ht & Hnd). simpl in Ht.
  destruct c as [|[pc px pk pb|pc px pk pa] c], b as [|bc ba bx bk bb];
    pose proof Hnd as Hnd'; nodup Hnd'; simpl in *; destruct_and?;
    [ distinct x y | distinct x y bx | distinct x y px | distinct x y bx px
    | distinct x y px | distinct x y bx px ];
    (eexists; split; [unfold _rrot; exec; reflexivity |]);
    (split; [unfold zrep; simpl; repsolve; first [done | same_locs Hnd] | touch_solve]).
Qed.

(** ** Reading and recolouring at the focus *)

Lemma zrep_node s c col a x k b :
  zrep s c (T col a x k b) -> heap s !! x = Some (mkNode (cpar c) (rt a) (rt b) col k).
Proof. by intros (_ & _ & (? & _) & _). Qed.

Lemma zrep_frameL s col x k b c t :
  zrep s (FL col x k b :: c) t -> heap s !! x = Some (mkNode (cpar c) (rt t) (rt b) col k).
Proof. by intros (_ & (? & _) & _). Qed.

Lemma zrep_frameR s col x k a c t :
  zrep s (FR col x k a :: c) t -> heap s !! x = Some (mkNode (cpar c) (rt a) (rt t) col k).
Proof. by intros (_ & (? & _) & _). Qed.

Lemma zrep_root s c t : zrep s c t -> _root s = croot c (rt t).
Proof. by intros (? & _). Qed.

Lemma is_red_ok s par t : rep (heap s) par t -> _is_red (rt t) s = Ok (negb (isblk t), s).
Proof.
  destruct t as [|[] a x k b]; [done | |]; intros (Hx & _); unfold _is_red; simpl; by exec.
Qed.

Lemma is_black_ok s par t : rep (heap s) par t -> _is_black (rt t) s = Ok (isblk t, s).
Proof.
  destruct t as [|[] a x k b]; [done | |]; intros (Hx & _); unfold _is_black; simpl; by exec.
Qed.

Lemma recolor_ok s c col a x k b (col' : RBColor) :
  zrep s c (T col a x k b) ->
  exists s', set_color (Some x) col' s = Ok (tt, s') /\ zrep s' c (T col' a x k b) /\
    touches s s' (zlocs c (T col a x k b)).
Proof.
  destruct s as [h root mn mx sz].
  intros (Hroot & Hc & (Hx & Ha & Hb) & Hnd). pose proof Hnd as Hnd'; nodup Hnd'; simpl in *.
  eexists. split; [exec; reflexivity |].
  split; [unfold zrep; simpl; repsolve; first [done | same_locs Hnd] | touch_solve].
Qed.

(** Recolouring a subtree's root, when there is one. *)
Lemma blacken_ok s c t :
  zrep s c t ->
  exists s', when (nonnull (rt t)) (set_color (rt t) Black) s = Ok (tt, s') /\
    zrep s' c (blacken t) /\ touches s s' (zlocs c t).
Proof.
  destruct t as [|col a x k b]; simpl; [| apply recolor_ok].
  intros Hz. eexists. split; [done |]. split; [done | apply touches_refl].
Qed.

Lemma touches_cast s s' ls ls' : touches s s' ls -> ls = ls' -> touches s s' ls'.
Proof. by intros ? <-. Qed.

Lemma touches_mono s s' ls ls' : touches s s' ls -> ls ⊆ ls' -> touches s s' ls'.
Proof. intros (? & ? & ? & ? & ?) ?. repeat split; auto. Qed.

Lemma zlocs_eq c t c' t' : zipper_list c t = zipper_list c' t' -> zlocs c t = zlocs c' t'.
Proof. unfold zlocs. by intros ->. Qed.

#[global] Arguments lrot_ok {s c cx a x kx cy b y ky d} _.
#[global] Arguments rrot_ok {s c cx a x kx cy b y ky d} _.
#[global] Arguments recolor_ok {s c col a x k b} col' _.

End RBShape.
