(* ===== verification/RBTreeSearch.v ===== *)
(** * Searching and walking the tree

    [find], [find_max_lteq], [_get_slot], [_get_min_node], [_get_max_node],
    [get_next] and [get_prev] on a represented tree: each returns, with the
    state unchanged and within the loop bound, what the in-order sequence of
    the tree says. *)

From S2P Require Import Prelude RBTreeModel RBTreeSpec RBTreeShape.
Import RB RBS RBShape.

Module RBSearch.

(** Keys strictly increasing along the in-order sequence. *)
Definition keys_sorted (ls : list (loc * Z)) : Prop := StronglySorted Z.lt ls.*2.
Definition bst (t : tree) : Prop := keys_sorted (inorder t).

(** ** The loop bound is enough *)

Fixpoint height (t : tree) : nat :=
  match t with E => O | T _ a _ _ b => S (Nat.max (height a) (height b)) end.

Lemma height_tlocs t : (height t <= length (tlocs t))%nat.
Proof.
  induction t as [|c a IHa x k b IHb]; simpl; [lia |].
  rewrite tlocs_T length_app /=. lia.
Qed.

Lemma ctx_zlocs c t : (length c + length (tlocs t) <= length (zlocs c t))%nat.
Proof.
  unfold zlocs, tlocs. rewrite !length_fmap. revert t.
  induction c as [|f c IH]; intros t; simpl.
  - unfold zipper_list. simpl. rewrite app_nil_r. lia.
  - rewrite -zipper_list_plug1. specialize (IH (plug1 f t)).
    destruct f; simpl in *; rewrite length_app /= in IH; lia.
Qed.

Lemma rep_dom h par t z : rep h par t -> z ∈ tlocs t -> z ∈ dom h.
Proof.
  revert par. induction t as [|c a IHa x k b IHb]; intros par; simpl; [set_solver |].
  rewrite tlocs_T elem_of_app elem_of_cons. intros (Hx & Ha & Hb) [?|[->|?]]; eauto.
  apply elem_of_dom. eauto.
Qed.

Lemma zrep_size s c t : zrep s c t -> (length (zlocs c t) <= size (heap s))%nat.
Proof.
  rewrite zrep_plug. intros (_ & _ & Hr & Hnd).
  assert (Hl : zlocs c t = tlocs (plug c t)) by (unfold zlocs, tlocs; by rewrite inorder_plug).
  rewrite Hl. unfold zlocs, zipper_list in Hnd; simpl in Hnd; rewrite app_nil_r in Hnd.
  rewrite -size_dom -(size_list_to_set (C := gset loc)); [done |].
  apply subseteq_size. intros z. rewrite elem_of_list_to_set. by apply rep_dom with None.
Qed.

Lemma bound_ok {B} s (f : nat -> M tree_st B) : bind bound f s = f (S (size (heap s))) s.
Proof. reflexivity. Qed.

Lemma zrep_bound s c t : zrep s c t -> (length c + height t <= size (heap s))%nat.
Proof.
  intros Z. pose proof (zrep_size _ _ _ Z). pose proof (ctx_zlocs c t).
  pose proof (height_tlocs t). lia.
Qed.

(** ** First and last node *)

Lemma min_loop n s c col a x k b :
  zrep s c (T col a x k b) -> (height (T col a x k b) <= n)%nat ->
  loop n (fun node =>
    nl <- get_l node;
    if nonnull nl then ret (inl nl) else ret (inr node)) (Some x) s
  = Ok (head (tlocs (T col a x k b)), s).
Proof.
  revert n c col x k b. induction a as [|ca aa IH ax ak ab _]; intros n c col x k b Z Hn;
    (destruct n; [simpl in Hn; lia |]); pose proof (zrep_node _ _ _ _ _ _ _ Z).
  - apply loop_exit. by msteps.
  - rewrite (loop_next _ _ _ _ (Some ax) s); [by msteps |].
    apply zrep_left in Z. rewrite (IH n _ ca ax ak ab Z); [simpl in *; lia |].
    rewrite (tlocs_T col) tlocs_T. by destruct (tlocs aa).
Qed.

Lemma get_min_ok s c t : zrep s c t -> _get_min_node (rt t) s = Ok (head (tlocs t), s).
Proof.
  intros Z. destruct t as [|col a x k b]; [done |]. unfold _get_min_node, while; simpl.
  rewrite bound_ok. apply (min_loop _ _ _ _ _ _ _ _ Z).
  pose proof (zrep_bound _ _ _ Z). lia.
Qed.

Lemma max_loop n s c col a x k b :
  zrep s c (T col a x k b) -> (height (T col a x k b) <= n)%nat ->
  loop n (fun node =>
    nr <- get_r node;
    if nonnull nr then ret (inl nr) else ret (inr node)) (Some x) s
  = Ok (list.last (tlocs (T col a x k b)), s).
Proof.
  revert n c col a x k. induction b as [|cb ba _ bx bk bb IH]; intros n c col a x k Z Hn;
    (destruct n; [simpl in Hn; lia |]); pose proof (zrep_node _ _ _ _ _ _ _ Z).
  - apply loop_exit. msteps. by rewrite tlocs_T last_app_cons.
  - rewrite (loop_next _ _ _ _ (Some bx) s); [by msteps |].
    apply zrep_right in Z. rewrite (IH n _ cb ba bx bk Z); [simpl in *; lia |].
    by rewrite (tlocs_T col) tlocs_T !last_app_cons app_comm_cons last_app_cons.
Qed.

Lemma get_max_ok s c t : zrep s c t -> _get_max_node (rt t) s = Ok (list.last (tlocs t), s).
Proof.
  intros Z. destruct t as [|col a x k b]; [done |]. unfold _get_max_node, while; simpl.
  rewrite bound_ok. apply (max_loop _ _ _ _ _ _ _ _ Z).
  pose proof (zrep_bound _ _ _ Z). lia.
Qed.

(** ** Successor and predecessor *)

Lemma climb_next_loop n s c col a x k b :
  zrep s c (T col a x k b) -> (length c < n)%nat ->
  loop n (fun node =>
    np <- get_p node;
    if nonnull np then
      npr <- get_r np;
      if ptr_eqb node npr then ret (inl np) else ret (inr np)
    else ret (inr np)) (Some x) s
  = Ok (head (cr c).*1, s).
Proof.
  revert n col a x k b. induction c as [|[fc fx fk fb|fc fx fk fa] c IH];
    intros n col a x k b Z Hn; (destruct n; [simpl in Hn; lia |]);
    pose proof (zrep_node _ _ _ _ _ _ _ Z).
  - apply loop_exit. by msteps.
  - apply loop_exit. pose proof (zrep_frameL _ _ _ _ _ _ _ Z).
    pose proof (proj2 (proj2 (proj2 Z))) as Hnd. nodup Hnd. by msteps.
  - pose proof (zrep_frameR _ _ _ _ _ _ _ Z).
    rewrite (loop_next _ _ _ _ (Some fx) s); [by msteps |].
    apply zrep_up in Z. simpl in Z. rewrite (IH n _ _ _ _ _ Z); [simpl in *; lia | done].
Qed.

Lemma climb_prev_loop n s c col a x k b :
  zrep s c (T col a x k b) -> (length c < n)%nat ->
  loop n (fun node =>
    np <- get_p node;
    if nonnull np then
      npl <- get_l np;
      if ptr_eqb node npl then ret (inl np) else ret (inr np)
    else ret (inr np)) (Some x) s
  = Ok (list.last (cl c).*1, s).
Proof.
  revert n col a x k b. induction c as [|[fc fx fk fb|fc fx fk fa] c IH];
    intros n col a x k b Z Hn; (destruct n; [simpl in Hn; lia |]);
    pose proof (zrep_node _ _ _ _ _ _ _ Z).
  - apply loop_exit. by msteps.
  - pose proof (zrep_frameL _ _ _ _ _ _ _ Z).
    rewrite (loop_next _ _ _ _ (Some fx) s); [by msteps |].
    apply zrep_up in Z. simpl in Z. rewrite (IH n _ _ _ _ _ Z); [simpl in *; lia | done].
  - apply loop_exit. pose proof (zrep_frameR _ _ _ _ _ _ _ Z).
    pose proof (proj2 (proj2 (proj2 Z))) as Hnd. nodup Hnd. msteps.
    by rewrite /= !fmap_app /= app_assoc last_snoc.
Qed.

(** The successor of a node, as the head of what lies to its right. *)
Lemma get_next_ok s c col a x k b :
  zrep s c (T col a x k b) ->
  _get_next (Some x) None s = Ok (head (inorder b ++ cr c).*1, s).
Proof.
  intros Z. pose proof (zrep_node _ _ _ _ _ _ _ Z). pose proof (zrep_bound _ _ _ Z).
  unfold _get_next. simpl kd_assert. rewrite bind_assert. msteps.
  destruct b as [|cb ba bx bk bb]; msteps.
  - unfold climb_next, while. rewrite bound_ok (climb_next_loop _ _ _ _ _ _ _ _ Z); [simpl in *; lia | done].
  - apply zrep_right in Z. rewrite (get_min_ok _ _ _ Z). unfold tlocs. simpl.
    rewrite !fmap_app. by destruct (inorder ba).
Qed.

Lemma get_prev_ok s c col a x k b :
  zrep s c (T col a x k b) ->
  _get_prev (Some x) None s = Ok (list.last (cl c ++ inorder a).*1, s).
Proof.
  intros Z. pose proof (zrep_node _ _ _ _ _ _ _ Z). pose proof (zrep_bound _ _ _ Z).
  unfold _get_prev. simpl kd_assert. rewrite bind_assert. msteps.
  destruct a as [|ca aa ax ak ab]; msteps.
  - unfold climb_prev, while. rewrite bound_ok (climb_prev_loop _ _ _ _ _ _ _ _ Z); [simpl in *; lia |].
    by rewrite app_nil_r.
  - apply zrep_left in Z. rewrite (get_max_ok _ _ _ Z). rewrite fmap_app. unfold tlocs. simpl.
    by rewrite fmap_app /= app_assoc !last_app_cons.
Qed.

(** [begin] and the successor chain: walking visits the in-order sequence. *)
Lemma begin_ok s t : treerep s t -> begin s = Ok (head (tlocs t), s).
Proof.
  intros Z. unfold begin. rewrite bind_get_root (zrep_root _ _ _ Z). by apply get_min_ok with [].
Qed.

(** Splitting a tree at one of its nodes. *)
Lemma focus_on t x : x ∈ tlocs t ->
  exists c col a k b, t = plug c (T col a x k b).
Proof.
  enough (H : forall t c0, x ∈ tlocs t ->
    exists c col a k b, plug c0 t = plug c (T col a x k b)) by apply (H t []).
  clear t. induction t as [|col a IHa y k b IHb]; intros c0; simpl; [set_solver |].
  rewrite tlocs_T elem_of_app elem_of_cons. intros [Ha|[->|Hb]].
  - apply (IHa (FL col y k b :: c0) Ha).
  - eauto 10.
  - apply (IHb (FR col y k a :: c0) Hb).
Qed.

(** ** Key order *)

Lemma keys_sorted_split l1 x k l2 :
  keys_sorted (l1 ++ (x, k) :: l2) <->
  keys_sorted l1 /\ keys_sorted l2 /\
  Forall (fun q => q.2 < k) l1 /\ Forall (fun q => k < q.2) l2 /\
  (forall q1 q2, q1 ∈ l1 -> q2 ∈ l2 -> q1.2 < q2.2).
Proof.
  unfold keys_sorted. rewrite fmap_app fmap_cons StronglySorted_app StronglySorted_cons /=.
  rewrite Forall_fmap !Forall_forall. split.
  - intros (H12 & H1 & Hk & H2). split_and!; auto.
    + intros q Hq. apply H12; [by apply list_elem_of_fmap_2 | by left].
    + intros q1 q2 ??. apply H12; [| right]; by apply list_elem_of_fmap_2.
  - intros (H1 & H2 & Hl & Hr & H12). split_and!; auto.
    intros x1 x2 (q1 & -> & Hq1)%list_elem_of_fmap_1 [->|Hx2]%elem_of_cons; [by apply Hl |].
    apply list_elem_of_fmap_1 in Hx2 as (q2 & -> & Hq2). auto.
Qed.

Lemma keys_sorted_app l1 l2 : keys_sorted (l1 ++ l2) ->
  keys_sorted l1 /\ keys_sorted l2 /\ (forall q1 q2, q1 ∈ l1 -> q2 ∈ l2 -> q1.2 < q2.2).
Proof.
  unfold keys_sorted. rewrite fmap_app StronglySorted_app. intros (H12 & ? & ?).
  split_and!; auto. intros q1 q2 ??. apply H12; by apply list_elem_of_fmap_2.
Qed.

Lemma keys_sorted_mid l1 l2 k x :
  keys_sorted (l1 ++ l2) -> Forall (fun q => q.2 < k) l1 -> Forall (fun q => k < q.2) l2 ->
  keys_sorted (l1 ++ (x, k) :: l2).
Proof. intros (? & ? & ?)%keys_sorted_app ??. by apply keys_sorted_split. Qed.

(** A strictly sorted sequence has each key once. *)
Lemma keys_sorted_nodup ls : keys_sorted ls -> NoDup ls.*2.
Proof.
  unfold keys_sorted. induction 1 as [|k ks Hs IH Hk]; constructor; auto.
  intros Hin. rewrite ->Forall_forall in Hk. specialize (Hk _ Hin). lia.
Qed.

(** ** [find] *)

Fixpoint search (key : Z) (t : tree) : ptr :=
  match t with
  | E => None
  | T _ a x k b => if k <? key then search key b else if key <? k then search key a else Some x
  end.

(** The three-way comparison decides where to go. *)
Ltac three_way v key :=
  unfold Cmp; destruct (Z.ltb_spec v key); [| destruct (Z.ltb_spec key v)]; simpl.

Lemma search_loop n s c t key :
  zrep s c t -> (height t < n)%nat ->
  loop n (search_round key) (rt t) s = Ok (search key t, s).
Proof.
  revert n c. induction t as [|col a IHa x k b IHb]; intros n c Z Hn;
    (destruct n; [lia |]); [by apply loop_exit |].
  pose proof (zrep_node _ _ _ _ _ _ _ Z). simpl rt. simpl search.
  apply zrep_left in Z as Za; apply zrep_right in Z as Zb. simpl in Hn.
  destruct (Z.ltb_spec k key); [| destruct (Z.ltb_spec key k)].
  - rewrite (loop_next _ _ _ _ (rt b) s); [| by apply (IHb _ _ Zb); lia].
    unfold search_round. msteps. three_way k key; try lia. by msteps.
  - rewrite (loop_next _ _ _ _ (rt a) s); [| by apply (IHa _ _ Za); lia].
    unfold search_round. msteps. three_way k key; try lia. by msteps.
  - apply loop_exit. unfold search_round. msteps. by three_way k key; try lia.
Qed.

Lemma find_search s t key : treerep s t -> find key s = Ok (search key t, s).
Proof.
  intros Z. unfold find, _get. rewrite bind_get_root (zrep_root _ _ _ Z). simpl croot.
  unfold while. rewrite bound_ok. apply (search_loop _ _ _ _ _ Z).
  pose proof (zrep_bound _ _ _ Z). simpl in *. lia.
Qed.

Lemma search_spec t key x : bst t -> search key t = Some x <-> (x, key) ∈ inorder t.
Proof.
  induction t as [|col a IHa y k b IHb]; unfold bst; simpl; [set_solver |].
  rewrite keys_sorted_split. intros (Ha & Hb & Hl & Hr & _).
  rewrite elem_of_app elem_of_cons. rewrite ->Forall_forall in Hl, Hr.
  destruct (Z.ltb_spec k key); [| destruct (Z.ltb_spec key k)].
  - rewrite (IHb Hb). split; [by auto |]. intros [Hin|[Heq|Hin]]; auto.
    + specialize (Hl _ Hin). simpl in Hl. lia.
    + simplify_eq. lia.
  - rewrite (IHa Ha). split; [by auto |]. intros [Hin|[Heq|Hin]]; auto.
    + simplify_eq. lia.
    + specialize (Hr _ Hin). simpl in Hr. lia.
  - replace key with k in * by lia. split; [intros [= ->]; auto |].
    intros [Hin|[Heq|Hin]]; [| congruence |].
    + specialize (Hl _ Hin). simpl in Hl. lia.
    + specialize (Hr _ Hin). simpl in Hr. lia.
Qed.

(** ** [find_max_lteq] *)

(** The last address of the sequence whose key is at most [key]. *)
Definition max_lteq (key : Z) (ls : list (loc * Z)) : ptr :=
  fst <$> list.last (filter (fun q : loc * Z => q.2 <= key) ls).

Fixpoint lteq (key : Z) (t : tree) (acc : ptr) : ptr :=
  match t with
  | E => acc
  | T _ a x k b =>
      if k <? key then lteq key b (Some x) else if key <? k then lteq key a acc else Some x
  end.

Lemma lteq_loop n s c t key acc :
  zrep s c t -> (height t < n)%nat ->
  loop n (lteq_round key) (rt t, acc) s = Ok (lteq key t acc, s).
Proof.
  revert n c acc. induction t as [|col a IHa x k b IHb]; intros n c acc Z Hn;
    (destruct n; [lia |]); [by apply loop_exit |].
  pose proof (zrep_node _ _ _ _ _ _ _ Z). simpl rt. simpl lteq.
  apply zrep_left in Z as Za; apply zrep_right in Z as Zb. simpl in Hn.
  destruct (Z.ltb_spec k key); [| destruct (Z.ltb_spec key k)].
  - rewrite (loop_next _ _ _ _ (rt b, Some x) s); [| by apply (IHb _ _ _ Zb); lia].
    unfold lteq_round. msteps. three_way k key; try lia. by msteps.
  - rewrite (loop_next _ _ _ _ (rt a, acc) s); [| by apply (IHa _ _ _ Za); lia].
    unfold lteq_round. msteps. three_way k key; try lia. by msteps.
  - apply loop_exit. unfold lteq_round. msteps. by three_way k key; try lia.
Qed.

Lemma find_max_lteq_run s t key :
  treerep s t -> find_max_lteq key s = Ok (lteq key t None, s).
Proof.
  intros Z. unfold find_max_lteq, _find_max_lteq. rewrite bind_get_root (zrep_root _ _ _ Z).
  unfold while. simpl croot. rewrite bound_ok. apply (lteq_loop _ _ _ _ _ _ Z).
  pose proof (zrep_bound _ _ _ Z). simpl in *. lia.
Qed.

Lemma filter_all {A} (P : A -> Prop) `{forall x, Decision (P x)} ls :
  Forall P ls -> filter P ls = ls.
Proof. induction 1; simpl; [done |]. by rewrite filter_cons_True // IHForall. Qed.

Lemma filter_none {A} (P : A -> Prop) `{forall x, Decision (P x)} ls :
  Forall (fun x => ~ P x) ls -> filter P ls = [].
Proof. induction 1; simpl; [done |]. by rewrite filter_cons_False // IHForall. Qed.

Lemma lteq_spec t key acc : bst t ->
  lteq key t acc = match max_lteq key (inorder t) with Some x => Some x | None => acc end.
Proof.
  revert acc. induction t as [|col a IHa y k b IHb]; intros acc; unfold bst, max_lteq; simpl; [done |].
  rewrite keys_sorted_split. intros (Ha & Hb & Hl & Hr & _). rewrite filter_app.
  destruct (Z.ltb_spec k key); [| destruct (Z.ltb_spec key k)].
  - rewrite (IHb _ Hb) /max_lteq filter_cons_True; [simpl; lia |].
    rewrite last_app_cons last_cons.
    by destruct (list.last (filter (fun q : loc * Z => q.2 <= key) (inorder b))).
  - rewrite (IHa _ Ha) /max_lteq filter_cons_False; [simpl; lia |].
    rewrite (filter_none _ (inorder b)); [| by rewrite app_nil_r].
    eapply Forall_impl; [exact Hr |]. simpl. lia.
  - rewrite filter_cons_True; [simpl; lia |].
    rewrite (filter_none _ (inorder b)); [| by rewrite last_snoc].
    eapply Forall_impl; [exact Hr |]. simpl. lia.
Qed.

(** ** [_get_slot] *)

Fixpoint slot (key : Z) (c : ctx) (t : tree) : option ctx :=
  match t with
  | E => Some c
  | T col a x k b =>
      if k <? key then slot key (FR col x k a :: c) b
      else if key <? k then slot key (FL col x k b :: c) a
      else None
  end.

Lemma slot_loop n s c t key :
  zrep s c t -> (height t < n)%nat ->
  loop n (slot_round key) (rt t, cpar c) s = Ok (cpar <$> slot key c t, s).
Proof.
  revert n c. induction t as [|col a IHa x k b IHb]; intros n c Z Hn;
    (destruct n; [lia |]); [by apply loop_exit |].
  pose proof (zrep_node _ _ _ _ _ _ _ Z). simpl rt. simpl slot.
  apply zrep_left in Z as Za; apply zrep_right in Z as Zb. simpl in Hn.
  destruct (Z.ltb_spec k key); [| destruct (Z.ltb_spec key k)].
  - rewrite (loop_next _ _ _ _ (rt b, Some x) s); [| by apply (IHb _ _ Zb); lia].
    unfold slot_round. msteps. three_way k key; try lia. by msteps.
  - rewrite (loop_next _ _ _ _ (rt a, Some x) s); [| by apply (IHa _ _ Za); lia].
    unfold slot_round. msteps. three_way k key; try lia. by msteps.
  - apply loop_exit. unfold slot_round. msteps. by three_way k key; try lia.
Qed.

Lemma get_slot_ok s t key :
  treerep s t -> _get_slot key s = Ok (cpar <$> slot key [] t, s).
Proof.
  intros Z. unfold _get_slot. rewrite bind_get_root (zrep_root _ _ _ Z).
  unfold while. simpl croot. rewrite bound_ok. apply (slot_loop _ _ _ _ _ Z).
  pose proof (zrep_bound _ _ _ Z). simpl in *. lia.
Qed.

Lemma slot_none key c t : slot key c t = None -> exists x, (x, key) ∈ inorder t.
Proof.
  revert c. induction t as [|col a IHa x k b IHb]; intros c; simpl; [done |].
  setoid_rewrite elem_of_app. setoid_rewrite elem_of_cons.
  destruct (Z.ltb_spec k key); [intros [y Hy]%IHb; eauto |].
  destruct (Z.ltb_spec key k); [intros [y Hy]%IHa; eauto |].
  intros _. exists x. right; left. f_equal. lia.
Qed.

(** The free slot splits the sequence at the key. *)
Lemma slot_some key c t c' :
  slot key c t = Some c' -> bst t ->
  Forall (fun q => q.2 < key) (cl c) -> Forall (fun q => key < q.2) (cr c) ->
  plug c' E = plug c t /\
  Forall (fun q => q.2 < key) (cl c') /\ Forall (fun q => key < q.2) (cr c').
Proof.
  revert c. induction t as [|col a IHa x k b IHb]; intros c; unfold bst; simpl; [naive_solver |].
  rewrite keys_sorted_split. intros Hs (Ha & Hb & Hl & Hr & _) Hcl Hcr.
  destruct (Z.ltb_spec k key).
  - apply (IHb _ Hs Hb); simpl; [| done].
    apply Forall_app; split; [done |]. apply Forall_app; split; [| by constructor].
    eapply Forall_impl; [exact Hl |]. simpl. lia.
  - destruct (Z.ltb_spec key k); [| done].
    apply (IHa _ Hs Ha); simpl; [done |]. constructor; [done |]. apply Forall_app; split; [| done].
    eapply Forall_impl; [exact Hr |]. simpl. lia.
Qed.

End RBSearch.
