(* ===== verification/RBTreeInsert.v ===== *)
(** * Insertion: the pointer code refines [ins_fix]

    One lemma per kind of round of [_insert_fixup] (the uncle is red; the
    uncle is black and the node is an outer or an inner grandchild), then the
    whole loop by induction on the path, [_get_slot], [_insert] and the public
    [insert]. *)

From S2P Require Import Prelude RBTreeModel RBTreeSpec RBTreeShape RBTreeSearch.
Import RB RBS RBShape RBSearch.

Module RBInsert.

(** Look at the same pointer structure from another focus. *)
Tactic Notation "refocus" hyp(Z) "at" constr(c) constr(t) "as" ident(Z') :=
  match type of Z with
  | zrep ?s _ _ => assert (Z' : zrep s c t) by (apply zrep_plug; apply zrep_plug in Z; exact Z)
  end.

(** Run one operation whose effect at the focus is a lemma. *)
Tactic Notation "operate" constr(L) "as" ident(s') ident(E) ident(Z) ident(T) :=
  destruct L as (s' & E & Z & T); rewrite ?E /=.

(** The effects on the heap, chained. *)
Ltac same_list :=
  unfold zlocs, zipper_list; simpl;
  repeat (rewrite ?inorder_blacken -?app_assoc /=); reflexivity.

Ltac chain :=
  repeat match goal with
  | H : touches ?s ?s' _ |- touches ?s ?s' _ => apply (touches_cast _ _ _ _ H); same_list
  | H : touches ?s ?s1 _ |- touches ?s _ _ =>
      apply (touches_trans s s1); [apply (touches_cast _ _ _ _ H); same_list |]
  end.

(** The result of one round: the code continues from [v'], the pointers form
    the focus [(c', t')] and only nodes of the tree were written. *)
Definition round_to (s : tree_st) (c : ctx) (t : tree) (v v' : ptr * ptr)
    (c' : ctx) (t' : tree) : Prop :=
  exists s', insert_fixup_round v s = Ok (inl v', s') /\ zrep s' c' t' /\
    touches s s' (zlocs c t).

(** Nothing to repair: no parent, or a black one. *)
Lemma round_done s c a x k b n :
  zrep s c (T Red a x k b) ->
  match c with [] => True | FL col _ _ _ :: _ | FR col _ _ _ :: _ => col = Black end ->
  insert_fixup_round (n, Some x) s = Ok (inr tt, s).
Proof.
  intros Z Hc. pose proof (zrep_node _ _ _ _ _ _ _ Z) as Hx. unfold insert_fixup_round, _is_red.
  destruct c as [|[col px pk pb|col px pk pa] c]; subst.
  - by exec.
  - pose proof (zrep_frameL _ _ _ _ _ _ _ Z) as Hp. by exec.
  - pose proof (zrep_frameR _ _ _ _ _ _ _ Z) as Hp. by exec.
Qed.

(** The subtrees at the focus and beside the path are represented. *)
Lemma zrep_sibL s col x k b c t : zrep s (FL col x k b :: c) t -> rep (heap s) (Some x) b.
Proof. by intros (_ & (_ & ? & _) & _). Qed.

Lemma zrep_sibR s col x k a c t : zrep s (FR col x k a :: c) t -> rep (heap s) (Some x) a.
Proof. by intros (_ & (_ & ? & _) & _). Qed.


(** [perform L Z at c t]: focus on [(c, t)], apply the operation whose effect is
    the lemma [L], and keep the new focus as [Z]. *)
Tactic Notation "perform" uconstr(L) hyp(Z) "at" constr(c) constr(t) :=
  let Z0 := fresh "Z0" in
  refocus Z at c t as Z0; clear Z;
  let s' := fresh "s" in let E := fresh "E" in let T := fresh "Tch" in
  destruct (L Z0) as (s' & E & Z & T);
  rewrite (bind_ok _ _ _ _ _ E); cbn beta iota; clear E Z0.

Definition recolor_to (col' : RBColor) s c col a x k b
    (Z : zrep s c (T col a x k b)) := recolor_ok col' Z.
Arguments recolor_to col' {s c col a x k b} Z.

Definition black_frame (f : frame) : frame :=
  match f with FL _ x k b => FL Black x k b | FR _ x k a => FR Black x k a end.

Definition red_frame (f : frame) : bool :=
  match f with FL Red _ _ _ | FR Red _ _ _ => true | _ => false end.

(** Bring the lookups along the path into the context. *)
Ltac path_facts Z :=
  pose proof (zrep_node _ _ _ _ _ _ _ Z);
  first [pose proof (zrep_frameL _ _ _ _ _ _ _ Z) | pose proof (zrep_frameR _ _ _ _ _ _ _ Z)].

(** A red uncle: the grandparent's blackness moves down, the loop goes on at
    the grandparent. *)
Lemma round_red_L s f gc gx gk ua ux uk ub c a x k b :
  let t := T Red a x k b in let u := T Red ua ux uk ub in
  zrep s (f :: FL gc gx gk u :: c) t -> red_frame f = true ->
  round_to s (f :: FL gc gx gk u :: c) t (Some x, Some x) (Some gx, Some gx)
    c (T Red (plug1 (black_frame f) t) gx gk (T Black ua ux uk ub)).
Proof.
  intros t u Z Hred. unfold round_to, insert_fixup_round.
  refocus Z at (FL gc gx gk u :: c) (plug1 f t) as Z0.
  pose proof (zrep_frameL _ _ _ _ _ _ _ Z0). pose proof (zrep_sibL _ _ _ _ _ _ _ Z0) as (? & _).
  destruct f as [[] px pk pb|[] px pk pa]; try done; path_facts Z; subst t u; simpl in *; clear Z0; msteps.
  - perform (recolor_to Black) Z at (FL gc gx gk (T Red ua ux uk ub) :: c) (T Red (T Red a x k b) px pk pb).
    perform (recolor_to Black) Z at (FR gc gx gk (T Black (T Red a x k b) px pk pb) :: c) (T Red ua ux uk ub).
    perform (recolor_to Red) Z at c (T gc (T Black (T Red a x k b) px pk pb) gx gk (T Black ua ux uk ub)).
    eexists. split; [reflexivity |]. split; [done | chain].
  - perform (recolor_to Black) Z at (FL gc gx gk (T Red ua ux uk ub) :: c) (T Red pa px pk (T Red a x k b)).
    perform (recolor_to Black) Z at (FR gc gx gk (T Black pa px pk (T Red a x k b)) :: c) (T Red ua ux uk ub).
    perform (recolor_to Red) Z at c (T gc (T Black pa px pk (T Red a x k b)) gx gk (T Black ua ux uk ub)).
    eexists. split; [reflexivity |]. split; [done | chain].
Qed.

Lemma round_red_R s f gc gx gk ua ux uk ub c a x k b :
  let t := T Red a x k b in let u := T Red ua ux uk ub in
  zrep s (f :: FR gc gx gk u :: c) t -> red_frame f = true ->
  round_to s (f :: FR gc gx gk u :: c) t (Some x, Some x) (Some gx, Some gx)
    c (T Red (T Black ua ux uk ub) gx gk (plug1 (black_frame f) t)).
Proof.
  intros t u Z Hred. unfold round_to, insert_fixup_round.
  refocus Z at (FR gc gx gk u :: c) (plug1 f t) as Z0.
  pose proof (zrep_frameR _ _ _ _ _ _ _ Z0). pose proof (zrep_sibR _ _ _ _ _ _ _ Z0) as (? & _).
  assert (Hne : floc f <> ux).
  { destruct Z0 as (_ & _ & _ & Hnd). destruct f; nodup Hnd; simpl in *; apart. }
  destruct f as [[] px pk pb|[] px pk pa]; try done; path_facts Z; subst t u; simpl in *; clear Z0; msteps.
  - perform (recolor_to Black) Z at (FR gc gx gk (T Red ua ux uk ub) :: c) (T Red (T Red a x k b) px pk pb).
    perform (recolor_to Black) Z at (FL gc gx gk (T Black (T Red a x k b) px pk pb) :: c) (T Red ua ux uk ub).
    perform (recolor_to Red) Z at c (T gc (T Black ua ux uk ub) gx gk (T Black (T Red a x k b) px pk pb)).
    eexists. split; [reflexivity |]. split; [done | chain].
  - perform (recolor_to Black) Z at (FR gc gx gk (T Red ua ux uk ub) :: c) (T Red pa px pk (T Red a x k b)).
    perform (recolor_to Black) Z at (FL gc gx gk (T Black pa px pk (T Red a x k b)) :: c) (T Red ua ux uk ub).
    perform (recolor_to Red) Z at c (T gc (T Black ua ux uk ub) gx gk (T Black pa px pk (T Red a x k b))).
    eexists. split; [reflexivity |]. split; [done | chain].
Qed.
(** A black uncle: one or two rotations and the loop ends at the next test. *)
Ltac black_uncle Z Zg Hu :=
  let Hnd := fresh "Hnd" in let Hur := fresh "Hur" in let Hur' := fresh "Hur" in
  pose proof (proj2 (proj2 (proj2 Z))) as Hnd; nodup Hnd;
  unfold round_to, insert_fixup_round; path_facts Z;
  first [ pose proof (zrep_frameL _ _ _ _ _ _ _ Zg); pose proof (zrep_sibL _ _ _ _ _ _ _ Zg) as Hur
        | pose proof (zrep_frameR _ _ _ _ _ _ _ Zg); pose proof (zrep_sibR _ _ _ _ _ _ _ Zg) as Hur ];
  pose proof (is_red_ok _ _ _ Hur) as Hur'; rewrite Hu in Hur';
  simpl in *; msteps; rewrite ?(bind_ok _ _ _ _ _ Hur'); msteps;
  rewrite ?(bind_ok _ _ _ _ _ Hur'); msteps.

Lemma round_LL s px pk pb gc gx gk u c a x k b :
  let t := T Red a x k b in
  zrep s (FL Red px pk pb :: FL gc gx gk u :: c) t -> isblk u = true ->
  round_to s (FL Red px pk pb :: FL gc gx gk u :: c) t (Some x, Some x) (Some x, Some gx)
    (FR Black px pk t :: c) (T Red pb gx gk u).
Proof.
  intros t Z Hu. refocus Z at (FL gc gx gk u :: c) (T Red t px pk pb) as Zg. subst t.
  black_uncle Z Zg Hu.
  perform rrot_ok Z at c (T gc (T Red (T Red a x k b) px pk pb) gx gk u).
  perform (recolor_to Black) Z at c (T Red (T Red a x k b) px pk (T gc pb gx gk u)).
  perform (recolor_to Red) Z at (FR Black px pk (T Red a x k b) :: c) (T gc pb gx gk u).
  eexists. split; [reflexivity |]. split; [done | chain].
Qed.

Lemma round_LR s px pk pa gc gx gk u c a x k b :
  let t := T Red a x k b in
  zrep s (FR Red px pk pa :: FL gc gx gk u :: c) t -> isblk u = true ->
  round_to s (FR Red px pk pa :: FL gc gx gk u :: c) t (Some x, Some x) (Some px, Some gx)
    (FR Black x k (T Red pa px pk a) :: c) (T Red b gx gk u).
Proof.
  intros t Z Hu. refocus Z at (FL gc gx gk u :: c) (T Red pa px pk t) as Zg. subst t.
  black_uncle Z Zg Hu.
  perform lrot_ok Z at (FL gc gx gk u :: c) (T Red pa px pk (T Red a x k b)). msteps.
  perform rrot_ok Z at c (T gc (T Red (T Red pa px pk a) x k b) gx gk u).
  perform (recolor_to Black) Z at c (T Red (T Red pa px pk a) x k (T gc b gx gk u)).
  perform (recolor_to Red) Z at (FR Black x k (T Red pa px pk a) :: c) (T gc b gx gk u).
  eexists. split; [reflexivity |]. split; [done | chain].
Qed.

Lemma round_RR s px pk pa gc gx gk u c a x k b :
  let t := T Red a x k b in
  zrep s (FR Red px pk pa :: FR gc gx gk u :: c) t -> isblk u = true ->
  round_to s (FR Red px pk pa :: FR gc gx gk u :: c) t (Some x, Some x) (Some x, Some gx)
    (FL Black px pk t :: c) (T Red u gx gk pa).
Proof.
  intros t Z Hu. refocus Z at (FR gc gx gk u :: c) (T Red pa px pk t) as Zg. subst t.
  black_uncle Z Zg Hu.
  perform lrot_ok Z at c (T gc u gx gk (T Red pa px pk (T Red a x k b))).
  perform (recolor_to Black) Z at c (T Red (T gc u gx gk pa) px pk (T Red a x k b)).
  perform (recolor_to Red) Z at (FL Black px pk (T Red a x k b) :: c) (T gc u gx gk pa).
  eexists. split; [reflexivity |]. split; [done | chain].
Qed.

Lemma round_RL s px pk pb gc gx gk u c a x k b :
  let t := T Red a x k b in
  zrep s (FL Red px pk pb :: FR gc gx gk u :: c) t -> isblk u = true ->
  round_to s (FL Red px pk pb :: FR gc gx gk u :: c) t (Some x, Some x) (Some px, Some gx)
    (FL Black x k (T Red b px pk pb) :: c) (T Red u gx gk a).
Proof.
  intros t Z Hu. refocus Z at (FR gc gx gk u :: c) (T Red t px pk pb) as Zg. subst t.
  black_uncle Z Zg Hu.
  perform rrot_ok Z at (FR gc gx gk u :: c) (T Red (T Red a x k b) px pk pb). msteps.
  perform lrot_ok Z at c (T gc u gx gk (T Red a x k (T Red b px pk pb))).
  perform (recolor_to Black) Z at c (T Red (T gc u gx gk a) x k (T Red b px pk pb)).
  perform (recolor_to Red) Z at (FL Black x k (T Red b px pk pb) :: c) (T gc u gx gk a).
  eexists. split; [reflexivity |]. split; [done | chain].
Qed.

(** After the rotations the repaired red node sits below a black one. *)
Lemma loop_after_rotation n s c t v node gx f c' a k b :
  round_to s c t v (node, Some gx) (f :: c') (T Red a gx k b) -> red_frame f = false ->
  (2 <= n)%nat ->
  exists s', loop n insert_fixup_round v s = Ok (tt, s') /\
    treerep s' (plug (f :: c') (T Red a gx k b)) /\ touches s s' (zlocs c t).
Proof.
  intros (s' & Er & Z & Tch) Hf Hn. exists s'.
  split; [| split; [exact (proj1 (zrep_plug _ _ _) Z) | done]].
  destruct n as [|[|n]]; [lia | lia |].
  rewrite (loop_next _ _ _ _ _ _ Er). apply loop_exit. apply (round_done _ _ _ _ _ _ _ Z).
  by destruct f as [[]|[]].
Qed.

(** The loop of [_insert_fixup], from a red node below any path of a
    red-black tree. *)
Lemma insert_loop_ok n s c a x k b m :
  zrep s c (T Red a x k b) -> crb c m -> (length c + 2 <= n)%nat ->
  exists s', loop n insert_fixup_round (Some x, Some x) s = Ok (tt, s') /\
    treerep s' (ins_fix c (T Red a x k b)) /\ touches s s' (zlocs c (T Red a x k b)).
Proof.
  revert n s a x k b m. induction c as [|f|f g c IH] using ctx_ind2; intros n s a x k b m Z Hc Hn.
  - exists s. destruct n; [simpl in Hn; lia |].
    rewrite (loop_exit _ _ _ _ _ _ (round_done _ _ _ _ _ _ _ Z I)). eauto using touches_refl.
  - exists s. destruct n; [simpl in Hn; lia |].
    assert (Hb : red_frame f = false) by (inversion Hc; subst; done).
    rewrite (loop_exit _ _ _ _ _ _ (round_done _ _ _ _ _ _ (Some x) Z ltac:(by destruct f as [[]|[]]))).
    split; [done |]. split; [| apply touches_refl].
    apply zrep_plug in Z. by destruct f as [[]|[]].
  - destruct (red_frame f) eqn:Hf.
    2:{ exists s. destruct n; [simpl in Hn; lia |].
        rewrite (loop_exit _ _ _ _ _ _ (round_done _ _ _ _ _ _ (Some x) Z ltac:(by destruct f as [[]|[]]))).
        split; [done |]. split; [| apply touches_refl].
        apply zrep_plug in Z. by destruct f as [[]|[]]. }
    assert (Hc' : exists m', crb c m').
    { destruct f as [[]|[]]; try done; inversion Hc; subst;
        match goal with H : crb (_ :: _) _ |- _ => inversion H; subst end; eauto. }
    destruct Hc' as [m' Hc']. simpl in Hn.
    assert (Hgo : forall gx a' k' b' , round_to s (f :: g :: c) (T Red a x k b) (Some x, Some x)
        (Some gx, Some gx) c (T Red a' gx k' b') ->
        zipper_list c (T Red a' gx k' b') = zipper_list (f :: g :: c) (T Red a x k b) ->
        exists s', loop n insert_fixup_round (Some x, Some x) s = Ok (tt, s') /\
          treerep s' (ins_fix c (T Red a' gx k' b')) /\
          touches s s' (zlocs (f :: g :: c) (T Red a x k b))).
    { intros gx a' k' b' (s1 & Er & Z1 & T1) Hl. destruct n as [|n]; [lia |].
      destruct (IH n _ _ _ _ _ _ Z1 Hc' ltac:(lia)) as (s2 & El & Z2 & T2).
      exists s2. rewrite (loop_next _ _ _ _ _ _ Er). split; [done |]. split; [done |].
      apply touches_trans with s1; [done |]. apply (touches_cast _ _ _ _ T2), zlocs_eq, Hl. }
    destruct g as [gc gx gk u|gc gx gk u]; destruct (isblk u) eqn:Hu.
    + destruct f as [[] px pk sb|[] px pk sb]; try done; cbn -[plug]; rewrite Hu.
      * by apply (loop_after_rotation _ _ _ _ _ _ _ _ _ _ _ _ (round_LL _ _ _ _ _ _ _ _ _ _ _ _ _ Z Hu)); [|lia].
      * by apply (loop_after_rotation _ _ _ _ _ _ _ _ _ _ _ _ (round_LR _ _ _ _ _ _ _ _ _ _ _ _ _ Z Hu)); [|lia].
    + destruct u as [|[] ua ux uk ub]; try done.
      destruct f as [[] px pk sb|[] px pk sb]; try done; cbn -[plug];
        apply (Hgo _ _ _ _ (round_red_L _ _ _ _ _ _ _ _ _ _ _ _ _ _ Z Hf)); same_list.
    + destruct f as [[] px pk sb|[] px pk sb]; try done; cbn -[plug]; rewrite Hu.
      * by apply (loop_after_rotation _ _ _ _ _ _ _ _ _ _ _ _ (round_RL _ _ _ _ _ _ _ _ _ _ _ _ _ Z Hu)); [|lia].
      * by apply (loop_after_rotation _ _ _ _ _ _ _ _ _ _ _ _ (round_RR _ _ _ _ _ _ _ _ _ _ _ _ _ Z Hu)); [|lia].
    + destruct u as [|[] ua ux uk ub]; try done.
      destruct f as [[] px pk sb|[] px pk sb]; try done; cbn -[plug];
        apply (Hgo _ _ _ _ (round_red_R _ _ _ _ _ _ _ _ _ _ _ _ _ _ Z Hf)); same_list.
Qed.

(** ** Linking a detached node below its parent *)

Definition set_child (f : frame) (v : ptr) : M tree_st unit :=
  match f with FL _ x _ _ => set_l (Some x) v | FR _ x _ _ => set_r (Some x) v end.

Lemma zlocs_link c z k : zlocs c (T Red E z k E) ≡ₚ z :: zlocs c E.
Proof.
  unfold zlocs, zipper_list. cbn [inorder app]. rewrite !fmap_app fmap_cons. symmetry.
  apply Permutation_middle.
Qed.

Lemma link_ok s f c z n :
  zrep s (f :: c) E -> heap s !! z = Some n -> l n = None -> r n = None ->
  z ∉ zlocs (f :: c) E ->
  exists s', (forall (m : M tree_st unit),
      (set_child f (Some z);; set_p (Some z) (Some (floc f));; set_color (Some z) Red;; m) s
      = m s') /\
    zrep s' (f :: c) (T Red E z (rb_value n) E) /\
    touches s s' (zlocs (f :: c) (T Red E z (rb_value n) E)).
Proof.
  destruct s as [h root mn mx sz], n as [np nl nr nc nk].
  intros (Hroot & Hc & _ & Hnd) Hz Hl Hr Hfresh; simpl in *; subst.
  assert (Hnd2 : NoDup (zlocs (f :: c) (T Red E z nk E))) by (rewrite zlocs_link; by constructor).
  pose proof Hnd2 as Hnd3. destruct f as [fc fx fk fb|fc fx fk fa]; nodup Hnd3; simpl in *;
    destruct Hc as (Hf & Hs & Hc); distinct z fx;
    (eexists; split; [intros m; exec; reflexivity |]);
    (split; [unfold zrep; simpl; repsolve; first [done | same_locs Hnd2] | touch_solve]).
Qed.

(** The rebalancing after a link, with the final recolouring of the root. *)
Lemma insert_fixup_ok s c z k m :
  zrep s c (T Red E z k E) -> crb c m ->
  exists s', _insert_fixup (Some z) s = Ok (tt, s') /\
    treerep s' (blacken (ins_fix c (T Red E z k E))) /\
    touches s s' (zlocs c (T Red E z k E)).
Proof.
  intros Z Hc. unfold _insert_fixup, while. rewrite bind_assoc bound_ok.
  pose proof (zrep_size _ _ _ Z). pose proof (ctx_zlocs c (T Red E z k E)). simpl in *.
  destruct (insert_loop_ok (S (size (heap s))) _ _ _ _ _ _ _ Z Hc ltac:(lia)) as (s1 & E1 & Z1 & T1).
  rewrite (bind_ok _ _ _ _ _ E1) bind_get_root (zrep_root _ _ _ Z1). simpl croot.
  pose proof (ins_fix_inorder c (T Red E z k E)) as Hin.
  destruct (blacken_ok _ _ _ Z1) as (s2 & E2 & Z2 & T2). exists s2.
  destruct (ins_fix c (T Red E z k E)) as [|rc ra rx rk rb] eqn:Hfix.
  { unfold zipper_list in Hin. simpl in Hin. by destruct (cl c). }
  split; [done |]. split; [done |]. apply touches_trans with s1; [done |].
  apply (touches_cast _ _ _ _ T2). unfold zlocs. rewrite -Hin /zipper_list /=. by rewrite app_nil_r.
Qed.

Lemma update_node_caches_ok s t d :
  treerep s t ->
  update_node_caches d s =
  Ok (tt, mkTree (heap s) (_root s) (head (tlocs t)) (list.last (tlocs t)) (w64 (_size s + d))).
Proof.
  intros Z. unfold update_node_caches. rewrite bind_get_root (zrep_root _ _ _ Z). simpl croot.
  rewrite (bind_ok _ _ _ _ _ (get_min_ok _ _ _ Z)) (bind_ok _ _ _ _ _ (get_max_ok _ _ _ Z)).
  by rewrite (zrep_root _ _ _ Z).
Qed.

(** ** The invariant of the tree and the public [insert] *)

(** A state whose pointers form the red-black search tree [t], with the caches
    and the size that go with it. *)
Record tree_inv (s : tree_st) (t : tree) : Prop := {
  inv_rep : treerep s t;
  inv_rb : is_rb t;
  inv_bst : bst t;
  inv_min : _cached_min_node s = head (tlocs t);
  inv_max : _cached_max_node s = list.last (tlocs t);
  inv_size : _size s = w64 (Z.of_nat (length (tlocs t)))
}.

(** A node that is in no tree. *)
Definition detached (s : tree_st) (z : loc) (k : Z) : Prop :=
  exists col, heap s !! z = Some (mkNode None None None col k).

Lemma treerep_caches s t mn mx sz :
  treerep s t -> treerep (mkTree (heap s) (_root s) mn mx sz) t.
Proof. done. Qed.

Lemma tlocs_zlocs t : zlocs [] t = tlocs t.
Proof. unfold zlocs, zipper_list, tlocs. simpl. by rewrite app_nil_r. Qed.

(** Sequence of a tree after a link at a slot. *)
Lemma slot_inorder key t c' z :
  slot key [] t = Some c' -> bst t ->
  inorder t = cl c' ++ cr c' /\ bst (ins_fix c' (T Red E z key E)) /\
  inorder (ins_fix c' (T Red E z key E)) = cl c' ++ (z, key) :: cr c'.
Proof.
  intros Hs Hb. destruct (slot_some _ _ _ _ Hs Hb) as (Hp & Hl & Hr); [constructor | constructor |].
  assert (Hin : inorder t = cl c' ++ cr c').
  { simpl in Hp. rewrite -Hp inorder_plug. done. }
  split; [done |]. unfold bst. rewrite ins_fix_inorder /zipper_list. split; [| done].
  apply keys_sorted_mid; [by rewrite -Hin | done | done].
Qed.

(** Comparing the new key with the parent's picks the free side. *)
Lemma insert_side {B} s f c key z (k : unit -> M tree_st B) :
  Forall (fun q => q.2 < key) (cl (f :: c)) -> Forall (fun q => key < q.2) (cr (f :: c)) ->
  let pv := match f with FL _ _ pk _ | FR _ _ pk _ => pk end in
  bind (if Cmp key pv <? 0 then set_l (Some (floc f)) z
        else if 0 <? Cmp key pv then set_r (Some (floc f)) z else kd_assert false) k s
  = bind (set_child f z) k s.
Proof.
  destruct f as [fc fx fk fb|fc fx fk fa]; simpl.
  - intros _ Hr. apply Forall_cons in Hr as [Hk _]. simpl in Hk. by three_way key fk; try lia.
  - intros Hl _. apply Forall_app in Hl as [_ Hl]. apply Forall_app in Hl as [_ Hl].
    apply Forall_cons in Hl as [Hk _]. simpl in Hk. by three_way key fk; try lia.
Qed.

Lemma zrep_parent s f c t : zrep s (f :: c) t -> exists n, heap s !! floc f = Some n /\
  rb_value n = match f with FL _ _ pk _ | FR _ _ pk _ => pk end.
Proof.
  destruct f; intros Z; [apply zrep_frameL in Z | apply zrep_frameR in Z]; by eexists.
Qed.

Lemma slot_rb key t c' z :
  slot key [] t = Some c' -> bst t -> is_rb t -> is_rb (blacken (ins_fix c' (T Red E z key E))).
Proof.
  intros Hs Hb Hrb. destruct (slot_some _ _ _ _ Hs Hb) as (Hp & _); [constructor | constructor |].
  simpl in Hp. subst t. destruct (plug_fits _ _ Hrb) as (m & Hc & He & _).
  inversion He; subst. apply ins_fix_rb with O; eauto with pbos.
Qed.

(** The linking part of [_insert], on the slot found by [_get_slot]. *)
Lemma insert_link s t z key c' :
  tree_inv s t -> detached s z key -> z ∉ tlocs t -> slot key [] t = Some c' ->
  exists s1, (root <- get_root;
     if negb (nonnull root) then set_root (Some z);; set_color (Some z) Black
     else
       nv <- get_value (Some z);
       pv <- get_value (cpar c');
       let result := Cmp nv pv in
       (if result <? 0 then set_l (cpar c') (Some z)
        else if 0 <? result then set_r (cpar c') (Some z)
        else kd_assert false);;
       set_p (Some z) (cpar c');;
       set_color (Some z) Red;;
       _insert_fixup (Some z)) s = Ok (tt, s1) /\
    treerep s1 (blacken (ins_fix c' (T Red E z key E))) /\ touches s s1 (z :: tlocs t).
Proof.
  intros [Z Hrb Hb _ _ _] [col Hz] Hfresh Hslot.
  destruct (slot_some _ _ _ _ Hslot Hb) as (Hp & Hl & Hr); [constructor | constructor |].
  simpl in Hp. subst t. rewrite bind_get_root (zrep_root _ _ _ Z).
  assert (Hls : tlocs (plug c' E) = zlocs c' E) by (unfold tlocs, zlocs; by rewrite inorder_plug).
  destruct c' as [|f c]; simpl croot.
  - simpl. destruct s as [h root mn mx sz]. simpl in *. exec. eexists. split; [reflexivity |].
    split; [| touch_solve].
    unfold treerep, zrep. simpl. repsolve; [done |]. apply NoDup_singleton.
  - destruct (plug_fits _ _ Hrb) as (m & Hc & _).
    pose proof (proj2 (zrep_plug s (f :: c) E) Z) as Zf. clear Z. rewrite Hls in Hfresh |- *.
    destruct (zrep_parent _ _ _ _ Zf) as (np & Hnp & Hkey).
    assert (Hroot : exists x, rt (plug (f :: c) E) = Some x).
    { pose proof (inorder_plug (f :: c) E) as Hi. destruct (plug (f :: c) E) eqn:Hp; simpl; eauto.
      unfold zipper_list in Hi. by destruct f, (cl c). }
    destruct Hroot as [x ->]. cbn [croot]. msteps. rewrite Hkey (insert_side _ f c) //.
    destruct (link_ok _ _ _ _ _ Zf Hz eq_refl eq_refl Hfresh) as (s1 & E1 & Z1 & T1).
    destruct (insert_fixup_ok _ _ _ _ _ Z1 Hc) as (s2 & E2 & Z2 & T2). exists s2.
    split; [| split; [done |]].
    + by rewrite E1.
    + apply (touches_mono _ _ (zlocs (f :: c) (T Red E z key E))).
      * by apply touches_trans with s1.
      * by rewrite zlocs_link.
Qed.

(** [insert] of a new key: the state now holds a tree with one more node, in
    key order; nodes outside the tree are untouched. *)
Lemma insert_new s t z key c' :
  tree_inv s t -> detached s z key -> z ∉ tlocs t -> slot key [] t = Some c' ->
  exists s' t', insert (Some z) s = Ok (true, s') /\ tree_inv s' t' /\
    inorder t' = cl c' ++ (z, key) :: cr c' /\
    dom (heap s') = dom (heap s) /\ (forall y, y ∉ z :: tlocs t -> heap s' !! y = heap s !! y).
Proof.
  intros Inv Hd Hfresh Hslot.
  destruct (insert_link _ _ _ _ _ Inv Hd Hfresh Hslot) as (s1 & E1 & Z1 & T1).
  destruct Hd as [col Hz]. pose proof Inv as [Z Hrb Hb _ _ Hsz].
  destruct (slot_inorder _ _ _ z Hslot Hb) as (Hin & Hb' & Hin').
  eexists _, (blacken (ins_fix c' (T Red E z key E))). split.
  - unfold insert. msteps. rewrite (bind_ok _ _ _ _ _ (get_slot_ok _ _ _ Z)) Hslot. simpl option_fmap.
    unfold _insert. cbn [fmap option_fmap option_map]. msteps. rewrite bind_get_root in E1.
    rewrite (bind_ok _ _ _ _ _ E1).
    by rewrite (bind_ok _ _ _ _ _ (update_node_caches_ok _ _ _ Z1)).
  - destruct T1 as (Ho & Hdom & _ & _ & Hs1). split; [split; simpl |]; rewrite ?inorder_blacken //.
    + by apply (slot_rb _ _ _ _ Hslot).
    + by rewrite /bst inorder_blacken.
    + rewrite Hs1 Hsz w64_add_l /tlocs inorder_blacken Hin Hin'. f_equal.
      rewrite !length_fmap !length_app /=. lia.
Qed.

(** [insert] of a key that is present: [false], and nothing changed. *)
Lemma insert_present s t z n :
  tree_inv s t -> heap s !! z = Some n -> slot (rb_value n) [] t = None ->
  insert (Some z) s = Ok (false, s).
Proof.
  intros Inv Hz Hslot. unfold insert. msteps.
  by rewrite (bind_ok _ _ _ _ _ (get_slot_ok _ _ _ (inv_rep _ _ Inv))) Hslot.
Qed.

End RBInsert.
