(* ===== verification/RBTreeRemove.v ===== *)
(** * Removal: the pointer code refines [del_fix]

    The rebalancing loop of [_remove_fixup], round by round against [balL],
    [balR] and [del_fix].  The unlinking that precedes it is in
    [RBTreeUnlink], the public [remove] in [RBTree]. *)

From S2P Require Import Prelude RBTreeModel RBTreeSpec RBTreeShape RBTreeSearch RBTreeInsert.
Import RB RBS RBShape RBSearch RBInsert.

Module RBRemove.

(** ** One round with a black sibling *)

(** The rest of a round once the sibling [w] is black, left and right. *)
Definition tailL (x p w : ptr) : M tree_st ((ptr * ptr) + ptr) :=
  wl <- get_l w;
  wr <- get_r w;
  wlb <- _is_black wl;
  wrb <- _is_black wr;
  if wlb && wrb then
    set_color w Red;;
    pp <- get_p p;
    ret (inl (p, pp))
  else
    w <- (if (wrb : bool) then
            when (nonnull wl) (set_color wl Black);;
            set_color w Red;; _rrot w;; get_r p
          else ret w);
    pc <- get_color p;
    set_color w pc;;
    set_color p Black;;
    wr <- get_r w;
    when (nonnull wr) (set_color wr Black);;
    _lrot p;;
    ret (inr x).

Definition tailR (x p w : ptr) : M tree_st ((ptr * ptr) + ptr) :=
  wr <- get_r w;
  wl <- get_l w;
  wrb <- _is_black wr;
  wlb <- _is_black wl;
  if wrb && wlb then
    set_color w Red;;
    pp <- get_p p;
    ret (inl (p, pp))
  else
    w <- (if (wlb : bool) then
            when (nonnull wr) (set_color wr Black);;
            set_color w Red;; _lrot w;; get_l p
          else ret w);
    pc <- get_color p;
    set_color w pc;;
    set_color p Black;;
    wl <- get_l w;
    when (nonnull wl) (set_color wl Black);;
    _rrot p;;
    ret (inr x).

(** The subtrees below the focus are represented. *)
Lemma zrep_subL s c col a x k b : zrep s c (T col a x k b) -> rep (heap s) (Some x) a.
Proof. by intros (_ & _ & (_ & ? & _) & _). Qed.

Lemma zrep_subR s c col a x k b : zrep s c (T col a x k b) -> rep (heap s) (Some x) b.
Proof. by intros (_ & _ & (_ & _ & ?) & _). Qed.

Definition tail_post (s : tree_st) (c : ctx) (t0 t r : tree) (fin : bool)
    (m : M tree_st ((ptr * ptr) + ptr)) : Prop :=
  exists s', m s = Ok (if fin then inr (rt t) else inl (rt r, cpar c), s') /\
    zrep s' c r /\ touches s s' (zlocs c t0).

Ltac child_colors Za Zb :=
  rewrite (bind_ok _ _ _ _ _ (is_black_ok _ _ _ Za)) (bind_ok _ _ _ _ _ (is_black_ok _ _ _ Zb)).

Lemma tailL_ok s c pc t px pk a wx wk b r fin :
  let t0 := T pc t px pk (T Black a wx wk b) in
  zrep s c t0 -> balL pc t px pk (T Black a wx wk b) = Some (r, fin) ->
  tail_post s c t0 t r fin (tailL (rt t) (Some px) (Some wx)).
Proof.
  intros t0 Z Hbal. subst t0. unfold tail_post, tailL.
  pose proof (zrep_node _ _ _ _ _ _ _ Z). refocus Z at (FR pc px pk t :: c) (T Black a wx wk b) as Zw.
  pose proof (zrep_node _ _ _ _ _ _ _ Zw). msteps.
  pose proof (zrep_subL _ _ _ _ _ _ _ Zw) as Za. pose proof (zrep_subR _ _ _ _ _ _ _ Zw) as Zb.
  child_colors Za Zb. simpl in Hbal. destruct (isblk b) eqn:Hb.
  - destruct (isblk a) eqn:Ha; simpl in Hbal; simplify_eq; cbn [andb].
    + perform (recolor_to Red) Z at (FR pc px pk t :: c) (T Black a wx wk b).
      pose proof (zrep_frameR _ _ _ _ _ _ _ Z). msteps.
      eexists. split; [reflexivity |]. split; [by apply zrep_right | chain].
    + destruct a as [|[] aa ax ak ab]; simplify_eq. msteps.
      perform (recolor_to Black) Z at (FL Black wx wk b :: FR pc px pk t :: c) (T Red aa ax ak ab).
      msteps.
      perform (recolor_to Red) Z at (FR pc px pk t :: c) (T Black (T Black aa ax ak ab) wx wk b).
      msteps.
      perform rrot_ok Z at (FR pc px pk t :: c) (T Red (T Black aa ax ak ab) wx wk b).
      pose proof (zrep_frameR _ _ _ _ _ _ _ Z). msteps.
      perform (recolor_to pc) Z at (FR pc px pk t :: c) (T Black aa ax ak (T Red ab wx wk b)).
      perform (recolor_to Black) Z at c (T pc t px pk (T pc aa ax ak (T Red ab wx wk b))).
      apply zrep_right in Z as Zx. pose proof (zrep_node _ _ _ _ _ _ _ Zx). clear Zx. msteps.
      perform (recolor_to Black) Z at (FR pc ax ak aa :: FR Black px pk t :: c) (T Red ab wx wk b).
      perform lrot_ok Z at c (T Black t px pk (T pc aa ax ak (T Black ab wx wk b))).
      eexists. split; [reflexivity |]. split; [done | chain].
  - rewrite andb_false_r in Hbal. simplify_eq. rewrite andb_false_r. cbn [andb]. msteps.
    destruct b as [|[] ba bx bk bb]; try done.
    perform (recolor_to pc) Z at (FR pc px pk t :: c) (T Black a wx wk (T Red ba bx bk bb)).
    perform (recolor_to Black) Z at c (T pc t px pk (T pc a wx wk (T Red ba bx bk bb))).
    apply zrep_right in Z as Zx. pose proof (zrep_node _ _ _ _ _ _ _ Zx). clear Zx. msteps.
    perform (recolor_to Black) Z at (FR pc wx wk a :: FR Black px pk t :: c) (T Red ba bx bk bb).
    perform lrot_ok Z at c (T Black t px pk (T pc a wx wk (T Black ba bx bk bb))).
    eexists. split; [reflexivity |]. split; [done | chain].
Qed.

Lemma tailR_ok s c pc t px pk a wx wk b r fin :
  let t0 := T pc (T Black a wx wk b) px pk t in
  zrep s c t0 -> balR pc (T Black a wx wk b) px pk t = Some (r, fin) ->
  tail_post s c t0 t r fin (tailR (rt t) (Some px) (Some wx)).
Proof.
  intros t0 Z Hbal. subst t0. unfold tail_post, tailR.
  pose proof (zrep_node _ _ _ _ _ _ _ Z). refocus Z at (FL pc px pk t :: c) (T Black a wx wk b) as Zw.
  pose proof (zrep_node _ _ _ _ _ _ _ Zw). msteps.
  pose proof (zrep_subL _ _ _ _ _ _ _ Zw) as Za. pose proof (zrep_subR _ _ _ _ _ _ _ Zw) as Zb.
  child_colors Zb Za. simpl in Hbal. destruct (isblk a) eqn:Ha.
  - destruct (isblk b) eqn:Hb; simpl in Hbal; simplify_eq; cbn [andb].
    + perform (recolor_to Red) Z at (FL pc px pk t :: c) (T Black a wx wk b).
      pose proof (zrep_frameL _ _ _ _ _ _ _ Z). msteps.
      eexists. split; [reflexivity |]. split; [by apply zrep_left | chain].
    + destruct b as [|[] ba bx bk bb]; simplify_eq. msteps.
      perform (recolor_to Black) Z at (FR Black wx wk a :: FL pc px pk t :: c) (T Red ba bx bk bb).
      msteps.
      perform (recolor_to Red) Z at (FL pc px pk t :: c) (T Black a wx wk (T Black ba bx bk bb)).
      msteps.
      perform lrot_ok Z at (FL pc px pk t :: c) (T Red a wx wk (T Black ba bx bk bb)).
      pose proof (zrep_frameL _ _ _ _ _ _ _ Z). msteps.
      perform (recolor_to pc) Z at (FL pc px pk t :: c) (T Black (T Red a wx wk ba) bx bk bb).
      perform (recolor_to Black) Z at c (T pc (T pc (T Red a wx wk ba) bx bk bb) px pk t).
      apply zrep_left in Z as Zx. pose proof (zrep_node _ _ _ _ _ _ _ Zx). clear Zx. msteps.
      perform (recolor_to Black) Z at (FL pc bx bk bb :: FL Black px pk t :: c) (T Red a wx wk ba).
      perform rrot_ok Z at c (T Black (T pc (T Black a wx wk ba) bx bk bb) px pk t).
      eexists. split; [reflexivity |]. split; [done | chain].
  - rewrite andb_false_r in Hbal. simplify_eq. rewrite andb_false_r. cbn [andb]. msteps.
    destruct a as [|[] aa ax ak ab]; try done.
    perform (recolor_to pc) Z at (FL pc px pk t :: c) (T Black (T Red aa ax ak ab) wx wk b).
    perform (recolor_to Black) Z at c (T pc (T pc (T Red aa ax ak ab) wx wk b) px pk t).
    apply zrep_left in Z as Zx. pose proof (zrep_node _ _ _ _ _ _ _ Zx). clear Zx. msteps.
    perform (recolor_to Black) Z at (FL pc wx wk b :: FL Black px pk t :: c) (T Red aa ax ak ab).
    perform rrot_ok Z at c (T Black (T pc (T Black aa ax ak ab) wx wk b) px pk t).
    eexists. split; [reflexivity |]. split; [done | chain].
Qed.

(** ** The loop *)

(** Below the root, the focus is not the root. *)
Lemma croot_in f c h : exists y, croot (f :: c) h = Some y /\
  (y ∈ (cl (f :: c)).*1 \/ y ∈ (cr (f :: c)).*1).
Proof.
  revert f h. induction c as [|g c IH]; intros f h.
  - exists (floc f). split; [done |]. destruct f; simpl; rewrite ?fmap_app ?fmap_cons /=; set_solver.
  - destruct (IH g (Some (floc f))) as (y & Hy & Hin). exists y. split; [done |].
    destruct f; simpl in *; rewrite ?fmap_app ?fmap_cons /=; set_solver.
Qed.

Lemma not_root s f c t : zrep s (f :: c) t -> ptr_eqb (rt t) (_root s) = false.
Proof.
  intros Z. rewrite (zrep_root _ _ _ Z). destruct (croot_in f c (rt t)) as (y & -> & Hin).
  apply ptr_eqb_ne, rt_ne. intros Hy. destruct Z as (_ & _ & _ & Hnd).
  unfold zlocs, zipper_list in Hnd. rewrite !fmap_app in Hnd.
  apply list.NoDup_app in Hnd as (_ & H1 & (_ & H2 & _)%list.NoDup_app).
  unfold tlocs in Hy. destruct Hin as [Hin|Hin]; [| by apply (H2 y)].
  apply (H1 y Hin), elem_of_app. by left.
Qed.

(** The loop stops at the root and at a red node. *)
Lemma round_stop s c t : zrep s c t -> c = [] \/ isblk t = false ->
  remove_fixup_round (rt t, cpar c) s = Ok (inr (rt t), s).
Proof.
  intros Z Hstop. unfold remove_fixup_round. rewrite bind_get_root.
  rewrite (bind_ok _ _ _ _ _ (is_black_ok _ _ _ (proj1 (proj2 (proj2 Z))))).
  destruct Hstop as [-> | ->]; [| by rewrite andb_false_r].
  rewrite (zrep_root _ _ _ Z). simpl croot. by rewrite ptr_eqb_refl.
Qed.

(** A round below the root at a black node: the sibling is made black, then
    the tail runs. *)
Definition round_post (s : tree_st) (f : frame) (c : ctx) (t : tree)
    (r : option (tree * bool)) (c' : ctx) : Prop :=
  exists r0 fin s', r = Some (r0, fin) /\
    remove_fixup_round (rt t, cpar (f :: c)) s
      = Ok (if fin then inr (rt t) else inl (rt r0, cpar c'), s') /\
    zrep s' c' r0 /\ touches s s' (zlocs (f :: c) t).

Ltac enter_round Z Hb :=
  unfold remove_fixup_round; rewrite bind_get_root;
  rewrite (bind_ok _ _ _ _ _ (is_black_ok _ _ _ (proj1 (proj2 (proj2 Z)))));
  rewrite (not_root _ _ _ _ Z) Hb; cbn [negb andb].

Lemma round_black_L s pc px pk w c t r fin :
  zrep s (FL pc px pk w :: c) t -> isblk t = true ->
  balL pc t px pk w = Some (r, fin) -> round_post s (FL pc px pk w) c t (Some (r, fin)) c.
Proof.
  intros Z Hb Hbal. unfold round_post. exists r, fin. enter_round Z Hb.
  destruct w as [|[] a wx wk b]; try done.
  pose proof (zrep_frameL _ _ _ _ _ _ _ Z) as Hp. pose proof (zrep_sibL _ _ _ _ _ _ _ Z) as (Hw & _).
  msteps. apply zrep_up in Z. simpl plug1 in Z.
  destruct (tailL_ok _ _ _ _ _ _ _ _ _ _ _ _ Z Hbal) as (s' & Er & Z' & Tch).
  exists s'. split; [done |]. split; [by rewrite -Er; unfold tailL, tailR; msteps |]. split; [done | chain].
Qed.

Lemma round_black_R s pc px pk w c t r fin :
  zrep s (FR pc px pk w :: c) t -> isblk t = true ->
  balR pc w px pk t = Some (r, fin) -> round_post s (FR pc px pk w) c t (Some (r, fin)) c.
Proof.
  intros Z Hb Hbal. unfold round_post. exists r, fin. enter_round Z Hb.
  destruct w as [|[] a wx wk b]; try done.
  pose proof (zrep_frameR _ _ _ _ _ _ _ Z) as Hp. pose proof (zrep_sibR _ _ _ _ _ _ _ Z) as (Hw & _).
  assert (Hne : wx ∉ tlocs t).
  { destruct Z as (_ & _ & _ & Hnd). nodup Hnd. apart. }
  msteps. apply zrep_up in Z. simpl plug1 in Z.
  destruct (tailR_ok _ _ _ _ _ _ _ _ _ _ _ _ Z Hbal) as (s' & Er & Z' & Tch).
  exists s'. split; [done |]. split; [by rewrite -Er; unfold tailL, tailR; msteps |]. split; [done | chain].
Qed.

Lemma round_red_sibL s pc px pk wa wx wk wb c t r fin :
  zrep s (FL pc px pk (T Red wa wx wk wb) :: c) t -> isblk t = true ->
  balL Red t px pk wa = Some (r, fin) ->
  round_post s (FL pc px pk (T Red wa wx wk wb)) c t (Some (r, fin)) (FL Black wx wk wb :: c).
Proof.
  intros Z Hb Hbal. unfold round_post. exists r, fin. enter_round Z Hb.
  destruct wa as [|[] a yx yk b]; try done.
  pose proof (zrep_frameL _ _ _ _ _ _ _ Z) as Hp. pose proof (zrep_sibL _ _ _ _ _ _ _ Z) as (Hw & _).
  msteps.
  perform (recolor_to Black) Z at (FR pc px pk t :: c) (T Red (T Black a yx yk b) wx wk wb). msteps.
  perform (recolor_to Red) Z at c (T pc t px pk (T Black (T Black a yx yk b) wx wk wb)). msteps.
  perform lrot_ok Z at c (T Red t px pk (T Black (T Black a yx yk b) wx wk wb)).
  apply zrep_left in Z. pose proof (zrep_node _ _ _ _ _ _ _ Z).
  pose proof (zrep_subR _ _ _ _ _ _ _ Z) as (? & _). msteps.
  destruct (tailL_ok _ _ _ _ _ _ _ _ _ _ _ _ Z Hbal) as (s' & Er & Z' & Tch').
  exists s'. split; [done |]. split; [by rewrite -Er; unfold tailL, tailR; msteps |]. split; [done | chain].
Qed.

Lemma round_red_sibR s pc px pk wa wx wk wb c t r fin :
  zrep s (FR pc px pk (T Red wa wx wk wb) :: c) t -> isblk t = true ->
  balR Red wb px pk t = Some (r, fin) ->
  round_post s (FR pc px pk (T Red wa wx wk wb)) c t (Some (r, fin)) (FR Black wx wk wa :: c).
Proof.
  intros Z Hb Hbal. unfold round_post. exists r, fin. enter_round Z Hb.
  destruct wb as [|[] a yx yk b]; try done.
  pose proof (zrep_frameR _ _ _ _ _ _ _ Z) as Hp. pose proof (zrep_sibR _ _ _ _ _ _ _ Z) as (Hw & _).
  assert (Hne : wx ∉ tlocs t).
  { destruct Z as (_ & _ & _ & Hnd). nodup Hnd. apart. }
  msteps.
  perform (recolor_to Black) Z at (FL pc px pk t :: c) (T Red wa wx wk (T Black a yx yk b)). msteps.
  perform (recolor_to Red) Z at c (T pc (T Black wa wx wk (T Black a yx yk b)) px pk t). msteps.
  perform rrot_ok Z at c (T Red (T Black wa wx wk (T Black a yx yk b)) px pk t).
  apply zrep_right in Z. pose proof (zrep_node _ _ _ _ _ _ _ Z).
  pose proof (zrep_subL _ _ _ _ _ _ _ Z) as (? & _). msteps.
  destruct (tailR_ok _ _ _ _ _ _ _ _ _ _ _ _ Z Hbal) as (s' & Er & Z' & Tch').
  exists s'. split; [done |]. split; [by rewrite -Er; unfold tailL, tailR; msteps |]. split; [done | chain].
Qed.

Lemma plug_app c1 c2 t : plug (c1 ++ c2) t = plug c2 (plug c1 t).
Proof. revert t. induction c1; intros; simpl; auto. Qed.

(** What a balancing step keeps, whatever the colours. *)
Definition bal_shape (pc : RBColor) (ls : list (loc * Z)) (t r : tree) (fin : bool) : Prop :=
  inorder r = ls /\
  if fin then exists c1, r = plug c1 t else pc = Red -> isblk r = false.

Lemma balL_shape pc t px pk w r fin :
  balL pc t px pk w = Some (r, fin) -> bal_shape pc (inorder t ++ (px, pk) :: inorder w) t r fin.
Proof.
  unfold balL, bal_shape. destruct w as [|[] a wx wk b]; try done.
  destruct (isblk a && isblk b); [intros [= <- <-]; split; [done | by intros ->] |].
  destruct (isblk b).
  - destruct a as [|ac aa ax ak ab]; [done |]. intros [= <- <-]. split; [by list_norm |].
    by exists [FL Black px pk aa; FL pc ax ak (T Black ab wx wk b)].
  - intros [= <- <-]. split; [by list_norm |].
    by exists [FL Black px pk a; FL pc wx wk (blacken b)].
Qed.

Lemma balR_shape pc t px pk w r fin :
  balR pc w px pk t = Some (r, fin) -> bal_shape pc (inorder w ++ (px, pk) :: inorder t) t r fin.
Proof.
  unfold balR, bal_shape. destruct w as [|[] a wx wk b]; try done.
  destruct (isblk b && isblk a); [intros [= <- <-]; split; [done | by intros ->] |].
  destruct (isblk a).
  - destruct b as [|bc ba bx bk bb]; [done |]. intros [= <- <-]. split; [by list_norm |].
    by exists [FR Black px pk bb; FR pc bx bk (T Black a wx wk ba)].
  - intros [= <- <-]. split; [by list_norm |].
    by exists [FR Black px pk b; FR pc wx wk (blacken a)].
Qed.

(** Outcome of the loop: it stops with the pointer of some focus, whose
    blackening gives the tree [t']. *)
Definition loop_post (n : nat) (s : tree_st) (c : ctx) (t t' : tree) : Prop :=
  exists s' c1 t1, loop n remove_fixup_round (rt t, cpar c) s = Ok (rt t1, s') /\
    zrep s' c1 t1 /\ t' = plug c1 (blacken t1) /\ touches s s' (zlocs c t).

Lemma loop_stop n s c t : zrep s c t -> c = [] \/ isblk t = false -> (1 <= n)%nat ->
  loop_post n s c t (plug c (blacken t)).
Proof.
  intros Z Hs Hn. destruct n; [lia |]. exists s, c, t.
  rewrite (loop_exit _ _ _ _ _ _ (round_stop _ _ _ Z Hs)). eauto using touches_refl.
Qed.

(** Repaired by the round. *)
Lemma loop_repaired n s f c t r c' :
  round_post s f c t (Some (r, true)) c' -> isblk t = true -> (exists c1, r = plug c1 t) ->
  (1 <= n)%nat -> loop_post n s (f :: c) t (plug c' r).
Proof.
  intros (r0 & fin & s' & [= <- <-] & Er & Z & Tch) Hb [c1 ->] Hn. destruct n; [lia |].
  exists s', (c1 ++ c'), t. rewrite (loop_exit _ _ _ _ _ _ Er). split; [done |].
  rewrite (blacken_id _ Hb) plug_app. split; [| done].
  apply (proj2 (zrep_plug _ _ _)). rewrite plug_app. exact (proj1 (zrep_plug _ _ _) Z).
Qed.

(** Not repaired: the loop goes on one level up (or, below a red sibling that
    was rotated away, at a red node). *)
Lemma loop_onwards n s f c t r c' t' :
  round_post s f c t (Some (r, false)) c' -> zipper_list c' r = zipper_list (f :: c) t ->
  (forall s', zrep s' c' r -> loop_post n s' c' r t') -> loop_post (S n) s (f :: c) t t'.
Proof.
  intros (r0 & fin & s' & [= <- <-] & Er & Z & Tch) Hl Hrest.
  destruct (Hrest _ Z) as (s2 & c1 & t1 & El & Z2 & -> & T2).
  exists s2, c1, t1. rewrite (loop_next _ _ _ _ _ _ Er). split_and!; auto.
  apply touches_trans with s'; [done |]. apply (touches_cast _ _ _ _ T2), zlocs_eq, Hl.
Qed.

Ltac zip_eq := unfold zipper_list; simpl; list_norm; repeat (f_equal; try done).

Lemma remove_loop_ok n s c t t' :
  zrep s c t -> del_fix c t = Some t' -> (length c + 2 <= n)%nat -> loop_post n s c t t'.
Proof.
  revert n s t. induction c as [|f c IH]; intros n s t Z Hd Hn.
  { assert (t' = blacken t) as ->
      by (cbn [del_fix plug] in Hd; destruct (isblk t) eqn:Hb; [rewrite blacken_id // |]; congruence).
    by apply (loop_stop n s [] t Z); [left | lia]. }
  destruct (isblk t) eqn:Hb.
  2:{ assert (t' = plug (f :: c) (blacken t)) as -> by (cbn [del_fix] in Hd; rewrite Hb in Hd; congruence).
      apply loop_stop; [done | by right | lia]. }
  cbn [del_fix] in Hd. rewrite Hb in Hd. destruct n as [|n]; [lia |]. simpl in Hn.
  destruct f as [pc px pk w|pc px pk w].
  - destruct w as [|[] wa wx wk wb]; [done | |].
    + destruct (balL pc t px pk _) as [[r [|]]|] eqn:Hbal; simplify_eq;
        destruct (balL_shape _ _ _ _ _ _ _ Hbal) as [Hi Hs];
        pose proof (round_black_L _ _ _ _ _ _ _ _ _ Z Hb Hbal) as Hr.
      * by apply (loop_repaired _ _ _ _ _ _ _ Hr Hb Hs); lia.
      * apply (loop_onwards _ _ _ _ _ _ _ _ Hr); [unfold zipper_list; rewrite Hi; by zip_eq |].
        intros s' Z'. apply IH; [done | done | lia].
    + destruct (balL Red t px pk _) as [[r [|]]|] eqn:Hbal; simpl in Hd; simplify_eq;
        destruct (balL_shape _ _ _ _ _ _ _ Hbal) as [Hi Hs];
        pose proof (round_red_sibL _ _ _ _ _ _ _ _ _ _ _ _ Z Hb Hbal) as Hr.
      * by apply (loop_repaired _ _ _ _ _ _ (FL Black wx wk wb :: c) Hr Hb Hs); lia.
      * apply (loop_onwards _ _ _ _ _ _ _ _ Hr); [unfold zipper_list; simpl; rewrite Hi; by zip_eq |].
        intros s' Z'. apply (loop_stop n s' (FL Black wx wk wb :: c) r Z'); [right; by apply Hs | lia].
  - destruct w as [|[] wa wx wk wb]; [done | |].
    + destruct (balR pc _ px pk t) as [[r [|]]|] eqn:Hbal; simplify_eq;
        destruct (balR_shape _ _ _ _ _ _ _ Hbal) as [Hi Hs];
        pose proof (round_black_R _ _ _ _ _ _ _ _ _ Z Hb Hbal) as Hr.
      * by apply (loop_repaired _ _ _ _ _ _ _ Hr Hb Hs); lia.
      * apply (loop_onwards _ _ _ _ _ _ _ _ Hr); [unfold zipper_list; rewrite Hi; by zip_eq |].
        intros s' Z'. apply IH; [done | done | lia].
    + destruct (balR Red _ px pk t) as [[r [|]]|] eqn:Hbal; simpl in Hd; simplify_eq;
        destruct (balR_shape _ _ _ _ _ _ _ Hbal) as [Hi Hs];
        pose proof (round_red_sibR _ _ _ _ _ _ _ _ _ _ _ _ Z Hb Hbal) as Hr.
      * by apply (loop_repaired _ _ _ _ _ _ (FR Black wx wk wa :: c) Hr Hb Hs); lia.
      * apply (loop_onwards _ _ _ _ _ _ _ _ Hr); [unfold zipper_list; simpl; rewrite Hi; by zip_eq |].
        intros s' Z'. apply (loop_stop n s' (FR Black wx wk wa :: c) r Z'); [right; by apply Hs | lia].
Qed.

End RBRemove.
