(* ===== verification/RBTreeUnlink.v ===== *)
(** * Removal: taking the node out of the tree

    The first half of [_remove_fixup]: a node with at most one child is
    replaced by that child; a node with two children is replaced by its
    in-order successor, which is first spliced out of the right subtree (it is
    the right child, the left child of the right child, or lies deeper). *)

From S2P Require Import Prelude RBTreeModel RBTreeSpec RBTreeShape RBTreeSearch RBTreeInsert RBTreeRemove.
Import RB RBS RBShape RBSearch RBInsert RBRemove.

Module RBUnlink.

(** ** Unlinking a node with at most one child *)

(** [remove_unlink] took [z] out: the focus [(c, t)] is what is left, and [z]
    keeps its key and carries the colour that went missing. *)
Definition unlink_post (s : tree_st) (z : loc) (k : Z) (cc : RBColor) (ls : list loc)
    (c : ctx) (t : tree) (m : M tree_st (ptr * ptr * ptr)) : Prop :=
  exists s', m s = Ok ((Some z, rt t, cpar c), s') /\ zrep s' c t /\
    (exists n, heap s' !! z = Some n /\ color n = cc /\ rb_value n = k) /\ touches s s' ls.

Lemma NoDup_drop {A} (l1 l2 : list A) x : NoDup (l1 ++ x :: l2) -> NoDup (l1 ++ l2).
Proof. rewrite !list.NoDup_app list.NoDup_cons. set_solver. Qed.

Lemma zlocs_drop c t col a z k b :
  NoDup (zlocs c (T col a z k b)) -> inorder t = inorder a ++ inorder b -> NoDup (zlocs c t).
Proof.
  unfold zlocs, zipper_list. intros Hnd ->. revert Hnd. simpl. rewrite -!app_assoc /= !fmap_app fmap_cons /=.
  rewrite fmap_app. rewrite !(app_assoc (cl c).*1). apply NoDup_drop.
Qed.

Lemma root_ne s f c col a z k b : zrep s (f :: c) (T col a z k b) -> _root s <> Some z.
Proof. intros Hn%not_root Heq. rewrite Heq /= ptr_eqb_refl in Hn. done. Qed.

Lemma unlink_one s c col a z k b t :
  zrep s c (T col a z k b) -> (a = E /\ t = b \/ b = E /\ t = a /\ a <> E) ->
  unlink_post s z k col (zlocs c (T col a z k b)) c t (remove_unlink (Some z)).
Proof.
  intros Z Hcase. assert (Hin : inorder t = inorder a ++ inorder b).
  { destruct Hcase as [[-> ->]|(-> & -> & _)]; simpl; by rewrite ?app_nil_r. }
  pose proof (zlocs_drop _ _ _ _ _ _ _ (proj2 (proj2 (proj2 Z))) Hin) as Hnd'.
  assert (Hroot : c <> [] -> _root s <> Some z).
  { destruct c; [done |]. intros _. by apply root_ne in Z. }
  destruct s as [h root mn mx sz]. destruct Z as (Hr & Hc & (Hz & Ha & Hb) & Hnd).
  pose proof Hnd as Hnd2. unfold unlink_post.
  destruct Hcase as [[-> ->]|(-> & -> & Hne)]; [| destruct a as [|ac aa ax ak ab]; [done |]];
  [destruct b as [|bc ba bx bk bb] |];
    destruct c as [|[pc px pk pb|pc px pk pa] c]; nodup Hnd2; simpl in *;
    destruct_and?; try specialize (Hroot ltac:(done));
    try match goal with H : ?rt = Some z |- _ => subst rt end;
    try distinct z px; try distinct z bx; try distinct z ax; try distinct px bx; try distinct px ax;
    (eexists; split; [unfold remove_unlink; exec; reflexivity |]);
    (split; [unfold zrep; simpl; repsolve; done |]);
    (split; [eexists; split; [simpl; repeat lookup_step; reflexivity | done] | touch_solve]).
Qed.

(** ** Unlinking a node with two children *)

(** A segment of a path, below the parent [par]. *)
Definition spar (c : ctx) (par : ptr) : ptr :=
  match c with [] => par | f :: _ => Some (floc f) end.

Fixpoint seg (h : gmap loc Node) (c : ctx) (par hole : ptr) : Prop :=
  match c with
  | [] => True
  | FL col x k b :: c' =>
      h !! x = Some (mkNode (spar c' par) hole (rt b) col k) /\ rep h (Some x) b /\
      seg h c' par (Some x)
  | FR col x k a :: c' =>
      h !! x = Some (mkNode (spar c' par) (rt a) hole col k) /\ rep h (Some x) a /\
      seg h c' par (Some x)
  end.

Lemma spar_app c1 c2 : cpar (c1 ++ c2) = spar c1 (cpar c2).
Proof. by destruct c1. Qed.

Lemma crep_app h c1 c2 hole :
  crep h (c1 ++ c2) hole <-> seg h c1 (cpar c2) hole /\ crep h c2 (croot c1 hole).
Proof.
  revert hole. induction c1 as [|[col x k b|col x k a] c1 IH]; intros hole; simpl; [tauto | |];
    rewrite IH spar_app; tauto.
Qed.

Lemma croot_app c1 c2 hole : croot (c1 ++ c2) hole = croot c2 (croot c1 hole).
Proof. revert hole. induction c1; intros; simpl; auto. Qed.

Lemma cl_app c1 c2 : cl (c1 ++ c2) = cl c2 ++ cl c1.
Proof.
  induction c1 as [|[] c1 IH]; simpl; [by rewrite app_nil_r | done |]. by rewrite IH -app_assoc.
Qed.

Lemma cr_app c1 c2 : cr (c1 ++ c2) = cr c1 ++ cr c2.
Proof. induction c1 as [|[] c1 IH]; simpl; [done | | done]. by rewrite IH app_assoc. Qed.

Lemma seg_insert h c par hole x n :
  x ∉ (cl c).*1 -> x ∉ (cr c).*1 -> seg h c par hole -> seg (<[x := n]> h) c par hole.
Proof.
  revert hole. induction c as [|[col y k b|col y k a] c IH]; intros hole; simpl; [done | |];
    rewrite ?fmap_app ?fmap_cons ?fmap_app /=; intros Hl Hr (Hy & Hs & Hc);
    change (inorder ?t).*1 with (tlocs t) in *; (split; [rewrite lookup_insert_ne; [set_solver | done] |]);
    (split; [apply rep_insert; [unfold tlocs; set_solver | done] | apply IH; [set_solver | set_solver | done]]).
Qed.

(** The leftmost node of a non-empty tree. *)
Lemma min_split col a x k b :
  exists cy yc y yk yr, T col a x k b = plug cy (T yc E y yk yr) /\ cl cy = [].
Proof.
  revert col x k b. induction a as [|ac aa IH ax ak ab _]; intros col x k b.
  - by exists [], col, x, k, b.
  - destruct (IH ac ax ak ab) as (cy & yc & y & yk & yr & Heq & Hcl).
    exists (cy ++ [FL col x k b]), yc, y, yk, yr. by rewrite plug_app -Heq cl_app Hcl.
Qed.

(** The branch of [remove_unlink] for two children: [y] takes the place of
    [node]. *)
Definition splice (node y x : ptr) : M tree_st (ptr * ptr * ptr) :=
  nl <- get_l node;
  set_p nl y;;
  set_l y nl;;
  nr <- get_r node;
  p <- (if negb (ptr_eqb y nr) then
          yp <- get_p y;
          when (nonnull x) (set_p x yp);;
          set_l yp x;;
          set_r y nr;;
          set_p nr y;;
          ret yp
        else ret y);
  root <- get_root;
  np <- get_p node;
  (if ptr_eqb root node then set_root y
   else npl <- get_l np;
        if ptr_eqb npl node then set_l np y else set_r np y);;
  set_p y np;;
  yc <- get_color y;
  nc <- get_color node;
  set_color y nc;;
  set_color node yc;;
  ret (node, x, p).

Ltac splice_solve :=
  (eexists; split; [unfold splice; exec; reflexivity |]);
  (split; [unfold zrep; simpl; repsolve; try done |]);
  (split; [eexists; split; [simpl; repeat lookup_step; reflexivity | done] | touch_solve]).

(** The sequences before and after. *)
Lemma splice_before cy col a z k c yc y yk yr : cl cy = [] ->
  zipper_list (cy ++ FR col z k a :: c) (T yc E y yk yr)
  = (cl c ++ inorder a) ++ (z, k) :: (y, yk) :: inorder yr ++ cr cy ++ cr c.
Proof. intros Hcl. unfold zipper_list. rewrite cl_app cr_app Hcl. simpl. by list_norm. Qed.

Lemma splice_after cy col a c y yk yr : cl cy = [] ->
  zipper_list (cy ++ FR col y yk a :: c) yr
  = (cl c ++ inorder a) ++ (y, yk) :: inorder yr ++ cr cy ++ cr c.
Proof. intros Hcl. unfold zipper_list. rewrite cl_app cr_app Hcl. simpl. by list_norm. Qed.

Lemma splice_nodup cy col a z k c yc y yk yr :
  NoDup (zlocs (cy ++ FR col z k a :: c) (T yc E y yk yr)) -> cl cy = [] ->
  NoDup (zlocs (cy ++ FR col y yk a :: c) yr).
Proof.
  unfold zlocs. intros Hnd Hcl. revert Hnd. rewrite splice_before // splice_after //.
  rewrite !fmap_app !fmap_cons. apply NoDup_drop.
Qed.

Lemma splice_root s cy col a z k c t :
  zrep s (cy ++ FR col z k a :: c) t -> c <> [] -> _root s <> Some z.
Proof.
  intros Z Hc. destruct c as [|f c]; [done |].
  assert (Z' : zrep s (f :: c) (T col a z k (plug cy t))).
  { apply (proj2 (zrep_plug _ _ _)). apply (proj1 (zrep_plug _ _ _)) in Z. by rewrite plug_app in Z. }
  by apply root_ne in Z'.
Qed.

Lemma splice_ne s cy col a z k c yc y yk yr :
  zrep s (cy ++ FR col z k a :: c) (T yc E y yk yr) -> cl cy = [] -> y <> z.
Proof.
  intros (_ & _ & _ & Hnd) Hcl. unfold zlocs in Hnd.
  rewrite splice_before // fmap_app !fmap_cons /= list.NoDup_app !list.NoDup_cons in Hnd. set_solver.
Qed.

(** The successor is the right child itself. *)
Lemma splice_near s c col ac aa ax ak ab z k yc y yk yr :
  let a := T ac aa ax ak ab in
  zrep s (FR col z k a :: c) (T yc E y yk yr) ->
  unlink_post s z k yc (zlocs (FR col z k a :: c) (T yc E y yk yr))
    (FR col y yk a :: c) yr (splice (Some z) (Some y) (rt yr)).
Proof.
  intros a Z. subst a.
  pose proof (splice_nodup [] _ _ _ _ _ _ _ _ _ (proj2 (proj2 (proj2 Z))) eq_refl) as Hnd'.
  pose proof (splice_root _ [] _ _ _ _ _ _ Z) as Hroot.
  destruct s as [h root mn mx sz]. destruct Z as (Hr & Hc & (Hy & _ & Hyr) & Hnd).
  pose proof Hnd as Hnd2. unfold unlink_post.
  destruct c as [|[pc px pk pb|pc px pk pa] c]; nodup Hnd2; simpl in *; destruct_and?;
    try specialize (Hroot ltac:(done)); try match goal with H : ?rt = Some z |- _ => subst rt end;
    distinct z y ax; try distinct z px; try distinct px y; try distinct px ax.
  all: splice_solve.
Qed.

(** The successor's parent is the right child. *)
Lemma splice_mid s c col ac aa ax ak ab z k bc bx bk bb yc y yk yr :
  let a := T ac aa ax ak ab in
  zrep s (FL bc bx bk bb :: FR col z k a :: c) (T yc E y yk yr) ->
  unlink_post s z k yc (zlocs (FL bc bx bk bb :: FR col z k a :: c) (T yc E y yk yr))
    (FL bc bx bk bb :: FR col y yk a :: c) yr (splice (Some z) (Some y) (rt yr)).
Proof.
  intros a Z. subst a.
  pose proof (splice_nodup [FL bc bx bk bb] _ _ _ _ _ _ _ _ _ (proj2 (proj2 (proj2 Z))) eq_refl) as Hnd'.
  pose proof (splice_root _ [FL bc bx bk bb] _ _ _ _ _ _ Z) as Hroot.
  destruct s as [h root mn mx sz]. destruct Z as (Hr & Hc & (Hy & _ & Hyr) & Hnd).
  pose proof Hnd as Hnd2. unfold unlink_post.
  destruct c as [|[pc px pk pb|pc px pk pa] c], yr as [|rc ra rx rk rb]; nodup Hnd2; simpl in *; destruct_and?;
    try specialize (Hroot ltac:(done)); try match goal with H : ?rt = Some z |- _ => subst rt end;
    distinct z y ax bx; try distinct z px rx; try distinct px y; try distinct px ax; try distinct px bx;
    try distinct z rx; try distinct y rx; try distinct ax rx; try distinct bx rx.
  all: splice_solve.
Qed.

Ltac repsolve_seg :=
  repeat match goal with
  | H : cl ?c = [] |- seg (<[_ := _]> _) ?c _ _ =>
      apply seg_insert; [rewrite H; apply not_elem_of_nil | apart |]
  | |- _ => progress repsolve
  end.

(** The successor lies deeper. *)
Lemma splice_far s c col ac aa ax ak ab z k qc qx qk qb cm bc bx bk bb yc y yk yr :
  let a := T ac aa ax ak ab in
  let cy := FL qc qx qk qb :: cm ++ [FL bc bx bk bb] in
  zrep s (cy ++ FR col z k a :: c) (T yc E y yk yr) -> cl cm = [] ->
  unlink_post s z k yc (zlocs (cy ++ FR col z k a :: c) (T yc E y yk yr))
    (cy ++ FR col y yk a :: c) yr (splice (Some z) (Some y) (rt yr)).
Proof.
  intros a cy Z Hcl. subst a.
  assert (Hcy : cl cy = []) by (subst cy; simpl; by rewrite cl_app Hcl).
  pose proof (splice_nodup cy _ _ _ _ _ _ _ _ _ (proj2 (proj2 (proj2 Z))) Hcy) as Hnd'.
  pose proof (splice_root _ cy _ _ _ _ _ _ Z) as Hroot.
  destruct s as [h root mn mx sz]. destruct Z as (Hr & Hc & (Hy & _ & Hyr) & Hnd).
  assert (Hnd2 := Hnd). unfold unlink_post. unfold zlocs in Hnd2 |- *.
  rewrite splice_before // in Hnd2. rewrite splice_before //.
  assert (Hcr : cr cy = (qx, qk) :: inorder qb ++ cr cm ++ (bx, bk) :: inorder bb)
    by (subst cy; simpl; rewrite cr_app /= app_nil_r; done).
  rewrite ->Hcr in *. subst cy. clear Hcr Hcy.
  cbn [app crep] in Hc. rewrite -app_assoc in Hc. cbn [app] in Hc.
  destruct Hc as (Hq & Hqb & Hc). rewrite crep_app spar_app in Hc Hq. destruct Hc as [Hseg Hc].
  cbn [app] in Hnd'. rewrite -app_assoc in Hnd'. cbn [app] in Hnd'.
  cbn [app croot] in Hr. rewrite -app_assoc croot_app in Hr. cbn [app croot floc] in Hr.
  destruct c as [|[pc px pk pb|pc px pk pa] c], yr as [|rc ra rx rk rb]; nodup Hnd2; simpl in *; destruct_and?;
    try specialize (Hroot ltac:(done)); try match goal with H : ?rt = Some z |- _ => subst rt end;
    distinct z y ax bx; distinct z qx; distinct y qx; distinct ax qx; distinct bx qx;
    try distinct z px rx; try distinct px y; try distinct px ax; try distinct px bx; try distinct px qx;
    try distinct z rx; try distinct y rx; try distinct ax rx; try distinct bx rx; try distinct qx rx;
    (eexists; split; [unfold splice; exec; reflexivity |]);
    (split; [unfold zrep; simpl; rewrite -app_assoc crep_app spar_app croot_app; simpl; repsolve_seg; try done |]);
    (split; [eexists; split; [simpl; repeat lookup_step; reflexivity | done] | touch_solve]).
Qed.

Lemma cl_nil_cons f c : cl (f :: c) = [] -> exists col x k b, f = FL col x k b /\ cl c = [].
Proof.
  destruct f as [col x k b|col x k a]; simpl; [by eauto 6 |].
  intros [_ [_ [=]]%app_eq_nil]%app_eq_nil.
Qed.

Lemma splice_ok s cy c col ac aa ax ak ab z k yc y yk yr :
  let a := T ac aa ax ak ab in
  zrep s (cy ++ FR col z k a :: c) (T yc E y yk yr) -> cl cy = [] ->
  unlink_post s z k yc (zlocs (cy ++ FR col z k a :: c) (T yc E y yk yr))
    (cy ++ FR col y yk a :: c) yr (splice (Some z) (Some y) (rt yr)).
Proof.
  intros a Z Hcl. destruct cy as [|f cm]; [by apply splice_near |].
  apply cl_nil_cons in Hcl as (qc & qx & qk & qb & -> & Hcl).
  destruct cm as [|g cm _] using rev_ind; [by apply splice_mid |].
  rewrite cl_app in Hcl. apply app_eq_nil in Hcl as [Hg Hcl].
  apply cl_nil_cons in Hg as (bc & bx & bk & bb & -> & _). by apply splice_far.
Qed.

(** ** What unlinking means for the red-black invariant *)

Lemma needs_black_relabel c1 col x k x' k' a c :
  needs_black (c1 ++ FR col x k a :: c) = needs_black (c1 ++ FR col x' k' a :: c).
Proof. by destruct c1. Qed.

Lemma crb_relabel c1 col x k x' k' a c n :
  crb (c1 ++ FR col x k a :: c) n -> crb (c1 ++ FR col x' k' a :: c) n.
Proof.
  revert n. induction c1 as [|f c1 IH]; intros n; simpl.
  - inversion 1; subst; by constructor.
  - intros H. inversion H; subst; constructor; auto;
      by rewrite -?(needs_black_relabel c1 col x k x' k').
Qed.

(** The state of the path after a node of colour [cc] disappeared above [t]. *)
Definition short (cc : RBColor) (c : ctx) (t : tree) : Prop :=
  match cc with
  | Black => exists m, crb c (S m) /\ rbh t m
  | Red => is_rb (plug c t)
  end.

(** Taking out a node with one child, or none. *)
Lemma short_one c col a x k b t n :
  fits c (T col a x k b) n -> (a = E /\ t = b \/ b = E /\ t = a) -> short col c t.
Proof.
  intros (Hc & Ht & Hb) Hcase. destruct col; simpl.
  - inversion Ht; subst. exists n0. split; [done |]. by destruct Hcase as [[_ ->]|[_ ->]].
  - inversion Ht; subst. apply fits_plug with n. split; [done |].
    by destruct Hcase as [[_ ->]|[_ ->]].
Qed.

(** ** [remove_unlink] *)

Lemma unlink_ok s c col a z k b :
  zrep s c (T col a z k b) -> is_rb (plug c (T col a z k b)) ->
  exists cf tf cc,
    unlink_post s z k cc (zlocs c (T col a z k b)) cf tf (remove_unlink (Some z)) /\
    zipper_list cf tf = (cl c ++ inorder a) ++ inorder b ++ cr c /\ short cc cf tf.
Proof.
  intros Z Hrb. destruct (plug_fits _ _ Hrb) as [n Hfit].
  destruct a as [|ac aa ax ak ab].
  { exists c, b, col. split; [apply unlink_one; auto |].
    split; [by rewrite /zipper_list /= app_nil_r |]. apply (short_one _ _ _ _ _ _ _ _ Hfit). auto. }
  destruct b as [|bc ba bx bk bb].
  { exists c, (T ac aa ax ak ab), col. split; [apply unlink_one; auto |].
    split; [by rewrite /zipper_list /= -!app_assoc |]. apply (short_one _ _ _ _ _ _ _ _ Hfit). auto. }
  destruct (min_split bc ba bx bk bb) as (cy & yc & y & yk & yr & Heq & Hcl).
  pose proof (zrep_node _ _ _ _ _ _ _ Z) as Hz. apply zrep_right in Z as Zb.
  pose proof (get_min_ok _ _ _ Zb) as Hmin. rewrite Heq in Zb Hfit Hrb |- *.
  assert (Hhead : head (tlocs (T bc ba bx bk bb)) = Some y).
  { rewrite Heq /tlocs inorder_plug /zipper_list Hcl. done. }
  rewrite Hhead in Hmin.
  assert (Zy : zrep s (cy ++ FR col z k (T ac aa ax ak ab) :: c) (T yc E y yk yr)).
  { apply (proj2 (zrep_plug _ _ _)). rewrite plug_app. exact (proj1 (zrep_plug _ _ _) Zb). }
  assert (Hrb' : is_rb (plug (cy ++ FR col z k (T ac aa ax ak ab) :: c) (T yc E y yk yr)))
    by (by rewrite plug_app).
  pose proof (zrep_node _ _ _ _ _ _ _ Zy) as Hy.
  exists (cy ++ FR col y yk (T ac aa ax ak ab) :: c), yr, yc.
  split; [| split].
  - assert (Hls : zlocs c (T col (T ac aa ax ak ab) z k (plug cy (T yc E y yk yr)))
      = zlocs (cy ++ FR col z k (T ac aa ax ak ab) :: c) (T yc E y yk yr)).
    { apply zlocs_eq. by rewrite -!inorder_plug plug_app. }
    rewrite Hls. destruct (splice_ok _ _ _ _ _ _ _ _ _ _ _ _ _ _ _ Zy Hcl) as (s' & Es & Hpost).
    exists s'. split; [| done]. rewrite -Es. pose proof (splice_ne _ _ _ _ _ _ _ _ _ _ _ Zy Hcl).
    unfold remove_unlink, splice. msteps. rewrite (bind_ok _ _ _ _ _ Hmin). by msteps.
  - rewrite splice_after // inorder_plug /zipper_list Hcl. simpl. by list_norm.
  - destruct (plug_fits _ _ Hrb') as [n' (Hc' & Ht' & Hb')].
    apply (short_one _ _ E y yk yr _ n'); [| by left].
    split; [by apply crb_relabel with z k | split; [done |]].
    by rewrite (needs_black_relabel _ _ y yk z k).
Qed.

End RBUnlink.
