(* ===== verification/RBTree.v ===== *)
(** * The contract of [kfxx::RBTree]

    The public operations of the red-black tree against the ordered maps of
    [OMap]: a tree state holds a finite map from keys to node addresses, and
    [find], [find_max_lteq], [insert], [insert_unwrap], [remove], [get_next],
    [get_prev], [begin] and [size] implement the corresponding operations of
    that map, always return, and touch no node outside the tree. *)

From S2P Require Import Prelude OMap RBTreeModel RBTreeSpec RBTreeShape RBTreeSearch RBTreeInsert RBTreeRemove RBTreeUnlink.
Import RB RBS RBShape RBSearch RBInsert RBRemove RBUnlink.

Module RBTree.

(** ** The map held by a tree *)

Definition swap (q : loc * Z) : Z * loc := (q.2, q.1).

Definition map_of (ls : list (loc * Z)) : gmap Z loc := list_to_map (swap <$> ls).

Lemma map_of_lookup ls k x : keys_sorted ls -> map_of ls !! k = Some x <-> (x, k) ∈ ls.
Proof.
  intros Hs%keys_sorted_nodup. unfold map_of.
  rewrite -elem_of_list_to_map.
  - rewrite -list_fmap_compose. erewrite list_fmap_ext; [exact Hs |]. by intros ? [].
  - rewrite list_elem_of_fmap. unfold swap. split.
    + intros ([y k'] & [= -> ->] & ?). done.
    + intros. by exists (x, k).
Qed.

Lemma map_of_size ls : keys_sorted ls -> size (map_of ls) = length ls.
Proof.
  intros Hs%keys_sorted_nodup. unfold map_of.
  rewrite -(length_fmap swap ls) -length_map_to_list map_to_list_to_map //.
  rewrite -list_fmap_compose. erewrite list_fmap_ext; [exact Hs |]. by intros ? [].
Qed.

(** Extensionality through membership. *)
Lemma map_of_eq ls (m : gmap Z loc) :
  keys_sorted ls -> (forall k x, (x, k) ∈ ls <-> m !! k = Some x) -> map_of ls = m.
Proof.
  intros Hs Hm. apply map_eq. intros k. apply option_eq. intros x.
  by rewrite map_of_lookup // Hm.
Qed.

Lemma keys_sorted_drop l1 z k l2 : keys_sorted (l1 ++ (z, k) :: l2) -> keys_sorted (l1 ++ l2).
Proof.
  intros (H1 & H2 & _ & _ & H12)%keys_sorted_split.
  unfold keys_sorted. rewrite fmap_app StronglySorted_app. split_and!; [| done | done].
  intros ? ? (? & -> & ?)%list_elem_of_fmap_1 (? & -> & ?)%list_elem_of_fmap_1. auto.
Qed.

Lemma map_of_insert l1 l2 z k :
  keys_sorted (l1 ++ (z, k) :: l2) ->
  map_of (l1 ++ (z, k) :: l2) = <[k := z]> (map_of (l1 ++ l2)).
Proof.
  intros Hs. pose proof Hs as Hs'. apply keys_sorted_split in Hs' as (H1 & H2 & Hl & Hr & H12).
  rewrite ->Forall_forall in Hl, Hr.
  pose proof (keys_sorted_drop _ _ _ _ Hs) as Hs2.
  apply map_of_eq; [done |]. intros k' x.
  rewrite lookup_insert_Some map_of_lookup // !elem_of_app elem_of_cons. split.
  - intros [Hin|[[= -> ->]|Hin]]; [right | by left | right].
    + specialize (Hl _ Hin). simpl in Hl. split; [lia | by left].
    + specialize (Hr _ Hin). simpl in Hr. split; [lia | by right].
  - intros [[-> ->]|[_ [?|?]]]; auto.
Qed.

Lemma map_of_delete l1 l2 z k :
  keys_sorted (l1 ++ (z, k) :: l2) ->
  map_of (l1 ++ l2) = delete k (map_of (l1 ++ (z, k) :: l2)).
Proof.
  intros Hs. rewrite map_of_insert // delete_insert_eq delete_id //.
  apply eq_None_not_Some. intros [x Hx].
  pose proof Hs as Hs'. apply keys_sorted_split in Hs' as (H1 & H2 & Hl & Hr & H12).
  rewrite ->Forall_forall in Hl, Hr.
  apply elem_of_list_to_map_2 in Hx. apply list_elem_of_fmap in Hx as ([y k'] & [= -> ->] & Hin).
  apply elem_of_app in Hin as [Hin|Hin]; [specialize (Hl _ Hin) | specialize (Hr _ Hin)]; simpl in *; lia.
Qed.

(** Neighbours of a key in a sorted sequence. *)
Lemma map_of_next l1 x k l2 : keys_sorted (l1 ++ (x, k) :: l2) ->
  OMap.next k (map_of (l1 ++ (x, k) :: l2)) = swap <$> head l2.
Proof.
  intros Hs. pose proof Hs as Hs'. apply keys_sorted_split in Hs' as (H1 & H2 & Hl & Hr & H12).
  rewrite ->Forall_forall in Hl, Hr. destruct l2 as [|[y ky] l2]; simpl.
  - apply OMap.best_none; [apply OMap.below_order |]. intros k' v. rewrite map_of_lookup //.
    rewrite elem_of_app elem_of_cons elem_of_nil. intros [Hin|[[= -> ->]|[]]]; [| lia].
    specialize (Hl _ Hin). simpl in *. lia.
  - apply OMap.best_unique; [apply OMap.below_order | intros; unfold OMap.below; lia |].
    pose proof (Hr (y, ky) (list_elem_of_here _ _)) as Hy. simpl in Hy. split_and!.
    + rewrite map_of_lookup // elem_of_app elem_of_cons. right; right; left.
    + cbn [fst snd]. lia.
    + intros k' v'. cbn [fst snd]. rewrite map_of_lookup // elem_of_app !elem_of_cons.
      intros [Hin|[[= -> ->]|[[= -> ->]|Hin]]] Hlt; [| lia | by left |].
      * specialize (Hl _ Hin). simpl in *. lia.
      * right. unfold OMap.below. change ((y, ky) :: l2) with ([] ++ (y, ky) :: l2) in H2.
        apply keys_sorted_split in H2 as (_ & _ & _ & Hr2 & _). rewrite ->Forall_forall in Hr2.
        specialize (Hr2 _ Hin). simpl in Hr2. lia.
Qed.

Lemma map_of_prev l1 x k l2 : keys_sorted (l1 ++ (x, k) :: l2) ->
  OMap.prev k (map_of (l1 ++ (x, k) :: l2)) = swap <$> list.last l1.
Proof.
  intros Hs. pose proof Hs as Hs'. apply keys_sorted_split in Hs' as (H1 & H2 & Hl & Hr & H12).
  rewrite ->Forall_forall in Hl, Hr. destruct l1 as [|[y ky] l1 _] using rev_ind.
  - apply OMap.best_none; [apply OMap.above_order |]. intros k' v. rewrite map_of_lookup //.
    simpl. rewrite elem_of_cons. intros [[= -> ->]|Hin]; [lia |].
    specialize (Hr _ Hin). simpl in *. lia.
  - rewrite last_snoc. simpl. apply OMap.best_unique; [apply OMap.above_order | intros; unfold OMap.above; lia |].
    assert (Hin0 : (y, ky) ∈ l1 ++ [(y, ky)]) by (apply elem_of_app; right; left).
    pose proof (Hl _ Hin0) as Hy. simpl in Hy. split_and!.
    + rewrite map_of_lookup // elem_of_app. by left.
    + cbn [fst snd]. lia.
    + intros k' v'. cbn [fst snd]. rewrite map_of_lookup // !elem_of_app !elem_of_cons.
      intros [[Hin|[[= -> ->]|Hin]]|[[= -> ->]|Hin]] Hlt; [| by left | by apply not_elem_of_nil in Hin | lia |].
      * right. unfold OMap.above. apply keys_sorted_split in H1 as (_ & _ & Hl2 & _).
        rewrite ->Forall_forall in Hl2. specialize (Hl2 _ Hin). simpl in Hl2. lia.
      * specialize (Hr _ Hin). simpl in *. lia.
Qed.

Lemma keys_sorted_filter (P : loc * Z -> Prop) `{forall q, Decision (P q)} ls :
  keys_sorted ls -> keys_sorted (filter P ls).
Proof.
  unfold keys_sorted. induction ls as [|q ls IH]; [constructor |].
  rewrite fmap_cons StronglySorted_cons Forall_fmap. intros [Hq Hs]. rewrite filter_cons.
  case_decide; [| auto]. rewrite fmap_cons StronglySorted_cons Forall_fmap. split; [| auto].
  apply Forall_forall. intros y [_ Hy]%list_elem_of_filter. revert y Hy. by apply Forall_forall.
Qed.

(** The greatest key at or below a bound. *)
Lemma map_of_max_lteq key ls : keys_sorted ls ->
  max_lteq key ls = snd <$> OMap.max_lteq key (map_of ls).
Proof.
  intros Hs. unfold max_lteq.
  destruct (list.last (filter (fun q : loc * Z => q.2 <= key) ls)) as [[x k]|] eqn:Hlast; simpl.
  - apply last_Some in Hlast as [l' Hf].
    assert (Hin : (x, k) ∈ filter (fun q : loc * Z => q.2 <= key) ls)
      by (rewrite Hf elem_of_app; right; left).
    apply list_elem_of_filter in Hin as [Hle Hin]. simpl in Hle.
    unfold OMap.max_lteq. rewrite (OMap.best_unique _ _ _ k x); [apply OMap.above_order | intros; unfold OMap.above; lia | | done].
    split_and!; [by apply map_of_lookup | cbn [fst snd]; lia |].
    intros k' v'. cbn [fst snd]. rewrite map_of_lookup //. intros Hin' Hle'.
    assert (Hin2 : (v', k') ∈ filter (fun q : loc * Z => q.2 <= key) ls)
      by (apply list_elem_of_filter; simpl; split; [lia | done]).
    assert (Hsf : keys_sorted (l' ++ [(x, k)])).
    { rewrite -Hf. by apply keys_sorted_filter. }
    rewrite Hf elem_of_app elem_of_cons in Hin2. unfold OMap.above.
    apply keys_sorted_split in Hsf as (_ & _ & Hl & _). rewrite ->Forall_forall in Hl.
    destruct Hin2 as [Hin2|[[= -> ->]|Hin2]]; [| by left | by apply not_elem_of_nil in Hin2].
    specialize (Hl _ Hin2). simpl in Hl. right. lia.
  - apply last_None in Hlast. unfold OMap.max_lteq. rewrite OMap.best_none; [apply OMap.above_order | | done].
    intros k v. rewrite map_of_lookup //. intros Hin. apply Z.leb_gt.
    destruct (Z.lt_ge_cases key k); [done |].
    assert (Hf : (v, k) ∈ filter (fun q : loc * Z => q.2 <= key) ls) by (apply list_elem_of_filter; done).
    rewrite Hlast in Hf. by apply not_elem_of_nil in Hf.
Qed.

(** ** Rebalancing after the unlinking *)

Lemma zrep_dom s c t z : zrep s c t -> z ∈ zlocs c t -> z ∈ dom (heap s).
Proof.
  intros Z Hz. apply (rep_dom _ None (plug c t)).
  - apply (proj1 (zrep_plug _ _ _)) in Z. exact (proj1 (proj2 (proj2 Z))).
  - unfold tlocs. by rewrite inorder_plug.
Qed.

(** A heap that also holds a node outside the tree has room for one more. *)
Lemma zrep_size_extra s c t z :
  zrep s c t -> z ∈ dom (heap s) -> z ∉ zlocs c t -> (length (zlocs c t) < size (heap s))%nat.
Proof.
  intros Z Hz Hn. pose proof (proj2 (proj2 (proj2 Z))) as Hnd.
  assert (Hnd' : NoDup (z :: zlocs c t)) by by constructor.
  change (S (length (zlocs c t)) <= size (heap s))%nat.
  change (S (length (zlocs c t))) with (length (z :: zlocs c t)).
  rewrite -size_dom -(size_list_to_set (C := gset loc)); [done |].
  apply subseteq_size. intros y. rewrite elem_of_list_to_set elem_of_cons.
  intros [->|Hy]; [done |]. by apply zrep_dom with c t.
Qed.

Lemma rebalance_ok s z nz c t :
  zrep s c t -> heap s !! z = Some nz -> z ∉ zlocs c t -> short (color nz) c t ->
  exists s' t', remove_rebalance (Some z) (rt t) (cpar c) s = Ok (Some z, s') /\
    treerep s' t' /\ is_rb t' /\ inorder t' = zipper_list c t /\ touches s s' (zlocs c t).
Proof.
  intros Z Hz Hn Hs. unfold remove_rebalance. msteps. destruct (color nz); simpl; msteps.
  - destruct Hs as (m & Hc & Ht). destruct (del_fix_ok _ _ _ Hc Ht) as (t' & Hd & Hrb & Hin).
    pose proof (zrep_size_extra _ _ _ _ Z (elem_of_dom_2 _ _ _ Hz) Hn).
    pose proof (ctx_zlocs c t). unfold while. rewrite !bind_assoc bound_ok.
    destruct (remove_loop_ok (S (size (heap s))) _ _ _ _ Z Hd ltac:(lia))
      as (s1 & c1 & t1 & El & Z1 & -> & T1).
    rewrite (bind_ok _ _ _ _ _ El).
    destruct (blacken_ok _ _ _ Z1) as (s2 & E2 & Z2 & T2).
    exists s2, (plug c1 (blacken t1)). rewrite (bind_ok _ _ _ _ _ E2).
    split_and!; [done | exact (proj1 (zrep_plug _ _ _) Z2) | done | done |].
    apply touches_trans with s1; [done |]. apply (touches_cast _ _ _ _ T2), zlocs_eq.
    by rewrite -Hin inorder_plug /zipper_list inorder_blacken.
  - exists s, (plug c t).
    split_and!; [done | exact (proj1 (zrep_plug _ _ _) Z) | done | by rewrite inorder_plug | apply touches_refl].
Qed.

Lemma split_unique (l1 l1' l2 l2' : list (loc * Z)) z k k' :
  l1 ++ (z, k) :: l2 = l1' ++ (z, k') :: l2' -> NoDup (l1 ++ (z, k) :: l2).*1 ->
  l1 = l1' /\ k = k' /\ l2 = l2'.
Proof.
  revert l1'. induction l1 as [|q l1 IH]; intros l1' Heq Hnd; destruct l1' as [|q' l1'];
    cbn [app] in *; rewrite ?fmap_cons in Hnd.
  - naive_solver.
  - injection Heq as <- ->. apply list.NoDup_cons in Hnd as [Hz _]. exfalso. apply Hz.
    rewrite fmap_app fmap_cons elem_of_app elem_of_cons. auto.
  - injection Heq as -> Heq. apply list.NoDup_cons in Hnd as [Hz _]. exfalso. apply Hz.
    rewrite fmap_app fmap_cons elem_of_app elem_of_cons. auto.
  - injection Heq as -> Heq. apply list.NoDup_cons in Hnd as [_ Hnd].
    by destruct (IH _ Heq Hnd) as (-> & -> & ->).
Qed.

(** Clearing the links of the node that was taken out. *)
Lemma clear_links s z n :
  heap s !! z = Some n ->
  exists s', (set_l (Some z) None;; set_r (Some z) None;; set_p (Some z) None) s = Ok (tt, s') /\
    detached s' z (rb_value n) /\ dom (heap s') = dom (heap s) /\
    (forall y, y <> z -> heap s' !! y = heap s !! y) /\
    (forall t, treerep s t -> z ∉ tlocs t -> treerep s' t) /\
    _cached_min_node s' = _cached_min_node s /\ _cached_max_node s' = _cached_max_node s /\
    _size s' = _size s.
Proof.
  destruct s as [h root mn mx sz]. simpl. intros Hz.
  eexists. split; [exec; reflexivity |]. simpl. split_and!; try done.
  - exists (color n). simpl. by rewrite lookup_insert_eq.
  - rewrite !dom_insert_lookup_L ?lookup_insert_eq; eauto.
  - intros y Hy. by rewrite !lookup_insert_ne.
  - intros t (Hr & _ & Ht & Hnd) Hn. split_and!; try done. simpl. by repeat apply rep_insert.
Qed.

(** The whole of [remove] on a node of the tree. *)
Lemma remove_node s t z l1 k l2 :
  tree_inv s t -> inorder t = l1 ++ (z, k) :: l2 ->
  exists s' t', remove (Some z) s = Ok (tt, s') /\ tree_inv s' t' /\
    inorder t' = l1 ++ l2 /\ detached s' z k /\
    dom (heap s') = dom (heap s) /\ (forall y, y ∉ tlocs t -> heap s' !! y = heap s !! y).
Proof.
  intros [Z Hrb Hb _ _ Hsz] Hin.
  assert (Hzt : z ∈ tlocs t) by (rewrite /tlocs Hin fmap_app fmap_cons; set_solver).
  destruct (focus_on _ _ Hzt) as (c & col & a & k' & b & ->).
  pose proof (proj2 (zrep_plug _ _ _) Z) as Zf.
  assert (Hsplit : inorder (plug c (T col a z k' b)) = (cl c ++ inorder a) ++ (z, k') :: inorder b ++ cr c).
  { rewrite inorder_plug /zipper_list /=. by list_norm. }
  assert (Hnd : NoDup (tlocs (plug c (T col a z k' b)))).
  { rewrite -tlocs_zlocs. exact (proj2 (proj2 (proj2 Z))). }
  rewrite Hin in Hsplit. pose proof Hnd as Hnd2. unfold tlocs in Hnd2. rewrite Hin in Hnd2.
  destruct (split_unique _ _ _ _ _ _ _ Hsplit Hnd2) as (-> & <- & ->). clear Hsplit.
  destruct (unlink_ok _ _ _ _ _ _ _ Zf Hrb) as (cf & tf & cc & (s1 & E1 & Z1 & (nz & Hz & <- & Hk) & T1) & Hzl & Hs).
  assert (Hfresh : z ∉ zlocs cf tf).
  { unfold zlocs. rewrite Hzl. rewrite fmap_app fmap_cons in Hnd2. rewrite fmap_app.
    apply list.NoDup_app in Hnd2 as (_ & H1 & (H2 & _)%list.NoDup_cons). set_solver. }
  destruct (rebalance_ok _ _ _ _ _ Z1 Hz Hfresh Hs) as (s2 & t' & E2 & Z2 & Hrb' & Hin' & T2).
  assert (Hz2 : heap s2 !! z = Some nz) by (by rewrite (proj1 T2 z Hfresh)).
  set (s3 := mkTree (heap s2) (_root s2) (head (tlocs t')) (list.last (tlocs t')) (w64 (_size s2 + -1))).
  destruct (clear_links s3 z nz Hz2) as (s4 & E4 & Hd & Hdom & Hoth & Hrep & Hmn & Hmx & Hsz4).
  exists s4, t'. split_and!.
  - assert (Ef : _remove_fixup (Some z) s = Ok (Some z, s2))
      by (unfold _remove_fixup; by rewrite (bind_ok _ _ _ _ _ E1)).
    assert (Er : _remove (Some z) s = Ok (Some z, s3)).
    { unfold _remove. rewrite (bind_ok _ _ _ _ _ Ef).
      by rewrite (bind_ok _ _ _ _ _ (update_node_caches_ok _ _ _ Z2)). }
    unfold remove. by rewrite (bind_ok _ _ _ _ _ Er).
  - split; [| done | | by rewrite Hmn | by rewrite Hmx |].
    + apply Hrep; [done |]. by rewrite /tlocs Hin'.
    + unfold bst. rewrite Hin' Hzl. unfold bst in Hb. rewrite Hin in Hb.
      by apply keys_sorted_drop in Hb.
    + rewrite Hsz4. simpl. destruct T2 as (_ & _ & _ & _ & ->). destruct T1 as (_ & _ & _ & _ & ->).
      rewrite Hsz w64_add_l. f_equal. rewrite /tlocs Hin Hin' Hzl !length_fmap !length_app /= length_app. lia.
  - by rewrite Hin' Hzl.
  - by rewrite -Hk.
  - rewrite Hdom. simpl. by rewrite (proj1 (proj2 T2)) (proj1 (proj2 T1)).
  - intros y Hy. assert (Hyz : y <> z) by (by intros ->). rewrite Hoth //. simpl.
    assert (Hls : zlocs c (T col a z k b) = tlocs (plug c (T col a z k b)))
      by (by rewrite /zlocs /tlocs inorder_plug).
    rewrite (proj1 T2) ?(proj1 T1) ?Hls //.
    unfold zlocs. rewrite Hzl. intros Hy2. apply Hy. rewrite /tlocs Hin.
    rewrite !fmap_app !fmap_cons in Hy2 |- *. set_solver.
Qed.

(** ** The state holds a map *)

Definition holds (s : tree_st) (m : gmap Z loc) : Prop :=
  exists t, tree_inv s t /\ map_of (inorder t) = m.

(** [y] is a node of the map. *)
Definition member (m : gmap Z loc) (y : loc) : Prop := exists k, m !! k = Some y.

(** Between [s] and [s'] only the nodes of [m] and those of [zs] changed. *)
Definition only (s s' : tree_st) (m : gmap Z loc) (zs : list loc) : Prop :=
  dom (heap s') = dom (heap s) /\
  forall y, ~ member m y -> y ∉ zs -> heap s' !! y = heap s !! y.

Lemma member_tlocs t y : bst t -> member (map_of (inorder t)) y <-> y ∈ tlocs t.
Proof.
  intros Hb. unfold member, tlocs. setoid_rewrite (map_of_lookup _ _ _ Hb).
  rewrite list_elem_of_fmap. split.
  - intros [k Hk]. by exists (y, k).
  - intros ([y' k] & -> & Hin). by exists k.
Qed.

(** Each address occurs under one key only. *)
Lemma holds_inj s m k k' z : holds s m -> m !! k = Some z -> m !! k' = Some z -> k = k'.
Proof.
  intros (t & [Z _ Hb _ _ _] & <-). rewrite !map_of_lookup //. intros H1 H2.
  pose proof (proj2 (proj2 (proj2 Z))) as Hnd. rewrite tlocs_zlocs /tlocs in Hnd.
  apply list_elem_of_split in H1 as (l1 & l2 & Heq). rewrite Heq in H2 Hnd.
  apply list_elem_of_split in H2 as (l1' & l2' & Heq').
  by destruct (split_unique _ _ _ _ _ _ _ Heq' Hnd) as (_ & ? & _).
Qed.

(** A node of the map carries its key. *)
Lemma holds_key s m k z : holds s m -> m !! k = Some z ->
  exists n, heap s !! z = Some n /\ rb_value n = k.
Proof.
  intros (t & [Z _ Hb _ _ _] & <-). rewrite map_of_lookup //. intros Hin.
  assert (Hz : z ∈ tlocs t) by (unfold tlocs; apply list_elem_of_fmap; by exists (z, k)).
  destruct (focus_on _ _ Hz) as (c & col & a & k' & b & ->).
  pose proof (proj2 (zrep_plug _ _ _) Z) as Zf. apply zrep_node in Zf as Hn.
  eexists. split; [exact Hn |]. simpl.
  pose proof (proj2 (proj2 (proj2 Z))) as Hnd. rewrite tlocs_zlocs /tlocs in Hnd.
  apply list_elem_of_split in Hin as (l1 & l2 & Heq).
  assert (Hi : inorder (plug c (T col a z k' b)) = (cl c ++ inorder a) ++ (z, k') :: inorder b ++ cr c).
  { rewrite inorder_plug /zipper_list /=. by list_norm. }
  rewrite Hi in Hnd. rewrite Hi in Heq. by destruct (split_unique _ _ _ _ _ _ _ Heq Hnd) as (_ & ? & _).
Qed.

Lemma holds_empty h : holds (mkTree h None None None 0) ∅.
Proof.
  exists E. split; [| done].
  split; simpl; try done; [| by split; [| exists O; constructor] | constructor].
  unfold treerep, zrep; simpl. split_and!; try done. constructor.
Qed.

Lemma holds_find s m k : holds s m -> find k s = Ok (m !! k, s).
Proof.
  intros (t & [Z _ Hb _ _ _] & <-). rewrite (find_search _ _ _ Z). do 2 f_equal.
  apply option_eq. intros x. by rewrite search_spec // map_of_lookup.
Qed.

Lemma holds_find_max_lteq s m k :
  holds s m -> find_max_lteq k s = Ok (snd <$> OMap.max_lteq k m, s).
Proof.
  intros (t & [Z _ Hb _ _ _] & <-). rewrite (find_max_lteq_run _ _ _ Z) lteq_spec //.
  rewrite map_of_max_lteq //. by destruct (OMap.max_lteq k (map_of (inorder t))) as [[]|].
Qed.

Lemma holds_neighbours s m k z : holds s m -> m !! k = Some z ->
  get_next (Some z) None s = Ok (snd <$> OMap.next k m, s) /\
  get_prev (Some z) None s = Ok (snd <$> OMap.prev k m, s).
Proof.
  intros (t & [Z _ Hb _ _ _] & <-). rewrite map_of_lookup //. intros Hin.
  assert (Hz : z ∈ tlocs t) by (unfold tlocs; apply list_elem_of_fmap; by exists (z, k)).
  destruct (focus_on _ _ Hz) as (c & col & a & k' & b & ->).
  pose proof (proj2 (zrep_plug _ _ _) Z) as Zf.
  pose proof (proj2 (proj2 (proj2 Z))) as Hnd. rewrite tlocs_zlocs /tlocs in Hnd.
  apply list_elem_of_split in Hin as (l1 & l2 & Heq).
  assert (Hi : inorder (plug c (T col a z k' b)) = (cl c ++ inorder a) ++ (z, k') :: inorder b ++ cr c).
  { rewrite inorder_plug /zipper_list /=. by list_norm. }
  unfold bst in Hb. rewrite Hi in Hnd. rewrite Hi in Heq. rewrite Hi in Hb |- *.
  destruct (split_unique _ _ _ _ _ _ _ Heq Hnd) as (_ & -> & _).
  unfold get_next, get_prev. rewrite (get_next_ok _ _ _ _ _ _ _ Zf) (get_prev_ok _ _ _ _ _ _ _ Zf).
  rewrite map_of_next // map_of_prev //. rewrite fmap_last.
  split; [by destruct (inorder b ++ cr c) | by destruct (list.last (cl c ++ inorder a))].
Qed.

Lemma holds_begin s m : holds s m -> begin s = Ok (snd <$> OMap.first m, s).
Proof.
  intros (t & [Z _ Hb _ _ _] & <-). rewrite (begin_ok _ _ Z). do 2 f_equal.
  unfold tlocs. unfold bst in Hb. destruct (inorder t) as [|[x k] ls] eqn:Hi; simpl.
  - unfold OMap.first. by rewrite OMap.best_none; [apply OMap.below_order | |].
  - unfold OMap.first.
    rewrite (OMap.best_unique _ _ _ k x); [apply OMap.below_order | intros; unfold OMap.below; lia | | done].
    split_and!; [apply map_of_lookup; [done | left] | done |].
    intros k' v'. rewrite map_of_lookup // elem_of_cons. intros [[= -> ->]|Hin] _; [by left |].
    right. change ((x, k) :: ls) with ([] ++ (x, k) :: ls) in Hb.
    apply keys_sorted_split in Hb as (_ & _ & _ & Hr & _). rewrite ->Forall_forall in Hr.
    specialize (Hr _ Hin). unfold OMap.below. simpl in Hr. lia.
Qed.

Lemma holds_size s m : holds s m -> tree_size s = Ok (w64 (Z.of_nat (size m)), s).
Proof.
  intros (t & [Z _ Hb _ _ Hsz] & <-). unfold tree_size. rewrite Hsz map_of_size // /tlocs.
  by rewrite length_fmap.
Qed.

Lemma holds_insert s m z k :
  holds s m -> m !! k = None -> detached s z k -> ~ member m z ->
  exists s', insert (Some z) s = Ok (true, s') /\ holds s' (<[k := z]> m) /\ only s s' m [z].
Proof.
  intros (t & Inv & <-) Hk Hd Hm. pose proof Inv as [Z _ Hb _ _ _].
  rewrite member_tlocs // in Hm.
  destruct (slot k [] t) as [c'|] eqn:Hslot.
  2:{ destruct (slot_none _ _ _ Hslot) as [x Hx]. apply map_of_lookup in Hx; [| done]. congruence. }
  destruct (insert_new _ _ _ _ _ Inv Hd Hm Hslot) as (s' & t' & E & Inv' & Hin & Hdom & Hoth).
  destruct (slot_inorder _ _ _ z Hslot Hb) as (Hin0 & _ & _).
  exists s'. split; [done |]. split; [exists t'; split; [done |] | split; [done |]].
  - rewrite Hin Hin0 map_of_insert //. rewrite -Hin. apply Inv'.
  - intros y Hy Hyz. apply Hoth. rewrite member_tlocs // in Hy. set_solver.
Qed.

Lemma holds_insert_present s m z n x :
  holds s m -> heap s !! z = Some n -> m !! (rb_value n) = Some x -> insert (Some z) s = Ok (false, s).
Proof.
  intros (t & Inv & <-) Hz Hk. pose proof Inv as [Z _ Hb _ _ _].
  apply (insert_present _ t _ n); [done | done |].
  destruct (slot (rb_value n) [] t) as [c'|] eqn:Hslot; [| done]. exfalso.
  destruct (slot_some _ _ _ _ Hslot Hb) as (Hp & Hl & Hr); [constructor | constructor |].
  apply map_of_lookup in Hk; [| done]. simpl in Hp. rewrite -Hp inorder_plug in Hk.
  unfold zipper_list in Hk. simpl in Hk. rewrite ->Forall_forall in Hl, Hr.
  apply elem_of_app in Hk as [Hin|Hin]; [specialize (Hl _ Hin) | specialize (Hr _ Hin)]; simpl in *; lia.
Qed.

Lemma holds_remove s m z k :
  holds s m -> m !! k = Some z ->
  exists s', remove (Some z) s = Ok (tt, s') /\ holds s' (delete k m) /\ detached s' z k /\
    only s s' m [].
Proof.
  intros (t & Inv & <-) Hk. pose proof Inv as [Z _ Hb _ _ _].
  apply map_of_lookup in Hk; [| done]. apply list_elem_of_split in Hk as (l1 & l2 & Hin).
  destruct (remove_node _ _ _ _ _ _ Inv Hin) as (s' & t' & E & Inv' & Hin' & Hd & Hdom & Hoth).
  unfold bst in Hb.
  exists s'. split; [done |]. split; [| split; [done | split; [done |]]].
  - exists t'. split; [done |]. rewrite Hin' Hin. apply map_of_delete. by rewrite -Hin.
  - intros y Hy _. apply Hoth. by rewrite -member_tlocs.
Qed.

(** ** The interface offered to the rest of the kernel *)

(** What a client of the tree may rely on: operations on a state that holds a
    map, and their laws.  [ot_spare s z k] says that node [z] exists, carries
    key [k] and is in no tree. *)
Class OrderedTree (St : Type) := {
  ot_holds : St -> gmap Z loc -> Prop;
  ot_spare : St -> loc -> Z -> Prop;
  ot_find : Z -> M St ptr;
  ot_find_max_lteq : Z -> M St ptr;
  ot_next : loc -> M St ptr;
  ot_insert : loc -> M St bool;
  ot_remove : loc -> M St unit;
  ot_find_law s m k : ot_holds s m -> ot_find k s = Ok (m !! k, s);
  ot_find_max_lteq_law s m k :
    ot_holds s m -> ot_find_max_lteq k s = Ok (snd <$> OMap.max_lteq k m, s);
  ot_next_law s m k z :
    ot_holds s m -> m !! k = Some z -> ot_next z s = Ok (snd <$> OMap.next k m, s);
  ot_insert_law s m z k :
    ot_holds s m -> m !! k = None -> ot_spare s z k -> ~ member m z ->
    exists s', ot_insert z s = Ok (true, s') /\ ot_holds s' (<[k := z]> m) /\
      (forall y ky, ot_spare s y ky -> y <> z -> ~ member m y -> ot_spare s' y ky);
  ot_insert_dup_law s m z k x :
    ot_holds s m -> m !! k = Some x -> ot_spare s z k -> ot_insert z s = Ok (false, s);
  ot_remove_law s m z k :
    ot_holds s m -> m !! k = Some z ->
    exists s', ot_remove z s = Ok (tt, s') /\ ot_holds s' (delete k m) /\ ot_spare s' z k /\
      (forall y ky, ot_spare s y ky -> ~ member m y -> ot_spare s' y ky)
}.

Lemma only_detached s s' m zs y ky :
  only s s' m zs -> detached s y ky -> ~ member m y -> y ∉ zs -> detached s' y ky.
Proof. intros [_ Ho] [col Hy] Hm Hz. exists col. by rewrite Ho. Qed.

#[export, refine] Instance RBTree_OrderedTree : OrderedTree tree_st := {
  ot_holds := holds;
  ot_spare := detached;
  ot_find := find;
  ot_find_max_lteq := find_max_lteq;
  ot_next z := get_next (Some z) None;
  ot_insert z := insert (Some z);
  ot_remove z := remove (Some z);
}.
Proof.
  - apply holds_find.
  - apply holds_find_max_lteq.
  - intros s m k z Hs Hk. apply (holds_neighbours _ _ _ _ Hs Hk).
  - intros s m z k Hs Hk Hd Hm. destruct (holds_insert _ _ _ _ Hs Hk Hd Hm) as (s' & E & Hs' & Ho).
    exists s'. split_and!; [done | done |]. intros y ky Hy Hne Hmy.
    apply (only_detached _ _ _ _ _ _ Ho); [done | done | set_solver].
  - intros s m z k x Hs Hk [col Hd]. by apply (holds_insert_present _ m _ _ x Hs Hd).
  - intros s m z k Hs Hk. destruct (holds_remove _ _ _ _ Hs Hk) as (s' & E & Hs' & Hd & Ho).
    exists s'. split_and!; [done | done | done |]. intros y ky Hy Hmy.
    apply (only_detached _ _ _ _ _ _ Ho); [done | done | set_solver].
Defined.

(** ** Programs of tree operations *)

Inductive op :=
  | OFind (k : Z)
  | OMaxLteq (k : Z)
  | ONext (z : loc)
  | OInsert (z : loc)
  | ORemove (z : loc).

Inductive answer := APtr (p : ptr) | ABool (b : bool) | AUnit.

(** The abstract machine: a map and a pool of nodes with their keys.  [None]
    when a client misuses the tree (an unknown node, inserting a node that is
    in the tree, removing one that is not). *)
Definition spec_op (pool : gmap loc Z) (o : op) (m : gmap Z loc) : option (answer * gmap Z loc) :=
  match o with
  | OFind k => Some (APtr (m !! k), m)
  | OMaxLteq k => Some (APtr (snd <$> OMap.max_lteq k m), m)
  | ONext z =>
      k ← pool !! z;
      if bool_decide (m !! k = Some z) then Some (APtr (snd <$> OMap.next k m), m) else None
  | OInsert z =>
      k ← pool !! z;
      match m !! k with
      | None => Some (ABool true, <[k := z]> m)
      | Some x => if bool_decide (x = z) then None else Some (ABool false, m)
      end
  | ORemove z =>
      k ← pool !! z;
      if bool_decide (m !! k = Some z) then Some (AUnit, delete k m) else None
  end.

Fixpoint spec_run (pool : gmap loc Z) (os : list op) (m : gmap Z loc)
    : option (list answer * gmap Z loc) :=
  match os with
  | [] => Some ([], m)
  | o :: os =>
      '(a, m1) ← spec_op pool o m;
      '(r, m2) ← spec_run pool os m1;
      Some (a :: r, m2)
  end.

Section Client.
Context {St : Type} `{!OrderedTree St}.

Definition impl_op (o : op) : M St answer :=
  match o with
  | OFind k => p <- ot_find k; ret (APtr p)
  | OMaxLteq k => p <- ot_find_max_lteq k; ret (APtr p)
  | ONext z => p <- ot_next z; ret (APtr p)
  | OInsert z => b <- ot_insert z; ret (ABool b)
  | ORemove z => ot_remove z;; ret AUnit
  end.

Fixpoint impl_run (os : list op) : M St (list answer) :=
  match os with
  | [] => ret []
  | o :: os => a <- impl_op o; r <- impl_run os; ret (a :: r)
  end.

(** The state of the tree against the abstract machine. *)
Definition related (pool : gmap loc Z) (s : St) (m : gmap Z loc) : Prop :=
  ot_holds s m /\
  (forall k z, m !! k = Some z -> pool !! z = Some k) /\
  (forall z k, pool !! z = Some k -> m !! k <> Some z -> ot_spare s z k).

Lemma not_member (pool : gmap loc Z) (m : gmap Z loc) z k :
  (forall k z, m !! k = Some z -> pool !! z = Some k) -> pool !! z = Some k ->
  m !! k <> Some z -> ~ member m z.
Proof. intros Hp Hz Hn [k' Hk']. pose proof (Hp _ _ Hk'). congruence. Qed.

Lemma op_simulation pool s m o a m' :
  related pool s m -> spec_op pool o m = Some (a, m') ->
  exists s', impl_op o s = Ok (a, s') /\ related pool s' m'.
Proof.
  intros (Hh & Hp & Hs) Hop. destruct o as [k|k|z|z|z]; simpl in Hop |- *.
  - simplify_eq. exists s. by rewrite (bind_ok _ _ _ _ _ (ot_find_law _ _ k Hh)).
  - simplify_eq. exists s. by rewrite (bind_ok _ _ _ _ _ (ot_find_max_lteq_law _ _ k Hh)).
  - destruct (pool !! z) as [k|] eqn:Hz; [simpl in Hop | done]. case_bool_decide; simplify_eq.
    exists s. by rewrite (bind_ok _ _ _ _ _ (ot_next_law _ _ _ _ Hh H)).
  - destruct (pool !! z) as [k|] eqn:Hz; [simpl in Hop | done].
    destruct (m !! k) as [x|] eqn:Hk.
    + case_bool_decide; simplify_eq. exists s.
      assert (Hsp : ot_spare s z k) by (apply Hs; congruence).
      by rewrite (bind_ok _ _ _ _ _ (ot_insert_dup_law _ _ _ _ _ Hh Hk Hsp)).
    + simplify_eq. assert (Hn : m !! k <> Some z) by congruence.
      destruct (ot_insert_law _ _ _ _ Hh Hk (Hs _ _ Hz Hn) (not_member _ _ _ _ Hp Hz Hn))
        as (s' & E & Hh' & Hsp).
      exists s'. rewrite (bind_ok _ _ _ _ _ E). split; [done |]. split_and!; [done | |].
      * intros k' z'. rewrite lookup_insert_Some. naive_solver.
      * intros z' k' Hz' Hn'. rewrite lookup_insert in Hn'. case_decide; subst.
        -- apply Hsp; [apply Hs; congruence | congruence |]. eapply not_member; [done..|]. congruence.
        -- apply Hsp; [by apply Hs | congruence |]. by eapply not_member.
  - destruct (pool !! z) as [k|] eqn:Hz; [simpl in Hop | done]. case_bool_decide; simplify_eq.
    destruct (ot_remove_law _ _ _ _ Hh H) as (s' & E & Hh' & Hd & Hsp).
    exists s'. rewrite (bind_ok _ _ _ _ _ E). split; [done |]. split_and!; [done | |].
    + intros k' z'. rewrite lookup_delete_Some. naive_solver.
    + intros z' k' Hz' Hn'. destruct (decide (z' = z)) as [->|Hne]; [congruence |].
      assert (Hn2 : m !! k' <> Some z').
      { intros Heq. apply Hn'. rewrite lookup_delete_ne; congruence. }
      apply Hsp; [by apply Hs | by eapply not_member].
Qed.

(** Every program of tree operations gives the answers of the abstract
    machine and ends in a state that holds its map. *)
Lemma run_simulation pool os s m r m' :
  related pool s m -> spec_run pool os m = Some (r, m') ->
  exists s', impl_run os s = Ok (r, s') /\ related pool s' m'.
Proof.
  revert s m r. induction os as [|o os IH]; intros s m r Hr Hrun; simpl in *.
  - simplify_eq. by exists s.
  - destruct (spec_op pool o m) as [[a m1]|] eqn:Hop; [simpl in Hrun | done].
    destruct (spec_run pool os m1) as [[rs m2]|] eqn:Hos; simplify_eq/=.
    destruct (op_simulation _ _ _ _ _ _ Hr Hop) as (s1 & E1 & Hr1).
    destruct (IH _ _ _ Hr1 Hos) as (s2 & E2 & Hr2).
    exists s2. by rewrite (bind_ok _ _ _ _ _ E1) (bind_ok _ _ _ _ _ E2).
Qed.

End Client.

(** ** Iteration *)

(** The [for (auto it = begin(); it != end(); ++it)] loop, collecting keys. *)
Fixpoint walk (n : nat) (it : Iterator) : M tree_st (list Z) :=
  match n with
  | O => fun _ => NoFuel
  | S n' =>
      if nonnull (node it) then
        v <- iter_deref it;
        it' <- iter_inc it;
        ks <- walk n' it';
        ret (v :: ks)
      else ret []
  end.

Lemma focus_split t l1 x k l2 : NoDup (tlocs t) -> inorder t = l1 ++ (x, k) :: l2 ->
  exists c col a b, t = plug c (T col a x k b) /\ l1 = cl c ++ inorder a /\ l2 = inorder b ++ cr c.
Proof.
  intros Hnd Hin. assert (Hx : x ∈ tlocs t) by (rewrite /tlocs Hin fmap_app fmap_cons; set_solver).
  destruct (focus_on _ _ Hx) as (c & col & a & k' & b & ->).
  assert (Hi : inorder (plug c (T col a x k' b)) = (cl c ++ inorder a) ++ (x, k') :: inorder b ++ cr c).
  { rewrite inorder_plug /zipper_list /=. by list_norm. }
  unfold tlocs in Hnd. rewrite Hin in Hnd, Hi.
  destruct (split_unique _ _ _ _ _ _ _ Hi Hnd) as (-> & -> & ->). eauto 10.
Qed.

Lemma walk_suffix n s t l1 l2 :
  treerep s t -> inorder t = l1 ++ l2 -> (length l2 < n)%nat ->
  walk n (mkIterator (head l2.*1) Forward) s = Ok (l2.*2, s).
Proof.
  revert n l1. induction l2 as [|[x k] l2 IH]; intros n l1 Z Hin Hn; (destruct n; [lia |]).
  { done. }
  assert (Hnd : NoDup (tlocs t)) by (rewrite -tlocs_zlocs; exact (proj2 (proj2 (proj2 Z)))).
  destruct (focus_split _ _ _ _ _ Hnd Hin) as (c & col & a & b & -> & Hl1 & Hl2).
  pose proof (proj2 (zrep_plug _ _ _) Z) as Zf. pose proof (zrep_node _ _ _ _ _ _ _ Zf) as Hx.
  assert (E1 : iter_deref (mkIterator (Some x) Forward) s = Ok (k, s)).
  { unfold iter_deref, get_value, load, bind, ret; simpl. by rewrite Hx. }
  assert (E2 : iter_inc (mkIterator (Some x) Forward) s = Ok (mkIterator (head l2.*1) Forward, s)).
  { unfold iter_inc; simpl. unfold get_next. by rewrite (bind_ok _ _ _ _ _ (get_next_ok _ _ _ _ _ _ _ Zf)) Hl2. }
  simpl. rewrite (bind_ok _ _ _ _ _ E1) (bind_ok _ _ _ _ _ E2).
  assert (E3 : walk n (mkIterator (head l2.*1) Forward) s = Ok (l2.*2, s)).
  { apply (IH _ (l1 ++ [(x, k)])); [done | by rewrite -app_assoc | simpl in Hn; lia]. }
  by rewrite (bind_ok _ _ _ _ _ E3).
Qed.

Lemma walk_holds s m : holds s m ->
  exists it ks, iter_begin s = Ok (it, s) /\ walk (S (size m)) it s = Ok (ks, s) /\
    StronglySorted Z.lt ks /\ (forall k, k ∈ ks <-> is_Some (m !! k)).
Proof.
  intros (t & [Z _ Hb _ _ _] & <-). eexists _, (inorder t).*2. split_and!.
  - unfold iter_begin. by rewrite (bind_ok _ _ _ _ _ (begin_ok _ _ Z)).
  - apply (walk_suffix _ _ t []); [done | done |]. rewrite map_of_size //. lia.
  - exact Hb.
  - intros k. rewrite list_elem_of_fmap. split.
    + intros ([x k'] & -> & Hin). exists x. by apply map_of_lookup.
    + intros [x Hx]. apply map_of_lookup in Hx; [| done]. by exists (x, k).
Qed.

(** ** The depth of the tree *)

Lemma rbh_bounds t n : rbh t n ->
  (2 ^ n <= S (length (tlocs t)))%nat /\
  (height t <= 2 * n + if isblk t then 0 else 1)%nat.
Proof.
  induction 1 as [|a x k b n Ha [IHa1 IHa2] Hb [IHb1 IHb2] Hba Hbb|a x k b n Ha [IHa1 IHa2] Hb [IHb1 IHb2]].
  - simpl. lia.
  - rewrite Hba in IHa2. rewrite Hbb in IHb2. rewrite tlocs_T length_app /=. lia.
  - rewrite tlocs_T length_app. simpl. destruct (isblk a), (isblk b); lia.
Qed.

Lemma is_rb_height t : is_rb t -> (height t <= 2 * Nat.log2 (S (length (tlocs t))))%nat.
Proof.
  intros [Hb [n Hn]]. destruct (rbh_bounds _ _ Hn) as [H1 H2]. rewrite Hb in H2.
  assert (n <= Nat.log2 (S (length (tlocs t))))%nat; [| lia].
  apply Nat.log2_le_pow2; lia.
Qed.

Lemma find_rounds_holds s m key : holds s m ->
  loop (S (2 * Nat.log2 (S (size m)))) (search_round key) (_root s) s = Ok (m !! key, s).
Proof.
  intros Hs. pose proof Hs as (t & [Z Hrb Hb _ _ _] & Hm).
  pose proof (holds_find _ _ key Hs) as Hf. rewrite (find_search _ _ _ Z) in Hf.
  injection Hf as <-. rewrite (zrep_root _ _ _ Z). apply (search_loop _ _ [] _ _ Z).
  pose proof (is_rb_height _ Hrb) as Hh. rewrite -Hm map_of_size //.
  unfold tlocs in Hh. rewrite length_fmap in Hh. lia.
Qed.

End RBTree.
