(* ===== verification/RBTreeTheorems.v ===== *)
(** * Theorems on [kfxx::RBTree]

    The properties of the red-black tree, stated on the operations of
    kernel/kfxx/rbtree.cc and include/pbos/kfxx/rbtree.hh, each with a witness
    on a concrete tree of three nodes with one spare node. *)

From S2P Require Import Prelude OMap RBTreeModel RBTreeSpec RBTreeShape RBTreeSearch RBTreeInsert RBTreeRemove RBTreeUnlink RBTree.
Import RB RBS RBShape RBSearch RBInsert RBRemove RBUnlink RBTree.

Module RBTheorems.

(** A tree with keys 5, 10 and 20 in nodes 2, 1 and 3; node 4 (key 7) and
    node 5 (key 10) are in no tree. *)
Definition demo_heap : gmap loc Node :=
  {[ 1%positive := mkNode None (Some 2%positive) (Some 3%positive) Black 10;
     2%positive := mkNode (Some 1%positive) None None Red 5;
     3%positive := mkNode (Some 1%positive) None None Red 20;
     4%positive := mkNode None None None Black 7;
     5%positive := mkNode None None None Black 10 ]}.

Definition demo : tree_st :=
  mkTree demo_heap (Some 1%positive) (Some 2%positive) (Some 3%positive) 3.

Definition demo_map : gmap Z loc :=
  {[ 5 := 2%positive; 10 := 1%positive; 20 := 3%positive ]}.

Lemma demo_holds : holds demo demo_map.
Proof.
  exists (T Black (T Red E 2%positive 5 E) 1%positive 10 (T Red E 3%positive 20 E)).
  split; [| by vm_compute]. split.
  - unfold treerep, zrep. split_and!; try done. apply (bool_decide_unpack _). by vm_compute.
  - split; [done |]. exists 1%nat. repeat constructor.
  - unfold bst, keys_sorted. simpl. repeat constructor; lia.
  - done.
  - done.
  - done.
Qed.

(** C1: inserting a node with a new key succeeds; afterwards the tree is a
    red-black search tree again (with its caches and its size) that holds the
    map extended by the node, and no other node outside the tree was written. *)
Theorem insert_correct s m z k :
  holds s m -> m !! k = None -> detached s z k -> ~ member m z ->
  exists s', insert (Some z) s = Ok (true, s') /\ holds s' (<[k := z]> m) /\ only s s' m [z].
Proof. apply holds_insert. Qed.

Lemma insert_correct_witness : exists s', insert (Some 4%positive) demo = Ok (true, s') /\
  holds s' (<[7 := 4%positive]> demo_map) /\ only demo s' demo_map [4%positive].
Proof.
  apply (insert_correct demo demo_map 4%positive 7).
  - exact demo_holds.
  - reflexivity.
  - exists Black. reflexivity.
  - intros [k Hk]. unfold demo_map in Hk. rewrite !lookup_insert_Some lookup_empty in Hk. naive_solver.
Defined.

(** C2: removing a node of the tree succeeds; afterwards the tree is a
    red-black search tree that holds the map without that key, the node is
    detached, and no node outside the tree was written. *)
Theorem remove_correct s m z k :
  holds s m -> m !! k = Some z ->
  exists s', remove (Some z) s = Ok (tt, s') /\ holds s' (delete k m) /\ detached s' z k /\
    only s s' m [].
Proof. apply holds_remove. Qed.

Lemma remove_correct_witness : exists s', remove (Some 1%positive) demo = Ok (tt, s') /\
  holds s' (delete 10 demo_map) /\ detached s' 1%positive 10 /\ only demo s' demo_map [].
Proof. apply (remove_correct demo demo_map 1%positive 10); [exact demo_holds | reflexivity]. Defined.

(** Inserting a node whose key is present returns false and changes
    nothing; [insert_unwrap] then panics. *)
Theorem insert_duplicate s m z n x :
  holds s m -> heap s !! z = Some n -> m !! rb_value n = Some x ->
  insert (Some z) s = Ok (false, s) /\ insert_unwrap (Some z) s = Panic.
Proof.
  intros Hs Hz Hx. pose proof (holds_insert_present _ _ _ _ _ Hs Hz Hx) as E.
  split; [done |]. unfold insert_unwrap. by rewrite (bind_ok _ _ _ _ _ E).
Qed.

Lemma insert_duplicate_witness :
  insert (Some 5%positive) demo = Ok (false, demo) /\ insert_unwrap (Some 5%positive) demo = Panic.
Proof.
  apply (insert_duplicate demo demo_map 5%positive (mkNode None None None Black 10) 1%positive);
    [exact demo_holds | reflexivity | reflexivity].
Defined.

(** C3: [find] returns the node of a key, or null, and [find_max_lteq] the
    node of the greatest key that is not above the argument; neither changes
    the state. *)
Theorem find_correct s m k :
  holds s m ->
  find k s = Ok (m !! k, s) /\ find_max_lteq k s = Ok (snd <$> OMap.max_lteq k m, s).
Proof. intros Hs. split; [by apply holds_find | by apply holds_find_max_lteq]. Qed.

Lemma find_correct_witness :
  find 10 demo = Ok (Some 1%positive, demo) /\ find_max_lteq 19 demo = Ok (Some 1%positive, demo).
Proof.
  split.
  - exact (proj1 (find_correct demo demo_map 10 demo_holds)).
  - exact (proj2 (find_correct demo demo_map 19 demo_holds)).
Defined.

(** C4: any sequence of tree operations in which nodes are inserted only when
    outside and removed only when inside gives the answers of the abstract
    ordered map, and never panics, faults or runs out of its loop bounds. *)
Theorem programs_refine_map pool os s m r m' :
  related pool s m -> spec_run pool os m = Some (r, m') ->
  exists s', impl_run (St := tree_st) os s = Ok (r, s') /\ related pool s' m'.
Proof. apply run_simulation. Qed.

Definition demo_pool : gmap loc Z :=
  {[ 1%positive := 10; 2%positive := 5; 3%positive := 20; 4%positive := 7; 5%positive := 10 ]}.

Definition demo_program : list op :=
  [OInsert 4%positive; ORemove 1%positive; OInsert 5%positive; OMaxLteq 9; ONext 4%positive;
   OInsert 1%positive; OFind 20; ORemove 2%positive; OFind 5].

Lemma programs_refine_map_witness : exists s',
  impl_run (St := tree_st) demo_program demo
  = Ok ([ABool true; AUnit; ABool true; APtr (Some 4%positive); APtr (Some 5%positive);
         ABool false; APtr (Some 3%positive); AUnit; APtr None], s') /\
  related demo_pool s' {[ 7 := 4%positive; 10 := 5%positive; 20 := 3%positive ]}.
Proof.
  apply (programs_refine_map demo_pool demo_program demo demo_map).
  - split_and!; [exact demo_holds | |].
    + intros k z. unfold demo_map. rewrite !lookup_insert_Some lookup_empty. naive_solver.
    + intros z k Hz Hn. unfold demo_pool in Hz. rewrite !lookup_insert_Some lookup_empty in Hz.
      repeat destruct Hz as [[<- <-]|[_ Hz]];
        solve [exfalso; apply Hn; reflexivity | exists Black; reflexivity | discriminate].
  - vm_compute. reflexivity.
Defined.

(** Iterating forward from [begin] visits every key of the map exactly
    once in increasing order and ends at [end]. *)
Theorem iteration_sorted s m :
  holds s m ->
  exists it ks, iter_begin s = Ok (it, s) /\ walk (S (size m)) it s = Ok (ks, s) /\
    StronglySorted Z.lt ks /\ (forall k, k ∈ ks <-> is_Some (m !! k)).
Proof. apply walk_holds. Qed.

Lemma iteration_sorted_witness :
  exists it ks, iter_begin demo = Ok (it, demo) /\ walk 4 it demo = Ok (ks, demo) /\
    StronglySorted Z.lt ks /\ (forall k, k ∈ ks <-> is_Some (demo_map !! k)).
Proof. exact (iteration_sorted demo demo_map demo_holds). Defined.

(** C5: a search of [find] goes through at most 2 log2 (n + 1) nodes, in a
    tree of n nodes. *)
Theorem find_logarithmic s m key :
  holds s m ->
  loop (S (2 * Nat.log2 (S (size m)))) (search_round key) (_root s) s = Ok (m !! key, s).
Proof. apply find_rounds_holds. Qed.

Lemma find_logarithmic_witness :
  loop 5 (search_round 20) (Some 1%positive) demo = Ok (Some 3%positive, demo).
Proof. exact (find_logarithmic demo demo_map 20 demo_holds). Defined.

(** [get_next] and [get_prev] of a node are the nodes of the neighbouring
    keys, or null at the ends. *)
Theorem neighbours_correct s m k z :
  holds s m -> m !! k = Some z ->
  get_next (Some z) None s = Ok (snd <$> OMap.next k m, s) /\
  get_prev (Some z) None s = Ok (snd <$> OMap.prev k m, s).
Proof. apply holds_neighbours. Qed.

Lemma neighbours_correct_witness :
  get_next (Some 1%positive) None demo = Ok (Some 3%positive, demo) /\
  get_prev (Some 1%positive) None demo = Ok (Some 2%positive, demo).
Proof. apply (neighbours_correct demo demo_map 10 1%positive demo_holds). reflexivity. Defined.

(** Moving a tree hands its whole contents over and leaves the source
    empty, so that destroying the source succeeds; moving onto a tree that
    still has nodes panics. *)
Theorem move_correct this other m :
  holds other m ->
  holds (fst (move_construct other)) m /\ holds (snd (move_construct other)) ∅ /\
  destroy (snd (move_construct other)) = Ok tt /\
  (_root this = None -> move_assign this other = Ok (move_construct other)) /\
  (_root this <> None -> move_assign this other = Panic).
Proof.
  intros (t & Inv & Hm). split_and!.
  - exists t. split; [| done]. by destruct Inv.
  - apply holds_empty.
  - done.
  - intros Hr. unfold move_assign. by rewrite Hr.
  - intros Hr. unfold move_assign. by destruct (_root this).
Qed.

Lemma move_correct_witness :
  holds (fst (move_construct demo)) demo_map /\ holds (snd (move_construct demo)) ∅ /\
  destroy (snd (move_construct demo)) = Ok tt /\ move_assign demo demo = Panic.
Proof.
  destruct (move_correct demo demo demo_map demo_holds) as (H1 & H2 & H3 & _ & H5).
  split_and!; [exact H1 | exact H2 | exact H3 | apply H5; discriminate].
Defined.

End RBTheorems.
