(* ===== verification/MemConf.v ===== *)
(** * Addresses, pages and alignment

    The address arithmetic of arch/x86_64/memconf.h and mlayout.h, the
    alignment functions of include/pbos/kfxx/utils.hh, the access flags of
    include/pbos/mm/mm.h and the result codes of include/pbos/km/result.h. *)

From S2P Require Import Prelude.

Module MemConf.

(** ** Result codes ([km_results]) *)
Inductive km_result_t :=
  | KM_RESULT_OK
  | KM_RESULT_FAILED
  | KM_RESULT_NO_PERM
  | KM_RESULT_INVALID_ARGS
  | KM_RESULT_NO_MEM
  | KM_RESULT_IO_ERROR
  | KM_RESULT_NOT_FOUND
  | KM_RESULT_UNAVAILABLE
  | KM_RESULT_EOF
  | KM_RESULT_MALFORMED
  | KM_RESULT_INVALID_ADDR
  | KM_RESULT_EXISTED
  | KM_RESULT_DEPRECATED
  | KM_RESULT_INTERNAL_ERROR
  | KM_RESULT_NO_SLOT
  | KM_RESULT_UNSUPPORTED_OPERATION
  | KM_RESULT_UNSUPPORTED_EXECFMT
  | KM_RESULT_ACCESS_VIOLATION
  | KM_RESULT_DIR_NOT_EMPTY
  | KM_RESULT_UNRESOLVED_SYMBOL.

#[global] Instance km_result_eq_dec : EqDecision km_result_t.
Proof. solve_decision. Defined.

(** The range of the direct mapping of physical memory *)
Definition DIRECTPHYMEM_VBASE : Z := 0xffff800000000000.
Definition DIRECTPHYMEM_VTOP : Z := 0xffff800000000000 + 0x0000400000000000 - 1.

(** [KM_FAILED] *)
Definition KM_FAILED (r : km_result_t) : bool :=
  match r with KM_RESULT_OK => false | _ => true end.

(** ** Access flags *)
Definition MM_PAGE_MAPPED : Z := 1.
Definition MM_PAGE_READ : Z := 2.
Definition MM_PAGE_WRITE : Z := 4.
Definition MM_PAGE_EXEC : Z := 8.
Definition MM_PAGE_NOCACHE : Z := 16.
Definition MM_PAGE_USER : Z := 32.

Definition MMAP_IGNORE_VMR : Z := 0x40000000.
Definition MMAP_NO_PGTAB_ALLOC : Z := 0x40000000.
Definition MMAP_NO_RC : Z := 0x80000000.

(** [flags & m] used as a condition *)
Definition has (flags m : Z) : bool := negb (Z.land flags m =? 0).

(** ** Pages *)
Definition PAGESIZE : Z := 4096.

(** [~(PAGESIZE - 1)] as a 64-bit mask *)
Definition PGMASK : Z := 2 ^ 64 - 4096.

Definition PGCEIL (addr : Z) : Z := Z.land (w64 (addr + 4095)) PGMASK.
Definition PGFLOOR (addr : Z) : Z := Z.land addr PGMASK.

Definition PGROUNDUP (addr : Z) : Z := Z.shiftr (w64 (addr + 4095)) 12.
Definition PGROUNDDOWN (addr : Z) : Z := Z.shiftr addr 12.

(** ** Table indexes *)
Definition PML4X (va : Z) : Z := Z.land (Z.shiftr va 39) 0x1ff.
Definition PDPTX (va : Z) : Z := Z.land (Z.shiftr va 30) 0x1ff.
Definition PDX (va : Z) : Z := Z.land (Z.shiftr va 21) 0x1ff.
Definition PTX (va : Z) : Z := Z.land (Z.shiftr va 12) 0x1ff.
Definition PGOFF (addr : Z) : Z := Z.land addr 0xfff.

Definition ADDR_PREFIX (addr : Z) : Z := Z.land addr 0xffff000000000000.
Definition ADDR_VALUE (addr : Z) : Z := Z.land addr 0x0000ffffffffffff.

Definition VADDR (prefix pml4x pdptx pdx ptx offset : Z) : Z :=
  Z.lor prefix
    (Z.lor (Z.lor (Z.lor (Z.lor (Z.shiftl pml4x 39) (Z.shiftl pdptx 30)) (Z.shiftl pdx 21))
      (Z.shiftl ptx 12)) offset).

Definition KVADDR (pml4x pdptx pdx ptx offset : Z) : Z :=
  VADDR 0xffff000000000000 pml4x pdptx pdx ptx offset.
Definition UVADDR (pml4x pdptx pdx ptx offset : Z) : Z :=
  VADDR 0 pml4x pdptx pdx ptx offset.

Definition UNPGADDR (pg : Z) : Z := w64 (Z.shiftl pg 12).

(** [mm_is_user_space] (hal/x86_64/mm/misc.cc) *)
Definition mm_is_user_space (p : Z) : bool := p <? 0x0000800000000000.

(** ** Alignment ([kfxx::ceil_align_to], [kfxx::floor_align_to] on [size_t]);
    a zero alignment fails the assertion. *)
Definition ceil_align_to (data alignment : Z) : outcome Z :=
  if alignment =? 0 then Panic
  else Ok (w64 (data + (alignment - data mod alignment) mod alignment)).

Definition floor_align_to (data alignment : Z) : outcome Z :=
  if alignment =? 0 then Panic else Ok (data - data mod alignment).

(** The templates with a constant power of two. *)
Definition ceil_align_to_pow2 (data alignment : Z) : Z :=
  Z.land (w64 (data + (alignment - 1))) (2 ^ 64 - alignment).
Definition floor_align_to_pow2 (data alignment : Z) : Z := Z.land data (2 ^ 64 - alignment).

(** ** Lemmas *)

(** Clearing the low [k] bits of a 64-bit value. *)
Lemma land_high a k : in64 a -> 0 <= k <= 64 -> Z.land a (2 ^ 64 - 2 ^ k) = a - a mod 2 ^ k.
Proof.
  intros Ha Hk.
  assert (Hm : 2 ^ 64 - 2 ^ k = Z.ldiff (Z.ones 64) (Z.ones k)).
  { rewrite Z.ldiff_ones_r; [lia |]. rewrite Z.shiftr_div_pow2; [lia |]. rewrite Z.shiftl_mul_pow2; [lia |].
    rewrite Z.ones_equiv. replace (2 ^ 64) with (2 ^ (64 - k) * 2 ^ k) by (rewrite -Z.pow_add_r; [lia | lia | f_equal; lia]).
    assert (0 < 2 ^ k) by (apply Z.pow_pos_nonneg; lia).
    replace (Z.pred (2 ^ (64 - k) * 2 ^ k)) with ((2 ^ k - 1) + (2 ^ (64 - k) - 1) * 2 ^ k) by lia.
    rewrite Z.div_add; [lia |]. rewrite (Z.div_small (2 ^ k - 1)); lia. }
  rewrite Hm Z.ldiff_land Z.land_assoc -Z.ldiff_land Z.land_ones; [lia |].
  unfold in64 in Ha. rewrite (Z.mod_small a); [lia |]. rewrite Z.ldiff_ones_r; [lia |].
  rewrite Z.shiftr_div_pow2; [lia |]. rewrite Z.shiftl_mul_pow2; [lia |].
  pose proof (Z.div_mod a (2 ^ k)). assert (0 < 2 ^ k) by (apply Z.pow_pos_nonneg; lia). lia.
Qed.

Lemma PGFLOOR_eq a : in64 a -> PGFLOOR a = a - a mod 4096.
Proof. intros Ha. apply (land_high a 12 Ha). lia. Qed.

Lemma PGCEIL_eq a : in64 a -> a + 4095 < 2 ^ 64 -> PGCEIL a = (a + 4095) - (a + 4095) mod 4096.
Proof.
  intros [Ha _] Hb. unfold PGCEIL. rewrite w64_small; [unfold in64; lia |].
  apply (land_high (a + 4095) 12); [unfold in64; lia | lia].
Qed.

Lemma PGFLOOR_range a : in64 a -> in64 (PGFLOOR a) /\ PGFLOOR a <= a < PGFLOOR a + 4096 /\ PGFLOOR a mod 4096 = 0.
Proof.
  intros Ha. rewrite PGFLOOR_eq //. unfold in64 in *. pose proof (Z.mod_pos_bound a 4096).
  pose proof (Z.div_mod a 4096). split_and!; try lia.
  replace (a - a mod 4096) with (a / 4096 * 4096) by lia. apply Z.mod_mul. lia.
Qed.

Lemma PGFLOOR_aligned a : in64 a -> a mod 4096 = 0 -> PGFLOOR a = a.
Proof. intros Ha Hm. rewrite PGFLOOR_eq // Hm. lia. Qed.

Lemma PGCEIL_range a : in64 a -> a + 4095 < 2 ^ 64 ->
  in64 (PGCEIL a) /\ a <= PGCEIL a < a + 4096 /\ PGCEIL a mod 4096 = 0.
Proof.
  intros Ha Hb. rewrite PGCEIL_eq //. unfold in64 in *. pose proof (Z.mod_pos_bound (a + 4095) 4096).
  pose proof (Z.div_mod (a + 4095) 4096). split_and!; try lia.
  replace (a + 4095 - (a + 4095) mod 4096) with ((a + 4095) / 4096 * 4096) by lia. apply Z.mod_mul. lia.
Qed.

Lemma ceil_align_to_spec d al : 0 < al -> 0 <= d -> d + al <= 2 ^ 64 ->
  exists r, ceil_align_to d al = Ok r /\ d <= r < d + al /\ r mod al = 0.
Proof.
  intros Hal Hd Hb. unfold ceil_align_to. destruct (Z.eqb_spec al 0); [lia |].
  pose proof (Z.mod_pos_bound d al). pose proof (Z.mod_pos_bound (al - d mod al) al).
  assert (Hr : (d + (al - d mod al) mod al) mod al = 0).
  { rewrite Zplus_mod_idemp_r. replace (d + (al - d mod al)) with (0 + (d / al + 1) * al).
    - rewrite Z.mod_add; [lia |]. by rewrite Z.mod_0_l; [lia |].
    - pose proof (Z.div_mod d al). lia. }
  assert (Hlt : d + (al - d mod al) mod al < 2 ^ 64).
  { destruct (Z.eq_dec (d mod al) 0) as [Hz|Hz].
    - rewrite Hz Z.sub_0_r Z.mod_same; lia.
    - rewrite Z.mod_small; lia. }
  eexists. split; [done |]. rewrite w64_small; [unfold in64; lia |]. split; [lia | done].
Qed.

Lemma floor_align_to_spec d al : 0 < al -> 0 <= d ->
  exists r, floor_align_to d al = Ok r /\ r <= d < r + al /\ 0 <= r /\ r mod al = 0.
Proof.
  intros Hal Hd. unfold floor_align_to. destruct (Z.eqb_spec al 0); [lia |].
  pose proof (Z.mod_pos_bound d al). pose proof (Z.div_mod d al). pose proof (Z.div_pos d al).
  eexists. split; [done |]. replace (d - d mod al) with (d / al * al) by lia.
  split_and!; try nia. by apply Z.mod_mul; lia.
Qed.

(** ** Taking an address apart and putting it together *)

(** A field of [w] bits at position [k], put back in place. *)
Lemma field_testbit a k w n : 0 <= k -> 0 <= w -> 0 <= n ->
  Z.testbit (Z.shiftl (Z.land (Z.shiftr a k) (Z.ones w)) k) n
  = Z.testbit a n && (k <=? n) && (n <? k + w).
Proof.
  intros Hk Hw Hn. rewrite Z.shiftl_spec; [lia |].
  destruct (Z.leb_spec k n) as [Hle|Hlt].
  - rewrite Z.land_spec Z.shiftr_spec; [lia |]. replace (n - k + k) with n by lia.
    rewrite Z.testbit_ones; [lia |]. destruct (Z.testbit a n); simpl; lia.
  - rewrite Z.testbit_neg_r; [lia |]. by rewrite andb_false_r.
Qed.

Lemma prefix_testbit a n : 0 <= n ->
  Z.testbit (ADDR_PREFIX a) n = Z.testbit a n && (48 <=? n) && (n <? 64).
Proof.
  intros Hn. unfold ADDR_PREFIX. rewrite Z.land_spec.
  change 0xffff000000000000 with (Z.shiftl (Z.ones 16) 48).
  rewrite Z.shiftl_spec; [lia |]. destruct (Z.leb_spec 48 n) as [Hle|Hlt].
  - rewrite Z.testbit_ones; [lia |]. destruct (Z.testbit a n); simpl; lia.
  - rewrite (Z.testbit_neg_r (Z.ones 16)); [lia |]. by rewrite !andb_false_r.
Qed.

Lemma VADDR_split a : in64 a ->
  VADDR (ADDR_PREFIX a) (PML4X a) (PDPTX a) (PDX a) (PTX a) (PGOFF a) = a.
Proof.
  intros Ha. apply Z.bits_inj'. intros n Hn. unfold VADDR, PML4X, PDPTX, PDX, PTX, PGOFF.
  change 0x1ff with (Z.ones 9). change 0xfff with (Z.ones 12).
  rewrite !Z.lor_spec prefix_testbit // !field_testbit //.
  assert (Ho : Z.testbit (Z.land a (Z.ones 12)) n = Z.testbit a n && (n <? 12)).
  { rewrite Z.land_spec Z.testbit_ones; [lia |]. destruct (Z.testbit a n); simpl; lia. }
  rewrite Ho. destruct (Z.lt_ge_cases n 64) as [Hlt|Hge].
  - destruct (Z.testbit a n); simpl; lia.
  - rewrite (testbit_small a n 64); [done | lia | lia |]. done.
Qed.

(** The canonical halves. *)
Definition user_addr (a : Z) : Prop := 0 <= a < 2 ^ 47.
Definition kernel_addr (a : Z) : Prop := 2 ^ 64 - 2 ^ 47 <= a < 2 ^ 64.

Lemma user_prefix a : user_addr a -> ADDR_PREFIX a = 0.
Proof.
  intros Ha. apply Z.bits_inj'. intros n Hn. rewrite prefix_testbit // Z.bits_0.
  destruct (Z.leb_spec 48 n) as [Hle|]; [| by rewrite andb_false_r].
  unfold user_addr in Ha. rewrite (testbit_small a n 47) //; lia.
Qed.

Lemma kernel_prefix a : kernel_addr a -> ADDR_PREFIX a = 0xffff000000000000.
Proof.
  intros Ha. unfold kernel_addr in Ha. unfold ADDR_PREFIX.
  replace 0xffff000000000000 with (2 ^ 64 - 2 ^ 48) by done.
  rewrite (land_high a 48); [unfold in64; lia | lia |].
  assert (a / 2 ^ 48 = 2 ^ 16 - 1). { symmetry. apply Z.div_unique with (a - (2 ^ 16 - 1) * 2 ^ 48); lia. }
  pose proof (Z.div_mod a (2 ^ 48)). lia.
Qed.

Lemma index_range a : 0 <= PML4X a < 512 /\ 0 <= PDPTX a < 512 /\ 0 <= PDX a < 512 /\ 0 <= PTX a < 512.
Proof.
  unfold PML4X, PDPTX, PDX, PTX. change 0x1ff with (Z.ones 9). rewrite !Z.land_ones; [lia.. |].
  change (2 ^ 9) with 512. split_and!; apply Z.mod_pos_bound; lia.
Qed.

(** A 64-bit address is recovered from its prefix, its four table
    indexes (each below 512) and its page offset; a canonical user address by
    [UVADDR] and a canonical kernel address by [KVADDR]. *)
Theorem address_roundtrip a : in64 a ->
  VADDR (ADDR_PREFIX a) (PML4X a) (PDPTX a) (PDX a) (PTX a) (PGOFF a) = a /\
  (user_addr a -> UVADDR (PML4X a) (PDPTX a) (PDX a) (PTX a) (PGOFF a) = a) /\
  (kernel_addr a -> KVADDR (PML4X a) (PDPTX a) (PDX a) (PTX a) (PGOFF a) = a) /\
  (0 <= PML4X a < 512 /\ 0 <= PDPTX a < 512 /\ 0 <= PDX a < 512 /\ 0 <= PTX a < 512).
Proof.
  intros Ha. pose proof (VADDR_split a Ha) as H.
  split; [done | split; [| split; [| apply index_range]]].
  - intros Hu%user_prefix. unfold UVADDR. by rewrite -Hu.
  - intros Hk%kernel_prefix. unfold KVADDR. by rewrite -Hk.
Qed.

Lemma address_roundtrip_witness :
  KVADDR (PML4X 0xffffffff80001234) (PDPTX 0xffffffff80001234) (PDX 0xffffffff80001234)
    (PTX 0xffffffff80001234) (PGOFF 0xffffffff80001234) = 0xffffffff80001234.
Proof.
  apply (proj1 (proj2 (proj2 (address_roundtrip 0xffffffff80001234 ltac:(unfold in64; lia))))).
  unfold kernel_addr. lia.
Defined.

(** [PGFLOOR] and [PGCEIL] give the page boundaries around an address
    (the upper one when it does not wrap), and [ceil_align_to] and
    [floor_align_to] do the same for any nonzero alignment. *)
Theorem rounding_correct a al : in64 a -> a + 4095 < 2 ^ 64 -> 0 < al -> a + al <= 2 ^ 64 ->
  (PGFLOOR a <= a < PGFLOOR a + 4096 /\ PGFLOOR a mod 4096 = 0) /\
  (a <= PGCEIL a < a + 4096 /\ PGCEIL a mod 4096 = 0) /\
  (exists r, ceil_align_to a al = Ok r /\ a <= r < a + al /\ r mod al = 0) /\
  (exists r, floor_align_to a al = Ok r /\ r <= a < r + al /\ r mod al = 0).
Proof.
  intros Ha Hb Hal Hal2. destruct (PGFLOOR_range a Ha) as (_ & ? & ?).
  destruct (PGCEIL_range a Ha Hb) as (_ & ? & ?).
  destruct (floor_align_to_spec a al Hal) as (r & ? & ? & ? & ?); [by destruct Ha |].
  split_and!; try tauto.
  - apply ceil_align_to_spec; [done | by destruct Ha | done].
  - by exists r.
Qed.

Lemma rounding_correct_witness :
  (PGFLOOR 5000 <= 5000 < PGFLOOR 5000 + 4096 /\ PGFLOOR 5000 mod 4096 = 0) /\
  (5000 <= PGCEIL 5000 < 5000 + 4096 /\ PGCEIL 5000 mod 4096 = 0) /\
  (exists r, ceil_align_to 5000 48 = Ok r /\ 5000 <= r < 5000 + 48 /\ r mod 48 = 0) /\
  (exists r, floor_align_to 5000 48 = Ok r /\ r <= 5000 < r + 48 /\ r mod 48 = 0).
Proof. apply (rounding_correct 5000 48); unfold in64; lia. Defined.

End MemConf.
