(* ===== verification/PgAlloc.v ===== *)
(** * The physical page allocator

    kernel/mm/pgalloc.cc with the descriptors of include/pbos/ki/mm/pgalloc.hh.
    A physical memory area ([ki_pmad_t]) owns the descriptors ([hn_mad_t]) of
    its pages and a doubly linked list of free ones.  Areas are identified by
    their base address and page descriptors by their page address, the keys of
    the trees that hold them; the trees are the ordered maps of [OMap].  The
    per-page spinlocks are not represented: operations are atomic. *)

From S2P Require Import Prelude OMap.

(** The types of physical memory *)
Definition MM_PHYSICAL_MEMORY_TYPE_AVAILABLE : Z := 0.
Definition MM_PHYSICAL_MEMORY_TYPE_HARDWARE : Z := 1.
Definition MM_PHYSICAL_MEMORY_TYPE_CRITICAL : Z := 2.
Definition MM_PHYSICAL_MEMORY_TYPE_BOOTDATA : Z := 3.
Definition MM_PHYSICAL_MEMORY_TYPE_BAD : Z := 4.
Definition MM_PHYSICAL_MEMORY_TYPE_HIBERNATION : Z := 5.
Definition MM_PHYSICAL_MEMORY_TYPE_ACPI : Z := 6.

Module PgAlloc.

Record hn_mad_t := mkMad {
  next_free : option Z;
  prev_free : option Z;
  ref_count : Z
}.

(** [ki_pmad_t]: [query_tree] is the set of page addresses it describes. *)
Record ki_pmad_t := mkPmad {
  len : Z;
  type : Z;
  free_list : option Z;
  query_tree : gset Z
}.

(** [ki_pmad_tree] and the descriptors the page trees point to. *)
Record pg_st := mkPg {
  ki_pmad_tree : gmap Z ki_pmad_t;
  mads : gmap Z hn_mad_t
}.

(** Field access through descriptor pointers. *)
Definition get_mad (a : Z) : M pg_st hn_mad_t := fun s =>
  match mads s !! a with Some m => Ok (m, s) | None => Fault end.

Definition put_mad (a : Z) (f : hn_mad_t -> hn_mad_t) : M pg_st unit := fun s =>
  match mads s !! a with
  | Some m => Ok (tt, mkPg (ki_pmad_tree s) (<[a := f m]> (mads s)))
  | None => Fault
  end.

Definition set_next (v : option Z) (m : hn_mad_t) := mkMad v (prev_free m) (ref_count m).
Definition set_prev (v : option Z) (m : hn_mad_t) := mkMad (next_free m) v (ref_count m).
Definition set_ref (v : Z) (m : hn_mad_t) := mkMad (next_free m) (prev_free m) v.

Definition get_area (b : Z) : M pg_st ki_pmad_t := fun s =>
  match ki_pmad_tree s !! b with Some a => Ok (a, s) | None => Fault end.

Definition set_free_list (b : Z) (v : option Z) : M pg_st unit := fun s =>
  match ki_pmad_tree s !! b with
  | Some a =>
      Ok (tt, mkPg (<[b := mkPmad (len a) (type a) v (query_tree a)]> (ki_pmad_tree s)) (mads s))
  | None => Fault
  end.

(** [if (p) p->f = v] *)
Definition put_if (p : option Z) (f : hn_mad_t -> hn_mad_t) : M pg_st unit :=
  match p with Some a => put_mad a f | None => ret tt end.

(** [ki_get_pmad]: the area that contains an address, by its base *)
Definition ki_get_pmad (addr : Z) : M pg_st (option Z) := fun s =>
  Ok (match OMap.max_lteq addr (ki_pmad_tree s) with
      | Some (base, a) => if addr <? w64 (base + len a) then Some base else None
      | None => None
      end, s).

(** [kh_get_mad] *)
Definition kh_get_mad (pgaddr : Z) : M pg_st Z :=
  pmad <- ki_get_pmad pgaddr;
  match pmad with
  | None => panic
  | Some b =>
      a <- get_area b;
      if bool_decide (pgaddr ∈ query_tree a) then ret pgaddr else panic
  end.

(** [area->f] through the pointer returned by [ki_get_pmad] *)
Definition deref (p : option Z) : M pg_st Z :=
  match p with Some b => ret b | None => fault end.

(** [ki_set_page_used] *)
Definition ki_set_page_used (pgaddr : Z) : M pg_st unit :=
  area <- ki_get_pmad pgaddr;
  mad <- kh_get_mad pgaddr;
  m <- get_mad mad;
  put_mad mad (set_ref (w64 (ref_count m + 1)));;
  if ref_count m =? 0 then
    b <- deref area;
    a <- get_area b;
    when (bool_decide (free_list a = Some mad))
      (m <- get_mad mad; set_free_list b (next_free m));;
    m <- get_mad mad;
    put_if (prev_free m) (set_next (next_free m));;
    m <- get_mad mad;
    put_if (next_free m) (set_prev (prev_free m));;
    put_mad mad (set_prev None);;
    put_mad mad (set_next None)
  else ret tt.

(** [ki_set_page_free] *)
Definition ki_set_page_free (addr : Z) : M pg_st unit :=
  area <- ki_get_pmad addr;
  mad <- kh_get_mad addr;
  m <- get_mad mad;
  if ref_count m =? 0 then ret tt
  else
    put_mad mad (set_ref (w64 (ref_count m - 1)));;
    m <- get_mad mad;
    if ref_count m =? 0 then
      b <- deref area;
      a <- get_area b;
      put_if (free_list a) (set_prev (Some mad));;
      a <- get_area b;
      put_mad mad (set_next (free_list a));;
      m <- get_mad mad;
      kd_assert (bool_decide (prev_free m = None))
    else ret tt.

(** One round of [KI_PMAD_FOREACH] in [ki_alloc_free_page]: the iterator is
    the base of the current area.  The result is an address, 0 for null. *)
Definition alloc_round (t : Z) (i : option Z) : M pg_st (option Z + Z) := fun s =>
  match i with
  | None => Ok (inr 0, s)
  | Some b =>
      match ki_pmad_tree s !! b with
      | None => Fault
      | Some a =>
          if negb (type a =? t) then Ok (inl (fst <$> OMap.next b (ki_pmad_tree s)), s)
          else match free_list a with
               | Some p => Ok (inr p, s)
               | None => Ok (inl (fst <$> OMap.next b (ki_pmad_tree s)), s)
               end
      end
  end.

(** [ki_alloc_free_page]; the loop visits each area at most once. *)
Definition ki_alloc_free_page (t : Z) : M pg_st Z := fun s =>
  loop (S (size (ki_pmad_tree s))) (alloc_round t) (fst <$> OMap.first (ki_pmad_tree s)) s.

(** [mm_pgalloc], [mm_pgfree], [mm_refpg] *)
Definition mm_pgalloc (memtype : Z) : M pg_st Z :=
  addr <- ki_alloc_free_page memtype;
  if negb (addr =? 0) then ki_set_page_used addr;; ret addr else ret 0.

Definition mm_pgfree (p : Z) : M pg_st unit := ki_set_page_free p.
Definition mm_refpg (p : Z) : M pg_st unit := ki_set_page_used p.

(** ** Linked lists of free pages *)

Definition hd (L : list Z) (e : option Z) : option Z :=
  match L with [] => e | x :: _ => Some x end.

Fixpoint lst (L : list Z) (p : option Z) : option Z :=
  match L with [] => p | x :: L' => lst L' (Some x) end.

(** [L] is linked in both directions, entered from [p] and left to [e], and
    its pages have no references. *)
Fixpoint chain (ms : gmap Z hn_mad_t) (p : option Z) (L : list Z) (e : option Z) : Prop :=
  match L with
  | [] => True
  | x :: L' => ms !! x = Some (mkMad (hd L' e) p 0) /\ chain ms (Some x) L' e
  end.

Lemma hd_app L1 L2 e : hd (L1 ++ L2) e = hd L1 (hd L2 e).
Proof. by destruct L1. Qed.

Lemma lst_snoc L x p : lst (L ++ [x]) p = Some x.
Proof. revert p. induction L; intros; simpl; auto. Qed.

Lemma chain_app ms p L1 L2 e :
  chain ms p (L1 ++ L2) e <-> chain ms p L1 (hd L2 e) /\ chain ms (lst L1 p) L2 e.
Proof.
  revert p. induction L1 as [|x L1 IH]; intros p; simpl; [tauto |].
  rewrite IH hd_app. tauto.
Qed.

Lemma chain_ext ms ms' p L e :
  (forall x, x ∈ L -> ms' !! x = ms !! x) -> chain ms p L e -> chain ms' p L e.
Proof.
  revert p. induction L as [|x L IH]; intros p He; simpl; [done |].
  intros [Hx Hc]. split; [rewrite He; [left | done] |]. apply IH; [| done].
  intros y Hy. apply He. by right.
Qed.

Lemma chain_insert ms p L e x m : x ∉ L -> chain ms p L e -> chain (<[x := m]> ms) p L e.
Proof.
  intros Hx. apply chain_ext. intros y Hy. rewrite lookup_insert_ne //. by intros ->.
Qed.

Lemma chain_member ms p L e x : chain ms p L e -> x ∈ L ->
  exists m, ms !! x = Some m /\ ref_count m = 0.
Proof.
  revert p. induction L as [|y L IH]; intros p; simpl; [by intros _ ?%not_elem_of_nil |].
  intros [Hy Hc] [->|Hx]%elem_of_cons; [by eexists | by apply (IH (Some y))].
Qed.

(** Redirecting the two ends. *)
Lemma chain_set_last ms p L x e e' : NoDup (L ++ [x]) ->
  chain ms p (L ++ [x]) e ->
  exists m, ms !! x = Some m /\ chain (<[x := set_next e' m]> ms) p (L ++ [x]) e'.
Proof.
  intros Hnd [H1 [Hx _]]%chain_app. eexists. split; [exact Hx |]. apply chain_app. simpl.
  apply list.NoDup_app in Hnd as (_ & Hd & _). split; [| by rewrite lookup_insert_eq].
  apply chain_insert; [| done]. intros Hin. apply (Hd _ Hin). by left.
Qed.

Lemma chain_set_first ms p p' x L e : x ∉ L ->
  chain ms p (x :: L) e ->
  exists m, ms !! x = Some m /\ chain (<[x := set_prev p' m]> ms) p' (x :: L) e.
Proof.
  intros Hx [Hm Hc]. eexists. split; [exact Hm |]. simpl. rewrite lookup_insert_eq.
  split; [done |]. by apply chain_insert.
Qed.

(** ** The invariant of an area

    [L] is the free list.  A page freed after start-up is not on it: at most
    one such page [g] is pointed to by the head, all others have no
    predecessor. *)
Record area_ok (ms : gmap Z hn_mad_t) (a : ki_pmad_t) (L : list Z) (g : option Z) : Prop := {
  ok_head : free_list a = hd L None;
  ok_chain : chain ms g L None;
  ok_nodup : NoDup L;
  ok_in : forall x, x ∈ L -> x ∈ query_tree a;
  ok_dom : forall x, x ∈ query_tree a -> is_Some (ms !! x);
  ok_ghost : forall y, g = Some y -> L <> [] /\ y ∈ query_tree a /\ y ∉ L /\
    exists m, ms !! y = Some m /\ ref_count m = 0 /\ next_free m = hd L None;
  ok_prev : forall x m, x ∈ query_tree a -> x ∉ L -> ms !! x = Some m -> prev_free m = None;
  ok_next : forall x m y, x ∈ query_tree a -> x ∉ L -> ms !! x = Some m -> next_free m = Some y ->
    y ∈ query_tree a /\ y <> x /\ (y ∈ L -> hd L None = Some y)
}.

(** Areas do not wrap, do not overlap and describe only their own pages;
    physical page 0, whose address is null, is not available memory. *)
Record layout_ok (s : pg_st) : Prop := {
  lo_range : forall b a, ki_pmad_tree s !! b = Some a -> 0 <= b /\ 0 < len a /\ b + len a < 2 ^ 64;
  lo_apart : forall b1 a1 b2 a2, ki_pmad_tree s !! b1 = Some a1 -> ki_pmad_tree s !! b2 = Some a2 ->
    b1 < b2 -> b1 + len a1 <= b2;
  lo_own : forall b a x, ki_pmad_tree s !! b = Some a -> x ∈ query_tree a ->
    b <= x < b + len a /\ (x = 0 -> type a <> MM_PHYSICAL_MEMORY_TYPE_AVAILABLE)
}.

Definition pg_inv (s : pg_st) : Prop :=
  layout_ok s /\
  forall b a, ki_pmad_tree s !! b = Some a -> exists L g, area_ok (mads s) a L g.

(** A page of some area. *)
Definition page_of (s : pg_st) (b : Z) (a : ki_pmad_t) (x : Z) : Prop :=
  ki_pmad_tree s !! b = Some a /\ x ∈ query_tree a.

Lemma area_unique s b1 a1 b2 a2 x :
  layout_ok s -> page_of s b1 a1 x -> page_of s b2 a2 x -> b1 = b2.
Proof.
  intros Hl [H1 Hx1] [H2 Hx2]. destruct (lo_own _ Hl _ _ _ H1 Hx1). destruct (lo_own _ Hl _ _ _ H2 Hx2).
  destruct (Z.lt_trichotomy b1 b2) as [Hlt|[?|Hlt]]; [| done |].
  - pose proof (lo_apart _ Hl _ _ _ _ H1 H2 Hlt). lia.
  - pose proof (lo_apart _ Hl _ _ _ _ H2 H1 Hlt). lia.
Qed.

Lemma get_pmad_ok s b a x :
  layout_ok s -> page_of s b a x -> ki_get_pmad x s = Ok (Some b, s).
Proof.
  intros Hl [Hb Hx]. unfold ki_get_pmad. do 2 f_equal.
  destruct (lo_own _ Hl _ _ _ Hb Hx) as [Hr _]. destruct (lo_range _ Hl _ _ Hb) as (H0 & Hl0 & Hw).
  destruct (OMap.max_lteq x (ki_pmad_tree s)) as [[b' a']|] eqn:Hm.
  2:{ pose proof (OMap.max_lteq_none _ _ Hm _ _ Hb). lia. }
  apply OMap.max_lteq_some in Hm as (Hb' & Hle & Hmax). pose proof (Hmax _ _ Hb ltac:(lia)).
  assert (b' = b) as ->.
  { destruct (Z.lt_trichotomy b b') as [Hlt|[?|Hlt]]; [| done | lia].
    pose proof (lo_apart _ Hl _ _ _ _ Hb Hb' Hlt). lia. }
  simplify_eq. rewrite w64_small; [unfold in64; lia |]. destruct (Z.ltb_spec x (b + len a)); [done | lia].
Qed.

Lemma get_mad_ok s b a x :
  layout_ok s -> page_of s b a x -> kh_get_mad x s = Ok (x, s).
Proof.
  intros Hl Hp. unfold kh_get_mad. rewrite (bind_ok _ _ _ _ _ (get_pmad_ok _ _ _ _ Hl Hp)).
  destruct Hp as [Hb Hx]. unfold get_area, bind. rewrite Hb. by rewrite bool_decide_true.
Qed.

(** ** Taking a page off the list *)

(** The descriptor updates of [ki_set_page_used] on an unreferenced page. *)
Definition upd (p : option Z) (f : hn_mad_t -> hn_mad_t) (ms : gmap Z hn_mad_t) :=
  match p with Some a => alter f a ms | None => ms end.

Definition unlinked (x : Z) (m : hn_mad_t) (ms : gmap Z hn_mad_t) : gmap Z hn_mad_t :=
  <[x := mkMad None None 1]>
    (upd (next_free m) (set_prev (prev_free m)) (upd (prev_free m) (set_next (next_free m)) ms)).

(** The pointers of [m] lead to other pages that exist. *)
Definition links_ok (x : Z) (m : hn_mad_t) (ms : gmap Z hn_mad_t) : Prop :=
  (forall y, next_free m = Some y -> y <> x /\ is_Some (ms !! y)) /\
  (forall y, prev_free m = Some y -> y <> x /\ is_Some (ms !! y)).

Definition with_free_list (a : ki_pmad_t) (v : option Z) : ki_pmad_t :=
  mkPmad (len a) (type a) v (query_tree a).

Lemma put_if_ok s p f : (forall y, p = Some y -> is_Some (mads s !! y)) ->
  put_if p f s = Ok (tt, mkPg (ki_pmad_tree s) (upd p f (mads s))).
Proof.
  intros Hp. destruct p as [y|]; [| by destruct s]. simpl. unfold put_mad.
  destruct (Hp y eq_refl) as [m Hm]. rewrite Hm. do 3 f_equal.
  apply map_eq. intros i. destruct (decide (i = y)) as [->|].
  - by rewrite lookup_insert_eq lookup_alter_eq Hm.
  - by rewrite lookup_insert_ne // lookup_alter_ne.
Qed.

Lemma upd_other p f ms x : p <> Some x -> upd p f ms !! x = ms !! x.
Proof. destruct p as [y|]; [| done]. intros Hn. simpl. rewrite lookup_alter_ne //. congruence. Qed.

Lemma upd_insert p f ms x m : p <> Some x -> upd p f (<[x := m]> ms) = <[x := m]> (upd p f ms).
Proof.
  destruct p as [y|]; [| done]. intros Hn. simpl. apply map_eq. intros i.
  assert (y <> x) by congruence. destruct (decide (i = x)) as [->|Hx].
  - by rewrite lookup_insert_eq lookup_alter_ne // lookup_insert_eq.
  - rewrite (lookup_insert_ne _ x i) //. destruct (decide (i = y)) as [->|Hy].
    + by rewrite !lookup_alter_eq lookup_insert_ne.
    + by rewrite !lookup_alter_ne // lookup_insert_ne.
Qed.

Lemma upd_is_Some p f ms x : is_Some (ms !! x) -> is_Some (upd p f ms !! x).
Proof.
  intros [m Hm]. destruct p as [y|]; [| by eexists]. simpl. destruct (decide (x = y)) as [->|].
  - rewrite lookup_alter_eq Hm. by exists (f m).
  - rewrite lookup_alter_ne; [congruence |]. by exists m.
Qed.

Lemma mad_run {B} s x m (k : hn_mad_t -> M pg_st B) :
  mads s !! x = Some m -> bind (get_mad x) k s = k m s.
Proof. intros Hx. apply bind_ok. unfold get_mad. by rewrite Hx. Qed.

Lemma put_run {B} s x m f (k : unit -> M pg_st B) :
  mads s !! x = Some m ->
  bind (put_mad x f) k s = k tt (mkPg (ki_pmad_tree s) (<[x := f m]> (mads s))).
Proof. intros Hx. apply bind_ok. unfold put_mad. by rewrite Hx. Qed.

(** [ki_set_page_used] on a page that is in use, and on one that is not. *)
Lemma used_again s b a x m :
  layout_ok s -> page_of s b a x -> mads s !! x = Some m -> ref_count m <> 0 ->
  ki_set_page_used x s =
  Ok (tt, mkPg (ki_pmad_tree s) (<[x := set_ref (w64 (ref_count m + 1)) m]> (mads s))).
Proof.
  intros Hl Hp Hm Hr. unfold ki_set_page_used.
  rewrite (bind_ok _ _ _ _ _ (get_pmad_ok _ _ _ _ Hl Hp)) (bind_ok _ _ _ _ _ (get_mad_ok _ _ _ _ Hl Hp)).
  rewrite (mad_run _ _ _ _ Hm) (put_run _ _ _ _ _ Hm). by destruct (Z.eqb_spec (ref_count m) 0).
Qed.

Lemma used_first s b a x m :
  layout_ok s -> page_of s b a x -> mads s !! x = Some m -> ref_count m = 0 ->
  links_ok x m (mads s) ->
  ki_set_page_used x s =
  Ok (tt, mkPg (if bool_decide (free_list a = Some x)
                then <[b := with_free_list a (next_free m)]> (ki_pmad_tree s)
                else ki_pmad_tree s) (unlinked x m (mads s))).
Proof.
  intros Hl Hp Hm Hr [Hn Hpv]. unfold ki_set_page_used.
  rewrite (bind_ok _ _ _ _ _ (get_pmad_ok _ _ _ _ Hl Hp)) (bind_ok _ _ _ _ _ (get_mad_ok _ _ _ _ Hl Hp)).
  rewrite (mad_run _ _ _ _ Hm) (put_run _ _ _ _ _ Hm) Hr. simpl. unfold set_ref at 1. rewrite bind_ret.
  set (m1 := mkMad (next_free m) (prev_free m) (w64 1)).
  set (ms1 := <[x := m1]> (mads s)).
  assert (Hm1 : ms1 !! x = Some m1) by (unfold ms1; by rewrite lookup_insert_eq).
  unfold get_area. unfold bind at 1. simpl ki_pmad_tree. rewrite (proj1 Hp).
  set (tr := if bool_decide (free_list a = Some x)
             then <[b := with_free_list a (next_free m)]> (ki_pmad_tree s) else ki_pmad_tree s).
  assert (E1 : when (bool_decide (free_list a = Some x)) (m <- get_mad x; set_free_list b (next_free m))
      (mkPg (ki_pmad_tree s) ms1) = Ok (tt, mkPg tr ms1)).
  { unfold when, tr. case_bool_decide; [| done].
    erewrite mad_run; [| exact Hm1]. unfold set_free_list. simpl. by rewrite (proj1 Hp). }
  rewrite (bind_ok _ _ _ _ _ E1). clear E1.
  erewrite mad_run; [| exact Hm1]. simpl prev_free. simpl next_free.
  assert (Hpne : prev_free m <> Some x) by (intros Heq; by destruct (Hpv _ Heq)).
  assert (Hnne : next_free m <> Some x) by (intros Heq; by destruct (Hn _ Heq)).
  rewrite (bind_ok _ _ _ _ _ (put_if_ok (mkPg tr ms1) (prev_free m) _ _)).
  { intros y Hy. destruct (Hpv _ Hy) as [Hne Hs]. simpl. unfold ms1. by rewrite lookup_insert_ne. }
  cbn [ki_pmad_tree mads]. erewrite mad_run; [| simpl; by rewrite upd_other]. simpl prev_free. simpl next_free.
  rewrite (bind_ok _ _ _ _ _ (put_if_ok (mkPg tr _) (next_free m) _ _)).
  { intros y Hy. destruct (Hn _ Hy) as [Hne Hs]. simpl. apply upd_is_Some. unfold ms1.
    by rewrite lookup_insert_ne. }
  cbn [ki_pmad_tree mads].
  erewrite put_run; [| simpl; by rewrite !upd_other]. cbn [ki_pmad_tree mads].
  unfold put_mad. simpl mads. rewrite lookup_insert_eq. do 3 f_equal.
  unfold unlinked, ms1. by rewrite !upd_insert // !insert_insert_eq.
Qed.

Lemma upd_eq a f ms m : ms !! a = Some m -> upd (Some a) f ms = <[a := f m]> ms.
Proof.
  intros Hm. simpl. apply map_eq. intros i. destruct (decide (i = a)) as [->|].
  - by rewrite lookup_insert_eq lookup_alter_eq Hm.
  - by rewrite lookup_insert_ne // lookup_alter_ne.
Qed.

Lemma upd_ref p f ms x : (forall m, ref_count (f m) = ref_count m) ->
  ref_count <$> upd p f ms !! x = ref_count <$> ms !! x.
Proof.
  intros Hf. destruct p as [y|]; [| done]. simpl. destruct (decide (x = y)) as [->|].
  - rewrite lookup_alter_eq. destruct (ms !! y); simpl; [by rewrite Hf | done].
  - by rewrite lookup_alter_ne.
Qed.

Lemma unlinked_ref x m ms y : y <> x ->
  ref_count <$> unlinked x m ms !! y = ref_count <$> ms !! y.
Proof. intros Hy. unfold unlinked. rewrite lookup_insert_ne // !upd_ref //. Qed.

Lemma unlinked_same x m ms y : y <> x -> next_free m <> Some y -> prev_free m <> Some y ->
  unlinked x m ms !! y = ms !! y.
Proof. intros Hy Hn Hp. unfold unlinked. rewrite lookup_insert_ne // !upd_other //. Qed.

Lemma unlinked_dom x m ms y : is_Some (ms !! y) -> is_Some (unlinked x m ms !! y).
Proof.
  intros Hy. unfold unlinked. destruct (decide (y = x)) as [->|].
  - rewrite lookup_insert_eq. by eexists.
  - rewrite lookup_insert_ne //. by apply upd_is_Some, upd_is_Some.
Qed.

(** The page was freed earlier and is not on the list. *)
Lemma unlink_ghost ms a L g x m :
  area_ok ms a L g -> x ∈ query_tree a -> x ∉ L -> ms !! x = Some m ->
  exists g', area_ok (unlinked x m ms) a L g'.
Proof.
  intros [Hh Hc Hnd Hin Hdom Hg Hp Hn] Hx HxL Hm.
  pose proof (Hp _ _ Hx HxL Hm) as Hpm.
  assert (Hlinks : forall y, next_free m = Some y -> y <> x) by (intros y Hy; by destruct (Hn _ _ _ Hx HxL Hm Hy) as (_ & ? & _)).
  (* pages off the list keep their links *)
  assert (Hoff : forall z, z ∉ L -> z <> x -> z ∈ query_tree a -> unlinked x m ms !! z = ms !! z).
  { intros z Hz Hzx Hzq. unfold unlinked. rewrite lookup_insert_ne // Hpm. simpl upd.
    destruct (next_free m) as [y|] eqn:Hy; [| done]. destruct (decide (z = y)) as [->|]; [| by rewrite upd_other; congruence].
    destruct (Hdom _ Hzq) as [my Hmy]. rewrite (upd_eq _ _ _ _ Hmy) lookup_insert_eq Hmy.
    pose proof (Hp _ _ Hzq Hz Hmy) as Hpy. by destruct my; simpl in *; subst. }
  assert (Hx' : unlinked x m ms !! x = Some (mkMad None None 1)) by (unfold unlinked; by rewrite lookup_insert_eq).
  assert (Hp' : forall z mz, z ∈ query_tree a -> z ∉ L -> unlinked x m ms !! z = Some mz -> prev_free mz = None).
  { intros z mz Hz HzL. destruct (decide (z = x)) as [->|Hne]; [rewrite Hx'; by intros [= <-] |].
    rewrite Hoff //. by apply Hp. }
  assert (Hn' : forall z mz y, z ∈ query_tree a -> z ∉ L -> unlinked x m ms !! z = Some mz ->
    next_free mz = Some y -> y ∈ query_tree a /\ y <> z /\ (y ∈ L -> hd L None = Some y)).
  { intros z mz y Hz HzL. destruct (decide (z = x)) as [->|Hne]; [rewrite Hx'; by intros [= <-] |].
    rewrite Hoff //. by apply Hn. }
  destruct (next_free m) as [y|] eqn:Hy.
  - destruct (Hn _ _ _ Hx HxL Hm Hy) as (Hyq & Hyx & HyL). destruct (decide (y ∈ L)) as [Hin'|Hnin].
    + exists None. split; try done; [| intros z Hz; by apply unlinked_dom, Hdom].
      specialize (HyL Hin'). destruct L as [|h L]; [done |]. simpl in HyL. injection HyL as ->.
      apply list.NoDup_cons in Hnd as [HyL Hnd].
      destruct (chain_set_first ms g None y L None HyL Hc) as (my & Hmy & Hc').
      unfold unlinked. apply chain_insert; [done |]. by rewrite Hpm Hy (upd_eq _ _ _ _ Hmy).
    + exists g. split; try done; [| intros z Hz; by apply unlinked_dom, Hdom |].
      * apply chain_ext with ms; [| done]. intros z Hz. apply unlinked_same; [by intros -> | congruence | congruence].
      * intros w Hw. destruct (Hg _ Hw) as (HL & Hwq & HwL & mw & Hmw & Hr & Hnw).
        assert (w <> x).
        { intros ->. simplify_eq. rewrite Hy in Hnw. destruct L; [done |]. simplify_eq/=. apply Hnin. by left. }
        split_and!; auto. exists mw. split_and!; auto. rewrite Hoff //.
  - exists g. split; try done; [| intros z Hz; by apply unlinked_dom, Hdom |].
    + apply chain_ext with ms; [| done]. intros z Hz. apply unlinked_same; [by intros -> | congruence | congruence].
    + intros w Hw. destruct (Hg _ Hw) as (HL & Hwq & HwL & mw & Hmw & Hr & Hnw).
      assert (w <> x).
      { intros ->. simplify_eq. rewrite Hy in Hnw. by destruct L. }
      split_and!; auto. exists mw. split_and!; auto. rewrite Hoff //.
Qed.

(** The page is on the list, at any position. *)
Section UnlinkListed.
Context (ms : gmap Z hn_mad_t) (a : ki_pmad_t) (L1 L2 : list Z) (g : option Z) (x : Z) (m : hn_mad_t).
Hypothesis Hok : area_ok ms a (L1 ++ x :: L2) g.
Hypothesis Hm : ms !! x = Some m.

Lemma listed_mad : m = mkMad (hd L2 None) (lst L1 g) 0.
Proof.
  pose proof (ok_chain _ _ _ _ Hok) as Hc. apply chain_app in Hc as [_ [Hx _]]. congruence.
Qed.

Lemma listed_nodup : NoDup (L1 ++ L2) /\ x ∉ L1 /\ x ∉ L2 /\ forall y, y ∈ L1 -> y ∉ L2.
Proof.
  pose proof (ok_nodup _ _ _ _ Hok) as Hnd. rewrite list.NoDup_app list.NoDup_cons in Hnd.
  rewrite list.NoDup_app. set_solver.
Qed.

Lemma lst_in L p : L <> [] -> exists w, lst L p = Some w /\ w ∈ L.
Proof.
  intros HL. destruct L as [|w L _] using rev_ind; [done |].
  exists w. rewrite lst_snoc elem_of_app. split; [done | right; left].
Qed.

Lemma listed_prev y : prev_free m = Some y -> y <> x /\ y ∉ L2 /\ (L1 = [] -> g = Some y) /\ (y ∈ L1 \/ g = Some y).
Proof.
  rewrite listed_mad. simpl. intros Hy. destruct listed_nodup as (_ & Hx1 & Hx2 & Hd).
  destruct (decide (L1 = [])) as [HL1|HL1].
  - rewrite HL1 in Hy. simpl in Hy. destruct (ok_ghost _ _ _ _ Hok _ Hy) as (_ & _ & Hn & _). set_solver.
  - destruct (lst_in L1 g) as (w' & Hw & Hin); [done |].
    simplify_eq. split_and!; [by intros -> | by apply Hd | done | by left].
Qed.

Lemma listed_next y : next_free m = Some y -> y ∈ L2 /\ y <> x /\ hd L2 None = Some y.
Proof.
  rewrite listed_mad. simpl. destruct listed_nodup as (_ & _ & Hx2 & _).
  destruct L2 as [|z L]; [done |]. simpl. intros [= ->]. split_and!; [left | intros ->; apply Hx2; left | done].
Qed.

Lemma listed_links : links_ok x m ms.
Proof.
  split.
  - intros y Hy. destruct (listed_next _ Hy) as (Hin & Hne & _). split; [done |].
    apply (ok_dom _ _ _ _ Hok), (ok_in _ _ _ _ Hok). set_solver.
  - intros y Hy. destruct (listed_prev _ Hy) as (Hne & _ & _ & [Hin|Hg]); (split; [done |]).
    + apply (ok_dom _ _ _ _ Hok), (ok_in _ _ _ _ Hok). set_solver.
    + destruct (ok_ghost _ _ _ _ Hok _ Hg) as (_ & Hq & _). by apply (ok_dom _ _ _ _ Hok).
Qed.

Lemma listed_chain_left : chain (unlinked x m ms) g L1 (hd L2 None).
Proof.
  destruct listed_nodup as (Hnd & Hx1 & Hx2 & Hd).
  pose proof (ok_chain _ _ _ _ Hok) as Hc. apply chain_app in Hc as [Hc1 _]. simpl in Hc1.
  destruct (decide (L1 = [])) as [HL1|HL1]; [by rewrite HL1 |].
  destruct (exists_last HL1) as (L & w & HL).
  rewrite HL in Hc1, Hnd |- *. apply list.NoDup_app in Hnd as (Hnd & _ & _).
  destruct (chain_set_last _ _ _ _ _ (hd L2 None) Hnd Hc1) as (mw & Hmw & Hc').
  unfold unlinked. apply chain_insert; [by rewrite -HL |].
  rewrite listed_mad. simpl. rewrite HL lst_snoc. apply chain_ext with (<[w := set_next (hd L2 None) mw]> ms).
  - intros y Hy. rewrite -(upd_eq _ _ _ _ Hmw). apply upd_other.
    rewrite -HL in Hy. destruct L2; simpl; [done |]. intros [= ->]. apply (Hd _ Hy). left.
  - exact Hc'.
Qed.

Lemma listed_chain_right : chain (unlinked x m ms) (lst L1 g) L2 None.
Proof.
  destruct listed_nodup as (Hnd & Hx1 & Hx2 & Hd).
  pose proof (ok_chain _ _ _ _ Hok) as Hc. apply chain_app in Hc as [_ [_ Hc2]].
  unfold unlinked. apply chain_insert; [done |].
  assert (HL2 : L2 = [] \/ exists y L, L2 = y :: L) by (destruct L2; eauto).
  destruct HL2 as [HL2|(y & L & HL2)]; [by rewrite HL2 |].
  assert (Hp2 : forall z, z ∈ L2 -> prev_free m <> Some z).
  { intros z Hz Hpz. by destruct (listed_prev _ Hpz) as (_ & Hn & _). }
  assert (HyL : y ∉ L).
  { apply list.NoDup_app in Hnd as (_ & _ & Hnd). rewrite HL2 in Hnd. by apply list.NoDup_cons in Hnd as [? _]. }
  assert (Hc3 : chain (upd (prev_free m) (set_next (next_free m)) ms) (Some x) L2 None).
  { apply chain_ext with ms; [| done]. intros z Hz. apply upd_other. by apply Hp2. }
  rewrite HL2 in Hc3.
  destruct (chain_set_first _ _ (lst L1 g) _ _ _ HyL Hc3) as (my & Hmy & Hc4).
  rewrite listed_mad in Hmy, Hc4 |- *. rewrite HL2 in Hmy, Hc4 |- *. cbn [next_free prev_free hd] in *.
  by rewrite (upd_eq _ _ _ _ Hmy).
Qed.

Lemma listed_off z : z ∉ L1 ++ L2 -> z <> x -> is_Some (ms !! z) ->
  exists mz mz', ms !! z = Some mz /\ unlinked x m ms !! z = Some mz' /\
    prev_free mz' = prev_free mz /\ ref_count mz' = ref_count mz /\
    (next_free mz' = next_free mz \/ L1 = [] /\ g = Some z /\ next_free mz' = hd L2 None).
Proof.
  intros Hz Hzx [mz Hmz]. rewrite not_elem_of_app in Hz. destruct Hz as [Hz1 Hz2]. exists mz.
  assert (Hn : next_free m <> Some z) by (intros Hn; by destruct (listed_next _ Hn)).
  destruct (decide (prev_free m = Some z)) as [Hp|Hp].
  - exists (set_next (next_free m) mz). unfold unlinked.
    rewrite lookup_insert_ne // upd_other // Hp (upd_eq _ _ _ _ Hmz) lookup_insert_eq.
    split_and!; try done. right. destruct (listed_prev _ Hp) as (_ & _ & Hg & [Hin|Hg']); [done |].
    assert (HL1 : L1 = []).
    { destruct (decide (L1 = [])) as [|HL1]; [done |]. destruct (lst_in L1 g HL1) as (w & Hw & Hin).
      rewrite listed_mad in Hp. simpl in Hp. congruence. }
    split_and!; [done | done |]. simpl. by rewrite listed_mad.
  - exists mz. rewrite unlinked_same //. split_and!; auto.
Qed.

Lemma unlink_listed : exists g',
  area_ok (unlinked x m ms)
    (if bool_decide (free_list a = Some x) then with_free_list a (next_free m) else a)
    (L1 ++ L2) g'.
Proof.
  destruct listed_nodup as (Hnd & Hx1 & Hx2 & Hd).
  set (a' := if bool_decide (free_list a = Some x) then with_free_list a (next_free m) else a).
  assert (Hq : query_tree a' = query_tree a) by (unfold a'; by case_bool_decide).
  assert (Hh : free_list a' = hd (L1 ++ L2) None).
  { unfold a'. pose proof (ok_head _ _ _ _ Hok) as Hh. rewrite hd_app in Hh |- *.
    destruct (decide (L1 = [])) as [HL1|HL1].
    - rewrite HL1 in Hh |- *. rewrite bool_decide_true //. by rewrite listed_mad.
    - assert (Hw : exists w L, L1 = w :: L) by (destruct L1; [done | eauto]). destruct Hw as (w & L & Hw).
      rewrite bool_decide_false; [| by rewrite Hh Hw]. rewrite Hh Hw. simpl.
      intros [= ->]. apply Hx1. rewrite Hw. left. }
  assert (Hx' : unlinked x m ms !! x = Some (mkMad None None 1)) by (unfold unlinked; by rewrite lookup_insert_eq).
  exists (if bool_decide (L1 ++ L2 = []) then None else g).
  split; rewrite ?Hq //.
  - case_bool_decide as Hnil; [by rewrite Hnil |]. apply chain_app.
    split; [apply listed_chain_left | apply listed_chain_right].
  - intros z Hz. apply (ok_in _ _ _ _ Hok). set_solver.
  - intros z Hz. by apply unlinked_dom, (ok_dom _ _ _ _ Hok).
  - intros y Hy. case_bool_decide as Hnil; [done |].
    destruct (ok_ghost _ _ _ _ Hok _ Hy) as (_ & Hyq & HyL & my & Hmy & Hr & Hny).
    rewrite elem_of_app elem_of_cons in HyL.
    destruct (listed_off y) as (mz & mz' & Hmz & Hmz' & _ & Hr' & Hn'); [set_solver | set_solver | by eexists |].
    rewrite Hmy in Hmz. injection Hmz as <-.
    split_and!; [done | done | set_solver |]. exists mz'. split_and!; [done | congruence |].
    rewrite hd_app in Hny |- *. destruct Hn' as [Hn'|(HL1 & _ & Hn')]; [| by rewrite HL1].
    rewrite Hn' Hny. destruct (decide (L1 = [])) as [HL1|HL1]; [| by destruct L1].
    exfalso. rewrite HL1 in Hny. simpl in Hny.
    assert (Hp : prev_free m = Some y) by (rewrite listed_mad HL1; done).
    assert (Hn2 : next_free m <> Some y) by (intros Hn2; destruct (listed_next _ Hn2); set_solver).
    unfold unlinked in Hmz'. rewrite lookup_insert_ne in Hmz'; [set_solver |].
    rewrite upd_other // Hp (upd_eq _ _ _ _ Hmy) lookup_insert_eq in Hmz'.
    injection Hmz' as <-. simpl in Hn'. rewrite Hny in Hn'. by destruct (listed_next _ Hn') as (_ & ? & _).
  - intros z mz Hz HzL Hmz. destruct (decide (z = x)) as [->|Hne]; [by rewrite Hx' in Hmz; injection Hmz as <- |].
    destruct (listed_off z) as (m0 & m1 & Hm0 & Hm1 & Hp' & _); [done | done | by apply (ok_dom _ _ _ _ Hok) |].
    simplify_eq. rewrite Hp'. apply (ok_prev _ _ _ _ Hok z); [done | set_solver | done].
  - intros z mz y Hz HzL Hmz Hny. destruct (decide (z = x)) as [->|Hne]; [by rewrite Hx' in Hmz; injection Hmz as <- |].
    destruct (listed_off z) as (m0 & m1 & Hm0 & Hm1 & _ & _ & Hn'); [done | done | by apply (ok_dom _ _ _ _ Hok) |].
    simplify_eq. destruct Hn' as [Hn'|(HL1 & Hg & Hn')].
    + rewrite Hn' in Hny. destruct (ok_next _ _ _ _ Hok z m0 y) as (Hyq & Hyz & HyL); [done | set_solver | done | done |].
      split_and!; [done | done |]. intros Hy. rewrite hd_app in HyL |- *. simpl in HyL.
      destruct (decide (L1 = [])) as [HL1|HL1]; [| destruct L1; [done |]; simpl in *; apply HyL; set_solver].
      exfalso. rewrite HL1 in HyL, Hy. simpl in HyL, Hy.
      assert (Some x = Some y) as [= ->] by (apply HyL; by right). done.
    + rewrite Hn' in Hny. assert (Hy2 : y ∈ L2) by (destruct L2; [done |]; simpl in Hny; injection Hny as ->; left).
      split_and!; [apply (ok_in _ _ _ _ Hok); set_solver | | by rewrite HL1].
      intros ->. destruct (ok_ghost _ _ _ _ Hok _ Hg) as (_ & _ & Hn & _). set_solver.
Qed.

End UnlinkListed.

(** ** Invariance of the whole state *)

Lemma area_ext ms ms' a L g :
  (forall z, z ∈ query_tree a -> ms' !! z = ms !! z) -> area_ok ms a L g -> area_ok ms' a L g.
Proof.
  intros He [Hh Hc Hnd Hin Hdom Hg Hp Hn]. split; auto.
  - apply chain_ext with ms; auto.
  - intros x Hx. rewrite He; auto.
  - intros y Hy. destruct (Hg _ Hy) as (? & ? & ? & m & ? & ? & ?). split_and!; auto.
    exists m. rewrite He; auto.
  - intros x m Hx HxL. rewrite He; eauto.
  - intros x m y Hx HxL. rewrite He; eauto.
Qed.

Definition same_area (a a' : ki_pmad_t) : Prop :=
  len a' = len a /\ type a' = type a /\ query_tree a' = query_tree a.

Lemma pg_update s b a a' ms' L' g' :
  pg_inv s -> ki_pmad_tree s !! b = Some a -> same_area a a' -> area_ok ms' a' L' g' ->
  (forall z, z ∉ query_tree a -> ms' !! z = mads s !! z) ->
  pg_inv (mkPg (<[b := a']> (ki_pmad_tree s)) ms').
Proof.
  intros [Hl Ha] Hb (Hlen & Hty & Hq) Hok Hout. split.
  - destruct Hl as [Hr Hap Hown]. split; simpl.
    + intros b1 a1. rewrite lookup_insert_Some. intros [[<- <-]|[_ H1]]; [rewrite Hlen |]; eauto.
    + intros b1 a1 b2 a2. rewrite !lookup_insert_Some.
      intros [[<- <-]|[_ H1]] [[<- <-]|[_ H2]] Hlt; rewrite ?Hlen; eauto; lia.
    + intros b1 a1 x. rewrite lookup_insert_Some. intros [[<- <-]|[_ H1]]; rewrite ?Hq ?Hlen ?Hty; eauto.
  - simpl. intros b1 a1. rewrite lookup_insert_Some. intros [[<- <-]|[Hne H1]]; [by eauto |].
    destruct (Ha _ _ H1) as (L & g & Hok1). exists L, g. apply area_ext with (mads s); [| done].
    intros z Hz. apply Hout. intros Hz'. apply Hne.
    by apply (area_unique s b a b1 a1 z Hl).
Qed.

(** Reference counts, and the pages of an area's free list. *)
Definition refs (s : pg_st) (x : Z) : option Z := ref_count <$> mads s !! x.

Fixpoint follow (n : nat) (ms : gmap Z hn_mad_t) (p : option Z) : list Z :=
  match n, p with
  | S n', Some x => x :: match ms !! x with Some m => follow n' ms (next_free m) | None => [] end
  | _, _ => []
  end.

Definition free_pages (s : pg_st) (b : Z) : list Z :=
  match ki_pmad_tree s !! b with
  | Some a => follow (size (mads s)) (mads s) (free_list a)
  | None => []
  end.

Lemma follow_chain n ms p L : chain ms p L None -> (length L <= n)%nat -> follow n ms (hd L None) = L.
Proof.
  revert n p. induction L as [|x L IH]; intros n p Hc Hn; simpl in *; [by destruct n |].
  destruct n; [lia |]. destruct Hc as [Hx Hc]. simpl. rewrite Hx. simpl. f_equal.
  apply (IH _ _ Hc). lia.
Qed.

Lemma free_pages_ok s b a L g :
  ki_pmad_tree s !! b = Some a -> area_ok (mads s) a L g -> free_pages s b = L.
Proof.
  intros Hb [Hh Hc Hnd Hin Hdom _ _ _]. unfold free_pages. rewrite Hb Hh.
  apply (follow_chain _ _ _ _ Hc).
  rewrite -size_dom -(size_list_to_set (C := gset Z)); [done |]. apply subseteq_size.
  intros z. rewrite elem_of_list_to_set. intros Hz. apply elem_of_dom. auto.
Qed.

(** What an operation on page [x] of area [b] leaves in place: all other
    reference counts, and the free lists up to [x]. *)
Definition touched (s s' : pg_st) (b x : Z) (L' : list Z) : Prop :=
  (forall y, y <> x -> refs s' y = refs s y) /\
  dom (ki_pmad_tree s') = dom (ki_pmad_tree s) /\
  free_pages s' b = L' /\
  (forall b', b' <> b -> free_pages s' b' = free_pages s b').

Lemma touched_intro s b a a' ms' L' g' x :
  pg_inv s -> ki_pmad_tree s !! b = Some a -> same_area a a' -> area_ok ms' a' L' g' ->
  (forall z, z ∉ query_tree a -> ms' !! z = mads s !! z) ->
  (forall y, y <> x -> ref_count <$> ms' !! y = ref_count <$> mads s !! y) ->
  let s' := mkPg (<[b := a']> (ki_pmad_tree s)) ms' in pg_inv s' /\ touched s s' b x L'.
Proof.
  intros Hinv Hb Hsame Hok Hout Href s'. pose proof (pg_update _ _ _ _ _ _ _ Hinv Hb Hsame Hok Hout) as Hinv'.
  split; [done |]. split_and!; [done | | |].
  - simpl. by rewrite dom_insert_lookup_L.
  - apply (free_pages_ok s' b a' L' g'); [simpl; by rewrite lookup_insert_eq | done].
  - intros b' Hne. destruct (ki_pmad_tree s !! b') as [a1|] eqn:Hb1.
    + destruct Hinv as [Hl Ha]. destruct (Ha _ _ Hb1) as (L & g & Hok1).
      rewrite (free_pages_ok s b' a1 L g Hb1 Hok1). apply (free_pages_ok s' b' a1 L g).
      * simpl. by rewrite lookup_insert_ne.
      * apply area_ext with (mads s); [| done]. intros z Hz. apply Hout. intros Hz'. apply Hne.
        by apply (area_unique s b' a1 b a z Hl).
    + unfold free_pages. simpl. by rewrite lookup_insert_ne // Hb1.
Qed.

Lemma area_set_ref ms a L g x m v :
  area_ok ms a L g -> ms !! x = Some m -> ref_count m <> 0 ->
  area_ok (<[x := set_ref v m]> ms) a L g.
Proof.
  intros [Hh Hc Hnd Hin Hdom Hg Hp Hn] Hm Hr.
  assert (HxL : x ∉ L) by (intros Hx; destruct (chain_member _ _ _ _ _ Hc Hx) as (? & ? & ?); congruence).
  split; auto.
  - by apply chain_insert.
  - intros y Hy. rewrite lookup_insert_is_Some. destruct (decide (x = y)); auto.
  - intros y Hy. destruct (Hg _ Hy) as (? & ? & ? & m' & Hm' & ? & ?). split_and!; auto.
    exists m'. rewrite lookup_insert_ne; [congruence | auto].
  - intros y m' Hy HyL. rewrite lookup_insert_Some. intros [[<- <-]|[_ Hm']]; simpl; eauto.
  - intros y m' z Hy HyL. rewrite lookup_insert_Some. intros [[<- <-]|[_ Hm']]; simpl; eauto.
Qed.

Lemma insert_same s b a : ki_pmad_tree s !! b = Some a ->
  ki_pmad_tree s = <[b := a]> (ki_pmad_tree s).
Proof. intros. by rewrite insert_id. Qed.

Lemma filter_others (x : Z) (L : list Z) : x ∉ L -> filter (fun y => y <> x) L = L.
Proof.
  induction L as [|y L IH]; [done |]. rewrite not_elem_of_cons. intros [Hxy Hx].
  rewrite filter_cons_True; [congruence |]. by rewrite IH.
Qed.

(** Both cases together: wherever the page is, taking it off keeps the area
    well formed. *)
Lemma unlink_any ms a L g x m :
  area_ok ms a L g -> x ∈ query_tree a -> ms !! x = Some m ->
  exists L' g', links_ok x m ms /\ L' = filter (fun y => y <> x) L /\
    (forall z, z ∉ query_tree a -> unlinked x m ms !! z = ms !! z) /\
    area_ok (unlinked x m ms)
      (if bool_decide (free_list a = Some x) then with_free_list a (next_free m) else a) L' g'.
Proof.
  intros Hok Hx Hm. destruct (decide (x ∈ L)) as [HxL|HxL].
  - apply list_elem_of_split in HxL as (L1 & L2 & ->).
    destruct (unlink_listed _ _ _ _ _ _ _ Hok Hm) as [g' Hok'].
    pose proof (listed_links _ _ _ _ _ _ _ Hok Hm) as Hlk.
    exists (L1 ++ L2), g'. split_and!; [done | | | done].
    + destruct (listed_nodup _ _ _ _ _ _ _ Hok Hm) as (_ & Hx1 & Hx2 & _).
      rewrite filter_app filter_cons_False; [tauto |]. by rewrite !filter_others.
    + intros z Hz. apply unlinked_same; [by intros -> | |].
      * intros Hn. destruct (listed_next _ _ _ _ _ _ _ Hok Hm _ Hn) as (Hin & _).
        apply Hz, (ok_in _ _ _ _ Hok). set_solver.
      * intros Hpv. destruct (listed_prev _ _ _ _ _ _ _ Hok Hm _ Hpv) as (_ & _ & _ & [Hin|Hg]).
        -- apply Hz, (ok_in _ _ _ _ Hok). set_solver.
        -- by destruct (ok_ghost _ _ _ _ Hok _ Hg) as (_ & ? & _).
  - destruct (unlink_ghost _ _ _ _ _ _ Hok Hx HxL Hm) as [g' Hok'].
    pose proof (ok_prev _ _ _ _ Hok _ _ Hx HxL Hm) as Hpv.
    pose proof (ok_next _ _ _ _ Hok x m) as Hnx.
    exists L, g'. split_and!.
    + split; [| by rewrite Hpv]. intros y Hy. destruct (Hnx _ Hx HxL Hm Hy) as (? & ? & _).
      split; [done |]. by apply (ok_dom _ _ _ _ Hok).
    + by rewrite filter_others.
    + intros z Hz. apply unlinked_same; [by intros -> | | congruence].
      intros Hn. by destruct (Hnx _ Hx HxL Hm Hn).
    + rewrite bool_decide_false; [| done]. rewrite (ok_head _ _ _ _ Hok).
      intros Hf. apply HxL. destruct L; [done |]. simpl in Hf. injection Hf as ->. left.
Qed.

(** [ki_set_page_used] always succeeds on a described page; a page without
    references leaves the free list. *)
Lemma used_ok s b a x :
  pg_inv s -> page_of s b a x ->
  exists r s', refs s x = Some r /\ ki_set_page_used x s = Ok (tt, s') /\ pg_inv s' /\
    refs s' x = Some (w64 (r + 1)) /\
    exists L', touched s s' b x L' /\
      L' = if r =? 0 then filter (fun y => y <> x) (free_pages s b) else free_pages s b.
Proof.
  intros Hinv Hp. pose proof Hinv as [Hl Ha]. destruct Hp as [Hb Hx].
  destruct (Ha _ _ Hb) as (L & g & Hok). rewrite (free_pages_ok _ _ _ _ _ Hb Hok).
  destruct (ok_dom _ _ _ _ Hok _ Hx) as [m Hm]. exists (ref_count m).
  assert (Hrx : refs s x = Some (ref_count m)) by (unfold refs; by rewrite Hm).
  destruct (decide (ref_count m = 0)) as [Hr|Hr].
  - destruct (unlink_any _ _ _ _ _ _ Hok Hx Hm) as (L' & g' & Hlk & HL' & Hout & Hok').
    eexists. split; [done |]. split; [apply (used_first _ _ _ _ _ Hl (conj Hb Hx) Hm Hr Hlk) |].
    set (a' := if bool_decide (free_list a = Some x) then with_free_list a (next_free m) else a) in *.
    assert (Heq : (if bool_decide (free_list a = Some x)
      then <[b := with_free_list a (next_free m)]> (ki_pmad_tree s) else ki_pmad_tree s)
      = <[b := a']> (ki_pmad_tree s)).
    { unfold a'. case_bool_decide; [done |]. by rewrite insert_id. }
    rewrite Heq.
    destruct (touched_intro _ _ _ a' _ _ _ x Hinv Hb ltac:(unfold a'; by case_bool_decide) Hok' Hout) as [Hinv' Ht].
    { intros y Hy. by apply unlinked_ref. }
    split; [done |]. split; [| exists L'; split; [done |]].
    + unfold refs. simpl. unfold unlinked. rewrite lookup_insert_eq. simpl. by rewrite Hr.
    + by rewrite HL' Hr.
  - eexists. split; [done |]. split; [apply (used_again _ _ _ _ _ Hl (conj Hb Hx) Hm Hr) |].
    rewrite (insert_same _ _ _ Hb).
    destruct (touched_intro _ _ _ a _ _ _ x Hinv Hb ltac:(done)
      (area_set_ref _ _ _ _ _ _ (w64 (ref_count m + 1)) Hok Hm Hr)) as [Hinv' Ht].
    { intros z Hz. rewrite lookup_insert_ne; [by intros -> | done]. }
    { intros y Hy. by rewrite lookup_insert_ne. }
    split; [done |]. split; [| exists L; split; [done |]].
    + unfold refs. simpl. by rewrite lookup_insert_eq.
    + by rewrite (proj2 (Z.eqb_neq _ _) Hr).
Qed.

(** ** Giving a page back *)

Definition freed (x : Z) (a : ki_pmad_t) (ms : gmap Z hn_mad_t) : gmap Z hn_mad_t :=
  <[x := mkMad (free_list a) None 0]> (upd (free_list a) (set_prev (Some x)) ms).

Lemma in_use_off ms a L g x m :
  area_ok ms a L g -> ms !! x = Some m -> ref_count m <> 0 -> x ∉ L.
Proof.
  intros Hok Hm Hr Hx. destruct (chain_member _ _ _ _ _ (ok_chain _ _ _ _ Hok) Hx) as (? & ? & ?). congruence.
Qed.

Lemma hd_in L y : hd L None = Some y -> y ∈ L.
Proof. destruct L; [done |]. simpl. intros [= ->]. left. Qed.

(** The list itself is unchanged: only its head now points back to the page. *)
Lemma area_freed ms a L g x m :
  area_ok ms a L g -> x ∈ query_tree a -> ms !! x = Some m -> ref_count m <> 0 ->
  area_ok (freed x a ms) a L (if bool_decide (L = []) then None else Some x).
Proof.
  intros Hok Hx Hm Hr. pose proof (in_use_off _ _ _ _ _ _ Hok Hm Hr) as HxL.
  destruct Hok as [Hh Hc Hnd Hin Hdom Hg Hp Hn].
  assert (Hoff : forall z, z ∉ L -> z <> x -> freed x a ms !! z = ms !! z).
  { intros z Hz Hzx. unfold freed. rewrite lookup_insert_ne // upd_other // Hh. by intros ?%hd_in. }
  assert (Hx' : freed x a ms !! x = Some (mkMad (free_list a) None 0)) by (unfold freed; by rewrite lookup_insert_eq).
  split; auto.
  - destruct L as [|h L]; [done |]. rewrite bool_decide_false //.
    apply list.NoDup_cons in Hnd as [HhL _].
    destruct (chain_set_first _ _ (Some x) _ _ _ HhL Hc) as (mh & Hmh & Hc').
    unfold freed. apply chain_insert; [done |]. by rewrite Hh (upd_eq _ _ _ _ Hmh).
  - intros z Hz. unfold freed. destruct (decide (z = x)) as [->|].
    + rewrite lookup_insert_eq. by eexists.
    + rewrite lookup_insert_ne //. by apply upd_is_Some, Hdom.
  - intros y. case_bool_decide as Hnil; [done |]. intros [= <-]. split_and!; [done | done | done |].
    eexists. split; [exact Hx' |]. by rewrite /= Hh.
  - intros z mz Hz HzL. destruct (decide (z = x)) as [->|]; [rewrite Hx'; by intros [= <-] |].
    rewrite Hoff //. by apply Hp.
  - intros z mz y Hz HzL. destruct (decide (z = x)) as [->|].
    + rewrite Hx'. intros [= <-] Hy. simpl in Hy. rewrite Hh in Hy. pose proof (hd_in _ _ Hy).
      split_and!; [auto | by intros -> | done].
    + rewrite Hoff //. by apply Hn.
Qed.

(** [ki_set_page_free] on each branch. *)
Lemma free_run s b a L g x m :
  layout_ok s -> page_of s b a x -> area_ok (mads s) a L g -> mads s !! x = Some m ->
  ki_set_page_free x s = Ok (tt,
    if ref_count m =? 0 then s
    else if w64 (ref_count m - 1) =? 0 then mkPg (ki_pmad_tree s) (freed x a (mads s))
    else mkPg (ki_pmad_tree s) (<[x := set_ref (w64 (ref_count m - 1)) m]> (mads s))).
Proof.
  intros Hl Hp Hok Hm. unfold ki_set_page_free.
  rewrite (bind_ok _ _ _ _ _ (get_pmad_ok _ _ _ _ Hl Hp)) (bind_ok _ _ _ _ _ (get_mad_ok _ _ _ _ Hl Hp)).
  rewrite (mad_run _ _ _ _ Hm). destruct (Z.eqb_spec (ref_count m) 0) as [|Hr]; [by destruct s |].
  rewrite (put_run _ _ _ _ _ Hm). erewrite mad_run; [| simpl; by rewrite lookup_insert_eq].
  cbn [ref_count set_ref]. destruct (Z.eqb_spec (w64 (ref_count m - 1)) 0) as [Hw|Hw]; [| done].
  pose proof (in_use_off _ _ _ _ _ _ Hok Hm Hr) as HxL. destruct Hp as [Hb Hx].
  pose proof (ok_prev _ _ _ _ Hok _ _ Hx HxL Hm) as Hpv.
  assert (Hfx : free_list a <> Some x) by (rewrite (ok_head _ _ _ _ Hok); by intros ?%hd_in).
  simpl. rewrite bind_ret. unfold get_area. unfold bind at 1. simpl ki_pmad_tree. rewrite Hb.
  rewrite (bind_ok _ _ _ _ _ (put_if_ok (mkPg _ _) (free_list a) _ _)).
  { intros y Hy. simpl. rewrite lookup_insert_ne; [congruence |].
    apply (ok_dom _ _ _ _ Hok), (ok_in _ _ _ _ Hok), hd_in. by rewrite -(ok_head _ _ _ _ Hok). }
  cbn [ki_pmad_tree mads]. unfold bind at 1. simpl ki_pmad_tree. rewrite Hb.
  erewrite put_run; [| simpl; rewrite upd_other //; by rewrite lookup_insert_eq].
  erewrite mad_run; [| simpl; by rewrite lookup_insert_eq]. simpl prev_free. rewrite Hpv.
  rewrite bool_decide_true //. unfold kd_assert, ret. do 3 f_equal. simpl mads. unfold freed.
  rewrite upd_insert // insert_insert_eq. unfold set_next, set_ref. simpl. by rewrite Hpv Hw.
Qed.

Lemma free_ok s b a x :
  pg_inv s -> page_of s b a x ->
  exists r s', refs s x = Some r /\ ki_set_page_free x s = Ok (tt, s') /\ pg_inv s' /\
    refs s' x = Some (if r =? 0 then 0 else w64 (r - 1)) /\ touched s s' b x (free_pages s b).
Proof.
  intros Hinv [Hb Hx]. pose proof Hinv as [Hl Ha].
  destruct (Ha _ _ Hb) as (L & g & Hok). rewrite (free_pages_ok _ _ _ _ _ Hb Hok).
  destruct (ok_dom _ _ _ _ Hok _ Hx) as [m Hm]. exists (ref_count m). eexists.
  split; [unfold refs; by rewrite Hm |].
  split; [apply (free_run _ _ _ _ _ _ _ Hl (conj Hb Hx) Hok Hm) |].
  destruct (Z.eqb_spec (ref_count m) 0) as [Hr|Hr].
  { split; [done |]. split; [unfold refs; by rewrite Hm /= Hr |].
    unfold touched. split_and!; [done | done | | done]. by apply (free_pages_ok _ _ _ _ _ Hb Hok). }
  rewrite (insert_same _ _ _ Hb).
  destruct (Z.eqb_spec (w64 (ref_count m - 1)) 0) as [Hw|Hw].
  - destruct (touched_intro _ _ _ a _ _ _ x Hinv Hb ltac:(done) (area_freed _ _ _ _ _ _ Hok Hx Hm Hr)) as [Hinv' Ht].
    { intros z Hz. unfold freed. rewrite lookup_insert_ne; [by intros -> |]. apply upd_other.
      rewrite (ok_head _ _ _ _ Hok). intros Hz'%hd_in. by apply Hz, (ok_in _ _ _ _ Hok). }
    { intros y Hy. unfold freed. rewrite lookup_insert_ne // upd_ref //. }
    split; [done |]. split; [| done]. unfold refs. simpl. unfold freed. rewrite lookup_insert_eq. simpl. by rewrite Hw.
  - destruct (touched_intro _ _ _ a _ _ _ x Hinv Hb ltac:(done)
      (area_set_ref _ _ _ _ _ _ (w64 (ref_count m - 1)) Hok Hm Hr)) as [Hinv' Ht].
    { intros z Hz. rewrite lookup_insert_ne; [by intros -> | done]. }
    { intros y Hy. by rewrite lookup_insert_ne. }
    split; [done |]. split; [| done]. unfold refs. simpl. by rewrite lookup_insert_eq.
Qed.

(** ** Choosing a page *)

(** The areas at or above a base: each round of the loop leaves one behind. *)
Definition remaining (b : Z) (tr : gmap Z ki_pmad_t) : gset Z := filter (fun k => b <= k) (dom tr).

Lemma remaining_next b a b' a' (tr : gmap Z ki_pmad_t) :
  tr !! b = Some a -> OMap.next b tr = Some (b', a') ->
  (size (remaining b' tr) < size (remaining b tr))%nat.
Proof.
  intros Hb (Hb' & Hlt & _)%OMap.next_some. apply subset_size. split.
  - intros k. unfold remaining. rewrite !elem_of_filter. intros [? ?]. split; [lia | done].
  - intros Hsub. specialize (Hsub b). unfold remaining in Hsub. rewrite !elem_of_filter in Hsub.
    apply elem_of_dom_2 in Hb. destruct Hsub as [? _]; [split; [lia | done] | lia].
Qed.

(** Nothing to allocate in the areas below [b]. *)
Definition exhausted (s : pg_st) (t : Z) (P : Z -> Prop) : Prop :=
  forall b a, ki_pmad_tree s !! b = Some a -> P b -> type a = t -> free_list a = None.

Definition alloc_post (s : pg_st) (t r : Z) : Prop :=
  (r = 0 /\ exhausted s t (fun _ => True)) \/
  exists b a, ki_pmad_tree s !! b = Some a /\ type a = t /\ free_list a = Some r /\
    exhausted s t (fun k => k < b).

Lemma alloc_loop s t n b a :
  ki_pmad_tree s !! b = Some a -> exhausted s t (fun k => k < b) ->
  (size (remaining b (ki_pmad_tree s)) < n)%nat ->
  exists r, loop n (alloc_round t) (Some b) s = Ok (r, s) /\ alloc_post s t r.
Proof.
  revert b a. induction n as [|n IH]; intros b a Hb Hex Hn; [lia |].
  assert (Hgo : (type a = t -> free_list a = None) ->
    exists r, loop n (alloc_round t) (fst <$> OMap.next b (ki_pmad_tree s)) s = Ok (r, s) /\ alloc_post s t r).
  { intros Hnone. destruct (OMap.next b (ki_pmad_tree s)) as [[b' a']|] eqn:Hnx; simpl.
    - pose proof (remaining_next _ _ _ _ _ Hb Hnx). apply OMap.next_some in Hnx as (Hb' & Hlt & Hmin).
      apply (IH b' a' Hb'); [| lia]. intros k ak Hk Hkb Ht.
      destruct (Z.lt_trichotomy k b) as [?|[->|?]]; [by apply (Hex k) | | pose proof (Hmin _ _ Hk); lia].
      simplify_eq. auto.
    - exists 0. assert (0 < n)%nat.
      { assert (Hin : b ∈ remaining b (ki_pmad_tree s)).
        { unfold remaining. rewrite elem_of_filter. apply elem_of_dom_2 in Hb. split; [lia | done]. }
        assert (size (remaining b (ki_pmad_tree s)) <> O); [| lia].
        intros Hz%size_empty_inv. set_solver. }
      split; [destruct n; [lia | done] |]. left. split; [done |].
      intros k ak Hk _ Ht. pose proof (OMap.next_none _ _ Hnx _ _ Hk).
      destruct (Z.eq_dec k b) as [->|]; [simplify_eq; auto | apply (Hex k ak Hk); [lia | done]]. }
  assert (Hround : alloc_round t (Some b) s =
    if negb (type a =? t) then Ok (inl (fst <$> OMap.next b (ki_pmad_tree s)), s)
    else match free_list a with Some p => Ok (inr p, s)
         | None => Ok (inl (fst <$> OMap.next b (ki_pmad_tree s)), s) end)
    by (simpl; by rewrite Hb).
  destruct (Z.eqb_spec (type a) t) as [Ht|Ht]; cbn [negb] in Hround.
  - destruct (free_list a) as [p|] eqn:Hf.
    + exists p. rewrite (loop_exit _ _ _ _ _ _ Hround). split; [done |]. right. exists b, a. done.
    + rewrite (loop_next _ _ _ _ _ _ Hround). auto.
  - rewrite (loop_next _ _ _ _ _ _ Hround). apply Hgo. done.
Qed.

Lemma alloc_free_page_ok s t : exists r, ki_alloc_free_page t s = Ok (r, s) /\ alloc_post s t r.
Proof.
  unfold ki_alloc_free_page. destruct (OMap.first (ki_pmad_tree s)) as [[b a]|] eqn:Hf; simpl fmap.
  - apply OMap.first_some in Hf as (Hb & Hmin). apply (alloc_loop _ _ _ _ _ Hb).
    + intros k ak Hk Hlt. pose proof (Hmin _ _ Hk). lia.
    + rewrite Nat.lt_succ_r -size_dom. apply subseteq_size. unfold remaining. set_solver.
  - exists 0. split; [done |]. left. split; [done |]. intros b a Hb.
    rewrite (OMap.first_none _ Hf) in Hb. by rewrite lookup_empty in Hb.
Qed.

Lemma pgalloc_holds s t : pg_inv s ->
  exists r s', mm_pgalloc t s = Ok (r, s') /\ pg_inv s' /\
    ((r = 0 /\ s' = s /\
      ((forall b a, ki_pmad_tree s !! b = Some a -> type a = t -> free_pages s b = []) \/
       t <> MM_PHYSICAL_MEMORY_TYPE_AVAILABLE /\
       exists b a, page_of s b a 0 /\ type a = t /\ 0 ∈ free_pages s b)) \/
     (exists b a, page_of s b a r /\ type a = t /\ r <> 0 /\ r ∈ free_pages s b /\
        refs s r = Some 0 /\ refs s' r = Some 1 /\ (forall y, y <> r -> refs s' y = refs s y) /\
        (forall y, y ∈ free_pages s' b <-> y ∈ free_pages s b /\ y <> r))).
Proof.
  intros Hinv. pose proof Hinv as [Hl Ha]. unfold mm_pgalloc.
  destruct (alloc_free_page_ok s t) as (r & Er & Hr). rewrite (bind_ok _ _ _ _ _ Er).
  destruct Hr as [[-> Hex]|(b & a & Hb & Ht & Hf & _)].
  - exists 0, s. split; [done |]. split; [done |]. left. split_and!; [done | done | left].
    intros b a Hb Ht. destruct (Ha _ _ Hb) as (L & g & Hok). rewrite (free_pages_ok _ _ _ _ _ Hb Hok).
    pose proof (Hex _ _ Hb I Ht) as Hn. rewrite (ok_head _ _ _ _ Hok) in Hn. by destruct L.
  - destruct (Ha _ _ Hb) as (L & g & Hok). pose proof (ok_head _ _ _ _ Hok) as Hh. rewrite Hf in Hh.
    pose proof (hd_in _ _ (eq_sym Hh)) as HrL. pose proof (ok_in _ _ _ _ Hok _ HrL) as Hrq.
    assert (Hfp : free_pages s b = L) by (by apply (free_pages_ok _ _ _ _ _ Hb Hok)).
    destruct (decide (r = 0)) as [->|Hr0].
    { exists 0, s. split; [done |]. split; [done |]. left. split_and!; [done | done | right].
      split; [| by exists b, a; rewrite Hfp]. intros Ht0. apply (proj2 (lo_own _ Hl _ _ _ Hb Hrq)); congruence. }
    destruct (chain_member _ _ _ _ _ (ok_chain _ _ _ _ Hok) HrL) as (m & Hm & Hrm).
    destruct (used_ok _ _ _ _ Hinv (conj Hb Hrq)) as (rc & s' & Hrc & E & Hinv' & Hrc' & L' & (Ho & _ & HL & _) & HL').
    unfold refs in Hrc. rewrite Hm /= Hrm in Hrc. injection Hrc as <-.
    exists r, s'. rewrite (proj2 (Z.eqb_neq r 0) Hr0). simpl. rewrite (bind_ok _ _ _ _ _ E).
    split; [done |]. split; [done |]. right. exists b, a.
    split_and!; try done.
    + by rewrite Hfp.
    + unfold refs. by rewrite Hm /= Hrm.
    + intros y. rewrite HL HL' /= list_elem_of_filter. naive_solver.
Qed.

(** The page that is taken is the first one of the first area that has one. *)
Lemma pgalloc_head s b a x L : pg_inv s -> ki_pmad_tree s !! b = Some a ->
  type a = MM_PHYSICAL_MEMORY_TYPE_AVAILABLE -> free_pages s b = x :: L ->
  (forall b' a', ki_pmad_tree s !! b' = Some a' -> b' < b ->
     type a' = MM_PHYSICAL_MEMORY_TYPE_AVAILABLE -> free_pages s b' = []) ->
  exists s', mm_pgalloc MM_PHYSICAL_MEMORY_TYPE_AVAILABLE s = Ok (x, s') /\ pg_inv s' /\
    x <> 0 /\ refs s' x = Some 1 /\ touched s s' b x L.
Proof.
  intros Hinv Hb Ht Hfree Hlow. pose proof Hinv as [Hl Ha].
  destruct (alloc_free_page_ok s MM_PHYSICAL_MEMORY_TYPE_AVAILABLE) as (r & Er & Hr).
  destruct (Ha _ _ Hb) as (L0 & g & Hok). pose proof (free_pages_ok _ _ _ _ _ Hb Hok) as HL0.
  rewrite Hfree in HL0. subst L0. pose proof (ok_head _ _ _ _ Hok) as Hh. simpl in Hh.
  assert (r = x) as ->.
  { destruct Hr as [[_ Hex]|(b1 & a1 & Hb1 & Ht1 & Hf1 & Hex)]; [by rewrite (Hex _ _ Hb I Ht) in Hh |].
    destruct (Z.lt_trichotomy b1 b) as [Hlt|[->|Hlt]]; [| congruence | by rewrite (Hex _ _ Hb Hlt Ht) in Hh].
    destruct (Ha _ _ Hb1) as (L1 & g1 & Hok1). pose proof (free_pages_ok _ _ _ _ _ Hb1 Hok1) as HL1.
    rewrite (Hlow _ _ Hb1 Hlt Ht1) in HL1. subst L1. rewrite (ok_head _ _ _ _ Hok1) in Hf1. done. }
  assert (Hxq : x ∈ query_tree a) by (apply (ok_in _ _ _ _ Hok); left).
  assert (Hx0 : x <> 0) by (intros ->; by apply (proj2 (lo_own _ Hl _ _ _ Hb Hxq))).
  destruct (used_ok _ _ _ _ Hinv (conj Hb Hxq)) as (rc & s' & Hrc & E & Hinv' & Hrc' & L' & Ht' & HL').
  destruct (chain_member _ _ _ _ x (ok_chain _ _ _ _ Hok)) as (m & Hm & Hrm); [left |].
  unfold refs in Hrc. rewrite Hm /= Hrm in Hrc. injection Hrc as <-.
  exists s'. unfold mm_pgalloc. rewrite (bind_ok _ _ _ _ _ Er) (proj2 (Z.eqb_neq _ _) Hx0) /= (bind_ok _ _ _ _ _ E).
  rewrite Hfree /= filter_cons_False in HL'; [tauto |].
  pose proof (ok_nodup _ _ _ _ Hok) as [HxL _]%list.NoDup_cons. rewrite filter_others // in HL'. by subst.
Qed.

(** ** Describing pages

    How the areas are set up: a page gets a descriptor, off the free list or
    at its end. *)
Definition described (s : pg_st) : Prop := forall x, is_Some (mads s !! x) -> exists b a, page_of s b a x.

Definition with_page (x : Z) (a : ki_pmad_t) : ki_pmad_t :=
  mkPmad (len a) (type a) (free_list a) ({[x]} ∪ query_tree a).

(** The descriptor of a page without links *)
Definition fresh_mad : hn_mad_t := mkMad None None 0.

Lemma area_page_off ms a L g x : area_ok ms a L g -> x ∉ query_tree a ->
  area_ok (<[x := fresh_mad]> ms) (with_page x a) L g.
Proof.
  intros [Hh Hc Hnd Hin Hdom Hg Hp Hn] Hx.
  assert (HxL : x ∉ L) by (intros HL; by apply Hx, Hin).
  split; simpl; auto.
  - by apply chain_insert.
  - intros y Hy. apply elem_of_union_r. auto.
  - intros y. rewrite elem_of_union elem_of_singleton lookup_insert_is_Some.
    intros [->|Hy]; [by left | right]. split; [by intros -> | auto].
  - intros y Hy. destruct (Hg _ Hy) as (? & Hyq & ? & m & ? & ? & ?). split_and!; [done | set_solver | done |].
    exists m. rewrite lookup_insert_ne; [by intros -> | done].
  - intros y m Hy HyL. rewrite lookup_insert_Some. intros [[<- <-]|[Hne Hm]]; [done |]. apply (Hp y); [set_solver | done | done].
  - intros y m z Hy HyL. rewrite lookup_insert_Some. intros [[<- <-]|[Hne Hm]] Hz; [done |].
    destruct (Hn y m z) as (? & ? & ?); [set_solver | done | done | done |]. split_and!; [set_solver | done | done].
Qed.

(** The page [x] linked behind the last page of the list *)
Definition appended (x : Z) (L : list Z) (ms : gmap Z hn_mad_t) : gmap Z hn_mad_t :=
  <[x := mkMad None (lst L None) 0]> (upd (lst L None) (set_next (Some x)) ms).

Definition with_last (x : Z) (L : list Z) (a : ki_pmad_t) : ki_pmad_t :=
  mkPmad (len a) (type a) (if bool_decide (L = []) then Some x else free_list a) ({[x]} ∪ query_tree a).

Lemma lst_cons y L p : L <> [] -> lst (y :: L) p = lst L None.
Proof. by destruct L. Qed.

Lemma lst_snoc_nil L : L <> [] -> exists L' w, L = L' ++ [w] /\ lst L None = Some w.
Proof.
  intros HL. destruct L as [|w L' _] using rev_ind; [done |]. exists L', w. by rewrite lst_snoc.
Qed.

Lemma area_append ms a L g x : area_ok ms a L g -> x ∉ query_tree a -> (g = None \/ L <> []) ->
  area_ok (appended x L ms) (with_last x L a) (L ++ [x]) g.
Proof.
  intros [Hh Hc Hnd Hin Hdom Hg Hp Hn] Hx HgL.
  assert (HxL : x ∉ L) by (intros HL; by apply Hx, Hin).
  assert (Hother : forall y, y ∉ L -> y <> x -> appended x L ms !! y = ms !! y).
  { intros y HyL Hyx. unfold appended. rewrite lookup_insert_ne //. apply upd_other.
    intros Hl. destruct (decide (L = [])) as [->|HL]; [done |].
    destruct (lst_snoc_nil _ HL) as (L' & w & -> & Hw). rewrite Hw in Hl. apply HyL. set_solver. }
  assert (Hx' : appended x L ms !! x = Some (mkMad None (lst L None) 0)) by (unfold appended; by rewrite lookup_insert_eq).
  split; simpl.
  - case_bool_decide as HL; [by rewrite HL |]. rewrite Hh hd_app. by destruct L.
  - destruct (decide (L = [])) as [->|HL].
    { simpl. destruct HgL as [->|]; [|done]. split; [| done]. unfold appended. simpl. by rewrite lookup_insert_eq. }
    destruct (lst_snoc_nil _ HL) as (L' & w & -> & Hw). unfold appended. rewrite Hw. apply chain_app. split.
    + cbn [hd]. destruct (chain_set_last ms g L' w None (Some x) Hnd Hc) as (m & Hm & Hc').
      apply chain_insert; [done |]. by rewrite (upd_eq _ _ _ _ Hm).
    + simpl. rewrite lst_snoc lookup_insert_eq. done.
  - apply list.NoDup_app. split; [done |]. split; [| apply list.NoDup_singleton].
    intros y Hy ->%list_elem_of_singleton. done.
  - intros y. rewrite elem_of_app list_elem_of_singleton. intros [Hy| ->]; set_solver.
  - intros y. rewrite elem_of_union elem_of_singleton. intros [->|Hy]; [by rewrite Hx'; eexists |].
    unfold appended. rewrite lookup_insert_ne; [by intros -> |]. by apply upd_is_Some, Hdom.
  - intros y Hy. destruct (Hg _ Hy) as (HL & Hyq & HyL & m & Hm & Hr & Hnx).
    assert (Hyx : y <> x) by (by intros ->). split_and!; [by destruct L | set_solver | set_solver |].
    exists m. rewrite Hother // hd_app. split_and!; [done | done |]. rewrite Hnx. by destruct L.
  - intros y m Hy HyL. rewrite elem_of_app list_elem_of_singleton in HyL.
    rewrite Hother; [tauto | tauto |]. intros Hm. apply (Hp y); [set_solver | tauto | done].
  - intros y m z Hy HyL. rewrite elem_of_app list_elem_of_singleton in HyL.
    rewrite Hother; [tauto | tauto |]. intros Hm Hz.
    destruct (Hn y m z) as (Hzq & Hzy & HzL); [set_solver | tauto | done | done |].
    split_and!; [set_solver | done |]. rewrite elem_of_app list_elem_of_singleton hd_app.
    intros [HzL'| ->]; [| done]. pose proof (HzL HzL') as Hz'. by destruct L.
Qed.

(** An area that gets a page: the others do not notice. *)
Lemma pg_grow s b a a' ms' L' g' x :
  pg_inv s -> ki_pmad_tree s !! b = Some a -> len a' = len a -> type a' = type a ->
  query_tree a' = {[x]} ∪ query_tree a -> b <= x < b + len a ->
  (x = 0 -> type a <> MM_PHYSICAL_MEMORY_TYPE_AVAILABLE) -> area_ok ms' a' L' g' ->
  (forall z, z ∉ query_tree a -> z <> x -> ms' !! z = mads s !! z) ->
  let s' := mkPg (<[b := a']> (ki_pmad_tree s)) ms' in
  pg_inv s' /\ free_pages s' b = L' /\ forall b', b' <> b -> free_pages s' b' = free_pages s b'.
Proof.
  intros [Hl Ha] Hb Hlen Hty Hq Hxr Hx0 Hok Hout s'. pose proof Hl as [Hr Hap Hown].
  assert (Hl' : layout_ok s').
  { split; simpl.
    - intros b1 a1. rewrite lookup_insert_Some. intros [[<- <-]|[_ H1]]; [rewrite Hlen |]; eauto.
    - intros b1 a1 b2 a2. rewrite !lookup_insert_Some.
      intros [[<- <-]|[_ H1]] [[<- <-]|[_ H2]] Hlt; rewrite ?Hlen; eauto; lia.
    - intros b1 a1 y. rewrite lookup_insert_Some. intros [[<- <-]|[_ H1]]; [| by eauto].
      rewrite Hq Hlen Hty elem_of_union elem_of_singleton. intros [->|Hy]; [done | by eauto]. }
  assert (Hother : forall b1 a1, b1 <> b -> ki_pmad_tree s !! b1 = Some a1 ->
    forall z, z ∈ query_tree a1 -> ms' !! z = mads s !! z).
  { intros b1 a1 Hne H1 z Hz. destruct (Hown _ _ _ H1 Hz) as [Hzr _]. apply Hout.
    - intros Hz'. apply Hne. by apply (area_unique s b1 a1 b a z Hl).
    - intros ->. destruct (Z.lt_trichotomy b b1) as [Hlt|[?|Hlt]]; [| done |].
      + pose proof (Hap _ _ _ _ Hb H1 Hlt). lia.
      + pose proof (Hap _ _ _ _ H1 Hb Hlt). lia. }
  split_and!.
  - split; [done |]. simpl. intros b1 a1. rewrite lookup_insert_Some. intros [[<- <-]|[Hne H1]]; [by eauto |].
    destruct (Ha _ _ H1) as (L & g & Hok1). exists L, g. apply area_ext with (mads s); [by eauto | done].
  - apply (free_pages_ok s' b a' L' g'); [simpl; by rewrite lookup_insert_eq | done].
  - intros b1 Hne. destruct (ki_pmad_tree s !! b1) as [a1|] eqn:H1.
    + destruct (Ha _ _ H1) as (L & g & Hok1). rewrite (free_pages_ok s b1 a1 L g H1 Hok1).
      apply (free_pages_ok s' b1 a1 L g); [simpl; by rewrite lookup_insert_ne |].
      apply area_ext with (mads s); [by eauto | done].
    + unfold free_pages. simpl. by rewrite lookup_insert_ne // H1.
Qed.

(** ** Sequences of operations *)

Inductive pg_step (s : pg_st) : pg_st -> Prop :=
  | step_alloc t r s' : mm_pgalloc t s = Ok (r, s') -> pg_step s s'
  | step_free b a x s' : page_of s b a x -> mm_pgfree x s = Ok (tt, s') -> pg_step s s'
  | step_ref b a x s' : page_of s b a x -> mm_refpg x s = Ok (tt, s') -> pg_step s s'.

(** Every step keeps the invariant and adds no page to any free list. *)
Lemma step_inv s s' : pg_inv s -> pg_step s s' ->
  pg_inv s' /\ forall b y, y ∈ free_pages s' b -> y ∈ free_pages s b.
Proof.
  intros Hinv Hstep. destruct Hstep as [t r s' E|b a x s' Hp E|b a x s' Hp E].
  - destruct (alloc_free_page_ok s t) as (r0 & Er & Hr). unfold mm_pgalloc in E.
    rewrite (bind_ok _ _ _ _ _ Er) in E. destruct (r0 =? 0) eqn:Hr0; simpl in E; [by injection E as <- <- |].
    destruct Hr as [[-> _]|(b & a & Hb & Ht & Hf & _)]; [done |]. destruct Hinv as [Hl Ha].
    destruct (Ha _ _ Hb) as (L & g & Hok). pose proof (ok_head _ _ _ _ Hok) as Hh. rewrite Hf in Hh.
    pose proof (ok_in _ _ _ _ Hok _ (hd_in _ _ (eq_sym Hh))) as Hrq.
    destruct (used_ok _ _ _ _ (conj Hl Ha) (conj Hb Hrq)) as (rc & s2 & _ & E2 & Hinv' & _ & L' & (_ & _ & HL & Ho) & HL').
    rewrite (bind_ok _ _ _ _ _ E2) in E. injection E as <- <-. split; [done |].
    intros b' y. destruct (decide (b' = b)) as [->|]; [rewrite HL HL'; case_match; rewrite ?list_elem_of_filter; naive_solver | by rewrite Ho].
  - destruct (free_ok _ _ _ _ Hinv Hp) as (rc & s2 & _ & E2 & Hinv' & _ & (_ & _ & HL & Ho)).
    unfold mm_pgfree in E. rewrite E2 in E. injection E as <-. split; [done |].
    intros b' y. destruct (decide (b' = b)) as [->|]; [by rewrite HL | by rewrite Ho].
  - destruct (used_ok _ _ _ _ Hinv Hp) as (rc & s2 & _ & E2 & Hinv' & _ & L' & (_ & _ & HL & Ho) & HL').
    unfold mm_refpg in E. rewrite E2 in E. injection E as <-. split; [done |].
    intros b' y. destruct (decide (b' = b)) as [->|]; [rewrite HL HL'; case_match; rewrite ?list_elem_of_filter; naive_solver | by rewrite Ho].
Qed.

(** ** What never changes

    Lengths, types and page sets of the areas are set up once: no operation
    writes them. *)
Definition layout (s : pg_st) : gmap Z (Z * Z * gset Z) :=
  (fun a => (len a, type a, query_tree a)) <$> ki_pmad_tree s.

Definition keeps {A} (m : M pg_st A) : Prop := forall s r s', m s = Ok (r, s') -> layout s' = layout s.

Lemma keeps_ret {A} (r : A) : keeps (ret r).
Proof. by intros s ? ? [= _ <-]. Qed.

Lemma keeps_bind {A B} (m : M pg_st A) (k : A -> M pg_st B) :
  keeps m -> (forall r, keeps (k r)) -> keeps (bind m k).
Proof.
  intros Hm Hk s r s'. unfold bind. destruct (m s) as [[x s1]| | |] eqn:E; try done.
  intros Hr. rewrite (Hk _ _ _ _ Hr). by apply (Hm _ _ _ E).
Qed.

Lemma keeps_read {A} (m : M pg_st A) : (forall s r s', m s = Ok (r, s') -> s' = s) -> keeps m.
Proof. intros Hm s r s' E. by rewrite (Hm _ _ _ E). Qed.

Lemma keeps_get_mad x : keeps (get_mad x).
Proof. apply keeps_read. intros s r s'. unfold get_mad. by destruct (mads s !! x); intros [= _ <-]. Qed.

Lemma keeps_get_area b : keeps (get_area b).
Proof. apply keeps_read. intros s r s'. unfold get_area. by destruct (ki_pmad_tree s !! b); intros [= _ <-]. Qed.

Lemma keeps_put_mad x f : keeps (put_mad x f).
Proof. intros s r s'. unfold put_mad. by destruct (mads s !! x); intros [= _ <-]. Qed.

Lemma keeps_put_if p f : keeps (put_if p f).
Proof. destruct p; [apply keeps_put_mad | apply keeps_ret]. Qed.

Lemma keeps_set_free_list b v : keeps (set_free_list b v).
Proof.
  intros s r s'. unfold set_free_list. destruct (ki_pmad_tree s !! b) as [a|] eqn:Hb; [| done].
  intros [= _ <-]. unfold layout. simpl. rewrite fmap_insert. apply insert_id.
  by rewrite lookup_fmap Hb.
Qed.

Lemma keeps_get_pmad x : keeps (ki_get_pmad x).
Proof. apply keeps_read. by intros s r s' [= _ <-]. Qed.

Ltac keeps_steps :=
  repeat (apply keeps_bind; [| intros ?] || case_match || apply keeps_get_pmad || apply keeps_get_mad
    || apply keeps_get_area || apply keeps_put_mad || apply keeps_put_if || apply keeps_set_free_list
    || apply keeps_ret || by (intros ? ? ?)).

Lemma keeps_set_page_used x : keeps (ki_set_page_used x).
Proof. unfold ki_set_page_used, kh_get_mad, deref, when. keeps_steps. Qed.

Lemma keeps_set_page_free x : keeps (ki_set_page_free x).
Proof. unfold ki_set_page_free, kh_get_mad, deref, kd_assert, when. keeps_steps. Qed.

Lemma keeps_pgalloc ty : keeps (mm_pgalloc ty).
Proof.
  intros s r s'. unfold mm_pgalloc. destruct (alloc_free_page_ok s ty) as (x & E & _).
  rewrite (bind_ok _ _ _ _ _ E). destruct (negb (x =? 0)); [| by intros [= _ <-]].
  intros Hr. by apply (keeps_bind _ (fun _ => ret x) (keeps_set_page_used x) (fun _ => keeps_ret x) _ _ _ Hr).
Qed.

Lemma layout_page s s' b a x : layout s' = layout s -> page_of s b a x -> exists a', page_of s' b a' x.
Proof.
  intros Hl [Hb Hx]. pose proof (f_equal (lookup b) Hl) as Hlb. unfold layout in Hlb.
  rewrite !lookup_fmap Hb /= in Hlb. destruct (ki_pmad_tree s' !! b) as [a'|] eqn:Hb'; [| done].
  injection Hlb as _ _ Hq. exists a'. split; [done | by rewrite Hq].
Qed.

(** A page of available memory *)
Definition ram_page (s : pg_st) (b : Z) (a : ki_pmad_t) (x : Z) : Prop :=
  page_of s b a x /\ type a = MM_PHYSICAL_MEMORY_TYPE_AVAILABLE.

Lemma layout_ram s s' b a x : layout s' = layout s -> ram_page s b a x -> exists a', ram_page s' b a' x.
Proof.
  intros Hl [[Hb Hx] Ht]. pose proof (f_equal (lookup b) Hl) as Hlb. unfold layout in Hlb.
  rewrite !lookup_fmap Hb /= in Hlb. destruct (ki_pmad_tree s' !! b) as [a'|] eqn:Hb'; [| done].
  injection Hlb as _ Ht' Hq. exists a'. unfold ram_page, page_of. by rewrite Hq Ht'.
Qed.

(** ** Theorems *)

(** One area of two pages, both free. *)
Definition demo : pg_st :=
  mkPg {[ 4096 := mkPmad 8192 1 (Some 4096) {[ 4096; 8192 ]} ]}
       {[ 4096 := mkMad (Some 8192) None 0; 8192 := mkMad None (Some 4096) 0 ]}.

Lemma demo_inv : pg_inv demo.
Proof.
  split.
  - split; unfold demo; simpl.
    + intros b a. rewrite lookup_singleton_Some. intros [<- <-]. simpl. lia.
    + intros b1 a1 b2 a2. rewrite !lookup_singleton_Some. lia.
    + intros b a x. rewrite lookup_singleton_Some. intros [<- <-]. simpl. set_solver by lia.
  - unfold demo; simpl. intros b a. rewrite lookup_singleton_Some. intros [<- <-].
    exists [4096; 8192], None. split; simpl; try done.
    + apply (bool_decide_unpack _). by vm_compute.
    + set_solver.
    + intros x. rewrite elem_of_union !elem_of_singleton. intros [->| ->]; vm_compute; eauto.
    + set_solver.
    + set_solver.
Qed.

(** C6: [mm_pgalloc] always returns.  Either it returns null, when no area of
    the requested type has a free page, or when, for memory that is not
    available memory, page 0 is on a free list, and nothing changed; or it returns a
    described page of that type that had no references, which now has exactly
    one and has left the free list, while every other reference count is
    unchanged. *)
Theorem pgalloc_correct s t : pg_inv s ->
  exists r s', mm_pgalloc t s = Ok (r, s') /\ pg_inv s' /\
    ((r = 0 /\ s' = s /\
      ((forall b a, ki_pmad_tree s !! b = Some a -> type a = t -> free_pages s b = []) \/
       t <> MM_PHYSICAL_MEMORY_TYPE_AVAILABLE /\
       exists b a, page_of s b a 0 /\ type a = t /\ 0 ∈ free_pages s b)) \/
     (exists b a, page_of s b a r /\ type a = t /\ r <> 0 /\ r ∈ free_pages s b /\
        refs s r = Some 0 /\ refs s' r = Some 1 /\ (forall y, y <> r -> refs s' y = refs s y) /\
        (forall y, y ∈ free_pages s' b <-> y ∈ free_pages s b /\ y <> r))).
Proof. apply pgalloc_holds. Qed.

Lemma pgalloc_correct_witness :
  pg_inv demo /\ exists r s', mm_pgalloc 1 demo = Ok (r, s') /\ pg_inv s'.
Proof.
  split; [exact demo_inv |].
  destruct (pgalloc_correct demo 1 demo_inv) as (r & s' & E & Hi & _). exists r, s'. split; [exact E | exact Hi].
Defined.

(** C7: on a described page [mm_refpg] adds a reference and [mm_pgfree] drops
    one (and does nothing at zero); both always return, keep the invariant and
    leave every other reference count alone. *)
Theorem ref_and_free_correct s b a x : pg_inv s -> page_of s b a x ->
  exists r, refs s x = Some r /\
    (exists s', mm_refpg x s = Ok (tt, s') /\ pg_inv s' /\ refs s' x = Some (w64 (r + 1)) /\
       forall y, y <> x -> refs s' y = refs s y) /\
    (exists s', mm_pgfree x s = Ok (tt, s') /\ pg_inv s' /\
       refs s' x = Some (if r =? 0 then 0 else w64 (r - 1)) /\
       forall y, y <> x -> refs s' y = refs s y).
Proof.
  intros Hinv Hp. destruct (used_ok _ _ _ _ Hinv Hp) as (r & s1 & Hr & E1 & I1 & R1 & L' & (O1 & _) & _).
  destruct (free_ok _ _ _ _ Hinv Hp) as (r' & s2 & Hr' & E2 & I2 & R2 & (O2 & _)).
  exists r. simplify_eq. split; [done |]. eauto 10.
Qed.

Lemma ref_and_free_correct_witness : exists r, refs demo 4096 = Some r /\
    (exists s', mm_refpg 4096 demo = Ok (tt, s') /\ pg_inv s' /\ refs s' 4096 = Some (w64 (r + 1)) /\
       forall y, y <> 4096 -> refs s' y = refs demo y) /\
    (exists s', mm_pgfree 4096 demo = Ok (tt, s') /\ pg_inv s' /\
       refs s' 4096 = Some (if r =? 0 then 0 else w64 (r - 1)) /\
       forall y, y <> 4096 -> refs s' y = refs demo y).
Proof.
  apply (ref_and_free_correct demo 4096 (mkPmad 8192 1 (Some 4096) {[ 4096; 8192 ]}) 4096).
  - exact demo_inv.
  - split; [reflexivity | simpl; set_solver].
Defined.

(** C8: over any sequence of allocations, reference and release operations
    the invariant holds and no page ever enters a free list: a page that was
    allocated once can never be allocated again, even after all its references
    were released. *)
Theorem pages_never_return s s' :
  pg_inv s -> rtc pg_step s s' ->
  pg_inv s' /\ forall b y, y ∈ free_pages s' b -> y ∈ free_pages s b.
Proof.
  intros Hinv Hsteps. revert Hinv. induction Hsteps as [s|s s1 s' H1 _ IH]; intros Hinv; [done |].
  destruct (step_inv _ _ Hinv H1) as [Hinv1 Hf]. destruct (IH Hinv1) as [Hinv' Hf']. eauto.
Qed.

(** Allocating the only two pages, releasing one and allocating again. *)
Definition demo_leak : outcome (Z * pg_st) :=
  (x <- mm_pgalloc 1; _ <- mm_pgalloc 1; mm_pgfree x;; mm_pgalloc 1) demo.

Example demo_leak_null : exists s', demo_leak = Ok (0, s').
Proof. eexists. vm_compute. reflexivity. Qed.

Lemma pages_never_return_witness : exists s',
  rtc pg_step demo s' /\ pg_inv s' /\ forall b y, y ∈ free_pages s' b -> y ∈ free_pages demo b.
Proof.
  destruct (mm_pgalloc 1 demo) as [[r s']| | |] eqn:E; [| vm_compute in E; discriminate E ..].
  exists s'. assert (Hs : rtc pg_step demo s').
  { apply rtc_once. exact (step_alloc demo 1 r s' E). }
  split; [exact Hs | exact (pages_never_return demo s' demo_inv Hs)].
Defined.

End PgAlloc.
