(* ===== verification/Mutex.v ===== *)
(** * Locks

    The spinlock of hal/x86_64/kf/spinlock.cc and the three mutexes of
    kernel/ps/mutex.cc with their guards (include/pbos/ps/mutex.hh).  The
    mutexes are written against an interface of spinlock operations: once its
    laws hold, a mutex gives mutual exclusion to any number of threads that
    run interleaved; the operations shipped in spinlock.cc do not satisfy them,
    and what that does to a mutex is shown too. *)

From S2P Require Import Prelude.

Module Mutex.

(** ** Spinlocks *)

(** [hal_spinlock_t] is a byte.  [hal_is_spinlock_locked] gets the address of
    the lock, which is not null. *)
Class Spinlock := {
  HAL_SPINLOCK_UNLOCKED : Z;
  HAL_SPINLOCK_LOCKED : Z;
  hal_try_lock_spinlock : Z -> bool * Z;
  hal_unlock_spinlock : Z -> Z;
  hal_is_spinlock_locked : Z -> bool
}.

(** [arch_atomic_cmpxchg8] (arch/x86_64/atomic.h): the old value, and the value
    left in memory.  [cmpxchg] is what the name and the parameters say;
    [cmpxchg_asm] is the instruction as its operands are written,
    [cmpxchgb %0, %1] with [%0] in [%al], which writes the expected value back
    and never uses the replacement. *)
Definition cmpxchg (v expected replacement : Z) : Z * Z :=
  (v, if v =? expected then replacement else v).
Definition cmpxchg_asm (v expected _ : Z) : Z * Z :=
  (v, if v =? expected then expected else v).

(** The code of spinlock.cc over a compare-and-exchange:
    [lock = HAL_SPINLOCK_UNLOCKED] assigns the parameter and not the lock,
    [lock == HAL_SPINLOCK_LOCKED] compares the address, and both macros are 0. *)
Definition shipped (cas : Z -> Z -> Z -> Z * Z) : Spinlock := {|
  HAL_SPINLOCK_UNLOCKED := 0;
  HAL_SPINLOCK_LOCKED := 0;
  hal_try_lock_spinlock v := let '(old, v') := cas v 0 1 in (old =? 0, v');
  hal_unlock_spinlock v := v;
  hal_is_spinlock_locked _ := false
|}.

(** What the mutexes rely on. *)
Class SpinlockLaws (L : Spinlock) : Prop := {
  sl_apart : HAL_SPINLOCK_LOCKED <> HAL_SPINLOCK_UNLOCKED;
  sl_try_free : hal_try_lock_spinlock HAL_SPINLOCK_UNLOCKED = (true, HAL_SPINLOCK_LOCKED);
  sl_try_held : hal_try_lock_spinlock HAL_SPINLOCK_LOCKED = (false, HAL_SPINLOCK_LOCKED);
  sl_unlock : hal_unlock_spinlock HAL_SPINLOCK_LOCKED = HAL_SPINLOCK_UNLOCKED;
  sl_locked : hal_is_spinlock_locked HAL_SPINLOCK_LOCKED = true;
  sl_unlocked : hal_is_spinlock_locked HAL_SPINLOCK_UNLOCKED = false
}.

(** A spinlock that keeps the laws: the same code with the dereferences in
    place and [HAL_SPINLOCK_LOCKED] equal to the 1 that is stored. *)
Definition lawful : Spinlock := {|
  HAL_SPINLOCK_UNLOCKED := 0;
  HAL_SPINLOCK_LOCKED := 1;
  hal_try_lock_spinlock v := let '(old, v') := cmpxchg v 0 1 in (old =? 0, v');
  hal_unlock_spinlock _ := 0;
  hal_is_spinlock_locked v := v =? 1
|}.

#[export] Instance lawful_laws : SpinlockLaws lawful.
Proof. by split. Qed.

(** ** The plain mutex *)

Abbreviation tid := positive.

Record ps_mutex_t := mkMutex { lock_thread : option tid; spinlock : Z }.

Section PlainMutex.
Context (L : Spinlock).

Definition ps_init_mutex : ps_mutex_t := mkMutex None HAL_SPINLOCK_UNLOCKED.

(** One attempt of the loop of [ps_lock_mutex]; [inl] after the yield. *)
Definition lock_attempt (_ : unit) : M ps_mutex_t (unit + unit) := fun m =>
  let '(ok, v) := hal_try_lock_spinlock (spinlock m) in
  Ok (if ok : bool then inr tt else inl tt, mkMutex (lock_thread m) v).

Definition set_lock_thread (t : option tid) : M ps_mutex_t unit := fun m =>
  Ok (tt, mkMutex t (spinlock m)).

(** [ps_lock_mutex] by thread [cur], giving up after [n] attempts. *)
Definition ps_lock_mutex (n : nat) (cur : tid) : M ps_mutex_t unit :=
  loop n lock_attempt tt;;
  set_lock_thread (Some cur).

Definition ps_try_lock_mutex (cur : tid) : M ps_mutex_t bool :=
  r <- lock_attempt tt;
  match r with
  | inl _ => ret false
  | inr _ => set_lock_thread (Some cur);; ret true
  end.

Definition ps_unlock_mutex (cur : tid) : M ps_mutex_t unit := fun m =>
  (kd_assert (bool_decide (lock_thread m = Some cur));;
   kd_assert (spinlock m =? HAL_SPINLOCK_LOCKED);;
   (fun m => Ok (tt, mkMutex (lock_thread m) (hal_unlock_spinlock (spinlock m))))) m.

Definition ps_is_mutex_locked (m : ps_mutex_t) : bool := hal_is_spinlock_locked (spinlock m).

(** [ps::MutexGuard] around a body, and [~Mutex]. *)
Definition with_guard {A} (n : nat) (cur : tid) (body : M ps_mutex_t A) : M ps_mutex_t A :=
  ps_lock_mutex n cur;;
  a <- body;
  ps_unlock_mutex cur;;
  ret a.

Definition destroy_mutex (m : ps_mutex_t) : outcome unit :=
  if ps_is_mutex_locked m then Panic else Ok tt.

(** *** Threads running interleaved

    Each thread is idle, trying, has taken the spinlock but not yet recorded
    itself, or is inside; [Crashed] is a failed check of [ps_unlock_mutex]. *)
Inductive pc := Idle | Trying | Taken | Inside | Crashed.

#[global] Instance pc_eq_dec : EqDecision pc.
Proof. solve_decision. Defined.

Record sys := mkSys { mtx : ps_mutex_t; pcs : tid -> pc }.

Definition set_pc (t : tid) (p : pc) (f : tid -> pc) : tid -> pc :=
  fun u => if bool_decide (u = t) then p else f u.

(** The step that thread [t] takes next. *)
Definition thread_step (t : tid) (s : sys) : sys :=
  match pcs s t with
  | Idle => mkSys (mtx s) (set_pc t Trying (pcs s))
  | Trying =>
      match lock_attempt tt (mtx s) with
      | Ok (inr _, m) => mkSys m (set_pc t Taken (pcs s))
      | Ok (inl _, m) => mkSys m (pcs s)
      | _ => s
      end
  | Taken =>
      match set_lock_thread (Some t) (mtx s) with
      | Ok (_, m) => mkSys m (set_pc t Inside (pcs s))
      | _ => s
      end
  | Inside =>
      match ps_unlock_mutex t (mtx s) with
      | Ok (_, m) => mkSys m (set_pc t Idle (pcs s))
      | _ => mkSys (mtx s) (set_pc t Crashed (pcs s))
      end
  | Crashed => s
  end.

Inductive sys_step (s : sys) : sys -> Prop :=
  | sys_step_intro t : sys_step s (thread_step t s).

Definition sys_init : sys := mkSys ps_init_mutex (fun _ => Idle).

(** At most one thread holds the lock, the spinlock says so, and the recorded
    owner is the thread inside. *)
Definition holder (s : sys) (t : tid) : Prop := pcs s t = Taken \/ pcs s t = Inside.

Record sys_inv (s : sys) : Prop := {
  si_unique : forall t u, holder s t -> holder s u -> t = u;
  si_lock : forall t, holder s t -> spinlock (mtx s) = HAL_SPINLOCK_LOCKED;
  si_free : (forall t, ~ holder s t) -> spinlock (mtx s) = HAL_SPINLOCK_UNLOCKED;
  si_known : spinlock (mtx s) = HAL_SPINLOCK_LOCKED \/ spinlock (mtx s) = HAL_SPINLOCK_UNLOCKED;
  si_held : spinlock (mtx s) = HAL_SPINLOCK_LOCKED -> exists t, holder s t;
  si_owner : forall t, pcs s t = Inside -> lock_thread (mtx s) = Some t;
  si_alive : forall t, pcs s t <> Crashed
}.

Lemma set_pc_eq t p f : set_pc t p f t = p.
Proof. unfold set_pc. by rewrite bool_decide_true. Qed.

Lemma set_pc_ne t p f u : u <> t -> set_pc t p f u = f u.
Proof. intros. unfold set_pc. by rewrite bool_decide_false. Qed.

Lemma set_pc_cases t p f u q : set_pc t p f u = q -> u = t /\ p = q \/ u <> t /\ f u = q.
Proof.
  destruct (decide (u = t)) as [->|Hne]; [rewrite set_pc_eq | rewrite set_pc_ne //]; auto.
Qed.

Context `{!SpinlockLaws L}.

Lemma init_inv : sys_inv sys_init.
Proof.
  split; unfold holder; simpl; try (by intros ? [?|?]); try done.
  - by intros t u [?|?].
  - by right.
  - intros Heq. pose proof sl_apart as Hn. congruence.
Qed.

Ltac pcs_cases :=
  repeat match goal with
  | H : set_pc _ _ _ _ = _ |- _ => apply set_pc_cases in H as [[? ?]|[? ?]]; subst; try discriminate
  | H : holder (mkSys _ (set_pc _ _ _)) _ |- _ => destruct H as [H|H]; simpl in H
  end.

Lemma step_keeps_inv s s' : sys_inv s -> sys_step s s' -> sys_inv s'.
Proof.
  intros [Hu Hl Hf Hk Hh Ho Ha] Hstep. destruct Hstep as [t]. unfold thread_step.
  pose proof sl_apart as Hap.
  destruct (pcs s t) eqn:Ht.
  - (* a thread starts trying: no holder changes *)
    assert (Heq : forall u, holder (mkSys (mtx s) (set_pc t Trying (pcs s))) u <-> holder s u).
    { intros u. unfold holder; simpl. destruct (decide (u = t)) as [->|]; [rewrite set_pc_eq Ht; naive_solver | by rewrite set_pc_ne]. }
    split; simpl; auto.
    + intros u v ?%Heq ?%Heq. auto.
    + intros u ?%Heq. eauto.
    + intros Hn. apply Hf. intros u ?%Heq. by apply (Hn u).
    + intros Hlk. destruct (Hh Hlk) as [u Hu']. exists u. by apply Heq.
    + intros u Hu'. pcs_cases. auto.
    + intros u Hu'. pcs_cases. by apply (Ha u).
  - (* an attempt *)
    unfold lock_attempt. destruct Hk as [Hk|Hk]; rewrite Hk.
    + rewrite sl_try_held. rewrite -Hk. destruct s as [[lt sp] ps]; simpl in *. by split; auto.
    + rewrite sl_try_free. cbn iota.
      assert (Hno : forall u, ~ holder s u) by (intros u Hu'; pose proof (Hl _ Hu'); congruence).
      assert (Hone : forall u m, holder (mkSys m (set_pc t Taken (pcs s))) u -> u = t).
      { intros u m [Hu'|Hu']; simpl in Hu'; apply set_pc_cases in Hu' as [[? _]|[_ Hu']]; auto;
          exfalso; apply (Hno u); [by left | by right]. }
      split; simpl; auto.
      * intros u v Hu' Hv. by rewrite (Hone _ _ Hu') (Hone _ _ Hv).
      * intros Hn. exfalso. apply (Hn t). left. simpl. apply set_pc_eq.
      * intros _. exists t. left. simpl. apply set_pc_eq.
      * intros u Hu'. pcs_cases. auto.
      * intros u Hu'. pcs_cases. by apply (Ha u).
  - (* recording the owner *)
    simpl. assert (Heq : forall u m, holder (mkSys m (set_pc t Inside (pcs s))) u <-> holder s u).
    { intros u m. unfold holder; simpl. destruct (decide (u = t)) as [->|]; [rewrite set_pc_eq Ht; naive_solver | by rewrite set_pc_ne]. }
    split; simpl; auto.
    + intros u v ?%Heq ?%Heq. auto.
    + intros u ?%Heq. eauto.
    + intros Hn. apply Hf. intros u Hu'. apply (Hn u). by apply Heq.
    + intros Hlk. destruct (Hh Hlk) as [u Hu']. exists u. by apply Heq.
    + intros u Hu'. pcs_cases; [done |]. f_equal. apply Hu; [left | right]; done.
    + intros u Hu'. pcs_cases. by apply (Ha u).
  - (* releasing *)
    assert (Hin : holder s t) by (by right).
    unfold ps_unlock_mutex. rewrite (Ho _ Ht) bool_decide_true // (Hl _ Hin) Z.eqb_refl. simpl.
    rewrite (Hl _ Hin) sl_unlock.
    assert (Hno : forall u m, ~ holder (mkSys m (set_pc t Idle (pcs s))) u).
    { intros u m Hu'. pcs_cases; [apply H | apply H]; apply Hu; unfold holder; auto. }
    split; simpl.
    + intros u v Hu' _. by destruct (Hno _ _ Hu').
    + intros u Hu'. by destruct (Hno _ _ Hu').
    + done.
    + by right.
    + intros Heq. congruence.
    + intros u Hu'. pcs_cases. exfalso. apply H. apply Hu; unfold holder; auto.
    + intros u Hu'. pcs_cases. by apply (Ha u).
  - exfalso. by apply (Ha t).
Qed.

Lemma reachable_inv s : rtc sys_step sys_init s -> sys_inv s.
Proof.
  intros H. assert (Hi : sys_inv sys_init) by apply init_inv. revert Hi.
  induction H as [s|s s1 s' H1 _ IH]; intros Hi; [done |]. apply IH. by apply step_keeps_inv with s.
Qed.

End PlainMutex.

(** ** The recursive mutex *)

Record ps_rec_mutex_t := mkRec { rlock_thread : option tid; lock_times : Z; rspinlock : Z }.

Section RecMutex.
Context (L : Spinlock).

Definition ps_init_rec_mutex : ps_rec_mutex_t := mkRec None 0 HAL_SPINLOCK_UNLOCKED.

(** The pieces of [ps_lock_rec_mutex]: the attempt on the spinlock, the two
    assignments after success, and the test of the owner after failure. *)
Definition rec_cas : M ps_rec_mutex_t bool := fun m =>
  let '(ok, v) := hal_try_lock_spinlock (rspinlock m) in
  Ok (ok, mkRec (rlock_thread m) (lock_times m) v).

Definition rec_set_owner (t : option tid) : M ps_rec_mutex_t unit := fun m =>
  Ok (tt, mkRec t (lock_times m) (rspinlock m)).

Definition rec_inc : M ps_rec_mutex_t unit := fun m =>
  Ok (tt, mkRec (rlock_thread m) (w64 (lock_times m + 1)) (rspinlock m)).

Definition rec_is_owner (cur : tid) : M ps_rec_mutex_t bool := fun m =>
  Ok (bool_decide (rlock_thread m = Some cur), m).

(** One round of the loop of [ps_lock_rec_mutex]. *)
Definition rec_attempt (cur : tid) (_ : unit) : M ps_rec_mutex_t (unit + unit) :=
  ok <- rec_cas;
  if (ok : bool) then rec_set_owner (Some cur);; rec_inc;; ret (inr tt)
  else
    mine <- rec_is_owner cur;
    if negb mine then ret (inl tt) else rec_inc;; ret (inr tt).

Definition ps_lock_rec_mutex (n : nat) (cur : tid) : M ps_rec_mutex_t unit :=
  loop n (rec_attempt cur) tt.

(** [ps_try_lock_rec_mutex] *)
Definition ps_try_lock_rec_mutex (cur : tid) : M ps_rec_mutex_t bool :=
  ok <- rec_cas;
  if (ok : bool) then rec_set_owner (Some cur);; rec_inc;; ret true
  else
    mine <- rec_is_owner cur;
    if negb mine then ret false else ret true.

(** [ps_unlock_rec_mutex]: the checks and the decrement, then the release *)
Definition rec_dec (cur : tid) : M ps_rec_mutex_t bool := fun m =>
  (kd_assert (bool_decide (rlock_thread m = Some cur));;
   kd_assert (negb (lock_times m =? 0));;
   (fun m => let n := w64 (lock_times m - 1) in
             Ok (n =? 0, mkRec (rlock_thread m) n (rspinlock m)))) m.

Definition rec_release : M ps_rec_mutex_t unit := fun m =>
  Ok (tt, mkRec (rlock_thread m) (lock_times m) (hal_unlock_spinlock (rspinlock m))).

Definition ps_unlock_rec_mutex (cur : tid) : M ps_rec_mutex_t unit :=
  last <- rec_dec cur;
  if (last : bool) then rec_set_owner None;; rec_release else ret tt.

Definition ps_get_rec_mutex_lock_times (cur : tid) : M ps_rec_mutex_t Z := fun m =>
  (kd_assert (rspinlock m =? HAL_SPINLOCK_LOCKED);;
   kd_assert (bool_decide (rlock_thread m = Some cur));;
   ret (lock_times m)) m.

(** *** Threads running interleaved

    A thread that holds the mutex [d] times is between calls ([RIn d]), in
    the lock call before the attempt, after a failed attempt, or about to
    count a re-entry; or it runs through the first acquisition or the final
    release. *)
Inductive rpc :=
  | RIn (d : nat) | RCall (d : nat) | RFail (d : nat) | RAgain (d : nat)
  | RGot | RSet | RRel1 | RRel2 | RCrashed.

Record rsys := mkRSys { rmtx : ps_rec_mutex_t; rpcs : tid -> rpc }.

Definition set_rpc (t : tid) (p : rpc) (f : tid -> rpc) : tid -> rpc :=
  fun u => if bool_decide (u = t) then p else f u.

(** Running one atomic piece on behalf of a thread. *)
Definition rrun {A} (t : tid) (s : rsys) (m : M ps_rec_mutex_t A) (k : A -> rpc) : rsys :=
  match m (rmtx s) with
  | Ok (a, m') => mkRSys m' (set_rpc t (k a) (rpcs s))
  | _ => mkRSys (rmtx s) (set_rpc t RCrashed (rpcs s))
  end.

Inductive rstep (s : rsys) : rsys -> Prop :=
  | r_call t d : rpcs s t = RIn d -> Z.of_nat d < 2 ^ 64 - 1 ->
      rstep s (mkRSys (rmtx s) (set_rpc t (RCall d) (rpcs s)))
  | r_cas t d : rpcs s t = RCall d ->
      rstep s (rrun t s rec_cas (fun ok => if ok : bool then RGot else RFail d))
  | r_set t : rpcs s t = RGot -> rstep s (rrun t s (rec_set_owner (Some t)) (fun _ => RSet))
  | r_count t : rpcs s t = RSet -> rstep s (rrun t s rec_inc (fun _ => RIn 1))
  | r_test t d : rpcs s t = RFail d ->
      rstep s (rrun t s (rec_is_owner t) (fun mine => if mine : bool then RAgain d else RCall d))
  | r_again t d : rpcs s t = RAgain d -> rstep s (rrun t s rec_inc (fun _ => RIn (S d)))
  | r_unlock t d : rpcs s t = RIn (S d) ->
      rstep s (rrun t s (rec_dec t) (fun last => if last : bool then RRel1 else RIn d))
  | r_rel1 t : rpcs s t = RRel1 -> rstep s (rrun t s (rec_set_owner None) (fun _ => RRel2))
  | r_rel2 t : rpcs s t = RRel2 -> rstep s (rrun t s rec_release (fun _ => RIn 0)).

Definition rsys_init : rsys := mkRSys ps_init_rec_mutex (fun _ => RIn 0).

(** Waiting or idle threads, and what the mutex looks like for its owner. *)
Definition outside (p : rpc) : Prop :=
  match p with RIn 0 | RCall 0 | RFail 0 => True | _ => False end.

Definition owned_by (t : tid) (p : rpc) (m : ps_rec_mutex_t) : Prop :=
  rspinlock m = HAL_SPINLOCK_LOCKED /\
  match p with
  | RIn (S d) => rlock_thread m = Some t /\ lock_times m = Z.of_nat (S d) /\ Z.of_nat (S d) < 2 ^ 64
  | RCall (S d) | RFail (S d) | RAgain (S d) =>
      rlock_thread m = Some t /\ lock_times m = Z.of_nat (S d) /\ Z.of_nat (S d) < 2 ^ 64 - 1
  | RGot | RRel2 => rlock_thread m = None /\ lock_times m = 0
  | RSet | RRel1 => rlock_thread m = Some t /\ lock_times m = 0
  | _ => False
  end.

Definition rsys_inv (s : rsys) : Prop :=
  (rmtx s = ps_init_rec_mutex /\ forall u, outside (rpcs s u)) \/
  (exists t, owned_by t (rpcs s t) (rmtx s) /\ forall u, u <> t -> outside (rpcs s u)).

Lemma set_rpc_eq t p f : set_rpc t p f t = p.
Proof. unfold set_rpc. by rewrite bool_decide_true. Qed.

Lemma set_rpc_ne t p f u : u <> t -> set_rpc t p f u = f u.
Proof. intros. unfold set_rpc. by rewrite bool_decide_false. Qed.

Context `{!SpinlockLaws L}.

(** A step by a thread outside, and a step by the owner. *)
Lemma inv_outside (s : rsys) t p m :
  rsys_inv s -> outside (rpcs s t) -> outside p -> m = rmtx s ->
  rsys_inv (mkRSys m (set_rpc t p (rpcs s))).
Proof.
  intros [[Hm Ho]|(o & Hown & Ho)] Ht Hp ->.
  - left. split; [done |]. intros u. simpl. destruct (decide (u = t)) as [->|];
      [by rewrite set_rpc_eq | by rewrite set_rpc_ne].
  - right. exists o. simpl. assert (o <> t).
    { intros ->. unfold owned_by in Hown. destruct (rpcs s t) as [[]|[]|[]|[]| | | | |]; naive_solver. }
    rewrite set_rpc_ne //. split; [done |]. intros u Hu.
    destruct (decide (u = t)) as [->|]; [by rewrite set_rpc_eq | rewrite set_rpc_ne; auto].
Qed.

Lemma inv_owner (s : rsys) t p m :
  (forall u, u <> t -> outside (rpcs s u)) -> owned_by t p m ->
  rsys_inv (mkRSys m (set_rpc t p (rpcs s))).
Proof.
  intros Ho Hp. right. exists t. simpl. rewrite set_rpc_eq. split; [done |].
  intros u Hu. rewrite set_rpc_ne; auto.
Qed.

(** Who the stepping thread is. *)
Lemma inv_cases s t : rsys_inv s ->
  (outside (rpcs s t) /\ rsys_inv s) \/
  (owned_by t (rpcs s t) (rmtx s) /\ forall u, u <> t -> outside (rpcs s u)).
Proof.
  intros Hi. destruct Hi as [[Hm Ho]|(o & Hown & Ho)].
  - left. split; [done | by left].
  - destruct (decide (t = o)) as [->|Hne]; [by right |]. left. split; [auto | right; eauto].
Qed.

Lemma w64_nat_succ d : Z.of_nat d < 2 ^ 64 - 1 -> w64 (Z.of_nat d + 1) = Z.of_nat (S d).
Proof. intros. rewrite w64_small; [unfold in64; lia | lia]. Qed.

Lemma w64_nat_pred d : Z.of_nat (S d) < 2 ^ 64 -> w64 (Z.of_nat (S d) - 1) = Z.of_nat d.
Proof. intros. rewrite w64_small; [unfold in64; lia | lia]. Qed.

(** The owner's view of each piece. *)
Lemma rec_cas_owned t p m : owned_by t p m -> rec_cas m = Ok (false, m).
Proof. intros [Hs _]. unfold rec_cas. rewrite Hs sl_try_held -Hs. by destruct m. Qed.

Lemma rstep_keeps_inv s s' : rsys_inv s -> rstep s s' -> rsys_inv s'.
Proof.
  intros Hi Hstep. destruct Hstep as [t d Ht Hd|t d Ht|t Ht|t Ht|t d Ht|t d Ht|t d Ht|t Ht|t Ht];
    (destruct (inv_cases s t Hi) as [[Hout _]|[Hown Hoth]]; rewrite Ht in Hout Hown || rewrite Ht in Hout || rewrite Ht in Hown);
    try (by destruct d); try done; unfold rrun.
  - apply inv_outside; [done | by rewrite Ht | by destruct d | done].
  - apply inv_owner; [done |]. destruct d; [by destruct Hown as [_ []] |].
    destruct Hown as (? & ? & ? & _). split_and!; auto.
  - destruct d; [| done]. destruct Hi as [[Hm Ho]|(o & Hown & Ho)].
    + rewrite Hm. unfold rec_cas; simpl. rewrite sl_try_free. simpl.
      apply inv_owner; [auto | done].
    + rewrite (rec_cas_owned _ _ _ Hown). apply inv_outside; [right; eauto | by rewrite Ht | done | done].
  - rewrite (rec_cas_owned _ _ _ Hown). apply inv_owner; [done |].
    by destruct d; [destruct Hown as [_ []] |].
  - simpl. apply inv_owner; [done |]. by destruct Hown as (? & ? & ?).
  - simpl. apply inv_owner; [done |]. destruct Hown as (? & ? & Hz). simpl. rewrite Hz. split_and!; [done | done | done | lia].
  - destruct d; [| done]. simpl. rewrite bool_decide_false.
    { destruct Hi as [[Hm _]|(o & Hown & Ho)]; [by rewrite Hm |].
      destruct (decide (t = o)) as [->|Hne]; [rewrite Ht in Hown; by destruct Hown as [_ []] |].
      destruct Hown as [_ Hown]. destruct (rpcs s o) as [[]|[]|[]|[]| | | | |]; naive_solver. }
    apply inv_outside; [done | by rewrite Ht | done | done].
  - simpl. destruct d as [|d]; [by destruct Hown as [_ []] |]. destruct Hown as (? & Hl & ? & ?).
    rewrite Hl bool_decide_true //. apply inv_owner; [done |]. by split_and!.
  - simpl. destruct d as [|d]; [by destruct Hown as [_ []] |]. destruct Hown as (? & Hl & Hn & ?).
    apply inv_owner; [done |]. unfold owned_by. cbn [rspinlock rlock_thread lock_times]. rewrite Hn w64_nat_succ //.
    split_and!; [done | done | done | lia].
  - unfold rec_dec. destruct Hown as (? & Hl & Hn & Hb). rewrite Hl bool_decide_true // Hn. simpl kd_assert.
    rewrite bind_assert. destruct (Z.eqb_spec (Z.of_nat (S d)) 0); [lia |]. simpl negb. rewrite bind_assert.
    cbn [lock_times]. rewrite Hn w64_nat_pred //. destruct (Z.eqb_spec (Z.of_nat d) 0) as [Hz|Hz].
    + apply inv_owner; [done |]. by split_and!.
    + apply inv_owner; [done |]. destruct d; [done |]. split_and!; try done; lia.
  - simpl. apply inv_owner; [done |]. by destruct Hown as (? & ? & ?).
  - simpl. destruct Hown as (Hs & Hl & Hn). rewrite Hs sl_unlock Hl Hn. left. split; [done |].
    intros u. simpl. destruct (decide (u = t)) as [->|]; [by rewrite set_rpc_eq | rewrite set_rpc_ne; auto].
Qed.

Lemma rinit_inv : rsys_inv rsys_init.
Proof. left. by split. Qed.

Lemma rreachable_inv s : rtc rstep rsys_init s -> rsys_inv s.
Proof.
  intros H. assert (Hi : rsys_inv rsys_init) by apply rinit_inv. revert Hi.
  induction H as [s|s s1 s' H1 _ IH]; intros Hi; [done |]. apply IH. by apply rstep_keeps_inv with s.
Qed.

End RecMutex.

(** ** The reader-writer mutex

    Its spinlock and owner fields are never used; [is_writing] is not set by
    [ps_init_rw_mutex], so the initial value is an argument. *)

Record ps_rw_mutex_t := mkRw { read_count : Z; is_writing : Z }.

Definition ps_init_rw_mutex (garbage : Z) : ps_rw_mutex_t := mkRw 0 garbage.

(** [ps_read_lock_rw_mutex]: the test, then the increment *)
Definition rw_no_writer : M ps_rw_mutex_t bool := fun m =>
  let '(old, w) := cmpxchg (is_writing m) 0 0 in Ok (old =? 0, mkRw (read_count m) w).

Definition rw_inc_readers : M ps_rw_mutex_t unit := fun m =>
  Ok (tt, mkRw (w64 (read_count m + 1)) (is_writing m)).

Definition ps_read_lock_rw_mutex (n : nat) : M ps_rw_mutex_t unit :=
  loop n (fun _ : unit => ok <- rw_no_writer; ret (if ok : bool then inr tt else inl tt)) tt;;
  rw_inc_readers.

(** [ps_write_lock_rw_mutex]: the exchange with its check, then the wait *)
Definition rw_claim : M ps_rw_mutex_t unit := fun m =>
  if is_writing m =? 1 then Panic else Ok (tt, mkRw (read_count m) 1).

Definition rw_no_readers : M ps_rw_mutex_t bool := fun m =>
  let '(old, r) := cmpxchg (read_count m) 0 0 in Ok (old =? 0, mkRw r (is_writing m)).

Definition ps_write_lock_rw_mutex (n : nat) : M ps_rw_mutex_t unit :=
  rw_claim;;
  loop n (fun _ : unit => ok <- rw_no_readers; ret (if ok : bool then inr tt else inl tt)) tt.

Definition ps_read_unlock_rw_mutex : M ps_rw_mutex_t unit := fun m =>
  Ok (tt, mkRw (w64 (read_count m - 1)) (is_writing m)).

Definition ps_write_unlock_rw_mutex : M ps_rw_mutex_t unit := fun m =>
  if is_writing m =? 0 then Panic else Ok (tt, mkRw (read_count m) 0).

(** Readers and writers running interleaved, one atomic piece at a time. *)
Inductive wpc := WIdle | WReadTest | WReadInc | WReading | WClaim | WWait | WWriting | WCrashed.

Record wsys := mkWSys { wmtx : ps_rw_mutex_t; wpcs : tid -> wpc }.

Definition set_wpc (t : tid) (p : wpc) (f : tid -> wpc) : tid -> wpc :=
  fun u => if bool_decide (u = t) then p else f u.

Definition wrun {A} (t : tid) (s : wsys) (m : M ps_rw_mutex_t A) (k : A -> wpc) : wsys :=
  match m (wmtx s) with
  | Ok (a, m') => mkWSys m' (set_wpc t (k a) (wpcs s))
  | _ => mkWSys (wmtx s) (set_wpc t WCrashed (wpcs s))
  end.

Inductive wstep (s : wsys) : wsys -> Prop :=
  | w_read t : wpcs s t = WIdle -> wstep s (mkWSys (wmtx s) (set_wpc t WReadTest (wpcs s)))
  | w_test t : wpcs s t = WReadTest ->
      wstep s (wrun t s rw_no_writer (fun ok => if ok : bool then WReadInc else WReadTest))
  | w_inc t : wpcs s t = WReadInc -> wstep s (wrun t s rw_inc_readers (fun _ => WReading))
  | w_runlock t : wpcs s t = WReading -> wstep s (wrun t s ps_read_unlock_rw_mutex (fun _ => WIdle))
  | w_write t : wpcs s t = WIdle -> wstep s (mkWSys (wmtx s) (set_wpc t WClaim (wpcs s)))
  | w_claim t : wpcs s t = WClaim -> wstep s (wrun t s rw_claim (fun _ => WWait))
  | w_wait t : wpcs s t = WWait ->
      wstep s (wrun t s rw_no_readers (fun ok => if ok : bool then WWriting else WWait))
  | w_wunlock t : wpcs s t = WWriting -> wstep s (wrun t s ps_write_unlock_rw_mutex (fun _ => WIdle)).

Definition wsys_init : wsys := mkWSys (ps_init_rw_mutex 0) (fun _ => WIdle).

(** ** Theorems *)


(** Two threads race; the first is inside while the second keeps trying. *)
Definition demo_race : sys :=
  thread_step lawful 2%positive (thread_step lawful 1%positive (thread_step lawful 2%positive
    (thread_step lawful 1%positive (thread_step lawful 1%positive (sys_init lawful))))).


(** How often a thread holds the recursive mutex between two of its calls. *)
Definition depth (p : rpc) : nat := match p with RIn d => d | _ => O end.





(** [ps_try_lock_rec_mutex] on a mutex the caller already holds reports
    success without counting, so that one unlock after a lock and a successful
    try-lock gives the mutex away: another thread can take it at once. *)
Theorem try_lock_rec_not_counted n k t u : t <> u ->
  exists m, (ps_lock_rec_mutex lawful (S n) t;;
    ok <- ps_try_lock_rec_mutex lawful t;
    kd_assert ok;;
    ps_unlock_rec_mutex lawful t;;
    ps_lock_rec_mutex lawful (S k) u) (ps_init_rec_mutex lawful) = Ok (tt, m) /\
    rlock_thread m = Some u.
Proof.
  intros Htu. exists (mkRec (Some u) 1 1). split; [| done].
  assert (E1 : forall n t, ps_lock_rec_mutex lawful (S n) t (ps_init_rec_mutex lawful)
    = Ok (tt, mkRec (Some t) 1 1)) by done.
  assert (E2 : ps_try_lock_rec_mutex lawful t (mkRec (Some t) 1 1) = Ok (true, mkRec (Some t) 1 1)).
  { unfold ps_try_lock_rec_mutex, rec_is_owner, bind. simpl. by rewrite bool_decide_true. }
  assert (E3 : ps_unlock_rec_mutex lawful t (mkRec (Some t) 1 1) = Ok (tt, ps_init_rec_mutex lawful)).
  { unfold ps_unlock_rec_mutex, rec_dec, bind. simpl. by rewrite bool_decide_true. }
  rewrite (bind_ok _ _ _ _ _ (E1 n t)) (bind_ok _ _ _ _ _ E2) bind_assert (bind_ok _ _ _ _ _ E3).
  apply E1.
Qed.

Lemma try_lock_rec_not_counted_witness : exists m,
  (ps_lock_rec_mutex lawful 1 1%positive;;
    ok <- ps_try_lock_rec_mutex lawful 1%positive;
    kd_assert ok;;
    ps_unlock_rec_mutex lawful 1%positive;;
    ps_lock_rec_mutex lawful 1 2%positive) (ps_init_rec_mutex lawful) = Ok (tt, m) /\
    rlock_thread m = Some 2%positive.
Proof. apply (try_lock_rec_not_counted 0 0 1%positive 2%positive). discriminate. Defined.

(** The reader-writer mutex does not exclude: a reader that passed the
    test of [is_writing] before a writer claimed the mutex increments the
    count after the writer saw it at zero, and both are inside. *)
Theorem rw_mutex_race : exists s, rtc wstep wsys_init s /\
  wpcs s 1%positive = WReading /\ wpcs s 2%positive = WWriting.
Proof.
  eexists. split.
  - eapply rtc_l; [apply (w_read _ 1%positive); reflexivity |].
    eapply rtc_l; [apply (w_test _ 1%positive); reflexivity |].
    eapply rtc_l; [apply (w_write _ 2%positive); reflexivity |].
    eapply rtc_l; [apply (w_claim _ 2%positive); reflexivity |].
    eapply rtc_l; [apply (w_wait _ 2%positive); reflexivity |].
    eapply rtc_l; [apply (w_inc _ 1%positive); reflexivity |]. apply rtc_refl.
  - by split; vm_compute.
Qed.

End Mutex.
