(* ===== verification/Vmr.v ===== *)
(** * Virtual memory areas of a context

    kernel/mm/misc.cc: the areas (VMRs) a context has mapped in user space,
    and the operations that reserve, merge, split, re-protect, probe and lock
    them.  The VMR tree is an ordered map from start address to area
    ([OMap]).  The page tables ([kh_mmap] and its kin) and the pool the VMR nodes come from are
    reached through an interface, [Backend].  A lock is represented by its
    state: [vmr_mutex] by its depth, [ki_kernel_mmap_mutex] and the area
    mutexes by whether they are held; locking a held plain mutex does not
    return, unlocking a free one fails the check of [ps_unlock_mutex]. *)

From S2P Require Import Prelude OMap MemConf.
Import MemConf.

Module Vmr.

(** The platform layer and the VMR pool, on a state of their own. *)
Class Backend (H : Type) := {
  kh_mmap : Z -> Z -> Z -> Z -> Z -> M H km_result_t;
  kh_unmmap : Z -> Z -> Z -> M H unit;
  kh_set_page_access : Z -> Z -> Z -> M H unit;
  kh_vmalloc : Z -> Z -> Z -> Z -> Z -> M H Z;
  kh_kvmalloc : Z -> Z -> Z -> M H Z;
  kh_getmap : Z -> M H (Z * Z);
  kima_alloc_vmr : M H bool;
  kima_free_vmr : M H unit
}.

(** They return: no panic, no fault, no endless loop. *)
Class BackendTotal (H : Type) `{Backend H} : Prop := {
  mmap_total v p n a f h : exists r h', kh_mmap v p n a f h = Ok (r, h');
  unmmap_total v n f h : exists h', kh_unmmap v n f h = Ok (tt, h');
  access_total v n a h : exists h', kh_set_page_access v n a h = Ok (tt, h');
  alloc_total h : exists b h', kima_alloc_vmr h = Ok (b, h');
  free_total h : exists h', kima_free_vmr h = Ok (tt, h')
}.

(** [mm_vmr_t]; its [rb_value], the start address, is the key. *)
Record mm_vmr_t := mkVmr { size : Z; access : Z; mutex : bool }.

(** [mm_context_t] with the global mutex. *)
Record vm_st (H : Type) := mkVm {
  vmr_tree : gmap Z mm_vmr_t;
  vmr_mutex : Z;
  ki_kernel_mmap_mutex : bool;
  hw : H
}.
Arguments mkVm {H}.
Arguments vmr_tree {H}.
Arguments vmr_mutex {H}.
Arguments ki_kernel_mmap_mutex {H}.
Arguments hw {H}.

Section Ops.
Context {H : Type} `{Backend H}.

Abbreviation VM := (M (vm_st H)).

Definition lift {A} (m : M H A) : VM A := fun s =>
  match m (hw s) with
  | Ok (a, h) => Ok (a, mkVm (vmr_tree s) (vmr_mutex s) (ki_kernel_mmap_mutex s) h)
  | Panic => Panic
  | Fault => Fault
  | NoFuel => NoFuel
  end.

Definition get_tree : VM (gmap Z mm_vmr_t) := fun s => Ok (vmr_tree s, s).
Definition set_tree (t : gmap Z mm_vmr_t) : VM unit := fun s =>
  Ok (tt, mkVm t (vmr_mutex s) (ki_kernel_mmap_mutex s) (hw s)).

(** [ki_mm_lock_vmr], [ki_mm_unlock_vmr] *)
Definition ki_mm_lock_vmr : VM unit := fun s =>
  Ok (tt, mkVm (vmr_tree s) (vmr_mutex s + 1) (ki_kernel_mmap_mutex s) (hw s)).
Definition ki_mm_unlock_vmr : VM unit := fun s =>
  if vmr_mutex s =? 0 then Panic
  else Ok (tt, mkVm (vmr_tree s) (vmr_mutex s - 1) (ki_kernel_mmap_mutex s) (hw s)).

Definition lock_kernel_mmap : VM unit := fun s =>
  if ki_kernel_mmap_mutex s then NoFuel
  else Ok (tt, mkVm (vmr_tree s) (vmr_mutex s) true (hw s)).
Definition unlock_kernel_mmap : VM unit := fun s =>
  if ki_kernel_mmap_mutex s
  then Ok (tt, mkVm (vmr_tree s) (vmr_mutex s) false (hw s)) else Panic.

(** [ki_mm_lock_area], [ki_mm_unlock_area] *)
Definition set_area_lock (k : Z) (v : bool) : VM unit := fun s =>
  match vmr_tree s !! k with
  | None => Fault
  | Some a => Ok (tt, mkVm (<[k := mkVmr (size a) (access a) v]> (vmr_tree s))
                        (vmr_mutex s) (ki_kernel_mmap_mutex s) (hw s))
  end.
Definition ki_mm_lock_area (k : Z) : VM unit := fun s =>
  match vmr_tree s !! k with
  | None => Fault
  | Some a => if mutex a then NoFuel else set_area_lock k true s
  end.
Definition ki_mm_unlock_area (k : Z) : VM unit := fun s =>
  match vmr_tree s !! k with
  | None => Fault
  | Some a => if mutex a then set_area_lock k false s else Panic
  end.

(** A scope that holds [vmr_mutex] (the [Deferred] unlock of the callers). *)
Definition with_vmr_lock {A} (m : VM A) : VM A :=
  ki_mm_lock_vmr;;
  a <- m;
  ki_mm_unlock_vmr;;
  ret a.

(** [vmr_tree.insert_unwrap] *)
Definition insert_unwrap (k : Z) (v : mm_vmr_t) : VM unit :=
  t <- get_tree;
  match t !! k with
  | Some _ => panic
  | None => set_tree (<[k := v]> t)
  end.

(** The part of [mm_mmap] that reserves the area, under the lock: [None] to go
    on, or the result to return. *)
Definition mmap_reserve (vaddr aligned_vaddr vaddr_limit size0 acc : Z)
    : VM (option km_result_t) :=
  t <- get_tree;
  let vmr_begin := OMap.max_lteq aligned_vaddr t in
  let vmr_end := OMap.max_lteq vaddr_limit t in
  let reaches v (limit : Z) :=
    match v with
    | Some (k, a) => limit <=? w64 (k + w64 (size a - 1))
    | None => false
    end in
  if negb (bool_decide (t = ∅)) && (reaches vmr_begin aligned_vaddr || reaches vmr_end vaddr_limit)
  then ret (Some KM_RESULT_INVALID_ARGS)
  else
    ok <- lift kima_alloc_vmr;
    if negb ok then ret (Some KM_RESULT_NO_MEM)
    else
      insert_unwrap vaddr (mkVmr size0 acc false);;
      ret None.

(** [remove_vmr_guard] *)
Definition remove_vmr_guard (aligned_vaddr : Z) : VM unit :=
  t <- get_tree;
  match t !! aligned_vaddr with
  | Some _ => set_tree (delete aligned_vaddr t)
  | None => ret tt
  end.

(** [mm_mmap] *)
Definition mm_mmap (ctxt : ptr) (vaddr paddr size0 acc flags : Z) : VM km_result_t :=
  if negb (nonnull ctxt) then ret KM_RESULT_INVALID_ARGS else
  if size0 =? 0 then ret KM_RESULT_INVALID_ARGS else
  let aligned_vaddr := PGFLOOR vaddr in
  let aligned_paddr := PGFLOOR paddr in
  let aligned_size := PGCEIL size0 in
  let vaddr_limit := w64 (aligned_vaddr + (size0 - 1)) in
  let is_user_space := mm_is_user_space aligned_vaddr in
  if UINTPTR_MAX - aligned_vaddr <? aligned_size then ret KM_RESULT_INVALID_ARGS else
  if negb (Bool.eqb is_user_space (mm_is_user_space vaddr_limit)) then ret KM_RESULT_INVALID_ARGS else
  if negb is_user_space && has acc MM_PAGE_USER then ret KM_RESULT_INVALID_ARGS else
  let tracked := negb (has flags MMAP_IGNORE_VMR) && is_user_space in
  early <- (if tracked
            then with_vmr_lock (mmap_reserve vaddr aligned_vaddr vaddr_limit size0 acc)
            else ret None);
  match early with
  | Some r => remove_vmr_guard aligned_vaddr;; ret r
  | None =>
      (if is_user_space then ret tt else lock_kernel_mmap);;
      r <- lift (kh_mmap aligned_vaddr aligned_paddr aligned_size acc flags);
      (if is_user_space then ret tt else unlock_kernel_mmap);;
      when (tracked && KM_FAILED r) (remove_vmr_guard aligned_vaddr);;
      ret r
  end.

(** [mm_unmmap]: the lookup under the lock gives the size to unmap, or the
    result to return. *)
Definition unmmap_lookup (vaddr size0 : Z) : VM (km_result_t + Z) :=
  t <- get_tree;
  match t !! vaddr with
  | None => ret (inl KM_RESULT_INVALID_ARGS)
  | Some v =>
      if negb (size0 =? 0) then ret (inl KM_RESULT_INVALID_ARGS)
      else
        set_tree (delete vaddr t);;
        lift kima_free_vmr;;
        ret (inr (PGCEIL (size v)))
  end.

Definition mm_unmmap (ctxt : ptr) (vaddr size0 flags : Z) : VM km_result_t :=
  if negb (nonnull ctxt) then ret KM_RESULT_INVALID_ARGS else
  if size0 =? 0 then ret KM_RESULT_INVALID_ARGS else
  let aligned_vaddr := PGFLOOR vaddr in
  let aligned_size := PGCEIL size0 in
  let vaddr_limit := w64 (aligned_vaddr + (size0 - 1)) in
  let is_user_space := mm_is_user_space aligned_vaddr in
  if UINTPTR_MAX - aligned_vaddr <? aligned_size then ret KM_RESULT_INVALID_ARGS else
  if negb (Bool.eqb is_user_space (mm_is_user_space vaddr_limit)) then ret KM_RESULT_INVALID_ARGS else
  found <- (if negb (has flags MMAP_IGNORE_VMR) && is_user_space
            then with_vmr_lock (unmmap_lookup vaddr size0)
            else ret (inr aligned_size));
  match found with
  | inl r => ret r
  | inr n =>
      (if is_user_space then ret tt else lock_kernel_mmap);;
      lift (kh_unmmap aligned_vaddr n flags);;
      (if is_user_space then ret tt else unlock_kernel_mmap);;
      ret KM_RESULT_OK
  end.

(** [mm_merge_mapped_area] *)
Definition mm_merge_mapped_area (vaddr_a vaddr_b : Z) : VM km_result_t :=
  if vaddr_b <=? vaddr_a then ret KM_RESULT_INVALID_ARGS else
  with_vmr_lock (
    t <- get_tree;
    match t !! vaddr_a with
    | None => ret KM_RESULT_INVALID_ARGS
    | Some a =>
        match t !! vaddr_b with
        | None => ret KM_RESULT_INVALID_ARGS
        | Some b =>
            if negb (w64 (vaddr_a + size a) =? vaddr_b) then ret KM_RESULT_INVALID_ARGS
            else
              set_tree (delete vaddr_b
                (<[vaddr_a := mkVmr (w64 (size a + size b)) (access a) (mutex a)]> t));;
              lift kima_free_vmr;;
              ret KM_RESULT_OK
        end
    end).

(** [mm_split_mapped_area] *)
Definition mm_split_mapped_area (area_vaddr split_point : Z) : VM km_result_t :=
  if split_point <=? area_vaddr then ret KM_RESULT_INVALID_ARGS else
  with_vmr_lock (
    t <- get_tree;
    match t !! area_vaddr with
    | None => ret KM_RESULT_INVALID_ARGS
    | Some v =>
        if w64 (area_vaddr + size v) <=? split_point then ret KM_RESULT_INVALID_ARGS
        else
          ok <- lift kima_alloc_vmr;
          if negb ok then ret KM_RESULT_NO_MEM
          else
            insert_unwrap split_point
              (mkVmr (w64 (w64 (area_vaddr + size v) - split_point)) (access v) false);;
            t <- get_tree;
            set_tree (<[area_vaddr := mkVmr (w64 (split_point - area_vaddr)) (access v) (mutex v)]> t);;
            ret KM_RESULT_OK
    end).

(** [mm_set_page_access] *)
Definition mm_set_page_access (ctxt : ptr) (vaddr size0 acc : Z) : VM km_result_t :=
  if negb (nonnull ctxt) then ret KM_RESULT_INVALID_ARGS else
  if size0 =? 0 then ret KM_RESULT_INVALID_ARGS else
  let aligned_vaddr := PGFLOOR vaddr in
  let vaddr_limit := w64 (aligned_vaddr + (size0 - 1)) in
  let is_user_space := mm_is_user_space aligned_vaddr in
  if negb (Bool.eqb is_user_space (mm_is_user_space vaddr_limit)) then ret KM_RESULT_INVALID_ARGS else
  early <- (if is_user_space then
    with_vmr_lock (
      t <- get_tree;
      match t !! vaddr with
      | None => ret (Some KM_RESULT_INVALID_ARGS)
      | Some v =>
          if negb (size v =? size0) then ret (Some KM_RESULT_INVALID_ARGS)
          else
            set_tree (<[vaddr := mkVmr (size v) acc (mutex v)]> t);;
            ret None
      end)
    else ret None);
  match early with
  | Some r => ret r
  | None => lift (kh_set_page_access vaddr size0 acc);; ret KM_RESULT_OK
  end.

(** [mm_vmalloc]: null is 0 *)
Definition mm_vmalloc (minaddr maxaddr size0 acc flags : Z) : VM Z :=
  let is_user_space := mm_is_user_space (PGFLOOR minaddr) in
  if negb (Bool.eqb is_user_space (mm_is_user_space (PGFLOOR maxaddr))) then ret 0 else
  (if is_user_space then ki_mm_lock_vmr else lock_kernel_mmap);;
  r <- lift (kh_vmalloc minaddr maxaddr size0 acc flags);
  (if is_user_space then ki_mm_unlock_vmr else unlock_kernel_mmap);;
  ret r.

(** ** Probing and locking *)

(** The access tests shared by the two halves of [mm_probe_and_lock_pages]. *)
Definition lacks (required pg_access bit : Z) : bool :=
  has required bit && negb (has pg_access bit).

Definition denied (required pg_access : Z) : bool :=
  lacks required pg_access MM_PAGE_READ || lacks required pg_access MM_PAGE_WRITE ||
  lacks required pg_access MM_PAGE_EXEC.

(** The loop over the pages of a kernel range, from offset [i]. *)
Fixpoint probe_kernel (n : nat) (p i total required : Z) : VM km_result_t :=
  match n with
  | O => fun _ => NoFuel
  | S n' =>
      if i <? total then
        '(_, pg_access) <- lift (kh_getmap (w64 (p + i)));
        if negb (has pg_access MM_PAGE_MAPPED) then ret KM_RESULT_ACCESS_VIOLATION
        else if lacks required pg_access MM_PAGE_USER then ret KM_RESULT_ACCESS_VIOLATION
        else if denied required pg_access then ret KM_RESULT_ACCESS_VIOLATION
        else probe_kernel n' p (i + PAGESIZE) total required
      else ret KM_RESULT_OK
  end.

(** [get_next(vmr, vmr_end)] and [get_prev(vmr, initial_vmr)] *)
Definition vmr_next (k vmr_end : Z) : VM (option Z) :=
  t <- get_tree;
  ret (if k =? vmr_end then None else fst <$> OMap.next k t).

Definition vmr_prev (k initial : Z) : VM (option Z) :=
  t <- get_tree;
  ret (if k =? initial then None else fst <$> OMap.prev k t).

(** One round of the area loop.  It leaves with the area at hand and [true]
    when the access is refused there, and with the last area otherwise. *)
Definition probe_round (required vmr_end : Z) (v : option Z * option Z)
    : VM ((option Z * option Z) + (option Z * option Z * bool)) :=
  let '(vmr, last_vmr) := v in
  match vmr with
  | None => ret (inr (None, last_vmr, false))
  | Some k =>
      ki_mm_lock_area k;;
      t <- get_tree;
      let gap := match last_vmr with
                 | Some lk => match t !! lk with
                              | Some lv => negb (w64 (lk + size lv) =? k)
                              | None => false
                              end
                 | None => false
                 end in
      if gap then ret (inr (Some k, last_vmr, true)) else
      match t !! k with
      | None => fault
      | Some a =>
          if denied required (access a) then ret (inr (Some k, Some k, true))
          else
            nx <- vmr_next k vmr_end;
            ret (inl (nx, Some k))
      end
  end.

(** [restore_guard]: the predecessor is taken of [vmr], not of [i]. *)
Definition restore_round (vmr initial : Z) (i : option Z) : VM (option Z + unit) :=
  match i with
  | None => ret (inr tt)
  | Some k =>
      ki_mm_unlock_area k;;
      pv <- vmr_prev vmr initial;
      ret (inl pv)
  end.

Definition restore_guard (vmr : option Z) (initial : Z) : VM unit :=
  match vmr with
  | None => ret tt
  | Some k =>
      t <- get_tree;
      loop (3 + stdpp.base.size t) (restore_round k initial) (Some k)
  end.

(** The user half of [mm_probe_and_lock_pages], under the VMR lock. *)
Definition probe_user (p limit required : Z) : VM km_result_t :=
  t <- get_tree;
  match OMap.max_lteq p t with
  | None => ret KM_RESULT_INVALID_ARGS
  | Some (initial, _) =>
      match OMap.max_lteq limit t with
      | None => panic
      | Some (vmr_end, _) =>
          '(vmr, last_vmr, refused) <-
            loop (2 + stdpp.base.size t) (probe_round required vmr_end) (Some initial, None);
          if (refused : bool) then
            restore_guard vmr initial;;
            ret KM_RESULT_ACCESS_VIOLATION
          else
            t <- get_tree;
            match last_vmr with
            | None => fault
            | Some lk =>
                match t !! lk with
                | None => fault
                | Some lv =>
                    if w64 (lk + size lv) <? limit then
                      restore_guard vmr initial;;
                      ret KM_RESULT_ACCESS_VIOLATION
                    else ret KM_RESULT_OK
                end
            end
      end
  end.

(** [mm_probe_and_lock_pages]; [garbage] is the uninitialised [pg_access] the
    kernel half tests first. *)
Definition mm_probe_and_lock_pages (garbage pt size0 required : Z) : VM km_result_t :=
  let p := PGFLOOR pt in
  if UINTPTR_MAX - p <? PGCEIL size0 then ret KM_RESULT_INVALID_ARGS else
  let limit := w64 (p + w64 (PGCEIL size0 - 1)) in
  let is_user_space := mm_is_user_space p in
  if negb (Bool.eqb is_user_space (mm_is_user_space limit)) then ret KM_RESULT_INVALID_ARGS else
  if negb is_user_space then
    if has garbage MM_PAGE_USER then ret KM_RESULT_ACCESS_VIOLATION
    else probe_kernel (S (Z.to_nat (PGCEIL size0 / PAGESIZE))) p 0 (PGCEIL size0) required
  else with_vmr_lock (probe_user pt limit required).

(** The area loop of [mm_unlock_pages]. *)
Definition unlock_round (vmr_end : Z) (v : option Z * option Z)
    : VM ((option Z * option Z) + option Z) :=
  let '(vmr, last_vmr) := v in
  match vmr with
  | None => ret (inr last_vmr)
  | Some k =>
      t <- get_tree;
      let gap := match last_vmr with
                 | Some lk => match t !! lk with
                              | Some lv => negb (w64 (lk + size lv) =? k)
                              | None => false
                              end
                 | None => false
                 end in
      if gap then panic else
      ki_mm_unlock_area k;;
      nx <- vmr_next k vmr_end;
      ret (inl (nx, Some k))
  end.

Definition unlock_user (p limit : Z) : VM km_result_t :=
  t <- get_tree;
  match OMap.max_lteq p t with
  | None => ret KM_RESULT_INVALID_ARGS
  | Some (initial, _) =>
      match OMap.max_lteq limit t with
      | None => panic
      | Some (vmr_end, _) =>
          last_vmr <- loop (2 + stdpp.base.size t) (unlock_round vmr_end) (Some initial, None);
          t <- get_tree;
          match last_vmr with
          | None => fault
          | Some lk =>
              match t !! lk with
              | None => fault
              | Some lv => if w64 (lk + size lv) <? limit then panic else ret KM_RESULT_OK
              end
          end
      end
  end.

(** The loop over the pages of a kernel range of [mm_unlock_pages], which only
    reads the mapping. *)
Fixpoint unlock_kernel (n : nat) (p i total : Z) : VM km_result_t :=
  match n with
  | O => fun _ => NoFuel
  | S n' =>
      if i <? total then lift (kh_getmap (w64 (p + i)));; unlock_kernel n' p (i + PAGESIZE) total
      else ret KM_RESULT_OK
  end.

(** [mm_unlock_pages] *)
Definition mm_unlock_pages (garbage pt size0 : Z) : VM km_result_t :=
  let p := PGFLOOR pt in
  if UINTPTR_MAX - p <? PGCEIL size0 then ret KM_RESULT_INVALID_ARGS else
  let limit := w64 (p + w64 (PGCEIL size0 - 1)) in
  let is_user_space := mm_is_user_space p in
  if negb (Bool.eqb is_user_space (mm_is_user_space limit)) then ret KM_RESULT_INVALID_ARGS else
  if negb is_user_space then
    if has garbage MM_PAGE_USER then ret KM_RESULT_ACCESS_VIOLATION
    else unlock_kernel (S (Z.to_nat (PGCEIL size0 / PAGESIZE))) p 0 (PGCEIL size0)
  else with_vmr_lock (unlock_user pt limit).

End Ops.

End Vmr.
