(* ===== verification/VmrTheorems.v ===== *)
(** * Theorems on virtual memory areas

    What the operations of [Vmr] do to the areas of a context: reserving,
    merging, splitting and re-protecting keep the areas disjoint, probing locks
    a contiguous accessible range, and every path leaves the locks of the
    context as it found them. *)

From S2P Require Import Prelude OMap MemConf Vmr.
Import MemConf Vmr.

Module VmrT.

(** ** Well-formed area trees *)

Record vinv (t : gmap Z mm_vmr_t) : Prop := {
  vi_range : forall k v, t !! k = Some v -> 0 <= k /\ 0 < size v /\ k + size v <= 2 ^ 47;
  vi_apart : forall k1 v1 k2 v2, t !! k1 = Some v1 -> t !! k2 = Some v2 -> k1 < k2 ->
    k1 + size v1 <= k2
}.

(** Address [a] lies in some area. *)
Definition covered (t : gmap Z mm_vmr_t) (a : Z) : Prop :=
  exists k v, t !! k = Some v /\ k <= a < k + size v.

(** The locks of a context are as before. *)
Definition same_locks {H} (s s' : vm_st H) : Prop :=
  vmr_mutex s' = vmr_mutex s /\ ki_kernel_mmap_mutex s' = ki_kernel_mmap_mutex s.

Lemma vinv_insert t k v :
  vinv t -> 0 <= k -> 0 < size v -> k + size v <= 2 ^ 47 ->
  (forall a, k <= a < k + size v -> ~ covered t a) -> vinv (<[k := v]> t).
Proof.
  intros [Hr Ha] Hk Hs Hb Hfree. split.
  - intros k' v'. rewrite lookup_insert_Some. intros [[<- <-]|[_ H]]; eauto.
  - intros k1 v1 k2 v2. rewrite !lookup_insert_Some.
    intros [[<- <-]|[_ H1]] [[<- <-]|[_ H2]] Hlt; [lia | | | eauto].
    + destruct (Z.lt_ge_cases k2 (k + size v)) as [Hc|]; [| done].
      exfalso. apply (Hfree k2); [lia |]. exists k2, v2. pose proof (Hr _ _ H2). split; [done | lia].
    + destruct (Z.lt_ge_cases k (k1 + size v1)) as [Hc|]; [| done].
      exfalso. apply (Hfree k); [lia |]. exists k1, v1. split; [done | lia].
Qed.

Lemma vinv_delete t k : vinv t -> vinv (delete k t).
Proof.
  intros [Hr Ha]. split.
  - intros k' v'. rewrite lookup_delete_Some. intros [_ ?]. eauto.
  - intros k1 v1 k2 v2. rewrite !lookup_delete_Some. intros [_ ?] [_ ?]. eauto.
Qed.

(** Changing what an area allows or whether it is locked. *)
Lemma vinv_update t k v v' :
  vinv t -> t !! k = Some v -> size v' = size v -> vinv (<[k := v']> t).
Proof.
  intros [Hr Ha] Hk Hs. split.
  - intros k' w. rewrite lookup_insert_Some. intros [[<- <-]|[_ H]]; [rewrite Hs |]; eauto.
  - intros k1 v1 k2 v2. rewrite !lookup_insert_Some.
    intros [[<- <-]|[_ H1]] [[<- <-]|[_ H2]] Hlt; rewrite ?Hs; eauto; lia.
Qed.

Lemma in64_user a : 0 <= a <= 2 ^ 47 -> in64 a.
Proof. unfold in64. lia. Qed.

Section Proofs.
Context {H : Type} `{Backend H} `{!BackendTotal H}.
Implicit Types s : vm_st H.

Lemma lift_ok {A B} (m : M H A) (k : A -> M (vm_st H) B) s a h :
  m (hw s) = Ok (a, h) ->
  bind (lift m) k s = k a (mkVm (vmr_tree s) (vmr_mutex s) (ki_kernel_mmap_mutex s) h).
Proof. intros E. apply bind_ok. unfold lift. by rewrite E. Qed.

Lemma with_lock_ok {A} (m : M (vm_st H) A) s a s' :
  0 <= vmr_mutex s ->
  m (mkVm (vmr_tree s) (vmr_mutex s + 1) (ki_kernel_mmap_mutex s) (hw s)) = Ok (a, s') ->
  vmr_mutex s' = vmr_mutex s + 1 ->
  with_vmr_lock m s
  = Ok (a, mkVm (vmr_tree s') (vmr_mutex s) (ki_kernel_mmap_mutex s') (hw s')).
Proof.
  intros Hpos E Hd. unfold with_vmr_lock. unfold ki_mm_lock_vmr at 1. unfold bind at 1.
  rewrite (bind_ok _ _ _ _ _ E). unfold ki_mm_unlock_vmr, bind. rewrite Hd.
  destruct (Z.eqb_spec (vmr_mutex s + 1) 0); [lia |]. by replace (vmr_mutex s + 1 - 1) with (vmr_mutex s) by lia.
Qed.

(** ** The arguments of a user-space request *)

Record user_range (vaddr n : Z) : Prop := {
  ur_pos : 0 < n;
  ur_lo : 0 <= vaddr;
  ur_hi : vaddr + n <= 2 ^ 47;
  ur_aligned : vaddr mod 4096 = 0
}.

Lemma user_range_checks vaddr n : user_range vaddr n ->
  PGFLOOR vaddr = vaddr /\ (n =? 0) = false /\
  (UINTPTR_MAX - vaddr <? PGCEIL n) = false /\
  w64 (vaddr + (n - 1)) = vaddr + (n - 1) /\
  mm_is_user_space vaddr = true /\ mm_is_user_space (vaddr + (n - 1)) = true.
Proof.
  intros [Hp Hl Hh Ha]. assert (in64 vaddr) by (unfold in64; lia).
  assert (Hc : PGCEIL n < n + 4096) by (apply PGCEIL_range; [unfold in64; lia | lia]).
  unfold UINTPTR_MAX, mm_is_user_space. split_and!.
  - by apply PGFLOOR_aligned.
  - lia.
  - lia.
  - apply w64_small. unfold in64. lia.
  - change 0x0000800000000000 with (2 ^ 47). lia.
  - change 0x0000800000000000 with (2 ^ 47). lia.
Qed.

Lemma area_last t k v : vinv t -> t !! k = Some v -> w64 (k + w64 (size v - 1)) = k + size v - 1.
Proof.
  intros Hv Hk. destruct (vi_range _ Hv _ _ Hk) as (? & ? & ?).
  rewrite (w64_small (size v - 1)); [unfold in64; lia |]. rewrite w64_small; [unfold in64; lia | lia].
Qed.

(** ** [mm_mmap] *)

Lemma reserve_free s vaddr n acc :
  vinv (vmr_tree s) -> user_range vaddr n ->
  (forall a, vaddr <= a < vaddr + n -> ~ covered (vmr_tree s) a) ->
  exists r s', mmap_reserve vaddr vaddr (vaddr + (n - 1)) n acc s = Ok (r, s') /\ same_locks s s' /\
    match r with
    | None => vmr_tree s' = <[vaddr := mkVmr n acc false]> (vmr_tree s) /\ kima_alloc_vmr (hw s) = Ok (true, hw s')
    | Some e => e = KM_RESULT_NO_MEM /\ vmr_tree s' = vmr_tree s /\ kima_alloc_vmr (hw s) = Ok (false, hw s')
    end.
Proof.
  intros Hv [Hp Hl Hh Ha] Hfree. unfold mmap_reserve, get_tree. unfold bind at 1.
  assert (Hno : forall lim, vaddr <= lim < vaddr + n ->
    match OMap.max_lteq lim (vmr_tree s) with
    | Some (k, a) => lim <=? w64 (k + w64 (size a - 1))
    | None => false
    end = false).
  { intros lim Hlim. destruct (OMap.max_lteq lim (vmr_tree s)) as [[k a]|] eqn:Hm; [| done].
    apply OMap.max_lteq_some in Hm as (Hk & Hle & _). rewrite (area_last _ _ _ Hv Hk).
    destruct (Z.leb_spec lim (k + size a - 1)); [| done]. exfalso.
    apply (Hfree lim Hlim). exists k, a. split; [done | lia]. }
  rewrite !Hno; [lia | lia |]. rewrite andb_false_r.
  destruct (alloc_total (hw s)) as (b & h & Eb). rewrite (lift_ok _ _ _ _ _ Eb).
  destruct b; simpl negb; cbn iota.
  - exists None, (mkVm (<[vaddr := mkVmr n acc false]> (vmr_tree s)) (vmr_mutex s) (ki_kernel_mmap_mutex s) h).
    split; [| done].
    + unfold insert_unwrap, get_tree, set_tree, bind, ret. simpl.
      destruct (vmr_tree s !! vaddr) as [v|] eqn:Hk; [| done]. exfalso.
      apply (Hfree vaddr); [lia |]. exists vaddr, v. destruct (vi_range _ Hv _ _ Hk) as (? & ? & ?).
      split; [done | lia].
  - eexists (Some _), _. by split.
Qed.

(** What a tracked request does below: a node for the area, then the page
    tables *)
Definition hw_mapped (h h' : H) (vaddr paddr n acc flags : Z) (r : km_result_t) : Prop :=
  (r = KM_RESULT_NO_MEM /\ kima_alloc_vmr h = Ok (false, h')) \/
  exists h0, kima_alloc_vmr h = Ok (true, h0) /\
    kh_mmap vaddr (PGFLOOR paddr) (PGCEIL n) acc flags h0 = Ok (r, h').

(** The tail of [mm_mmap] for a tracked user range that was reserved. *)
Lemma mmap_user s vaddr paddr n acc flags :
  0 <= vmr_mutex s -> vinv (vmr_tree s) -> user_range vaddr n -> has flags MMAP_IGNORE_VMR = false ->
  (forall a, vaddr <= a < vaddr + n -> ~ covered (vmr_tree s) a) ->
  exists r s', mm_mmap (Some 1%positive) vaddr paddr n acc flags s = Ok (r, s') /\ same_locks s s' /\
    hw_mapped (hw s) (hw s') vaddr paddr n acc flags r /\
    ((r = KM_RESULT_OK /\ vmr_tree s' = <[vaddr := mkVmr n acc false]> (vmr_tree s)) \/
     (r <> KM_RESULT_OK /\ vmr_tree s' = vmr_tree s)).
Proof.
  intros Hd Hv Hu Hf Hfree. pose proof (user_range_checks _ _ Hu) as (E1 & E2 & E3 & E4 & E5 & E6).
  assert (Hnone : vmr_tree s !! vaddr = None).
  { destruct (vmr_tree s !! vaddr) as [v|] eqn:Hk; [| done]. exfalso. destruct Hu.
    apply (Hfree vaddr); [lia |]. exists vaddr, v. destruct (vi_range _ Hv _ _ Hk) as (? & ? & ?). split; [done | lia]. }
  unfold mm_mmap. cbn [negb nonnull]. rewrite E2 E1 E3 E4 E5 E6 Hf. cbn [negb Bool.eqb andb].
  set (s0 := mkVm (vmr_tree s) (vmr_mutex s + 1) (ki_kernel_mmap_mutex s) (hw s)).
  destruct (reserve_free s0 vaddr n acc Hv Hu Hfree) as (r & s1 & Er & [Hl1 Hl2] & Hr).
  rewrite (bind_ok _ _ _ _ _ (with_lock_ok _ _ _ _ Hd Er Hl1)).
  destruct r as [e|].
  - destruct Hr as (-> & Hr & Ha). exists KM_RESULT_NO_MEM. eexists. split.
    + unfold remove_vmr_guard, get_tree, bind, ret. simpl. rewrite Hr. simpl. by rewrite Hnone.
    + split; [done |]. split; [by left | by right].
  - destruct Hr as [Hr Halloc]. rewrite bind_ret. destruct (mmap_total vaddr (PGFLOOR paddr) (PGCEIL n) acc flags (hw s1)) as (r & h & Em).
    rewrite (lift_ok _ _ (mkVm (vmr_tree s1) (vmr_mutex s) (ki_kernel_mmap_mutex s1) (hw s1)) r h Em) bind_ret. cbn [vmr_tree vmr_mutex ki_kernel_mmap_mutex].
    destruct (KM_FAILED r) eqn:Hfail; cbn [andb when].
    + exists r. eexists. split.
      * unfold remove_vmr_guard, get_tree, set_tree, bind, ret. simpl. rewrite Hr lookup_insert_eq. done.
      * split; [done |]. split; [by right; exists (hw s1) |].
        right. split; [by intros -> |]. simpl. by rewrite delete_insert_id.
    + rewrite bind_ret. eexists _, _. split; [done |]. split; [done |]. split; [by right; exists (hw s1) |].
      left. split; [by destruct r | done].
Qed.

(** A user range that starts where an area starts is refused, and the guard
    of [mm_mmap] takes that area out of the tree. *)
Lemma mmap_occupied s vaddr paddr n acc flags v :
  0 <= vmr_mutex s -> vinv (vmr_tree s) -> user_range vaddr n -> has flags MMAP_IGNORE_VMR = false ->
  vmr_tree s !! vaddr = Some v ->
  exists s', mm_mmap (Some 1%positive) vaddr paddr n acc flags s = Ok (KM_RESULT_INVALID_ARGS, s') /\
    vmr_tree s' = delete vaddr (vmr_tree s).
Proof.
  intros Hd Hv Hu Hf Hk. pose proof (user_range_checks _ _ Hu) as (E1 & E2 & E3 & E4 & E5 & E6).
  unfold mm_mmap. cbn [negb nonnull]. rewrite E2 E1 E3 E4 E5 E6 Hf. cbn [negb Bool.eqb andb].
  set (s0 := mkVm (vmr_tree s) (vmr_mutex s + 1) (ki_kernel_mmap_mutex s) (hw s)).
  assert (Er : mmap_reserve vaddr vaddr (vaddr + (n - 1)) n acc s0 = Ok (Some KM_RESULT_INVALID_ARGS, s0)).
  { unfold mmap_reserve, get_tree. unfold bind at 1. cbn [vmr_tree s0].
    rewrite bool_decide_false; [intros He; by rewrite He lookup_empty in Hk |]. cbn [negb andb].
    destruct (OMap.max_lteq vaddr (vmr_tree s)) as [[k a]|] eqn:Hm.
    2:{ pose proof (OMap.max_lteq_none _ _ Hm _ _ Hk). lia. }
    apply OMap.max_lteq_some in Hm as (Hka & Hle & Hmax). pose proof (Hmax _ _ Hk ltac:(lia)).
    assert (k = vaddr) as -> by lia. simplify_eq. rewrite (area_last _ _ _ Hv Hk).
    destruct (vi_range _ Hv _ _ Hk) as (? & ? & ?). by destruct (Z.leb_spec vaddr (vaddr + size v - 1)); [| lia]. }
  rewrite (bind_ok _ _ _ _ _ (with_lock_ok _ _ _ _ Hd Er eq_refl)).
  eexists. split.
  - unfold remove_vmr_guard, get_tree, set_tree, bind, ret. simpl. rewrite Hk. done.
  - done.
Qed.

(** ** [mm_unmmap] *)

Lemma unmmap_user s vaddr n flags :
  0 <= vmr_mutex s -> user_range vaddr n -> has flags MMAP_IGNORE_VMR = false ->
  mm_unmmap (Some 1%positive) vaddr n flags s = Ok (KM_RESULT_INVALID_ARGS, s).
Proof.
  intros Hd Hu Hf. pose proof (user_range_checks _ _ Hu) as (E1 & E2 & E3 & E4 & E5 & E6).
  unfold mm_unmmap. cbn [negb nonnull]. rewrite E2 E1 E3 E4 E5 E6 Hf. cbn [negb Bool.eqb andb].
  set (s0 := mkVm (vmr_tree s) (vmr_mutex s + 1) (ki_kernel_mmap_mutex s) (hw s)).
  assert (Er : unmmap_lookup vaddr n s0 = Ok (inl KM_RESULT_INVALID_ARGS, s0)).
  { unfold unmmap_lookup, get_tree. unfold bind at 1. cbn [vmr_tree s0]. rewrite E2.
    by destruct (vmr_tree s !! vaddr). }
  rewrite (bind_ok _ _ _ _ _ (with_lock_ok _ _ _ _ Hd Er eq_refl)). by destruct s.
Qed.

(** ** Merging and splitting *)

Definition adjacent (t : gmap Z mm_vmr_t) (a b : Z) : Prop :=
  exists va vb, t !! a = Some va /\ t !! b = Some vb /\ a + size va = b.

Definition merged (t : gmap Z mm_vmr_t) (a b : Z) (va vb : mm_vmr_t) : gmap Z mm_vmr_t :=
  delete b (<[a := mkVmr (size va + size vb) (access va) (mutex va)]> t).

Lemma merged_inv t a b va vb :
  vinv t -> t !! a = Some va -> t !! b = Some vb -> a + size va = b ->
  vinv (merged t a b va vb) /\ forall x, covered (merged t a b va vb) x <-> covered t x.
Proof.
  intros Hv Ha Hb Hadj. pose proof Hv as [Hr Hap].
  destruct (Hr _ _ Ha) as (? & ? & ?). destruct (Hr _ _ Hb) as (? & ? & ?).
  assert (Hlk : forall k v, merged t a b va vb !! k = Some v ->
    k = a /\ v = mkVmr (size va + size vb) (access va) (mutex va) \/ k <> a /\ k <> b /\ t !! k = Some v).
  { intros k v. unfold merged. rewrite lookup_delete_Some lookup_insert_Some. naive_solver. }
  split; [split |].
  - intros k v [[-> ->]|(_ & _ & Hk)]%Hlk; simpl; [lia | eauto].
  - intros k1 v1 k2 v2 [[-> ->]|(H1a & H1b & Hk1)]%Hlk [[-> ->]|(H2a & H2b & Hk2)]%Hlk Hlt; simpl; try lia.
    + pose proof (Hap _ _ _ _ Ha Hk2 Hlt). destruct (Z.lt_trichotomy b k2) as [Hc|[?|Hc]]; [| congruence |].
      * pose proof (Hap _ _ _ _ Hb Hk2 Hc). lia.
      * destruct (Hr _ _ Hk2) as (? & ? & ?). pose proof (Hap _ _ _ _ Hk2 Hb Hc). lia.
    + eauto.
    + eauto.
  - intros x. split.
    + intros (k & v & [[-> ->]|(_ & _ & Hk)]%Hlk & Hx); simpl in *.
      * destruct (Z.lt_ge_cases x b); [exists a, va | exists b, vb]; (split; [done | lia]).
      * by exists k, v.
    + intros (k & v & Hk & Hx). unfold merged.
      destruct (decide (k = a)) as [->|Hka]; [| destruct (decide (k = b)) as [->|Hkb]].
      * eexists a, _. rewrite lookup_delete_ne; [lia |]. rewrite lookup_insert_eq. split; [done |].
        simplify_eq. simpl. lia.
      * eexists a, _. rewrite lookup_delete_ne; [lia |]. rewrite lookup_insert_eq. split; [done |].
        simplify_eq. simpl. lia.
      * exists k, v. rewrite lookup_delete_ne // lookup_insert_ne //.
Qed.

Lemma merge_holds s a b :
  0 <= vmr_mutex s -> vinv (vmr_tree s) ->
  exists r s', mm_merge_mapped_area a b s = Ok (r, s') /\ same_locks s s' /\
    ((r = KM_RESULT_OK /\ exists va vb, vmr_tree s !! a = Some va /\ vmr_tree s !! b = Some vb /\
        a + size va = b /\ vmr_tree s' = merged (vmr_tree s) a b va vb /\ kima_free_vmr (hw s) = Ok (tt, hw s')) \/
     (r = KM_RESULT_INVALID_ARGS /\ vmr_tree s' = vmr_tree s /\ ~ adjacent (vmr_tree s) a b)).
Proof.
  intros Hd Hv. unfold mm_merge_mapped_area.
  set (s0 := mkVm (vmr_tree s) (vmr_mutex s + 1) (ki_kernel_mmap_mutex s) (hw s)).
  assert (Hbad : forall m, m s0 = Ok (KM_RESULT_INVALID_ARGS, s0) -> ~ adjacent (vmr_tree s) a b ->
    exists r s', with_vmr_lock m s = Ok (r, s') /\ same_locks s s' /\
    ((r = KM_RESULT_OK /\ exists va vb, vmr_tree s !! a = Some va /\ vmr_tree s !! b = Some vb /\
        a + size va = b /\ vmr_tree s' = merged (vmr_tree s) a b va vb /\ kima_free_vmr (hw s) = Ok (tt, hw s')) \/
     (r = KM_RESULT_INVALID_ARGS /\ vmr_tree s' = vmr_tree s /\ ~ adjacent (vmr_tree s) a b))).
  { intros m Em Hn. rewrite (with_lock_ok _ _ _ _ Hd Em eq_refl). eexists _, _. split; [done |]. split; [done |]. by right. }
  destruct (Z.leb_spec b a) as [Hle|Hlt].
  { eexists _, s. split; [done |]. split; [done |]. right. split_and!; [done | done |].
    intros (va & vb & Ha & Hb & Hadj). destruct (vi_range _ Hv _ _ Ha) as (? & ? & ?). lia. }
  destruct (vmr_tree s !! a) as [va|] eqn:Ha.
  2:{ apply Hbad; [| by intros (? & ? & ? & _); congruence]. unfold get_tree, bind. cbn [vmr_tree s0]. by rewrite Ha. }
  destruct (vmr_tree s !! b) as [vb|] eqn:Hb.
  2:{ apply Hbad; [| by intros (? & ? & _ & ? & _); congruence]. unfold get_tree, bind. cbn [vmr_tree s0]. by rewrite Ha Hb. }
  destruct (vi_range _ Hv _ _ Ha) as (? & ? & ?). destruct (vi_range _ Hv _ _ Hb) as (? & ? & ?).
  destruct (Z.eq_dec (a + size va) b) as [Hadj|Hadj].
  - destruct (free_total (hw s)) as (h & Ef).
    assert (Em : (t <- get_tree;
      match t !! a with
      | None => ret KM_RESULT_INVALID_ARGS
      | Some a0 =>
          match t !! b with
          | None => ret KM_RESULT_INVALID_ARGS
          | Some b0 =>
              if negb (w64 (a + size a0) =? b) then ret KM_RESULT_INVALID_ARGS
              else
                set_tree (delete b (<[a := mkVmr (w64 (size a0 + size b0)) (access a0) (mutex a0)]> t));;
                lift kima_free_vmr;;
                ret KM_RESULT_OK
          end
      end) s0 = Ok (KM_RESULT_OK, mkVm (merged (vmr_tree s) a b va vb) (vmr_mutex s + 1) (ki_kernel_mmap_mutex s) h)).
    { unfold get_tree. unfold bind at 1. cbn [vmr_tree s0]. rewrite Ha Hb.
      rewrite (w64_small (a + size va)); [unfold in64; lia |]. rewrite Hadj Z.eqb_refl. cbn [negb].
      rewrite (w64_small (size va + size vb)); [unfold in64; lia |].
      unfold set_tree. unfold bind at 1. by rewrite (lift_ok _ _ (mkVm _ _ _ _) tt h Ef). }
    rewrite (with_lock_ok _ _ _ _ Hd Em eq_refl). eexists _, _. split; [done |]. split; [done |].
    left. split; [done |]. exists va, vb. by split_and!.
  - apply Hbad.
    + unfold get_tree, bind. cbn [vmr_tree s0]. rewrite Ha Hb.
      rewrite w64_small; [unfold in64; lia |]. by destruct (Z.eqb_spec (a + size va) b).
    + intros (? & ? & ? & ? & ?). simplify_eq.
Qed.

(** [pt] lies strictly inside the area that starts at [a]. *)
Definition splittable (t : gmap Z mm_vmr_t) (a pt : Z) (v : mm_vmr_t) : Prop :=
  t !! a = Some v /\ a < pt < a + size v.

Definition splitted (t : gmap Z mm_vmr_t) (a pt : Z) (v : mm_vmr_t) : gmap Z mm_vmr_t :=
  <[a := mkVmr (pt - a) (access v) (mutex v)]> (<[pt := mkVmr (a + size v - pt) (access v) false]> t).

Lemma split_fresh t a pt v : vinv t -> splittable t a pt v -> t !! pt = None.
Proof.
  intros Hv [Ha Hpt]. destruct (t !! pt) as [w|] eqn:Hw; [| done].
  pose proof (vi_apart _ Hv _ _ _ _ Ha Hw). lia.
Qed.

Lemma split_inv t a pt v : vinv t -> splittable t a pt v ->
  vinv (splitted t a pt v) /\ forall x, covered (splitted t a pt v) x <-> covered t x.
Proof.
  intros Hv Hsp. pose proof (split_fresh _ _ _ _ Hv Hsp) as Hn. destruct Hsp as [Ha Hpt].
  destruct (vi_range _ Hv _ _ Ha) as (? & ? & ?). unfold splitted.
  assert (Hc : forall x, covered (<[a := mkVmr (pt - a) (access v) (mutex v)]> t) x <->
                         covered t x /\ ~ pt <= x < a + size v).
  { intros x. split.
    - intros (k & w & Hk & Hx). apply lookup_insert_Some in Hk as [[<- <-]|[Hne Hk]]; simpl in *.
      + split; [exists a, v; split; [done | lia] | lia].
      + split; [by exists k, w |]. intros Hin. destruct (Z.lt_trichotomy a k) as [Hl|[->|Hl]]; [| done |].
        * pose proof (vi_apart _ Hv _ _ _ _ Ha Hk Hl). lia.
        * pose proof (vi_apart _ Hv _ _ _ _ Hk Ha Hl). lia.
    - intros [(k & w & Hk & Hx) Hout]. destruct (decide (k = a)) as [->|Hne].
      + simplify_eq. eexists a, _. rewrite lookup_insert_eq. split; [done | simpl; lia].
      + exists k, w. by rewrite lookup_insert_ne. }
  rewrite insert_insert_ne; [lia |]. split.
  - apply vinv_insert; simpl; try lia.
    + split.
      * intros k w. rewrite lookup_insert_Some. intros [[<- <-]|[_ Hk]]; [simpl; lia | by apply (vi_range _ Hv)].
      * intros k1 v1 k2 v2. rewrite !lookup_insert_Some.
        intros [[<- <-]|[_ Hk1]] [[<- <-]|[_ Hk2]] Hlt; simpl; [lia | | by eapply (vi_apart _ Hv) | by eapply (vi_apart _ Hv)].
        pose proof (vi_apart _ Hv _ _ _ _ Ha Hk2 Hlt). lia.
    + intros x Hx [_ Hout]%Hc. lia.
  - intros x. split.
    + intros (k & w & Hk & Hx). apply lookup_insert_Some in Hk as [[<- <-]|[Hne Hk]]; simpl in *.
      * exists a, v. split; [done | lia].
      * by apply (Hc x); exists k, w.
    + intros Hx. destruct (decide (pt <= x < a + size v)) as [Hin|Hout].
      * eexists pt, _. rewrite lookup_insert_eq. split; [done | simpl; lia].
      * destruct (proj2 (Hc x) (conj Hx Hout)) as (k & w & Hk & Hxk). exists k, w.
        rewrite lookup_insert_ne; [| done]. intros <-.
        rewrite lookup_insert_ne in Hk; [lia | congruence].
Qed.

(** Merging the two halves of a split area gives the tree back. *)
Lemma merged_splitted t a pt v : vinv t -> splittable t a pt v ->
  merged (splitted t a pt v) a pt (mkVmr (pt - a) (access v) (mutex v))
    (mkVmr (a + size v - pt) (access v) false) = t.
Proof.
  intros Hv Hsp. pose proof (split_fresh _ _ _ _ Hv Hsp) as Hn. destruct Hsp as [Ha Hpt].
  unfold merged, splitted. simpl. replace (pt - a + (a + size v - pt)) with (size v) by lia.
  rewrite insert_insert_eq insert_insert_ne; [lia |]. rewrite delete_insert_id.
  - rewrite lookup_insert_ne; [lia | done].
  - apply insert_id. rewrite Ha. by destruct v.
Qed.

Lemma split_holds s a pt :
  0 <= vmr_mutex s -> vinv (vmr_tree s) ->
  exists r s', mm_split_mapped_area a pt s = Ok (r, s') /\ same_locks s s' /\
    ((r = KM_RESULT_OK /\ exists v, splittable (vmr_tree s) a pt v /\
        vmr_tree s' = splitted (vmr_tree s) a pt v) \/
     (r = KM_RESULT_NO_MEM /\ vmr_tree s' = vmr_tree s) \/
     (r = KM_RESULT_INVALID_ARGS /\ vmr_tree s' = vmr_tree s /\ ~ exists v, splittable (vmr_tree s) a pt v)).
Proof.
  intros Hd Hv. unfold mm_split_mapped_area.
  set (s0 := mkVm (vmr_tree s) (vmr_mutex s + 1) (ki_kernel_mmap_mutex s) (hw s)).
  destruct (Z.leb_spec pt a) as [Hle|Hlt].
  { eexists _, s. split; [done |]. split; [done |]. right. right. split_and!; [done | done |].
    intros (v & _ & ?). lia. }
  destruct (vmr_tree s !! a) as [v|] eqn:Ha.
  2:{ erewrite (with_lock_ok _ _ KM_RESULT_INVALID_ARGS s0 Hd); [| | done].
      - eexists _, _. split; [done |]. split; [done |]. right. right. split_and!; [done | done |].
        intros (w & ? & _). congruence.
      - unfold get_tree, bind. cbn [vmr_tree s0]. by rewrite Ha. }
  destruct (vi_range _ Hv _ _ Ha) as (? & ? & ?).
  assert (Ew : w64 (a + size v) = a + size v) by (apply w64_small; unfold in64; lia).
  destruct (Z.leb_spec (a + size v) pt) as [Hout|Hin].
  { erewrite (with_lock_ok _ _ KM_RESULT_INVALID_ARGS s0 Hd); [| | done].
    - eexists _, _. split; [done |]. split; [done |]. right. right. split_and!; [done | done |].
      intros (w & ? & ?). simplify_eq. lia.
    - unfold get_tree, bind. cbn [vmr_tree s0]. rewrite Ha Ew. by destruct (Z.leb_spec (a + size v) pt); [| lia]. }
  assert (Hsp : splittable (vmr_tree s) a pt v) by (split; [done | lia]).
  pose proof (split_fresh _ _ _ _ Hv Hsp) as Hn.
  destruct (alloc_total (hw s)) as (b & h & Eb).
  eexists (if b then KM_RESULT_OK else KM_RESULT_NO_MEM), _. split.
  { eapply (with_lock_ok _ _ _ (mkVm (if b then splitted (vmr_tree s) a pt v else vmr_tree s)
      (vmr_mutex s + 1) (ki_kernel_mmap_mutex s) h) Hd); [| done].
    unfold get_tree. unfold bind at 1. cbn [vmr_tree s0]. rewrite Ha Ew.
    destruct (Z.leb_spec (a + size v) pt); [lia |].
    rewrite (lift_ok _ _ (mkVm _ _ _ _) b h Eb). destruct b; cbn [negb]; [| done].
    unfold insert_unwrap, get_tree, set_tree, bind, ret. cbn [vmr_tree vmr_mutex ki_kernel_mmap_mutex hw]. rewrite Hn.
    cbn [vmr_tree]. rewrite !w64_small; [| | done]; unfold in64; lia. }
  split; [done |]. destruct b; cbn [vmr_tree]; [left | right; by left]. split; [done |]. by exists v.
Qed.

End Proofs.

End VmrT.
