(* ===== verification/VmrLocks.v ===== *)
(** * Locking ranges of areas

    The loops of [mm_probe_and_lock_pages] and [mm_unlock_pages] walk the areas
    between two keys.  [walk] is the rule they share; the lemmas after it give
    the exact state each of them ends in. *)

From S2P Require Import Prelude OMap MemConf Vmr VmrTheorems.
Import MemConf Vmr VmrT.

Module VmrL.

(** The areas from [lo] up to, not including, [hi] have lock state [b]. *)
Definition mark (b : bool) (lo hi : Z) (t : gmap Z mm_vmr_t) : gmap Z mm_vmr_t :=
  map_imap (fun k v => Some (if (lo <=? k) && (k <? hi) then mkVmr (size v) (access v) b else v)) t.

(** Each area from [lo] on, [hi] excepted, is followed by another one without a gap. *)
Definition contiguous (t : gmap Z mm_vmr_t) (lo hi : Z) : Prop :=
  forall k v, t !! k = Some v -> lo <= k < hi -> exists v', t !! (k + size v) = Some v'.

(** The areas from [lo] to [hi] satisfy [P]. *)
Definition areas (P : mm_vmr_t -> Prop) (t : gmap Z mm_vmr_t) (lo hi : Z) : Prop :=
  forall k v, t !! k = Some v -> lo <= k <= hi -> P v.

Definition with_tree {H} (s : vm_st H) (t : gmap Z mm_vmr_t) : vm_st H :=
  mkVm t (vmr_mutex s) (ki_kernel_mmap_mutex s) (hw s).

Lemma mark_lookup b lo hi t k :
  mark b lo hi t !! k =
  (fun v => if (lo <=? k) && (k <? hi) then mkVmr (size v) (access v) b else v) <$> t !! k.
Proof. unfold mark. rewrite map_lookup_imap. by destruct (t !! k). Qed.

Lemma mark_out b lo hi t k : k < lo \/ hi <= k -> mark b lo hi t !! k = t !! k.
Proof.
  intros Hk. rewrite mark_lookup. destruct (t !! k); [| done]. simpl.
  by replace ((lo <=? k) && (k <? hi)) with false by lia.
Qed.

Lemma mark_in b lo hi t k v : t !! k = Some v -> lo <= k < hi ->
  mark b lo hi t !! k = Some (mkVmr (size v) (access v) b).
Proof. intros Hv Hk. rewrite mark_lookup Hv /=. by replace ((lo <=? k) && (k <? hi)) with true by lia. Qed.

Lemma mark_size b lo hi t k v : mark b lo hi t !! k = Some v ->
  exists w, t !! k = Some w /\ size v = size w /\ access v = access w.
Proof.
  rewrite mark_lookup. destruct (t !! k) as [w|]; [| done]. simpl. intros [= <-].
  exists w. split; [done |]. by destruct ((lo <=? k) && (k <? hi)).
Qed.

Lemma mark_none b lo t : mark b lo lo t = t.
Proof. apply map_eq. intros k. apply mark_out. lia. Qed.

(** Going past one more area. *)
Lemma mark_step b lo k k' t v : t !! k = Some v -> lo <= k < k' ->
  (forall j w, t !! j = Some w -> k < j -> k' <= j) ->
  mark b lo k' t = <[k := mkVmr (size v) (access v) b]> (mark b lo k t).
Proof.
  intros Hv Hk Hn. apply map_eq. intros j. destruct (decide (j = k)) as [->|Hne].
  - rewrite lookup_insert_eq. apply mark_in; [done | lia].
  - rewrite lookup_insert_ne; [done |]. rewrite !mark_lookup. destruct (t !! j) as [w|] eqn:Hj; [| done]. simpl.
    assert (E : (j <? k') = (j <? k)); [| by rewrite E].
    destruct (Z.lt_trichotomy k j) as [Hl|[?|Hl]]; [specialize (Hn _ _ Hj Hl); lia | congruence | lia].
Qed.

Lemma mark_back b b' lo hi t : areas (fun v => mutex v = b') t lo (hi - 1) ->
  mark b' lo hi (mark b lo hi t) = t.
Proof.
  intros Ha. apply map_eq. intros k. rewrite !mark_lookup. destruct (t !! k) as [v|] eqn:Hk; [| done]. simpl.
  destruct ((lo <=? k) && (k <? hi)) eqn:Hin; [| done]. simpl. f_equal.
  rewrite -(Ha k v Hk); [lia |]. by destruct v.
Qed.

Lemma vinv_mark b lo hi t : vinv t -> vinv (mark b lo hi t).
Proof.
  intros [Hr Ha]. split.
  - intros k v (w & Hw & -> & _)%mark_size. by apply Hr.
  - intros k1 v1 k2 v2 (w1 & Hw1 & -> & _)%mark_size (w2 & Hw2 & _)%mark_size. by eapply Ha.
Qed.

(** [OMap.next] only looks at the keys. *)
Lemma next_adjacent b lo hi t k v v' : vinv t -> t !! k = Some v -> t !! (k + size v) = Some v' ->
  fst <$> OMap.next k (mark b lo hi t) = Some (k + size v).
Proof.
  intros Hv Hk Hk'. destruct (vi_range _ Hv _ _ Hk) as (? & ? & ?).
  destruct (OMap.next k (mark b lo hi t)) as [[j w]|] eqn:Hn.
  - apply OMap.next_some in Hn as (Hj & Hlt & Hmin). apply mark_size in Hj as (w' & Hj & _).
    pose proof (vi_apart _ Hv _ _ _ _ Hk Hj Hlt).
    assert (j <= k + size v); [| simpl; f_equal; lia].
    destruct (mark b lo hi t !! (k + size v)) as [u|] eqn:Hu; [eapply Hmin; [done | lia] |].
    rewrite mark_lookup Hk' in Hu. done.
  - destruct (mark b lo hi t !! (k + size v)) as [u|] eqn:Hu.
    + pose proof (OMap.next_none _ _ Hn _ _ Hu). lia.
    + by rewrite mark_lookup Hk' in Hu.
Qed.

(** What is left to visit from [k] on. *)
Definition left_from (k : Z) (t : gmap Z mm_vmr_t) : nat := stdpp.base.size (filter (fun kv => k <= kv.1) t).

Lemma left_from_lt k k' t v : t !! k = Some v -> k < k' -> (left_from k' t < left_from k t)%nat.
Proof.
  intros Hk Hlt. unfold left_from. apply map_subset_size. split.
  - apply map_filter_strong_subseteq_ext. simpl. intros j w [Hj ?]. split; [lia | done].
  - intros Hsub. assert (Hin : filter (fun kv : Z * mm_vmr_t => k <= kv.1) t !! k = Some v).
    { rewrite map_lookup_filter_Some. split; [done | simpl; lia]. }
    apply (lookup_weaken _ _ _ _ Hin) in Hsub. apply map_lookup_filter_Some in Hsub as [_ Hc]. simpl in Hc. lia.
Qed.

Lemma left_from_le k t : (left_from k t <= stdpp.base.size t)%nat.
Proof. unfold left_from. apply map_subseteq_size, map_filter_subseteq. Qed.

Section Walk.
Context {H : Type} (t : gmap Z mm_vmr_t) (b : bool) (lo hi : Z).
Context {R : Type} (body : option Z * option Z -> M (vm_st H) ((option Z * option Z) + R)).
Context (out : option Z -> R).
Hypothesis Hinv : vinv t.
Hypothesis Hchain : contiguous t lo hi.
Hypothesis Hstep : forall k v last s,
  lo <= k <= hi -> t !! k = Some v ->
  (forall l, last = Some l -> exists lv, mark b lo k t !! l = Some lv /\ l <> k /\ l + size lv = k) ->
  vmr_tree s = mark b lo k t ->
  body (Some k, last) s =
  Ok (inl (if k =? hi then None else fst <$> OMap.next k (mark b lo (k + 1) t), Some k),
      with_tree s (mark b lo (k + 1) t)).
Hypothesis Hout : forall last s, body (None, last) s = Ok (inr (out last), s).

(** A loop that does [Hstep] to each area visits all of them and leaves. *)
Lemma walk n k last s : (left_from k t + 1 < n)%nat ->
  lo <= k <= hi -> is_Some (t !! k) -> is_Some (t !! hi) ->
  (forall l, last = Some l -> exists lv, mark b lo k t !! l = Some lv /\ l <> k /\ l + size lv = k) ->
  vmr_tree s = mark b lo k t ->
  loop n body (Some k, last) s = Ok (out (Some hi), with_tree s (mark b lo (hi + 1) t)).
Proof.
  revert k last s. induction n as [|n IH]; [lia |]. intros k last s Hn Hk [v Hv] Hhi Hlast Hs.
  rewrite (loop_next _ _ _ _ _ _ (Hstep _ _ _ _ Hk Hv Hlast Hs)).
  destruct (Z.eqb_spec k hi) as [->|Hne].
  - destruct n; [lia |]. by rewrite (loop_exit _ _ _ _ _ _ (Hout _ _)).
  - destruct (Hchain _ _ Hv ltac:(lia)) as [v' Hv']. rewrite (next_adjacent _ _ _ _ _ _ _ Hinv Hv Hv').
    destruct (vi_range _ Hinv _ _ Hv) as (? & ? & ?). destruct Hhi as [vh Hvh].
    pose proof (vi_apart _ Hinv _ _ _ _ Hv Hvh ltac:(lia)) as Hle.
    assert (Hm : mark b lo (k + 1) t = mark b lo (k + size v) t).
    { assert (Hno : forall j w, t !! j = Some w -> k < j -> k + size v <= j) by
        (intros j w Hj Hlt; by apply (vi_apart _ Hinv _ _ _ _ Hv Hj)).
      rewrite (mark_step b lo k (k + 1) t v Hv); [lia | intros; lia |].
      by rewrite (mark_step b lo k (k + size v) t v Hv); [lia | |]. }
    rewrite (IH (k + size v) (Some k)); [| lia | done | done | | | done].
    + pose proof (left_from_lt k (k + size v) t v Hv ltac:(lia)). lia.
    + intros l [= <-]. eexists. split; [apply (mark_in _ _ _ _ _ v Hv); lia |]. simpl. lia.
    + done.
Qed.

End Walk.

(** ** Probing *)

(** An area the probe accepts. *)
Definition grants (required : Z) (v : mm_vmr_t) : Prop :=
  mutex v = false /\ denied required (access v) = false.

Definition gap (t : gmap Z mm_vmr_t) (last : option Z) (k : Z) : bool :=
  match last with
  | Some lk => match t !! lk with
               | Some lv => negb (w64 (lk + size lv) =? k)
               | None => false
               end
  | None => false
  end.

Section Probe.
Context {H : Type} `{Backend H}.
Implicit Types s : vm_st H.

Lemma probe_round_eq required hi k last s v : vmr_tree s !! k = Some v -> mutex v = false ->
  let t' := <[k := mkVmr (size v) (access v) true]> (vmr_tree s) in
  probe_round required hi (Some k, last) s =
  if gap t' last k then Ok (inr (Some k, last, true), with_tree s t')
  else if denied required (access v) then Ok (inr (Some k, Some k, true), with_tree s t')
  else Ok (inl (if k =? hi then None else fst <$> OMap.next k t', Some k), with_tree s t').
Proof.
  intros Hv Hm. cbn zeta. unfold probe_round, ki_mm_lock_area, set_area_lock, get_tree, vmr_next.
  unfold bind at 1. rewrite Hv Hm. unfold bind at 1. cbn [vmr_tree].
  change (match last with Some lk => _ | None => false end) with
    (gap (<[k := mkVmr (size v) (access v) true]> (vmr_tree s)) last k).
  destruct (gap _ last k); [done |]. rewrite lookup_insert_eq. cbn [access].
  by destruct (denied required (access v)).
Qed.

Lemma gap_false t last k : vinv t ->
  (forall l, last = Some l -> exists lv, t !! l = Some lv /\ l + size lv = k) -> gap t last k = false.
Proof.
  intros Hv Hl. unfold gap. destruct last as [l|]; [| done]. destruct (Hl l eq_refl) as (lv & Hlv & <-).
  rewrite Hlv. destruct (vi_range _ Hv _ _ Hlv) as (? & ? & ?).
  rewrite w64_small; [unfold in64; lia |]. by rewrite Z.eqb_refl.
Qed.

Lemma mark_next b lo k t v : t !! k = Some v -> lo <= k ->
  <[k := mkVmr (size v) (access v) b]> (mark b lo k t) = mark b lo (k + 1) t.
Proof. intros Hv Hk. symmetry. apply (mark_step _ _ _ _ _ _ Hv); [lia |]. intros. lia. Qed.

(** A range of accepted areas: all of them end up locked. *)
Lemma probe_loop t required lo hi s :
  vinv t -> vmr_tree s = t -> lo <= hi -> is_Some (t !! lo) -> is_Some (t !! hi) ->
  contiguous t lo hi -> areas (grants required) t lo hi ->
  loop (2 + stdpp.base.size t) (probe_round required hi) (Some lo, None) s
  = Ok ((None, Some hi, false), with_tree s (mark true lo (hi + 1) t)).
Proof.
  intros Hv Hs Hle Hlo Hhi Hc Ha.
  apply (walk t true lo hi (probe_round required hi) (fun l => (None, l, false))); try done.
  - intros k v last s1 Hk Hkv Hlast Hs1. destruct (Ha _ _ Hkv Hk) as [Hm Hd].
    assert (Hkm : vmr_tree s1 !! k = Some v) by (rewrite Hs1 mark_out //; lia).
    rewrite (probe_round_eq _ _ _ _ _ _ Hkm Hm) Hs1 (mark_next _ _ _ _ _ Hkv); [lia |].
    rewrite gap_false ?Hd //; [by apply vinv_mark |].
    intros l Hl. destruct (Hlast l Hl) as (lv & Hlv & Hne & Hend). exists lv. split; [| done].
    rewrite -(mark_next _ _ _ _ v Hkv); [lia |]. by rewrite lookup_insert_ne.
  - pose proof (left_from_le lo t). lia.
  - by rewrite mark_none.
Qed.

(** A probe that does not refuse has seen accepted areas only. *)
Lemma probe_loop_sound t required lo hi n k last s v l s' :
  vinv t -> is_Some (t !! k) -> is_Some (t !! hi) -> lo <= k <= hi ->
  vmr_tree s = mark true lo k t ->
  (forall l, last = Some l -> lo <= l < k /\ is_Some (t !! l)) ->
  loop n (probe_round required hi) (Some k, last) s = Ok ((v, l, false), s') ->
  (forall l lv, last = Some l -> t !! l = Some lv -> l + size lv = k) /\
  contiguous t k hi /\ areas (grants required) t k hi.
Proof.
  intros Hv. revert k last s. induction n as [|n IH]; [done |].
  intros k last s [u Hk] Hhi Hb Hs Hlast Hrun.
  assert (Hkm : vmr_tree s !! k = Some u) by (rewrite Hs mark_out //; lia).
  destruct (mutex u) eqn:Hm.
  { exfalso. move: Hrun. cbn [loop]. unfold bind at 1. unfold probe_round, ki_mm_lock_area. unfold bind at 1.
    by rewrite Hkm Hm. }
  move: Hrun. cbn [loop]. unfold bind at 1. rewrite (probe_round_eq _ _ _ _ _ _ Hkm Hm) Hs (mark_next _ _ _ _ _ Hk); [lia |].
  destruct (gap _ last k) eqn:Hg; [done |]. destruct (denied required (access u)) eqn:Hd; [done |].
  assert (Hlink : forall l lv, last = Some l -> t !! l = Some lv -> l + size lv = k).
  { intros l1 lv -> Hlv. destruct (Hlast l1 eq_refl) as [Hl1 _]. unfold gap in Hg.
    rewrite (mark_in _ _ _ _ _ lv Hlv) in Hg; [lia |]. simpl in Hg.
    destruct (vi_range _ Hv _ _ Hlv) as (? & ? & ?). rewrite w64_small in Hg; [unfold in64; lia | lia]. }
  destruct (Z.eqb_spec k hi) as [->|Hne]; intros Hrun.
  { split; [done |]. split; [intros ? ? ? ?; lia |].
    intros j w Hj Hin. assert (j = hi) as -> by lia. simplify_eq. done. }
  destruct Hhi as [vh Hvh].
  destruct (OMap.next k (mark true lo (k + 1) t)) as [[k' w]|] eqn:Hnx.
  2:{ pose proof (OMap.next_none _ _ Hnx hi vh ltac:(rewrite mark_out //; lia)). lia. }
  apply OMap.next_some in Hnx as (Hk' & Hlt & Hmin). pose proof (Hmin hi vh ltac:(rewrite mark_out //; lia) ltac:(lia)).
  rewrite mark_out in Hk'; [lia |].
  assert (Hno : forall j w0, t !! j = Some w0 -> k < j -> k' <= j).
  { intros j w0 Hj Hkj. apply (Hmin j w0); [rewrite mark_out //; lia | done]. }
  apply (IH k' (Some k)) in Hrun as (Hl2 & Hc2 & Ha2); [| by exists w | by exists vh | lia | |].
  - pose proof (Hl2 _ _ eq_refl Hk) as Hend. split; [done |]. split.
    + intros j w0 Hj Hin. destruct (decide (j = k)) as [->|]; [simplify_eq; by exists w |].
      apply Hc2; [done |]. pose proof (Hno _ _ Hj ltac:(lia)). lia.
    + intros j w0 Hj Hin. destruct (decide (j = k)) as [->|]; [by simplify_eq |].
      apply (Ha2 j w0 Hj). pose proof (Hno _ _ Hj ltac:(lia)). lia.
  - cbn [vmr_tree with_tree]. rewrite (mark_step true lo k (k + 1) t u Hk); [lia | intros; lia |].
    rewrite (mark_step true lo k k' t u Hk) //. lia.
  - intros l1 [= <-]. split; [lia | by exists u].
Qed.

End Probe.

(** ** The calls *)

(** The arguments of a request on user memory. *)
Record user_request (pt n : Z) : Prop := {
  uq_pos : 0 < n < 2 ^ 47;
  uq_lo : 0 <= pt < 2 ^ 47;
  uq_hi : PGFLOOR pt + PGCEIL n <= 2 ^ 47
}.

(** The last byte of the last page the request touches. *)
Definition limit_of (pt n : Z) : Z := PGFLOOR pt + PGCEIL n - 1.

Lemma request_checks pt n : user_request pt n ->
  (UINTPTR_MAX - PGFLOOR pt <? PGCEIL n) = false /\
  w64 (PGFLOOR pt + w64 (PGCEIL n - 1)) = limit_of pt n /\
  mm_is_user_space (PGFLOOR pt) = true /\ mm_is_user_space (limit_of pt n) = true /\
  pt <= limit_of pt n /\ limit_of pt n < 2 ^ 47.
Proof.
  intros [Hn Hp Hh]. unfold limit_of, UINTPTR_MAX, mm_is_user_space.
  destruct (PGFLOOR_range pt) as (_ & ? & _); [unfold in64; lia |].
  destruct (PGCEIL_range n) as (_ & ? & Hm); [unfold in64; lia | lia |].
  pose proof (Z.div_mod (PGCEIL n) 4096). change 0x0000800000000000 with (2 ^ 47).
  assert (0 <= PGFLOOR pt) by (apply Z.land_nonneg; by left; lia).
  rewrite (w64_small (PGCEIL n - 1)); [unfold in64; lia |].
  rewrite w64_small; [unfold in64; lia |]. split_and!; lia.
Qed.

(** What a probe establishes about the areas from [lo] to [hi]. *)
Record probed (t : gmap Z mm_vmr_t) (required pt lim lo hi : Z) : Prop := {
  pr_first : exists v, OMap.max_lteq pt t = Some (lo, v);
  pr_last : exists v, OMap.max_lteq lim t = Some (hi, v) /\ lim <= hi + size v;
  pr_chain : contiguous t lo hi;
  pr_grants : areas (grants required) t lo hi
}.

Lemma max_lteq_mono (t : gmap Z mm_vmr_t) p q lo v hi w : p <= q ->
  OMap.max_lteq p t = Some (lo, v) -> OMap.max_lteq q t = Some (hi, w) -> lo <= hi.
Proof.
  intros Hpq Hl Hh. apply OMap.max_lteq_some in Hl as (Hlo & ? & _). apply OMap.max_lteq_some in Hh as (_ & _ & Hm).
  apply (Hm _ _ Hlo). lia.
Qed.

(** Every address from [pt] to the end lies in one of the areas. *)
Lemma contiguous_covers t lo hi v w : vinv t -> contiguous t lo hi ->
  t !! lo = Some v -> t !! hi = Some w -> lo <= hi ->
  forall a, lo <= a < hi + size w -> exists k u, t !! k = Some u /\ lo <= k <= hi /\ k <= a < k + size u.
Proof.
  intros Hv Hc Hlo Hhi Hle a Ha.
  destruct (OMap.max_lteq a t) as [[k u]|] eqn:Hm.
  2:{ pose proof (OMap.max_lteq_none _ _ Hm _ _ Hlo). lia. }
  apply OMap.max_lteq_some in Hm as (Hk & Hka & Hmax).
  pose proof (Hmax _ _ Hlo ltac:(lia)) as Hlk.
  assert (Hkh : k <= hi).
  { destruct (Z.lt_ge_cases hi k) as [Hc2|]; [| done]. pose proof (vi_apart _ Hv _ _ _ _ Hhi Hk Hc2). lia. }
  exists k, u. split_and!; [done | done | done | done |].
  destruct (decide (k = hi)) as [->|Hne]; [simplify_eq; lia |].
  destruct (Hc _ _ Hk ltac:(lia)) as [u' Hu'].
  destruct (Z.lt_ge_cases a (k + size u)) as [|Hge]; [done |].
  pose proof (Hmax _ _ Hu' Hge). destruct (vi_range _ Hv _ _ Hk) as (? & ? & ?). lia.
Qed.

Section Calls.
Context {H : Type} `{Backend H}.
Implicit Types s : vm_st H.

Lemma probe_user_eq g pt n required s : user_request pt n ->
  mm_probe_and_lock_pages g pt n required s = with_vmr_lock (probe_user pt (limit_of pt n) required) s.
Proof.
  intros Hu. pose proof (request_checks _ _ Hu) as (E1 & E2 & E3 & E4 & _).
  unfold mm_probe_and_lock_pages. by rewrite E1 E2 E3 E4.
Qed.

Lemma unlock_user_eq g pt n s : user_request pt n ->
  mm_unlock_pages g pt n s = with_vmr_lock (unlock_user pt (limit_of pt n)) s.
Proof.
  intros Hu. pose proof (request_checks _ _ Hu) as (E1 & E2 & E3 & E4 & _).
  unfold mm_unlock_pages. by rewrite E1 E2 E3 E4.
Qed.

Lemma probe_user_ok pt lim required lo hi s : vinv (vmr_tree s) -> pt <= lim -> lim < 2 ^ 47 ->
  probed (vmr_tree s) required pt lim lo hi ->
  probe_user pt lim required s = Ok (KM_RESULT_OK, with_tree s (mark true lo (hi + 1) (vmr_tree s))).
Proof.
  intros Hv Hle Hlim [[v Hlo] (w & Hhi & Hend) Hc Ha]. pose proof (max_lteq_mono _ _ _ _ _ _ _ Hle Hlo Hhi) as Hlh.
  apply OMap.max_lteq_some in Hlo as Hlo'. apply OMap.max_lteq_some in Hhi as Hhi'.
  destruct Hlo' as (Hlk & _). destruct Hhi' as (Hhk & _).
  unfold probe_user, get_tree. unfold bind at 1. rewrite Hlo Hhi.
  rewrite (bind_ok _ _ _ _ _ (probe_loop _ _ _ _ _ Hv eq_refl Hlh (ex_intro _ _ Hlk) (ex_intro _ _ Hhk) Hc Ha)).
  unfold bind. cbn [vmr_tree with_tree]. rewrite (mark_in _ _ _ _ _ w Hhk); [lia |]. cbn [size].
  destruct (vi_range _ Hv _ _ Hhk) as (? & ? & ?). rewrite w64_small; [unfold in64; lia |].
  by destruct (Z.ltb_spec (hi + size w) lim); [lia |].
Qed.

Lemma with_lock_inv {A} (m : M (vm_st H) A) s a s' :
  with_vmr_lock m s = Ok (a, s') ->
  exists s1, m (mkVm (vmr_tree s) (vmr_mutex s + 1) (ki_kernel_mmap_mutex s) (hw s)) = Ok (a, s1) /\
    s' = mkVm (vmr_tree s1) (vmr_mutex s1 - 1) (ki_kernel_mmap_mutex s1) (hw s1).
Proof.
  unfold with_vmr_lock. unfold ki_mm_lock_vmr at 1. unfold bind at 1. unfold bind.
  destruct (m _) as [[a1 s1]| | |]; try done. unfold ki_mm_unlock_vmr.
  destruct (vmr_mutex s1 =? 0); [done |]. intros [= -> <-]. by exists s1.
Qed.

(** A probe that returns [KM_RESULT_OK] found the range as [probed] says. *)
Lemma probe_user_inv pt lim required s s' : vinv (vmr_tree s) -> pt <= lim -> lim < 2 ^ 47 ->
  probe_user pt lim required s = Ok (KM_RESULT_OK, s') ->
  exists lo hi, probed (vmr_tree s) required pt lim lo hi.
Proof.
  intros Hv Hle Hlim. unfold probe_user, get_tree. unfold bind at 1.
  destruct (OMap.max_lteq pt (vmr_tree s)) as [[lo v]|] eqn:Hlo; [| done].
  destruct (OMap.max_lteq lim (vmr_tree s)) as [[hi w]|] eqn:Hhi; [| done].
  pose proof (max_lteq_mono _ _ _ _ _ _ _ Hle Hlo Hhi) as Hlh.
  apply OMap.max_lteq_some in Hlo as Hlo'. apply OMap.max_lteq_some in Hhi as Hhi'.
  destruct Hlo' as (Hlk & _). destruct Hhi' as (Hhk & _). unfold bind at 1.
  destruct (loop _ _ _ _) as [[[[vm l] refused] s1]| | |] eqn:Hrun; try done.
  destruct refused.
  { unfold bind. by destruct (restore_guard vm lo s1) as [[[] ?]| | |]. }
  assert (Hgood : contiguous (vmr_tree s) lo hi /\ areas (grants required) (vmr_tree s) lo hi).
  { by apply (probe_loop_sound (vmr_tree s) required lo hi _ lo None s _ _ _ Hv) in Hrun as (_ & ? & ?);
      [| exists v | exists w | lia | rewrite mark_none |]. }
  destruct Hgood as [Hc Ha].
  rewrite (probe_loop _ _ _ _ _ Hv eq_refl Hlh (ex_intro _ _ Hlk) (ex_intro _ _ Hhk) Hc Ha) in Hrun.
  injection Hrun as <- <- <-. unfold bind. cbn [vmr_tree with_tree].
  rewrite (mark_in _ _ _ _ _ w Hhk); [lia |]. cbn [size].
  destruct (vi_range _ Hv _ _ Hhk) as (? & ? & ?). rewrite w64_small; [unfold in64; lia |].
  destruct (Z.ltb_spec (hi + size w) lim); [done |]. intros _. exists lo, hi.
  split; [by exists v | by exists w | done | done].
Qed.

(** ** Unlocking *)

Lemma unlock_round_eq hi k last s v : vmr_tree s !! k = Some v ->
  gap (vmr_tree s) last k = false -> mutex v = true ->
  let t' := <[k := mkVmr (size v) (access v) false]> (vmr_tree s) in
  unlock_round hi (Some k, last) s =
  Ok (inl (if k =? hi then None else fst <$> OMap.next k t', Some k), with_tree s t').
Proof.
  intros Hv Hg Hm. cbn zeta. unfold unlock_round, get_tree. unfold bind at 1.
  change (match last with Some lk => _ | None => false end) with (gap (vmr_tree s) last k). rewrite Hg.
  unfold ki_mm_unlock_area, set_area_lock, vmr_next, get_tree. unfold bind at 1. by rewrite Hv Hm.
Qed.

Lemma max_lteq_mark b lo hi p t k v : OMap.max_lteq p t = Some (k, v) ->
  exists v', OMap.max_lteq p (mark b lo hi t) = Some (k, v') /\ size v' = size v.
Proof.
  intros Hm. apply OMap.max_lteq_some in Hm as (Hk & Hp & Hmax).
  assert (Hk' : is_Some (mark b lo hi t !! k)) by (rewrite mark_lookup Hk; by eexists).
  destruct Hk' as [u Hu]. destruct (OMap.max_lteq p (mark b lo hi t)) as [[j w]|] eqn:Hj.
  - apply OMap.max_lteq_some in Hj as (Hj & Hjp & Hjm). pose proof (Hjm _ _ Hu Hp).
    apply mark_size in Hj as (w' & Hw' & Hs & _). pose proof (Hmax _ _ Hw' Hjp).
    assert (j = k) as -> by lia. exists w. simplify_eq. done.
  - pose proof (OMap.max_lteq_none _ _ Hj _ _ Hu). lia.
Qed.

(** Unlocking a range of locked areas. *)
Lemma unlock_loop t lo hi s :
  vinv t -> vmr_tree s = t -> lo <= hi -> is_Some (t !! lo) -> is_Some (t !! hi) ->
  contiguous t lo hi -> areas (fun v => mutex v = true) t lo hi ->
  loop (2 + stdpp.base.size t) (unlock_round hi) (Some lo, None) s
  = Ok (Some hi, with_tree s (mark false lo (hi + 1) t)).
Proof.
  intros Hv Hs Hle Hlo Hhi Hc Ha.
  apply (walk t false lo hi (unlock_round hi) (fun l => l)); try done.
  - intros k v last s1 Hk Hkv Hlast Hs1.
    assert (Hkm : vmr_tree s1 !! k = Some v) by (rewrite Hs1 mark_out //; lia).
    rewrite (unlock_round_eq _ _ _ _ _ Hkm); [| by apply (Ha _ _ Hkv) | by rewrite Hs1 (mark_next _ _ _ _ _ Hkv); [lia |]].
    rewrite Hs1. apply gap_false; [by apply vinv_mark |].
    intros l Hl. destruct (Hlast l Hl) as (lv & Hlv & _ & Hend). by exists lv.
  - pose proof (left_from_le lo t). lia.
  - by rewrite mark_none.
Qed.

Lemma unlock_user_ok t pt lim required lo hi s : vinv t -> pt <= lim -> lim < 2 ^ 47 ->
  probed t required pt lim lo hi -> vmr_tree s = mark true lo (hi + 1) t ->
  unlock_user pt lim s = Ok (KM_RESULT_OK, with_tree s t).
Proof.
  intros Hv Hle Hlim [[v Hlo] (w & Hhi & Hend) Hc Ha] Hs. pose proof (max_lteq_mono _ _ _ _ _ _ _ Hle Hlo Hhi) as Hlh.
  destruct (max_lteq_mark true lo (hi + 1) _ _ _ _ Hlo) as (v' & Hlo' & _).
  destruct (max_lteq_mark true lo (hi + 1) _ _ _ _ Hhi) as (w' & Hhi' & Hsz).
  apply OMap.max_lteq_some in Hhi as (Hhk & _).
  apply OMap.max_lteq_some in Hlo' as Hlo2. apply OMap.max_lteq_some in Hhi' as Hhi2.
  destruct Hlo2 as (Hlk2 & _). destruct Hhi2 as (Hhk2 & _). set (t1 := mark true lo (hi + 1) t) in *.
  assert (Hback : mark false lo (hi + 1) t1 = t).
  { apply mark_back. replace (hi + 1 - 1) with hi by lia. intros k u Hk Hin. by apply (Ha k u Hk). }
  unfold unlock_user, get_tree. unfold bind at 1. rewrite Hs Hlo' Hhi'.
  erewrite bind_ok; [| eapply unlock_loop; [| exact Hs | done | by exists v' | by exists w' | |]].
  - unfold bind. cbn [vmr_tree with_tree]. rewrite Hback Hhk.
    destruct (vi_range _ Hv _ _ Hhk) as (? & ? & ?). rewrite w64_small; [unfold in64; lia |].
    by destruct (Z.ltb_spec (hi + size w) lim); [lia |].
  - by apply vinv_mark.
  - intros k u (u' & Hu' & -> & _)%mark_size Hin. destruct (Hc _ _ Hu' Hin) as [x Hx].
    unfold t1. rewrite mark_lookup Hx. by eexists.
  - intros k u Hk Hin. assert (Hk' := Hk). apply mark_size in Hk' as (u' & Hu' & _).
    unfold t1 in Hk. rewrite (mark_in _ _ _ _ _ _ Hu') in Hk; [lia |]. by injection Hk as <-.
Qed.

(** ** Refusals *)

(** The first area refuses: it is unlocked again. *)
Lemma probe_user_first pt lim required lo v s : vinv (vmr_tree s) -> pt <= lim ->
  OMap.max_lteq pt (vmr_tree s) = Some (lo, v) -> mutex v = false -> denied required (access v) = true ->
  probe_user pt lim required s = Ok (KM_RESULT_ACCESS_VIOLATION, s).
Proof.
  intros Hv Hle Hlo Hm Hd. apply OMap.max_lteq_some in Hlo as Hlk. destruct Hlk as (Hlk & Hp & _).
  unfold probe_user, get_tree. unfold bind at 1. rewrite Hlo.
  destruct (OMap.max_lteq lim (vmr_tree s)) as [[hi w]|] eqn:Hhi.
  2:{ pose proof (OMap.max_lteq_none _ _ Hhi _ _ Hlk). lia. }
  erewrite bind_ok; [| apply loop_exit; rewrite (probe_round_eq _ _ _ _ _ _ Hlk Hm) /= Hd //].
  assert (Hr : restore_guard (Some lo) lo (with_tree s (<[lo := mkVmr (size v) (access v) true]> (vmr_tree s)))
    = Ok (tt, s)).
  { unfold restore_guard, get_tree. unfold bind at 1. cbn [loop Nat.add].
    unfold bind, restore_round, ki_mm_unlock_area, set_area_lock, bind. cbn [vmr_tree with_tree].
    rewrite lookup_insert_eq. cbn [mutex size access]. unfold vmr_prev, get_tree, bind, ret. rewrite Z.eqb_refl.
    rewrite insert_insert_eq insert_id; [rewrite Hlk; by destruct v; simplify_eq/= |]. by destruct s. }
  cbv beta iota. by rewrite (bind_ok _ _ _ _ _ Hr).
Qed.

Lemma restore_round_eq k lo j v s : vmr_tree s !! j = Some v -> mutex v = true ->
  let t' := <[j := mkVmr (size v) (access v) false]> (vmr_tree s) in
  restore_round k lo (Some j) s =
  Ok (inl (if k =? lo then None else fst <$> OMap.prev k t'), with_tree s t').
Proof.
  intros Hj Hm. cbn zeta. unfold restore_round, ki_mm_unlock_area, set_area_lock, vmr_prev, get_tree, bind.
  by rewrite Hj Hm.
Qed.

(** A later area refuses: the unwinding unlocks the area before it over and over. *)
Lemma probe_user_second pt lim required lo k v u s : vinv (vmr_tree s) -> k <= lim ->
  OMap.max_lteq pt (vmr_tree s) = Some (lo, v) -> grants required v ->
  OMap.next lo (vmr_tree s) = Some (k, u) -> mutex u = false ->
  (lo + size v <> k \/ denied required (access u) = true) ->
  probe_user pt lim required s = Panic.
Proof.
  intros Hv Hle Hlo [Hm Hd] Hk Hmu Hbad. apply OMap.max_lteq_some in Hlo as Hlk. destruct Hlk as (Hlk & Hp & _).
  apply OMap.next_some in Hk as Hk2. destruct Hk2 as (Hkk & Hlt & Hmin).
  unfold probe_user, get_tree. unfold bind at 1. rewrite Hlo.
  destruct (OMap.max_lteq lim (vmr_tree s)) as [[hi w]|] eqn:Hhi.
  2:{ pose proof (OMap.max_lteq_none _ _ Hhi _ _ Hkk). lia. }
  apply OMap.max_lteq_some in Hhi as (_ & _ & Hmax). pose proof (Hmax _ _ Hkk Hle).
  set (t1 := <[lo := mkVmr (size v) (access v) true]> (vmr_tree s)).
  set (t2 := <[k := mkVmr (size u) (access u) true]> t1).
  assert (Hk1 : t1 !! k = Some u) by (unfold t1; rewrite lookup_insert_ne //; lia).
  assert (Hs1 : OMap.same_keys (vmr_tree s) t1) by by eapply OMap.same_keys_insert.
  assert (Hs2 : OMap.same_keys (vmr_tree s) t2) by by eapply OMap.same_keys_trans, OMap.same_keys_insert.
  assert (Hrun : loop (2 + stdpp.base.size (vmr_tree s)) (probe_round required hi) (Some lo, None) s =
    Ok ((Some k, if gap t2 (Some lo) k then Some lo else Some k, true), with_tree s t2)).
  { assert (Hlo1 := OMap.next_same_keys _ _ _ _ _ Hs1 Hk).
    assert (Hsz : exists n, stdpp.base.size (vmr_tree s) = S n).
    { destruct (stdpp.base.size (vmr_tree s)) eqn:Hsz; [| by eexists].
      apply map_size_empty_inv in Hsz. by rewrite Hsz lookup_empty in Hlk. }
    destruct Hsz as [n ->]. change (2 + S n)%nat with (S (S (S n))). erewrite loop_next; [| rewrite (probe_round_eq _ _ _ _ _ _ Hlk Hm) /= Hd //].
    fold t1. rewrite (proj2 (Z.eqb_neq lo hi)); [lia |]. rewrite Hlo1. apply loop_exit.
    rewrite (probe_round_eq _ _ _ _ (with_tree s t1) u Hk1 Hmu). cbn [vmr_tree with_tree]. fold t2.
    destruct (gap t2 (Some lo) k) eqn:Hg; [done |].
    destruct Hbad as [Hbad|Hbad]; [| by rewrite Hbad]. exfalso. unfold gap, t2, t1 in Hg.
    rewrite lookup_insert_ne in Hg; [lia |]. rewrite lookup_insert_eq in Hg. simpl in Hg.
    destruct (vi_range _ Hv _ _ Hlk) as (? & ? & ?). rewrite w64_small in Hg; [unfold in64; lia | lia]. }
  rewrite (bind_ok _ _ _ _ _ Hrun). cbv beta iota.
  enough (Hr : restore_guard (Some k) lo (with_tree s t2) = Panic) by by unfold bind; rewrite Hr.
  unfold restore_guard, get_tree. unfold bind at 1. change (3 + ?n)%nat with (S (S (S n))).
  set (t3 := <[k := mkVmr (size u) (access u) false]> t2).
  assert (Hs3 : OMap.same_keys (vmr_tree s) t3).
  { eapply OMap.same_keys_trans, OMap.same_keys_insert; [done |]. by rewrite lookup_insert_eq. }
  assert (Hlo3 : t3 !! lo = Some (mkVmr (size v) (access v) true)).
  { unfold t3, t2, t1. do 2 (rewrite lookup_insert_ne; [lia |]). by rewrite lookup_insert_eq. }
  erewrite loop_next; [| apply restore_round_eq; [apply lookup_insert_eq | done]]. cbn [size access vmr_tree with_tree].
  fold t3. rewrite (proj2 (Z.eqb_neq k lo)); [lia |].
  rewrite (OMap.prev_of_next _ _ _ _ _ Hs3 (ex_intro _ _ Hlk) Hk).
  erewrite loop_next; [| apply restore_round_eq; [exact Hlo3 | done]]. cbn [size access vmr_tree with_tree].
  rewrite (proj2 (Z.eqb_neq k lo)); [lia |].
  rewrite (OMap.prev_of_next _ _ _ _ _ (OMap.same_keys_trans _ _ _ Hs3 (OMap.same_keys_insert _ _ _ _ Hlo3)) (ex_intro _ _ Hlk) Hk).
  cbn [loop]. unfold bind, restore_round, ki_mm_unlock_area, bind. cbn [vmr_tree with_tree]. by rewrite lookup_insert_eq.
Qed.

(** Accepted areas that end too early stay locked. *)
Lemma probe_user_short pt lim required lo hi v w s : vinv (vmr_tree s) -> pt <= lim ->
  OMap.max_lteq pt (vmr_tree s) = Some (lo, v) -> OMap.max_lteq lim (vmr_tree s) = Some (hi, w) ->
  contiguous (vmr_tree s) lo hi -> areas (grants required) (vmr_tree s) lo hi -> hi + size w < lim ->
  probe_user pt lim required s =
  Ok (KM_RESULT_ACCESS_VIOLATION, with_tree s (mark true lo (hi + 1) (vmr_tree s))).
Proof.
  intros Hv Hle Hlo Hhi Hc Ha Hend. pose proof (max_lteq_mono _ _ _ _ _ _ _ Hle Hlo Hhi) as Hlh.
  apply OMap.max_lteq_some in Hlo as Hlo'. apply OMap.max_lteq_some in Hhi as Hhi'.
  destruct Hlo' as (Hlk & _). destruct Hhi' as (Hhk & _).
  unfold probe_user, get_tree. unfold bind at 1. rewrite Hlo Hhi.
  rewrite (bind_ok _ _ _ _ _ (probe_loop _ _ _ _ _ Hv eq_refl Hlh (ex_intro _ _ Hlk) (ex_intro _ _ Hhk) Hc Ha)).
  unfold bind. cbn [vmr_tree with_tree]. rewrite (mark_in _ _ _ _ _ w Hhk); [lia |]. cbn [size].
  destruct (vi_range _ Hv _ _ Hhk) as (? & ? & ?). rewrite w64_small; [unfold in64; lia |].
  by destruct (Z.ltb_spec (hi + size w) lim); [| lia].
Qed.

End Calls.

End VmrL.
