(* ===== verification/VmrClaims.v ===== *)
(** * What holds of virtual memory areas

    The properties of [Vmr], from the lemmas of [VmrTheorems] and [VmrLocks],
    each with an instance on a concrete context. *)

From S2P Require Import Prelude OMap MemConf Vmr VmrTheorems VmrLocks.
Import MemConf Vmr VmrT VmrL.

Module VmrC.

(** ** A concrete platform and context for the instances *)

(** A platform that maps whatever it is asked to. *)
#[local] Instance willing : Backend unit := {
  kh_mmap _ _ _ _ _ := ret KM_RESULT_OK;
  kh_unmmap _ _ _ := ret tt;
  kh_set_page_access _ _ _ := ret tt;
  kh_vmalloc _ _ _ _ _ := ret 0;
  kh_kvmalloc _ _ _ := ret 0;
  kh_getmap _ := ret (0, 0);
  kima_alloc_vmr := ret true;
  kima_free_vmr := ret tt
}.

#[local] Instance willing_total : BackendTotal unit.
Proof. split; intros; try (eexists; reflexivity); do 2 eexists; reflexivity. Qed.

(** Two adjacent readable areas of a page each, the second also writable. *)
Definition areas2 : gmap Z mm_vmr_t :=
  {[ 8192 := mkVmr 4096 2 false; 12288 := mkVmr 4096 6 false ]}.
Definition two : vm_st unit := mkVm areas2 0 false tt.

Lemma areas2_lookup k v : areas2 !! k = Some v ->
  k = 8192 /\ v = mkVmr 4096 2 false \/ k = 12288 /\ v = mkVmr 4096 6 false.
Proof. unfold areas2. rewrite lookup_insert_Some lookup_singleton_Some. naive_solver. Qed.

Lemma areas2_inv : vinv areas2.
Proof.
  split.
  - intros k v [[-> ->]|[-> ->]]%areas2_lookup; simpl; lia.
  - intros k1 v1 k2 v2 [[-> ->]|[-> ->]]%areas2_lookup [[-> ->]|[-> ->]]%areas2_lookup; simpl; lia.
Qed.

Lemma areas2_free a : 16384 <= a -> ~ covered areas2 a.
Proof. intros Ha (k & v & [[-> ->]|[-> ->]]%areas2_lookup & Hk); simpl in Hk; lia. Qed.

Lemma two_range : user_range 16384 4096.
Proof. split; reflexivity || lia. Qed.

Lemma two_request : user_request 8192 8192.
Proof. split; [lia | lia |]. vm_compute. discriminate. Qed.

Lemma areas2_probed : probed areas2 MM_PAGE_READ 8192 16383 8192 12288.
Proof.
  split.
  - eexists. vm_compute. reflexivity.
  - eexists. split; [vm_compute; reflexivity | simpl; lia].
  - intros k v [[-> ->]|[-> ->]]%areas2_lookup Hk; [| lia]. eexists. vm_compute. reflexivity.
  - intros k v [[-> ->]|[-> ->]]%areas2_lookup Hk; split; reflexivity.
Qed.

(** ** Mapping, merging, splitting *)



(** C16: merging always returns and leaves the locks alone; it succeeds exactly
    when the second area starts where the first one ends, and then the areas
    stay disjoint and cover the same addresses; otherwise nothing changes. *)
Theorem merge_correct {H} `{BackendTotal H} (s : vm_st H) a b :
  0 <= vmr_mutex s -> vinv (vmr_tree s) ->
  exists r s', mm_merge_mapped_area a b s = Ok (r, s') /\ same_locks s s' /\
    (r = KM_RESULT_OK <-> adjacent (vmr_tree s) a b) /\
    (r <> KM_RESULT_OK -> vmr_tree s' = vmr_tree s) /\
    (r = KM_RESULT_OK -> vmr_tree s' !! b = None) /\
    vinv (vmr_tree s') /\ forall x, covered (vmr_tree s') x <-> covered (vmr_tree s) x.
Proof.
  intros Hd Hv. destruct (merge_holds s a b Hd Hv)
    as (r & s' & E & Hl & [(-> & va & vb & Ha & Hb & Hab & Ht & _)|(-> & Ht & Hn)]); eexists _, s'; rewrite Ht.
  - destruct (merged_inv _ _ _ _ _ Hv Ha Hb Hab). split_and!; try done.
    + split; [| done]. intros _. by exists va, vb.
    + intros _. apply lookup_delete_eq.
  - split_and!; done.
Qed.

Lemma merge_correct_witness : exists r s',
  mm_merge_mapped_area 8192 12288 two = Ok (r, s') /\ same_locks two s' /\
    (r = KM_RESULT_OK <-> adjacent (vmr_tree two) 8192 12288) /\
    (r <> KM_RESULT_OK -> vmr_tree s' = vmr_tree two) /\
    (r = KM_RESULT_OK -> vmr_tree s' !! 12288 = None) /\
    vinv (vmr_tree s') /\ forall x, covered (vmr_tree s') x <-> covered (vmr_tree two) x.
Proof. apply (merge_correct two 8192 12288); [simpl; lia | exact areas2_inv]. Defined.

(** C17: splitting always returns and leaves the locks alone.  When it
    succeeds the split point lay strictly inside the area, the areas stay
    disjoint and cover the same addresses, an area starts at the split point,
    and merging the two halves gives the old areas back; otherwise nothing
    changes. *)
Theorem split_merge_roundtrip {H} `{BackendTotal H} (s : vm_st H) a pt :
  0 <= vmr_mutex s -> vinv (vmr_tree s) ->
  exists r s', mm_split_mapped_area a pt s = Ok (r, s') /\ same_locks s s' /\
    (r <> KM_RESULT_OK -> vmr_tree s' = vmr_tree s) /\
    (r = KM_RESULT_OK ->
      (exists v, splittable (vmr_tree s) a pt v) /\ is_Some (vmr_tree s' !! pt) /\ vinv (vmr_tree s') /\
      (forall x, covered (vmr_tree s') x <-> covered (vmr_tree s) x) /\
      exists s2, mm_merge_mapped_area a pt s' = Ok (KM_RESULT_OK, s2) /\ vmr_tree s2 = vmr_tree s).
Proof.
  intros Hd Hv. destruct (split_holds s a pt Hd Hv)
    as (r & s' & E & [Hl1 Hl2] & [(-> & v & Hsp & Ht)|[[-> Ht]|(-> & Ht & _)]]); eexists _, s';
    (split; [exact E |]); (split; [done |]); split; try done.
  intros _. destruct (split_inv _ _ _ _ Hv Hsp) as [Hv' Hc]. rewrite Ht. split_and!; try done.
  - by exists v.
  - unfold splitted. destruct Hsp. rewrite lookup_insert_ne; [lia |]. rewrite lookup_insert_eq. by eexists.
  - destruct (merge_holds s' a pt) as (r2 & s2 & E2 & _ & Hr); [lia | by rewrite Ht |].
    assert (Ha : vmr_tree s' !! a = Some (mkVmr (pt - a) (access v) (mutex v)))
      by (rewrite Ht; apply lookup_insert_eq).
    assert (Hp : vmr_tree s' !! pt = Some (mkVmr (a + size v - pt) (access v) false)).
    { rewrite Ht. unfold splitted. destruct Hsp. rewrite lookup_insert_ne; [lia |]. apply lookup_insert_eq. }
    exists s2. destruct Hr as [(-> & va & vb & Hva & Hvb & _ & Ht2 & _)|(-> & _ & Hn)].
    + split; [done |]. rewrite Ha in Hva. rewrite Hp in Hvb. simplify_eq. rewrite Ht2 Ht.
      by apply merged_splitted.
    + exfalso. apply Hn. eexists _, _. split_and!; [exact Ha | exact Hp | simpl; lia].
Qed.

Lemma split_merge_roundtrip_witness : exists r s',
  mm_split_mapped_area 8192 9000 two = Ok (r, s') /\ same_locks two s' /\
    (r <> KM_RESULT_OK -> vmr_tree s' = vmr_tree two) /\
    (r = KM_RESULT_OK ->
      (exists v, splittable (vmr_tree two) 8192 9000 v) /\ is_Some (vmr_tree s' !! 9000) /\ vinv (vmr_tree s') /\
      (forall x, covered (vmr_tree s') x <-> covered (vmr_tree two) x) /\
      exists s2, mm_merge_mapped_area 8192 9000 s' = Ok (KM_RESULT_OK, s2) /\ vmr_tree s2 = vmr_tree two).
Proof. apply (split_merge_roundtrip two 8192 9000); [simpl; lia | exact areas2_inv]. Defined.

(** ** Probing and unlocking *)



(** Unlocking the range of a successful probe succeeds and gives the
    context back exactly as it was before the probe. *)
Theorem probe_then_unlock {H} `{Backend H} (s : vm_st H) g g' pt n required s' :
  0 <= vmr_mutex s -> vinv (vmr_tree s) -> user_request pt n ->
  mm_probe_and_lock_pages g pt n required s = Ok (KM_RESULT_OK, s') ->
  mm_unlock_pages g' pt n s' = Ok (KM_RESULT_OK, s).
Proof.
  intros Hd Hv Hu. pose proof (request_checks _ _ Hu) as (_ & _ & _ & _ & Hle & Hlim).
  rewrite probe_user_eq // unlock_user_eq //. intros (s1 & Hrun & ->)%with_lock_inv.
  destruct (probe_user_inv _ _ _ (mkVm _ _ _ _) _ Hv Hle Hlim Hrun) as (lo & hi & Hp).
  rewrite (probe_user_ok _ _ _ lo hi (mkVm _ _ _ _) Hv Hle Hlim Hp) in Hrun. injection Hrun as <-.
  cbn [with_tree vmr_tree vmr_mutex ki_kernel_mmap_mutex hw].
  erewrite with_lock_ok;
    [| simpl; lia | apply (unlock_user_ok (vmr_tree s) pt _ required lo hi); [done | done | done | done | reflexivity] | done].
  cbn. replace (vmr_mutex s + 1 - 1) with (vmr_mutex s) by lia. by destruct s.
Qed.

Lemma probe_then_unlock_witness :
  mm_unlock_pages 0 8192 8192 (with_tree two (mark true 8192 12289 areas2)) = Ok (KM_RESULT_OK, two).
Proof.
  apply (probe_then_unlock two 0 0 8192 8192 MM_PAGE_READ); [simpl; lia | exact areas2_inv | exact two_request |].
  vm_compute. reflexivity.
Defined.

(** The refusals of [mm_probe_and_lock_pages].  Refused at the first area,
    it changes nothing.  Refused at the second one (no access there, or a gap
    before it), its unwinding panics, because it asks for the predecessor of
    the refused area each time and unlocks the first area twice.  Refused
    because the last area ends before the limit, it leaves every area of the
    range locked. *)
Theorem probe_refusals {H} `{Backend H} (s : vm_st H) g pt n required lo v :
  0 <= vmr_mutex s -> vinv (vmr_tree s) -> user_request pt n ->
  OMap.max_lteq pt (vmr_tree s) = Some (lo, v) -> mutex v = false ->
  (denied required (access v) = true ->
   mm_probe_and_lock_pages g pt n required s = Ok (KM_RESULT_ACCESS_VIOLATION, s)) /\
  (denied required (access v) = false ->
   (forall k u, OMap.next lo (vmr_tree s) = Some (k, u) -> k <= limit_of pt n -> mutex u = false ->
     lo + size v <> k \/ denied required (access u) = true ->
     mm_probe_and_lock_pages g pt n required s = Panic) /\
   (forall hi w, OMap.max_lteq (limit_of pt n) (vmr_tree s) = Some (hi, w) ->
     contiguous (vmr_tree s) lo hi -> areas (grants required) (vmr_tree s) lo hi ->
     hi + size w < limit_of pt n ->
     mm_probe_and_lock_pages g pt n required s =
     Ok (KM_RESULT_ACCESS_VIOLATION, with_tree s (mark true lo (hi + 1) (vmr_tree s))))).
Proof.
  intros Hd Hv Hu Hlo Hm. pose proof (request_checks _ _ Hu) as (_ & _ & _ & _ & Hle & Hlim).
  rewrite !probe_user_eq //. split; [| intros Hden; split].
  - intros Hden. rewrite (with_lock_ok _ _ _ _ Hd (probe_user_first _ _ _ _ _ (mkVm _ _ _ _) Hv Hle Hlo Hm Hden) eq_refl).
    by destruct s.
  - intros k u Hk Hkl Hmu Hbad. unfold with_vmr_lock. unfold ki_mm_lock_vmr at 1. unfold bind at 1. unfold bind.
    by rewrite (probe_user_second _ _ _ _ _ _ _ (mkVm _ _ _ _) Hv Hkl Hlo (conj Hm Hden) Hk Hmu Hbad).
  - intros hi w Hhi Hc Ha Hend.
    by rewrite (with_lock_ok _ _ _ _ Hd (probe_user_short _ _ _ _ _ _ _ (mkVm _ _ _ _) Hv Hle Hlo Hhi Hc Ha Hend) eq_refl).
Qed.

(** A write probe of an area that is writable after one that is not, then of
    one that is followed by one that is not readable. *)
Definition uneven : vm_st unit :=
  mkVm {[ 8192 := mkVmr 4096 6 false; 12288 := mkVmr 4096 2 false ]} 0 false tt.

Lemma uneven_inv : vinv (vmr_tree uneven).
Proof.
  assert (Hl : forall k v, vmr_tree uneven !! k = Some v -> (k = 8192 \/ k = 12288) /\ size v = 4096).
  { intros k v. unfold uneven. cbn [vmr_tree]. rewrite lookup_insert_Some lookup_singleton_Some. naive_solver. }
  split.
  - intros k v [[-> | ->] ->]%Hl; lia.
  - intros k1 v1 k2 v2 [[-> | ->] ->]%Hl [[-> | ->] _]%Hl; lia.
Qed.

Lemma probe_refusals_witness :
  mm_probe_and_lock_pages 0 8192 8192 MM_PAGE_WRITE uneven = Panic /\
  mm_probe_and_lock_pages 0 8192 8192 MM_PAGE_WRITE two = Ok (KM_RESULT_ACCESS_VIOLATION, two).
Proof.
  split.
  - apply (proj2 (probe_refusals uneven 0 8192 8192 MM_PAGE_WRITE 8192 (mkVmr 4096 6 false)
      ltac:(simpl; lia) uneven_inv two_request eq_refl eq_refl) eq_refl) with (k := 12288) (u := mkVmr 4096 2 false);
      [reflexivity | vm_compute; discriminate | reflexivity | right; reflexivity].
  - exact (proj1 (probe_refusals two 0 8192 8192 MM_PAGE_WRITE 8192 (mkVmr 4096 2 false)
      ltac:(simpl; lia) areas2_inv two_request eq_refl eq_refl) eq_refl).
Defined.

(** ** What the code does not do *)

(** Mapping over the start of an area is refused, but the refusal takes
    that area out of the context: its range is no longer covered. *)
Theorem mmap_over_existing {H} `{BackendTotal H} (s : vm_st H) vaddr paddr n acc flags v :
  0 <= vmr_mutex s -> vinv (vmr_tree s) -> user_range vaddr n -> has flags MMAP_IGNORE_VMR = false ->
  vmr_tree s !! vaddr = Some v ->
  exists s', mm_mmap (Some 1%positive) vaddr paddr n acc flags s = Ok (KM_RESULT_INVALID_ARGS, s') /\
    forall a, covered (vmr_tree s') a <-> covered (vmr_tree s) a /\ ~ vaddr <= a < vaddr + size v.
Proof.
  intros Hd Hv Hu Hf Hk. destruct (mmap_occupied s vaddr paddr n acc flags v Hd Hv Hu Hf Hk) as (s' & E & Ht).
  exists s'. split; [done |]. intros a. rewrite Ht. split.
  - intros (k & w & [Hne Hw]%lookup_delete_Some & Ha). split; [by exists k, w |]. intros Hin.
    destruct (Z.lt_trichotomy vaddr k) as [Hl|[?|Hl]]; [| done |].
    + pose proof (vi_apart _ Hv _ _ _ _ Hk Hw Hl). lia.
    + pose proof (vi_apart _ Hv _ _ _ _ Hw Hk Hl). lia.
  - intros [(k & w & Hw & Ha) Hout]. exists k, w. split; [| done].
    rewrite lookup_delete_ne; [| done]. intros <-. simplify_eq. by apply Hout.
Qed.

Lemma mmap_over_existing_witness : exists s',
  mm_mmap (Some 1%positive) 8192 0 4096 2 0 two = Ok (KM_RESULT_INVALID_ARGS, s') /\
  forall a, covered (vmr_tree s') a <-> covered (vmr_tree two) a /\ ~ 8192 <= a < 8192 + 4096.
Proof.
  apply (mmap_over_existing two 8192 0 4096 2 0 (mkVmr 4096 2 false)).
  - simpl. lia.
  - exact areas2_inv.
  - split; reflexivity || lia.
  - reflexivity.
  - reflexivity.
Defined.

(** [mm_unmmap] of a tracked user range never succeeds: the lookup under
    the lock refuses every nonzero size, and a zero size is refused before. *)
Theorem unmmap_user_refused {H} `{BackendTotal H} (s : vm_st H) vaddr n flags :
  0 <= vmr_mutex s -> user_range vaddr n \/ n = 0 -> has flags MMAP_IGNORE_VMR = false ->
  mm_unmmap (Some 1%positive) vaddr n flags s = Ok (KM_RESULT_INVALID_ARGS, s).
Proof. intros Hd [Hu| ->] Hf; [by apply unmmap_user | reflexivity]. Qed.

Lemma unmmap_user_refused_witness :
  mm_unmmap (Some 1%positive) 8192 4096 0 two = Ok (KM_RESULT_INVALID_ARGS, two).
Proof.
  apply (unmmap_user_refused two 8192 4096 0); [simpl; lia | | reflexivity].
  left. split; reflexivity || lia.
Defined.

(** A range that strictly contains an area is accepted. *)
Example mmap_contains_area : exists s',
  mm_mmap (Some 1%positive) 4096 0 16384 2 0 two = Ok (KM_RESULT_OK, s') /\
  dom (vmr_tree s') = {[ 4096; 8192; 12288 ]}.
Proof. eexists. split; vm_compute; reflexivity. Qed.

End VmrC.
