(* ===== verification/PageTable.v ===== *)
(** * Page tables

    hal/x86_64/mm/vmmgr/vm.cc: four-level page tables, with the loops over the
    four levels as the source nests them.  A table is a physical page: the
    state maps the page address to the entries that differ from zero.  Table
    pages come from the page frame allocator ([PgAlloc]).  A table is read and
    written through the direct mapping of physical memory where there is one,
    and through a temporary mapping otherwise; the slots of the temporary
    mapping are part of the state.  TLB flushes have no effect here. *)

From S2P Require Import Prelude OMap MemConf PgAlloc.
Import MemConf.

Module PageTable.

(** ** Entries *)

Definition PTE_P : Z := 1.
Definition PTE_RW : Z := 2.
Definition PTE_U : Z := 4.
Definition PTE_CD : Z := 16.
Definition MMAP_NO_REMAP : Z := 2.
Definition KINITTMPMAP_SIZE : Z := 0x00100000.
Definition KERNEL_VBASE : Z := 0xffffffff80000000.

(** [arch_pte_t] and the entries of the upper levels, which have its layout *)
Record pte_t := mkPte { address : Z; mask : Z; xd : bool }.
Definition zero_pte : pte_t := mkPte 0 0 false.

(** The 40 bits of the field [address] *)
Definition trunc40 (z : Z) : Z := Z.land z (Z.ones 40).

Definition present (e : pte_t) : bool := has (mask e) PTE_P.

(** [hn_pgaccess_to_pgmask] *)
Definition hn_pgaccess_to_pgmask (access : Z) : Z :=
  let m := 0 in
  let m := if has access MM_PAGE_MAPPED then Z.lor m PTE_P else m in
  let m := if has access MM_PAGE_WRITE then Z.lor m PTE_RW else m in
  let m := if has access MM_PAGE_NOCACHE then Z.lor m PTE_CD else m in
  if has access MM_PAGE_USER then Z.lor m PTE_U else m.

(** ** State *)

Record pt_st := mkPt {
  tables : gmap Z (gmap Z pte_t);
  frames : PgAlloc.pg_st;
  direct_bases : gmap Z Z;          (* area base to [direct_map_base] *)
  tmp_slots : gmap Z pte_t;         (* [tmpmap_pgtab_base] *)
  tmpmap_base : Z;
  tmpmap_end : Z                    (* end of [mm_kernel_init_tmpmap_area] *)
}.

Abbreviation PT := (M pt_st).

Definition with_tables (s : pt_st) (t : gmap Z (gmap Z pte_t)) : pt_st :=
  mkPt t (frames s) (direct_bases s) (tmp_slots s) (tmpmap_base s) (tmpmap_end s).
Definition with_frames (s : pt_st) (f : PgAlloc.pg_st) : pt_st :=
  mkPt (tables s) f (direct_bases s) (tmp_slots s) (tmpmap_base s) (tmpmap_end s).
Definition with_slots (s : pt_st) (t : gmap Z pte_t) : pt_st :=
  mkPt (tables s) (frames s) (direct_bases s) t (tmpmap_base s) (tmpmap_end s).

Definition in_frames {A} (m : M PgAlloc.pg_st A) : PT A := fun s =>
  match m (frames s) with
  | Ok (a, f) => Ok (a, with_frames s f)
  | Panic => Panic
  | Fault => Fault
  | NoFuel => NoFuel
  end.

(** [pg[i]]; an entry never written is zero, a page that is no table faults. *)
Definition entry_of (t : gmap Z pte_t) (i : Z) : pte_t := default zero_pte (t !! i).

Definition read_entry (pg i : Z) : PT pte_t := fun s =>
  match tables s !! pg with
  | Some t => if (0 <=? i) && (i <? 512) then Ok (entry_of t i, s) else Fault
  | None => Fault
  end.

Definition write_entry (pg i : Z) (e : pte_t) : PT unit := fun s =>
  match tables s !! pg with
  | Some t => if (0 <=? i) && (i <? 512) then Ok (tt, with_tables s (<[pg := <[i := e]> t]> (tables s)))
              else Fault
  | None => Fault
  end.

(** [memset(pg, 0, PAGESIZE)] *)
Definition clear_table (pg : Z) : PT unit := fun s => Ok (tt, with_tables s (<[pg := ∅]> (tables s))).

(** ** Access to a table page *)

(** [kh_get_direct_mmap]; null is 0 *)
Definition kh_get_direct_mmap (paddr : Z) : PT Z :=
  pmad <- in_frames (PgAlloc.ki_get_pmad paddr);
  fun s =>
    match pmad with
    | None => Ok (0, s)
    | Some b =>
        let base := default 0 (direct_bases s !! b) in
        if base =? 0 then Ok (0, s)
        else
          let p := w64 (base + (paddr - b)) in
          Ok (if DIRECTPHYMEM_VTOP <? p then 0 else p, s)
    end.

(** The search loop of [hn_tmpmap_post] from slot [i], with [vaddr] and
    [sz_found]: the first page found and the last slot counted. *)
Fixpoint tmp_search (n : nat) (i size vaddr sz_found last : Z) : PT (Z * Z) := fun s =>
  match n with
  | O => Panic
  | S n' =>
      if i <? KINITTMPMAP_SIZE - size then
        if size <=? sz_found then Ok (vaddr, last, s)
        else
          let ptt_vaddr := w64 (tmpmap_base s + i) in
          if tmpmap_end s <? ptt_vaddr then Panic
          else
            let pte := default zero_pte (tmp_slots s !! (i / PAGESIZE)) in
            if negb (Z.ldiff (mask pte) PTE_P =? 0)
            then tmp_search n' (i + PAGESIZE) size 0 0 last s
            else tmp_search n' (i + PAGESIZE) size (if vaddr =? 0 then ptt_vaddr else vaddr)
                   (sz_found + PAGESIZE) i s
      else Panic
  end.

(** The filling loop of [hn_tmpmap_post]. *)
Fixpoint tmp_fill (n : nat) (i size idx paddr m : Z) : PT unit := fun s =>
  match n with
  | O => Ok (tt, s)
  | S n' =>
      if i <? size then
        let k := (i + idx) / PAGESIZE in
        let pte := default zero_pte (tmp_slots s !! k) in
        if present pte then Panic
        else
          tmp_fill n' (i + PAGESIZE) size idx paddr m
            (with_slots s (<[k := mkPte (trunc40 (PGROUNDDOWN (w64 (paddr + i)))) m (xd pte)]> (tmp_slots s)))
      else Ok (tt, s)
  end.

(** [hn_tmpmap_post] *)
Definition hn_tmpmap_post (paddr size m : Z) : PT Z :=
  kd_assert (size <=? KINITTMPMAP_SIZE);;
  kd_assert (PGOFF paddr =? 0);;
  kd_assert (PGOFF size =? 0);;
  kd_assert (has m PTE_P);;
  '(vaddr, idx) <- tmp_search 257 0 size 0 0 0;
  tmp_fill (Z.to_nat (size / PAGESIZE)) 0 size idx paddr m;;
  ret vaddr.

(** [hn_tmpunmap_post] *)
Fixpoint tmp_clear (n : nat) (i vaddr size : Z) : PT unit := fun s =>
  match n with
  | O => Ok (tt, s)
  | S n' =>
      if i <? size then
        if tmpmap_end s <? w64 (vaddr + i) then Ok (tt, s)
        else
          let k := (vaddr - tmpmap_base s) / PAGESIZE + i / PAGESIZE in
          let pte := default zero_pte (tmp_slots s !! k) in
          if present pte
          then tmp_clear n' (i + PAGESIZE) vaddr size
                 (with_slots s (<[k := mkPte (address pte) PTE_P (xd pte)]> (tmp_slots s)))
          else Panic
      else Ok (tt, s)
  end.

Definition hn_tmpunmap_post (vaddr size : Z) : PT unit :=
  kd_assert (PGOFF vaddr =? 0);;
  tmp_clear (Z.to_nat (size / PAGESIZE)) 0 vaddr size.

(** The table at physical address [direct], when that has a direct mapping;
    otherwise the table at [paddr] through a temporary mapping, which the
    scope guard removes when [body] is left. *)
Definition with_table {A} (direct paddr : Z) (body : Z -> PT A) : PT A :=
  d <- kh_get_direct_mmap direct;
  if negb (d =? 0) then body direct
  else
    v <- hn_tmpmap_post paddr PAGESIZE (Z.lor PTE_P PTE_RW);
    a <- body paddr;
    hn_tmpunmap_post v PAGESIZE;;
    ret a.

(** ** Mapping *)

(** An upper-level entry, given a table when it has none: [None] without
    memory, [Some fresh] with [fresh] telling whether the table is new. *)
Definition need_table (flags pg i : Z) : PT (option bool) :=
  e <- read_entry pg i;
  if present e then ret (Some false)
  else if has flags MMAP_NO_PGTAB_ALLOC then panic
  else
    a <- in_frames (PgAlloc.mm_pgalloc MM_PHYSICAL_MEMORY_TYPE_AVAILABLE);
    let a' := trunc40 (PGROUNDDOWN a) in
    write_entry pg i (mkPte a' (mask e) (xd e));;
    if a' =? 0 then ret None
    else
      write_entry pg i (mkPte a' (Z.lor PTE_P (Z.lor PTE_RW PTE_U)) false);;
      ret (Some true).

Section Map.
Context (vaddr addr_limit addr_prefix access flags pgmask pi_diff : Z).

(** [ptt_vaddr] and the addresses of the upper levels *)
Definition at_index (pml4x pdptx pdx ptx : Z) : Z := Z.lor addr_prefix (UVADDR pml4x pdptx pdx ptx 0).

(** Walk each PTE. *)
Definition map_ptt (ptt pml4x pdptx pdx pi : Z) : PT (Z * Z + km_result_t) :=
  let i0 := if (pml4x =? PML4X vaddr) && (pdptx =? PDPTX vaddr) && (pdx =? PDX vaddr)
            then PTX vaddr else 0 in
  for_loop (Z.to_nat (512 - i0)) i0 (fun ptx pi =>
    if addr_limit <=? at_index pml4x pdptx pdx ptx then ret (Break pi)
    else
      pte <- read_entry ptt ptx;
      when (present pte)
        ((if has flags MMAP_NO_REMAP then panic else ret tt);;
         when (negb (has flags MMAP_NO_RC)) (in_frames (PgAlloc.mm_pgfree (UNPGADDR (address pte)))));;
      write_entry ptt ptx (mkPte (trunc40 (PGROUNDDOWN pi)) pgmask (negb (has access MM_PAGE_EXEC)));;
      ret (Next (w64 (pi + pi_diff)))) pi.

(** What each upper level does with entry [i] of table [pg]: find or make the
    table below it and go on there. *)
Definition below (pg i pi : Z) (walk : Z -> Z -> PT (Z * Z + km_result_t)) : PT (flow Z km_result_t) :=
  fresh <- need_table flags pg i;
  match fresh with
  | None => ret (Return KM_RESULT_NO_MEM)
  | Some fresh =>
      e <- read_entry pg i;
      let paddr := UNPGADDR (address e) in
      r <- with_table paddr paddr (fun t => when fresh (clear_table t);; walk t pi);
      match r with
      | inl (pi', _) => ret (Next pi')
      | inr res => ret (Return res)
      end
  end.

(** Walk each PDE. *)
Definition map_pdt (pdt pml4x pdptx pi : Z) : PT (Z * Z + km_result_t) :=
  let i0 := if (pml4x =? PML4X vaddr) && (pdptx =? PDPTX vaddr) then PDX vaddr else 0 in
  for_loop (Z.to_nat (512 - i0)) i0 (fun pdx pi =>
    if addr_limit <=? at_index pml4x pdptx pdx 0 then ret (Break pi)
    else below pdt pdx pi (fun ptt pi => map_ptt ptt pml4x pdptx pdx pi)) pi.

(** Walk each PDPTE. *)
Definition map_pdpt (pdpt pml4x pi : Z) : PT (Z * Z + km_result_t) :=
  let i0 := if pml4x =? PML4X vaddr then PDPTX vaddr else 0 in
  for_loop (Z.to_nat (512 - i0)) i0 (fun pdptx pi =>
    if addr_limit <=? at_index pml4x pdptx 0 0 then ret (Break pi)
    else below pdpt pdptx pi (fun pdt pi => map_pdt pdt pml4x pdptx pi)) pi.

(** Walk each PML4E. *)
Definition map_pml4 (pml4t pi : Z) : PT (Z * Z + km_result_t) :=
  for_loop (Z.to_nat (PML4X addr_limit + 1 - PML4X vaddr)) (PML4X vaddr) (fun pml4x pi =>
    below pml4t pml4x pi (fun pdpt pi => map_pdpt pdpt pml4x pi)) pi.

End Map.

(** ** Unmapping *)

Section Unmap.
Context (vaddr addr_limit addr_prefix flags : Z).

(** The loops that look for a present entry among the first 511. *)
Definition table_used (n : nat) (pg : Z) : PT bool :=
  r <- for_loop n 0 (fun i (_ : unit) =>
         e <- read_entry pg i;
         if present e then ret (Return tt) else ret (Next tt)) tt;
  ret (match r with inr _ => true | inl _ => false end).

(** Clear entry [i] of [pg] when [table] has become empty, and free the page
    that entry [j] of [pg] refers to. *)
Definition release_table (table pg i j : Z) : PT unit :=
  used <- table_used 511 table;
  if used : bool then ret tt
  else
    e <- read_entry pg i;
    write_entry pg i (mkPte (address e) 0 (xd e));;
    f <- read_entry pg j;
    in_frames (PgAlloc.mm_pgfree (UNPGADDR (address f))).

(** Walk each PTE. *)
Definition unmap_ptt (ptt pml4x pdptx pdx : Z) : PT (unit * Z + Empty_set) :=
  let i0 := if (pml4x =? PML4X vaddr) && (pdptx =? PDPTX vaddr) && (pdx =? PDX vaddr)
            then PTX vaddr else 0 in
  for_loop (Z.to_nat (512 - i0)) i0 (fun ptx _ =>
    if addr_limit <=? at_index addr_prefix pml4x pdptx pdx ptx then ret (Break tt)
    else
      pte <- read_entry ptt ptx;
      when (present pte)
        ((if has flags MMAP_NO_REMAP then panic else ret tt);;
         when (negb (has flags MMAP_NO_RC)) (in_frames (PgAlloc.mm_pgfree (UNPGADDR (address pte)))));;
      write_entry ptt ptx (mkPte 0 0 (xd pte));;
      ret (Next tt)) tt.

(** Walk each PDE.  The page table is looked up in the direct mapping at
    [pdt_paddr], the address computed for the level above. *)
Definition unmap_pdt (pdt pdt_paddr pml4x pdptx : Z) : PT (unit * Z + Empty_set) :=
  let i0 := if (pml4x =? PML4X vaddr) && (pdptx =? PDPTX vaddr) then PDX vaddr else 0 in
  for_loop (Z.to_nat (512 - i0)) i0 (fun pdx _ =>
    if addr_limit <=? at_index addr_prefix pml4x pdptx pdx 0 then ret (Break tt)
    else
      e <- read_entry pdt pdx;
      if negb (present e) then ret (Next tt)
      else
        with_table pdt_paddr (UNPGADDR (address e)) (fun ptt =>
          unmap_ptt ptt pml4x pdptx pdx;;
          release_table ptt pdt pdx pdx);;
        ret (Next tt)) tt.

(** Walk each PDPTE.  The page directory is looked up in the direct mapping at
    the address of the PDPT itself; the page freed with it is named by entry
    [pdx] of the PDPT, [pdx] being where the loop over the directory ended. *)
Definition unmap_pdpt (pml4t pdpt pml4x : Z) : PT (unit * Z + Empty_set) :=
  let i0 := if pml4x =? PML4X vaddr then PDPTX vaddr else 0 in
  for_loop (Z.to_nat (512 - i0)) i0 (fun pdptx _ =>
    if addr_limit <=? at_index addr_prefix pml4x pdptx 0 0 then ret (Break tt)
    else
      e <- read_entry pdpt pdptx;
      if negb (present e) then ret (Next tt)
      else
        pml4te <- read_entry pml4t pml4x;
        let pdt_paddr := UNPGADDR (address pml4te) in
        with_table pdt_paddr (UNPGADDR (address e)) (fun pdt =>
          r <- unmap_pdt pdt pdt_paddr pml4x pdptx;
          match r with
          | inl (_, pdx) => release_table pdt pdpt pdptx pdx
          | inr _ => ret tt
          end);;
        ret (Next tt)) tt.

(** Walk each PML4E. *)
Definition unmap_pml4 (pml4t : Z) : PT (unit * Z + Empty_set) :=
  for_loop (Z.to_nat (PML4X addr_limit - PML4X vaddr)) (PML4X vaddr) (fun pml4x _ =>
    pml4te <- read_entry pml4t pml4x;
    if negb (present pml4te) then ret (Next tt)
    else
      let pdpt_paddr := UNPGADDR (address pml4te) in
      with_table pdpt_paddr pdpt_paddr (fun pdpt =>
        unmap_pdpt pml4t pdpt pml4x;;
        release_table pdpt pml4t pml4x pml4x);;
      ret (Next tt)) tt.

End Unmap.

(** [kh_unmmap]; a context is given by its [page_table], null by 0. *)
Definition kh_unmmap (ctxt vaddr size flags : Z) : PT unit :=
  kd_assert (negb (ctxt =? 0));;
  kd_assert (Bool.eqb (mm_is_user_space vaddr) (mm_is_user_space (w64 (vaddr + w64 (size - 1)))));;
  let addr_limit := w64 (vaddr + size) in
  unmap_pml4 vaddr addr_limit (ADDR_PREFIX vaddr) flags ctxt;;
  ret tt.

(** [mm_vmfree] *)
Definition mm_vmfree (ctxt addr size : Z) : PT unit := kh_unmmap ctxt addr size 0.

(** [kh_mmap] *)
Definition kh_mmap (ctxt vaddr paddr size access flags : Z) : PT km_result_t :=
  if ctxt =? 0 then panic else
  if size =? 0 then panic else
  let addr_limit := w64 (vaddr + size) in
  kd_assert (Bool.eqb (mm_is_user_space vaddr) (mm_is_user_space (w64 (vaddr + w64 (size - 1)))));;
  let pi_diff := if paddr =? 0 then 0 else PAGESIZE in
  let pgmask := hn_pgaccess_to_pgmask access in
  r <- map_pml4 vaddr addr_limit (ADDR_PREFIX vaddr) access flags pgmask pi_diff ctxt paddr;
  match r with
  | inr res => kh_unmmap ctxt vaddr size 0;; ret res
  | inl _ => ret KM_RESULT_OK
  end.

(** ** Looking up *)

(** One level of [kh_getmap]: the table below entry [i] of [pg], or out. *)
Definition descend {A} (pg i : Z) (none : A) (body : Z -> PT A) : PT A :=
  e <- read_entry pg i;
  if negb (present e) then ret none
  else with_table (UNPGADDR (address e)) (UNPGADDR (address e)) body.

(** The access flags of [kh_getmap] *)
Definition access_of (e : pte_t) : Z :=
  let a := MM_PAGE_READ in
  let a := if has (mask e) PTE_P then Z.lor a MM_PAGE_MAPPED else a in
  let a := if has (mask e) PTE_RW then Z.lor a MM_PAGE_WRITE else a in
  let a := if has (mask e) PTE_U then Z.lor a MM_PAGE_USER else a in
  if negb (xd e) then Z.lor a MM_PAGE_EXEC else a.

(** [kh_getmap]: the address, null being 0, and what [*pgaccess_out] is set to
    when it is set. *)
Definition kh_getmap (ctxt vaddr : Z) : PT (Z * option Z) :=
  kd_assert (negb (ctxt =? 0));;
  descend ctxt (PML4X vaddr) (0, None) (fun pdpt =>
    descend pdpt (PDPTX vaddr) (0, None) (fun pdt =>
      descend pdt (PDX vaddr) (0, None) (fun ptt =>
        e <- read_entry ptt (PTX vaddr);
        if negb (present e) then ret (0, None)
        else ret (UNPGADDR (address e), Some (access_of e))))).

(** [hn_get_pgtab_paddr] *)
Definition hn_get_pgtab_paddr (ctxt vaddr : Z) : PT Z :=
  kd_assert (negb (ctxt =? 0));;
  descend ctxt (PML4X vaddr) 0 (fun pdpt =>
    descend pdpt (PDPTX vaddr) 0 (fun pdt =>
      e <- read_entry pdt (PDX vaddr);
      if negb (present e) then ret 0 else ret (UNPGADDR (address e)))).

(** [kh_set_page_access] *)
Definition kh_set_page_access (ctxt vaddr size access : Z) : PT unit :=
  let _mask := hn_pgaccess_to_pgmask access in ret tt.

(** [kh_mm_copy_global_mappings]: the upper half of the top-level table *)
Definition copy_upper (dest src : gmap Z pte_t) : gmap Z pte_t :=
  filter (fun kv => kv.1 < 256) dest ∪ filter (fun kv => 256 <= kv.1 < 512) src.

Definition kh_mm_copy_global_mappings (dest src : Z) : PT unit := fun s =>
  if dest =? src then Ok (tt, s)
  else match tables s !! dest, tables s !! src with
       | Some d, Some t => Ok (tt, with_tables s (<[dest := copy_upper d t]> (tables s)))
       | _, _ => Fault
       end.

(** ** Finding free addresses *)

Section Scan.
Context (minaddr maxaddr addr_limit addr_prefix size : Z).
(** [clip] tells whether a start below [minaddr] is raised to it, as
    [kh_vmalloc] does and [mm_vmalloc_early] does not. *)
Context (clip : bool).
(** How a table is reached: [with_table], or the temporary mapping of the
    early stage. *)
Context (window : forall A, Z -> (Z -> PT A) -> PT A).

(** The variables [p_found] and [sz_found]. *)
Abbreviation found := (Z * Z)%type.

(** A missing table at [base] of [span] bytes. *)
Definition add_free (raise : bool) (base span : Z) (f : found) : found :=
  (if fst f =? 0 then (if raise && (base <? minaddr) then minaddr else base) else fst f,
   w64 (snd f + span)).

Definition enough (f : found) : bool := size <=? snd f.

(** Walk each PTE. *)
Definition scan_ptt (ptt pml4x pdptx pdx : Z) (f : found) : PT (found * Z + Empty_set) :=
  let i0 := if (pml4x =? PML4X minaddr) && (pdptx =? PDPTX minaddr) && (pdx =? PDX minaddr)
            then PTX minaddr else 0 in
  for_loop (Z.to_nat (512 - i0)) i0 (fun ptx f =>
    if enough f then ret (Break f)
    else if addr_limit <=? at_index addr_prefix pml4x pdptx pdx ptx then ret (Break f)
    else
      e <- read_entry ptt ptx;
      ret (Next (if present e then f
                 else add_free false (at_index addr_prefix pml4x pdptx pdx ptx) (UVADDR 0 0 0 1 0) f))) f.

(** Walk each PDE. *)
Definition scan_pdt (pdt pml4x pdptx : Z) (f : found) : PT (found * Z + Empty_set) :=
  let i0 := if (pml4x =? PML4X minaddr) && (pdptx =? PDPTX minaddr) then PDX minaddr else 0 in
  for_loop (Z.to_nat (512 - i0)) i0 (fun pdx f =>
    if enough f then ret (Break f)
    else if addr_limit <=? at_index addr_prefix pml4x pdptx pdx 0 then ret (Break f)
    else
      e <- read_entry pdt pdx;
      if negb (present e)
      then ret (Next (add_free clip (at_index addr_prefix pml4x pdptx pdx 0) (UVADDR 0 0 1 0 0) f))
      else
        r <- window _ (UNPGADDR (address e)) (fun ptt => scan_ptt ptt pml4x pdptx pdx f);
        ret (match r with inl (f', _) => Next f' | inr x => Return x end)) f.

(** Walk each PDPTE. *)
Definition scan_pdpt (pdpt pml4x : Z) (f : found) : PT (found * Z + Empty_set) :=
  let i0 := if pml4x =? PML4X minaddr then PDPTX minaddr else 0 in
  for_loop (Z.to_nat (512 - i0)) i0 (fun pdptx f =>
    if enough f then ret (Break f)
    else if addr_limit <=? at_index addr_prefix pml4x pdptx 0 0 then ret (Break f)
    else
      e <- read_entry pdpt pdptx;
      if negb (present e)
      then ret (Next (add_free clip (at_index addr_prefix pml4x pdptx 0 0) (UVADDR 0 1 0 0 0) f))
      else
        r <- window _ (UNPGADDR (address e)) (fun pdt => scan_pdt pdt pml4x pdptx f);
        ret (match r with inl (f', _) => Next f' | inr x => Return x end)) f.

(** Walk each PML4E. *)
Definition scan_pml4 (pml4t : Z) (f : found) : PT (found * Z + Empty_set) :=
  for_loop (Z.to_nat (PML4X maxaddr + 1 - PML4X minaddr)) (PML4X minaddr) (fun pml4x f =>
    if enough f then ret (Break f)
    else
      e <- read_entry pml4t pml4x;
      if negb (present e)
      then ret (Next (add_free clip (at_index addr_prefix pml4x 0 0 0) (UVADDR 1 0 0 0 0) f))
      else
        r <- window _ (UNPGADDR (address e)) (fun pdpt => scan_pdpt pdpt pml4x f);
        ret (match r with inl (f', _) => Next f' | inr x => Return x end)) f.

(** The area found, when it is large enough. *)
Definition scan (pml4t : Z) : PT (option Z) :=
  kd_assert (addr_prefix =? ADDR_PREFIX maxaddr);;
  r <- scan_pml4 pml4t (0, 0);
  match r with
  | inl (f, _) => ret (if enough f then Some (fst f) else None)
  | inr x => match x with end
  end.

End Scan.

(** The last address an area may start at, as both allocators compute it *)
Definition scan_limit (maxaddr size : Z) : Z := w64 (w64 (PGCEIL maxaddr - PGCEIL size) - 1).

(** [kh_vmalloc]; null is 0 *)
Definition kh_vmalloc (ctxt minaddr maxaddr size access flags : Z) : PT Z :=
  r <- scan minaddr maxaddr (scan_limit maxaddr size) (ADDR_PREFIX minaddr) size true
         (fun A t body => with_table t t body) ctxt;
  match r with
  | Some p_found =>
      res <- kh_mmap ctxt p_found 0 size access (Z.lor flags MMAP_NO_REMAP);
      if KM_FAILED res then panic else ret p_found
  | None => ret 0
  end.

(** [kh_kvmalloc] *)
Definition kh_kvmalloc (ctxt size access flags : Z) : PT Z :=
  kh_vmalloc ctxt (w64 (DIRECTPHYMEM_VTOP + 1)) KERNEL_VBASE size access flags.

(** ** The early stage

    Tables are reached through [hn_tmpmap_early], which is not modelled: the
    table is accessed at its physical address. *)
Definition window_early (A : Type) (t : Z) (body : Z -> PT A) : PT A := body t.

(** [mm_vmalloc_early], [mm_kvmalloc_early] *)
Definition mm_vmalloc_early (ctxt minaddr maxaddr size : Z) : PT Z :=
  r <- scan minaddr maxaddr (scan_limit maxaddr size) (ADDR_PREFIX minaddr) size false
         window_early ctxt;
  ret (default 0 r).

Definition mm_kvmalloc_early (ctxt size : Z) : PT Z :=
  mm_vmalloc_early ctxt (w64 (DIRECTPHYMEM_VTOP + 1)) KERNEL_VBASE size.

Section MapEarly.
Context (vaddr paddr addr_limit addr_prefix access pdpte_paddr pde_paddr pte_paddr : Z).

(** The variables [result] and [sz_mapped]. *)
Abbreviation early := (Z * Z)%type.

Definition early_done (v : early) : bool := PAGESIZE <=? snd v.

(** Put [spare] into entry [i] of [pg], which the bit [bit] of the result reports. *)
Definition early_table (pg i spare bit : Z) (v : early) : PT early :=
  e <- read_entry pg i;
  write_entry pg i (mkPte (trunc40 (PGROUNDDOWN spare)) (Z.lor PTE_P PTE_RW) (xd e));;
  ret (Z.lor (fst v) bit, snd v).

Definition early_ptt (ptt pml4x pdptx pdx : Z) (v : early) : PT (early * Z + Empty_set) :=
  let i0 := if (pml4x =? PML4X vaddr) && (pdptx =? PDPTX vaddr) && (pdx =? PDX vaddr)
            then PTX vaddr else 0 in
  for_loop (Z.to_nat (512 - i0)) i0 (fun ptx v =>
    if early_done v then ret (Break v)
    else if addr_limit <=? at_index addr_prefix pml4x pdptx pdx ptx then ret (Break v)
    else
      write_entry ptt ptx (mkPte (trunc40 (PGROUNDDOWN (w64 (paddr + snd v))))
        (hn_pgaccess_to_pgmask access) (negb (has access MM_PAGE_EXEC)));;
      ret (Next (fst v, snd v + PAGESIZE))) v.

Definition early_pdt (pdt pml4x pdptx : Z) (v : early) : PT (early * Z + Empty_set) :=
  let i0 := if (pml4x =? PML4X vaddr) && (pdptx =? PDPTX vaddr) then PDX vaddr else 0 in
  for_loop (Z.to_nat (512 - i0)) i0 (fun pdx v =>
    if early_done v then ret (Break v)
    else if addr_limit <=? at_index addr_prefix pml4x pdptx pdx 0 then ret (Break v)
    else
      e <- read_entry pdt pdx;
      let init := negb (present e) in
      v <- (if init then early_table pdt pdx pte_paddr 1 v else ret v);
      e <- read_entry pdt pdx;
      r <- window_early _ (UNPGADDR (address e)) (fun ptt =>
             when init (clear_table ptt);; early_ptt ptt pml4x pdptx pdx v);
      ret (match r with inl (v', _) => Next v' | inr x => Return x end)) v.

(** The presence test reads entry 0 of the PDPT ([pdpt->mask]). *)
Definition early_pdpt (pdpt pml4x : Z) (v : early) : PT (early * Z + Empty_set) :=
  let i0 := if pml4x =? PML4X vaddr then PDPTX vaddr else 0 in
  for_loop (Z.to_nat (512 - i0)) i0 (fun pdptx v =>
    if early_done v then ret (Break v)
    else if addr_limit <=? at_index addr_prefix pml4x pdptx 0 0 then ret (Break v)
    else
      e <- read_entry pdpt 0;
      let init := negb (present e) in
      v <- (if init then early_table pdpt pdptx pde_paddr 2 v else ret v);
      e <- read_entry pdpt pdptx;
      r <- window_early _ (UNPGADDR (address e)) (fun pdt =>
             when init (clear_table pdt);; early_pdt pdt pml4x pdptx v);
      ret (match r with inl (v', _) => Next v' | inr x => Return x end)) v.

Definition early_pml4 (pml4t : Z) (v : early) : PT (early * Z + Empty_set) :=
  for_loop (Z.to_nat (PML4X addr_limit + 1 - PML4X vaddr)) (PML4X vaddr) (fun pml4x v =>
    if early_done v then ret (Break v)
    else
      e <- read_entry pml4t pml4x;
      let init := negb (present e) in
      v <- (if init then early_table pml4t pml4x pdpte_paddr 4 v else ret v);
      e <- read_entry pml4t pml4x;
      r <- window_early _ (UNPGADDR (address e)) (fun pdpt =>
             when init (clear_table pdpt);; early_pdpt pdpt pml4x v);
      ret (match r with inl (v', _) => Next v' | inr x => Return x end)) v.

End MapEarly.

(** [hn_mm_mmap_early] *)
Definition hn_mm_mmap_early (ctxt vaddr paddr access pdpte_paddr pde_paddr pte_paddr : Z) : PT Z :=
  let addr_limit := PGCEIL (w64 (vaddr + PAGESIZE)) in
  r <- early_pml4 vaddr paddr addr_limit (ADDR_PREFIX vaddr) access pdpte_paddr pde_paddr pte_paddr
         ctxt (0, 0);
  match r with
  | inl ((result, _), _) => ret result
  | inr x => match x with end
  end.

End PageTable.
