(* ===== verification/PageTree.v ===== *)
(** * Page tables as trees

    The tables below a top-level table, found by following present entries:
    [node] gives the table at a path of indexes, [leaf] the present entry of a
    page.  A tree is well formed when no table is reached along two paths.
    Adding an empty table extends the tree at one path and changes no page;
    writing an entry of a lowest table changes one page and no table. *)

From S2P Require Import Prelude OMap MemConf PgAlloc PageTable.
Import MemConf PageTable.

Module PageTree.

Abbreviation store := (gmap Z (gmap Z pte_t)).
Implicit Types t : store.
Implicit Types p q : list Z.

(** A present entry of a table, and the table it refers to. *)
Definition ent t (pg i : Z) : option pte_t :=
  tb ← t !! pg; if present (entry_of tb i) then Some (entry_of tb i) else None.

Definition child t (pg i : Z) : option Z := (fun e => UNPGADDR (address e)) <$> ent t pg i.

Definition node t (root : Z) p : option Z :=
  foldl (fun o i => o ≫= fun pg => child t pg i) (Some root) p.

Definition leaf t (root : Z) p (d : Z) : option pte_t := node t root p ≫= fun pg => ent t pg d.

Lemma node_snoc t root p i : node t root (p ++ [i]) = node t root p ≫= fun pg => child t pg i.
Proof. unfold node. by rewrite foldl_app. Qed.

Lemma node_none t root p q : node t root p = None -> node t root (p ++ q) = None.
Proof.
  intros Hn. induction q as [|i q IH] using rev_ind; [by rewrite app_nil_r |].
  by rewrite app_assoc node_snoc IH.
Qed.

(** No table is reached twice, and all tables are there. *)
Record wf t (root : Z) : Prop := {
  wf_unique : forall p q pg, (length p <= 3)%nat -> (length q <= 3)%nat ->
    node t root p = Some pg -> node t root q = Some pg -> p = q;
  wf_there : forall p pg, (length p <= 3)%nat -> node t root p = Some pg -> is_Some (t !! pg)
}.

Lemma ent_ext t t' pg i : t' !! pg = t !! pg -> ent t' pg i = ent t pg i.
Proof. unfold ent. by intros ->. Qed.

Lemma child_ext t t' pg i : ent t' pg i = ent t pg i -> child t' pg i = child t pg i.
Proof. unfold child. by intros ->. Qed.

(** ** Adding an empty table *)

(** Entry [i] of [pg] made to refer to the new table [r]. *)
Definition grafted t (pg i r : Z) (e : pte_t) : store :=
  <[r := ∅]> (<[pg := <[i := e]> (t !!! pg)]> t).

Section Graft.
Context t (root : Z) p (pg i r : Z) (e : pte_t).
Hypothesis Hwf : wf t root.
Hypothesis Hlen : (length p <= 2)%nat.
Hypothesis Hp : node t root p = Some pg.
Hypothesis Hfree : ent t pg i = None.
Hypothesis He : present e = true.
Hypothesis Hr : UNPGADDR (address e) = r.
Hypothesis Hnew : forall q x, (length q <= 3)%nat -> node t root q = Some x -> x <> r.

Lemma graft_child x j : x <> r ->
  child (grafted t pg i r e) x j = if bool_decide (x = pg /\ j = i) then Some r else child t x j.
Proof.
  intros Hx. destruct (wf_there _ _ Hwf p pg) as [tb Htb]; [lia | done |].
  unfold child, ent, grafted. rewrite lookup_insert_ne; [done |].
  rewrite (lookup_total_correct _ _ _ Htb). destruct (decide (x = pg)) as [->|Hne].
  - rewrite lookup_insert_eq Htb. simpl. unfold entry_of. destruct (decide (j = i)) as [->|Hj].
    + rewrite lookup_insert_eq bool_decide_true //= He /=. by rewrite Hr.
    + rewrite lookup_insert_ne; [done |]. by rewrite bool_decide_false; [tauto |].
  - rewrite lookup_insert_ne; [done |]. by rewrite bool_decide_false; [tauto |].
Qed.

Lemma graft_empty j : ent (grafted t pg i r e) r j = None.
Proof. unfold ent, grafted. by rewrite lookup_insert_eq. Qed.

Lemma graft_fresh_path : node t root (p ++ [i]) = None.
Proof. by rewrite node_snoc Hp /= /child Hfree. Qed.

Lemma graft_node q : (length q <= 3)%nat ->
  node (grafted t pg i r e) root q = if bool_decide (q = p ++ [i]) then Some r else node t root q.
Proof.
  induction q as [|j q IH] using rev_ind; intros Hq.
  - rewrite bool_decide_false; [by destruct p | done].
  - rewrite length_app /= in Hq. rewrite !node_snoc IH; [lia |].
    destruct (decide (q = p ++ [i])) as [->|Hne].
    + rewrite (bool_decide_true (p ++ [i] = p ++ [i])) //. rewrite bool_decide_false. { intros [Ha _]%app_inj_tail. apply (f_equal length) in Ha. rewrite length_app /= in Ha. lia. }
      rewrite graft_fresh_path /= /child. by rewrite graft_empty.
    + rewrite (bool_decide_false (q = p ++ [i])) //. destruct (node t root q) as [x|] eqn:Hx; simpl.
      * rewrite graft_child; [by apply (Hnew q); [lia |] |].
        destruct (decide (x = pg /\ j = i)) as [[-> ->]|Hn];
          [rewrite (bool_decide_true (pg = pg /\ i = i)) // | rewrite (bool_decide_false (x = pg /\ j = i)) //].
        -- rewrite bool_decide_true //. f_equal. by apply (wf_unique _ _ Hwf q p pg); [lia | lia | |].
        -- rewrite bool_decide_false //. intros [-> ->]%app_inj_tail. apply Hn. simplify_eq. done.
      * rewrite bool_decide_false //. intros [-> ->]%app_inj_tail. congruence.
Qed.

Lemma graft_wf : wf (grafted t pg i r e) root.
Proof.
  split.
  - intros q1 q2 x Hq1 Hq2. rewrite !graft_node //.
    do 2 case_bool_decide; [congruence | | | by apply (wf_unique _ _ Hwf)].
    + intros [= Ex] Hx. by destruct (Hnew q2 x Hq2 Hx).
    + intros Hx [= Ex]. by destruct (Hnew q1 x Hq1 Hx).
  - intros q x Hq. rewrite graft_node //. unfold grafted. rewrite lookup_insert_is_Some lookup_insert_is_Some.
    case_bool_decide; [intros [= <-]; by left |].
    intros Hx. destruct (decide (x = r)); [by left |]. right. split; [done |].
    destruct (decide (x = pg)); [by left |]. right. split; [done |]. by apply (wf_there _ _ Hwf q).
Qed.

Lemma graft_leaf q d : length q = 3%nat -> leaf (grafted t pg i r e) root q d = leaf t root q d.
Proof.
  intros Hq. unfold leaf. rewrite graft_node; [lia |]. case_bool_decide as Hq'; [rewrite Hq' |].
  - rewrite graft_fresh_path /=. apply graft_empty.
  - destruct (node t root q) as [x|] eqn:Hx; [| done]. simpl.
    assert (x <> r) by (apply (Hnew q); [lia | done]).
    apply ent_ext. unfold grafted. rewrite !lookup_insert_ne //. intros <-.
    apply (wf_unique _ _ Hwf q p pg) in Hx; [subst; lia | lia | lia | done].
Qed.

End Graft.

(** ** Writing an entry of a lowest table *)

Definition written t (pg d : Z) (e : pte_t) : store := <[pg := <[d := e]> (t !!! pg)]> t.

Section Write.
Context t (root : Z) p (pg d : Z) (e : pte_t).
Hypothesis Hwf : wf t root.
Hypothesis Hlen : length p = 3%nat.
Hypothesis Hp : node t root p = Some pg.

Lemma write_node q : (length q <= 3)%nat -> node (written t pg d e) root q = node t root q.
Proof.
  induction q as [|j q IH] using rev_ind; intros Hq; [done |].
  rewrite length_app /= in Hq. rewrite !node_snoc IH; [lia |].
  destruct (node t root q) as [x|] eqn:Hx; [| done]. simpl. apply child_ext, ent_ext.
  unfold written. rewrite lookup_insert_ne; [| done]. intros <-.
  apply (wf_unique _ _ Hwf q p pg) in Hx; [subst; lia | lia | lia | done].
Qed.

Lemma write_wf : wf (written t pg d e) root.
Proof.
  split.
  - intros q1 q2 x Hq1 Hq2. rewrite !write_node //. by apply (wf_unique _ _ Hwf).
  - intros q x Hq. rewrite write_node // /written lookup_insert_is_Some. intros Hx.
    destruct (decide (pg = x)); [by left |]. right. split; [done |]. by apply (wf_there _ _ Hwf q).
Qed.

Lemma write_leaf q j : length q = 3%nat -> present e = true ->
  leaf (written t pg d e) root q j = if bool_decide (q = p /\ j = d) then Some e else leaf t root q j.
Proof.
  intros Hq He. destruct (wf_there _ _ Hwf p pg) as [tb Htb]; [lia | done |].
  unfold leaf. rewrite write_node; [lia |]. destruct (node t root q) as [x|] eqn:Hx; simpl.
  - destruct (decide (x = pg)) as [->|Hne].
    + assert (q = p) as -> by (apply (wf_unique _ _ Hwf q p pg); [lia | lia | done | done]).
      unfold ent, written. rewrite lookup_insert_eq Htb (lookup_total_correct _ _ _ Htb) /=.
      unfold entry_of. destruct (decide (j = d)) as [->|Hj].
      * rewrite lookup_insert_eq bool_decide_true //= He //.
      * rewrite lookup_insert_ne; [done |]. by rewrite bool_decide_false; [tauto |].
    + rewrite bool_decide_false; [intros [-> _]; congruence |]. apply ent_ext.
      unfold written. by rewrite lookup_insert_ne.
  - rewrite bool_decide_false //. intros [-> _]. congruence.
Qed.

End Write.

(** ** Page numbers

    Page [n] of the 2^36 pages has index [ix 3 n] in the top-level table, and
    so on down to [ix 0 n] in the lowest one. *)
Definition ix (l n : Z) : Z := (n / 512 ^ l) mod 512.

Definition path_of (n : Z) : list Z := [ix 3 n; ix 2 n; ix 1 n].

(** What page [n] is mapped to. *)
Definition page_entry t (root n : Z) : option pte_t := leaf t root (path_of n) (ix 0 n).

Lemma path_of_eq a b c d n :
  0 <= a < 512 -> 0 <= b < 512 -> 0 <= c < 512 -> 0 <= d < 512 -> 0 <= n < 2 ^ 36 ->
  path_of n = [a; b; c] /\ ix 0 n = d <-> n = ((a * 512 + b) * 512 + c) * 512 + d.
Proof.
  intros Ha Hb Hc Hd Hn. unfold path_of, ix. change (512 ^ 3) with 134217728. change (512 ^ 2) with 262144.
  change (512 ^ 1) with 512. change (512 ^ 0) with 1. split.
  - intros [[= <- <- <-] <-]. rewrite Z.div_1_r.
    rewrite (Z.mod_small (n / 134217728)); [split; [apply Z.div_pos; lia | apply Z.div_lt_upper_bound; lia] |].
    assert (E2 : n / 262144 = n / 512 / 512) by (by rewrite Z.div_div).
    assert (E3 : n / 134217728 = n / 512 / 512 / 512) by (by rewrite !Z.div_div).
    rewrite E2 E3. pose proof (Z.div_mod n 512). pose proof (Z.div_mod (n / 512) 512).
    pose proof (Z.div_mod (n / 512 / 512) 512). lia.
  - intros ->. rewrite Z.div_1_r.
    replace (((a * 512 + b) * 512 + c) * 512 + d) with (d + ((a * 512 + b) * 512 + c) * 512) at 4 by lia.
    rewrite (Z_mod_plus_full d) (Z.mod_small d); [lia |]. split; [| done].
    f_equal; [| f_equal; [| f_equal]].
    + replace (((a * 512 + b) * 512 + c) * 512 + d) with (((b * 512 + c) * 512 + d) + a * 134217728) by lia.
      rewrite Z.div_add; [lia |]. rewrite (Z.div_small ((b * 512 + c) * 512 + d)); [lia |]. rewrite Z.mod_small; lia.
    + replace (((a * 512 + b) * 512 + c) * 512 + d) with ((c * 512 + d) + (a * 512 + b) * 262144) by lia.
      rewrite Z.div_add; [lia |]. rewrite (Z.div_small (c * 512 + d)); [lia |].
      replace (0 + (a * 512 + b)) with (b + a * 512) by lia. rewrite Z_mod_plus_full Z.mod_small; lia.
    + replace (((a * 512 + b) * 512 + c) * 512 + d) with (d + ((a * 512 + b) * 512 + c) * 512) by lia.
      rewrite Z.div_add; [lia |]. rewrite (Z.div_small d); [lia |].
      replace (0 + ((a * 512 + b) * 512 + c)) with (c + (a * 512 + b) * 512) by lia. rewrite Z_mod_plus_full Z.mod_small; lia.
Qed.

End PageTree.
