(* ===== verification/PageMap.v ===== *)
(** * What mapping a range does

    [kh_mmap] on a range of pages that are not mapped: every loop of the four
    levels goes from the first page of the range below its table to the last
    one, and maps exactly those.  [prog] says how far a run has come. *)

From S2P Require Import Prelude OMap MemConf PgAlloc PageTable PageTree.
Import MemConf PageTable PageTree.

Module PageMap.

(** ** Address arithmetic *)

Definition lin (a b c d : Z) : Z := ((a * 512 + b) * 512 + c) * 512 + d.

Definition idx (i : Z) : Prop := 0 <= i < 512.

Lemma UVADDR_lin a b c d : idx a -> idx b -> idx c -> idx d -> UVADDR a b c d 0 = lin a b c d * 4096.
Proof.
  unfold idx, lin. intros Ha Hb Hc Hd. unfold UVADDR, VADDR. rewrite Z.lor_0_l Z.lor_0_r.
  rewrite -(Z.lor_assoc _ (Z.shiftl c 21)) -(Z.lor_assoc _ (Z.shiftl b 30)).
  assert (E1 : Z.lor (Z.shiftl c 21) (Z.shiftl d 12) = c * 2 ^ 21 + d * 2 ^ 12)
    by (rewrite (Z.shiftl_mul_pow2 d) // lor_add; lia).
  assert (E2 : Z.lor (Z.shiftl b 30) (c * 2 ^ 21 + d * 2 ^ 12) = b * 2 ^ 30 + (c * 2 ^ 21 + d * 2 ^ 12))
    by (rewrite lor_add; lia).
  rewrite E1 E2 lor_add; lia.
Qed.

(** The two address prefixes *)
Definition prefix_ok (pre : Z) : Prop := pre = 0 \/ pre = 0xffff000000000000.

Lemma at_index_lin pre a b c d : prefix_ok pre -> idx a -> idx b -> idx c -> idx d ->
  at_index pre a b c d = pre + lin a b c d * 4096.
Proof.
  intros Hp Ha Hb Hc Hd. unfold at_index. rewrite UVADDR_lin //. destruct Hp as [-> | ->]; [done |].
  change 0xffff000000000000 with (Z.shiftl 0xffff 48) at 1. unfold idx, lin in *. rewrite lor_add; lia.
Qed.

(** The indexes of the address of page [n] *)
Lemma page_indexes pre n : prefix_ok pre -> 0 <= n < 2 ^ 36 ->
  let va := pre + n * 4096 in
  PML4X va = ix 3 n /\ PDPTX va = ix 2 n /\ PDX va = ix 1 n /\ PTX va = ix 0 n.
Proof.
  intros Hp Hn va.
  assert (Hsh : forall k l, k = 12 + 9 * l -> 0 <= l <= 3 -> Z.land (Z.shiftr va k) 0x1ff = ix l n).
  { intros k l -> Hl. change 0x1ff with (Z.ones 9). rewrite Z.land_ones; [lia |].
    rewrite Z.shiftr_div_pow2; [lia |]. unfold ix, va. change 512 with (2 ^ 9). rewrite -Z.pow_mul_r; [lia | lia |].
    rewrite Z.pow_add_r; [lia | lia |]. rewrite -Z.div_div; [lia | lia |]. change (2 ^ 12) with 4096.
    rewrite Z.div_add; [lia |]. destruct Hp as [-> | ->]; [by rewrite Z.add_0_l |].
    change (0xffff000000000000 `div` 4096) with (0xffff * 2 ^ 36).
    replace (0xffff * 2 ^ 36 + n) with (n + (0xffff * 2 ^ (27 - 9 * l) * 2 ^ 9) * 2 ^ (9 * l)).
    2:{ assert (E : 2 ^ 36 = 2 ^ (27 - 9 * l) * 2 ^ 9 * 2 ^ (9 * l)).
        { rewrite -Z.pow_add_r; [lia | lia |]. rewrite -Z.pow_add_r; [lia | lia |]. f_equal. lia. }
        rewrite E. ring. }
    rewrite Z.div_add; [lia |]. by rewrite Z_mod_plus_full. }
  unfold PML4X, PDPTX, PDX, PTX. split_and!; apply Hsh; lia.
Qed.

Lemma ix_range l n : idx (ix l n).
Proof. unfold idx, ix. apply Z.mod_pos_bound. lia. Qed.

Lemma lin_ix n : 0 <= n < 2 ^ 36 -> lin (ix 3 n) (ix 2 n) (ix 1 n) (ix 0 n) = n.
Proof.
  intros Hn. symmetry. apply (path_of_eq (ix 3 n) (ix 2 n) (ix 1 n) (ix 0 n)); try apply ix_range; done.
Qed.

(** ** Well-formed states

    The pages of available memory can be reached through the direct mapping. *)

Record env (s : pt_st) : Prop := {
  env_inv : PgAlloc.pg_inv (frames s);
  env_page : forall b a x, PgAlloc.ram_page (frames s) b a x ->
    x mod 4096 = 0 /\ 0 < x < 2 ^ 52 /\
    exists d, direct_bases s !! b = Some d /\ 0 < d /\ d + (x - b) <= DIRECTPHYMEM_VTOP
}.

(** A page that is in use. *)
Definition in_use (s : pt_st) (x : Z) : Prop :=
  exists b a r, PgAlloc.ram_page (frames s) b a x /\ PgAlloc.refs (frames s) x = Some r /\ r <> 0.

(** A tree of tables below [root], all of whose pages are in use; [root] is a
    kernel address, outside physical memory. *)
Record good (s : pt_st) (root : Z) : Prop := {
  good_env : env s;
  good_wf : wf (tables s) root;
  good_root : 2 ^ 52 <= root;
  good_used : forall p x, p <> [] -> (length p <= 3)%nat -> node (tables s) root p = Some x -> in_use s x
}.

Lemma direct_page s b a x : env s -> PgAlloc.ram_page (frames s) b a x ->
  exists d, kh_get_direct_mmap x s = Ok (d, s) /\ d <> 0.
Proof.
  intros [Hi Hp] Hx. destruct (Hp _ _ _ Hx) as (_ & Hr & d & Hd & Hd0 & Hd1).
  pose proof Hi as [Hl _]. destruct Hx as [[Hb Hq] _]. destruct (PgAlloc.lo_own _ Hl _ _ _ Hb Hq) as [Hxr _].
  pose proof (PgAlloc.lo_range _ Hl _ _ Hb) as (? & ? & ?). unfold DIRECTPHYMEM_VTOP in *.
  exists (d + (x - b)). split; [| lia].
  unfold kh_get_direct_mmap. erewrite bind_ok; [| unfold in_frames; rewrite (PgAlloc.get_pmad_ok _ _ _ _ Hl (conj Hb Hq)) //].
  cbn [direct_bases with_frames]. rewrite Hd. simpl.
  destruct (Z.eqb_spec d 0); [lia |]. rewrite w64_small; [unfold in64; lia |].
  unfold DIRECTPHYMEM_VTOP. destruct (Z.ltb_spec (0xffff800000000000 + 0x0000400000000000 - 1) (d + (x - b))); [lia |].
  by destruct s.
Qed.

Lemma window_page {A} s b a x (body : Z -> PT A) : env s -> PgAlloc.ram_page (frames s) b a x ->
  with_table x x body s = body x s.
Proof.
  intros He Hx. destruct (direct_page _ _ _ _ He Hx) as (d & E & Hd). unfold with_table.
  rewrite (bind_ok _ _ _ _ _ E). by rewrite (proj2 (Z.eqb_neq d 0) Hd).
Qed.

Lemma unpage x : x mod 4096 = 0 -> 0 < x < 2 ^ 52 ->
  UNPGADDR (trunc40 (PGROUNDDOWN x)) = x /\ trunc40 (PGROUNDDOWN x) <> 0.
Proof.
  intros Hm Hx. unfold UNPGADDR, trunc40, PGROUNDDOWN. rewrite Z.shiftr_div_pow2; [lia |].
  change (2 ^ 12) with 4096. pose proof (Z.div_mod x 4096). rewrite Z.land_ones; [lia |].
  rewrite Z.mod_small; [split; [apply Z.div_pos; lia | apply Z.div_lt_upper_bound; lia] |].
  rewrite Z.shiftl_mul_pow2; [lia |]. rewrite w64_small; [unfold in64; lia |]. lia.
Qed.

(** ** Reading and writing entries *)

Lemma entry_present (t : store) pg i tb : t !! pg = Some tb ->
  ent t pg i = if present (entry_of tb i) then Some (entry_of tb i) else None.
Proof. unfold ent. by intros ->. Qed.

Lemma read_ok s pg i tb : tables s !! pg = Some tb -> idx i -> read_entry pg i s = Ok (entry_of tb i, s).
Proof. intros Ht Hi. unfold read_entry, idx in *. rewrite Ht. by replace ((0 <=? i) && (i <? 512)) with true by lia. Qed.

Lemma write_ok s pg i e : is_Some (tables s !! pg) -> idx i ->
  write_entry pg i e s = Ok (tt, with_tables s (written (tables s) pg i e)).
Proof.
  intros [tb Ht] Hi. unfold write_entry, idx, written in *.
  rewrite (lookup_total_correct _ _ _ Ht) Ht. by replace ((0 <=? i) && (i <? 512)) with true by lia.
Qed.

(** An entry that stays absent is as good as untouched. *)
Lemma absent_ent (t : store) pg i e x j : is_Some (t !! pg) -> ent t pg i = None -> present e = false ->
  ent (written t pg i e) x j = ent t x j.
Proof.
  intros [tb Htb] Hn He. unfold written. rewrite (lookup_total_correct _ _ _ Htb).
  destruct (decide (x = pg)) as [->|Hne].
  - destruct (decide (j = i)) as [->|Hj].
    + rewrite Hn. unfold ent, entry_of. rewrite lookup_insert_eq /= lookup_insert_eq /=. by rewrite He.
    + unfold ent, entry_of. rewrite lookup_insert_eq Htb /= lookup_insert_ne //.
  - apply ent_ext. by rewrite lookup_insert_ne.
Qed.

Lemma same_node (t t' : store) root p : (forall x j, ent t' x j = ent t x j) -> node t' root p = node t root p.
Proof.
  intros He. induction p as [|i p IH] using rev_ind; [done |]. rewrite !node_snoc IH.
  destruct (node t root p); [| done]. simpl. apply child_ext, He.
Qed.

Lemma same_wf (t t' : store) root : (forall x j, ent t' x j = ent t x j) ->
  (forall x, is_Some (t !! x) -> is_Some (t' !! x)) -> wf t root -> wf t' root.
Proof.
  intros He Hd [Hu Ht]. split.
  - intros p q x Hp Hq. rewrite !(same_node t t') //. by apply Hu.
  - intros p x Hp. rewrite (same_node t t') //. eauto.
Qed.

Lemma written_some (t : store) pg i e x : is_Some (t !! x) -> is_Some (written t pg i e !! x).
Proof. intros Hx. unfold written. destruct (decide (pg = x)); apply lookup_insert_is_Some; auto. Qed.

(** ** Progress of a run *)

Section Run.
Context (root n0 L pre access flags pgmask pi_diff paddr : Z).

(** What page [n] of the range is mapped to, and the variable [pi] there. *)
Definition pi_at (n : Z) : Z := w64 (paddr + (n - n0) * pi_diff).
Definition target (n : Z) : pte_t := mkPte (trunc40 (PGROUNDDOWN (pi_at n))) pgmask (negb (has access MM_PAGE_EXEC)).

(** The pages from [k] to [k'] have been mapped, and nothing else changed. *)
Record prog (s s' : pt_st) (k k' : Z) : Prop := {
  pg_good : good s' root;
  pg_node : forall p x, (length p <= 3)%nat -> node (tables s) root p = Some x -> node (tables s') root p = Some x;
  pg_page : forall n, 0 <= n < 2 ^ 36 ->
    page_entry (tables s') root n = if bool_decide (k <= n < k') then Some (target n)
                                    else page_entry (tables s) root n
}.

Lemma prog_refl s k : good s root -> prog s s k k.
Proof. intros Hg. split; [done | done |]. intros n _. rewrite bool_decide_false //. lia. Qed.

Lemma prog_trans s s1 s2 k k1 k2 : k <= k1 <= k2 -> prog s s1 k k1 -> prog s1 s2 k1 k2 -> prog s s2 k k2.
Proof.
  intros Hk [_ Hn1 Hp1] [Hg2 Hn2 Hp2]. split; [done | auto |].
  intros n Hn. rewrite Hp2 // Hp1 //. repeat case_bool_decide; done || lia.
Qed.

(** No page of the range from [k] on is mapped. *)
Definition fresh (s : pt_st) (k : Z) : Prop := forall n, k <= n < L -> page_entry (tables s) root n = None.

Lemma prog_fresh s s' k k' : 0 <= k -> k' <= L -> L < 2 ^ 36 -> k <= k' -> prog s s' k k' -> fresh s k -> fresh s' k'.
Proof.
  intros Hk Hk' HL Hkk [_ _ Hp] Hf n Hn. rewrite Hp; [lia |]. rewrite bool_decide_false; [lia |]. apply Hf. lia.
Qed.

Lemma good_node_use s p x : good s root -> (length p <= 3)%nat -> node (tables s) root p = Some x ->
  x = root \/ in_use s x.
Proof.
  intros Hg Hp Hx. destruct p as [|i p]; [left; by injection Hx as <- |].
  right. by apply (good_used _ _ Hg (i :: p)).
Qed.

(** A page without references is no table. *)
Lemma unused_no_node s r : good s root -> 0 < r < 2 ^ 52 -> PgAlloc.refs (frames s) r = Some 0 ->
  forall q x, (length q <= 3)%nat -> node (tables s) root q = Some x -> x <> r.
Proof.
  intros Hg Hr H0 q x Hq Hx ->. destruct (good_node_use _ _ _ Hg Hq Hx) as [->|(b & a & c & _ & Hc & Hc0)].
  - pose proof (good_root _ _ Hg). lia.
  - congruence.
Qed.

(** *** Giving an entry a table *)

Section Alloc.
Context (s s1 : pt_st) (f : PgAlloc.pg_st) (b : Z) (a : PgAlloc.ki_pmad_t) (r : Z).
Hypothesis Hg : good s root.
Hypothesis Hrun : PgAlloc.mm_pgalloc MM_PHYSICAL_MEMORY_TYPE_AVAILABLE (frames s) = Ok (r, f).
Hypothesis Hinv : PgAlloc.pg_inv f.
Hypothesis Hr : PgAlloc.ram_page (frames s) b a r.
Hypothesis Hr0 : PgAlloc.refs (frames s) r = Some 0.
Hypothesis Hr1 : PgAlloc.refs f r = Some 1.
Hypothesis Hother : forall y, y <> r -> PgAlloc.refs f y = PgAlloc.refs (frames s) y.
Hypothesis Hs1 : frames s1 = f.
Hypothesis Hb1 : direct_bases s1 = direct_bases s.

Lemma alloc_layout : PgAlloc.layout f = PgAlloc.layout (frames s).
Proof. by apply (PgAlloc.keeps_pgalloc _ _ _ _ Hrun). Qed.

Lemma alloc_env : env s1.
Proof.
  split; [by rewrite Hs1 |]. intros b' a' x Hx. rewrite Hs1 in Hx. rewrite Hb1.
  destruct (PgAlloc.layout_ram _ (frames s) _ _ _ (eq_sym alloc_layout) Hx) as [a'' Hx'].
  by apply (env_page _ (good_env _ _ Hg) _ _ _ Hx').
Qed.

Lemma alloc_in_use x : in_use s x -> in_use s1 x.
Proof.
  intros (b' & a' & c & Hx & Hc & Hc0). destruct (PgAlloc.layout_ram _ f _ _ _ alloc_layout Hx) as [a'' Hx'].
  exists b', a'', c. rewrite Hs1. split_and!; [done | | done]. rewrite Hother; [| done]. intros ->. congruence.
Qed.

Lemma alloc_new : in_use s1 r.
Proof.
  destruct (PgAlloc.layout_ram _ f _ _ _ alloc_layout Hr) as [a' Hx']. exists b, a', 1.
  rewrite Hs1. by split_and!.
Qed.

(** The tables with the new one added, once it has been cleared. *)
Lemma alloc_graft p pg i e s2 k : (length p <= 2)%nat -> node (tables s) root p = Some pg ->
  ent (tables s) pg i = None -> present e = true -> UNPGADDR (address e) = r ->
  frames s2 = f -> direct_bases s2 = direct_bases s -> tables s2 = grafted (tables s) pg i r e ->
  prog s s2 k k /\ node (tables s2) root (p ++ [i]) = Some r.
Proof.
  intros Hlen Hp He Hpr Her Hf2 Hb2 Ht2.
  destruct (env_page _ (good_env _ _ Hg) _ _ _ Hr) as (Hrm & Hrr & _).
  pose proof (unused_no_node _ _ Hg Hrr Hr0) as Hnew. pose proof (good_wf _ _ Hg) as Hwf.
  assert (Hnode : forall q, (length q <= 3)%nat -> node (tables s2) root q =
            if bool_decide (q = p ++ [i]) then Some r else node (tables s) root q).
  { intros q Hq. rewrite Ht2. by apply (graft_node _ root p). }
  assert (Hlen' : (length (p ++ [i]) <= 3)%nat) by (rewrite length_app /=; lia).
  split; [| by rewrite Hnode // bool_decide_true].
  assert (He2 : env s2).
  { pose proof alloc_env as [? Hpg]. split; [by rewrite Hf2 |].
    intros b' a' x Hx. rewrite Hb2 -Hb1. apply (Hpg b' a'). by rewrite Hs1 -Hf2. }
  split.
  - split; [done | rewrite Ht2; by apply (graft_wf _ root p) | by apply (good_root s) |].
    intros q x Hq0 Hq. rewrite Hnode //. case_bool_decide; intros Hx.
    + injection Hx as <-. destruct alloc_new as (b' & a' & c & H1 & H2 & H3).
      exists b', a', c. by rewrite Hf2 -Hs1.
    + destruct (alloc_in_use x (good_used _ _ Hg q x Hq0 Hq Hx)) as (b' & a' & c & H1 & H2 & H3).
      exists b', a', c. by rewrite Hf2 -Hs1.
  - intros q x Hq Hx. rewrite Hnode // bool_decide_false //. intros ->.
    by rewrite (graft_fresh_path _ root p pg i Hp He) in Hx.
  - intros n Hn. rewrite bool_decide_false; [lia |]. rewrite Ht2. unfold page_entry.
    by apply (graft_leaf _ root p).
Qed.

End Alloc.

(** A state with the same pages and the same present entries. *)
Lemma prog_same s s' k : good s root -> frames s' = frames s -> direct_bases s' = direct_bases s ->
  (forall x j, ent (tables s') x j = ent (tables s) x j) ->
  (forall x, is_Some (tables s !! x) -> is_Some (tables s' !! x)) -> prog s s' k k.
Proof.
  intros [[Hi Hp] Hw Hr Hu] Hf Hb He Hd. split.
  - split; [split | by eapply same_wf | done |].
    + by rewrite Hf.
    + rewrite Hf Hb. apply Hp.
    + intros p x Hp0 Hpl. rewrite (same_node (tables s)) //. unfold in_use. rewrite Hf. by apply Hu.
  - intros p x _. by rewrite (same_node (tables s)).
  - intros n _. rewrite bool_decide_false; [lia |]. unfold page_entry, leaf.
    rewrite (same_node (tables s)) //. destruct (node _ _ _); [apply He | done].
Qed.

Lemma written_twice (t : store) pg i e1 e2 : written (written t pg i e1) pg i e2 = written t pg i e2.
Proof. unfold written. by rewrite lookup_total_insert_eq !insert_insert_eq. Qed.

Hypothesis Hflags : has flags MMAP_NO_PGTAB_ALLOC = false.

(** What [below] hands to the walk of the next level. *)
Lemma below_spec s p pg i pi walk k (Q : Z * Z + km_result_t -> pt_st -> Prop) :
  good s root -> (length p <= 2)%nat -> node (tables s) root p = Some pg -> idx i ->
  (forall s2 x, prog s s2 k k -> node (tables s2) root (p ++ [i]) = Some x ->
     exists r s3, walk x pi s2 = Ok (r, s3) /\ Q r s3) ->
  exists r s3, below flags pg i pi walk s = Ok (r, s3) /\
    match r with
    | Next pi' => exists j, Q (inl (pi', j)) s3
    | Break _ => False
    | Return res => (res = KM_RESULT_NO_MEM /\ prog s s3 k k) \/ Q (inr res) s3
    end.
Proof.
  intros Hg Hlen Hp Hi Hwalk. unfold below.
  destruct (wf_there _ _ (good_wf _ _ Hg) p pg) as [tb Htb]; [lia | done |].
  pose proof (read_ok _ _ _ _ Htb Hi) as Hread.
  assert (Hfin : forall s1 s2 x fr, read_entry pg i s1 = Ok (entry_of (tables s1 !!! pg) i, s1) ->
    need_table flags pg i s = Ok (Some fr, s1) ->
    x = UNPGADDR (address (entry_of (tables s1 !!! pg) i)) -> env s1 -> in_use s1 x ->
    when fr (clear_table x) s1 = Ok (tt, s2) ->
    prog s s2 k k -> node (tables s2) root (p ++ [i]) = Some x ->
    exists r s3, below flags pg i pi walk s = Ok (r, s3) /\
    match r with
    | Next pi' => exists j, Q (inl (pi', j)) s3
    | Break _ => False
    | Return res => (res = KM_RESULT_NO_MEM /\ prog s s3 k k) \/ Q (inr res) s3
    end).
  { intros s1 s2 x fr Hrd Hn -> He (b & a & c & Hx & _) Hc Hpr Hnode.
    destruct (Hwalk _ _ Hpr Hnode) as (r & s3 & E & HQ).
    unfold below. rewrite (bind_ok _ _ _ _ _ Hn) (bind_ok _ _ _ _ _ Hrd).
    erewrite bind_ok; [| rewrite (window_page _ _ _ _ _ He Hx) (bind_ok _ _ _ _ _ Hc); exact E].
    destruct r as [[pi' j]|res]; do 2 eexists; (split; [reflexivity |]); simpl; [by exists j | by right]. }
  assert (Htot : tables s !!! pg = tb) by by apply lookup_total_correct.
  pose proof (entry_present _ _ i _ Htb) as Hent.
  destruct (present (entry_of tb i)) eqn:Hpres.
  - eapply (Hfin s s (UNPGADDR (address (entry_of tb i))) false); rewrite ?Htot //.
    + unfold need_table. by rewrite (bind_ok _ _ _ _ _ Hread) Hpres.
    + apply Hg.
    + apply (good_used _ _ Hg (p ++ [i])); [by destruct p | rewrite length_app /=; lia |].
      rewrite node_snoc Hp /= /child Hent //.
    + by apply prog_refl.
    + rewrite node_snoc Hp /= /child Hent //.
  - destruct (PgAlloc.pgalloc_holds (frames s) MM_PHYSICAL_MEMORY_TYPE_AVAILABLE (env_inv _ (good_env _ _ Hg)))
      as (r & f & Hrun & Hinv & Hcase).
    assert (Halloc : in_frames (PgAlloc.mm_pgalloc MM_PHYSICAL_MEMORY_TYPE_AVAILABLE) s = Ok (r, with_frames s f))
      by (by rewrite /in_frames Hrun).
    destruct Hcase as [(-> & -> & _)|(b & a & Hr' & Hty & _ & _ & Hr0 & Hr1 & Hother & _)].
    + set (e' := mkPte (trunc40 (PGROUNDDOWN 0)) (mask (entry_of tb i)) (xd (entry_of tb i))).
      set (s1 := with_tables (with_frames s (frames s)) (written (tables s) pg i e')).
      assert (E : need_table flags pg i s = Ok (None, s1)).
      { unfold need_table. rewrite (bind_ok _ _ _ _ _ Hread) Hpres Hflags (bind_ok _ _ _ _ _ Halloc).
        by erewrite bind_ok; [| apply write_ok; [by exists tb | done]]. }
      rewrite (bind_ok _ _ _ _ _ E). do 2 eexists. split; [reflexivity |]. left. split; [done |].
      apply prog_same; [done | done | done | |].
      * intros x j. by apply absent_ent; [exists tb | |].
      * intros x. apply written_some.
    + pose proof (conj Hr' Hty : PgAlloc.ram_page (frames s) b a r) as Hr.
      destruct (env_page _ (good_env _ _ Hg) _ _ _ Hr) as (Hrm & Hrr & _).
      destruct (unpage _ Hrm Hrr) as [Hun Hnz].
      set (e' := mkPte (trunc40 (PGROUNDDOWN r)) (Z.lor PTE_P (Z.lor PTE_RW PTE_U)) false).
      set (s1 := with_tables (with_frames s f) (written (tables s) pg i e')).
      assert (E : need_table flags pg i s = Ok (Some true, s1)).
      { unfold need_table. rewrite (bind_ok _ _ _ _ _ Hread) Hpres Hflags (bind_ok _ _ _ _ _ Halloc).
        erewrite bind_ok; [| apply write_ok; [by exists tb | done]].
        rewrite (proj2 (Z.eqb_neq _ 0) Hnz). erewrite bind_ok; [| apply write_ok; [| done]].
        - unfold s1, e', with_tables. cbn [tables frames direct_bases tmp_slots tmpmap_base tmpmap_end with_frames].
          by rewrite written_twice.
        - apply written_some. by exists tb. }
      destruct (alloc_graft s s1 f b a r Hg Hrun Hinv Hr Hr0 Hr1 Hother eq_refl eq_refl p pg i e'
                  (with_tables s1 (<[r := ∅]> (tables s1))) k Hlen Hp Hent eq_refl Hun eq_refl eq_refl eq_refl) as [Hpr Hnode].
      assert (Ht1 : tables s1 !!! pg = <[i := e']> tb)
        by (unfold s1, written; cbn [tables with_tables]; by rewrite lookup_total_insert_eq Htot).
      assert (Ee : entry_of (<[i := e']> tb) i = e') by (unfold entry_of; by rewrite lookup_insert_eq).
      eapply (Hfin s1 (with_tables s1 (<[r := ∅]> (tables s1))) r true); rewrite ?Ht1 ?Ee //.
      * rewrite (read_ok _ _ _ (<[i := e']> tb)) // ?Ee //. unfold s1, written. cbn [tables with_tables].
        by rewrite lookup_insert_eq Htot.
      * by apply (alloc_env s s1 f r).
      * by apply (alloc_new s s1 f b a r).
Qed.

(** *** The loops *)

Hypothesis Hmask : has pgmask PTE_P = true.
Hypothesis Hrange : 0 <= n0 /\ n0 < L /\ L < 2 ^ 36.

(** Mapping one page *)
Lemma map_page s n ptt : good s root -> 0 <= n < 2 ^ 36 -> node (tables s) root (path_of n) = Some ptt ->
  prog s (with_tables s (written (tables s) ptt (ix 0 n) (target n))) n (n + 1).
Proof.
  intros Hg Hn Hp. pose proof (good_wf _ _ Hg) as Hwf.
  pose proof (fun q => write_node (tables s) root (path_of n) ptt (ix 0 n) (target n) Hwf eq_refl Hp q) as Hnode.
  split.
  - destruct Hg as [[Hi He] _ Hr Hu]. split; [by split | exact (write_wf _ root (path_of n) _ _ _ Hwf eq_refl Hp) | done |].
    intros q x Hq0 Hq. cbn [tables with_tables]. rewrite Hnode //. by apply Hu.
  - intros q x Hq. cbn [tables with_tables]. by rewrite Hnode.
  - intros m Hm. cbn [tables with_tables]. unfold page_entry.
    rewrite (write_leaf _ root (path_of n)) //. 
    destruct (decide (m = n)) as [->|Hne].
    + rewrite !bool_decide_true //. lia.
    + rewrite (bool_decide_false (n <= m < n + 1)); [lia |]. rewrite bool_decide_false //.
      intros [Hp1 Hp2]. apply Hne.
      rewrite -(lin_ix m Hm) -(lin_ix n Hn). unfold path_of in Hp1. injection Hp1 as -> -> ->. by rewrite Hp2.
Qed.

Lemma pi_next n : w64 (pi_at n + pi_diff) = pi_at (n + 1).
Proof. unfold pi_at. rewrite w64_add_l. f_equal. ring. Qed.

(** A walk has mapped up to [hi], or has mapped a part and run out of memory. *)
Definition walked (s : pt_st) (k hi : Z) (r : Z * Z + km_result_t) (s' : pt_st) : Prop :=
  match r with
  | inl (pi', _) => pi' = pi_at hi /\ prog s s' k hi
  | inr res => res = KM_RESULT_NO_MEM /\ exists k', k <= k' <= L /\ prog s s' k k'
  end.

(** What the walk of a table at path [p] does, whose pages are the [W] from [lo] on. *)
Definition walks (p : list Z) (lo W : Z) (walk : Z -> Z -> PT (Z * Z + km_result_t)) : Prop :=
  forall s x k, good s root -> node (tables s) root p = Some x -> k = Z.max lo n0 -> k < lo + W -> k < L ->
    fresh s k -> exists r s', walk x (pi_at k) s = Ok (r, s') /\ walked s k (Z.min L (lo + W)) r s'.

(** An upper level, from the walks of the tables below it. *)
Lemma level_walks p lo W i0 stop walk : (length p <= 2)%nat -> 0 < W ->
  (Z.max lo n0 < lo + 512 * W -> idx i0 /\ lo + i0 * W <= Z.max lo n0 < lo + (i0 + 1) * W) ->
  (forall i, idx i -> stop i = (L <=? lo + i * W)) ->
  (forall i, idx i -> walks (p ++ [i]) (lo + i * W) W (walk i)) ->
  walks p lo (512 * W) (fun pg pi =>
    for_loop (Z.to_nat (512 - i0)) i0 (fun i pi => if stop i : bool then ret (Break pi) else below flags pg i pi (walk i)) pi).
Proof.
  intros Hlen HW Hi0 Hstop Hwalk s pg k Hg Hnode Hk Hk2 HkL Hf.
  rewrite Hk in Hk2. destruct (Hi0 Hk2) as [Hi Hlo]. rewrite -Hk in Hk2, Hlo. unfold idx in *.
  set (pos j := Z.min L (Z.max k (lo + j * W))).
  assert (Hend : i0 + Z.of_nat (Z.to_nat (512 - i0)) = 512) by lia.
  assert (HP0 : pos i0 = k) by (unfold pos; lia).
  assert (HP512 : pos 512 = Z.min L (lo + 512 * W)) by (unfold pos; lia).
  apply for_loop_rule with (I := fun j pi s' => pi = pi_at (pos j) /\ prog s s' k (pos j)).
  - rewrite HP0. split; [done |]. by apply prog_refl.
  - intros j pi s1 Hj [-> Hpr]. rewrite Hend in Hj. rewrite Hstop; [lia |].
    assert (HjW : lo + i0 * W <= lo + j * W) by (apply Z.add_le_mono_l, Z.mul_le_mono_nonneg_r; lia).
    assert (Hj1 : lo + (i0 + 1) * W <= lo + (j + 1) * W) by (apply Z.add_le_mono_l, Z.mul_le_mono_nonneg_r; lia).
    destruct (Z.leb_spec L (lo + j * W)) as [Hbr|Hgo].
    + do 2 eexists. split; [reflexivity |]. simpl.
      assert (lo + (j + 1) * W <= lo + 512 * W) by (apply Z.add_le_mono_l, Z.mul_le_mono_nonneg_r; lia).
      replace (Z.min L (lo + 512 * W)) with (pos j) by (unfold pos; lia). done.
    + assert (Hpos : pos j = Z.max (lo + j * W) n0) by (unfold pos; nia).
      assert (Hnext : pos (j + 1) = Z.min L (lo + j * W + W)) by (unfold pos; nia).
      destruct (below_spec s1 p pg j (pi_at (pos j)) (walk j) (pos j)
                  (fun r s3 => walked s1 (pos j) (pos (j + 1)) r s3)) as (r & s3 & E & Hr).
      * apply Hpr. * done. * by apply (pg_node _ _ _ _ Hpr); [lia |]. * unfold idx; lia.
      * intros s2 x Hpr2 Hx. destruct (Hwalk j ltac:(lia) s2 x (pos j)) as (r & s3 & E & Hd).
        -- apply Hpr2. -- done. -- done. -- nia. -- unfold pos in *; nia.
        -- eapply prog_fresh; [| | | | exact Hpr2 |]; [unfold pos; nia | unfold pos; lia | lia | lia |].
           eapply prog_fresh; [| | | | exact Hpr |]; [lia | unfold pos; lia | lia | unfold pos; lia | done].
        -- exists r, s3. split; [done |]. rewrite Hnext. destruct r as [[pi' j']|res]; simpl in *.
           ++ destruct Hd as [-> Hd]. split; [done |]. eapply prog_trans; [| done | done]. unfold pos; nia.
           ++ destruct Hd as (-> & k' & Hk' & Hd). split; [done |]. exists k'. split; [done |].
              eapply prog_trans; [| done | done]. lia.
      * exists r, s3. split; [done |]. destruct r as [pi'|pi'|res]; [| done |].
        -- destruct Hr as (j' & -> & Hr). split; [done |]. eapply prog_trans; [| done | done]. unfold pos; nia.
        -- assert (Hkj : k <= pos j <= L) by (unfold pos; nia). destruct Hr as [[-> Hr]|(-> & k' & Hk' & Hr)].
           ++ split; [done |]. exists (pos j). split; [lia |]. eapply prog_trans; [| done | done]. lia.
           ++ split; [done |]. exists k'. split; [lia |]. eapply prog_trans; [| done | done]. lia.
  - intros pi s1 [-> Hpr]. rewrite Hend HP512 in Hpr |- *. done.
Qed.

End Run.

End PageMap.
