(* ===== verification/PageRange.v ===== *)
(** * Ranges of pages

    The loops of [kh_mmap] put together, for ranges inside one entry of the
    top-level table, and the lookups of [kh_getmap] and
    [hn_get_pgtab_paddr] in any well-formed tree. *)

From S2P Require Import Prelude OMap MemConf PgAlloc PageTable PageTree PageMap.
Import MemConf PageTable PageTree PageMap.

Module PageRange.

(** ** Mapping *)

Section Range.
Context (root n0 L pre access flags pi_diff paddr : Z).
Hypothesis Hpre : prefix_ok pre.
Hypothesis Hrange : 0 <= n0 /\ n0 < L /\ L < 2 ^ 36.
Hypothesis Hflags : has flags MMAP_NO_PGTAB_ALLOC = false.

Let vaddr := pre + n0 * 4096.
Let addr_limit := pre + L * 4096.
Context (pgmask : Z).
Hypothesis Hmask : has pgmask PTE_P = true.

Abbreviation walks := (walks root n0 L access pgmask pi_diff paddr).
Abbreviation walked := (walked root n0 L access pgmask pi_diff paddr).

Lemma stop_at a b c d : idx a -> idx b -> idx c -> idx d ->
  (addr_limit <=? at_index pre a b c d) = (L <=? lin a b c d).
Proof. intros. rewrite at_index_lin //. unfold addr_limit. lia. Qed.

Lemma va_index : PML4X vaddr = ix 3 n0 /\ PDPTX vaddr = ix 2 n0 /\ PDX vaddr = ix 1 n0 /\ PTX vaddr = ix 0 n0.
Proof. exact (page_indexes pre n0 Hpre ltac:(lia)). Qed.

Lemma n0_lin : lin (ix 3 n0) (ix 2 n0) (ix 1 n0) (ix 0 n0) = n0.
Proof. apply lin_ix. lia. Qed.

(** Where each loop starts *)
Lemma start_ptt a b c : idx a -> idx b -> idx c -> let lo := lin a b c 0 in
  let i0 := if (a =? PML4X vaddr) && (b =? PDPTX vaddr) && (c =? PDX vaddr) then PTX vaddr else 0 in
  Z.max lo n0 < lo + 512 -> idx i0 /\ lo + i0 = Z.max lo n0.
Proof.
  intros Ha Hb Hc lo i0. subst lo i0. destruct va_index as (-> & -> & -> & ->). pose proof n0_lin as Hn.
  pose proof (ix_range 3 n0). pose proof (ix_range 2 n0). pose proof (ix_range 1 n0). pose proof (ix_range 0 n0).
  unfold lin, idx in *.
  destruct (Z.eqb_spec a (ix 3 n0)), (Z.eqb_spec b (ix 2 n0)), (Z.eqb_spec c (ix 1 n0)); simpl; lia.
Qed.

Lemma start_pdt a b : idx a -> idx b -> let lo := lin a b 0 0 in
  let i0 := if (a =? PML4X vaddr) && (b =? PDPTX vaddr) then PDX vaddr else 0 in
  Z.max lo n0 < lo + 512 * 512 -> idx i0 /\ lo + i0 * 512 <= Z.max lo n0 < lo + (i0 + 1) * 512.
Proof.
  intros Ha Hb lo i0. subst lo i0. destruct va_index as (-> & -> & -> & _). pose proof n0_lin as Hn.
  pose proof (ix_range 3 n0). pose proof (ix_range 2 n0). pose proof (ix_range 1 n0). pose proof (ix_range 0 n0).
  unfold lin, idx in *.
  destruct (Z.eqb_spec a (ix 3 n0)), (Z.eqb_spec b (ix 2 n0)); simpl; lia.
Qed.

Lemma start_pdpt a : idx a -> let lo := lin a 0 0 0 in
  let i0 := if a =? PML4X vaddr then PDPTX vaddr else 0 in
  Z.max lo n0 < lo + 512 * (512 * 512) -> idx i0 /\ lo + i0 * (512 * 512) <= Z.max lo n0 < lo + (i0 + 1) * (512 * 512).
Proof.
  intros Ha lo i0. subst lo i0. destruct va_index as (-> & -> & _). pose proof n0_lin as Hn.
  pose proof (ix_range 3 n0). pose proof (ix_range 2 n0). pose proof (ix_range 1 n0). pose proof (ix_range 0 n0).
  unfold lin, idx in *. destruct (Z.eqb_spec a (ix 3 n0)); simpl; lia.
Qed.

(** The lowest level maps the pages one by one. *)
Lemma map_ptt_walks a b c : idx a -> idx b -> idx c ->
  walks [a; b; c] (lin a b c 0) 512
    (fun ptt pi => map_ptt vaddr addr_limit pre access flags pgmask pi_diff ptt a b c pi).
Proof.
  intros Ha Hb Hc s ptt k Hg Hnode Hk Hk2 HkL Hf. unfold map_ptt.
  destruct (start_ptt a b c Ha Hb Hc ltac:(lia)) as [Hi Hlo]. cbv zeta in Hi, Hlo.
  set (i0 := if _ : bool then _ else _) in *. set (lo := lin a b c 0) in *.
  assert (Hlin : forall j, lin a b c j = lo + j) by (intros; unfold lo, lin; lia).
  assert (Hlo0 : 0 <= lo) by (unfold lo, lin, idx in *; lia).
  unfold idx in Hi. set (pos j := Z.min L (lo + j)).
  assert (Hend : i0 + Z.of_nat (Z.to_nat (512 - i0)) = 512) by lia.
  apply for_loop_rule with (I := fun j pi s' => pi = pi_at n0 pi_diff paddr (pos j) /\
    prog root n0 access pgmask pi_diff paddr s s' k (pos j)).
  - replace (pos i0) with k by (unfold pos; lia). split; [done |]. by apply prog_refl.
  - intros j pi s1 Hj [-> Hpr]. rewrite Hend in Hj. rewrite stop_at // ?Hlin; [unfold idx; lia |].
    destruct (Z.leb_spec L (lo + j)) as [Hbr|Hgo].
    { do 2 eexists. split; [reflexivity |]. simpl.
      replace (Z.min L (lo + 512)) with (pos j) by (unfold pos; lia). done. }
    assert (Hpj : pos j = lo + j) by (unfold pos; lia). rewrite Hpj in Hpr |- *.
    assert (Hpath : path_of (lo + j) = [a; b; c] /\ ix 0 (lo + j) = j).
    { apply path_of_eq; [done .. | lia | lia |]. by rewrite -Hlin. }
    destruct Hpath as [Hpath Hix].
    pose proof (pg_node _ _ _ _ _ _ _ _ _ _ Hpr [a; b; c] ptt ltac:(simpl; lia) Hnode) as Hnode1.
    destruct (wf_there _ _ (good_wf _ _ (pg_good _ _ _ _ _ _ _ _ _ _ Hpr)) [a; b; c] ptt ltac:(simpl; lia) Hnode1) as [tb Htb].
    assert (Habs : present (entry_of tb j) = false).
    { assert (Hn : page_entry (tables s1) root (lo + j) = None).
      { rewrite (pg_page _ _ _ _ _ _ _ _ _ _ Hpr); [lia |]. rewrite bool_decide_false; [lia |]. apply Hf. lia. }
      unfold page_entry, leaf in Hn. rewrite Hpath Hnode1 Hix /= (entry_present _ _ _ _ Htb) in Hn.
      by destruct (present _). }
    assert (Hj' : idx j) by (unfold idx; lia).
    pose proof (map_page root n0 access pgmask pi_diff paddr Hmask s1 (lo + j) ptt
      (pg_good _ _ _ _ _ _ _ _ _ _ Hpr) ltac:(lia) ltac:(by rewrite Hpath)) as Hstep. rewrite Hix in Hstep.
    do 2 eexists. split.
    + rewrite (bind_ok _ _ _ _ _ (read_ok _ _ _ _ Htb Hj')) Habs.
      rewrite bind_ret. erewrite bind_ok; [| apply write_ok; [by exists tb | done]].
      rewrite pi_next. reflexivity.
    + simpl. replace (pos (j + 1)) with (lo + j + 1) by (unfold pos; lia). split; [done |].
      eapply prog_trans; [| exact Hpr | exact Hstep]. lia.
  - intros pi s1 [-> Hpr]. rewrite Hend in Hpr |- *. by split.
Qed.

Lemma map_pdt_walks a b : idx a -> idx b ->
  walks [a; b] (lin a b 0 0) (512 * 512)
    (fun pdt pi => map_pdt vaddr addr_limit pre access flags pgmask pi_diff pdt a b pi).
Proof.
  intros Ha Hb. unfold map_pdt. cbv zeta.
  apply (level_walks root n0 L access flags pgmask pi_diff paddr Hflags Hrange [a; b] (lin a b 0 0) 512
           (if (a =? PML4X vaddr) && (b =? PDPTX vaddr) then PDX vaddr else 0)
           (fun i => addr_limit <=? at_index pre a b i 0)
           (fun i ptt pi => map_ptt vaddr addr_limit pre access flags pgmask pi_diff ptt a b i pi)).
  - simpl. lia.
  - done.
  - by apply start_pdt.
  - intros i Hi. rewrite stop_at //. unfold lin. f_equal. lia.
  - intros i Hi. replace (lin a b 0 0 + i * 512) with (lin a b i 0) by (unfold lin; lia). by apply map_ptt_walks.
Qed.

Lemma map_pdpt_walks a : idx a ->
  walks [a] (lin a 0 0 0) (512 * (512 * 512))
    (fun pdpt pi => map_pdpt vaddr addr_limit pre access flags pgmask pi_diff pdpt a pi).
Proof.
  intros Ha. unfold map_pdpt. cbv zeta.
  apply (level_walks root n0 L access flags pgmask pi_diff paddr Hflags Hrange [a] (lin a 0 0 0) (512 * 512)
           (if a =? PML4X vaddr then PDPTX vaddr else 0)
           (fun i => addr_limit <=? at_index pre a i 0 0)
           (fun i pdt pi => map_pdt vaddr addr_limit pre access flags pgmask pi_diff pdt a i pi)).
  - simpl. lia.
  - done.
  - by apply start_pdpt.
  - intros i Hi. rewrite stop_at //. unfold lin. f_equal. lia.
  - intros i Hi. replace (lin a 0 0 0 + i * (512 * 512)) with (lin a i 0 0) by (unfold lin; lia). by apply map_pdt_walks.
Qed.

(** The top-level loop, for a range inside one entry *)
Lemma map_pml4_walks s : good s root -> ix 3 n0 = ix 3 L -> fresh root L s n0 ->
  exists r s', map_pml4 vaddr addr_limit pre access flags pgmask pi_diff root (pi_at n0 pi_diff paddr n0) s = Ok (r, s') /\
    walked s n0 L r s'.
Proof.
  intros Hg Hslot Hf. unfold map_pml4.
  destruct (page_indexes pre L Hpre ltac:(lia)) as [HL _]. cbv zeta in HL. fold addr_limit in HL.
  destruct va_index as (Hv & _). rewrite HL Hv -Hslot. replace (Z.to_nat (ix 3 n0 + 1 - ix 3 n0)) with 1%nat by lia.
  pose proof (ix_range 3 n0) as Ha. set (a := ix 3 n0) in *.
  assert (Hlo : lin a 0 0 0 <= n0 /\ L < lin a 0 0 0 + 512 * (512 * 512)).
  { pose proof n0_lin. pose proof (lin_ix L ltac:(lia)) as HLx. rewrite -Hslot in HLx.
    pose proof (ix_range 2 n0). pose proof (ix_range 1 n0). pose proof (ix_range 0 n0).
    pose proof (ix_range 2 L). pose proof (ix_range 1 L). pose proof (ix_range 0 L).
    subst a. unfold lin, idx in *. lia. }
  destruct (below_spec root n0 access flags pgmask pi_diff paddr Hflags s [] root a (pi_at n0 pi_diff paddr n0)
    (fun pdpt pi => map_pdpt vaddr addr_limit pre access flags pgmask pi_diff pdpt a pi) n0
    (fun r s3 => walked s n0 L r s3)) as (r & s3 & E & Hr); [done | simpl; lia | done | done | |].
  - intros s2 x Hpr Hx. destruct (map_pdpt_walks a Ha s2 x n0) as (r & s3 & E & Hd).
    + apply Hpr. + done. + lia. + lia. + lia.
    + eapply prog_fresh; [| | | | exact Hpr | done]; lia.
    + exists r, s3. split; [done |]. rewrite Z.min_l in Hd; [lia |]. destruct r as [[pi' j]|res]; simpl in *.
      * destruct Hd as [-> Hd]. split; [done |]. eapply prog_trans; [| done | done]. lia.
      * destruct Hd as (-> & k' & Hk' & Hd). split; [done |]. exists k'. split; [done |].
        eapply prog_trans; [| done | done]. lia.
  - simpl. rewrite (bind_ok _ _ _ _ _ E). destruct r as [pi'|pi'|res]; [| done |].
    + destruct Hr as (j & Hr). do 2 eexists. split; [reflexivity |]. done.
    + do 2 eexists. split; [reflexivity |]. destruct Hr as [[-> Hr]|Hr]; [| done].
      split; [done |]. exists n0. split; [lia | done].
Qed.

End Range.

End PageRange.
