(* ===== verification/PageClaims.v ===== *)
(** * Claims about page tables

    Mapping a range, looking an address up, and what unmapping inside one entry
    of the top-level table does. *)

From S2P Require Import Prelude OMap MemConf PgAlloc PageTable PageTree PageMap PageRange.
Import MemConf PageTable PageTree PageMap PageRange.

Module PageC.

(** ** A range of pages *)

(** The range from page [n0] to page [L] of one half of the address space,
    inside one entry of the top-level table. *)
Record one_slot (pre n0 L : Z) : Prop := {
  sl_half : pre = 0 /\ L <= 2 ^ 35 \/ pre = 0xffff000000000000 /\ 2 ^ 35 <= n0;
  sl_range : 0 <= n0 /\ n0 < L /\ L < 2 ^ 36;
  sl_slot : ix 3 n0 = ix 3 L
}.

Definition va (pre n : Z) : Z := pre + n * PAGESIZE.

Lemma slot_prefix pre n0 L : one_slot pre n0 L -> prefix_ok pre.
Proof. intros [[[-> _]|[-> _]] _ _]; [by left | by right]. Qed.

Lemma va_limit pre n0 L : one_slot pre n0 L -> w64 (va pre n0 + (L - n0) * PAGESIZE) = pre + L * 4096.
Proof.
  intros [Hh Hr _]. unfold va, PAGESIZE. rewrite w64_small; [unfold in64; lia | lia].
Qed.

Lemma va_prefix pre n0 L : one_slot pre n0 L -> ADDR_PREFIX (va pre n0) = pre.
Proof.
  intros [Hh Hr _]. unfold va, PAGESIZE. destruct Hh as [[-> ?]|[-> ?]].
  - apply user_prefix. unfold user_addr. lia.
  - apply kernel_prefix. unfold kernel_addr. lia.
Qed.

Lemma va_half pre n0 L : one_slot pre n0 L ->
  Bool.eqb (mm_is_user_space (va pre n0))
    (mm_is_user_space (w64 (va pre n0 + w64 ((L - n0) * PAGESIZE - 1)))) = true.
Proof.
  intros [Hh Hr _]. unfold va, PAGESIZE, mm_is_user_space.
  rewrite (w64_small ((L - n0) * 4096 - 1)); [unfold in64; lia |].
  rewrite w64_small; [unfold in64; lia |]. apply eqb_true_iff. lia.
Qed.

Lemma va_slots pre n0 L : one_slot pre n0 L ->
  PML4X (pre + L * 4096) = ix 3 n0 /\ PML4X (va pre n0) = ix 3 n0.
Proof.
  intros Hs. pose proof (sl_range _ _ _ Hs) as Hr. pose proof (slot_prefix _ _ _ Hs) as Hp.
  destruct (page_indexes pre L Hp ltac:(lia)) as [HL _]. destruct (page_indexes pre n0 Hp ltac:(lia)) as [H0 _].
  by rewrite HL -(sl_slot _ _ _ Hs).
Qed.

Lemma root_nonzero s root : good s root -> negb (root =? 0) = true.
Proof. intros Hg. pose proof (good_root _ _ Hg). lia. Qed.

(** Inside one entry of the top-level table no loop of [kh_unmmap] turns. *)
Lemma unmmap_slot s root pre n0 L flags : good s root -> one_slot pre n0 L ->
  kh_unmmap root (va pre n0) ((L - n0) * PAGESIZE) flags s = Ok (tt, s).
Proof.
  intros Hg Hs. unfold kh_unmmap. rewrite (root_nonzero s root) // (va_half pre n0 L) //.
  rewrite (bind_ok _ _ _ _ _ (kd_assert_true s)) (bind_ok _ _ _ _ _ (kd_assert_true s)).
  rewrite (va_limit pre n0 L) //. unfold unmap_pml4. destruct (va_slots pre n0 L Hs) as [-> ->].
  by replace (Z.to_nat (ix 3 n0 - ix 3 n0)) with 0%nat by lia.
Qed.

Lemma pgmask_mapped access : has access MM_PAGE_MAPPED = true -> has (hn_pgaccess_to_pgmask access) PTE_P = true.
Proof.
  intros Hm. unfold hn_pgaccess_to_pgmask. rewrite Hm.
  by destruct (has access MM_PAGE_WRITE), (has access MM_PAGE_NOCACHE), (has access MM_PAGE_USER).
Qed.

(** The entry that [kh_mmap] writes for page [n] of the range *)
Definition entry_at (n0 paddr access n : Z) : pte_t :=
  mkPte (trunc40 (PGROUNDDOWN (if paddr =? 0 then 0 else w64 (paddr + (n - n0) * PAGESIZE))))
    (hn_pgaccess_to_pgmask access) (negb (has access MM_PAGE_EXEC)).

Lemma mmap_holds s root pre n0 L paddr access flags :
  good s root -> one_slot pre n0 L -> has flags MMAP_NO_PGTAB_ALLOC = false ->
  has access MM_PAGE_MAPPED = true -> in64 paddr ->
  (forall n, n0 <= n < L -> page_entry (tables s) root n = None) ->
  exists r s' k, kh_mmap root (va pre n0) paddr ((L - n0) * PAGESIZE) access flags s = Ok (r, s') /\
    good s' root /\ (r = KM_RESULT_OK /\ k = L \/ r = KM_RESULT_NO_MEM /\ n0 <= k <= L) /\
    forall n, 0 <= n < 2 ^ 36 -> page_entry (tables s') root n =
      if bool_decide (n0 <= n < k) then Some (entry_at n0 paddr access n) else page_entry (tables s) root n.
Proof.
  intros Hg Hs Hfl Hac Hpa Hf. pose proof (sl_range _ _ _ Hs) as Hr. pose proof (slot_prefix _ _ _ Hs) as Hp.
  set (pd := if paddr =? 0 then 0 else PAGESIZE).
  destruct (map_pml4_walks root n0 L pre access flags pd paddr Hp Hr Hfl _ (pgmask_mapped _ Hac) s Hg (sl_slot _ _ _ Hs) Hf)
    as (r & s' & E & Hw).
  assert (Hpi : pi_at n0 pd paddr n0 = paddr).
  { unfold pi_at. rewrite Z.sub_diag Z.mul_0_l Z.add_0_r. by apply w64_small. }
  assert (Ht : forall n, target n0 access (hn_pgaccess_to_pgmask access) pd paddr n = entry_at n0 paddr access n).
  { intros n. unfold target, entry_at, pi_at, pd. destruct (Z.eqb_spec paddr 0) as [->|]; [| done].
    by rewrite Z.mul_0_r. }
  rewrite Hpi in E. change (pre + n0 * 4096) with (va pre n0) in E.
  assert (Hrun : kh_mmap root (va pre n0) paddr ((L - n0) * PAGESIZE) access flags s =
    bind (fun s0 => Ok (r, s')) (fun r => match r with
      | inr res => kh_unmmap root (va pre n0) ((L - n0) * PAGESIZE) 0;; ret res
      | inl _ => ret KM_RESULT_OK end) s).
  { unfold kh_mmap. pose proof (root_nonzero s root Hg) as Hnz. apply negb_true_iff in Hnz. rewrite Hnz.
    replace ((L - n0) * PAGESIZE =? 0) with false by (unfold PAGESIZE; lia).
    rewrite (va_half pre n0 L) // (bind_ok _ _ _ _ _ (kd_assert_true s)) (va_limit pre n0 L) // (va_prefix pre n0 L) //.
    fold pd. by rewrite (bind_ok _ _ _ _ _ E). }
  destruct r as [[pi' j]|res]; simpl in Hw.
  - exists KM_RESULT_OK, s', L. split; [by rewrite Hrun |]. destruct Hw as [_ [Hg' _ Hpg]].
    split; [done |]. split; [by left |]. intros n Hn. by rewrite Hpg // Ht.
  - destruct Hw as (-> & k & Hk & [Hg' _ Hpg]). exists KM_RESULT_NO_MEM, s', k. split.
    + rewrite Hrun. unfold bind at 1. by rewrite (bind_ok _ _ _ _ _ (unmmap_slot s' root pre n0 L 0 Hg' Hs)).
    + split; [done |]. split; [by right |]. intros n Hn. by rewrite Hpg // Ht.
Qed.

(** ** Looking an address up *)

(** The present entry that [a] is mapped by *)
Definition lookup_entry (t : store) (root a : Z) : option pte_t :=
  leaf t root [PML4X a; PDPTX a; PDX a] (PTX a).

Lemma idx_land z : idx (Z.land z 0x1ff).
Proof. unfold idx. change 0x1ff with (Z.ones 9). rewrite Z.land_ones; [lia |]. apply Z.mod_pos_bound. lia. Qed.

(** One level down, at a table of the tree *)
Lemma descend_ok {A} s root p pg i (none : A) body r : good s root -> (length p <= 2)%nat ->
  node (tables s) root p = Some pg -> idx i ->
  match child (tables s) pg i with
  | Some x => body x s = Ok (r, s)
  | None => r = none
  end ->
  descend pg i none body s = Ok (r, s).
Proof.
  intros Hg Hlen Hp Hi Hb. unfold descend.
  destruct (wf_there _ _ (good_wf _ _ Hg) p pg) as [tb Htb]; [lia | done |].
  rewrite (bind_ok _ _ _ _ _ (read_ok _ _ _ _ Htb Hi)).
  pose proof (entry_present _ _ i _ Htb) as He. unfold child in Hb. rewrite He in Hb.
  destruct (present (entry_of tb i)) eqn:Hpres; simpl in Hb |- *; [| by subst r].
  destruct (good_used _ _ Hg (p ++ [i]) (UNPGADDR (address (entry_of tb i)))) as (b & a & c & Hx & _).
  - by destruct p.
  - rewrite length_app /=. lia.
  - rewrite node_snoc Hp /= /child He. done.
  - by rewrite (window_page _ _ _ _ _ (good_env _ _ Hg) Hx).
Qed.

Lemma getmap_holds s root a : good s root ->
  kh_getmap root a s = Ok (match lookup_entry (tables s) root a with
                           | Some e => (UNPGADDR (address e), Some (access_of e))
                           | None => (0, None) end, s).
Proof.
  intros Hg. unfold kh_getmap. rewrite (root_nonzero s root) // (bind_ok _ _ _ _ _ (kd_assert_true s)).
  unfold lookup_entry, leaf. change [PML4X a; PDPTX a; PDX a] with (([] ++ [PML4X a]) ++ [PDPTX a] ++ [PDX a]).
  rewrite app_assoc !node_snoc /=.
  apply (descend_ok s root [] root); [done | simpl; lia | done | apply idx_land |].
  destruct (child (tables s) root (PML4X a)) as [pdpt|] eqn:E1; simpl; [| done].
  assert (N1 : node (tables s) root [PML4X a] = Some pdpt) by done.
  apply (descend_ok s root [PML4X a] pdpt); [done | simpl; lia | done | apply idx_land |].
  destruct (child (tables s) pdpt (PDPTX a)) as [pdt|] eqn:E2; simpl; [| done].
  assert (N2 : node (tables s) root [PML4X a; PDPTX a] = Some pdt) by (unfold node; simpl; by rewrite E1 /= E2).
  apply (descend_ok s root [PML4X a; PDPTX a] pdt); [done | simpl; lia | done | apply idx_land |].
  destruct (child (tables s) pdt (PDX a)) as [ptt|] eqn:E3; simpl; [| done].
  assert (N3 : node (tables s) root [PML4X a; PDPTX a; PDX a] = Some ptt) by (unfold node; simpl; by rewrite E1 /= E2 /= E3).
  destruct (wf_there _ _ (good_wf _ _ Hg) [PML4X a; PDPTX a; PDX a] ptt ltac:(simpl; lia) N3) as [tb Htb].
  rewrite (bind_ok _ _ _ _ _ (read_ok _ _ _ _ Htb (idx_land _))) (entry_present _ _ _ _ Htb).
  unfold PTX. by destruct (present (entry_of tb _)).
Qed.

(** An address of page [n] is looked up by the indexes of the page. *)
Lemma lookup_page t root pre n o : prefix_ok pre -> 0 <= n < 2 ^ 36 -> 0 <= o < PAGESIZE ->
  lookup_entry t root (va pre n + o) = page_entry t root n.
Proof.
  intros Hp Hn Ho. unfold lookup_entry, page_entry, path_of.
  assert (Hsh : forall k, 12 <= k -> Z.shiftr (va pre n + o) k = Z.shiftr (va pre n) k).
  { intros k Hk. rewrite !Z.shiftr_div_pow2; [lia | lia |].
    assert (E : 2 ^ k = 4096 * 2 ^ (k - 12)) by (change 4096 with (2 ^ 12); rewrite -Z.pow_add_r; [lia | lia | f_equal; lia]).
    pose proof (Z.pow_pos_nonneg 2 (k - 12) ltac:(lia) ltac:(lia)) as Hpos.
    unfold va, PAGESIZE in *. rewrite E -(Z.div_div (_ + o)); [lia | lia |]. rewrite -(Z.div_div (pre + _)); [lia | lia |]. f_equal.
    destruct Hp as [-> | ->]; [rewrite !Z.add_0_l | replace (0xffff000000000000) with (0xffff000000000 * 4096) by lia;
      rewrite -Z.mul_add_distr_r]; by rewrite Z.add_comm Z.div_add // (Z.div_small o) // Z.div_mul. }
  destruct (page_indexes pre n Hp Hn) as (I3 & I2 & I1 & I0). fold (va pre n) in I3, I2, I1, I0.
  unfold PML4X, PDPTX, PDX, PTX in *. change (pre + n * 4096) with (va pre n) in *.
  by rewrite !Hsh // I3 I2 I1 I0.
Qed.

(** ** Copying the kernel half *)

Lemma copied_ent (t : store) dest d tb x j : t !! dest = Some d ->
  ent (<[dest := copy_upper d tb]> t) x j =
    if bool_decide (x = dest)
    then if bool_decide (j < 256) then ent t dest j
         else if bool_decide (j < 512) then (if present (entry_of tb j) then Some (entry_of tb j) else None) else None
    else ent t x j.
Proof.
  intros Hd. unfold ent. case_bool_decide as Hx; [subst x | by rewrite lookup_insert_ne].
  rewrite lookup_insert_eq Hd /=. unfold entry_of, copy_upper. rewrite lookup_union !map_lookup_filter.
  repeat case_bool_decide; destruct (d !! j), (tb !! j); simpl; repeat case_guard; simpl in *; done || lia.
Qed.

(** Below a path that does not lead to [dest], copying changes nothing. *)
Lemma copied_child_ne (t : store) dest d tb x j : t !! dest = Some d -> x <> dest ->
  child (<[dest := copy_upper d tb]> t) x j = child t x j.
Proof. intros Hd Hx. apply child_ext. by rewrite (copied_ent t dest d) // bool_decide_false. Qed.

Lemma copied_below (t : store) dest d tb pg q : t !! dest = Some d ->
  (forall p, node t pg p <> Some dest) -> node (<[dest := copy_upper d tb]> t) pg q = node t pg q.
Proof.
  intros Hd Hn. induction q as [|i q IH] using rev_ind; [done |]. rewrite !node_snoc IH.
  destruct (node t pg q) as [x|] eqn:Hx; [| done]. simpl. apply (copied_child_ne t dest d); [done |]. intros ->. by apply (Hn q).
Qed.

Lemma node_cons (t : store) root i p : node t root (i :: p) = child t root i ≫= fun pg => node t pg p.
Proof.
  induction p as [|j p IH] using rev_ind.
  - unfold node. simpl. by destruct (child t root i).
  - rewrite app_comm_cons !node_snoc IH. destruct (child t root i); simpl; [by rewrite node_snoc | done].
Qed.

(** A root that no table refers to: following entries from another table
    never leads to it. *)
Definition unreferenced (t : store) (dest : Z) : Prop := forall x j, child t x j <> Some dest.

Lemma unreferenced_node t dest pg p : unreferenced t dest -> pg <> dest -> node t pg p <> Some dest.
Proof.
  intros Hu Hne. destruct p as [|i p _] using rev_ind; [intros [= E]; congruence |].
  rewrite node_snoc. destruct (node t pg p) as [x|]; [apply Hu | done].
Qed.

(** What a path from the destination leads to. *)
Lemma copied_leaf (t : store) dest src d tb i p k : t !! dest = Some d -> t !! src = Some tb -> dest <> src ->
  unreferenced t dest -> 0 <= i < 512 ->
  leaf (<[dest := copy_upper d tb]> t) dest (i :: p) k =
    if bool_decide (i < 256) then leaf t dest (i :: p) k else leaf t src (i :: p) k.
Proof.
  intros Hd Hs Hne Hu Hi. unfold leaf. rewrite !node_cons.
  assert (Hc : child (<[dest := copy_upper d tb]> t) dest i =
               if bool_decide (i < 256) then child t dest i else child t src i).
  { unfold child. rewrite (copied_ent t dest d) // (bool_decide_true (dest = dest)) //. case_bool_decide; [done |].
    rewrite (bool_decide_true (i < 512)); [lia |]. by rewrite (entry_present _ _ _ _ Hs). }
  rewrite Hc.
  assert (Hgo : forall pg, pg <> dest ->
    node (<[dest := copy_upper d tb]> t) pg p ≫= (fun x => ent (<[dest := copy_upper d tb]> t) x k) =
    node t pg p ≫= (fun x => ent t x k)).
  { intros pg Hpg. rewrite (copied_below t dest d); [done | intros q; by apply unreferenced_node |].
    destruct (node t pg p) as [x|] eqn:Hx; [| done]. simpl. rewrite (copied_ent t dest d) // bool_decide_false //.
    intros ->. by apply (unreferenced_node t dest pg p). }
  case_bool_decide; [destruct (child t dest i) as [x|] eqn:Hx | destruct (child t src i) as [x|] eqn:Hx]; simpl; try done;
    apply Hgo; intros ->; by eapply Hu.
Qed.

(** ** The temporary mapping *)

Definition slot (s : pt_st) (k : Z) : pte_t := default zero_pte (tmp_slots s !! k).

(** Slot [k] is the first that the search takes for free. *)
Definition first_free (s : pt_st) (k : Z) : Prop :=
  0 <= k < 254 /\ Z.ldiff (mask (slot s k)) PTE_P = 0 /\
  forall j, 0 <= j < k -> Z.ldiff (mask (slot s j)) PTE_P <> 0.

Record tmp_area (s : pt_st) : Prop := {
  ta_base : 0 < tmpmap_base s;
  ta_end : tmpmap_base s + KINITTMPMAP_SIZE - 1 <= tmpmap_end s;
  ta_top : tmpmap_end s < 2 ^ 64
}.

Lemma slot_addr s k : tmp_area s -> 0 <= k < 254 ->
  in64 (tmpmap_base s + k * PAGESIZE) /\ tmpmap_base s + k * PAGESIZE <= tmpmap_end s /\ (k * PAGESIZE) / PAGESIZE = k /\
  (k * PAGESIZE <? KINITTMPMAP_SIZE - PAGESIZE) = true.
Proof. intros [? ? ?] Hk. unfold in64, PAGESIZE, KINITTMPMAP_SIZE in *. rewrite Z.div_mul //. lia. Qed.

(** The search stops at the first slot that passes for free. *)
Lemma search_finds s k n : tmp_area s -> first_free s k -> forall j last, Z.to_nat (k - j) = n -> 0 <= j <= k ->
  forall m, (n + 2 <= m)%nat ->
  tmp_search m (j * PAGESIZE) PAGESIZE 0 0 last s = Ok (tmpmap_base s + k * PAGESIZE, k * PAGESIZE, s).
Proof.
  intros Ha (Hk & Hfree & Hbusy). induction n as [|n IH]; intros j last Hn Hj [|m] Hm; try lia.
  - assert (j = k) as -> by lia. destruct (slot_addr s k Ha Hk) as (H64 & Hle & Hdiv & Hlt). simpl.
    rewrite Hlt w64_small //. replace (tmpmap_end s <? _) with false by lia. rewrite Hdiv.
    fold (slot s k). rewrite Hfree. cbn [negb Z.eqb].
    destruct m as [|m]; [lia |]. simpl. unfold PAGESIZE, KINITTMPMAP_SIZE in *.
    by replace (_ <? _) with true by lia.
  - destruct (slot_addr s j Ha ltac:(lia)) as (H64 & Hle & Hdiv & Hlt). simpl.
    rewrite Hlt w64_small //. replace (tmpmap_end s <? _) with false by lia. rewrite Hdiv.
    fold (slot s j). rewrite (proj2 (Z.eqb_neq _ 0) (Hbusy j ltac:(lia))). cbn [negb].
    replace (j * PAGESIZE + PAGESIZE) with ((j + 1) * PAGESIZE) by ring. apply IH; lia.
Qed.

Definition fill_slot (s : pt_st) (k paddr m : Z) : pt_st :=
  with_slots s (<[k := mkPte (trunc40 (PGROUNDDOWN (w64 paddr))) m (xd (slot s k))]> (tmp_slots s)).

Lemma tmpmap_page s k paddr m : tmp_area s -> first_free s k -> PGOFF paddr = 0 -> has m PTE_P = true ->
  hn_tmpmap_post paddr PAGESIZE m s =
    if present (slot s k) then Panic else Ok (tmpmap_base s + k * PAGESIZE, fill_slot s k paddr m).
Proof.
  intros Ha Hf Hp Hm. unfold hn_tmpmap_post. rewrite Hp Hm.
  do 4 rewrite (bind_ok _ _ _ _ _ (kd_assert_true s)).
  pose proof Hf as (Hk & _).
  rewrite (bind_ok _ _ _ _ _ (search_finds s k _ Ha Hf 0 0 eq_refl ltac:(lia) 257 ltac:(lia))).
  unfold bind. change (Z.to_nat (PAGESIZE / PAGESIZE)) with 1%nat. simpl.
  destruct (slot_addr s k Ha Hk) as (_ & _ & Hdiv & _).
  rewrite Hdiv. fold (slot s k). destruct (present (slot s k)); [done |]. by rewrite Z.add_0_r.
Qed.

Lemma tmpunmap_page s k : tmp_area s -> 0 <= k < 254 -> PGOFF (tmpmap_base s) = 0 -> present (slot s k) = true ->
  hn_tmpunmap_post (tmpmap_base s + k * PAGESIZE) PAGESIZE s =
    Ok (tt, with_slots s (<[k := mkPte (address (slot s k)) PTE_P (xd (slot s k))]> (tmp_slots s))).
Proof.
  intros Ha Hk Hb Hp. destruct (slot_addr s k Ha Hk) as (H64 & Hle & Hdiv & _). unfold hn_tmpunmap_post.
  assert (Hoff : PGOFF (tmpmap_base s + k * PAGESIZE) = 0).
  { unfold PGOFF, PAGESIZE in *. change 0xfff with (Z.ones 12) in *. rewrite !Z.land_ones in Hb |- *; try lia.
    by change (2 ^ 12) with 4096 in *; rewrite Z_mod_plus_full. }
  rewrite Hoff (bind_ok _ _ _ _ _ (kd_assert_true s)). change (Z.to_nat (PAGESIZE / PAGESIZE)) with 1%nat. simpl.
  rewrite Z.add_0_r w64_small //. replace (tmpmap_end s <? _) with false by lia.
  replace (tmpmap_base s + k * PAGESIZE - tmpmap_base s) with (k * PAGESIZE) by lia.
  rewrite Hdiv Z.add_0_r. fold (slot s k). by rewrite Hp.
Qed.

End PageC.
