(* ===== verification/PageTheorems.v ===== *)
(** * Theorems about page tables

    The properties of the paging code, each with a concrete instance: a
    machine with three free pages and an empty top-level table, and one with a
    temporary mapping area. *)

From S2P Require Import Prelude OMap MemConf PgAlloc PageTable PageTree PageMap PageRange PageClaims.
Import MemConf PageTable PageTree PageMap PageRange PageC.

Module PageT.

(** ** A small machine *)

Definition demo_root : Z := 0xffffc00000000000.

Definition three_pages : gmap Z PgAlloc.ki_pmad_t :=
  {[ 4096 := PgAlloc.mkPmad 12288 0 (Some 4096) {[ 4096; 8192; 12288 ]} ]}.

(** Three free pages, directly mapped, and an empty top-level table. *)
Definition machine : pt_st :=
  mkPt {[ demo_root := ∅ ]}
    (PgAlloc.mkPg three_pages
       (<[4096 := PgAlloc.mkMad (Some 8192) None 0]>
          (<[8192 := PgAlloc.mkMad (Some 12288) (Some 4096) 0]>
             {[ 12288 := PgAlloc.mkMad None (Some 8192) 0 ]})))
    {[ 4096 := 0xffff800000001000 ]} ∅ 0xffffffffa0000000 0xffffffffa00fffff.

Lemma machine_frames : PgAlloc.pg_inv (frames machine).
Proof.
  split.
  - split; unfold machine, three_pages; simpl.
    + intros b a. rewrite lookup_singleton_Some. intros [<- <-]. simpl. lia.
    + intros b1 a1 b2 a2. rewrite !lookup_singleton_Some. lia.
    + intros b a x. rewrite lookup_singleton_Some. intros [<- <-]. simpl. set_solver by lia.
  - unfold machine, three_pages; simpl. intros b a. rewrite lookup_singleton_Some. intros [<- <-].
    exists [4096; 8192; 12288], None. split; simpl; try done.
    + apply (bool_decide_unpack _). by vm_compute.
    + set_solver.
    + intros x. rewrite !elem_of_union !elem_of_singleton. intros [[->| ->]| ->]; vm_compute; eauto.
    + set_solver.
    + set_solver.
Qed.

Lemma machine_empty pg i : ent (tables machine) pg i = None.
Proof.
  unfold ent, machine. simpl. destruct (decide (pg = demo_root)) as [->|Hne].
  - by rewrite lookup_singleton_eq.
  - by rewrite lookup_singleton_ne.
Qed.

Lemma machine_node p x : node (tables machine) demo_root p = Some x -> p = [] /\ x = demo_root.
Proof.
  destruct p as [|i p _] using rev_ind; [by intros [= <-] |]. rewrite node_snoc.
  destruct (node _ _ p); simpl; [| done]. unfold child. by rewrite machine_empty.
Qed.

Lemma machine_good : good machine demo_root.
Proof.
  split.
  - split; [exact machine_frames |]. intros b a x [[Hb Hx] _].
    unfold machine, three_pages in Hb |- *. simpl in *. rewrite lookup_singleton_Some in Hb.
    destruct Hb as [<- <-]. simpl in Hx. rewrite !elem_of_union !elem_of_singleton in Hx.
    destruct Hx as [[->| ->]| ->]; (split; [done |]; split; [lia |]; exists 0xffff800000001000;
      rewrite lookup_singleton_eq; split; [done | unfold DIRECTPHYMEM_VTOP; lia]).
  - split.
    + intros p q pg _ _ [-> ->]%machine_node [-> _]%machine_node. done.
    + intros p pg _ [-> ->]%machine_node. unfold machine. simpl. rewrite lookup_singleton_eq. by eexists.
  - unfold demo_root. lia.
  - intros p x Hp _ [-> _]%machine_node. done.
Qed.

Lemma machine_unmapped n : page_entry (tables machine) demo_root n = None.
Proof.
  unfold page_entry, leaf. destruct (node _ _ _) as [x|]; [| done]. simpl. apply machine_empty.
Qed.

(** Pages 16 to 18 of the lower half *)
Lemma small_slot : one_slot 0 16 18.
Proof. split; [by left | lia | by vm_compute]. Qed.

Definition rw_user : Z := Z.lor MM_PAGE_MAPPED (Z.lor MM_PAGE_READ (Z.lor MM_PAGE_WRITE MM_PAGE_USER)).

(** ** Mapping and looking up *)

(** C19: on a range of unmapped pages inside one entry of the top-level table,
    [kh_mmap] always returns.  Success maps every page of the range, and only
    those, to consecutive frames (to frame 0 when no address is given) with the
    requested access; without memory a first part of the range stays mapped.
    No other page changes, and the tables stay a tree of pages in use. *)
Theorem kh_mmap_correct s root pre n0 L paddr access flags :
  good s root -> one_slot pre n0 L -> has flags MMAP_NO_PGTAB_ALLOC = false ->
  has access MM_PAGE_MAPPED = true -> in64 paddr ->
  (forall n, n0 <= n < L -> page_entry (tables s) root n = None) ->
  exists r s' k, kh_mmap root (va pre n0) paddr ((L - n0) * PAGESIZE) access flags s = Ok (r, s') /\
    good s' root /\ (r = KM_RESULT_OK /\ k = L \/ r = KM_RESULT_NO_MEM /\ n0 <= k <= L) /\
    forall n, 0 <= n < 2 ^ 36 -> page_entry (tables s') root n =
      if bool_decide (n0 <= n < k) then Some (entry_at n0 paddr access n) else page_entry (tables s) root n.
Proof. apply mmap_holds. Qed.

Lemma kh_mmap_correct_witness : exists r s' k,
  kh_mmap demo_root (va 0 16) 0x5000 ((18 - 16) * PAGESIZE) rw_user 0 machine = Ok (r, s') /\
    good s' demo_root /\ (r = KM_RESULT_OK /\ k = 18 \/ r = KM_RESULT_NO_MEM /\ 16 <= k <= 18) /\
    forall n, 0 <= n < 2 ^ 36 -> page_entry (tables s') demo_root n =
      if bool_decide (16 <= n < k) then Some (entry_at 16 0x5000 rw_user n)
      else page_entry (tables machine) demo_root n.
Proof.
  exact (kh_mmap_correct machine demo_root 0 16 18 0x5000 rw_user 0 machine_good small_slot eq_refl eq_refl
    ltac:(unfold in64; lia) (fun n _ => machine_unmapped n)).
Defined.

(** In a well-formed tree of tables [kh_getmap] returns the frame and the
    access of the present entry that the indexes of the address lead to, or
    null when there is none; it changes nothing. *)
Theorem kh_getmap_correct s root a : good s root ->
  kh_getmap root a s = Ok (match lookup_entry (tables s) root a with
                           | Some e => (UNPGADDR (address e), Some (access_of e))
                           | None => (0, None) end, s).
Proof. apply getmap_holds. Qed.

Lemma kh_getmap_correct_witness : kh_getmap demo_root 0x10000 machine = Ok (0, None, machine).
Proof. exact (kh_getmap_correct machine demo_root 0x10000 machine_good). Defined.

Lemma frame_of n0 paddr access n : PGOFF paddr = 0 -> 0 < paddr -> n0 <= n -> paddr + (n - n0) * PAGESIZE < 2 ^ 52 ->
  UNPGADDR (address (entry_at n0 paddr access n)) = paddr + (n - n0) * PAGESIZE.
Proof.
  intros Ho Hp Hn Hlim. unfold entry_at. rewrite (proj2 (Z.eqb_neq paddr 0)); [lia |]. simpl.
  unfold PAGESIZE in *. rewrite w64_small; [unfold in64; lia |]. apply unpage; [| lia].
  unfold PGOFF in Ho. change 0xfff with (Z.ones 12) in Ho. rewrite Z.land_ones in Ho; [lia |].
  change (2 ^ 12) with 4096 in Ho. by rewrite Z_mod_plus_full.
Qed.

Lemma access_of_entry n0 paddr access n : has access MM_PAGE_MAPPED = true ->
  let acc := access_of (entry_at n0 paddr access n) in
  has acc MM_PAGE_READ = true /\ has acc MM_PAGE_MAPPED = true /\
  has acc MM_PAGE_WRITE = has access MM_PAGE_WRITE /\ has acc MM_PAGE_USER = has access MM_PAGE_USER /\
  has acc MM_PAGE_EXEC = has access MM_PAGE_EXEC.
Proof.
  intros Hm. unfold access_of, entry_at, hn_pgaccess_to_pgmask. cbn [mask xd]. rewrite Hm.
  by destruct (has access MM_PAGE_WRITE), (has access MM_PAGE_NOCACHE), (has access MM_PAGE_USER), (has access MM_PAGE_EXEC).
Qed.


Definition machine_mapped : outcome (km_result_t * pt_st) :=
  kh_mmap demo_root (va 0 16) 0x5000 ((18 - 16) * PAGESIZE) rw_user 0 machine.


(** [kh_unmmap] does nothing on a range inside one entry of the top-level
    table: its loop over that level ends before the last entry of the range.
    Every page that was mapped stays mapped. *)
Theorem kh_unmmap_one_slot s root pre n0 L flags : good s root -> one_slot pre n0 L ->
  kh_unmmap root (va pre n0) ((L - n0) * PAGESIZE) flags s = Ok (tt, s).
Proof. apply unmmap_slot. Qed.

Lemma kh_unmmap_one_slot_witness : kh_unmmap demo_root (va 0 16) ((18 - 16) * PAGESIZE) 0 machine = Ok (tt, machine).
Proof. exact (kh_unmmap_one_slot machine demo_root 0 16 18 0 machine_good small_slot). Defined.

(** ** The kernel half *)

(** After [kh_mm_copy_global_mappings] every address of the kernel half is
    mapped in the destination as in the source, and every address of the user
    half as it was in the destination. *)
Theorem copy_global_correct s dest src : dest <> src ->
  is_Some (tables s !! dest) -> is_Some (tables s !! src) -> unreferenced (tables s) dest ->
  exists s', kh_mm_copy_global_mappings dest src s = Ok (tt, s') /\
    forall a, lookup_entry (tables s') dest a =
      if bool_decide (PML4X a < 256) then lookup_entry (tables s) dest a else lookup_entry (tables s) src a.
Proof.
  intros Hne [d Hd] [t Ht] Hu. unfold kh_mm_copy_global_mappings.
  rewrite (proj2 (Z.eqb_neq _ _) Hne) Hd Ht. eexists. split; [reflexivity |]. intros a. cbn [tables with_tables].
  unfold lookup_entry. apply copied_leaf; [done .. | apply idx_land].
Qed.

(** A kernel context with one mapped page and an empty second context. *)
Definition two_contexts : pt_st :=
  mkPt {[ demo_root := {[ 256 := mkPte 1 3 false ]}; 0x1000 := {[ 0 := mkPte 2 3 false ]};
          0x2000 := {[ 0 := mkPte 3 3 false ]}; 0x3000 := {[ 0 := mkPte 9 3 false ]};
          demo_root + 0x1000 := ∅ ]}
    (frames machine) ∅ ∅ 0 0.

Lemma two_contexts_unreferenced : unreferenced (tables two_contexts) (demo_root + 0x1000).
Proof.
  intros x j. unfold child, ent. destruct (tables two_contexts !! x) as [tb|] eqn:Hx; [| done]. simpl.
  unfold two_contexts in Hx. simpl in Hx.
  repeat (rewrite lookup_insert_Some in Hx; destruct Hx as [[_ <-]|[_ Hx]]);
    [.. | by rewrite lookup_empty in Hx];
    unfold entry_of; (try destruct (decide (j = 0)) as [->|?]); (try destruct (decide (j = 256)) as [->|?]);
    rewrite ?lookup_singleton_eq ?lookup_singleton_ne ?lookup_empty //.
Qed.

Lemma copy_global_correct_witness : exists s',
  kh_mm_copy_global_mappings (demo_root + 0x1000) demo_root two_contexts = Ok (tt, s') /\
  lookup_entry (tables s') (demo_root + 0x1000) 0xffff800000000000 = Some (mkPte 9 3 false).
Proof.
  destruct (copy_global_correct two_contexts (demo_root + 0x1000) demo_root ltac:(lia)
    ltac:(by eexists) ltac:(by eexists) two_contexts_unreferenced) as (s' & E & Ha).
  exists s'. split; [exact E |]. rewrite Ha. by vm_compute.
Defined.

(** ** The temporary mapping *)

(** The temporary mapping of a page maps the first slot that passes for
    free and returns its address, but unmapping it leaves the slot present, so
    that the next temporary mapping of a page takes the same slot and fails its
    assertion. *)
Theorem tmpmap_once s k paddr m : tmp_area s -> PGOFF (tmpmap_base s) = 0 -> first_free s k ->
  present (slot s k) = false -> PGOFF paddr = 0 -> has m PTE_P = true ->
  exists s1 s2, hn_tmpmap_post paddr PAGESIZE m s = Ok (tmpmap_base s + k * PAGESIZE, s1) /\
    slot s1 k = mkPte (trunc40 (PGROUNDDOWN (w64 paddr))) m (xd (slot s k)) /\
    (forall j, j <> k -> slot s1 j = slot s j) /\
    hn_tmpunmap_post (tmpmap_base s + k * PAGESIZE) PAGESIZE s1 = Ok (tt, s2) /\
    forall paddr' m', PGOFF paddr' = 0 -> has m' PTE_P = true -> hn_tmpmap_post paddr' PAGESIZE m' s2 = Panic.
Proof.
  intros Ha Hb Hf Hp Ho Hm. pose proof Hf as (Hk & Hfr & Hbusy).
  exists (fill_slot s k paddr m). set (s1 := fill_slot s k paddr m).
  assert (Hk1 : slot s1 k = mkPte (trunc40 (PGROUNDDOWN (w64 paddr))) m (xd (slot s k)))
    by (unfold slot, s1, fill_slot; simpl; by rewrite lookup_insert_eq).
  assert (Hne : forall j, j <> k -> slot s1 j = slot s j)
    by (intros j Hj; unfold slot, s1, fill_slot; simpl; by rewrite lookup_insert_ne).
  assert (Ha1 : tmp_area s1) by (by destruct Ha).
  eexists. split; [by rewrite (tmpmap_page s k) // Hp |]. split; [done |]. split; [done |].
  split; [exact (tmpunmap_page s1 k Ha1 Hk Hb ltac:(unfold present; by rewrite Hk1)) |].
  intros paddr' m' Ho' Hm'. set (s2 := with_slots _ _).
  assert (Hk2 : mask (slot s2 k) = PTE_P) by (unfold slot, s2; simpl; by rewrite lookup_insert_eq).
  assert (Hf2 : first_free s2 k).
  { split; [done |]. rewrite Hk2. split; [done |]. intros j Hj.
    assert (E : slot s2 j = slot s j). { rewrite -(Hne j); [lia |]. unfold slot, s2. simpl. rewrite lookup_insert_ne; [lia | done]. }
    rewrite E. by apply Hbusy. }
  assert (Ha2 : tmp_area s2) by (by destruct Ha). assert (Hp2 : present (slot s2 k) = true) by (unfold present; by rewrite Hk2).
  by rewrite (tmpmap_page s2 k paddr' m' Ha2 Hf2 Ho' Hm') Hp2.
Qed.

Lemma tmpmap_once_witness : exists s1 s2,
  hn_tmpmap_post 0x5000 PAGESIZE 3 machine = Ok (0xffffffffa0000000 + 0 * PAGESIZE, s1) /\
  hn_tmpunmap_post (0xffffffffa0000000 + 0 * PAGESIZE) PAGESIZE s1 = Ok (tt, s2) /\
  hn_tmpmap_post 0x6000 PAGESIZE 3 s2 = Panic.
Proof.
  assert (Ha : tmp_area machine) by (split; simpl; unfold KINITTMPMAP_SIZE; lia).
  assert (Hf : first_free machine 0) by (split; [lia |]; split; [done | lia]).
  destruct (tmpmap_once machine 0 0x5000 3 Ha eq_refl Hf eq_refl eq_refl eq_refl) as (s1 & s2 & E1 & _ & _ & E2 & E3).
  exists s1, s2. split; [exact E1 |]. split; [exact E2 |]. exact (E3 0x6000 3 eq_refl eq_refl).
Defined.

(** ** Two examples *)

(** A tree in which only page 2 is mapped *)
Definition fragmented : pt_st :=
  mkPt {[ demo_root := {[ 0 := mkPte 1 7 false ]}; 0x1000 := {[ 0 := mkPte 2 7 false ]};
          0x2000 := {[ 0 := mkPte 3 7 false ]}; 0x3000 := {[ 2 := mkPte 9 7 false ]} ]}
    (frames machine) (direct_bases machine) ∅ 0 0.

(** [kh_vmalloc] adds up free pages on both sides of a mapped page: asked for
    two pages it maps over page 2 and fails there, although pages 3 and 4 are
    free. *)
Example vmalloc_fragmented :
  kh_vmalloc demo_root 0x1000 0x100000 (2 * PAGESIZE) rw_user 0 fragmented = Panic /\
  page_entry (tables fragmented) demo_root 1 = None /\ page_entry (tables fragmented) demo_root 3 = None /\
  page_entry (tables fragmented) demo_root 4 = None.
Proof. by vm_compute. Qed.

(** Two kernel pages mapped one after the other in the early stage. *)
Definition early_twice : outcome (Z * pt_st) :=
  (hn_mm_mmap_early demo_root 0xffffffff80000000 0x9000 rw_user 0x1000 0x2000 0x3000;;
   hn_mm_mmap_early demo_root 0xffffffff80001000 0xa000 rw_user 0x4000 0x5000 0x6000) machine.

(** [hn_mm_mmap_early] tests the first entry of the page-directory-pointer
    table instead of the entry it is about to set: the second call puts in a
    new page directory, and the first page is no longer mapped. *)
Example early_overwrites : exists r s', early_twice = Ok (r, s') /\
  lookup_entry (tables s') demo_root 0xffffffff80001000 <> None /\
  lookup_entry (tables s') demo_root 0xffffffff80000000 = None.
Proof. do 2 eexists. split; [vm_compute; reflexivity |]. by vm_compute. Qed.

End PageT.
