(* ===== verification/Kima.v ===== *)
(** * The kernel heap

    kernel/mm/kima: a pool hands out blocks that lie in pages it has obtained.
    Page descriptors count the blocks of each page; block records hold their
    size.  Both kinds of record live in slots of pool pages, and are either in
    a query tree, by the address they describe, or in a free tree, by their
    own.  A tree is an ordered map from key to the address of the record
    ([OMap]); the pool pages carry a header with the number of used slots and
    the links of a list.

    The pages come from the memory manager through [Backend].  An access to a
    record or header outside the pages of the pool is a [Fault], as is an
    integer division by zero.  The pool's mutex is represented by whether it
    is held. *)

From S2P Require Import Prelude OMap MemConf.
Import MemConf.

Module Kima.

(** What the pool uses of the memory manager, on a state of its own: the
    arguments are those that vary. *)
Class Backend (H : Type) := {
  mm_kvmalloc : Z -> M H Z;
  mm_pgalloc : M H Z;
  mm_mmap : Z -> Z -> Z -> M H km_result_t;
  mm_getmap : Z -> M H Z;
  mm_pgfree : Z -> M H unit;
  mm_vmfree : Z -> Z -> M H unit
}.

(** [kima_vpgdesc_t], [kima_ublk_t] *)
Record kima_vpgdesc_t := mkDesc { d_rb_value : Z; ref_count : Z }.
Record kima_ublk_t := mkUblk { u_rb_value : Z; u_size : Z }.

(** [kima_ublk_poolpg_header_t], [kima_vpgdesc_poolpg_header_t]; null is 0 *)
Record header_t := mkHeader { prev : Z; next : Z; used_num : Z }.

(** The layout the compiler gives the records *)
Record abi := mkAbi {
  sizeof_header : Z;
  sizeof_vpgdesc : Z;
  alignof_vpgdesc : Z;
  sizeof_ublk : Z;
  alignof_ublk : Z
}.

(** [kima_pool_t], with the records, the headers and the contents of memory *)
Record kima_pool_t (H : Type) := mkPool {
  mutex : bool;
  ublk_poolpg_list : Z;
  ublk_query_tree : gmap Z Z;
  ublk_free_tree : gmap Z Z;
  vpgdesc_poolpg_list : Z;
  vpgdesc_query_tree : gmap Z Z;
  vpgdesc_free_tree : gmap Z Z;
  num_allocated_pages : Z;
  page_size : Z;
  _initialized : bool;
  ublk_slots_off : Z;
  ublk_slots_size : Z;
  vpgdesc_slots_off : Z;
  vpgdesc_slots_size : Z;
  ublks : gmap Z kima_ublk_t;
  vpgdescs : gmap Z kima_vpgdesc_t;
  headers : gmap Z header_t;
  bytes : gmap Z Z;
  hw : H
}.
Arguments mkPool {H}.
Arguments mutex {H}.
Arguments ublk_poolpg_list {H}.
Arguments ublk_query_tree {H}.
Arguments ublk_free_tree {H}.
Arguments vpgdesc_poolpg_list {H}.
Arguments vpgdesc_query_tree {H}.
Arguments vpgdesc_free_tree {H}.
Arguments num_allocated_pages {H}.
Arguments page_size {H}.
Arguments _initialized {H}.
Arguments ublk_slots_off {H}.
Arguments ublk_slots_size {H}.
Arguments vpgdesc_slots_off {H}.
Arguments vpgdesc_slots_size {H}.
Arguments ublks {H}.
Arguments vpgdescs {H}.
Arguments headers {H}.
Arguments bytes {H}.
Arguments hw {H}.

Section Ops.
Context {H : Type} `{Backend H}.

(** [PBOS_ISOVERLAPPED], a macro of the build, and the layout of the records *)
Context (PBOS_ISOVERLAPPED : Z -> Z -> Z -> Z -> bool) (lay : abi).

Abbreviation pool := (kima_pool_t H).
Abbreviation KM := (M pool).

(** ** Access to the state *)

Definition of_outcome {A} (o : outcome A) : KM A := fun s =>
  match o with Ok a => Ok (a, s) | Panic => Panic | Fault => Fault | NoFuel => NoFuel end.

Definition get {A} (f : pool -> A) : KM A := fun s => Ok (f s, s).

Definition with_mm (s : pool) (h : H) : pool :=
  mkPool (mutex s) (ublk_poolpg_list s) (ublk_query_tree s) (ublk_free_tree s)
    (vpgdesc_poolpg_list s) (vpgdesc_query_tree s) (vpgdesc_free_tree s) (num_allocated_pages s)
    (page_size s) (_initialized s) (ublk_slots_off s) (ublk_slots_size s)
    (vpgdesc_slots_off s) (vpgdesc_slots_size s) (ublks s) (vpgdescs s) (headers s) (bytes s) h.

Definition lift {A} (m : M H A) : KM A := fun s =>
  match m (hw s) with
  | Ok (a, h) => Ok (a, with_mm s h)
  | Panic => Panic
  | Fault => Fault
  | NoFuel => NoFuel
  end.

Definition set_mutex (b : bool) : KM unit := fun s =>
  Ok (tt, mkPool b (ublk_poolpg_list s) (ublk_query_tree s) (ublk_free_tree s)
    (vpgdesc_poolpg_list s) (vpgdesc_query_tree s) (vpgdesc_free_tree s) (num_allocated_pages s)
    (page_size s) (_initialized s) (ublk_slots_off s) (ublk_slots_size s)
    (vpgdesc_slots_off s) (vpgdesc_slots_size s) (ublks s) (vpgdescs s) (headers s) (bytes s) (hw s)).

(** The records, trees and list of one kind, replaced together *)
Definition put_ublks (l : Z) (q f : gmap Z Z) (u : gmap Z kima_ublk_t) : KM unit := fun s =>
  Ok (tt, mkPool (mutex s) l q f
    (vpgdesc_poolpg_list s) (vpgdesc_query_tree s) (vpgdesc_free_tree s) (num_allocated_pages s)
    (page_size s) (_initialized s) (ublk_slots_off s) (ublk_slots_size s)
    (vpgdesc_slots_off s) (vpgdesc_slots_size s) u (vpgdescs s) (headers s) (bytes s) (hw s)).

Definition put_vpgdescs (l : Z) (q f : gmap Z Z) (d : gmap Z kima_vpgdesc_t) : KM unit := fun s =>
  Ok (tt, mkPool (mutex s) (ublk_poolpg_list s) (ublk_query_tree s) (ublk_free_tree s)
    l q f (num_allocated_pages s)
    (page_size s) (_initialized s) (ublk_slots_off s) (ublk_slots_size s)
    (vpgdesc_slots_off s) (vpgdesc_slots_size s) (ublks s) d (headers s) (bytes s) (hw s)).

Definition put_headers (m : gmap Z header_t) : KM unit := fun s =>
  Ok (tt, mkPool (mutex s) (ublk_poolpg_list s) (ublk_query_tree s) (ublk_free_tree s)
    (vpgdesc_poolpg_list s) (vpgdesc_query_tree s) (vpgdesc_free_tree s) (num_allocated_pages s)
    (page_size s) (_initialized s) (ublk_slots_off s) (ublk_slots_size s)
    (vpgdesc_slots_off s) (vpgdesc_slots_size s) (ublks s) (vpgdescs s) m (bytes s) (hw s)).

(** [pool->num_allocated_pages += n] *)
Definition add_pages (n : Z) : KM unit := fun s =>
  Ok (tt, mkPool (mutex s) (ublk_poolpg_list s) (ublk_query_tree s) (ublk_free_tree s)
    (vpgdesc_poolpg_list s) (vpgdesc_query_tree s) (vpgdesc_free_tree s) (w64 (num_allocated_pages s + n))
    (page_size s) (_initialized s) (ublk_slots_off s) (ublk_slots_size s)
    (vpgdesc_slots_off s) (vpgdesc_slots_size s) (ublks s) (vpgdescs s) (headers s) (bytes s) (hw s)).

(** [memmove] *)
Definition memmove (dst src n : Z) : KM unit := fun s =>
  let moved := list_to_map ((fun i => (w64 (dst + i), default 0 (bytes s !! w64 (src + i)))) <$> seqZ 0 n) in
  Ok (tt, mkPool (mutex s) (ublk_poolpg_list s) (ublk_query_tree s) (ublk_free_tree s)
    (vpgdesc_poolpg_list s) (vpgdesc_query_tree s) (vpgdesc_free_tree s) (num_allocated_pages s)
    (page_size s) (_initialized s) (ublk_slots_off s) (ublk_slots_size s)
    (vpgdesc_slots_off s) (vpgdesc_slots_size s) (ublks s) (vpgdescs s) (headers s) (moved ∪ bytes s) (hw s)).

(** A record, a header; dangling pointers fault. *)
Definition get_ublk (n : Z) : KM kima_ublk_t := fun s =>
  match ublks s !! n with Some u => Ok (u, s) | None => Fault end.
Definition get_vpgdesc (n : Z) : KM kima_vpgdesc_t := fun s =>
  match vpgdescs s !! n with Some d => Ok (d, s) | None => Fault end.
Definition get_header (p : Z) : KM header_t := fun s =>
  match headers s !! p with Some h => Ok (h, s) | None => Fault end.
Definition put_header (p : Z) (f : header_t -> header_t) : KM unit :=
  h <- get_header p;
  m <- get headers;
  put_headers (<[p := f h]> m).

(** [remove] and [insert_unwrap] of the trees *)
Definition tree_remove (t : gmap Z Z) (key node : Z) : KM (gmap Z Z) :=
  if bool_decide (t !! key = Some node) then ret (delete key t) else fault.
Definition tree_insert (t : gmap Z Z) (key node : Z) : KM (gmap Z Z) :=
  match t !! key with Some _ => panic | None => ret (<[key := node]> t) end.

(** A [ps::MutexGuard] around a function body *)
Definition with_mutex {A} (m : KM A) : KM A :=
  held <- get mutex;
  (if held : bool then fun _ => NoFuel else ret tt);;
  set_mutex true;;
  a <- m;
  set_mutex false;;
  ret a.

Definition ceil (n : Z) : KM Z := p <- get page_size; of_outcome (ceil_align_to n p).
Definition page_floor (n : Z) : KM Z := p <- get page_size; of_outcome (floor_align_to n p).

(** A loop in page steps from [a] while below [b], as the index times the page
    size: [body] gets the offset from [a]. *)
Definition page_loop {R} (a b : Z) (body : Z -> KM (flow unit R)) : KM (option R) :=
  p <- get page_size;
  if p =? 0 then (if a <? b then fun _ => NoFuel else ret None)
  else
    r <- for_loop (Z.to_nat ((b - a + p - 1) / p)) 0 (fun i _ => body (i * p)) tt;
    ret (match r with inr x => Some x | inl _ => None end).

(** ** Pages ([vmalloc.cc]) *)

Definition kima_vpgalloc (size : Z) : KM Z :=
  kd_assert (negb (size =? 0));;
  vaddr <- lift (mm_kvmalloc size);
  kd_assert (negb (vaddr =? 0));;
  r <- page_loop 0 size (fun i =>
    paddr <- lift mm_pgalloc;
    if paddr =? 0 then ret (Return tt)
    else
      p <- get page_size;
      res <- lift (mm_mmap (w64 (vaddr + i)) paddr p);
      kd_assert (negb (KM_FAILED res));;
      ret (Next tt));
  match r with Some _ => ret 0 | None => ret vaddr end.

Definition kima_vpgfree (addr size : Z) : KM unit :=
  kd_assert (negb (size =? 0));;
  page_loop 0 size (fun i =>
    paddr <- lift (mm_getmap (w64 (addr + i)));
    lift (mm_pgfree paddr);;
    p <- get page_size;
    lift (mm_vmfree (w64 (addr + i)) p);;
    ret (Next (R := Empty_set) tt));;
  ret tt.

(** A pool page that no record uses: unlink it and give the page back; its
    header and slots are gone. *)
Definition unlink_page (pg : Z) : KM unit :=
  h <- get_header pg;
  when (negb (prev h =? 0)) (put_header (prev h) (fun h' => mkHeader (prev h') (next h) (used_num h')));;
  h <- get_header pg;
  when (negb (next h =? 0)) (put_header (next h) (fun h' => mkHeader (prev h) (next h') (used_num h'))).

(** A new pool page, at the head of the list that starts with [head] *)
Definition link_page (pg head : Z) : KM unit :=
  m <- get headers;
  put_headers (<[pg := mkHeader 0 head 0]> m);;
  when (negb (head =? 0)) (put_header head (fun h => mkHeader pg (next h) (used_num h))).

Definition set_used (pg : Z) (f : Z -> Z) : KM unit :=
  put_header pg (fun h => mkHeader (prev h) (next h) (w64 (f (used_num h)))).

(** ** Page descriptors ([vpgdesc.cc]) *)

Definition kima_lookup_vpgdesc (ptr : Z) : KM (option Z) := get (fun s => vpgdesc_query_tree s !! ptr).

Definition set_vpgdesc (n : Z) (d : kima_vpgdesc_t) : KM unit := fun s =>
  put_vpgdescs (vpgdesc_poolpg_list s) (vpgdesc_query_tree s) (vpgdesc_free_tree s) (<[n := d]> (vpgdescs s)) s.

Definition vpgdesc_to_free (n : Z) : KM unit :=
  d <- get_vpgdesc n;
  s <- get id;
  q <- tree_remove (vpgdesc_query_tree s) (d_rb_value d) n;
  put_vpgdescs (vpgdesc_poolpg_list s) q (vpgdesc_free_tree s) (<[n := mkDesc n (ref_count d)]> (vpgdescs s));;
  f <- tree_insert (vpgdesc_free_tree s) n n;
  put_vpgdescs (vpgdesc_poolpg_list s) q f (<[n := mkDesc n (ref_count d)]> (vpgdescs s)).

(** The slots leave the free tree. *)
Definition vpgdesc_drop_slots (pg : Z) : KM unit :=
  s <- get id;
  for_loop (Z.to_nat (vpgdesc_slots_size s)) 0 (fun i _ =>
    let n := pg + vpgdesc_slots_off s + i * sizeof_vpgdesc lay in
    d <- get_vpgdesc n;
    s <- get id;
    f <- tree_remove (vpgdesc_free_tree s) (d_rb_value d) n;
    put_vpgdescs (vpgdesc_poolpg_list s) (vpgdesc_query_tree s) f (delete n (vpgdescs s));;
    ret (Next (R := Empty_set) tt)) tt;;
  ret tt.

Definition drop_header (pg : Z) : KM unit := m <- get headers; put_headers (delete pg m).

Definition kima_free_vpgdesc (n : Z) : KM unit :=
  poolpg <- page_floor n;
  vpgdesc_to_free n;;
  set_used poolpg (fun u => u - 1);;
  h <- get_header poolpg;
  when (used_num h =? 0)
    (unlink_page poolpg;;
     vpgdesc_drop_slots poolpg;;
     drop_header poolpg;;
     p <- get page_size;
     kima_vpgfree poolpg p).

(** The record a free descriptor becomes *)
Definition vpgdesc_to_query (n ptr : Z) : KM unit :=
  d <- get_vpgdesc n;
  s <- get id;
  f <- tree_remove (vpgdesc_free_tree s) (d_rb_value d) n;
  q <- tree_insert (vpgdesc_query_tree s) ptr n;
  put_vpgdescs (vpgdesc_poolpg_list s) q f (<[n := mkDesc ptr 0]> (vpgdescs s)).

(** The slots of a new page: the first is used, the others are free. *)
Definition vpgdesc_new_slots (pg ptr : Z) : KM unit :=
  s <- get id;
  let slot i := pg + vpgdesc_slots_off s + i * sizeof_vpgdesc lay in
  q <- tree_insert (vpgdesc_query_tree s) ptr (slot 0);
  put_vpgdescs (vpgdesc_poolpg_list s) q (vpgdesc_free_tree s) (<[slot 0 := mkDesc ptr 0]> (vpgdescs s));;
  for_loop (Z.to_nat (vpgdesc_slots_size s - 1)) 1 (fun i _ =>
    s <- get id;
    f <- tree_insert (vpgdesc_free_tree s) (slot i) (slot i);
    put_vpgdescs (vpgdesc_poolpg_list s) (vpgdesc_query_tree s) f (<[slot i := mkDesc (slot i) 0]> (vpgdescs s));;
    ret (Next (R := Empty_set) tt)) tt;;
  ret tt.

(** Null is [None]. *)
Definition kima_alloc_vpgdesc (ptr : Z) : KM (option Z) :=
  s <- get id;
  match OMap.first (vpgdesc_free_tree s) with
  | Some (_, n) =>
      poolpg <- page_floor n;
      set_used poolpg (fun u => u + 1);;
      vpgdesc_to_query n ptr;;
      ret (Some n)
  | None =>
      pg <- kima_vpgalloc (page_size s);
      if pg =? 0 then ret None
      else
        link_page pg (vpgdesc_poolpg_list s);;
        s <- get id;
        put_vpgdescs pg (vpgdesc_query_tree s) (vpgdesc_free_tree s) (vpgdescs s);;
        set_used pg (fun _ => 1);;
        vpgdesc_new_slots pg ptr;;
        ret (Some (pg + vpgdesc_slots_off s))
  end.

(** ** Block records ([ublk.cc]) *)

Definition kima_lookup_ublk (ptr : Z) : KM (option Z) := get (fun s => ublk_query_tree s !! ptr).

Definition kima_lookup_nearest_ublk (ptr : Z) : KM (option Z) :=
  get (fun s => snd <$> OMap.max_lteq ptr (ublk_query_tree s)).

Definition ublk_to_free (n : Z) : KM unit :=
  u <- get_ublk n;
  s <- get id;
  q <- tree_remove (ublk_query_tree s) (u_rb_value u) n;
  f <- tree_insert (ublk_free_tree s) n n;
  put_ublks (ublk_poolpg_list s) q f (<[n := mkUblk n (u_size u)]> (ublks s)).

Definition ublk_drop_slots (pg : Z) : KM unit :=
  s <- get id;
  for_loop (Z.to_nat (ublk_slots_size s)) 0 (fun i _ =>
    let n := pg + ublk_slots_off s + i * sizeof_ublk lay in
    u <- get_ublk n;
    s <- get id;
    f <- tree_remove (ublk_free_tree s) (u_rb_value u) n;
    put_ublks (ublk_poolpg_list s) (ublk_query_tree s) f (delete n (ublks s));;
    ret (Next (R := Empty_set) tt)) tt;;
  ret tt.

Definition kima_free_ublk (n : Z) : KM unit :=
  poolpg <- page_floor n;
  ublk_to_free n;;
  set_used poolpg (fun u => u - 1);;
  h <- get_header poolpg;
  when (used_num h =? 0)
    (unlink_page poolpg;;
     ublk_drop_slots poolpg;;
     drop_header poolpg;;
     p <- get page_size;
     kima_vpgfree poolpg p;;
     add_pages (-1)).

Definition ublk_to_query (n ptr size : Z) : KM unit :=
  u <- get_ublk n;
  s <- get id;
  f <- tree_remove (ublk_free_tree s) (u_rb_value u) n;
  q <- tree_insert (ublk_query_tree s) ptr n;
  put_ublks (ublk_poolpg_list s) q f (<[n := mkUblk ptr size]> (ublks s)).

Definition ublk_new_slots (pg ptr size : Z) : KM unit :=
  s <- get id;
  let slot i := pg + ublk_slots_off s + i * sizeof_ublk lay in
  q <- tree_insert (ublk_query_tree s) ptr (slot 0);
  put_ublks (ublk_poolpg_list s) q (ublk_free_tree s) (<[slot 0 := mkUblk ptr size]> (ublks s));;
  for_loop (Z.to_nat (ublk_slots_size s - 1)) 1 (fun i _ =>
    s <- get id;
    f <- tree_insert (ublk_free_tree s) (slot i) (slot i);
    put_ublks (ublk_poolpg_list s) (ublk_query_tree s) f (<[slot i := mkUblk (slot i) 0]> (ublks s));;
    ret (Next (R := Empty_set) tt)) tt;;
  ret tt.

Definition kima_alloc_ublk (ptr size : Z) : KM (option Z) :=
  s <- get id;
  match OMap.first (ublk_free_tree s) with
  | Some (_, n) =>
      poolpg <- page_floor n;
      set_used poolpg (fun u => u + 1);;
      ublk_to_query n ptr size;;
      ret (Some n)
  | None =>
      pg <- kima_vpgalloc (page_size s);
      if pg =? 0 then ret None
      else
        link_page pg (ublk_poolpg_list s);;
        s <- get id;
        put_ublks pg (ublk_query_tree s) (ublk_free_tree s) (ublks s);;
        set_used pg (fun _ => 1);;
        ublk_new_slots pg ptr size;;
        c <- ceil size;
        add_pages (c / page_size s);;
        ret (Some (pg + ublk_slots_off s))
  end.

(** ** The pool ([init.cc]) *)

Definition ki_init_kima_pool (page_size0 : Z) (s : pool) : outcome pool :=
  match ceil_align_to (sizeof_header lay) (alignof_vpgdesc lay), ceil_align_to (sizeof_header lay) (alignof_ublk lay) with
  | Ok voff, Ok uoff =>
      if (sizeof_vpgdesc lay =? 0) || (sizeof_ublk lay =? 0) then Fault
      else
        Ok (mkPool (mutex s) (ublk_poolpg_list s) (ublk_query_tree s) (ublk_free_tree s)
          (vpgdesc_poolpg_list s) (vpgdesc_query_tree s) (vpgdesc_free_tree s) (num_allocated_pages s)
          page_size0 true uoff (w64 (page_size0 - uoff) / sizeof_ublk lay)
          voff (w64 (page_size0 - voff) / sizeof_vpgdesc lay)
          (ublks s) (vpgdescs s) (headers s) (bytes s) (hw s))
  | _, _ => Panic
  end.

(** A pool as its constructor leaves it, over a memory manager in state [h] *)
Definition empty_pool (h : H) : pool :=
  mkPool false 0 ∅ ∅ 0 ∅ ∅ 0 0 false 0 0 0 0 ∅ ∅ ∅ ∅ h.

Definition kima_get_allocated_page_num : KM Z := get num_allocated_pages.

(** ** Blocks ([malloc.cc]) *)

(** The first page of the [n] bytes from [base] that has no descriptor *)
Definition missing_page (base n : Z) : KM (option Z) :=
  page_loop 0 n (fun j =>
    d <- kima_lookup_vpgdesc (w64 (base + j));
    ret (match d with Some _ => Next tt | None => Return (w64 (base + j)) end)).

(** [++vpgdesc->ref_count] for every page of the [n] bytes from [base] *)
Definition take_pages (base n : Z) : KM unit :=
  page_loop 0 n (fun j =>
    d <- kima_lookup_vpgdesc (w64 (base + j));
    match d with
    | None => panic
    | Some m =>
        d <- get_vpgdesc m;
        set_vpgdesc m (mkDesc (d_rb_value d) (w64 (ref_count d + 1)));;
        ret (Next (R := Empty_set) tt)
    end);;
  ret tt.

(** [if (!(--vpgdesc->ref_count)) kima_free_vpgdesc(...)] for the page at [a] *)
Definition drop_page (a : Z) : KM unit :=
  d <- kima_lookup_vpgdesc a;
  match d with
  | None => panic
  | Some m =>
      d <- get_vpgdesc m;
      let r := w64 (ref_count d - 1) in
      set_vpgdesc m (mkDesc (d_rb_value d) r);;
      when (r =? 0) (kima_free_vpgdesc m)
  end.

(** ... for every page that the [size] bytes from [base] touch *)
Definition drop_pages (base size : Z) : KM unit :=
  first <- page_floor base;
  limit <- ceil (w64 (base + size));
  page_loop first limit (fun i =>
    drop_page (w64 (first + i));;
    ret (Next (R := Empty_set) tt));;
  ret tt.

Definition align_up (cur alignment : Z) : KM Z :=
  if alignment =? 0 then fault
  else
    let aligned_diff := cur mod alignment in
    ret (if negb (aligned_diff =? 0) then w64 (cur + (alignment - aligned_diff)) else cur).

(** The end of the block record [u] when it overlaps the [size] bytes at [cur];
    a record [skip] is passed over, as [kima_realloc] does with the old one. *)
Definition overlap_end (skip u : option Z) (cur size : Z) : KM (option Z) :=
  match u with
  | None => ret None
  | Some n =>
      if bool_decide (skip = Some n) then ret None
      else
        b <- get_ublk n;
        ret (if PBOS_ISOVERLAPPED cur size (u_rb_value b) (u_size b)
             then Some (w64 (u_rb_value b + u_size b)) else None)
  end.

(** One round of the loop over [cur_base]: the next candidate, or the place
    found, or none. *)
Definition fit_round (skip : option Z) (size alignment limit cur_base : Z) : KM (Z + option Z) :=
  if limit <? cur_base then ret (inr None)
  else
    cur_base <- align_up cur_base alignment;
    u <- kima_lookup_nearest_ublk cur_base;
    e <- overlap_end skip u cur_base size;
    match e with
    | Some e => ret (inl e)
    | None =>
        u <- kima_lookup_nearest_ublk (w64 (w64 (cur_base + size) - 1));
        e <- overlap_end skip u cur_base size;
        match e with
        | Some e => ret (inl e)
        | None => ret (inr (Some cur_base))
        end
    end.

(** The loop over [cur_base] within the pages from [desc] *)
Definition fit (skip : option Z) (size alignment desc : Z) : KM (option Z) :=
  c <- ceil size;
  let limit := w64 (desc + (c - size)) in
  s <- get id;
  loop (Datatypes.S (base.size (ublk_query_tree s)))
    (fit_round skip size alignment limit) desc.

(** One round of the loop over the page descriptors, with the key of the
    iterator and [continuous_area_base]; [found] is what is done with a place
    in the pages from a descriptor. *)
Definition area_round {R} (skip : option Z) (size alignment : Z) (found : Z -> Z -> KM R)
    (v : option Z * Z) : KM (option Z * Z + option R) :=
  let '(it, continuous_area_base) := v in
  match it with
  | None => ret (inr None)
  | Some desc =>
      s <- get id;
      let next_desc := fst <$> OMap.next desc (vpgdesc_query_tree s) in
      if desc <? continuous_area_base then ret (inl (next_desc, continuous_area_base))
      else
        c <- ceil size;
        miss <- missing_page desc c;
        match miss with
        | Some a => ret (inl (fst <$> OMap.max_lteq a (vpgdesc_query_tree s), a))
        | None =>
            f <- fit skip size alignment desc;
            match f with
            | Some cur_base => r <- found desc cur_base; ret (inr (Some r))
            | None => ret (inl (next_desc, continuous_area_base))
            end
        end
  end.

(** The loop over the page descriptors *)
Definition find_area {R} (skip : option Z) (size alignment : Z) (found : Z -> Z -> KM R) : KM (option R) :=
  s <- get id;
  let t := vpgdesc_query_tree s in
  loop (Datatypes.S (2 * base.size t)) (area_round skip size alignment found) (fst <$> OMap.first t, 0).

(** [release_vpgdesc_sg] *)
Definition release_vpgdescs (base i : Z) : KM unit :=
  page_loop 0 i (fun j =>
    d <- kima_lookup_vpgdesc (w64 (base + j));
    match d with
    | None => fault
    | Some n => kima_free_vpgdesc n;; ret (Next (R := Empty_set) tt)
    end);;
  add_pages (- i).

(** A descriptor with one reference for the page at [a] *)
Definition new_page (a : Z) : KM bool :=
  d <- kima_alloc_vpgdesc a;
  match d with
  | None => ret false
  | Some n =>
      d <- get_vpgdesc n;
      set_vpgdesc n (mkDesc (d_rb_value d) (w64 (ref_count d + 1)));;
      ret true
  end.

(** The second half of [kima_alloc]: new pages *)
Definition alloc_new (size alignment : Z) : KM Z :=
  c <- ceil (w64 (size + alignment));
  pg <- kima_vpgalloc c;
  new_free_pg <- align_up pg alignment;
  if new_free_pg =? 0 then ret 0
  else
    r <- page_loop 0 size (fun i =>
      ok <- new_page (w64 (new_free_pg + i));
      ret (if ok : bool then Next tt else Return i));
    match r with
    | Some i => release_vpgdescs new_free_pg i;; ret 0
    | None =>
        c <- ceil size;
        s <- get id;
        add_pages (c / page_size s);;
        u <- kima_alloc_ublk new_free_pg size;
        match u with
        | None => release_vpgdescs new_free_pg c;; ret 0
        | Some _ => ret new_free_pg
        end
    end.

(** Null is 0. *)
Definition kima_alloc (size alignment : Z) : KM Z :=
  s <- get id;
  kd_assert (_initialized s);;
  with_mutex
    (kd_assert (negb (size =? 0));;
     r <- find_area None size alignment (fun desc cur_base =>
            u <- kima_alloc_ublk cur_base size;
            match u with
            | None => ret 0
            | Some _ =>
                c <- ceil size;
                take_pages desc c;;
                ret cur_base
            end);
     match r with
     | Some p => ret p
     | None => alloc_new size alignment
     end).

(** Move the record [n] to [ptr] and [size]: out of the query tree, [m], and
    back in. *)
Definition set_ublk (n : Z) (u : kima_ublk_t) : KM unit := fun s =>
  put_ublks (ublk_poolpg_list s) (ublk_query_tree s) (ublk_free_tree s) (<[n := u]> (ublks s)) s.

Definition ublk_query_remove (n : Z) : KM unit :=
  u <- get_ublk n;
  s <- get id;
  q <- tree_remove (ublk_query_tree s) (u_rb_value u) n;
  put_ublks (ublk_poolpg_list s) q (ublk_free_tree s) (ublks s).

Definition ublk_query_insert (n : Z) : KM unit :=
  u <- get_ublk n;
  s <- get id;
  q <- tree_insert (ublk_query_tree s) (u_rb_value u) n;
  put_ublks (ublk_poolpg_list s) q (ublk_free_tree s) (ublks s).

(** What [kima_realloc] does with a place found in existing pages *)
Definition realloc_move (old_ublk old_ptr size desc cur_base : Z) : KM Z :=
  ublk_query_remove old_ublk;;
  c <- ceil size;
  take_pages desc c;;
  u <- get_ublk old_ublk;
  memmove cur_base old_ptr (u_size u);;
  drop_pages old_ptr (u_size u);;
  set_ublk old_ublk (mkUblk cur_base size);;
  ublk_query_insert old_ublk;;
  ret cur_base.

(** The descriptors of the new page of [kima_realloc]: the loop counts bytes. *)
Definition realloc_new_page (new_free_pg : Z) : KM (option Z) :=
  s <- get id;
  r <- for_loop (Z.to_nat (page_size s)) 0 (fun i _ =>
         ok <- new_page (w64 (new_free_pg + i));
         ret (if ok : bool then Next tt else Return i)) tt;
  ret (match r with inr i => Some i | inl _ => None end).

(** The second half of [kima_realloc]: new pages *)
Definition realloc_new (old_ublk size alignment : Z) : KM Z :=
  c <- ceil (w64 (size + alignment));
  pg <- kima_vpgalloc c;
  new_free_pg <- align_up pg alignment;
  if new_free_pg =? 0 then ret 0
  else
    r <- realloc_new_page new_free_pg;
    match r with
    | Some i => release_vpgdescs new_free_pg i;; ret 0
    | None =>
        c <- ceil size;
        s <- get id;
        add_pages (c / page_size s);;
        kima_free_ublk old_ublk;;
        u <- kima_alloc_ublk new_free_pg size;
        match u with
        | None => release_vpgdescs new_free_pg (page_size s);; ret 0
        | Some _ => ret new_free_pg
        end
    end.

Definition kima_realloc (old_ptr size alignment : Z) : KM Z :=
  s <- get id;
  kd_assert (_initialized s);;
  kd_assert (negb (size =? 0));;
  with_mutex
    (old <- kima_lookup_ublk old_ptr;
     match old with
     | None => panic
     | Some old_ublk =>
         r <- find_area (Some old_ublk) size alignment (realloc_move old_ublk old_ptr size);
         match r with
         | Some p => ret p
         | None => realloc_new old_ublk size alignment
         end
     end).

(** The loop of [kima_realloc_in_place] that releases pages: it counts up from
    the end of the old block while above the end of the new one, and ends
    only where a descriptor is missing. *)
Definition release_tail (old_ptr from limit : Z) : KM unit :=
  s <- get id;
  loop (Datatypes.S (Datatypes.S (base.size (vpgdesc_query_tree s))))
    (fun i =>
       if limit <? i then drop_page (w64 (old_ptr + i));; ret (inl (w64 (i + 1)))
       else ret (inr tt)) from.

Definition kima_realloc_in_place (old_ptr size alignment : Z) : KM Z :=
  s <- get id;
  kd_assert (_initialized s);;
  kd_assert (negb (size =? 0));;
  with_mutex
    (old <- kima_lookup_ublk old_ptr;
     match old with
     | None => panic
     | Some old_ublk =>
         c <- ceil size;
         d <- kima_lookup_vpgdesc old_ptr;
         match d with
         | None => fault
         | Some _ =>
             miss <- missing_page old_ptr c;
             match miss with
             | Some _ => ret 0
             | None =>
                 if alignment =? 0 then fault
                 else if negb (old_ptr mod alignment =? 0) then ret 0
                 else
                   u <- kima_lookup_nearest_ublk (w64 (w64 (old_ptr + size) - 1));
                   e <- overlap_end (Some old_ublk) u old_ptr size;
                   match e with
                   | Some _ => ret 0
                   | None =>
                       ublk_query_remove old_ublk;;
                       take_pages old_ptr c;;
                       u <- get_ublk old_ublk;
                       oc <- ceil (u_size u);
                       release_tail old_ptr oc c;;
                       set_ublk old_ublk (mkUblk (u_rb_value u) size);;
                       ublk_query_insert old_ublk;;
                       ret old_ptr
                   end
             end
         end
     end).

Definition kima_free (ptr : Z) : KM unit :=
  s <- get id;
  kd_assert (_initialized s);;
  with_mutex
    (u <- kima_lookup_ublk ptr;
     match u with
     | None => panic
     | Some n =>
         b <- get_ublk n;
         drop_pages (u_rb_value b) (u_size b);;
         kima_free_ublk n
     end).

(** [kima_free_pool], also the destructor *)
Definition kima_free_pool : KM unit :=
  s <- get id;
  loop (Datatypes.S (base.size (ublk_query_tree s)))
    (fun _ : unit =>
       s <- get id;
       match OMap.first (ublk_query_tree s) with
       | None => ret (inr tt)
       | Some (_, n) =>
           u <- get_ublk n;
           kima_free (u_rb_value u);;
           ret (inl tt)
       end) tt.

End Ops.

End Kima.
