(* ===== verification/KimaFit.v ===== *)
(** * Finding a place in pages that are there

    The loop of [kima_alloc] over the candidates in the pages from one
    descriptor: it ends, and finds the first aligned place that overlaps no
    block. *)

From S2P Require Import Prelude OMap MemConf Kima.
Import MemConf Kima.

Module KimaFit.

Section Fit.
Context {H : Type} (PBOS_ISOVERLAPPED : Z -> Z -> Z -> Z -> bool).

(** What the macro is for *)
Definition overlap_law : Prop := forall a n b m, 0 < n -> 0 < m ->
  PBOS_ISOVERLAPPED a n b m = true <-> a < b + m /\ b < a + n.

Implicit Types s : kima_pool_t H.

(** A block of the pool, with its record *)
Definition block s (k node : Z) (u : kima_ublk_t) : Prop :=
  ublk_query_tree s !! k = Some node /\ ublks s !! node = Some u.

Record blocks_ok s : Prop := {
  bk_record : forall k node, ublk_query_tree s !! k = Some node ->
    exists u, ublks s !! node = Some u /\ u_rb_value u = k /\ 0 < u_size u /\ 0 <= k /\ k + u_size u < 2 ^ 64;
  bk_apart : forall k1 n1 u1 k2 n2 u2, block s k1 n1 u1 -> block s k2 n2 u2 -> k1 < k2 -> k1 + u_size u1 <= k2
}.

(** No block overlaps the [n] bytes at [a]. *)
Definition vacant s (a n : Z) : Prop := forall k node u, block s k node u -> k + u_size u <= a \/ a + n <= k.

Definition block_end s (node : Z) : Z :=
  match ublks s !! node with Some u => u_rb_value u + u_size u | None => 0 end.

Lemma block_facts s k node u : blocks_ok s -> block s k node u ->
  u_rb_value u = k /\ 0 < u_size u /\ 0 <= k /\ k + u_size u < 2 ^ 64.
Proof. intros Hok [Hk Hu]. destruct (bk_record _ Hok _ _ Hk) as (u' & Hu' & Hf). by simplify_eq. Qed.

Hypothesis Hov : overlap_law.

(** The end of the nearest block at or below [p] when it reaches into the
    [n] bytes at [a] *)
Lemma nearest_overlap s p a n : blocks_ok s -> 0 < n ->
  exists e, (u <- kima_lookup_nearest_ublk p; overlap_end PBOS_ISOVERLAPPED None u a n) s = Ok (e, s) /\
    match e with
    | Some e => exists k node u, block s k node u /\ k <= p /\ e = k + u_size u /\ a < e /\ k < a + n
    | None => forall k node u, OMap.max_lteq p (ublk_query_tree s) = Some (k, node) -> block s k node u ->
                k + u_size u <= a \/ a + n <= k
    end.
Proof.
  intros Hok Hn. unfold kima_lookup_nearest_ublk, get, bind.
  destruct (OMap.max_lteq p (ublk_query_tree s)) as [[k node]|] eqn:Hm; simpl.
  - destruct (OMap.max_lteq_some _ _ _ _ Hm) as (Hk & Hle & _).
    destruct (bk_record _ Hok _ _ Hk) as (u & Hu & Hr & Hs & H0 & H64). unfold get_ublk, bind. rewrite Hu /=.
    eexists. split; [reflexivity |]. rewrite Hr. destruct (PBOS_ISOVERLAPPED a n k (u_size u)) eqn:Ho.
    + apply Hov in Ho; [| done | done]. exists k, node, u. rewrite w64_small; [unfold in64; lia |].
      split_and!; try done; lia.
    + intros k' node' u' Hkn [_ Hu']. assert (k' = k /\ node' = node) as [-> ->] by (by injection Hkn).
      assert (u' = u) as -> by congruence.
      destruct (decide (k + u_size u <= a)); [by left |]. destruct (decide (a + n <= k)); [by right |].
      rewrite (proj2 (Hov a n k (u_size u) Hn Hs)) in Ho; [lia | done].
  - eexists. split; [reflexivity |]. done.
Qed.

(** Both tests passed: the place overlaps no block. *)
Lemma tests_vacant s a n : blocks_ok s -> 0 < n ->
  (forall k node u, OMap.max_lteq a (ublk_query_tree s) = Some (k, node) -> block s k node u ->
     k + u_size u <= a \/ a + n <= k) ->
  (forall k node u, OMap.max_lteq (a + n - 1) (ublk_query_tree s) = Some (k, node) -> block s k node u ->
     k + u_size u <= a \/ a + n <= k) -> vacant s a n.
Proof.
  intros Hok Hn H1 H2 k node u Hb. pose proof (block_facts _ _ _ _ Hok Hb) as (_ & Hs & _). pose proof Hb as [Hk _].
  destruct (decide (k <= a)) as [Hle|Hgt].
  - destruct (OMap.max_lteq a (ublk_query_tree s)) as [[k1 n1]|] eqn:Hm.
    + destruct (OMap.max_lteq_some _ _ _ _ Hm) as (Hk1 & Hle1 & Hmax). specialize (Hmax _ _ Hk Hle).
      destruct (decide (k = k1)) as [->|Hne].
      { assert (n1 = node) as -> by congruence. by apply (H1 k1 node). }
      left.
      destruct (bk_record _ Hok _ _ Hk1) as (u1 & Hu1 & _).
      pose proof (bk_apart _ Hok k node u k1 n1 u1 Hb (conj Hk1 Hu1)). lia.
    + pose proof (OMap.max_lteq_none _ _ Hm _ _ Hk). lia.
  - destruct (decide (a + n <= k)) as [Hge|Hlt]; [by right |].
    destruct (OMap.max_lteq (a + n - 1) (ublk_query_tree s)) as [[k1 n1]|] eqn:Hm.
    + destruct (OMap.max_lteq_some _ _ _ _ Hm) as (Hk1 & Hle1 & Hmax). specialize (Hmax _ _ Hk ltac:(lia)).
      destruct (bk_record _ Hok _ _ Hk1) as (u1 & Hu1 & _ & Hs1 & _).
      specialize (H2 k1 n1 u1 eq_refl (conj Hk1 Hu1)). lia.
    + pose proof (OMap.max_lteq_none _ _ Hm _ _ Hk). lia.
Qed.

Lemma align_up_ok s cur al : 0 < al -> 0 <= cur -> cur + al <= 2 ^ 64 ->
  exists c, align_up cur al s = Ok (c, s) /\ cur <= c < cur + al /\ c mod al = 0 /\
    forall a, cur <= a < c -> a mod al <> 0.
Proof.
  intros Hal Hc H64. unfold align_up. destruct (Z.eqb_spec al 0); [lia |].
  pose proof (Z.mod_pos_bound cur al Hal) as Hb. pose proof (Z.div_mod cur al) as Hd.
  assert (Hno : forall a, cur mod al <> 0 -> cur <= a < cur + (al - cur mod al) -> a mod al <> 0).
  { intros a Hm Ha E. pose proof (Z.div_mod a al) as Hda. assert (a / al < cur / al + 1) by nia.
    assert (cur / al < a / al + 1) by nia. assert (a / al = cur / al) by lia. nia. }
  destruct (Z.eqb_spec (cur mod al) 0) as [E|E]; simpl.
  - exists cur. split_and!; [done | lia | lia | done | lia].
  - exists (cur + (al - cur mod al)). rewrite w64_small; [unfold in64; lia |]. split_and!; [done | lia | lia | | eauto].
    replace (cur + (al - cur mod al)) with (0 + (cur / al + 1) * al) by lia. by rewrite Z_mod_plus_full Z.mod_0_l; [lia |].
Qed.

(** Blocks that end above [cur] *)
Definition ahead s (cur : Z) : gmap Z Z := filter (fun kn => cur < block_end s kn.2) (ublk_query_tree s).

Lemma ahead_less s cur k node u : blocks_ok s -> block s k node u -> cur < k + u_size u ->
  (base.size (ahead s (k + u_size u)) < base.size (ahead s cur))%nat.
Proof.
  intros Hok Hb Hlt. pose proof (block_facts _ _ _ _ Hok Hb) as (Hr & _). pose proof Hb as [Hk Hu].
  apply map_subset_size. split.
  - apply map_subseteq_spec. intros i n. unfold ahead. rewrite !map_lookup_filter_Some. simpl. intros [Hi Hc]. split; [done | lia].
  - intros Hs. rewrite map_subseteq_spec in Hs. specialize (Hs k node). unfold ahead in Hs.
    rewrite !map_lookup_filter_Some /= /block_end Hu Hr in Hs. destruct (Hs (conj Hk Hlt)). lia.
Qed.

Section Loop.
Context (s : kima_pool_t H) (size al limit desc : Z).
Hypothesis Hok : blocks_ok s.
Hypothesis Hsize : 0 < size.
Hypothesis Hal : 0 < al.
Hypothesis Hdesc : 0 <= desc.
Hypothesis Hlimit : limit + size + al <= 2 ^ 64.

Definition fit_post (cur : Z) (r : option Z) : Prop :=
  match r with
  | Some b => cur <= b /\ b < limit + al /\ b mod al = 0 /\ vacant s b size /\
              forall a, cur <= a < b -> a mod al = 0 -> ~ vacant s a size
  | None => forall a, cur <= a <= limit -> a mod al = 0 -> ~ vacant s a size
  end.

(** An overlapping block: going on behind it skips no vacant place. *)
Lemma behind_block cur c e : cur <= c -> (forall a, cur <= a < c -> a mod al <> 0) ->
  (exists k node u, block s k node u /\ e = k + u_size u /\ c < e /\ k < c + size) ->
  (base.size (ahead s e) < base.size (ahead s cur))%nat /\ cur <= e /\
  forall a, cur <= a < e -> a mod al = 0 -> ~ vacant s a size.
Proof.
  intros Hc Hno (k & node & u & Hb & -> & Hlt & Hk).
  split; [apply (ahead_less s cur k node u Hok Hb); lia |]. split; [lia |].
  intros a Ha Ham Hv. destruct (decide (a < c)); [by apply (Hno a); [lia |] |]. destruct (Hv _ _ _ Hb); lia.
Qed.

Lemma round_ok cur : 0 <= cur ->
  exists r, fit_round PBOS_ISOVERLAPPED None size al limit cur s = Ok (r, s) /\
    match r with
    | inl e => (base.size (ahead s e) < base.size (ahead s cur))%nat /\ cur <= e /\
               forall a, cur <= a < e -> a mod al = 0 -> ~ vacant s a size
    | inr r => fit_post cur r
    end.
Proof.
  intros Hcur. unfold fit_round. destruct (Z.ltb_spec limit cur) as [Hex|Hgo].
  { eexists. split; [reflexivity |]. intros a Ha. lia. }
  destruct (align_up_ok s cur al Hal Hcur ltac:(lia)) as (c & Ec & Hc & Hcm & Hca).
  destruct (nearest_overlap s c c size Hok Hsize) as (e1 & E1 & He1).
  destruct (nearest_overlap s (c + size - 1) c size Hok Hsize) as (e2 & E2 & He2).
  rewrite (bind_ok _ _ _ _ _ Ec) -bind_assoc (bind_ok _ _ _ _ _ E1). destruct e1 as [e|].
  { eexists. split; [reflexivity |]. apply (behind_block cur c); [lia | done |].
    destruct He1 as (k & node & u & He1). exists k, node, u. tauto. }
  rewrite (w64_small (c + size)); [unfold in64; lia |]. rewrite (w64_small (c + size - 1)); [unfold in64; lia |].
  rewrite -bind_assoc (bind_ok _ _ _ _ _ E2). destruct e2 as [e|].
  { eexists. split; [reflexivity |]. apply (behind_block cur c); [lia | done |].
    destruct He2 as (k & node & u & He2). exists k, node, u. tauto. }
  eexists. split; [reflexivity |]. split_and!; [lia | lia | done | by apply tests_vacant |].
  intros a Ha Ham. by destruct (Hca a Ha).
Qed.

Lemma fit_loop n cur : 0 <= cur -> (base.size (ahead s cur) <= n)%nat ->
  exists r, loop (Datatypes.S n) (fit_round PBOS_ISOVERLAPPED None size al limit) cur s = Ok (r, s) /\ fit_post cur r.
Proof.
  revert cur. induction n as [|n IH]; intros cur Hcur Hn; destruct (round_ok cur Hcur) as (r & Er & Hr);
    (destruct r as [e|r]; [| exists r; split; [by apply loop_exit | done]]).
  - lia.
  - destruct Hr as (Hlt & Hce & Hno). destruct (IH e ltac:(lia) ltac:(lia)) as (r & Hrun & Hpost).
    exists r. split; [by rewrite (loop_next _ _ _ _ _ _ Er) |]. destruct r as [b|]; simpl in *.
    + destruct Hpost as (H1 & H2 & H3 & H4 & H5). split_and!; [lia | done | done | done |].
      intros a Ha. destruct (decide (a < e)); [apply Hno; lia | apply H5; lia].
    + intros a Ha. destruct (decide (a < e)); [apply Hno; lia | apply Hpost; lia].
Qed.

End Loop.

(** ** Loops in page steps *)

Lemma page_loop_rule {R} (I : Z -> kima_pool_t H -> Prop) (Q : option R -> kima_pool_t H -> Prop) a b body s :
  0 < page_size s -> I 0 s ->
  (forall i s', 0 <= i -> a + i * page_size s < b -> I i s' -> exists r s1, body (i * page_size s) s' = Ok (r, s1) /\
     match r with Next _ => I (i + 1) s1 | Break _ => False | Return x => Q (Some x) s1 end) ->
  (forall i s', 0 <= i -> b <= a + i * page_size s -> (0 < i -> a + (i - 1) * page_size s < b) -> I i s' -> Q None s') ->
  exists r s', page_loop a b body s = Ok (r, s') /\ Q r s'.
Proof.
  intros HP HI Hbody Hend. unfold page_loop, get, bind at 1. set (P := page_size s) in *.
  destruct (Z.eqb_spec P 0) as [?|_]; [lia |]. set (n := (b - a + P - 1) / P).
  assert (Hn : (n - 1) * P < b - a <= n * P \/ b - a <= 0 /\ Z.to_nat n = 0%nat).
  { pose proof (Z.div_mod (b - a + P - 1) P) as Hd. pose proof (Z.mod_pos_bound (b - a + P - 1) P HP). fold n in Hd.
    destruct (decide (b - a <= 0)); [right; split; [done |] | left; lia].
    assert (n < 1) by (apply Z.div_lt_upper_bound; lia). lia. }
  destruct (for_loop_rule (fun i (_ : unit) s' => I i s')
    (fun r s' => Q (match r with inr x => Some x | inl _ => None end) s')
    (fun i _ => body (i * P)) (Z.to_nat n) 0 tt s HI) as (r & s' & E & HQ).
  - intros j [] s' Hj HI'. destruct (Hbody j s' ltac:(lia) ltac:(nia) HI') as (r & s1 & E & Hr).
    exists r, s1. split; [done |]. by destruct r.
  - intros [] s' HI'. apply (Hend (0 + Z.of_nat (Z.to_nat n)) s'); [lia | | | done]; nia.
  - rewrite (bind_ok _ _ _ _ _ E). do 2 eexists. split; [reflexivity | done].
Qed.

Lemma ceil_ok s n : 0 < page_size s -> 0 <= n -> n + page_size s <= 2 ^ 64 ->
  exists c, ceil n s = Ok (c, s) /\ n <= c < n + page_size s /\ c mod page_size s = 0.
Proof.
  intros HP Hn H64. destruct (ceil_align_to_spec n (page_size s) HP Hn H64) as (c & E & Hc).
  exists c. split; [by rewrite /ceil /get /bind /of_outcome E | done].
Qed.

(** ** The search *)

(** The pages of the [n] bytes from [base] all have descriptors. *)
Definition described s (base n : Z) : Prop :=
  forall i, 0 <= i -> i * page_size s < n -> is_Some (vpgdesc_query_tree s !! (base + i * page_size s)).

Lemma missing_page_ok s base n : 0 < page_size s -> 0 <= base -> 0 < n -> base + n + page_size s <= 2 ^ 64 ->
  exists r, missing_page base n s = Ok (r, s) /\
    match r with
    | None => described s base n
    | Some a => exists j, 0 <= j /\ j * page_size s < n /\ a = base + j * page_size s /\
                  vpgdesc_query_tree s !! a = None /\
                  forall i, 0 <= i < j -> is_Some (vpgdesc_query_tree s !! (base + i * page_size s))
    end.
Proof.
  intros HP Hb Hn H64.
  destruct (page_loop_rule (R := Z)
    (fun i s' => s' = s /\ forall j, 0 <= j < i -> is_Some (vpgdesc_query_tree s !! (base + j * page_size s)))
    (fun r s' => s' = s /\ match r with
       | None => described s base n
       | Some a => exists j, 0 <= j /\ j * page_size s < n /\ a = base + j * page_size s /\
                  vpgdesc_query_tree s !! a = None /\
                  forall i, 0 <= i < j -> is_Some (vpgdesc_query_tree s !! (base + i * page_size s))
       end) 0 n
    (fun j => d <- kima_lookup_vpgdesc (w64 (base + j));
      ret (match d with Some _ => Next tt | None => Return (w64 (base + j)) end)) s HP) as (r & s' & E & -> & Hr).
  - split; [done | lia].
  - intros i s' Hi Hlt [-> Hall]. unfold kima_lookup_vpgdesc, get, bind. rewrite w64_small; [unfold in64; nia |].
    destruct (vpgdesc_query_tree s !! (base + i * page_size s)) eqn:Hl; do 2 eexists; (split; [reflexivity |]); simpl.
    + split; [done |]. intros j Hj. destruct (decide (j = i)) as [->|]; [by eexists | apply Hall; lia].
    + split; [done |]. exists i. by split_and!.
  - intros i s' Hi Hge _ [-> Hall]. split; [done |]. intros j Hj Hjn. apply Hall. nia.
  - exists r. split; [exact E | exact Hr].
Qed.

Section Search.
Context (s : kima_pool_t H) (size al : Z) {R : Type} (found : Z -> Z -> M (kima_pool_t H) R).
Hypothesis Hok : blocks_ok s.
Hypothesis HP : 0 < page_size s.
Hypothesis Hsize : 0 < size.
Hypothesis Hal : 0 < al.
Hypothesis Hkeys : forall a n, vpgdesc_query_tree s !! a = Some n ->
  a mod page_size s = 0 /\ 0 <= a /\ a + size + page_size s + page_size s + al <= 2 ^ 64.

Lemma fit_ok c desc : ceil size s = Ok (c, s) -> size <= c < size + page_size s -> is_Some (vpgdesc_query_tree s !! desc) ->
  exists r, fit PBOS_ISOVERLAPPED None size al desc s = Ok (r, s) /\ fit_post s size al (desc + (c - size)) desc r.
Proof.
  intros Hc Hcs [nd Hd]. destruct (Hkeys _ _ Hd) as (_ & H0 & H64). unfold fit. rewrite (bind_ok _ _ _ _ _ Hc).
  rewrite (w64_small (desc + (c - size))); [unfold in64; lia |]. unfold get, id. cbn [bind].
  apply (fit_loop s size al (desc + (c - size)) Hok Hsize Hal ltac:(lia) _ desc H0).
  unfold ahead. apply map_subseteq_size, map_filter_subseteq.
Qed.

Definition place (c desc b : Z) : Prop :=
  is_Some (vpgdesc_query_tree s !! desc) /\ described s desc c /\ fit_post s size al (desc + (c - size)) desc (Some b).

(** No aligned vacant place in the pages from [desc] *)
Definition full (c desc : Z) : Prop :=
  described s desc c -> forall a, desc <= a <= desc + (c - size) -> a mod al = 0 -> ~ vacant s a size.

Definition outcome_of (o : option (Z * Z)) : outcome (option R * kima_pool_t H) :=
  match o with
  | None => Ok (None, s)
  | Some (desc, b) => bind (found desc b) (fun r => ret (Some r)) s
  end.

Definition area_post (c : Z) (o : option (Z * Z)) : Prop :=
  match o with
  | Some (desc, b) => place c desc b
  | None => forall desc, is_Some (vpgdesc_query_tree s !! desc) -> full c desc
  end.

(** Descriptors from [d] on *)
Definition rest (d : Z) : nat := base.size (filter (fun kn : Z * Z => d <= kn.1) (vpgdesc_query_tree s)).
Definition rank (it : option Z) (area_base : Z) : nat :=
  match it with None => 0%nat | Some d => (2 * rest d - (if (d <? area_base)%Z then 1 else 0))%nat end.

Lemma rest_mono d d' : d <= d' -> (rest d' <= rest d)%nat.
Proof.
  intros Hd. apply map_subseteq_size, map_subseteq_spec. intros i n. rewrite !map_lookup_filter_Some. simpl.
  intros [? ?]. split; [done | lia].
Qed.

Lemma rest_less d d' : is_Some (vpgdesc_query_tree s !! d) -> d < d' -> (rest d' < rest d)%nat.
Proof.
  intros [n Hn] Hd. apply map_subset_size. split.
  - apply map_subseteq_spec. intros i m. rewrite !map_lookup_filter_Some. simpl. intros [? ?]. split; [done | lia].
  - intros Hs. rewrite map_subseteq_spec in Hs. specialize (Hs d n). rewrite !map_lookup_filter_Some /= in Hs.
    destruct (Hs (conj Hn (Z.le_refl d))). lia.
Qed.

Lemma rest_pos d : is_Some (vpgdesc_query_tree s !! d) -> (0 < rest d)%nat.
Proof. intros Hd. pose proof (rest_less d (d + 1) Hd). lia. Qed.

(** What the iterator and [continuous_area_base] have passed *)
Record passed (c : Z) (it : option Z) (area_base : Z) : Prop := {
  ps_here : forall d, it = Some d -> is_Some (vpgdesc_query_tree s !! d);
  ps_full : forall d, is_Some (vpgdesc_query_tree s !! d) ->
    match it with Some i => d < Z.max i area_base | None => True end -> full c d
}.

Lemma passed_next c d area_base : passed c (Some d) area_base -> (area_base <= d -> full c d) ->
  passed c (fst <$> OMap.next d (vpgdesc_query_tree s)) area_base.
Proof.
  intros [Hh Hf] Hd. destruct (OMap.next d (vpgdesc_query_tree s)) as [[k n]|] eqn:Hn; simpl.
  - destruct (OMap.next_some _ _ _ _ Hn) as (Hk & Hlt & Hmin). split; [intros ? [= <-]; by eexists |].
    intros d' [n' Hd'] Hb. destruct (decide (d' < Z.max d area_base)); [apply Hf; [by eexists | done] |].
    destruct (decide (d' = d)) as [->|]; [apply Hd; lia |].
    specialize (Hmin _ _ Hd'). apply Hf; [by eexists | lia].
  - split; [done |]. intros d' [n' Hd'] _. pose proof (OMap.next_none _ _ Hn _ _ Hd').
    destruct (decide (d' < Z.max d area_base)); [apply Hf; [by eexists | done] |].
    replace d' with d in * by lia. apply Hd. lia.
Qed.

Lemma rank_next d area_base : is_Some (vpgdesc_query_tree s !! d) ->
  (rank (fst <$> OMap.next d (vpgdesc_query_tree s)) area_base < rank (Some d) area_base)%nat.
Proof.
  intros Hd. pose proof (rest_pos d Hd). destruct (OMap.next d (vpgdesc_query_tree s)) as [[k n]|] eqn:Hn; simpl.
  - destruct (OMap.next_some _ _ _ _ Hn) as (_ & Hlt & _). pose proof (rest_less d k Hd Hlt).
    destruct (d <? area_base), (k <? area_base); lia.
  - destruct (d <? area_base); lia.
Qed.

(** A page without a descriptor rules out all descriptors before it. *)
Lemma passed_missing c d area_base a j : passed c (Some d) area_base -> area_base <= d ->
  0 <= j -> j * page_size s < c -> a = d + j * page_size s -> vpgdesc_query_tree s !! a = None ->
  passed c (fst <$> OMap.max_lteq a (vpgdesc_query_tree s)) a /\
  (rank (fst <$> OMap.max_lteq a (vpgdesc_query_tree s)) a < rank (Some d) area_base)%nat.
Proof.
  intros [Hh Hf] Hbd Hj Hjc Ha Hn. destruct (Hh d eq_refl) as [nd Hd].
  assert (Hja : d < a). { destruct (decide (a = d)); [congruence | nia]. }
  destruct (OMap.max_lteq a (vpgdesc_query_tree s)) as [[k n]|] eqn:Hm; simpl.
  2:{ pose proof (OMap.max_lteq_none _ _ Hm _ _ Hd). lia. }
  destruct (OMap.max_lteq_some _ _ _ _ Hm) as (Hk & Hle & Hmax). pose proof (Hmax _ _ Hd ltac:(lia)) as Hdk.
  assert (Hka : k < a). { destruct (decide (k = a)); [congruence | lia]. }
  split.
  - split; [intros ? [= <-]; by eexists |]. intros d' [n' Hd'] Hb.
    destruct (decide (d' < d)); [apply Hf; [by eexists | lia] |]. intros Hdesc. exfalso.
    destruct (Hkeys _ _ Hd) as (Md & _). destruct (Hkeys _ _ Hd') as (Md' & _).
    pose proof (Z.div_mod d (page_size s)). pose proof (Z.div_mod d' (page_size s)).
    destruct (Hdesc (j - (d' / page_size s - d / page_size s)) ltac:(nia) ltac:(nia)) as [x Hx].
    replace (d' + _) with a in Hx by nia. congruence.
  - pose proof (rest_mono d k Hdk). pose proof (rest_pos k ltac:(by eexists)).
    destruct (Z.ltb_spec k a); [| lia]. destruct (Z.ltb_spec d area_base); lia.
Qed.

Lemma area_round_eq c d area_base : ceil size s = Ok (c, s) ->
  area_round PBOS_ISOVERLAPPED None size al found (Some d, area_base) s =
    if d <? area_base then Ok (inl (fst <$> OMap.next d (vpgdesc_query_tree s), area_base), s)
    else bind (missing_page d c) (fun miss =>
           match miss with
           | Some a => ret (inl (fst <$> OMap.max_lteq a (vpgdesc_query_tree s), a))
           | None => bind (fit PBOS_ISOVERLAPPED None size al d) (fun f =>
               match f with
               | Some b => bind (found d b) (fun r => ret (inr (Some r)))
               | None => ret (inl (fst <$> OMap.next d (vpgdesc_query_tree s), area_base))
               end)
           end) s.
Proof.
  intros Hc. unfold area_round, get, id. cbn [bind]. destruct (d <? area_base); [done |]. by rewrite (bind_ok _ _ _ _ _ Hc).
Qed.

Lemma area_loop c n it area_base : ceil size s = Ok (c, s) -> size <= c < size + page_size s ->
  (rank it area_base <= n)%nat -> passed c it area_base ->
  exists o, loop (Datatypes.S n) (area_round PBOS_ISOVERLAPPED None size al found) (it, area_base) s = outcome_of o /\
    area_post c o.
Proof.
  intros Hc Hcs. revert it area_base. induction n as [|n IH]; intros it area_base Hrank Hpass.
  all: destruct it as [d|];
    [| exists None; split; [by apply loop_exit | intros d' Hd'; by apply (ps_full _ _ _ Hpass)]].
  { pose proof (rest_pos d (ps_here _ _ _ Hpass d eq_refl)). simpl in Hrank. destruct (d <? area_base); lia. }
  pose proof (ps_here _ _ _ Hpass d eq_refl) as Hd.
  assert (Hgo : forall it' b', area_round PBOS_ISOVERLAPPED None size al found (Some d, area_base) s = Ok (inl (it', b'), s) ->
    (rank it' b' < rank (Some d) area_base)%nat -> passed c it' b' ->
    exists o, loop (Datatypes.S (Datatypes.S n)) (area_round PBOS_ISOVERLAPPED None size al found) (Some d, area_base) s = outcome_of o /\
      area_post c o).
  { intros it' b' E Hr Hp. destruct (IH it' b' ltac:(lia) Hp) as (o & Eo & Ho). exists o.
    split; [by rewrite (loop_next _ _ _ _ _ _ E) | done]. }
  pose proof (area_round_eq c d area_base Hc) as Er. destruct (d <? area_base) eqn:Hlt.
  - eapply Hgo; [exact Er | by apply rank_next | apply passed_next; [done | lia]].
  - destruct Hd as [nd Hd]. destruct (Hkeys _ _ Hd) as (_ & H0 & H64).
    destruct (missing_page_ok s d c HP H0 ltac:(lia) ltac:(lia)) as ([a|] & Em & Hm); rewrite (bind_ok _ _ _ _ _ Em) in Er.
    + destruct Hm as (j & Hj & Hjc & Ha & Hna & _).
      destruct (passed_missing c d area_base a j Hpass ltac:(lia) Hj Hjc Ha Hna) as [Hp' Hr'].
      eapply Hgo; [exact Er | exact Hr' | exact Hp'].
    + destruct (fit_ok c d Hc Hcs ltac:(by eexists)) as ([b|] & Ef & Hf); rewrite (bind_ok _ _ _ _ _ Ef) in Er.
      * exists (Some (d, b)). split; [| by split; [eexists |]]. cbn [loop outcome_of].
        unfold bind at 1. rewrite Er. unfold bind. by destruct (found d b s) as [[? ?]| | |].
      * eapply Hgo; [exact Er | apply rank_next; by eexists | apply passed_next; [done | intros _ _; exact Hf]].
Qed.

(** The search finds a place exactly when there is one. *)
Lemma find_area_ok : size + page_size s <= 2 ^ 64 ->
  exists c o, ceil size s = Ok (c, s) /\ size <= c < size + page_size s /\ c mod page_size s = 0 /\
    find_area PBOS_ISOVERLAPPED None size al found s = outcome_of o /\ area_post c o.
Proof.
  intros H64. destruct (ceil_ok s size HP ltac:(lia) H64) as (c & Ec & Hc & Hcm). exists c.
  unfold find_area, get, id. cbn [bind].
  destruct (area_loop c (2 * base.size (vpgdesc_query_tree s)) (fst <$> OMap.first (vpgdesc_query_tree s)) 0 Ec Hc) as (o & E & Ho).
  - destruct (OMap.first (vpgdesc_query_tree s)) as [[d n]|]; simpl; [| lia].
    assert (rest d <= base.size (vpgdesc_query_tree s))%nat by apply map_subseteq_size, map_filter_subseteq. destruct (d <? 0); lia.
  - destruct (OMap.first (vpgdesc_query_tree s)) as [[d n]|] eqn:Hf; simpl.
    + destruct (OMap.first_some _ _ _ Hf) as (Hd & Hmin). split; [intros ? [= <-]; by eexists |].
      intros d' [n' Hd'] Hb. specialize (Hmin _ _ Hd'). destruct (Hkeys _ _ Hd) as (_ & ? & _). lia.
    + split; [done |]. intros d' [n' Hd'] _. rewrite (OMap.first_none _ Hf) in Hd'. by rewrite lookup_empty in Hd'.
  - exists o. split_and!; [done | lia | lia | done | exact E | done].
Qed.

End Search.

End Fit.

End KimaFit.
