(* ===== verification/KimaPool.v ===== *)
(** * The pool of the kernel heap

    What a pool consists of, and what the operations on records and pages do
    to it.  The two kinds of records follow the same rules, [slots_ok]. *)

From S2P Require Import Prelude OMap MemConf Kima KimaFit.
Import MemConf Kima KimaFit.

Module KimaPool.

(** ** Records in slots of pool pages *)

Section Slots.
Context {R : Type} (key : R -> Z) (P : Z).
Implicit Types q f : gmap Z Z.
Implicit Types r : gmap Z R.
Implicit Types hs : gmap Z header_t.

Definition floorP (n : Z) : Z := n - n mod P.

(** Records in the query tree, in the free tree, and where they live *)
Record slots_ok q f r hs : Prop := {
  so_query : forall k n, q !! k = Some n -> exists x, r !! n = Some x /\ key x = k;
  so_free : forall k n, f !! k = Some n -> n = k /\ exists x, r !! n = Some x /\ key x = k;
  so_apart : forall k n, q !! k = Some n -> f !! n = None;
  so_page : forall n, is_Some (r !! n) -> is_Some (hs !! floorP n)
}.

Lemma take_slot q f r hs n a x : slots_ok q f r hs -> f !! n = Some n -> q !! a = None -> key x = a ->
  slots_ok (<[a := n]> q) (delete n f) (<[n := x]> r) hs.
Proof.
  intros [Hq Hf Ha Hp] Hn Hqa Hx.
  assert (Hne : forall k m, q !! k = Some m -> m <> n) by (intros k m Hk ->; by rewrite (Ha _ _ Hk) in Hn).
  split.
  - intros k m [[<- <-]|[Hk Hm]]%lookup_insert_Some; [exists x; by rewrite lookup_insert_eq |].
    rewrite lookup_insert_ne; [by apply not_eq_sym, (Hne k) | by apply Hq].
  - intros k m [Hk Hm]%lookup_delete_Some. destruct (Hf _ _ Hm) as [-> Hr]. split; [done |].
    by rewrite lookup_insert_ne.
  - intros k m [[<- <-]|[Hk Hm]]%lookup_insert_Some; [by rewrite lookup_delete_eq |].
    apply lookup_delete_None. right. by apply (Ha k).
  - intros m Hm. destruct (decide (m = n)) as [->|Hmn]; [| apply Hp; by rewrite lookup_insert_ne in Hm].
    apply Hp. destruct (Hf _ _ Hn) as (_ & y & Hy & _). by eexists.
Qed.

(** A new record at [n], used for [a] *)
Lemma add_used q f r hs n a x : slots_ok q f r hs -> r !! n = None -> is_Some (hs !! floorP n) -> q !! a = None ->
  key x = a -> slots_ok (<[a := n]> q) f (<[n := x]> r) hs.
Proof.
  intros [Hq Hf Ha Hp] Hn Hh Hqa Hx.
  assert (Hnf : f !! n = None). { destruct (f !! n) as [m|] eqn:E; [| done]. destruct (Hf _ _ E) as (-> & y & Hy & _). congruence. }
  split.
  - intros k m [[<- <-]|[Hk Hm]]%lookup_insert_Some; [exists x; by rewrite lookup_insert_eq |].
    destruct (Hq _ _ Hm) as (y & Hy & Hky). exists y. rewrite lookup_insert_ne; [congruence | done].
  - intros k m Hm. destruct (Hf _ _ Hm) as (-> & y & Hy & Hky). split; [done |]. exists y.
    rewrite lookup_insert_ne; [congruence | done].
  - intros k m [[<- <-]|[Hk Hm]]%lookup_insert_Some; [done | by apply (Ha k)].
  - intros m [z Hz]. apply lookup_insert_Some in Hz as [[<- _]|[_ Hz]]; [done | apply Hp; by eexists].
Qed.

(** A new free record at [n] *)
Lemma add_free q f r hs n x : slots_ok q f r hs -> r !! n = None -> is_Some (hs !! floorP n) -> key x = n ->
  slots_ok q (<[n := n]> f) (<[n := x]> r) hs.
Proof.
  intros [Hq Hf Ha Hp] Hn Hh Hx. split.
  - intros k m Hm. destruct (Hq _ _ Hm) as (y & Hy & Hky). exists y. rewrite lookup_insert_ne; [congruence | done].
  - intros k m [[<- <-]|[Hk Hm]]%lookup_insert_Some; [split; [done |]; exists x; by rewrite lookup_insert_eq |].
    destruct (Hf _ _ Hm) as (-> & y & Hy & Hky). split; [done |]. exists y. rewrite lookup_insert_ne; [congruence | done].
  - intros k m Hm. destruct (Hq _ _ Hm) as (y & Hy & _). rewrite lookup_insert_ne; [congruence | by apply (Ha k)].
  - intros m [z Hz]. apply lookup_insert_Some in Hz as [[<- _]|[_ Hz]]; [done | apply Hp; by eexists].
Qed.

(** A record that keeps its key *)
Lemma set_record q f r hs n x y : slots_ok q f r hs -> r !! n = Some x -> key y = key x ->
  slots_ok q f (<[n := y]> r) hs.
Proof.
  intros [Hq Hf Ha Hp] Hn Hy.
  assert (Hr : forall m k, (exists z, r !! m = Some z /\ key z = k) -> exists z, <[n := y]> r !! m = Some z /\ key z = k).
  { intros m k (z & Hz & <-). destruct (decide (m = n)) as [->|Hne].
    - exists y. rewrite lookup_insert_eq. split; [done | congruence].
    - exists z. by rewrite lookup_insert_ne. }
  split; [eauto | | done |].
  - intros k m Hm. destruct (Hf _ _ Hm) as (-> & Hx). eauto.
  - intros m [z Hz]. apply Hp. apply lookup_insert_Some in Hz as [[<- _]|[_ Hz]]; by eexists.
Qed.

Lemma more_headers q f r hs hs' : slots_ok q f r hs -> (forall p, is_Some (hs !! p) -> is_Some (hs' !! p)) ->
  slots_ok q f r hs'.
Proof. intros [Hq Hf Ha Hp] Hm. split; eauto. Qed.

Lemma floor_slot pg k : pg mod P = 0 -> 0 <= k < P -> floorP (pg + k) = pg.
Proof.
  intros Hpg Hk. unfold floorP. pose proof (Z.div_mod pg P ltac:(lia)) as Hd.
  replace (pg + k) with (k + pg / P * P) at 2 by lia. rewrite Z_mod_plus_full Z.mod_small; lia.
Qed.

End Slots.

(** ** The memory manager *)

(** The memory it has handed out, and the pages it has left.  As long as there
    are pages left it gives out fresh areas of pages, and physical pages for
    them. *)
Class Lawful (H : Type) `{Backend H} := {
  owns : H -> Z -> Prop;
  room : H -> Z;
  owns_range h x : owns h x -> 0 < x < 2 ^ 64 - 2 ^ 31;
  kvmalloc_ok h n : 0 < n -> n mod PAGESIZE = 0 -> n / PAGESIZE <= room h ->
    exists v h', mm_kvmalloc n h = Ok (v, h') /\ v mod PAGESIZE = 0 /\
      (forall x, v <= x < v + n -> ~ owns h x) /\ (forall x, owns h' x <-> owns h x \/ v <= x < v + n) /\
      room h' = room h - n / PAGESIZE;
  pgalloc_ok h : exists p h', mm_pgalloc h = Ok (p, h') /\ p <> 0 /\ (forall x, owns h' x <-> owns h x) /\ room h' = room h;
  mmap_ok v p n h : exists h', mm_mmap v p n h = Ok (KM_RESULT_OK, h') /\ (forall x, owns h' x <-> owns h x) /\ room h' = room h
}.

Section Pool.
Context {H : Type} `{HB : Backend H} {HL : Lawful H} (lay : abi).

Abbreviation pool := (kima_pool_t H).
Implicit Types s : pool.

(** Slots of a page: where they are *)
Record layout_ok (off n sz : Z) : Prop := {
  la_off : 0 < off;
  la_count : 0 < n;
  la_size : 0 < sz;
  la_fit : off + n * sz <= PAGESIZE
}.

(** The fields that operations on records do not touch *)
Record same_frame s s' : Prop := {
  sf_mutex : mutex s' = mutex s;
  sf_page : page_size s' = page_size s;
  sf_init : _initialized s' = _initialized s;
  sf_uoff : ublk_slots_off s' = ublk_slots_off s;
  sf_usize : ublk_slots_size s' = ublk_slots_size s;
  sf_voff : vpgdesc_slots_off s' = vpgdesc_slots_off s;
  sf_vsize : vpgdesc_slots_size s' = vpgdesc_slots_size s;
  sf_headers : forall p, is_Some (headers s !! p) -> is_Some (headers s' !! p);
  sf_owns : forall x, owns (hw s) x -> owns (hw s') x
}.

Lemma frame_refl s : same_frame s s.
Proof. by split. Qed.

Lemma frame_trans s1 s2 s3 : same_frame s1 s2 -> same_frame s2 s3 -> same_frame s1 s3.
Proof. intros [] []. split; [congruence .. | eauto | eauto]. Qed.

Record pool_ok s : Prop := {
  po_init : _initialized s = true;
  po_page : page_size s = PAGESIZE;
  po_vlayout : layout_ok (vpgdesc_slots_off s) (vpgdesc_slots_size s) (sizeof_vpgdesc lay);
  po_ulayout : layout_ok (ublk_slots_off s) (ublk_slots_size s) (sizeof_ublk lay);
  po_vslots : slots_ok d_rb_value PAGESIZE (vpgdesc_query_tree s) (vpgdesc_free_tree s) (vpgdescs s) (headers s);
  po_uslots : slots_ok u_rb_value PAGESIZE (ublk_query_tree s) (ublk_free_tree s) (ublks s) (headers s);
  po_vlist : vpgdesc_poolpg_list s = 0 \/ is_Some (headers s !! vpgdesc_poolpg_list s);
  po_ulist : ublk_poolpg_list s = 0 \/ is_Some (headers s !! ublk_poolpg_list s);
  po_header : forall p, is_Some (headers s !! p) -> p mod PAGESIZE = 0 /\ forall x, p <= x < p + PAGESIZE -> owns (hw s) x;
  po_desc : forall a, is_Some (vpgdesc_query_tree s !! a) ->
    a mod PAGESIZE = 0 /\ headers s !! a = None /\ forall x, a <= x < a + PAGESIZE -> owns (hw s) x;
  po_sizes : forall k n u, block s k n u -> 0 < u_size u;
  po_blocks : forall k1 n1 u1 k2 n2 u2, block s k1 n1 u1 -> block s k2 n2 u2 -> k1 < k2 -> k1 + u_size u1 <= k2;
  po_inside : forall k n u x, block s k n u -> k <= x < k + u_size u -> is_Some (vpgdesc_query_tree s !! floorP PAGESIZE x)
}.

Lemma owned_page s x : pool_ok s -> is_Some (vpgdesc_query_tree s !! floorP PAGESIZE x) -> owns (hw s) x.
Proof.
  intros Hok Hx. apply (po_desc _ Hok _ Hx). unfold floorP. pose proof (Z.mod_pos_bound x PAGESIZE ltac:(done)). lia.
Qed.

Lemma pool_blocks s : pool_ok s -> blocks_ok s.
Proof.
  intros Hok. split; [| apply (po_blocks _ Hok)]. intros k n Hk.
  destruct (so_query _ _ _ _ _ _ (po_uslots _ Hok) _ _ Hk) as (u & Hu & Hr).
  pose proof (po_sizes _ Hok k n u (conj Hk Hu)) as Hs.
  assert (Ho : forall x, k <= x < k + u_size u -> owns (hw s) x).
  { intros x Hx. apply owned_page; [done |]. by apply (po_inside _ Hok k n u). }
  pose proof (owns_range _ _ (Ho k ltac:(lia))). pose proof (owns_range _ _ (Ho (k + u_size u - 1) ltac:(lia))).
  exists u. split_and!; [done | done | done | lia | lia].
Qed.

(** *** Pages from the memory manager *)

(** What the memory manager may change under the pool *)
Record fresh_area s s' (v n : Z) : Prop := {
  fa_state : exists h, s' = with_mm s h;
  fa_align : v mod PAGESIZE = 0;
  fa_fresh : forall x, v <= x < v + n -> ~ owns (hw s) x;
  fa_owns : forall x, owns (hw s') x <-> owns (hw s) x \/ v <= x < v + n;
  fa_room : room (hw s') = room (hw s) - n / PAGESIZE
}.

Lemma lift_mm_ok {A} (m : M H A) s a h : m (hw s) = Ok (a, h) -> lift m s = Ok (a, with_mm s h).
Proof. unfold lift. by intros ->. Qed.

Lemma vpgalloc_ok s n : page_size s = PAGESIZE -> 0 < n -> n mod PAGESIZE = 0 -> n / PAGESIZE <= room (hw s) ->
  exists v s', kima_vpgalloc n s = Ok (v, s') /\ 0 < v /\ fresh_area s s' v n.
Proof.
  intros HP Hn Hm Hr. unfold kima_vpgalloc. rewrite (proj2 (Z.eqb_neq n 0)); [lia |].
  rewrite (bind_ok _ _ _ _ _ (kd_assert_true s)).
  destruct (kvmalloc_ok (hw s) n Hn Hm Hr) as (v & h & E & Hv & Hf & Ho & Hroom).
  rewrite (bind_ok _ _ _ _ _ (lift_mm_ok _ _ _ _ E)).
  assert (Hv0 : 0 < v) by (apply (owns_range h v); apply Ho; right; lia).
  rewrite (proj2 (Z.eqb_neq v 0)); [lia |]. rewrite (bind_ok _ _ _ _ _ (kd_assert_true _)).
  set (s1 := with_mm s h).
  match goal with |- context [page_loop 0 n ?b] => destruct (page_loop_rule
    (fun _ s' => exists h', s' = with_mm s h' /\ (forall x, owns h' x <-> owns h x) /\ room h' = room h)
    (fun r s' => r = None /\ exists h', s' = with_mm s h' /\ (forall x, owns h' x <-> owns h x) /\ room h' = room h)
    0 n b s1) as (r & s' & Er & -> & h' & -> & Ho' & Hr') end.
  - simpl. rewrite HP. done.
  - by exists h.
  - intros i s' Hi _ (h1 & -> & Ho1 & Hr1).
    destruct (pgalloc_ok (hw (with_mm s h1))) as (p & h2 & E2 & Hp & Ho2 & Hr2).
    rewrite (bind_ok _ _ _ _ _ (lift_mm_ok _ _ _ _ E2)) (proj2 (Z.eqb_neq p 0) Hp).
    cbn [with_mm page_size hw] in *. unfold get at 1. rewrite {1}/bind. cbn [page_size with_mm].
    destruct (mmap_ok (w64 (v + i * page_size s)) p (page_size s) h2) as (h3 & E3 & Ho3 & Hr3).
    erewrite bind_ok; [| apply lift_mm_ok; cbn [hw with_mm]; exact E3]. do 2 eexists. split; [reflexivity |].
    simpl. exists h3. split; [done |]. split; [| congruence]. intros x. by rewrite Ho3 Ho2.
  - intros i s' _ _ _ (h1 & -> & Ho1 & Hr1). split; [done |]. by exists h1.
  - rewrite (bind_ok _ _ _ _ _ Er). exists v, (with_mm s h'). split; [reflexivity |]. split; [done |].
    split; [by eexists | done | done | |].
    + intros x. cbn [hw with_mm]. by rewrite Ho' Ho.
    + cbn [hw with_mm]. by rewrite Hr'.
Qed.

Lemma fresh_header s s' v : pool_ok s -> fresh_area s s' v PAGESIZE -> headers s !! v = None.
Proof.
  intros Hok Hf. destruct (headers s !! v) as [h|] eqn:E; [| done].
  destruct (po_header _ Hok v ltac:(by eexists)) as [_ Ho]. exfalso.
  apply (fa_fresh _ _ _ _ Hf v); [unfold PAGESIZE; lia |]. apply Ho. unfold PAGESIZE. lia.
Qed.

(** *** Records *)

(** The loop that fills the slots of a new page from the second on, for either
    kind of record: [mk] is the state with a given free tree and records. *)
Section NewSlots.
Context {R : Type} (key : R -> Z) (new : Z -> R) (mk : gmap Z Z -> gmap Z R -> pool).
Context (q : gmap Z Z) (hs : gmap Z header_t) (pg off n sz : Z) (x0 : R).
Context (body : Z -> unit -> M pool (flow unit Empty_set)).
Hypothesis Hlay : layout_ok off n sz.
Hypothesis Hpg : pg mod PAGESIZE = 0.
Hypothesis Hkey : forall k, key (new k) = k.
Hypothesis Hhead : is_Some (hs !! pg).

Definition slot_at (i : Z) : Z := pg + off + i * sz.

Hypothesis Hbody : forall i f r, body i tt (mk f r) =
  match f !! slot_at i with
  | Some _ => Panic
  | None => Ok (Next tt, mk (<[slot_at i := slot_at i]> f) (<[slot_at i := new (slot_at i)]> r))
  end.

Lemma slot_floor i : 0 <= i < n -> floorP PAGESIZE (slot_at i) = pg.
Proof.
  intros Hi. destruct Hlay. unfold slot_at. rewrite -Z.add_assoc. apply floor_slot; [done |]. nia.
Qed.

(** The records in the page are those of the slots below [i]. *)
Definition filled (i : Z) (r : gmap Z R) : Prop :=
  forall m, floorP PAGESIZE m = pg -> is_Some (r !! m) -> exists j, 0 <= j < i /\ m = slot_at j.

Lemma new_slots_loop f r : slots_ok key PAGESIZE q f r hs -> filled 1 r -> r !! slot_at 0 = Some x0 ->
  exists f' r', for_loop (Z.to_nat (n - 1)) 1 body tt (mk f r) = Ok (inl (tt, n), mk f' r') /\
    slots_ok key PAGESIZE q f' r' hs /\ r' !! slot_at 0 = Some x0 /\
    forall m, floorP PAGESIZE m <> pg -> r' !! m = r !! m.
Proof.
  intros Hs Hfill H0. pose proof (la_count _ _ _ Hlay) as Hn. pose proof (la_size _ _ _ Hlay) as Hsz.
  destruct (for_loop_rule (fun i (_ : unit) s' => exists f' r', s' = mk f' r' /\
      slots_ok key PAGESIZE q f' r' hs /\ filled i r' /\ r' !! slot_at 0 = Some x0 /\
      forall m, floorP PAGESIZE m <> pg -> r' !! m = r !! m)
    (fun res s' => res = inl (tt, n) /\ exists f' r', s' = mk f' r' /\
      slots_ok key PAGESIZE q f' r' hs /\ r' !! slot_at 0 = Some x0 /\
      forall m, floorP PAGESIZE m <> pg -> r' !! m = r !! m)
    body (Z.to_nat (n - 1)) 1 tt (mk f r)) as (res & s' & E & -> & f' & r' & -> & Hs' & H0' & Hout').
  - exists f, r. done.
  - intros j [] s' Hj (f1 & r1 & -> & Hs1 & Hf1 & H01 & Hout). rewrite Hbody.
    assert (Hfloor : floorP PAGESIZE (slot_at j) = pg) by (apply slot_floor; lia).
    assert (Hr1 : r1 !! slot_at j = None).
    { destruct (r1 !! slot_at j) as [y|] eqn:Hy; [| done]. exfalso.
      destruct (Hf1 (slot_at j) Hfloor ltac:(by eexists)) as (i & Hi & Hij). unfold slot_at in Hij. nia. }
    assert (Hf : f1 !! slot_at j = None).
    { destruct (f1 !! slot_at j) as [m|] eqn:Hm; [| done]. exfalso.
      destruct (so_free _ _ _ _ _ _ Hs1 _ _ Hm) as (-> & y & Hy & _). congruence. }
    rewrite Hf. do 2 eexists. split; [reflexivity |]. simpl. do 2 eexists. split; [reflexivity |]. split_and!.
    + apply add_free; [done | done | by rewrite Hfloor | apply Hkey].
    + intros m Hm [y Hy]. apply lookup_insert_Some in Hy as [[<- _]|[_ Hy]]; [exists j; split; [lia | done] |].
      destruct (Hf1 m Hm ltac:(by eexists)) as (i & Hi & ->). exists i. split; [lia | done].
    + rewrite lookup_insert_ne; [| done]. unfold slot_at. nia.
    + intros m Hm. rewrite lookup_insert_ne; [congruence | by apply Hout].
  - intros [] s' (f' & r' & -> & Hs' & _ & H0' & Hout). split; [do 2 f_equal; lia |]. by exists f', r'.
  - by exists f', r'.
Qed.

End NewSlots.

Definition with_headers s (m : gmap Z header_t) : pool :=
  mkPool (mutex s) (ublk_poolpg_list s) (ublk_query_tree s) (ublk_free_tree s)
    (vpgdesc_poolpg_list s) (vpgdesc_query_tree s) (vpgdesc_free_tree s) (num_allocated_pages s)
    (page_size s) (_initialized s) (ublk_slots_off s) (ublk_slots_size s)
    (vpgdesc_slots_off s) (vpgdesc_slots_size s) (ublks s) (vpgdescs s) m (bytes s) (hw s).

Definition with_vpgdescs s (l : Z) (q f : gmap Z Z) (d : gmap Z kima_vpgdesc_t) : pool :=
  mkPool (mutex s) (ublk_poolpg_list s) (ublk_query_tree s) (ublk_free_tree s) l q f (num_allocated_pages s)
    (page_size s) (_initialized s) (ublk_slots_off s) (ublk_slots_size s)
    (vpgdesc_slots_off s) (vpgdesc_slots_size s) (ublks s) d (headers s) (bytes s) (hw s).

Definition with_ublks s (l : Z) (q f : gmap Z Z) (u : gmap Z kima_ublk_t) : pool :=
  mkPool (mutex s) l q f
    (vpgdesc_poolpg_list s) (vpgdesc_query_tree s) (vpgdesc_free_tree s) (num_allocated_pages s)
    (page_size s) (_initialized s) (ublk_slots_off s) (ublk_slots_size s)
    (vpgdesc_slots_off s) (vpgdesc_slots_size s) u (vpgdescs s) (headers s) (bytes s) (hw s).

Lemma bind_get {A B} (f : pool -> A) (k : A -> M pool B) s : bind (get f) k s = k (f s) s.
Proof. reflexivity. Qed.
Lemma bind_put_headers {B} m (k : unit -> M pool B) s : bind (put_headers m) k s = k tt (with_headers s m).
Proof. reflexivity. Qed.
Lemma bind_put_vpgdescs {B} l q f d (k : unit -> M pool B) s :
  bind (put_vpgdescs l q f d) k s = k tt (with_vpgdescs s l q f d).
Proof. reflexivity. Qed.
Lemma bind_put_ublks {B} l q f u (k : unit -> M pool B) s : bind (put_ublks l q f u) k s = k tt (with_ublks s l q f u).
Proof. reflexivity. Qed.
Lemma bind_insert {B} t k n (g : gmap Z Z -> M pool B) s : t !! k = None ->
  bind (tree_insert t k n) g s = g (<[k := n]> t) s.
Proof. unfold tree_insert. by intros ->. Qed.
Lemma bind_remove {B} t k n (g : gmap Z Z -> M pool B) s : t !! k = Some n ->
  bind (tree_remove t k n) g s = g (delete k t) s.
Proof. unfold tree_remove. intros Hk. by rewrite bool_decide_true. Qed.

(** The headers of [m'] are those of [m] and the one of [pg]. *)
Definition header_added (m m' : gmap Z header_t) (pg : Z) : Prop :=
  forall p, is_Some (m' !! p) <-> p = pg \/ is_Some (m !! p).

Lemma put_header_ok s p f : is_Some (headers s !! p) ->
  exists m, put_header p f s = Ok (tt, with_headers s m) /\ forall x, is_Some (m !! x) <-> is_Some (headers s !! x).
Proof.
  intros [h Hh]. exists (<[p := f h]> (headers s)). split; [by rewrite /put_header /get_header /bind Hh |].
  intros x. rewrite lookup_insert_is_Some. split; [intros [<-|[_ Hx]]; [by eexists | done] |].
  intros Hx. destruct (decide (p = x)); [by left | by right].
Qed.

(** A new page at the head of a list *)
Lemma link_page_ok s pg head : head = 0 \/ is_Some (headers s !! head) ->
  exists m, link_page pg head s = Ok (tt, with_headers s m) /\ header_added (headers s) m pg.
Proof.
  intros Hh. unfold link_page. rewrite bind_get bind_put_headers.
  set (s1 := with_headers s (<[pg := mkHeader 0 head 0]> (headers s))).
  assert (H1 : header_added (headers s) (headers s1) pg).
  { intros p. unfold s1. cbn [headers with_headers]. rewrite lookup_insert_is_Some.
    destruct (decide (pg = p)) as [->|]; intuition congruence. }
  destruct (Z.eqb_spec head 0) as [->|Hne]; simpl; [by exists (headers s1) |].
  destruct (put_header_ok s1 head (fun h => mkHeader pg (next h) (used_num h))) as (m & E & Hm).
  { destruct Hh as [?|Hh]; [done |]. apply H1. by right. }
  exists m. split; [exact E |]. intros p. by rewrite Hm H1.
Qed.

Lemma set_used_ok s pg u : is_Some (headers s !! pg) ->
  exists m, set_used pg u s = Ok (tt, with_headers s m) /\ forall x, is_Some (m !! x) <-> is_Some (headers s !! x).
Proof. apply put_header_ok. Qed.

Lemma page_floor_ok s n : page_size s = PAGESIZE -> page_floor n s = Ok (floorP PAGESIZE n, s).
Proof. intros HP. by rewrite /page_floor /get /bind HP. Qed.

(** Records that live in a page without a header: there are none. *)
Lemma no_records {R} (key : R -> Z) q f r hs pg n : slots_ok key PAGESIZE q f r hs -> hs !! pg = None ->
  floorP PAGESIZE n = pg -> r !! n = None.
Proof.
  intros Hs Hpg Hn. destruct (r !! n) as [x|] eqn:E; [| done].
  destruct (so_page _ _ _ _ _ _ Hs n ltac:(by eexists)) as [h Hh]. rewrite Hn in Hh. congruence.
Qed.

(** **** Page descriptors *)

Lemma vpgdesc_new_slots_ok s pg a : slots_ok d_rb_value PAGESIZE (vpgdesc_query_tree s) (vpgdesc_free_tree s) (vpgdescs s) (headers s) ->
  layout_ok (vpgdesc_slots_off s) (vpgdesc_slots_size s) (sizeof_vpgdesc lay) -> pg mod PAGESIZE = 0 ->
  is_Some (headers s !! pg) -> (forall n, floorP PAGESIZE n = pg -> vpgdescs s !! n = None) ->
  vpgdesc_query_tree s !! a = None ->
  let n := pg + vpgdesc_slots_off s in
  exists f d, vpgdesc_new_slots lay pg a s =
      Ok (tt, with_vpgdescs s (vpgdesc_poolpg_list s) (<[a := n]> (vpgdesc_query_tree s)) f d) /\
    slots_ok d_rb_value PAGESIZE (<[a := n]> (vpgdesc_query_tree s)) f d (headers s) /\ d !! n = Some (mkDesc a 0).
Proof.
  intros Hs Hlay Hpg Hh Hno Ha n.
  assert (Hn : pg + vpgdesc_slots_off s + 0 * sizeof_vpgdesc lay = n) by (unfold n; lia).
  pose proof (la_count _ _ _ Hlay).
  assert (Hfl : floorP PAGESIZE n = pg).
  { pose proof (slot_floor pg _ _ _ Hlay Hpg 0 ltac:(lia)) as Hf. unfold slot_at in Hf. by rewrite Hn in Hf. }
  unfold vpgdesc_new_slots. rewrite bind_get. unfold id at 1. rewrite Hn bind_insert // bind_put_vpgdescs.
  set (q := <[a := n]> (vpgdesc_query_tree s)).
  destruct (new_slots_loop d_rb_value (fun k => mkDesc k 0)
    (with_vpgdescs s (vpgdesc_poolpg_list s) q) q (headers s) pg (vpgdesc_slots_off s) (vpgdesc_slots_size s) (sizeof_vpgdesc lay)
    (mkDesc a 0) (fun i _ =>
      s0 <- get id;
      f <- tree_insert (vpgdesc_free_tree s0) (pg + vpgdesc_slots_off s + i * sizeof_vpgdesc lay) (pg + vpgdesc_slots_off s + i * sizeof_vpgdesc lay);
      put_vpgdescs (vpgdesc_poolpg_list s0) (vpgdesc_query_tree s0) f
        (<[pg + vpgdesc_slots_off s + i * sizeof_vpgdesc lay := mkDesc (pg + vpgdesc_slots_off s + i * sizeof_vpgdesc lay) 0]> (vpgdescs s0));;
      ret (Next (R := Empty_set) tt)) Hlay Hpg ltac:(done) Hh) with (f := vpgdesc_free_tree s) (r := <[n := mkDesc a 0]> (vpgdescs s))
    as (f & d & E & Hs' & Hd & _).
  - intros i f d. unfold get, id, bind, tree_insert. cbn [with_vpgdescs vpgdesc_free_tree].
    unfold slot_at. by destruct (f !! _).
  - apply add_used; [done | by apply Hno | by rewrite Hfl | done | done].
  - intros m Hm Hsome. destruct (decide (m = n)) as [->|Hne]; [exists 0; split; [lia | by rewrite /slot_at Hn] |].
    rewrite lookup_insert_ne in Hsome; [done |]. rewrite Hno in Hsome; [done | by destruct Hsome].
  - unfold slot_at. by rewrite Hn lookup_insert_eq.
  - exists f, d. split; [| split; [done |]].
    + erewrite bind_ok; [reflexivity |]. exact E.
    + unfold slot_at in Hd. by rewrite Hn in Hd.
Qed.

Record same_blocks s s' : Prop := {
  sb_list : ublk_poolpg_list s' = ublk_poolpg_list s;
  sb_query : ublk_query_tree s' = ublk_query_tree s;
  sb_free : ublk_free_tree s' = ublk_free_tree s;
  sb_ublks : ublks s' = ublks s
}.

Record same_descs s s' : Prop := {
  sd_list : vpgdesc_poolpg_list s' = vpgdesc_poolpg_list s;
  sd_query : vpgdesc_query_tree s' = vpgdesc_query_tree s;
  sd_free : vpgdesc_free_tree s' = vpgdesc_free_tree s;
  sd_descs : vpgdescs s' = vpgdescs s
}.

(** New headers are those of fresh pages. *)
Definition new_headers s s' : Prop := forall p, is_Some (headers s' !! p) ->
  is_Some (headers s !! p) \/ p mod PAGESIZE = 0 /\ forall x, p <= x < p + PAGESIZE -> owns (hw s') x /\ ~ owns (hw s) x.

Lemma in_page p : p <= p < p + PAGESIZE.
Proof. unfold PAGESIZE. lia. Qed.

Lemma old_page_free s s' a : new_headers s s' -> headers s !! a = None -> owns (hw s) a -> headers s' !! a = None.
Proof.
  intros Hn Ha Ho. destruct (headers s' !! a) as [h|] eqn:E; [| done]. exfalso.
  destruct (Hn a ltac:(by eexists)) as [[? Hs]|[_ Hf]]; [congruence |]. by destruct (Hf a (in_page a)).
Qed.

Lemma block_same s s' k n u : same_blocks s s' -> block s' k n u <-> block s k n u.
Proof. intros [? Hq ? Hu]. unfold block. by rewrite Hq Hu. Qed.

(** A pool whose descriptors have changed *)
Lemma pool_ok_descs s s' : pool_ok s -> same_frame s s' -> same_blocks s s' -> new_headers s s' ->
  slots_ok d_rb_value PAGESIZE (vpgdesc_query_tree s') (vpgdesc_free_tree s') (vpgdescs s') (headers s') ->
  (vpgdesc_poolpg_list s' = 0 \/ is_Some (headers s' !! vpgdesc_poolpg_list s')) ->
  (forall a, is_Some (vpgdesc_query_tree s !! a) -> is_Some (vpgdesc_query_tree s' !! a)) ->
  (forall a, is_Some (vpgdesc_query_tree s' !! a) -> is_Some (vpgdesc_query_tree s !! a) \/
     a mod PAGESIZE = 0 /\ headers s' !! a = None /\ forall x, a <= x < a + PAGESIZE -> owns (hw s') x) ->
  pool_ok s'.
Proof.
  intros Hok Hf Hb Hn Hs Hl Hmore Hkeys. destruct Hf as [Hmx Hpg Hin Huo Hus Hvo Hvs Hh Ho].
  split; rewrite ?Hpg ?Hin ?Huo ?Hus ?Hvo ?Hvs.
  - apply Hok. - apply Hok. - apply Hok. - apply Hok.
  - done.
  - destruct Hb as [Hbl Hbq Hbf Hbu]. rewrite Hbq Hbf Hbu. by eapply more_headers; [apply Hok |].
  - done.
  - rewrite (sb_list _ _ Hb). destruct (po_ulist _ Hok); [by left | right; by apply Hh].
  - intros p Hp. destruct (Hn p Hp) as [Hold|[Hm Hnew]].
    + destruct (po_header _ Hok p Hold) as [Hm Hx]. split; [done |]. eauto.
    + split; [done |]. intros x Hx. by apply Hnew.
  - intros a Ha. destruct (Hkeys a Ha) as [Hold|Hnew]; [| done].
    destruct (po_desc _ Hok a Hold) as (Hm & Hha & Hx). split; [done |]. split; [| eauto].
    apply (old_page_free s); [done | done |]. apply Hx, in_page.
  - intros k n u Hk. rewrite block_same // in Hk. by apply (po_sizes _ Hok k n u).
  - intros k1 n1 u1 k2 n2 u2. rewrite !(block_same s s') //. apply (po_blocks _ Hok).
  - intros k n u x. rewrite (block_same s s') //. intros Hk Hx. by eapply Hmore, (po_inside _ Hok).
Qed.

(** What allocating a descriptor for page [a] promises *)
Record desc_added s s' (a n : Z) : Prop := {
  da_ok : pool_ok s';
  da_frame : same_frame s s';
  da_blocks : same_blocks s s';
  da_headers : new_headers s s';
  da_query : vpgdesc_query_tree s' = <[a := n]> (vpgdesc_query_tree s);
  da_record : vpgdescs s' !! n = Some (mkDesc a 0);
  da_room : room (hw s) - 1 <= room (hw s')
}.

(** A page that can be given a descriptor *)
Definition free_page s (a : Z) : Prop :=
  vpgdesc_query_tree s !! a = None /\ a mod PAGESIZE = 0 /\ headers s !! a = None /\
  forall x, a <= x < a + PAGESIZE -> owns (hw s) x.

Lemma query_more {A} (m : gmap Z A) (a n : Z) x k : is_Some (m !! k) -> is_Some (<[a := x]> m !! k).
Proof. intros Hk. destruct (decide (a = k)); apply lookup_insert_is_Some; tauto. Qed.

Lemma take_vpgdesc s a n : pool_ok s -> free_page s a -> vpgdesc_free_tree s !! n = Some n ->
  exists s', (set_used (floorP PAGESIZE n) (fun u => u + 1);; vpgdesc_to_query n a) s = Ok (tt, s') /\ desc_added s s' a n.
Proof.
  intros Hok (Ha & Ham & Hah & Hao) Hn. pose proof (po_vslots _ Hok) as Hs.
  destruct (so_free _ _ _ _ _ _ Hs _ _ Hn) as (_ & d & Hd & Hk).
  destruct (set_used_ok s (floorP PAGESIZE n) (fun u => u + 1)) as (m & E & Hm).
  { apply (so_page _ _ _ _ _ _ Hs). by eexists. }
  rewrite (bind_ok _ _ _ _ _ E). unfold vpgdesc_to_query, get_vpgdesc.
  unfold bind at 1. cbn [with_headers vpgdescs]. rewrite Hd. rewrite bind_get Hk.
  unfold id at 1. cbn [with_headers vpgdesc_free_tree vpgdesc_query_tree]. rewrite bind_remove // bind_insert //.
  eexists. split; [reflexivity |].
  assert (Hs' : slots_ok d_rb_value PAGESIZE (<[a := n]> (vpgdesc_query_tree s)) (delete n (vpgdesc_free_tree s))
                  (<[n := mkDesc a 0]> (vpgdescs s)) m).
  { apply more_headers with (hs := headers s); [by apply take_slot | by intros p; rewrite Hm]. }
  assert (Hnh : forall p, is_Some (m !! p) -> is_Some (headers s !! p)) by (intros p; by rewrite Hm).
  split; cbn [vpgdesc_query_tree vpgdescs hw with_vpgdescs with_headers put_vpgdescs].
  - apply (pool_ok_descs s); try done.
    + split; try done. intros p. cbn. by rewrite Hm.
    + intros p Hp. left. by apply Hnh.
    + cbn. rewrite Hm. apply (po_vlist _ Hok).
    + intros k. cbn. by apply query_more.
    + intros k. cbn. rewrite lookup_insert_is_Some. intros [<-|[_ Hk']]; [right | by left].
      split_and!; [done | | done]. destruct (m !! a) as [h|] eqn:Em; [| done].
      destruct (Hnh a ltac:(by eexists)). congruence.
  - split; try done. intros p. cbn. by rewrite Hm.
  - done.
  - intros p Hp. left. by apply Hnh.
  - done.
  - by rewrite lookup_insert_eq.
  - lia.
Qed.

(** A fresh area and the pages that are already there *)
Lemma fresh_apart s s' v a : fresh_area s s' v PAGESIZE -> owns (hw s) a -> a <> v.
Proof. intros Hf Ho ->. by apply (fa_fresh _ _ _ _ Hf v (in_page v)). Qed.

Lemma fresh_new_headers s s' m v : fresh_area s s' v PAGESIZE -> header_added (headers s) m v ->
  forall p, is_Some (m !! p) -> is_Some (headers s !! p) \/
    p mod PAGESIZE = 0 /\ forall x, p <= x < p + PAGESIZE -> owns (hw s') x /\ ~ owns (hw s) x.
Proof.
  intros Hf Hm p Hp. apply Hm in Hp as [->|Hp]; [right | by left].
  split; [apply Hf |]. intros x Hx. split; [apply (fa_owns _ _ _ _ Hf); by right | by apply (fa_fresh _ _ _ _ Hf)].
Qed.

Lemma new_vpgdesc s s1 a pg : pool_ok s -> free_page s a -> fresh_area s s1 pg PAGESIZE ->
  exists s', (link_page pg (vpgdesc_poolpg_list s);;
      s <- get id;
      put_vpgdescs pg (vpgdesc_query_tree s) (vpgdesc_free_tree s) (vpgdescs s);;
      set_used pg (fun _ => 1);;
      vpgdesc_new_slots lay pg a;;
      ret (Some (pg + vpgdesc_slots_off s))) s1 = Ok (Some (pg + vpgdesc_slots_off s), s') /\ desc_added s s' a (pg + vpgdesc_slots_off s).
Proof.
  intros Hok (Ha & Ham & Hah & Hao) Hf. pose proof (po_vslots _ Hok) as Hs.
  pose proof (fresh_header s s1 pg Hok Hf) as Hhp. destruct (fa_state _ _ _ _ Hf) as [h E1]. subst s1.
  destruct (link_page_ok (with_mm s h) pg (vpgdesc_poolpg_list s) (po_vlist _ Hok)) as (m1 & El & Hm1).
  rewrite (bind_ok _ _ _ _ _ El) bind_get. unfold id. rewrite bind_put_vpgdescs.
  set (s2 := with_vpgdescs _ _ _ _ _). cbn [with_mm with_headers vpgdesc_query_tree vpgdesc_free_tree vpgdescs] in s2.
  assert (Hp1 : is_Some (m1 !! pg)) by (apply Hm1; by left).
  destruct (set_used_ok s2 pg (fun _ => 1) Hp1) as (m & Eu & Hm2). rewrite (bind_ok _ _ _ _ _ Eu).
  assert (Hm : header_added (headers s) m pg) by (intros p; by rewrite Hm2 Hm1).
  set (s3 := with_headers s2 m).
  destruct (vpgdesc_new_slots_ok s3 pg a) as (f & d & En & Hs' & Hd).
  - apply more_headers with (hs := headers s); [done |]. intros p Hp. apply Hm. by right.
  - apply (po_vlayout _ Hok).
  - apply Hf.
  - apply Hm. by left.
  - intros n Hn. by apply (no_records _ _ _ _ _ pg _ Hs).
  - done.
  - rewrite (bind_ok _ _ _ _ _ En). eexists. split; [reflexivity |]. clear En. cbn [vpgdesc_slots_off with_headers with_vpgdescs with_mm] in *.
    assert (Hfr : same_frame s (with_vpgdescs s3 (vpgdesc_poolpg_list s3) (<[a := pg + vpgdesc_slots_off s]> (vpgdesc_query_tree s3)) f d)).
    { split; try done; cbn; [intros p Hp; apply Hm; by right |]. intros x Hx. apply (fa_owns _ _ _ _ Hf). by left. }
    split; [| done | done | | done | done |].
    + apply (pool_ok_descs s); try done; cbn.
      * exact (fresh_new_headers s (with_mm s h) m pg Hf Hm).
      * right. apply Hm. by left.
      * intros k. by apply query_more.
      * intros k. rewrite lookup_insert_is_Some. intros [<-|[_ Hk]]; [right | by left].
        split; [done |]. split; [| intros x Hx; apply (fa_owns _ _ _ _ Hf); left; by apply Hao].
        destruct (m !! a) as [x|] eqn:Em; [| done]. destruct (proj1 (Hm a) ltac:(by eexists)) as [Eap|[? Hx]]; [| congruence].
        exfalso. by apply (fresh_apart s (with_mm s h) pg a Hf (Hao a (in_page a))).
    + exact (fresh_new_headers s (with_mm s h) m pg Hf Hm).
    + pose proof (fa_room _ _ _ _ Hf) as Hroom. cbn in Hroom |- *. change (PAGESIZE / PAGESIZE) with 1 in Hroom. lia.
Qed.

Lemma alloc_vpgdesc_ok s a : pool_ok s -> 1 <= room (hw s) -> free_page s a ->
  exists n s', kima_alloc_vpgdesc lay a s = Ok (Some n, s') /\ desc_added s s' a n.
Proof.
  intros Hok Hr Hfree. pose proof (po_page _ Hok) as HP. pose proof (po_vslots _ Hok) as Hs.
  unfold kima_alloc_vpgdesc. rewrite bind_get. unfold id.
  destruct (OMap.first (vpgdesc_free_tree s)) as [[k n]|] eqn:Hfirst.
  - destruct (OMap.first_some _ _ _ Hfirst) as [Hk _]. destruct (so_free _ _ _ _ _ _ Hs _ _ Hk) as (-> & _).
    rewrite (bind_ok _ _ _ _ _ (page_floor_ok s k HP)).
    destruct (take_vpgdesc s a k Hok Hfree Hk) as (s' & E & Hpost). exists k, s'. split; [| done].
    rewrite -bind_assoc (bind_ok _ _ _ _ _ E). done.
  - rewrite HP. destruct (vpgalloc_ok s PAGESIZE HP ltac:(done) ltac:(done) Hr) as (pg & s1 & E & Hpg & Hf).
    rewrite (bind_ok _ _ _ _ _ E) (proj2 (Z.eqb_neq pg 0)); [lia |].
    destruct (new_vpgdesc s s1 a pg Hok Hfree Hf) as (s' & En & Hpost).
    exists (pg + vpgdesc_slots_off s), s'. split; [| done].
    destruct (fa_state _ _ _ _ Hf) as [h E1]. subst s1.
    exact En.
Qed.

End Pool.

End KimaPool.
