(* ===== verification/KimaAlloc.v ===== *)
(** * Allocation from the kernel heap

    Block records, references of pages, new pages, and [kima_alloc] as a
    whole. *)

From S2P Require Import Prelude OMap MemConf Kima KimaFit KimaPool.
Import MemConf Kima KimaFit KimaPool.

Module KimaAlloc.

Section Alloc.
Context {H : Type} `{HB : Backend H} {HL : Lawful H}.
Context (PBOS_ISOVERLAPPED : Z -> Z -> Z -> Z -> bool) (lay : abi).

Abbreviation pool := (kima_pool_t H).
Abbreviation pool_ok := (pool_ok lay).
Implicit Types s : pool.

(** ** Block records *)

(** What allocating a record for the [size] bytes at [p] promises *)
Record block_added s s' (p n size : Z) : Prop := {
  ba_ok : pool_ok s';
  ba_frame : same_frame s s';
  ba_descs : same_descs s s';
  ba_headers : new_headers s s';
  ba_query : ublk_query_tree s' = <[p := n]> (ublk_query_tree s);
  ba_block : forall k m u, block s' k m u <-> k = p /\ m = n /\ u = mkUblk p size \/ block s k m u;
  ba_room : room (hw s) - 1 <= room (hw s')
}.

(** A place that a block can take *)
Definition free_place s (p size : Z) : Prop :=
  0 < size /\ vacant s p size /\ forall x, p <= x < p + size -> is_Some (vpgdesc_query_tree s !! floorP PAGESIZE x).

Lemma free_place_key s p size : pool_ok s -> free_place s p size -> ublk_query_tree s !! p = None.
Proof.
  intros Hok (Hs & Hv & _). destruct (ublk_query_tree s !! p) as [n|] eqn:E; [| done].
  destruct (so_query _ _ _ _ _ _ (po_uslots _ _ Hok) _ _ E) as (u & Hu & _).
  pose proof (po_sizes _ _ Hok p n u (conj E Hu)). destruct (Hv p n u (conj E Hu)); lia.
Qed.

(** A pool to which a block has been added *)
Lemma pool_ok_ublks s s' p n size : pool_ok s -> free_place s p size ->
  same_frame s s' -> same_descs s s' -> new_headers s s' ->
  slots_ok u_rb_value PAGESIZE (ublk_query_tree s') (ublk_free_tree s') (ublks s') (headers s') ->
  (ublk_poolpg_list s' = 0 \/ is_Some (headers s' !! ublk_poolpg_list s')) ->
  ublk_query_tree s' = <[p := n]> (ublk_query_tree s) -> ublks s' !! n = Some (mkUblk p size) ->
  (forall k m, ublk_query_tree s !! k = Some m -> ublks s' !! m = ublks s !! m) ->
  room (hw s) - 1 <= room (hw s') -> block_added s s' p n size.
Proof.
  intros Hok Hfree Hf Hd Hn Hs Hl Hq Hu Hkeep Hroom. pose proof (free_place_key s p size Hok Hfree) as Hp.
  destruct Hfree as (Hsize & Hvac & Hpages).
  assert (Hb : forall k m u, block s' k m u <-> k = p /\ m = n /\ u = mkUblk p size \/ block s k m u).
  { intros k m u. unfold block. rewrite Hq lookup_insert_Some. split.
    - intros [[[<- <-]|[Hne Hk]] Hum]; [left; split_and!; congruence | right]. split; [done |]. by rewrite -(Hkeep k m Hk).
    - intros [(-> & -> & ->)|[Hk Hum]]; [by split; [left |] |]. split; [right; split; [congruence | done] |].
      by rewrite (Hkeep k m Hk). }
  split; try done. pose proof (pool_blocks lay s Hok) as Hbo. destruct Hf as [Hmx Hpg Hin Huo Hus Hvo Hvs Hh Ho].
  destruct Hd as [Hdl Hdq Hdf Hdd].
  split; rewrite ?Hpg ?Hin ?Huo ?Hus ?Hvo ?Hvs ?Hdl ?Hdq ?Hdf ?Hdd.
  - apply Hok. - apply Hok. - apply Hok. - apply Hok.
  - by eapply more_headers; [apply Hok |].
  - done.
  - destruct (po_vlist _ _ Hok); [by left | right; by apply Hh].
  - done.
  - intros x Hx. destruct (Hn x Hx) as [Hold|[Hm Hnew]].
    + destruct (po_header _ _ Hok x Hold) as [Hm Hy]. split; [done |]. eauto.
    + split; [done |]. intros y Hy. by apply Hnew.
  - intros a Ha. destruct (po_desc _ _ Hok a Ha) as (Hm & Hha & Hx). split; [done |]. split; [| eauto].
    apply (old_page_free s); [done | done |]. apply Hx, in_page.
  - intros k m u [(_ & _ & ->)|Hk]%Hb; [done | by apply (po_sizes _ _ Hok k m u)].
  - intros k1 n1 u1 k2 n2 u2 H1%Hb H2%Hb Hlt.
    destruct H1 as [(-> & _ & ->)|H1], H2 as [(-> & _ & ->)|H2].
    + lia.
    + simpl. pose proof (po_sizes _ _ Hok k2 n2 u2 H2). destruct (Hvac _ _ _ H2); lia.
    + destruct (Hvac _ _ _ H1); [done | lia].
    + by apply (po_blocks _ _ Hok k1 n1 u1 k2 n2 u2).
  - intros k m u x [(-> & _ & ->)|Hk]%Hb; [apply Hpages | by apply (po_inside _ _ Hok k m u)].
Qed.

Lemma take_ublk s p n size : pool_ok s -> free_place s p size -> ublk_free_tree s !! n = Some n ->
  exists s', (set_used (floorP PAGESIZE n) (fun u => u + 1);; ublk_to_query n p size;; ret (Some n)) s = Ok (Some n, s') /\
    block_added s s' p n size.
Proof.
  intros Hok Hfree Hn. pose proof (po_uslots _ _ Hok) as Hs. pose proof (free_place_key s p size Hok Hfree) as Hp.
  destruct (so_free _ _ _ _ _ _ Hs _ _ Hn) as (_ & u & Hu & Hk).
  destruct (set_used_ok s (floorP PAGESIZE n) (fun u => u + 1)) as (m & E & Hm).
  { apply (so_page _ _ _ _ _ _ Hs). by eexists. }
  rewrite (bind_ok _ _ _ _ _ E). unfold ublk_to_query, get_ublk.
  assert (Hnh : forall x, is_Some (m !! x) -> is_Some (headers s !! x)) by (intros x; by rewrite Hm).
  eexists. split.
  - erewrite bind_ok; [reflexivity |]. unfold bind at 1. cbn [with_headers ublks]. rewrite Hu bind_get Hk.
    unfold id at 1. cbn [with_headers ublk_free_tree ublk_query_tree]. rewrite bind_remove // bind_insert //.
  - apply (pool_ok_ublks s); try done; cbn.
    + split; try done. intros x. cbn. by rewrite Hm.
    + intros x Hx. left. by apply Hnh.
    + apply more_headers with (hs := headers s); [by apply take_slot | by intros x; rewrite Hm].
    + rewrite Hm. apply (po_ulist _ _ Hok).
    + by rewrite lookup_insert_eq.
    + intros k x Hx. rewrite lookup_insert_ne //. intros ->. by rewrite (so_apart _ _ _ _ _ _ Hs _ _ Hx) in Hn.
    + lia.
Qed.

Lemma ublk_new_slots_ok s pg p size :
  slots_ok u_rb_value PAGESIZE (ublk_query_tree s) (ublk_free_tree s) (ublks s) (headers s) ->
  layout_ok (ublk_slots_off s) (ublk_slots_size s) (sizeof_ublk lay) -> pg mod PAGESIZE = 0 ->
  is_Some (headers s !! pg) -> (forall n, floorP PAGESIZE n = pg -> ublks s !! n = None) ->
  ublk_query_tree s !! p = None ->
  let n := pg + ublk_slots_off s in
  exists f d, ublk_new_slots lay pg p size s =
      Ok (tt, with_ublks s (ublk_poolpg_list s) (<[p := n]> (ublk_query_tree s)) f d) /\
    slots_ok u_rb_value PAGESIZE (<[p := n]> (ublk_query_tree s)) f d (headers s) /\
    d !! n = Some (mkUblk p size) /\ floorP PAGESIZE n = pg /\
    (forall m, floorP PAGESIZE m <> pg -> d !! m = ublks s !! m).
Proof.
  intros Hs Hlay Hpg Hh Hno Hp n.
  assert (Hn : pg + ublk_slots_off s + 0 * sizeof_ublk lay = n) by (unfold n; lia).
  pose proof (la_count _ _ _ Hlay).
  assert (Hfl : floorP PAGESIZE n = pg).
  { pose proof (slot_floor pg _ _ _ Hlay Hpg 0 ltac:(lia)) as Hf. unfold slot_at in Hf. by rewrite Hn in Hf. }
  unfold ublk_new_slots. rewrite bind_get. unfold id at 1. rewrite Hn bind_insert // bind_put_ublks.
  set (q := <[p := n]> (ublk_query_tree s)).
  destruct (new_slots_loop u_rb_value (fun k => mkUblk k 0)
    (with_ublks s (ublk_poolpg_list s) q) q (headers s) pg (ublk_slots_off s) (ublk_slots_size s) (sizeof_ublk lay)
    (mkUblk p size) (fun i _ =>
      s0 <- get id;
      f <- tree_insert (ublk_free_tree s0) (pg + ublk_slots_off s + i * sizeof_ublk lay) (pg + ublk_slots_off s + i * sizeof_ublk lay);
      put_ublks (ublk_poolpg_list s0) (ublk_query_tree s0) f
        (<[pg + ublk_slots_off s + i * sizeof_ublk lay := mkUblk (pg + ublk_slots_off s + i * sizeof_ublk lay) 0]> (ublks s0));;
      ret (Next (R := Empty_set) tt)) Hlay Hpg ltac:(done) Hh) with (f := ublk_free_tree s) (r := <[n := mkUblk p size]> (ublks s))
    as (f & d & E & Hs' & Hd & Hout).
  - intros i f d. unfold get, id, bind, tree_insert. cbn [with_ublks ublk_free_tree].
    unfold slot_at. by destruct (f !! _).
  - apply add_used; [done | by apply Hno | by rewrite Hfl | done | done].
  - intros m Hm Hsome. destruct (decide (m = n)) as [->|Hne]; [exists 0; split; [lia | by rewrite /slot_at Hn] |].
    rewrite lookup_insert_ne in Hsome; [done |]. rewrite Hno in Hsome; [done | by destruct Hsome].
  - unfold slot_at. by rewrite Hn lookup_insert_eq.
  - exists f, d. split; [by erewrite bind_ok; [| exact E] |]. split; [done |].
    split; [by rewrite /slot_at Hn in Hd |]. split; [done |].
    intros m Hm. rewrite Hout // lookup_insert_ne //. congruence.
Qed.

Lemma new_ublk s s1 p pg size : pool_ok s -> free_place s p size -> size + PAGESIZE <= 2 ^ 64 -> fresh_area s s1 pg PAGESIZE ->
  exists s', (link_page pg (ublk_poolpg_list s);;
      s <- get id;
      put_ublks pg (ublk_query_tree s) (ublk_free_tree s) (ublks s);;
      set_used pg (fun _ => 1);;
      ublk_new_slots lay pg p size;;
      c <- ceil size;
      add_pages (c / page_size s);;
      ret (Some (pg + ublk_slots_off s))) s1 = Ok (Some (pg + ublk_slots_off s), s') /\
    block_added s s' p (pg + ublk_slots_off s) size.
Proof.
  intros Hok Hfree Hbound Hf. pose proof (po_uslots _ _ Hok) as Hs. pose proof (po_page _ _ Hok) as HP.
  pose proof (free_place_key s p size Hok Hfree) as Hp. pose proof Hfree as (Hsize & _).
  pose proof (fresh_header lay s s1 pg Hok Hf) as Hhp. destruct (fa_state _ _ _ _ Hf) as [h E1]. subst s1.
  destruct (link_page_ok (with_mm s h) pg (ublk_poolpg_list s) (po_ulist _ _ Hok)) as (m1 & El & Hm1).
  rewrite (bind_ok _ _ _ _ _ El) bind_get. unfold id. rewrite bind_put_ublks.
  set (s2 := with_ublks _ _ _ _ _). cbn [with_mm with_headers ublk_query_tree ublk_free_tree ublks] in s2.
  assert (Hp1 : is_Some (m1 !! pg)) by (apply Hm1; by left).
  destruct (set_used_ok s2 pg (fun _ => 1) Hp1) as (m & Eu & Hm2). rewrite (bind_ok _ _ _ _ _ Eu).
  assert (Hm : header_added (headers s) m pg) by (intros x; by rewrite Hm2 Hm1).
  set (s3 := with_headers s2 m).
  destruct (ublk_new_slots_ok s3 pg p size) as (f & d & En & Hs' & Hd & Hfl & Hout).
  - apply more_headers with (hs := headers s); [done |]. intros x Hx. apply Hm. by right.
  - apply (po_ulayout _ _ Hok).
  - apply Hf.
  - apply Hm. by left.
  - intros n Hn. by apply (no_records _ _ _ _ _ pg _ Hs).
  - done.
  - rewrite (bind_ok _ _ _ _ _ En). clear En. set (s4 := with_ublks _ _ _ _ _).
    destruct (ceil_ok s4 size) as (c & Ec & _); [by rewrite HP | lia | by rewrite HP |].
    rewrite (bind_ok _ _ _ _ _ Ec). eexists. split; [reflexivity |].
    cbn [ublk_slots_off with_headers with_ublks with_mm] in *.
    apply (pool_ok_ublks s); try done; cbn.
    + split; try done; cbn; [intros x Hx; apply Hm; by right |]. intros x Hx. apply (fa_owns _ _ _ _ Hf). by left.
    + exact (fresh_new_headers s (with_mm s h) m pg Hf Hm).
    + right. apply Hm. by left.
    + intros k x Hx. apply Hout. destruct (so_query _ _ _ _ _ _ Hs _ _ Hx) as (u & Hu & _).
      pose proof (so_page _ _ _ _ _ _ Hs x ltac:(by eexists)) as [y Hy]. intros Hc. rewrite Hc in Hy. congruence.
    + pose proof (fa_room _ _ _ _ Hf) as Hroom. cbn in Hroom. change (PAGESIZE / PAGESIZE) with 1 in Hroom. lia.
Qed.

Lemma alloc_ublk_ok s p size : pool_ok s -> 1 <= room (hw s) -> free_place s p size -> size + PAGESIZE <= 2 ^ 64 ->
  exists n s', kima_alloc_ublk lay p size s = Ok (Some n, s') /\ block_added s s' p n size.
Proof.
  intros Hok Hr Hfree Hb. pose proof (po_page _ _ Hok) as HP. pose proof (po_uslots _ _ Hok) as Hs.
  unfold kima_alloc_ublk. rewrite bind_get. unfold id.
  destruct (OMap.first (ublk_free_tree s)) as [[k n]|] eqn:Hfirst.
  - destruct (OMap.first_some _ _ _ Hfirst) as [Hk _]. destruct (so_free _ _ _ _ _ _ Hs _ _ Hk) as (-> & _).
    rewrite (bind_ok _ _ _ _ _ (page_floor_ok s k HP)).
    destruct (take_ublk s p k size Hok Hfree Hk) as (s' & E & Hpost). by exists k, s'.
  - rewrite HP. destruct (vpgalloc_ok s PAGESIZE HP ltac:(done) ltac:(done) Hr) as (pg & s1 & E & Hpg & Hf).
    rewrite (bind_ok _ _ _ _ _ E) (proj2 (Z.eqb_neq pg 0)); [lia |].
    destruct (new_ublk s s1 p pg size Hok Hfree Hb Hf) as (s' & En & Hpost).
    exists (pg + ublk_slots_off s), s'. split; [| done]. destruct (fa_state _ _ _ _ Hf) as [h ->]. exact En.
Qed.

(** ** References of pages *)

Definition with_lock s (b : bool) : pool :=
  mkPool b (ublk_poolpg_list s) (ublk_query_tree s) (ublk_free_tree s)
    (vpgdesc_poolpg_list s) (vpgdesc_query_tree s) (vpgdesc_free_tree s) (num_allocated_pages s)
    (page_size s) (_initialized s) (ublk_slots_off s) (ublk_slots_size s)
    (vpgdesc_slots_off s) (vpgdesc_slots_size s) (ublks s) (vpgdescs s) (headers s) (bytes s) (hw s).

Definition with_pages s (n : Z) : pool :=
  mkPool (mutex s) (ublk_poolpg_list s) (ublk_query_tree s) (ublk_free_tree s)
    (vpgdesc_poolpg_list s) (vpgdesc_query_tree s) (vpgdesc_free_tree s) n
    (page_size s) (_initialized s) (ublk_slots_off s) (ublk_slots_size s)
    (vpgdesc_slots_off s) (vpgdesc_slots_size s) (ublks s) (vpgdescs s) (headers s) (bytes s) (hw s).

(** The mutex and the page count are no part of the invariant. *)
Lemma pool_ok_lock s b : pool_ok s -> pool_ok (with_lock s b).
Proof. intros []. by split. Qed.
Lemma pool_ok_pages s n : pool_ok s -> pool_ok (with_pages s n).
Proof. intros []. by split. Qed.

(** Descriptors whose counts have changed *)
Record recounted s s' : Prop := {
  rc_ok : pool_ok s';
  rc_frame : same_frame s s';
  rc_blocks : same_blocks s s';
  rc_query : vpgdesc_query_tree s' = vpgdesc_query_tree s;
  rc_headers : headers s' = headers s;
  rc_hw : hw s' = hw s
}.

Lemma recounted_refl s : pool_ok s -> recounted s s.
Proof. by split. Qed.

Lemma recounted_trans s1 s2 s3 : recounted s1 s2 -> recounted s2 s3 -> recounted s1 s3.
Proof.
  intros [_ Hf1 Hb1 Hq1 Hh1 Hw1] [Hok Hf2 Hb2 Hq2 Hh2 Hw2]. split; [done | by eapply frame_trans | | congruence ..].
  destruct Hb1, Hb2. split; congruence.
Qed.

Lemma set_vpgdesc_ok s n d r : pool_ok s -> vpgdescs s !! n = Some d ->
  exists s', set_vpgdesc n (mkDesc (d_rb_value d) r) s = Ok (tt, s') /\ recounted s s' /\
    vpgdescs s' = <[n := mkDesc (d_rb_value d) r]> (vpgdescs s).
Proof.
  intros Hok Hd. eexists. split; [reflexivity |]. split; [| done].
  assert (Hs : slots_ok d_rb_value PAGESIZE (vpgdesc_query_tree s) (vpgdesc_free_tree s)
                 (<[n := mkDesc (d_rb_value d) r]> (vpgdescs s)) (headers s))
    by (by apply set_record with (x := d); [apply Hok | |]).
  split; try done. destruct Hok. by split.
Qed.

Lemma described_desc s a : pool_ok s -> is_Some (vpgdesc_query_tree s !! a) ->
  exists n d, vpgdesc_query_tree s !! a = Some n /\ vpgdescs s !! n = Some d /\ d_rb_value d = a.
Proof.
  intros Hok [n Hn]. destruct (so_query _ _ _ _ _ _ (po_vslots _ _ Hok) _ _ Hn) as (d & Hd & Hk). by exists n, d.
Qed.

Lemma take_pages_ok s base n : pool_ok s -> 0 <= base -> base + n <= 2 ^ 64 -> described s base n ->
  exists s', take_pages base n s = Ok (tt, s') /\ recounted s s'.
Proof.
  intros Hok Hb H64 Hd. unfold take_pages. pose proof (po_page _ _ Hok) as HP.
  match goal with |- context [page_loop 0 n ?b] => destruct (page_loop_rule (R := Empty_set)
    (fun _ s' => recounted s s') (fun r s' => recounted s s') 0 n b s) as (r & s' & E & Hr) end.
  - by rewrite HP.
  - by apply recounted_refl.
  - intros i s' Hi Hlt Hrc. unfold kima_lookup_vpgdesc. rewrite bind_get.
    rewrite HP in Hlt. rewrite w64_small; [rewrite HP; unfold in64, PAGESIZE in *; nia |].
    destruct (described_desc s' (base + i * page_size s) (rc_ok _ _ Hrc)) as (m & d & Hm & Hdm & _).
    { rewrite (rc_query _ _ Hrc). apply Hd; [done | by rewrite HP]. }
    rewrite Hm. unfold get_vpgdesc. unfold bind at 1. rewrite Hdm.
    destruct (set_vpgdesc_ok s' m d (w64 (ref_count d + 1)) (rc_ok _ _ Hrc) Hdm) as (s1 & E1 & Hrc1 & _).
    rewrite (bind_ok _ _ _ _ _ E1). do 2 eexists. split; [reflexivity |]. by apply recounted_trans with s'.
  - done.
  - rewrite (bind_ok _ _ _ _ _ E). by exists s'.
Qed.

(** ** New pages *)

(** Descriptors have been added for the first [i] pages from [v]. *)
Record pages_added s s' (v i : Z) : Prop := {
  pa_ok : pool_ok s';
  pa_frame : same_frame s s';
  pa_blocks : same_blocks s s';
  pa_headers : forall p, is_Some (headers s' !! p) -> is_Some (headers s !! p) \/ ~ owns (hw s) p;
  pa_query : forall a, is_Some (vpgdesc_query_tree s' !! a) <->
    is_Some (vpgdesc_query_tree s !! a) \/ exists j, 0 <= j < i /\ a = v + j * PAGESIZE;
  pa_room : room (hw s) - i <= room (hw s')
}.

Lemma new_page_ok s s1 v i : pages_added s s1 v i -> 0 <= i -> 1 <= room (hw s1) ->
  free_page s (v + i * PAGESIZE) -> v mod PAGESIZE = 0 ->
  exists s', new_page lay (v + i * PAGESIZE) s1 = Ok (true, s') /\ pages_added s s' v (i + 1).
Proof.
  intros [Hok Hf Hb Hh Hq Hrm] Hi Hr (Ha & Ham & Hah & Hao) Hv.
  assert (Hpa : owns (hw s) (v + i * PAGESIZE)) by (apply Hao, in_page).
  assert (Hfree : free_page s1 (v + i * PAGESIZE)).
  { split_and!.
    - destruct (vpgdesc_query_tree s1 !! (v + i * PAGESIZE)) as [x|] eqn:E; [| done].
      destruct (proj1 (Hq (v + i * PAGESIZE)) ltac:(by eexists)) as [[y Hy]|(j & Hj & Hij)]; [congruence |].
      unfold PAGESIZE in Hij. lia.
    - done.
    - destruct (headers s1 !! (v + i * PAGESIZE)) as [x|] eqn:E; [| done].
      destruct (Hh _ ltac:(by eexists)) as [[y Hy]|Hno]; [congruence | done].
    - intros x Hx. by apply (sf_owns _ _ Hf), Hao. }
  destruct (alloc_vpgdesc_ok lay s1 _ Hok Hr Hfree) as (n & s2 & E & [Hok2 Hf2 Hb2 Hh2 Hq2 Hd2 Hr2]).
  unfold new_page. rewrite (bind_ok _ _ _ _ _ E). unfold get_vpgdesc. unfold bind at 1. rewrite Hd2.
  destruct (set_vpgdesc_ok s2 n _ (w64 (0 + 1)) Hok2 Hd2) as (s3 & E3 & [Hok3 Hf3 Hb3 Hq3 Hh3 Hw3] & _).
  cbn [d_rb_value ref_count] in *. rewrite (bind_ok _ _ _ _ _ E3). exists s3. split; [reflexivity |]. split; [done | | | | |].
  - by eapply frame_trans; [| eapply frame_trans].
  - destruct Hb, Hb2, Hb3. split; congruence.
  - intros p. rewrite Hh3. intros [Hp|[_ Hp]]%Hh2; [by apply Hh |]. right. intros Ho.
    by apply (Hp p (in_page p)), (sf_owns _ _ Hf).
  - intros a. rewrite Hq3 Hq2 lookup_insert_is_Some Hq. split.
    + intros [<-|[_ [Hold|(j & Hj & ->)]]]; [right; exists i | by left | right; exists j]; (split; [lia | done]).
    + intros [Hold|(j & Hj & ->)].
      * destruct (decide (v + i * PAGESIZE = a)); [by left | right]. split; [done | by left].
      * destruct (decide (j = i)) as [->|Hne]; [by left | right]. split; [unfold PAGESIZE; lia |].
        right. exists j. split; [lia | done].
  - rewrite Hw3. lia.
Qed.

(** The pages of a fresh area *)
Lemma area_pages s s1 v n i : pool_ok s -> fresh_area s s1 v n -> 0 <= i -> (i + 1) * PAGESIZE <= n ->
  free_page s1 (v + i * PAGESIZE).
Proof.
  intros Hok Hf Hi Hin. destruct (fa_state _ _ _ _ Hf) as [h E]. subst s1.
  assert (Hno : ~ owns (hw s) (v + i * PAGESIZE)) by (apply (fa_fresh _ _ _ _ Hf); unfold PAGESIZE in *; lia).
  split_and!.
  - cbn. destruct (vpgdesc_query_tree s !! (v + i * PAGESIZE)) as [x|] eqn:Ex; [| done]. exfalso. apply Hno.
    apply (po_desc _ _ Hok _ ltac:(by eexists)), in_page.
  - rewrite Z_mod_plus_full. apply Hf.
  - cbn. destruct (headers s !! (v + i * PAGESIZE)) as [x|] eqn:Ex; [| done]. exfalso. apply Hno.
    apply (po_header _ _ Hok _ ltac:(by eexists)), in_page.
  - intros x Hx. apply (fa_owns _ _ _ _ Hf). right. unfold PAGESIZE in *. lia.
Qed.

Lemma pool_ok_mm s s1 v n : pool_ok s -> fresh_area s s1 v n -> pool_ok s1.
Proof.
  intros Hok Hf. destruct (fa_state _ _ _ _ Hf) as [h E]. subst s1.
  assert (Ho : forall x, owns (hw s) x -> owns h x) by (intros x Hx; apply (fa_owns _ _ _ _ Hf); by left).
  destruct Hok as [H1 H2 H3 H4 H5 H6 H7 H8 H9 H10 H11 H12 H13]. split; try done; cbn.
  - intros p Hp. destruct (H9 p Hp) as [Hm Hx]. split; [done |]. auto.
  - intros a Ha. destruct (H10 a Ha) as (Hm & Hh & Hx). split; [done |]. split; [done |]. auto.
Qed.

Lemma pages_loop_ok s v n : pool_ok s -> v mod PAGESIZE = 0 -> 0 <= v -> v + n + PAGESIZE <= 2 ^ 64 ->
  (n + PAGESIZE - 1) / PAGESIZE <= room (hw s) ->
  (forall i, 0 <= i -> i * PAGESIZE < n -> free_page s (v + i * PAGESIZE)) ->
  exists s' k, page_loop 0 n (fun i => ok <- new_page lay (w64 (v + i)); ret (if ok : bool then Next tt else Return i)) s =
      Ok (None, s') /\ pages_added s s' v k /\ n <= k * PAGESIZE /\ k <= Z.max 0 ((n + PAGESIZE - 1) / PAGESIZE).
Proof.
  intros Hok Hv Hv0 H64 Hr Hfree. pose proof (po_page _ _ Hok) as HP.
  assert (Hcount : forall i, i * PAGESIZE < n -> i + 1 <= (n + PAGESIZE - 1) / PAGESIZE).
  { intros i Hi. apply Z.div_le_lower_bound; unfold PAGESIZE in *; lia. }
  destruct (page_loop_rule (R := Z)
    (fun i s' => pages_added s s' v i /\ i <= Z.max 0 ((n + PAGESIZE - 1) / PAGESIZE))
    (fun r s' => r = None /\ exists k, pages_added s s' v k /\ n <= k * PAGESIZE /\ k <= Z.max 0 ((n + PAGESIZE - 1) / PAGESIZE))
    0 n (fun i => ok <- new_page lay (w64 (v + i)); ret (if ok : bool then Next tt else Return i)) s)
    as (r & s' & E & -> & k & Hk).
  - by rewrite HP.
  - split; [| lia]. split; try done; [by left | | lia].
    intros a. split; [by left | intros [Ha|(j & Hj & _)]; [done | lia]].
  - rewrite HP. intros i s' Hi Hlt [Hpa _]. rewrite w64_small; [unfold in64, PAGESIZE in *; lia |].
    pose proof (Hcount i ltac:(lia)) as Hci.
    destruct (new_page_ok s s' v i Hpa Hi) as (s1 & E1 & Hpa1); [pose proof (pa_room _ _ _ _ Hpa); lia | apply Hfree; lia | done |].
    rewrite (bind_ok _ _ _ _ _ E1). do 2 eexists. split; [reflexivity |]. simpl. split; [done | lia].
  - rewrite HP. intros i s' Hi Hge _ [Hpa Hle]. split; [done |]. exists i. split_and!; [done | lia | done].
  - exists s', k. by split.
Qed.

(** The bytes of a place in pages from [v] lie in those pages. *)
Lemma page_of_byte v k x : v mod PAGESIZE = 0 -> v <= x < v + k * PAGESIZE ->
  exists j, 0 <= j < k /\ floorP PAGESIZE x = v + j * PAGESIZE.
Proof.
  intros Hv Hx. exists ((x - v) / PAGESIZE). unfold floorP.
  pose proof (Z.div_mod (x - v) PAGESIZE) as Hd. pose proof (Z.mod_pos_bound (x - v) PAGESIZE ltac:(done)) as Hm.
  assert (Hxm : (x - v) mod PAGESIZE = x mod PAGESIZE) by (rewrite Zminus_mod Hv Z.sub_0_r; apply Z.mod_mod; done).
  unfold PAGESIZE in *. split; [split; [apply Z.div_pos; lia | apply Z.div_lt_upper_bound; lia] | lia].
Qed.

Lemma aligned_page v al : 0 < al -> (al | PAGESIZE) -> v mod PAGESIZE = 0 -> v mod al = 0.
Proof.
  intros Hal [d Hd] Hv. apply Z.mod_divide in Hv; [| done]. apply Z.mod_divide; [lia |].
  etransitivity; [| exact Hv]. by exists d.
Qed.

(** Pages needed for [n] bytes *)
Definition pages (n : Z) : Z := (n + PAGESIZE - 1) / PAGESIZE.

Lemma pages_mono a b : a <= b -> pages a <= pages b.
Proof. intros Hab. apply Z.div_le_mono; unfold PAGESIZE; lia. Qed.

(** What an allocation of [size] bytes promises about the block at [p] *)
Record allocated s s' (p size al : Z) : Prop := {
  al_ok : pool_ok s';
  al_mutex : mutex s' = mutex s;
  al_align : p mod al = 0;
  al_vacant : vacant s p size;
  al_block : exists n, forall k m u, block s' k m u <-> k = p /\ m = n /\ u = mkUblk p size \/ block s k m u;
  al_owns : forall x, p <= x < p + size -> owns (hw s') x;
  al_room : room (hw s) - (2 * pages (size + al) + 1) <= room (hw s')
}.

Lemma allocated_owns s p n size s' : block_added s s' p n size -> 0 < size -> forall x, p <= x < p + size -> owns (hw s') x.
Proof.
  intros Hb Hs x Hx. apply (owned_page lay); [apply Hb |].
  apply (po_inside _ _ (ba_ok _ _ _ _ _ Hb) p n (mkUblk p size)); [apply (ba_block _ _ _ _ _ Hb); by left | done].
Qed.

(** A fresh area has no blocks. *)
Lemma fresh_vacant s s1 v c size : pool_ok s -> fresh_area s s1 v c -> 0 < size <= c -> vacant s v size.
Proof.
  intros Hok Hf Hs k m u Hb. destruct (decide (k + u_size u <= v)); [by left |]. destruct (decide (v + size <= k)); [by right |].
  exfalso. pose proof (po_sizes _ _ Hok k m u Hb). apply (fa_fresh _ _ _ _ Hf (Z.max v k)); [lia |].
  apply (owned_page lay); [done |]. apply (po_inside _ _ Hok k m u); [done | lia].
Qed.

(** The end of [alloc_new]: a block in pages that have just been added *)
Lemma alloc_block_ok s s2 v k size : pages_added s s2 v k -> v mod PAGESIZE = 0 -> 0 < size -> size <= k * PAGESIZE ->
  size <= 2 ^ 30 -> 1 <= room (hw s2) -> vacant s v size ->
  exists n s', (c <- ceil size;
    s <- get id;
    add_pages (c / page_size s);;
    u <- kima_alloc_ublk lay v size;
    match u with None => release_vpgdescs lay v c;; ret 0 | Some _ => ret v end) s2 = Ok (v, s') /\
    pool_ok s' /\ mutex s' = mutex s /\ (forall x, v <= x < v + size -> owns (hw s') x) /\
    room (hw s2) - 1 <= room (hw s') /\
    forall kk m u, block s' kk m u <-> kk = v /\ m = n /\ u = mkUblk v size \/ block s kk m u.
Proof.
  intros Hpa Hvm Hsize Hk Hb Hr Hvac. pose proof (pa_ok _ _ _ _ Hpa) as Hok2. pose proof (po_page _ _ Hok2) as HP2.
  destruct (ceil_ok s2 size) as (c2 & Ec2 & _); [by rewrite HP2 | lia | rewrite HP2; unfold PAGESIZE; lia |].
  rewrite (bind_ok _ _ _ _ _ Ec2) bind_get. unfold id.
  set (s3 := with_pages s2 (w64 (num_allocated_pages s2 + c2 / page_size s2))).
  assert (Hb3 : forall g : unit -> M pool Z, bind (add_pages (c2 / page_size s2)) g s2 = g tt s3) by done.
  rewrite Hb3. assert (Hsb : same_blocks s s3) by (by destruct (pa_blocks _ _ _ _ Hpa)).
  assert (Hfree : free_place s3 v size).
  { split; [done |]. split.
    - intros kk m u Hu. apply (block_same s s3 kk m u Hsb) in Hu. by apply (Hvac kk m u).
    - intros x Hx. destruct (page_of_byte v k x Hvm ltac:(lia)) as (j & Hj & ->).
      apply (pa_query _ _ _ _ Hpa). right. by exists j. }
  destruct (alloc_ublk_ok s3 v size (pool_ok_pages _ _ Hok2) Hr Hfree) as (n & s4 & E4 & Hba); [unfold PAGESIZE; lia |].
  rewrite (bind_ok _ _ _ _ _ E4). exists n, s4. split; [reflexivity |]. split; [apply Hba |]. split_and!.
  - rewrite (sf_mutex _ _ (ba_frame _ _ _ _ _ Hba)). apply (sf_mutex _ _ (pa_frame _ _ _ _ Hpa)).
  - by apply (allocated_owns s3 v n size).
  - apply (ba_room _ _ _ _ _ Hba).
  - intros kk m u. rewrite (ba_block _ _ _ _ _ Hba). by rewrite (block_same s s3 kk m u Hsb).
Qed.

Lemma alloc_new_ok s size al : pool_ok s -> 0 < size -> 0 < al -> (al | PAGESIZE) -> size + al <= 2 ^ 30 ->
  2 * pages (size + al) + 1 <= room (hw s) ->
  exists p s', alloc_new lay size al s = Ok (p, s') /\ p <> 0 /\ allocated s s' p size al.
Proof.
  intros Hok Hsize Hal Hdiv Hbound Hroom. pose proof (po_page _ _ Hok) as HP.
  unfold alloc_new. rewrite (w64_small (size + al)); [unfold in64; lia |].
  destruct (ceil_ok s (size + al)) as (c & Ec & Hc & Hcm); [by rewrite HP | lia | rewrite HP; unfold PAGESIZE; lia |].
  rewrite HP in Hc, Hcm. rewrite (bind_ok _ _ _ _ _ Ec).
  assert (Hcp : c / PAGESIZE <= pages (size + al)) by (apply Z.div_le_mono; unfold PAGESIZE in *; lia).
  assert (Hpg0 : 0 <= pages (size + al)) by (apply Z.div_pos; unfold PAGESIZE; lia).
  assert (Hcr : c / PAGESIZE <= room (hw s)) by (etransitivity; [exact Hcp | lia]).
  destruct (vpgalloc_ok s c HP ltac:(lia) Hcm Hcr) as (v & s1 & E1 & Hv0 & Hf). rewrite (bind_ok _ _ _ _ _ E1).
  pose proof (fa_align _ _ _ _ Hf) as Hvm. pose proof (aligned_page v al Hal Hdiv Hvm) as Hva.
  pose proof (owns_range (hw s1) (v + c - 1) ltac:(apply (fa_owns _ _ _ _ Hf); right; lia)) as Htop.
  assert (Eal : align_up v al s1 = Ok (v, s1)).
  { unfold align_up. rewrite (proj2 (Z.eqb_neq al 0)); [lia |]. by rewrite Hva. }
  rewrite (bind_ok _ _ _ _ _ Eal) (proj2 (Z.eqb_neq v 0)); [lia |].
  pose proof (pool_ok_mm s s1 v c Hok Hf) as Hok1.
  assert (Hroom1 : pages size + 1 <= room (hw s1)).
  { rewrite (fa_room _ _ _ _ Hf). pose proof (pages_mono size (size + al) ltac:(lia)). lia. }
  assert (Hpsz : pages size * PAGESIZE < size + PAGESIZE).
  { unfold pages. pose proof (Z.mul_div_le (size + PAGESIZE - 1) PAGESIZE ltac:(done)). lia. }
  destruct (pages_loop_ok s1 v size Hok1 Hvm ltac:(lia)) as (s2 & k & E2 & Hpa & Hk & Hkb).
  - unfold PAGESIZE. lia.
  - unfold pages in Hroom1. lia.
  - intros i Hi Hin. apply (area_pages s s1 v c i Hok Hf Hi).
    assert (Hcd : c = c / PAGESIZE * PAGESIZE) by (pose proof (Z.div_mod c PAGESIZE); unfold PAGESIZE in *; lia).
    assert (i * PAGESIZE < c) by lia. unfold PAGESIZE in *. lia.
  - rewrite (bind_ok _ _ _ _ _ E2). destruct (fa_state _ _ _ _ Hf) as [h Eh]. subst s1.
    pose proof (pa_room _ _ _ _ Hpa) as Hr2. change ((size + PAGESIZE - 1) / PAGESIZE) with (pages size) in Hkb.
    pose proof (pages_mono 0 size ltac:(lia)) as H0. change (pages 0) with 0 in H0.
    pose proof (pages_mono size (size + al) ltac:(lia)) as H1. pose proof (fa_room _ _ _ _ Hf) as Hr0.
    pose proof (fresh_vacant s _ v c size Hok Hf ltac:(lia)) as Hvac.
    destruct (alloc_block_ok (with_mm s h) s2 v k size Hpa Hvm Hsize Hk ltac:(lia) ltac:(lia) Hvac) as (n & s' & E & Hok' & Hmx & Ho & Hr & Hb).
    exists v, s'. split; [exact E |]. split; [lia |]. split; try done; [by exists n | lia].
Qed.

(** ** [kima_alloc] *)

(** A block in pages that are there *)
Lemma found_ok s size al c desc b : pool_ok s -> 0 < size -> 0 < al -> (al | PAGESIZE) -> (al | size) ->
  size + al <= 2 ^ 30 -> 1 <= room (hw s) -> ceil size s = Ok (c, s) -> size <= c -> c mod PAGESIZE = 0 ->
  place s size al c desc b ->
  exists s', (u <- kima_alloc_ublk lay b size;
    match u with None => ret 0 | Some _ => c <- ceil size; take_pages desc c;; ret b end) s = Ok (b, s') /\
    b <> 0 /\ allocated s s' b size al.
Proof.
  intros Hok Hsize Hal Hdiv Hds Hbound Hroom Hc Hsc Hcm (Hd & Hall & Hb1 & Hb2 & Hb3 & Hvac & _).
  pose proof (po_page _ _ Hok) as HP. destruct (po_desc _ _ Hok _ Hd) as (Hdm & _ & Hdo).
  assert (Hpage : forall x, desc <= x < desc + c -> is_Some (vpgdesc_query_tree s !! floorP PAGESIZE x)).
  { intros x Hx. destruct (page_of_byte desc (c / PAGESIZE) x Hdm) as (j & Hj & ->).
    - pose proof (Z.div_mod c PAGESIZE) as Hcd. unfold PAGESIZE in *. lia.
    - rewrite -HP. apply Hall; [lia |]. rewrite HP. pose proof (Z.div_mod c PAGESIZE) as Hcd. unfold PAGESIZE in *. lia. }
  assert (Hbl : b + size <= desc + c).
  { assert (Hlim : (al | desc + (c - size))).
    { apply Z.divide_add_r; [by apply Z.mod_divide; [lia | apply aligned_page] |].
      apply Z.divide_sub_r; [by apply Z.mod_divide; [lia | apply aligned_page] | done]. }
    destruct Hlim as [x Hx]. apply Z.mod_divide in Hb3 as [y Hy]; [| lia].
    assert (y < x + 1) by (apply (Z.mul_lt_mono_pos_r al); lia).
    assert (y * al <= x * al) by (apply Z.mul_le_mono_nonneg_r; lia). lia. }
  destruct (owns_range _ _ (Hdo desc (in_page desc))) as [Hd0 _].
  assert (Hfree : free_place s b size) by (split; [done |]; split; [done |]; intros x Hx; apply Hpage; lia).
  destruct (alloc_ublk_ok s b size Hok Hroom Hfree ltac:(unfold PAGESIZE; lia)) as (n & s1 & E1 & Hba).
  rewrite (bind_ok _ _ _ _ _ E1). pose proof (ba_ok _ _ _ _ _ Hba) as Hok1.
  assert (Hc1 : ceil size s1 = Ok (c, s1)).
  { unfold ceil in *. rewrite !bind_get in Hc |- *. rewrite (sf_page _ _ (ba_frame _ _ _ _ _ Hba)).
    unfold of_outcome in *. destruct (ceil_align_to size (page_size s)); by simplify_eq. }
  rewrite (bind_ok _ _ _ _ _ Hc1).
  destruct (take_pages_ok s1 desc c Hok1 ltac:(lia)) as (s2 & E2 & Hrc).
  { pose proof (owns_range _ _ (owned_page lay s _ Hok (Hpage (desc + c - 1) ltac:(lia)))). lia. }
  { intros i Hi Hic. rewrite (sd_query _ _ (ba_descs _ _ _ _ _ Hba)) (sf_page _ _ (ba_frame _ _ _ _ _ Hba)) in Hic |- *.
    by apply Hall. }
  rewrite (bind_ok _ _ _ _ _ E2). exists s2. split; [reflexivity |]. split; [lia |]. split; [apply Hrc | | done | done | | |].
  - rewrite (sf_mutex _ _ (rc_frame _ _ Hrc)). apply (sf_mutex _ _ (ba_frame _ _ _ _ _ Hba)).
  - exists n. intros k m u. rewrite (block_same s1 s2 k m u (rc_blocks _ _ Hrc)). apply (ba_block _ _ _ _ _ Hba).
  - rewrite (rc_hw _ _ Hrc). by apply (allocated_owns s b n size).
  - rewrite (rc_hw _ _ Hrc). pose proof (ba_room _ _ _ _ _ Hba).
    pose proof (pages_mono 0 (size + al) ltac:(lia)) as Hz. change (pages 0) with 0 in Hz. lia.
Qed.

Hypothesis Hov : overlap_law PBOS_ISOVERLAPPED.

Lemma alloc_holds s size al : pool_ok s -> mutex s = false -> 0 < size -> 0 < al -> (al | PAGESIZE) -> (al | size) ->
  size + al <= 2 ^ 30 -> 2 * pages (size + al) + 1 <= room (hw s) ->
  exists p s', kima_alloc PBOS_ISOVERLAPPED lay size al s = Ok (p, s') /\ p <> 0 /\ allocated s s' p size al.
Proof.
  intros Hok Hmx Hsize Hal Hdiv Hds Hbound Hroom. unfold kima_alloc. rewrite bind_get. unfold id.
  rewrite (po_init _ _ Hok) (bind_ok _ _ _ _ _ (kd_assert_true s)). unfold with_mutex. rewrite bind_get Hmx bind_ret.
  set (s0 := with_lock s true). assert (Hl : forall B (g : unit -> M pool B), bind (set_mutex true) g s = g tt s0) by done.
  rewrite Hl. pose proof (pool_ok_lock s true Hok) as Hok0. fold s0 in Hok0. pose proof (po_page _ _ Hok0) as HP.
  assert (Hfin : forall p s1, p <> 0 -> allocated s0 s1 p size al ->
    exists p' s', (set_mutex false;; ret p) s1 = Ok (p', s') /\ p' <> 0 /\ allocated s s' p' size al).
  { intros p s1 Hp [H1 H2 H3 H4 H5 H6 H7]. exists p, (with_lock s1 false). split; [reflexivity |]. split; [done |].
    split; [by apply pool_ok_lock | done | done | done | done | done | done]. }
  rewrite (proj2 (Z.eqb_neq size 0)); [lia |].
  assert (Hr1 : 1 <= room (hw s0)).
  { pose proof (pages_mono 0 (size + al) ltac:(lia)) as H0. change (pages 0) with 0 in H0. change (hw s0) with (hw s). lia. }
  match goal with |- context [find_area _ None size al ?f] =>
    destruct (find_area_ok PBOS_ISOVERLAPPED Hov s0 size al f (pool_blocks lay s0 Hok0)) as (c & o & Ec & Hc & Hcm & Ef & Ho) end.
  - by rewrite HP.
  - done.
  - done.
  - intros a n Ha. destruct (po_desc _ _ Hok0 a ltac:(by eexists)) as (Hm & _ & Ho).
    pose proof (owns_range _ _ (Ho a (in_page a))). rewrite HP. unfold PAGESIZE in *. split; [done | lia].
  - rewrite HP. unfold PAGESIZE. lia.
  - rewrite HP in Hcm. rewrite (bind_assoc (kd_assert true)) (bind_ok _ _ _ _ _ (kd_assert_true s0)) bind_assoc.
    destruct o as [[desc b]|]; simpl in Ef, Ho.
    + destruct (found_ok s0 size al c desc b Hok0 Hsize Hal Hdiv Hds Hbound Hr1 Ec ltac:(lia) Hcm Ho) as (s1 & E & Hb & Hall).
      rewrite (bind_ok _ _ _ _ _ E) in Ef. rewrite (bind_ok _ _ _ _ _ Ef) bind_ret. by apply Hfin.
    + rewrite (bind_ok _ _ _ _ _ Ef).
      destruct (alloc_new_ok s0 size al Hok0 Hsize Hal Hdiv Hbound Hroom) as (p & s1 & E & Hp & Hall).
      rewrite (bind_ok _ _ _ _ _ E). by apply Hfin.
Qed.

End Alloc.

End KimaAlloc.
