(* ===== verification/KimaTheorems.v ===== *)
(** * Theorems about the kernel heap

    The initial pool, allocation and sequences of allocations, over any lawful
    memory manager; and what releasing and reallocating do, on a concrete
    one. *)

From S2P Require Import Prelude OMap MemConf Kima KimaFit KimaPool KimaAlloc.
Import MemConf Kima KimaFit KimaPool KimaAlloc.

Module KimaT.

(** ** The initial pool *)

(** A layout in which a page has room for a record of each kind *)
Record abi_ok (lay : abi) : Prop := {
  ab_header : 0 < sizeof_header lay;
  ab_v : 0 < sizeof_vpgdesc lay /\ 0 < alignof_vpgdesc lay;
  ab_u : 0 < sizeof_ublk lay /\ 0 < alignof_ublk lay;
  ab_vfit : sizeof_header lay + alignof_vpgdesc lay + sizeof_vpgdesc lay <= PAGESIZE;
  ab_ufit : sizeof_header lay + alignof_ublk lay + sizeof_ublk lay <= PAGESIZE
}.

Section Init.
Context {H : Type} `{HB : Backend H} {HL : Lawful H}.
Context (PBOS_ISOVERLAPPED : Z -> Z -> Z -> Z -> bool) (lay : abi).
Hypothesis Hlay : abi_ok lay.
Hypothesis Hov : overlap_law PBOS_ISOVERLAPPED.

Lemma slots_layout off sz : 0 < off -> 0 < sz -> off + sz <= PAGESIZE ->
  layout_ok off (w64 (PAGESIZE - off) / sz) sz.
Proof.
  intros Ho Hs Hf. unfold PAGESIZE in *. rewrite w64_small; [unfold in64; lia |].
  pose proof (Z.mul_div_le (4096 - off) sz Hs). split; [done | | done | unfold PAGESIZE; nia].
  apply Z.div_str_pos. lia.
Qed.

Lemma slots_empty {R} (key : R -> Z) hs : slots_ok key PAGESIZE ∅ ∅ ∅ hs.
Proof. split; try done. by intros n [x Hx]. Qed.

Lemma init_ok (h : H) : exists s, ki_init_kima_pool lay PAGESIZE (empty_pool h) = Ok s /\
  pool_ok lay s /\ mutex s = false /\ hw s = h /\ forall k n u, ~ block s k n u.
Proof.
  destruct Hlay as [Hh [Hv1 Hv2] [Hu1 Hu2] Hvf Huf]. unfold PAGESIZE in Hvf, Huf. unfold ki_init_kima_pool.
  destruct (ceil_align_to_spec (sizeof_header lay) (alignof_vpgdesc lay) Hv2) as (vo & -> & Hvo & _); [lia | lia |].
  destruct (ceil_align_to_spec (sizeof_header lay) (alignof_ublk lay) Hu2) as (uo & -> & Huo & _); [lia | lia |].
  rewrite (proj2 (Z.eqb_neq (sizeof_vpgdesc lay) 0)); [lia |]. rewrite (proj2 (Z.eqb_neq (sizeof_ublk lay) 0)); [lia |].
  eexists. split; [reflexivity |].
  assert (Hnb : forall A (x : Z), ~ is_Some ((∅ : gmap Z A) !! x)) by (intros A x [y Hy]; done).
  split; [| split; [done |]; split; [done |]; by intros k n u [Hk _]].
  split; cbn; try (by left); try done.
  - apply slots_layout; unfold PAGESIZE; lia.
  - apply slots_layout; unfold PAGESIZE; lia.
  - apply slots_empty.
  - apply slots_empty.
  - by intros p Hp%Hnb.
  - by intros p Hp%Hnb.
  - by intros k n u [Hk _].
  - by intros k1 n1 u1 k2 n2 u2 [Hk _].
  - by intros k n u x [Hk _].
Qed.

(** ** Allocation *)

(** C21: on a well-formed pool, for a size that is a multiple of the alignment
    and an alignment that divides the page size, [kima_alloc] returns a
    non-null aligned block as long as the memory manager has pages left.  No
    block overlapped it before; afterwards it is a block of the pool, in memory
    the pool owns, every other block is as it was, and the pool is well formed
    and unlocked. *)
Theorem kima_alloc_correct s size al : pool_ok lay s -> mutex s = false -> 0 < size -> 0 < al -> (al | PAGESIZE) ->
  (al | size) -> size + al <= 2 ^ 30 -> 2 * pages (size + al) + 1 <= room (hw s) ->
  exists p s', kima_alloc PBOS_ISOVERLAPPED lay size al s = Ok (p, s') /\ p <> 0 /\ allocated lay s s' p size al.
Proof. by apply alloc_holds. Qed.

(** ** Sequences of allocations *)

Definition request : Type := Z * Z.

(** The blocks that a list of requests gets, in order *)
Fixpoint alloc_all (reqs : list request) : M (kima_pool_t H) (list (Z * Z)) :=
  match reqs with
  | [] => ret []
  | (size, al) :: reqs =>
      p <- kima_alloc PBOS_ISOVERLAPPED lay size al;
      ps <- alloc_all reqs;
      ret ((p, size) :: ps)
  end.

Definition fair (r : request) : Prop :=
  0 < fst r /\ 0 < snd r /\ (snd r | PAGESIZE) /\ (snd r | fst r) /\ fst r + snd r <= 2 ^ 30.

Definition apart (b c : Z * Z) : Prop := fst b + snd b <= fst c \/ fst c + snd c <= fst b.

(** Pages that are enough for a list of requests *)
Definition needs (reqs : list request) : Z :=
  foldr (fun r n => 2 * pages (fst r + snd r) + 1 + n) 0 reqs.

Lemma needs_pos reqs : Forall fair reqs -> 0 <= needs reqs.
Proof.
  induction 1 as [|[size al] reqs (Hs & Ha & _) _ IH]; [done |]. simpl in *.
  pose proof (pages_mono 0 (size + al) ltac:(lia)) as Hp. change (pages 0) with 0 in Hp. lia.
Qed.

Lemma alloc_all_ok reqs s : pool_ok lay s -> mutex s = false -> Forall fair reqs -> needs reqs <= room (hw s) ->
  exists ps s', alloc_all reqs s = Ok (ps, s') /\ pool_ok lay s' /\ snd <$> ps = fst <$> reqs /\
    Forall2 (fun b r => fst b <> 0 /\ fst b mod snd r = 0) ps reqs /\
    ForallOrdPairs apart ps /\ Forall (fun b => vacant s (fst b) (snd b)) ps.
Proof.
  intros Hok Hmx Hfair. revert s Hok Hmx.
  induction Hfair as [|[size al] reqs (Hs & Ha & Hd & Hds & Hb) Hfair IH]; intros s Hok Hmx Hroom.
  - exists [], s. split_and!; try done; constructor.
  - simpl in *. pose proof (needs_pos reqs Hfair).
    destruct (alloc_holds PBOS_ISOVERLAPPED lay Hov s size al Hok Hmx Hs Ha Hd Hds Hb ltac:(lia)) as (p & s1 & E & Hp & Hal).
    rewrite (bind_ok _ _ _ _ _ E). pose proof (al_block _ _ _ _ _ _ Hal) as [n Hn].
    destruct (IH s1 (al_ok _ _ _ _ _ _ Hal)) as (ps & s' & E' & Hok' & Hsz & Hal2 & Hpairs & Hvac).
    { rewrite (al_mutex _ _ _ _ _ _ Hal). done. }
    { pose proof (al_room _ _ _ _ _ _ Hal). lia. }
    rewrite (bind_ok _ _ _ _ _ E'). exists ((p, size) :: ps), s'. split; [reflexivity |]. split; [done |].
    split; [by rewrite !fmap_cons Hsz |]. split; [constructor; [split; [done | exact (al_align _ _ _ _ _ _ Hal)] | done] |]. split.
    + constructor; [| done]. eapply Forall_impl; [exact Hvac |]. intros [c m] Hc. simpl in Hc.
      destruct (Hc p n (mkUblk p size)) as [Hle|Hle]; [apply Hn; by left | by left | by right].
    + constructor; [exact (al_vacant _ _ _ _ _ _ Hal) |]. eapply Forall_impl; [exact Hvac |]. intros [c m] Hc k x u Hk. apply (Hc k x u), Hn. by right.
Qed.

(** C22: starting from the pool that [ki_init_kima_pool] makes, any sequence of
    fair requests that the memory manager has pages for succeeds: every block
    is non-null, aligned and of the requested size, and no two of them
    overlap. *)
Theorem allocations_disjoint (h : H) reqs : Forall fair reqs -> needs reqs <= room h ->
  exists s ps s', ki_init_kima_pool lay PAGESIZE (empty_pool h) = Ok s /\ alloc_all reqs s = Ok (ps, s') /\
    pool_ok lay s' /\ snd <$> ps = fst <$> reqs /\
    Forall2 (fun b r => fst b <> 0 /\ fst b mod snd r = 0) ps reqs /\ ForallOrdPairs apart ps.
Proof.
  intros Hfair Hroom. destruct (init_ok h) as (s & Ei & Hok & Hmx & Hhw & _).
  destruct (alloc_all_ok reqs s Hok Hmx Hfair) as (ps & s' & E & Hok' & Hsz & Hal & Hpairs & _); [by rewrite Hhw |].
  by exists s, ps, s'.
Qed.

End Init.

(** ** A concrete memory manager

    It hands out 65536 pages in order; its state is the number of pages handed
    out. *)
#[local] Instance bump : Backend nat := {
  mm_kvmalloc n := fun h =>
    if n / PAGESIZE <=? 65536 - Z.of_nat h
    then Ok ((256 + Z.of_nat h) * PAGESIZE, (h + Z.to_nat (n / PAGESIZE))%nat) else Ok (0, h);
  mm_pgalloc := ret 0x1000;
  mm_mmap _ _ _ := ret KM_RESULT_OK;
  mm_getmap _ := ret 0x1000;
  mm_pgfree _ := ret tt;
  mm_vmfree _ _ := ret tt
}.

#[local] Program Instance bump_lawful : Lawful nat := {
  owns h x := 256 * PAGESIZE <= x < (256 + Z.min 65536 (Z.of_nat h)) * PAGESIZE;
  room h := 65536 - Z.of_nat h
}.
Next Obligation. intros h x. unfold PAGESIZE. lia. Qed.
Next Obligation.
  intros h n Hn Hm Hr. simpl. pose proof (Z.div_mod n PAGESIZE ltac:(done)) as Hd. rewrite Hm in Hd.
  assert (0 < n / PAGESIZE) by (unfold PAGESIZE in *; lia).
  rewrite (proj2 (Z.leb_le _ _) Hr). do 2 eexists. split; [reflexivity |].
  split; [by rewrite Z.mod_mul |]. unfold PAGESIZE in *. split_and!; [lia | lia | lia].
Qed.
Next Obligation. intros h. by exists 0x1000, h. Qed.
Next Obligation. intros v p n h. by exists h. Qed.

(** The overlap test of two ranges, and records as x86_64 lays them out *)
Definition overlapped (a n b m : Z) : bool := (a <? b + m) && (b <? a + n).
Definition lp64 : abi := mkAbi 24 64 8 64 8.

Lemma overlapped_law : overlap_law overlapped.
Proof. intros a n b m _ _. unfold overlapped. lia. Qed.

Lemma lp64_ok : abi_ok lp64.
Proof. by split. Qed.

Definition heap0 : kima_pool_t nat :=
  match ki_init_kima_pool lp64 PAGESIZE (empty_pool 0%nat) with Ok s => s | _ => empty_pool 0%nat end.

Lemma heap0_ok : pool_ok lp64 heap0.
Proof.
  destruct (init_ok lp64 lp64_ok 0%nat) as (s & E & Hok & _). unfold heap0. by rewrite E.
Qed.

Lemma kima_alloc_correct_witness : exists p s',
  kima_alloc overlapped lp64 48 16 heap0 = Ok (p, s') /\ p <> 0 /\ allocated lp64 heap0 s' p 48 16.
Proof.
  exact (kima_alloc_correct overlapped lp64 overlapped_law heap0 48 16 heap0_ok eq_refl ltac:(lia) ltac:(lia)
    ltac:(by exists 256) ltac:(by exists 3) ltac:(lia) ltac:(by vm_compute)).
Defined.

Lemma allocations_disjoint_witness : exists s ps s',
  ki_init_kima_pool lp64 PAGESIZE (empty_pool 0%nat) = Ok s /\
  alloc_all overlapped lp64 [(48, 16); (5000, 8); (16, 8)] s = Ok (ps, s') /\ pool_ok lp64 s' /\
  snd <$> ps = [48; 5000; 16] /\
  Forall2 (fun b r => fst b <> 0 /\ fst b mod snd r = 0) ps [(48, 16); (5000, 8); (16, 8)] /\ ForallOrdPairs apart ps.
Proof.
  refine (allocations_disjoint overlapped lp64 lp64_ok overlapped_law 0%nat [(48, 16); (5000, 8); (16, 8)] _ _).
  - repeat constructor; simpl; try lia; [by exists 256 | by exists 3 | by exists 512 | by exists 625 | by exists 512 | by exists 2].
  - by vm_compute.
Defined.

(** ** What goes wrong *)

Definition heap_run {A} (m : M (kima_pool_t nat) A) : outcome (A * kima_pool_t nat) := m heap0.

(** The run returns, with a result and a state such that [Q]. *)
Definition returns {A} (m : M (kima_pool_t nat) A) (Q : A -> kima_pool_t nat -> Prop) : Prop :=
  match heap_run m with Ok (a, s) => Q a s | _ => False end.

Lemma returns_decide {A} m (Q : A -> kima_pool_t nat -> Prop) `{forall a s, Decision (Q a s)} :
  match heap_run m with Ok (a, s) => bool_decide (Q a s) | _ => false end = true -> returns m Q.
Proof. unfold returns. destruct (heap_run m) as [[a s]| | |]; [apply bool_decide_eq_true | done ..]. Qed.

(** The size of the block at [k] *)
Definition block_size (s : kima_pool_t nat) (k : Z) : option Z :=
  n ← ublk_query_tree s !! k; u ← ublks s !! n; Some (u_size u).

(** Releasing the only block of a pool gives its two record pages back
    but leaves the list heads pointing at them, so that the next allocation
    faults. *)
Theorem alloc_free_alloc_faults :
  returns (p <- kima_alloc overlapped lp64 16 8; kima_free lp64 p)
    (fun _ s => ublk_poolpg_list s <> 0 /\ vpgdesc_poolpg_list s <> 0 /\ base.size (headers s) = 0%nat) /\
  heap_run (p <- kima_alloc overlapped lp64 16 8; (kima_free lp64 p);; kima_alloc overlapped lp64 16 8) = Fault.
Proof. split; [refine (returns_decide _ _ _); by vm_compute | by vm_compute]. Qed.

(** Three blocks side by side, of which the first is released and the third
    enlarged *)
Definition grow_third : M (kima_pool_t nat) (Z * Z) :=
  a <- kima_alloc overlapped lp64 16 8;
  b <- kima_alloc overlapped lp64 16 8;
  c <- kima_alloc overlapped lp64 16 8;
  kima_free lp64 a;;
  d <- kima_realloc overlapped lp64 c 40 8;
  ret (b, d).

(** [kima_realloc] passes over the old block when it is the one nearest to
    the end of a candidate, and does not see the block before it: the block it
    returns overlaps another one. *)
Theorem realloc_overlaps : returns grow_third (fun bd s =>
  block_size s (fst bd) = Some 16 /\ block_size s (snd bd) = Some 40 /\ snd bd < fst bd < snd bd + 40).
Proof. refine (returns_decide _ _ _). by vm_compute. Qed.

(** A block with an alignment that does not divide its size is placed behind
    the pages that were looked at. *)
Example alignment_leaves_page :
  returns (x <- kima_alloc overlapped lp64 8 8; kima_alloc overlapped lp64 8 4096)
    (fun p s => block_size s p = Some 8 /\ vpgdesc_query_tree s !! p = None).
Proof. refine (returns_decide _ _ _). by vm_compute. Qed.

End KimaT.
