(* ===== verification/KList.v ===== *)
(** * Doubly linked lists

    include/pbos/kfxx/list.hh.  Nodes live on a heap of locations; an access
    through a null or dangling pointer is a [Fault].  Nodes come from an
    allocator ([Allocator]); the two iterator classes of the source, which
    differ only in constness, share one translation. *)

From S2P Require Import Prelude.

Module KList.

(** [List::Node] *)
Record Node (T : Type) := mkNode { prev : ptr; next : ptr; data : T }.
Arguments mkNode {T}.
Arguments prev {T}.
Arguments next {T}.
Arguments data {T}.

(** The allocators, on a state of their own: [alloc] and [release] of the
    allocator at an address *)
Class Allocator (A : Type) := {
  alloc : loc -> A -> ptr * A;
  release : loc -> loc -> A -> A
}.

(** What they promise: addresses that are not in use *)
Class AllocatorLaws (A : Type) `{Allocator A} := {
  live : A -> gset loc;
  alloc_some al a l a' : alloc al a = (Some l, a') -> l ∉ live a /\ live a' = {[l]} ∪ live a;
  alloc_none al a a' : alloc al a = (None, a') -> live a' = live a;
  release_live al l a : live (release al l a) = live a ∖ {[l]}
}.

(** The nodes of all lists and the allocators; a [List] *)
Record heap (T A : Type) := mkHeap { nodes : gmap loc (Node T); allocs : A }.
Record list_st (T A : Type) := mkList {
  hp : heap T A;
  _first : ptr;
  _last : ptr;
  _length : Z;
  _allocator : ptr
}.
Arguments mkHeap {T A}.
Arguments nodes {T A}.
Arguments allocs {T A}.
Arguments mkList {T A}.
Arguments hp {T A}.
Arguments _first {T A}.
Arguments _last {T A}.
Arguments _length {T A}.
Arguments _allocator {T A}.

Section Ops.
Context {T A : Type} `{Allocator A}.

Abbreviation LM := (M (list_st T A)).

Definition set_hp (h : heap T A) (s : list_st T A) : list_st T A :=
  mkList h (_first s) (_last s) (_length s) (_allocator s).

Definition get_node (p : ptr) : LM (Node T) := fun s =>
  match p with
  | None => Fault
  | Some l => match nodes (hp s) !! l with Some n => Ok (n, s) | None => Fault end
  end.

Definition put_node (p : ptr) (f : Node T -> Node T) : LM unit := fun s =>
  match p with
  | None => Fault
  | Some l => match nodes (hp s) !! l with
              | Some n => Ok (tt, set_hp (mkHeap (<[l := f n]> (nodes (hp s))) (allocs (hp s))) s)
              | None => Fault
              end
  end.

Definition set_prev (q : ptr) (n : Node T) : Node T := mkNode q (next n) (data n).
Definition set_next (q : ptr) (n : Node T) : Node T := mkNode (prev n) q (data n).

Definition get_first : LM ptr := fun s => Ok (_first s, s).
Definition get_last : LM ptr := fun s => Ok (_last s, s).
Definition set_first (p : ptr) : LM unit := fun s =>
  Ok (tt, mkList (hp s) p (_last s) (_length s) (_allocator s)).
Definition set_last (p : ptr) : LM unit := fun s =>
  Ok (tt, mkList (hp s) (_first s) p (_length s) (_allocator s)).
Definition set_length (f : Z -> Z) : LM unit := fun s =>
  Ok (tt, mkList (hp s) (_first s) (_last s) (w64 (f (_length s))) (_allocator s)).

(** ** Private operations *)

Definition _alloc_node (x : T) : LM ptr := fun s =>
  match _allocator s with
  | None => Fault
  | Some al =>
      let '(p, a) := alloc al (allocs (hp s)) in
      match p with
      | None => Ok (None, set_hp (mkHeap (nodes (hp s)) a) s)
      | Some l => Ok (Some l, set_hp (mkHeap (<[l := mkNode None None x]> (nodes (hp s))) a) s)
      end
  end.

Definition _delete_node (p : ptr) : LM unit := fun s =>
  match p, _allocator s with
  | Some l, Some al =>
      match nodes (hp s) !! l with
      | Some _ => Ok (tt, set_hp (mkHeap (delete l (nodes (hp s))) (release al l (allocs (hp s)))) s)
      | None => Fault
      end
  | _, _ => Fault
  end.

Definition _prepend (dest node : ptr) : LM unit :=
  when (nonnull dest)
    (d <- get_node dest;
     when (nonnull (prev d)) (put_node (prev d) (set_next node));;
     put_node dest (set_prev node);;
     f <- get_first;
     when (ptr_eqb dest f) (set_first node));;
  put_node node (set_next dest);;
  f <- get_first;
  when (negb (nonnull f)) (set_first node);;
  l <- get_last;
  when (negb (nonnull l)) (set_last node);;
  set_length (fun n => n + 1).

Definition _append (dest node : ptr) : LM unit :=
  when (nonnull dest)
    (d <- get_node dest;
     when (nonnull (next d)) (put_node (next d) (set_prev node));;
     put_node dest (set_next node);;
     l <- get_last;
     when (ptr_eqb dest l) (set_last node));;
  put_node node (set_prev dest);;
  f <- get_first;
  when (negb (nonnull f)) (set_first node);;
  l <- get_last;
  when (negb (nonnull l)) (set_last node);;
  set_length (fun n => n + 1).

Definition _remove (dest : ptr) : LM unit :=
  kd_assert (nonnull dest);;
  f <- get_first;
  when (ptr_eqb dest f) (d <- get_node dest; set_first (next d));;
  l <- get_last;
  when (ptr_eqb dest l) (d <- get_node dest; set_last (prev d));;
  d <- get_node dest;
  when (nonnull (prev d)) (put_node (prev d) (set_next (next d)));;
  d <- get_node dest;
  when (nonnull (next d)) (put_node (next d) (set_prev (prev d)));;
  set_length (fun n => n - 1).

(** ** Public operations *)

(** The constructor, with the allocator at [al] *)
Definition empty_list (h : heap T A) (al : ptr) : list_st T A := mkList h None None 0 al.

(** The move constructor: the new list and what is left of the other *)
Definition move_construct (other : list_st T A) : list_st T A * list_st T A :=
  (other, mkList (hp other) None None 0 None).

Definition insert_front (node new_node : ptr) : LM ptr :=
  kd_assert (nonnull node);; _prepend node new_node;; ret new_node.

Definition insert_back (node new_node : ptr) : LM ptr :=
  kd_assert (nonnull node);; _append node new_node;; ret new_node.

Definition push_front_node (node : ptr) : LM unit := f <- get_first; _prepend f node.

Definition push_front (x : T) : LM ptr :=
  new_node <- _alloc_node x;
  if negb (nonnull new_node) then ret None
  else f <- get_first; _prepend f new_node;; ret new_node.

Definition push_back_node (node : ptr) : LM unit := l <- get_last; _append l node.

Definition push_back (x : T) : LM ptr :=
  new_node <- _alloc_node x;
  if negb (nonnull new_node) then ret None
  else l <- get_last; _append l new_node;; ret new_node.

Definition remove (node : ptr) : LM unit := _remove node;; _delete_node node.
Definition detach (node : ptr) : LM unit := _remove node.
Definition delete_node (node : ptr) : LM unit := _delete_node node.

Definition pop_front : LM unit := f <- get_first; remove f.
Definition pop_back : LM unit := l <- get_last; remove l.

(** [next], [prev]: [index] steps from a node *)
Fixpoint next_node (cur_node : ptr) (index : nat) : LM ptr :=
  match index with
  | O => ret cur_node
  | Datatypes.S i => kd_assert (nonnull cur_node);; n <- get_node cur_node; next_node (next n) i
  end.

Fixpoint prev_node (cur_node : ptr) (index : nat) : LM ptr :=
  match index with
  | O => ret cur_node
  | Datatypes.S i => kd_assert (nonnull cur_node);; n <- get_node cur_node; prev_node (prev n) i
  end.

Definition first_node : LM ptr := get_first.
Definition last_node : LM ptr := get_last.
Definition front : LM T := f <- get_first; n <- get_node f; ret (data n).
Definition back : LM T := l <- get_last; n <- get_node l; ret (data n).
Definition size : LM Z := fun s => Ok (_length s, s).

(** The loop of [clear] and of the destructor; every round deletes a node. *)
Definition delete_all : LM unit := fun s =>
  (loop (Datatypes.S (base.size (nodes (hp s)))) (fun i =>
     if nonnull i then n <- get_node i; _delete_node i;; ret (inl (next n)) else ret (inr tt)) (_first s)) s.

Definition clear : LM unit :=
  delete_all;; set_length (fun _ => 0);; set_first None;; set_last None.

Definition destroy : LM unit := delete_all.

(** [operator=(List &&)]: clears the list, then constructs it over the old one
    from [other], which is on the same heap and is left empty. *)
Definition move_assign (other : list_st T A) : LM (list_st T A) :=
  clear;;
  fun s => let '(this, rest) := move_construct (set_hp (hp s) other) in Ok (rest, this).

(** ** Iterators *)

Inductive IteratorDirection : Type := Forward | Reversed | Invalid.

(** [Iterator], [ConstIterator]; [list'] tells lists apart. *)
Record Iterator := mkIter { node : ptr; list' : Z; direction : IteratorDirection }.

Definition is_forward (d : IteratorDirection) : bool := match d with Forward => true | _ => false end.

Definition dir_eqb (a b : IteratorDirection) : bool :=
  match a, b with
  | Invalid, Invalid | Forward, Forward | Reversed, Reversed => true
  | _, _ => false
  end.

(** [Iterator(Iterator &&)]: the new iterator and what is left of the other *)
Definition iter_move (it : Iterator) (null_list : Z) : Iterator * Iterator :=
  (it, mkIter None null_list Invalid).

Definition iter_assign (it rhs : Iterator) : LM Iterator :=
  if negb (dir_eqb (direction it) (direction rhs)) then panic
  else ret (mkIter (node rhs) (list' rhs) (direction it)).

Definition iter_inc (it : Iterator) : LM Iterator :=
  if negb (nonnull (node it)) then panic
  else
    n <- get_node (node it);
    ret (mkIter (if is_forward (direction it) then next n else prev n) (list' it) (direction it)).

Definition iter_dec (it : Iterator) : LM Iterator :=
  n <- get_node (node it);
  let p := if is_forward (direction it) then prev n else next n in
  if negb (nonnull p) then panic else ret (mkIter p (list' it) (direction it)).

Definition iter_eq (it rhs : Iterator) : LM bool :=
  if negb (list' it =? list' rhs) then panic else ret (ptr_eqb (node it) (node rhs)).

Definition iter_ne (it rhs : Iterator) : LM bool :=
  if negb (list' it =? list' rhs) then panic else ret (negb (ptr_eqb (node it) (node rhs))).

(** The comparisons with a node compare their argument with itself. *)
Definition iter_eq_node (it : Iterator) (node : ptr) : bool := ptr_eqb node node.
Definition iter_ne_node (it : Iterator) (node : ptr) : bool := negb (ptr_eqb node node).

Definition iter_deref (it : Iterator) : LM T :=
  if negb (nonnull (node it)) then panic else n <- get_node (node it); ret (data n).

Definition begin (id : Z) : LM Iterator := f <- get_first; ret (mkIter f id Forward).
Definition end_ (id : Z) : Iterator := mkIter None id Forward.
Definition begin_reversed (id : Z) : LM Iterator := l <- get_last; ret (mkIter l id Reversed).
Definition end_reversed (id : Z) : Iterator := mkIter None id Reversed.

End Ops.

End KList.
