(* ===== verification/KListTheorems.v ===== *)
(** * Theorems on the linked lists

    A list represents a sequence of nodes: a chain of nodes whose links agree
    in both directions, between its [_first] and [_last].  Its operations
    implement those of sequences. *)

From S2P Require Import Prelude KList.

Module KListT.
Import KList.

Section Represent.
Context {T A : Type} `{AL : AllocatorLaws A}.

Abbreviation seq := (list (loc * T)%type).
Implicit Types (ns : gmap loc (Node T)) (ls : seq) (p q r : ptr) (s : list_st T A).

(** ** Segments of nodes *)

Definition head_ptr ls r : ptr := match ls with [] => r | (l, _) :: _ => Some l end.

Fixpoint last_ptr q ls : ptr := match ls with [] => q | (l, _) :: tl => last_ptr (Some l) tl end.

(** From [q], the nodes [ls], then [r] *)
Fixpoint dseg ns q ls r : Prop :=
  match ls with
  | [] => True
  | (l, x) :: tl => ns !! l = Some (mkNode q (head_ptr tl r) x) /\ dseg ns (Some l) tl r
  end.

Lemma head_ptr_app ls ls' r : head_ptr (ls ++ ls') r = head_ptr ls (head_ptr ls' r).
Proof. by case: ls => [|[]]. Qed.

Lemma last_ptr_app q ls ls' : last_ptr q (ls ++ ls') = last_ptr (last_ptr q ls) ls'.
Proof. elim: ls q => [|[l x] tl IH] q //=. Qed.

Lemma last_ptr_nonnull l ls : nonnull (last_ptr (Some l) ls) = true.
Proof. elim: ls l => [|[k x] tl IH] l //=. Qed.

Lemma head_ptr_nonnull ls l : nonnull (head_ptr ls (Some l)) = true.
Proof. by case: ls => [|[]]. Qed.

Lemma dseg_app ns q ls ls' r :
  dseg ns q (ls ++ ls') r <-> dseg ns q ls (head_ptr ls' r) /\ dseg ns (last_ptr q ls) ls' r.
Proof.
  elim: ls q => [|[l x] tl IH] q /=; first tauto.
  rewrite IH head_ptr_app. tauto.
Qed.

Lemma dseg_agree ns ns' q ls r :
  (forall l, l ∈ ls.*1 -> ns' !! l = ns !! l) -> dseg ns q ls r -> dseg ns' q ls r.
Proof.
  elim: ls q => [|[l x] tl IH] q //= E [Hl Ht]. split.
  - rewrite E //. set_solver.
  - apply IH => // k Hk. apply E. set_solver.
Qed.

Lemma dseg_insert ns q ls r l n : l ∉ ls.*1 -> dseg ns q ls r -> dseg (<[l := n]> ns) q ls r.
Proof. move=> Hl. apply: dseg_agree => k Hk. rewrite lookup_insert_ne //. set_solver. Qed.

Lemma dseg_delete ns q ls r l : l ∉ ls.*1 -> dseg ns q ls r -> dseg (delete l ns) q ls r.
Proof. move=> Hl. apply: dseg_agree => k Hk. rewrite lookup_delete_ne //. set_solver. Qed.

Lemma dseg_elem ns q ls r l : dseg ns q ls r -> l ∈ ls.*1 -> is_Some (ns !! l).
Proof.
  elim: ls q => [|[k x] tl IH] q /=; first set_solver.
  move=> [Hk Ht] /elem_of_cons [-> | Hl]; eauto.
Qed.

(** Changing the back link of the first node, the forward link of the last one *)
Lemma dseg_relink_first ns q q' l x tl r :
  l ∉ tl.*1 -> dseg ns q ((l, x) :: tl) r ->
  dseg (<[l := mkNode q' (head_ptr tl r) x]> ns) q' ((l, x) :: tl) r.
Proof. move=> Hl [_ Ht]. split; [by rewrite lookup_insert_eq | exact: dseg_insert]. Qed.

Lemma dseg_relink_last ns q ls l x r r' :
  l ∉ ls.*1 -> dseg ns q (ls ++ [(l, x)]) r ->
  dseg (<[l := mkNode (last_ptr q ls) r' x]> ns) q (ls ++ [(l, x)]) r'.
Proof.
  move=> Hl /dseg_app /= [Hls _]. apply/dseg_app. split; first exact: dseg_insert.
  by rewrite /= lookup_insert_eq.
Qed.

(** ** Lists that represent a sequence *)

Definition dlist s ls : Prop :=
  dseg (nodes (hp s)) None ls None /\ NoDup ls.*1 /\
  (forall l, l ∈ ls.*1 -> l ∈ live (allocs (hp s))) /\
  _first s = head_ptr ls None /\ _last s = last_ptr None ls /\
  _length s = w64 (Z.of_nat (length ls)) /\ is_Some (_allocator s).

(** The nodes outside [D] and the allocator are what they were. *)
Definition kept (D : loc -> Prop) s s' : Prop :=
  (forall k, ~ D k -> nodes (hp s') !! k = nodes (hp s) !! k) /\ _allocator s' = _allocator s.

(** A node as the allocator hands it out *)
Definition fresh_node s l (x : T) : Prop :=
  nodes (hp s) !! l = Some (mkNode None None x) /\ l ∈ live (allocs (hp s)).

Lemma alloc_node_ok s ls x :
  dlist s ls ->
  exists p s', _alloc_node x s = Ok (p, s') /\ dlist s' ls /\
    kept (fun k => p = Some k) s s' /\
    match p with Some l => fresh_node s' l x /\ l ∉ ls.*1 | None => True end.
Proof.
  move=> [Hseg [Hnd [Hlive [Hf [Hl [Hlen [al Hal]]]]]]].
  rewrite /_alloc_node Hal. case E: alloc => [[l|] a'].
  - destruct (alloc_some _ _ _ _ E) as [Hn Ha].
    assert (Hnew : l ∉ ls.*1) by (move=> /Hlive; done).
    exists (Some l). eexists; split; [done|]. split; [|split; [|split; [|done]]].
    + split; [exact: dseg_insert | split; [done|]]. split; [|by rewrite /= Hal; eauto].
      move=> k Hk /=. rewrite Ha. set_solver.
    + split; [|done]. move=> k Hk /=. rewrite lookup_insert_ne //. congruence.
    + split; [by rewrite /= lookup_insert_eq | rewrite /= Ha; set_solver].
  - exists None. eexists; split; [done|]. split; [|split; [|done]]; last by split.
    split; [done | split; [done|]]. split; [|by rewrite /= Hal; eauto].
    move=> k Hk /=. rewrite (alloc_none _ _ _ E). auto.
Qed.

(** ** Adding a node at an end *)

(** What every operation that adds [l] to [ls] keeps. *)
Lemma grown ns ls ls' l x :
  ls' = (l, x) :: ls \/ ls' = ls ++ [(l, x)] ->
  l ∉ ls.*1 -> NoDup ls.*1 -> NoDup ls'.*1 /\ length ls' = Datatypes.S (length ls).
Proof.
  case=> ->; rewrite ?fmap_app ?length_app /=.
  - split; [by apply NoDup_cons | done].
  - split; [|lia]. apply NoDup_app. split; [done | split; [set_solver | apply NoDup_singleton]].
Qed.

Lemma prepend_first s ls l x :
  dlist s ls -> fresh_node s l x -> l ∉ ls.*1 ->
  exists s', _prepend (_first s) (Some l) s = Ok (tt, s') /\ dlist s' ((l, x) :: ls) /\
    kept (fun k => k = l \/ k ∈ ls.*1) s s'.
Proof.
  move=> [Hseg [Hnd [Hlive [Hf [Hl [Hlen Hal]]]]]] [Hn Hln] Hnew.
  destruct (grown (nodes (hp s)) ls _ l x (or_introl eq_refl) Hnew Hnd) as [Hnd' Hlen'].
  destruct s as [[ns a] f la n al]; simpl in *; subst f la n.
  destruct ls as [|[k y] tl].
  - rewrite /_prepend /bind /when /get_first /get_last /= /put_node /= Hn /=.
    eexists; split; [done|]. split; [split; [by rewrite /= lookup_insert_eq|]|].
    + repeat split; [done | set_solver | done].
    + split; [|done]. move=> j Hj /=. rewrite lookup_insert_ne //. set_solver.
  - destruct Hseg as [Hk Htl]. simpl in Hnew.
    assert (Hkl : k <> l) by set_solver.
    rewrite /_prepend /bind /when /get_first /get_last /= /get_node /put_node /= Hk /= Hk /=.
    rewrite ptr_eqb_refl /= lookup_insert_ne // Hn /= last_ptr_nonnull /=.
    eexists; split; [done|]. split; [split|].
    + split; first by rewrite /= lookup_insert_eq.
      apply: dseg_insert; first done.
      apply: (dseg_relink_first _ None); [by apply NoDup_cons in Hnd as [? _] | by split].
    + repeat split; [done | set_solver | | done].
      rewrite /= w64_add_l. f_equal. lia.
    + split; [|done]. move=> j Hj /=. rewrite !lookup_insert_ne //; set_solver.
Qed.

Lemma append_last s ls l x :
  dlist s ls -> fresh_node s l x -> l ∉ ls.*1 ->
  exists s', _append (_last s) (Some l) s = Ok (tt, s') /\ dlist s' (ls ++ [(l, x)]) /\
    kept (fun k => k = l \/ k ∈ ls.*1) s s'.
Proof.
  move=> [Hseg [Hnd [Hlive [Hf [Hl [Hlen Hal]]]]]] [Hn Hln] Hnew.
  destruct (grown (nodes (hp s)) ls _ l x (or_intror eq_refl) Hnew Hnd) as [Hnd' Hlen'].
  destruct s as [[ns a] f la n al]; simpl in *; subst f la n.
  destruct ls as [|[k y] init _] using rev_ind.
  - rewrite /_append /bind /when /get_first /get_last /= /put_node /= Hn /=.
    eexists; split; [done|]. split; [split; [by rewrite /= lookup_insert_eq|]|].
    + repeat split; [done | set_solver | done].
    + split; [|done]. move=> j Hj /=. rewrite lookup_insert_ne //. set_solver.
  - rewrite fmap_app /= in Hnew Hnd.
    assert (Hkl : k <> l) by set_solver.
    assert (Hki : k ∉ init.*1) by (apply NoDup_app in Hnd as (_ & ? & _); set_solver).
    destruct (proj1 (dseg_app _ _ _ _ _) Hseg) as [_ [Hk _]].
    rewrite last_ptr_app /=.
    rewrite /_append /bind /when /get_first /get_last /= /get_node /put_node /= Hk /= Hk /=.
    rewrite ptr_eqb_refl /= lookup_insert_ne // Hn /= head_ptr_app.
    rewrite head_ptr_nonnull /=.
    eexists; split; [done|]. split; [split|].
    + apply dseg_app. split; last by rewrite last_ptr_app /= lookup_insert_eq.
      apply: dseg_insert; first set_solver.
      apply: (dseg_relink_last _ _ _ _ _ None); [done | exact Hseg].
    + repeat split; [done | set_solver | | | | done].
      * by rewrite !head_ptr_app.
      * by rewrite !last_ptr_app.
      * rewrite /= w64_add_l. f_equal. lia.
    + split; [|done]. move=> j Hj /=. rewrite !lookup_insert_ne //; set_solver.
Qed.

(** ** Taking a node out *)

Lemma head_ptr_self ls l : l ∉ ls.*1 -> head_ptr ls (Some l) = Some l -> ls = [].
Proof. case: ls => [|[k x] tl] //= Hl [E]. set_solver. Qed.

Lemma last_ptr_self ls l q : l ∉ ls.*1 -> last_ptr q ls = Some l -> ls = [].
Proof.
  destruct ls as [|[k x] init _] using rev_ind; first done.
  rewrite last_ptr_app fmap_app /= => Hl [E]. set_solver.
Qed.

Lemma unlink_shape (l : loc) (x : T) a b :
  NoDup (a ++ (l, x) :: b).*1 ->
  l ∉ a.*1 /\ l ∉ b.*1 /\ NoDup (a ++ b).*1 /\ (forall k, k ∈ a.*1 -> k ∉ b.*1).
Proof.
  rewrite !fmap_app /= => /NoDup_app [Ha [Hd /NoDup_cons [Hl Hb]]].
  split; [set_solver | split; [done | split; [|set_solver]]].
  apply NoDup_app. set_solver.
Qed.

Definition opt_alter (f : Node T -> Node T) p ns : gmap loc (Node T) :=
  match p with Some l => alter f l ns | None => ns end.

Lemma opt_alter_ne f p ns l : p <> Some l -> opt_alter f p ns !! l = ns !! l.
Proof. case: p => [k|] //= Hk. rewrite lookup_alter_ne //. congruence. Qed.

Lemma when_put f p s :
  (forall l, p = Some l -> is_Some (nodes (hp s) !! l)) ->
  when (nonnull p) (put_node p f) s =
    Ok (tt, set_hp (mkHeap (opt_alter f p (nodes (hp s))) (allocs (hp s))) s).
Proof.
  case: p => [l|] /= Hl; last by destruct s as [[]].
  destruct (Hl l eq_refl) as [n Hn]. rewrite /put_node Hn. do 4 f_equal.
  apply map_eq => k. rewrite lookup_alter. case: decide => [<-|Hk]; last by rewrite lookup_insert_ne.
  by rewrite lookup_insert_eq Hn.
Qed.

Lemma last_ptr_in q ls l : last_ptr q ls = Some l -> q = Some l \/ l ∈ ls.*1.
Proof. elim: ls q => [|[k x] tl IH] q /=; [by left | move=> /IH [[->] | ?]; set_solver]. Qed.

Lemma head_ptr_in ls l : head_ptr ls None = Some l -> l ∈ ls.*1.
Proof. case: ls => [|[k x] tl] //= [->]. set_solver. Qed.

(** Changing the forward link of the last node, the back link of the first *)
Lemma dseg_set_next ns q ls r r' :
  NoDup ls.*1 -> dseg ns q ls r -> dseg (opt_alter (set_next r') (last_ptr None ls) ns) q ls r'.
Proof.
  destruct ls as [|[l x] init _] using rev_ind; first done.
  rewrite fmap_app /= last_ptr_app /= => /NoDup_app [_ [Hl _]] /dseg_app /= [Hi [Hn _]].
  apply/dseg_app. split; last by rewrite /= lookup_alter_eq Hn.
  apply: dseg_agree Hi => k Hk /=. rewrite lookup_alter_ne //. set_solver.
Qed.

Lemma dseg_set_prev ns q q' ls r :
  NoDup ls.*1 -> dseg ns q ls r -> dseg (opt_alter (set_prev q') (head_ptr ls None) ns) q' ls r.
Proof.
  case: ls => [|[l x] tl] //= /NoDup_cons [Hl _] [Hn Ht].
  split; first by rewrite lookup_alter_eq Hn.
  apply: dseg_agree Ht => k Hk /=. rewrite lookup_alter_ne //. set_solver.
Qed.

Definition unlinked ns a b : gmap loc (Node T) :=
  opt_alter (set_prev (last_ptr None a)) (head_ptr b None)
    (opt_alter (set_next (head_ptr b None)) (last_ptr None a) ns).

Lemma unlinked_dseg ns a b l x :
  dseg ns None (a ++ (l, x) :: b) None -> NoDup (a ++ (l, x) :: b).*1 ->
  dseg (unlinked ns a b) None (a ++ b) None.
Proof.
  move=> /dseg_app [Sa [_ Sb]] /unlink_shape [_ [_ [Hab Hd]]].
  rewrite fmap_app in Hab. apply NoDup_app in Hab as [Na [_ Nb]].
  apply/dseg_app. split.
  - apply: dseg_agree (dseg_set_next _ _ _ _ _ Na Sa) => k Hk.
    apply: opt_alter_ne => /head_ptr_in Hb. by apply (Hd k).
  - apply: dseg_set_prev => //; apply: dseg_agree Sb => k Hk.
    apply: opt_alter_ne => /last_ptr_in [// | Ha]. by apply (Hd k).
Qed.

Lemma unlinked_other ns a b k : k ∉ (a ++ b).*1 -> unlinked ns a b !! k = ns !! k.
Proof.
  rewrite fmap_app => Hk. rewrite /unlinked !opt_alter_ne //.
  - move=> /head_ptr_in ?. set_solver.
  - move=> /last_ptr_in [// | ?]. set_solver.
Qed.

Lemma get_node_ok s l n : nodes (hp s) !! l = Some n -> get_node (Some l) s = Ok (n, s).
Proof. by rewrite /get_node => ->. Qed.

(** The ends move off the node. *)
Lemma drop_first s l a b x :
  nodes (hp s) !! l = Some (mkNode (last_ptr None a) (head_ptr b None) x) ->
  _first s = head_ptr a (Some l) -> l ∉ a.*1 ->
  when (ptr_eqb (Some l) (_first s)) (d <- get_node (Some l); set_first (next d)) s =
    Ok (tt, mkList (hp s) (head_ptr (a ++ b) None) (_last s) (_length s) (_allocator s)).
Proof.
  move=> Hn Hf Hl. rewrite Hf. case: (decide (head_ptr a (Some l) = Some l)) => E.
  - rewrite (head_ptr_self _ _ Hl E) /= ptr_eqb_refl /when (bind_ok _ _ _ _ _ (get_node_ok _ _ _ Hn)) //.
  - rewrite ptr_eqb_ne; first congruence. destruct a as [|[k y] tl]; first done.
    rewrite /= /ret. by destruct s; simpl in *; subst.
Qed.

Lemma drop_last s l a b x :
  nodes (hp s) !! l = Some (mkNode (last_ptr None a) (head_ptr b None) x) ->
  _last s = last_ptr (Some l) b -> l ∉ b.*1 ->
  when (ptr_eqb (Some l) (_last s)) (d <- get_node (Some l); set_last (prev d)) s =
    Ok (tt, mkList (hp s) (_first s) (last_ptr None (a ++ b)) (_length s) (_allocator s)).
Proof.
  move=> Hn Hf Hl. rewrite Hf last_ptr_app. case: (decide (last_ptr (Some l) b = Some l)) => E.
  - rewrite E ptr_eqb_refl /when (bind_ok _ _ _ _ _ (get_node_ok _ _ _ Hn)).
    by rewrite (last_ptr_self _ _ _ Hl E).
  - rewrite ptr_eqb_ne; first congruence. destruct b as [|[k y] tl]; first done.
    rewrite /= /ret. by destruct s; simpl in *; subst.
Qed.

(** [_remove]: the node keeps its own links. *)
Lemma remove_node_ok s a b l x :
  dlist s (a ++ (l, x) :: b) ->
  exists s', _remove (Some l) s = Ok (tt, s') /\ dlist s' (a ++ b) /\
    nodes (hp s') !! l = Some (mkNode (last_ptr None a) (head_ptr b None) x) /\
    l ∈ live (allocs (hp s')) /\
    kept (fun k => k ∈ (a ++ b).*1) s s'.
Proof.
  move=> [Hseg [Hnd [Hlive [Hf [Hl [Hlen Hal]]]]]].
  destruct (unlink_shape _ _ _ _ Hnd) as [Hla [Hlb [Hab Hd]]].
  destruct (proj1 (dseg_app _ _ _ _ _) Hseg) as [Sa [Hn Sb]].
  rewrite head_ptr_app in Hf. rewrite last_ptr_app in Hl.
  set (n := mkNode (last_ptr None a) (head_ptr b None) x) in *.
  assert (Hun : l ∉ (a ++ b).*1) by (rewrite fmap_app; set_solver).
  rewrite /_remove bind_assert.
  rewrite (bind_ok get_first _ s (_first s) s) // (bind_ok _ _ _ _ _ (drop_first _ _ _ _ _ Hn Hf Hla)).
  set s1 := mkList (hp s) (head_ptr (a ++ b) None) (_last s) (_length s) (_allocator s).
  rewrite (bind_ok get_last _ s1 (_last s) s1) //.
  rewrite (bind_ok _ _ _ _ _ (drop_last s1 _ _ _ _ Hn Hl Hlb)) /=.
  rewrite (bind_ok _ _ _ _ _ (get_node_ok (mkList _ _ _ _ _) _ _ Hn)).
  rewrite (bind_ok _ _ _ _ _ (when_put _ _ _ _)) /=.
  { move=> k /last_ptr_in [// | Hk]. exact: dseg_elem Sa Hk. }
  rewrite (bind_ok _ _ _ n _ (get_node_ok (set_hp _ _) _ _ _)) /=.
  { rewrite /= opt_alter_ne //. move=> /last_ptr_in [//|]. set_solver. }
  rewrite (bind_ok _ _ _ _ _ (when_put _ _ _ _)) /=.
  { move=> k /= /head_ptr_in Hk. rewrite opt_alter_ne; last exact: dseg_elem Sb Hk.
    move=> /last_ptr_in [//|]. set_solver. }
  eexists; split; [done|]. split; [split; [|split; [done|split; [|split; [done|split; [done|split; [|done]]]]]]|].
  - exact: unlinked_dseg Hseg Hnd.
  - move=> k Hk /=. apply Hlive. rewrite !fmap_app in Hk |- *. set_solver.
  - rewrite /= Hlen !length_app /=. rewrite -[w64 _ - 1]/(w64 _ + -1) w64_add_l. f_equal. lia.
  - split; [|split; [|split; [|done]]].
    + exact: (eq_trans (unlinked_other _ _ _ _ Hun) Hn).
    + apply Hlive. rewrite fmap_app. set_solver.
    + move=> k Hk /=. exact: unlinked_other.
Qed.

Lemma delete_node_ok s ls l n :
  dlist s ls -> nodes (hp s) !! l = Some n -> l ∉ ls.*1 ->
  exists s', _delete_node (Some l) s = Ok (tt, s') /\ dlist s' ls /\
    nodes (hp s') = delete l (nodes (hp s)) /\ _allocator s' = _allocator s.
Proof.
  move=> [Hseg [Hnd [Hlive [Hf [Hl [Hlen [ac Hal]]]]]]] Hn Hnew.
  rewrite /_delete_node Hal Hn. eexists; split; [done|]. split; [|done].
  split; [exact: dseg_delete | split; [done | split]].
  - move=> k Hk /=. rewrite release_live. set_solver.
  - by rewrite /= Hal; eauto.
Qed.

(** ** Deleting every node *)

Lemma dseg_size ns q ls r : NoDup ls.*1 -> dseg ns q ls r -> (length ls <= base.size ns)%nat.
Proof.
  elim: ls ns q => [|[l x] tl IH] ns q /=; first lia.
  move=> /NoDup_cons [Hl Hnd] [Hn Ht].
  pose proof (IH _ _ Hnd (dseg_delete _ _ _ _ _ Hl Ht)) as Hle.
  rewrite map_size_delete_Some in Hle; first by eauto.
  assert (base.size ns <> 0%nat) by (apply map_size_non_empty_iff => E; by rewrite E lookup_empty in Hn).
  lia.
Qed.

Lemma delete_loop n s q ls :
  dseg (nodes (hp s)) q ls None -> NoDup ls.*1 -> is_Some (_allocator s) -> (length ls < n)%nat ->
  exists s',
    loop n (fun i => if nonnull i then n <- get_node i; _delete_node i;; ret (inl (next n)) else ret (inr tt))
      (head_ptr ls None) s = Ok (tt, s') /\
    (forall l, l ∈ ls.*1 -> nodes (hp s') !! l = None) /\
    kept (fun k => k ∈ ls.*1) s s' /\
    live (allocs (hp s')) = live (allocs (hp s)) ∖ list_to_set ls.*1.
Proof.
  elim: ls n s q => [|[l x] tl IH] [|n] s q Hseg Hnd Hac Hn; simpl in Hseg, Hnd, Hn; try lia.
  - exists s. split; [done | split; [set_solver | split; [done | set_solver]]].
  - destruct Hseg as [Hl Ht]. apply NoDup_cons in Hnd as [Hnew Hnd].
    set (s1 := set_hp (mkHeap (delete l (nodes (hp s))) (release (default 1%positive (_allocator s)) l (allocs (hp s)))) s).
    rewrite (loop_next _ _ _ _ (head_ptr tl None) s1).
    { rewrite /bind /get_node /_delete_node /= Hl Hl.
      by destruct Hac as [ac Hac]; rewrite /s1 Hac. }
    destruct (IH n s1 (Some l)) as (s' & -> & Hgone & [Hk Hka] & Hlive);
      [exact: dseg_delete | done | done | lia |].
    exists s'. split; [done | split; [|split; [split|]]].
    + move=> k /elem_of_cons [-> | Hin]; last exact: Hgone.
      rewrite Hk //= lookup_delete_eq //.
    + move=> k Hkn. rewrite Hk /= ?lookup_delete_ne //; set_solver.
    + by rewrite Hka.
    + rewrite Hlive /= release_live. set_solver.
Qed.

Lemma delete_all_ok s ls :
  dlist s ls ->
  exists s', delete_all s = Ok (tt, s') /\
    (forall l, l ∈ ls.*1 -> nodes (hp s') !! l = None) /\
    kept (fun k => k ∈ ls.*1) s s' /\
    live (allocs (hp s')) = live (allocs (hp s)) ∖ list_to_set ls.*1.
Proof.
  move=> [Hseg [Hnd [_ [Hf [_ [_ Hac]]]]]].
  rewrite /delete_all Hf. apply: delete_loop => //.
  pose proof (dseg_size _ _ _ _ Hnd Hseg). lia.
Qed.

Lemma clear_ok s ls :
  dlist s ls ->
  exists s', clear s = Ok (tt, s') /\ dlist s' [] /\
    (forall l, l ∈ ls.*1 -> nodes (hp s') !! l = None) /\
    kept (fun k => k ∈ ls.*1) s s' /\
    live (allocs (hp s')) = live (allocs (hp s)) ∖ list_to_set ls.*1.
Proof.
  move=> Hs. destruct (delete_all_ok _ _ Hs) as (s' & E & Hgone & [Hk Hka] & Hlive).
  rewrite /clear (bind_ok _ _ _ _ _ E). eexists; split; [done|]. split; [|split; [done | split; [done|done]]].
  split; [done | split; [constructor | split; [set_solver | split; [done | split; [done | split; [done|]]]]]].
  rewrite /= Hka. apply Hs.
Qed.

(** ** Walking along the links *)

Lemma next_node_ok s q ls i :
  dseg (nodes (hp s)) q ls None -> (i <= length ls)%nat ->
  next_node (head_ptr ls None) i s = Ok (head_ptr (drop i ls) None, s).
Proof.
  elim: i q ls => [|i IH] q [|[l x] tl] //= Hseg Hi; try lia.
  destruct Hseg as [Hl Ht].
  rewrite /bind /get_node /= Hl. apply: IH Ht _. lia.
Qed.

Lemma next_node_panics s q ls i :
  dseg (nodes (hp s)) q ls None -> (length ls < i)%nat -> next_node (head_ptr ls None) i s = Panic.
Proof.
  elim: i q ls => [|i IH] q [|[l x] tl] //= Hseg Hi; try lia.
  destruct Hseg as [Hl Ht].
  rewrite /bind /get_node /= Hl. apply: IH Ht _. lia.
Qed.

Lemma prev_node_ok s ls r i :
  dseg (nodes (hp s)) None ls r -> (i <= length ls)%nat ->
  prev_node (last_ptr None ls) i s = Ok (last_ptr None (take (length ls - i) ls), s).
Proof.
  elim: i ls r => [|i IH] ls r Hseg Hi; first by rewrite /= Nat.sub_0_r firstn_all.
  destruct ls as [|[l x] init _] using rev_ind; simpl in Hi; first lia.
  rewrite length_app /= in Hi |- *. rewrite last_ptr_app /=.
  apply dseg_app in Hseg as [Hi' [Hl _]].
  rewrite /bind /get_node /= Hl /= (IH _ _ Hi'); first lia.
  rewrite take_app_le; first lia. do 3 f_equal. f_equal. lia.
Qed.

(** ** The operations and what they do to a sequence *)

Inductive op : Type :=
  | PushFront (x : T)
  | PushBack (x : T)
  | PopFront
  | PopBack
  | RemoveNode (l : loc)
  | Clear.

Definition no_result (m : M (list_st T A) unit) : M (list_st T A) ptr := m;; ret None.

Definition run (o : op) : M (list_st T A) ptr :=
  match o with
  | PushFront x => push_front x
  | PushBack x => push_back x
  | PopFront => no_result pop_front
  | PopBack => no_result pop_back
  | RemoveNode l => no_result (remove (Some l))
  | Clear => no_result clear
  end.

Inductive step : op -> seq -> ptr -> seq -> Prop :=
  | step_front x l ls : l ∉ ls.*1 -> step (PushFront x) ls (Some l) ((l, x) :: ls)
  | step_front_full x ls : step (PushFront x) ls None ls
  | step_back x l ls : l ∉ ls.*1 -> step (PushBack x) ls (Some l) (ls ++ [(l, x)])
  | step_back_full x ls : step (PushBack x) ls None ls
  | step_pop_front l x ls : step PopFront ((l, x) :: ls) None ls
  | step_pop_back l x ls : step PopBack (ls ++ [(l, x)]) None ls
  | step_remove l x a b : step (RemoveNode l) (a ++ (l, x) :: b) None (a ++ b)
  | step_clear ls : step Clear ls None [].

Lemma remove_ok s a b l x :
  dlist s (a ++ (l, x) :: b) ->
  exists s', remove (Some l) s = Ok (tt, s') /\ dlist s' (a ++ b) /\
    kept (fun k => k ∈ (a ++ (l, x) :: b).*1) s s'.
Proof.
  move=> Hs. destruct (remove_node_ok _ _ _ _ _ Hs) as (s1 & E1 & H1 & Hn & _ & [Hk Hka]).
  destruct (unlink_shape l x a b) as [Hla [Hlb [_ _]]]; first by apply Hs.
  destruct (delete_node_ok _ _ _ _ H1 Hn) as (s2 & E2 & H2 & Hns & Hac);
    first by rewrite fmap_app; set_solver.
  exists s2. rewrite /remove (bind_ok _ _ _ _ _ E1). split; [done | split; [done | split]].
  - move=> k Hin. rewrite !fmap_app /= in Hk Hin. rewrite Hns lookup_delete_ne; first set_solver.
    apply Hk. set_solver.
  - by rewrite Hac.
Qed.

Lemma push_front_ok s ls x :
  dlist s ls ->
  exists r s' ls', push_front x s = Ok (r, s') /\ step (PushFront x) ls r ls' /\ dlist s' ls' /\
    kept (fun k => k ∈ ls.*1 \/ r = Some k) s s'.
Proof.
  move=> Hs. destruct (alloc_node_ok s ls x Hs) as (r & s1 & E & H1 & [Hk1 Ha1] & Hr).
  rewrite /push_front (bind_ok _ _ _ _ _ E). destruct r as [l|]; last first.
  { exists None, s1, ls. split; [done | split; [constructor | split; [done | split; [|done]]]]. auto. }
  destruct Hr as [Hf Hnew]. destruct (prepend_first _ _ _ _ H1 Hf Hnew) as (s2 & E2 & H2 & [Hk2 Ha2]).
  exists (Some l), s2, ((l, x) :: ls). rewrite /= /bind /get_first E2.
  split; [done | split; [by constructor | split; [done | split; [|by rewrite Ha2]]]].
  move=> k Hk. rewrite Hk2 ?Hk1 //; naive_solver.
Qed.

Lemma push_back_ok s ls x :
  dlist s ls ->
  exists r s' ls', push_back x s = Ok (r, s') /\ step (PushBack x) ls r ls' /\ dlist s' ls' /\
    kept (fun k => k ∈ ls.*1 \/ r = Some k) s s'.
Proof.
  move=> Hs. destruct (alloc_node_ok s ls x Hs) as (r & s1 & E & H1 & [Hk1 Ha1] & Hr).
  rewrite /push_back (bind_ok _ _ _ _ _ E). destruct r as [l|]; last first.
  { exists None, s1, ls. split; [done | split; [constructor | split; [done | split; [|done]]]]. auto. }
  destruct Hr as [Hf Hnew]. destruct (append_last _ _ _ _ H1 Hf Hnew) as (s2 & E2 & H2 & [Hk2 Ha2]).
  exists (Some l), s2, (ls ++ [(l, x)]). rewrite /= /bind /get_last E2.
  split; [done | split; [by constructor | split; [done | split; [|by rewrite Ha2]]]].
  move=> k Hk. rewrite Hk2 ?Hk1 //; naive_solver.
Qed.

(** The operations may be called with nodes of the list. *)
Definition enabled (o : op) ls : Prop := match o with RemoveNode l => l ∈ ls.*1 | _ => True end.

Lemma elem_split ls l : l ∈ ls.*1 -> exists a x b, ls = a ++ (l, x) :: b.
Proof.
  move=> Hl. apply list_elem_of_fmap in Hl as [[k x] [-> Hin]].
  apply list_elem_of_split in Hin as (a & b & ->). by exists a, x, b.
Qed.

(** What a run of [o] on a list of the nodes [ls] may do *)
Definition refines (o : op) s ls (out : outcome (ptr * list_st T A)) : Prop :=
  match out with
  | Ok (r, s') => exists ls', step o ls r ls' /\ dlist s' ls' /\ kept (fun k => k ∈ ls.*1 \/ r = Some k) s s'
  | Panic => (o = PopFront \/ o = PopBack) /\ ls = []
  | _ => False
  end.

Lemma refines_remove o s a b l x :
  dlist s (a ++ (l, x) :: b) -> step o (a ++ (l, x) :: b) None (a ++ b) ->
  refines o s (a ++ (l, x) :: b) (no_result (remove (Some l)) s).
Proof.
  move=> Hs Ho. destruct (remove_ok _ _ _ _ _ Hs) as (s' & E & H' & [Hk Ha]).
  rewrite /no_result (bind_ok _ _ _ _ _ E) /=.
  exists (a ++ b). split; [done | split; [done | split; [|done]]]. move=> k Hn. apply Hk. tauto.
Qed.

Lemma run_refines o s ls : dlist s ls -> enabled o ls -> refines o s ls (run o s).
Proof.
  move=> Hs He. destruct o as [x|x| | |l|].
  - destruct (push_front_ok s ls x Hs) as (r & s' & ls' & E & ?). rewrite /run E /=. eauto.
  - destruct (push_back_ok s ls x Hs) as (r & s' & ls' & E & ?). rewrite /run E /=. eauto.
  - pose proof (proj1 (proj2 (proj2 (proj2 Hs)))) as Hf.
    rewrite /run /no_result /pop_front bind_assoc (bind_ok _ _ s (_first s) s) // Hf.
    destruct ls as [|[l x] tl]; first by split; [left|].
    exact: (refines_remove PopFront s [] tl l x Hs (step_pop_front _ _ _)).
  - pose proof (proj1 (proj2 (proj2 (proj2 (proj2 Hs))))) as Hl.
    rewrite /run /no_result /pop_back bind_assoc (bind_ok _ _ s (_last s) s) // Hl.
    destruct ls as [|[l x] init _] using rev_ind; first by split; [right|].
    rewrite last_ptr_app. apply (refines_remove PopBack s init [] l x Hs).
    rewrite app_nil_r. constructor.
  - destruct (elem_split ls l He) as (a & x & b & ->).
    apply: refines_remove => //. constructor.
  - destruct (clear_ok _ _ Hs) as (s' & E & H' & _ & [Hk Ha] & _).
    rewrite /run /no_result (bind_ok _ _ _ _ _ E) /=. exists []. split; [constructor | split; [done|]].
    split; [|done]. move=> k Hn. apply Hk. tauto.
Qed.

(** ** Iterators *)

(** [n] increments of an iterator *)
Fixpoint advance (n : nat) (it : Iterator) : M (list_st T A) Iterator :=
  match n with O => ret it | Datatypes.S n => it <- iter_inc it; advance n it end.

Definition value_at (first : M (list_st T A) Iterator) (n : nat) : M (list_st T A) T :=
  it <- first; it <- advance n it; iter_deref it.

Lemma advance_forward s q ls id n :
  dseg (nodes (hp s)) q ls None -> (n <= length ls)%nat ->
  advance n (mkIter (head_ptr ls None) id Forward) s = Ok (mkIter (head_ptr (drop n ls) None) id Forward, s).
Proof.
  elim: n q ls => [|n IH] q [|[l x] tl] //= Hseg Hn; try lia.
  destruct Hseg as [Hl Ht]. rewrite /bind /iter_inc /= /bind /get_node Hl /=.
  apply: IH Ht _. lia.
Qed.

Lemma advance_reversed s ls r id n :
  dseg (nodes (hp s)) None ls r -> (n <= length ls)%nat ->
  advance n (mkIter (last_ptr None ls) id Reversed) s =
    Ok (mkIter (last_ptr None (take (length ls - n) ls)) id Reversed, s).
Proof.
  elim: n ls r => [|n IH] ls r Hseg Hn; first by rewrite /= Nat.sub_0_r firstn_all.
  destruct ls as [|[l x] init _] using rev_ind; simpl in Hn; first lia.
  rewrite length_app /= in Hn |- *. rewrite last_ptr_app /=.
  apply dseg_app in Hseg as [Hi' [Hl _]].
  rewrite /bind /iter_inc /= /bind /get_node Hl /= (IH _ _ Hi'); first lia.
  rewrite take_app_le; first lia. do 4 f_equal. f_equal. lia.
Qed.

Lemma deref_ok s q l x r ls id d :
  dseg (nodes (hp s)) q ((l, x) :: ls) r -> iter_deref (mkIter (Some l) id d) s = Ok (x, s).
Proof. by move=> /= [Hl _]; rewrite /iter_deref /= /bind /get_node Hl. Qed.

Lemma iterators_visit s ls id n :
  dlist s ls -> (n <= length ls)%nat ->
  value_at (begin id) n s = match ls.*2 !! n with Some x => Ok (x, s) | None => Panic end /\
  value_at (begin_reversed id) n s = match (reverse ls.*2) !! n with Some x => Ok (x, s) | None => Panic end.
Proof.
  move=> [Hseg [Hnd [_ [Hf [Hl _]]]]] Hn.
  rewrite /value_at /begin /begin_reversed. split.
  - rewrite (bind_ok _ _ s (mkIter (head_ptr ls None) id Forward) s); first by rewrite -Hf.
    rewrite (bind_ok _ _ _ _ _ (advance_forward _ _ _ _ _ Hseg Hn)).
    rewrite -(take_drop n ls) in Hseg. apply dseg_app in Hseg as [_ Hd].
    rewrite list_lookup_fmap -{2}(Nat.add_0_r n) -lookup_drop.
    destruct (drop n ls) as [|[l x] tl]; first done. exact: deref_ok Hd.
  - rewrite (bind_ok _ _ s (mkIter (last_ptr None ls) id Reversed) s); first by rewrite -Hl.
    rewrite (bind_ok _ _ _ _ _ (advance_reversed _ _ _ _ _ Hseg Hn)).
    case: (decide (n = length ls)) => [->|Hne].
    + rewrite Nat.sub_diag /= lookup_ge_None_2 //. rewrite length_reverse length_fmap. lia.
    + rewrite reverse_lookup; first by rewrite length_fmap; lia.
      rewrite length_fmap list_lookup_fmap.
      destruct (lookup_lt_is_Some_2 ls (length ls - Datatypes.S n)) as [[l x] Hx]; first lia.
      rewrite Hx /=. rewrite (_ : length ls - n = Datatypes.S (length ls - Datatypes.S n))%nat; first lia.
      rewrite (take_S_r _ _ _ Hx) last_ptr_app /=.
      rewrite -(take_drop_middle _ _ _ Hx) in Hseg. apply dseg_app in Hseg as [_ Hd].
      exact: deref_ok Hd.
Qed.

Lemma empty_ok h al : dlist (empty_list h (Some al)) [].
Proof. split; [done | split; [constructor | split; [set_solver | repeat split; by eauto]]]. Qed.

End Represent.

(** ** A concrete allocator: at most four nodes at a time *)

Section Concrete.

#[local] Instance four : Allocator (gset loc) := {
  alloc _ a := if bool_decide (base.size a < 4)%nat then (Some (fresh a), {[fresh a]} ∪ a) else (None, a);
  release _ l a := a ∖ {[l]}
}.

#[local] Instance four_laws : AllocatorLaws (gset loc).
Proof.
  refine {| live := fun a => a |}.
  - move=> _ a l a' /=. case: bool_decide => // - [<- <-]. split; [exact: is_fresh | done].
  - move=> _ a a' /=. by case: bool_decide => // - [<-].
  - done.
Defined.

Definition start : list_st Z (gset loc) := empty_list (mkHeap ∅ ∅) (Some 1%positive).

(** The list of 10, 20, 30 *)
Definition three : M (list_st Z (gset loc)) ptr := push_back 20;; push_back 30;; push_front 10.

(** A list of three nodes as a state *)
Definition s3 : list_st Z (gset loc) :=
  mkList (mkHeap {[1%positive := mkNode None (Some 2%positive) 10;
                   2%positive := mkNode (Some 1%positive) (Some 3%positive) 20;
                   3%positive := mkNode (Some 2%positive) None 30]} {[1%positive; 2%positive; 3%positive]})
    (Some 1%positive) (Some 3%positive) 3 (Some 1%positive).

Definition ls3 : list (loc * Z)%type := [(1%positive, 10); (2%positive, 20); (3%positive, 30)].

Lemma s3_ok : dlist s3 ls3.
Proof.
  split; [by vm_compute|]. split; [by apply (bool_decide_unpack _); vm_compute|].
  split; [by rewrite /ls3 /s3 /=; set_solver|]. repeat split; by eauto.
Qed.

(** C23: on a list that represents a sequence, with an allocator that hands out
    unused addresses, the operations of [List] do what the same operations do
    on the sequence of (node, value) pairs: push at either end (or nothing when
    memory runs out), pop, removal of a member, clearing.  The result
    represents the new sequence, nodes outside the list keep their contents,
    and the only failure is the assertion of a pop on an empty list. *)
Theorem list_refines {T A} `{AL : AllocatorLaws A} (o : op) (s : list_st T A) ls :
  dlist s ls -> enabled o ls -> refines o s ls (run o s).
Proof. exact: run_refines. Qed.

Lemma list_refines_witness :
  refines (PushBack 40) s3 ls3 (run (PushBack 40) s3) /\
  refines (RemoveNode 2) s3 ls3 (run (RemoveNode 2) s3) /\
  refines PopFront start [] (run PopFront start).
Proof.
  split; [|split].
  - exact (list_refines (PushBack 40) s3 ls3 s3_ok I).
  - apply (list_refines (RemoveNode 2) s3 ls3 s3_ok). apply list_elem_of_further, list_elem_of_here.
  - exact (list_refines PopFront start [] (empty_ok _ _) I).
Defined.

(** Iterating forward from [begin] and backward from [begin_reversed]
    visits the values of the list in order and in reverse order, and
    dereferencing after the last one panics. *)
Theorem iterators_correct {T A} `{AL : AllocatorLaws A} (s : list_st T A) ls id n :
  dlist s ls -> (n <= length ls)%nat ->
  value_at (begin id) n s = match ls.*2 !! n with Some x => Ok (x, s) | None => Panic end /\
  value_at (begin_reversed id) n s = match (reverse ls.*2) !! n with Some x => Ok (x, s) | None => Panic end.
Proof. exact: iterators_visit. Qed.

Lemma iterators_correct_witness :
  value_at (begin 0) 2 s3 = Ok (30, s3) /\ value_at (begin_reversed 0) 2 s3 = Ok (10, s3).
Proof. exact (iterators_correct s3 ls3 0 2 s3_ok (Nat.le_succ_diag_r 2)). Defined.

(** [insert_back] at an inner node leaves the forward link of the new node
    null, [insert_front] its backward link: iteration stops there. *)
Definition insert_after_first : M (list_st Z (gset loc)) Z :=
  f <- three; p <- _alloc_node 15; insert_back f p;; value_at (begin 0) 2.

Example insert_back_truncates :
  match (f <- three; p <- _alloc_node 15; insert_back f p;; value_at (begin 0) 1) start with
  | Ok (v, s) => v = 15 /\ _length s = 4
  | _ => False
  end /\ insert_after_first start = Panic.
Proof. split; by vm_compute. Qed.

Definition insert_before_last : M (list_st Z (gset loc)) Z :=
  three;; l <- last_node; p <- _alloc_node 25; insert_front l p;; value_at (begin_reversed 0) 2.

Example insert_front_truncates : insert_before_last start = Panic.
Proof. by vm_compute. Qed.

(** The comparison of an iterator with a node does not depend on the iterator. *)
Lemma eq_node_constant it p : iter_eq_node it p = true /\ iter_ne_node it p = false.
Proof. by rewrite /iter_eq_node /iter_ne_node ptr_eqb_refl. Qed.

End Concrete.

End KListT.
