(* ===== verification/Fs.v ===== *)
(** * The virtual file system

    kernel/fs/file.cc, kernel/fs/fs.cc and kernel/fs/rootfs.cc.  File nodes
    and file control blocks live on a heap; the hash map of a directory is a
    finite map from names to nodes, and the names of linked nodes are taken to
    stay as they were when the node was linked (the map's keys are views of
    the node's name buffer).  The operations of a file system are a record of
    function pointers, any of which may be null.  Memory comes from an
    interface ([Memory]). *)

From S2P Require Import Prelude MemConf.
Import MemConf.

Module Fs.

Abbreviation name := (list Z).

(** [fs_filetype_t] *)
Inductive fs_filetype_t : Type :=
  | FS_FILETYPE_FILE
  | FS_FILETYPE_DIR
  | FS_FILETYPE_LINK
  | FS_FILETYPE_BLKDEV
  | FS_FILETYPE_CHARDEV
  | FS_FILETYPE_PIPE
  | FS_FILETYPE_SOCKET.

(** [fs_fnode_t] and [fs_dir_t]; a name is [None] for the null pointer. *)
Record fs_fnode_t := mkFnode {
  ref_count : Z;
  parent : ptr;
  fs : loc;
  file_type : fs_filetype_t;
  filename : option name;
  exdata : Z;
  subnodes : gmap name loc
}.

(** [fs_fcb_t] *)
Record fs_fcb_t := mkFcb { fnode : ptr; fcb_exdata : Z }.

(** [fs_file_system_t]; its operations are those of a table. *)
Record fs_file_system_t := mkFs { fs_name : name; fs_ops : Z }.

(** The kernel heap: blocks for objects, blocks for names with what they hold
    before they are written, and the memory of hash maps *)
Class Memory (W : Type) := {
  kalloc : W -> ptr * W;
  kfree : loc -> W -> W;
  name_alloc : Z -> W -> option name * W;
  name_realloc : Z -> W -> bool * W;
  name_free : W -> W;
  map_grow : W -> bool * W;
  map_shrink : W -> bool * W
}.

Record fs_st (W : Type) := mkSt {
  fnodes : gmap loc fs_fnode_t;
  fcbs : gmap loc fs_fcb_t;
  file_systems : gmap loc fs_file_system_t;
  ki_registered_fs : gmap name loc;
  fs_abs_root_dir : ptr;
  mem : W
}.
Arguments mkSt {W}.
Arguments fnodes {W}.
Arguments fcbs {W}.
Arguments file_systems {W}.
Arguments ki_registered_fs {W}.
Arguments fs_abs_root_dir {W}.
Arguments mem {W}.

(** [fs_file_system_ops_t], without the members that nothing calls (offload,
    close, ioctl, destructor); results that go through a pointer are [None] when
    nothing was written there. *)
Record fs_file_system_ops_t (S : Type) := mkOps {
  op_subnode : option (loc -> name -> M S (km_result_t * ptr));
  op_create_file : option (loc -> name -> M S (km_result_t * ptr));
  op_create_dir : option (loc -> name -> M S (km_result_t * ptr));
  op_open : option (loc -> M S (km_result_t * ptr));
  op_read : option (loc -> Z -> Z -> M S (km_result_t * list Z));
  op_write : option (loc -> list Z -> Z -> M S (km_result_t * Z));
  op_size : option (loc -> M S (km_result_t * Z));
  op_destroy : option (loc -> M S unit);
  op_premount : option (loc -> loc -> M S km_result_t);
  op_mount_fail : option (loc -> loc -> M S unit);
  op_unmount_cleanup : option (loc -> M S km_result_t)
}.
Arguments mkOps {S}.
Arguments op_subnode {S}.
Arguments op_create_file {S}.
Arguments op_create_dir {S}.
Arguments op_open {S}.
Arguments op_read {S}.
Arguments op_write {S}.
Arguments op_size {S}.
Arguments op_destroy {S}.
Arguments op_premount {S}.
Arguments op_mount_fail {S}.
Arguments op_unmount_cleanup {S}.

(** A call through a function pointer *)
Definition call {S A} (f : option (M S A)) : M S A := match f with Some m => m | None => fault end.

Section Ops.
Context {W : Type} `{Memory W}.

Abbreviation FM := (M (fs_st W)).

(** The tables of operations *)
Variable ops_table : Z -> fs_file_system_ops_t (fs_st W).

Definition set_fnodes (m : gmap loc fs_fnode_t) (s : fs_st W) : fs_st W :=
  mkSt m (fcbs s) (file_systems s) (ki_registered_fs s) (fs_abs_root_dir s) (mem s).
Definition set_fcbs (m : gmap loc fs_fcb_t) (s : fs_st W) : fs_st W :=
  mkSt (fnodes s) m (file_systems s) (ki_registered_fs s) (fs_abs_root_dir s) (mem s).
Definition set_mem (w : W) (s : fs_st W) : fs_st W :=
  mkSt (fnodes s) (fcbs s) (file_systems s) (ki_registered_fs s) (fs_abs_root_dir s) w.

Definition lift {A} (f : W -> A * W) : FM A := fun s => let '(a, w) := f (mem s) in Ok (a, set_mem w s).
Definition lift_free (f : W -> W) : FM unit := fun s => Ok (tt, set_mem (f (mem s)) s).

Definition get_fnode (p : ptr) : FM fs_fnode_t := fun s =>
  match p with
  | None => Fault
  | Some l => match fnodes s !! l with Some f => Ok (f, s) | None => Fault end
  end.
Definition put_fnode (l : loc) (f : fs_fnode_t) : FM unit := fun s =>
  match fnodes s !! l with Some _ => Ok (tt, set_fnodes (<[l := f]> (fnodes s)) s) | None => Fault end.
Definition get_fcb (l : loc) : FM fs_fcb_t := fun s =>
  match fcbs s !! l with Some f => Ok (f, s) | None => Fault end.
Definition put_fcb (l : loc) (f : fs_fcb_t) : FM unit := fun s =>
  match fcbs s !! l with Some _ => Ok (tt, set_fcbs (<[l := f]> (fcbs s)) s) | None => Fault end.
Definition get_root : FM ptr := fun s => Ok (fs_abs_root_dir s, s).

(** [fnode->fs->ops] *)
Definition ops_of (f : fs_fnode_t) : FM (fs_file_system_ops_t (fs_st W)) := fun s =>
  match file_systems s !! fs f with Some y => Ok (ops_table (fs_ops y), s) | None => Fault end.

Definition set_ref (c : Z) (f : fs_fnode_t) : fs_fnode_t :=
  mkFnode c (parent f) (fs f) (file_type f) (filename f) (exdata f) (subnodes f).
Definition set_filename (x : option name) (f : fs_fnode_t) : fs_fnode_t :=
  mkFnode (ref_count f) (parent f) (fs f) (file_type f) x (exdata f) (subnodes f).
Definition set_subnodes (m : gmap name loc) (f : fs_fnode_t) : fs_fnode_t :=
  mkFnode (ref_count f) (parent f) (fs f) (file_type f) (filename f) (exdata f) m.

(** The key of a node: a view of its name *)
Definition view (f : fs_fnode_t) : name := default [] (filename f).

(** ** Names *)

Definition ki_do_unname_fnode (file : loc) : FM unit :=
  f <- get_fnode (Some file);
  match filename f with
  | Some _ => lift_free name_free;; put_fnode file (set_filename None f)
  | None => ret tt
  end.

Definition ki_do_rename_fnode (file : loc) (nm : name) : FM km_result_t :=
  kd_assert (negb (Z.of_nat (length nm) =? 0));;
  f <- get_fnode (Some file);
  ok <- match filename f with
        | Some _ => lift (name_realloc (Z.of_nat (length nm)))
        | None => x <- lift (name_alloc (Z.of_nat (length nm))); ret (match x with Some _ => true | None => false end)
        end;
  if negb ok then ret KM_RESULT_NO_MEM
  else put_fnode file (set_filename (Some nm) f);; ret KM_RESULT_OK.

Definition fs_unname_fnode (file : loc) : FM unit := ki_do_unname_fnode file.

Definition fs_rename_fnode (file : loc) (nm : name) : FM km_result_t :=
  f <- get_fnode (Some file);
  if nonnull (parent f) then panic else ki_do_rename_fnode file nm.

Definition fs_name_of_fnode (file : loc) : FM (option name) :=
  f <- get_fnode (Some file); ret (filename f).

(** ** References *)

Definition fs_ref_fnode (l : loc) : FM unit :=
  f <- get_fnode (Some l); put_fnode l (set_ref (w64 (ref_count f + 1)) f).

(** [destroy_and_release] of a node without its subnodes *)
Definition release_fnode (l : loc) : FM unit :=
  ki_do_unname_fnode l;;
  (fun s => Ok (tt, set_fnodes (delete l (fnodes s)) s));;
  lift_free (kfree l).

Definition call_destroy (l : loc) : FM unit :=
  f <- get_fnode (Some l);
  o <- ops_of f;
  call (option_map (fun d => d l) (op_destroy o)).

(** [fs_unref_fnode] and [ki_destroy_fnode]; [n] bounds the nesting of
    directories that are destroyed.  The subnodes of a directory are released
    in the order of the map's entries. *)
Fixpoint unref_fnode (n : nat) (l : loc) : FM unit :=
  f <- get_fnode (Some l);
  let c := w64 (ref_count f - 1) in
  put_fnode l (set_ref c f);;
  if negb (c =? 0) then ret tt
  else
    match n with
    | O => fun _ => NoFuel
    | Datatypes.S n' =>
        let as_dir :=
          call_destroy l;;
          d <- get_fnode (Some l);
          fold_right (fun e k => unref_fnode n' (snd e);; k) (ret tt) (map_to_list (subnodes d));;
          release_fnode l;;
          panic in
        match file_type f with
        | FS_FILETYPE_FILE => call_destroy l;; release_fnode l;; as_dir
        | FS_FILETYPE_DIR => as_dir
        | _ => panic
        end
    end.

Definition fs_unref_fnode (l : loc) : FM unit := fun s =>
  unref_fnode (Datatypes.S (size (fnodes s))) l s.

(** [FNodePtr]: assignment of a pointer that may be null, and release *)
Definition ref_ptr (p : ptr) : FM unit := match p with Some l => fs_ref_fnode l | None => ret tt end.
Definition reset_ptr (p : ptr) : FM unit := match p with Some l => fs_unref_fnode l | None => ret tt end.

(** ** Nodes *)

Definition new_fnode (file_system : loc) (t : fs_filetype_t) : FM (km_result_t * ptr) :=
  p <- lift kalloc;
  match p with
  | None => ret (KM_RESULT_NO_MEM, None)
  | Some l =>
      (fun s => Ok (tt, set_fnodes (<[l := mkFnode 0 None file_system t None 0 ∅]> (fnodes s)) s));;
      fs_ref_fnode l;;
      ret (KM_RESULT_OK, Some l)
  end.

Definition fs_alloc_file_fnode (file_system : loc) : FM (km_result_t * ptr) := new_fnode file_system FS_FILETYPE_FILE.
Definition fs_alloc_dir_fnode (file_system : loc) : FM (km_result_t * ptr) := new_fnode file_system FS_FILETYPE_DIR.

Definition fs_get_fnode_exdata (file : loc) : FM Z := f <- get_fnode (Some file); ret (exdata f).
Definition fs_set_fnode_exdata (file : loc) (x : Z) : FM unit :=
  f <- get_fnode (Some file);
  put_fnode file (mkFnode (ref_count f) (parent f) (fs f) (file_type f) (filename f) x (subnodes f)).

Definition fs_create_file (dir : loc) (nm : name) : FM (km_result_t * ptr) :=
  f <- get_fnode (Some dir); o <- ops_of f; call (option_map (fun g => g dir nm) (op_create_file o)).
Definition fs_create_dir (dir : loc) (nm : name) : FM (km_result_t * ptr) :=
  f <- get_fnode (Some dir); o <- ops_of f; call (option_map (fun g => g dir nm) (op_create_dir o)).

(** ** The tree of nodes *)

(** [subnodes.insert(view of file, file)]; the entry holds a reference. *)
Definition insert_subnode (dir file : loc) : FM bool :=
  f <- get_fnode (Some file);
  fs_ref_fnode file;;
  ok <- lift map_grow;
  if ok then
    d <- get_fnode (Some dir);
    put_fnode dir (set_subnodes (<[view f := file]> (subnodes d)) d);; ret true
  else fs_unref_fnode file;; ret false.

Definition fs_mount_file (dir file : loc) : FM km_result_t :=
  f <- get_fnode (Some file);
  match file_type f with
  | FS_FILETYPE_DIR =>
      if negb (bool_decide (subnodes f = ∅)) then ret KM_RESULT_DIR_NOT_EMPTY
      else
        ok <- lift map_shrink;
        if negb ok then ret KM_RESULT_NO_MEM
        else
          p <- get_fnode (Some dir);
          o <- ops_of p;
          r <- call (option_map (fun g => g dir file) (op_premount o));
          if KM_FAILED r then ret r
          else
            ok <- insert_subnode file file;
            if ok then ret KM_RESULT_OK
            else call (option_map (fun g => g dir file) (op_mount_fail o));; ret KM_RESULT_NO_MEM
  | _ => ret KM_RESULT_UNSUPPORTED_OPERATION
  end.

Definition fs_unmount_file (file : loc) : FM km_result_t :=
  f <- get_fnode (Some file);
  p <- get_fnode (parent f);
  o <- ops_of p;
  r <- call (option_map (fun g => g file) (op_unmount_cleanup o));
  if KM_FAILED r then ret r
  else
    f <- get_fnode (Some file);
    kd_assert (nonnull (parent f));;
    p <- get_fnode (parent f);
    match parent f with
    | Some d =>
        match subnodes p !! view f with
        | Some l => put_fnode d (set_subnodes (delete (view f) (subnodes p)) p);; fs_unref_fnode l
        | None => ret tt
        end
    | None => ret tt
    end;;
    ret KM_RESULT_OK.

Definition fs_link_subnode (dir file : loc) : FM km_result_t :=
  p <- get_fnode (Some dir);
  match file_type p with
  | FS_FILETYPE_DIR =>
      f <- get_fnode (Some file);
      match subnodes p !! view f with
      | Some _ => ret KM_RESULT_EXISTED
      | None =>
          ok <- insert_subnode dir file;
          ret (if ok then KM_RESULT_OK else KM_RESULT_NO_MEM)
      end
  | _ => ret KM_RESULT_UNSUPPORTED_OPERATION
  end.

Definition fs_child_of (file : ptr) (nm : name) : FM (km_result_t * ptr) :=
  match file with
  | None => ret (KM_RESULT_NOT_FOUND, None)
  | Some d =>
      f <- get_fnode file;
      match file_type f with
      | FS_FILETYPE_DIR =>
          match subnodes f !! nm with
          | Some l =>
              fs_ref_fnode l;;
              fs_ref_fnode l;;
              fs_unref_fnode l;;
              ret (KM_RESULT_OK, Some l)
          | None => o <- ops_of f; call (option_map (fun g => g d nm) (op_subnode o))
          end
      | _ => ret (KM_RESULT_UNSUPPORTED_OPERATION, None)
      end
  end.

(** ** Paths *)

Definition SLASH : Z := 47.

Definition slice (path : list Z) (from len : Z) : name := take (Z.to_nat len) (drop (Z.to_nat from) path).

(** The locals of [fs_resolve_path]: the index of [i], the index of
    [last_divider], and the two node pointers *)
Record cursor := mkCur { idx : Z; last_divider : Z; file : ptr; new_file : ptr }.

(** Leaving the function: the pointers are released, [new_file] first. *)
Definition leave (c : cursor) (r : km_result_t) : FM (km_result_t * ptr) :=
  reset_ptr (new_file c);; reset_ptr (file c);; ret (r, None).

(** [fs_child_of(file.get(), last_divider, len, new_file.get_addr())]: the new
    cursor, or the result to return *)
Definition enter_child (path : list Z) (c : cursor) : FM (cursor + km_result_t * ptr) :=
  match file c with
  | None => x <- leave c KM_RESULT_NOT_FOUND; ret (inr x)
  | Some _ =>
      reset_ptr (new_file c);;
      '(r, out) <- fs_child_of (file c) (slice path (last_divider c) (idx c - last_divider c));
      let c' := mkCur (idx c) (last_divider c) (file c) out in
      if KM_FAILED r then x <- leave c' r; ret (inr x) else ret (inl c')
  end.

(** A divider: the name before it, if there is one, is entered. *)
Definition at_divider (path : list Z) (c : cursor) : FM (cursor + km_result_t * ptr) :=
  x <- (if idx c - last_divider c =? 0 then
          if last_divider c =? 0 then
            reset_ptr (new_file c);;
            root <- get_root;
            ref_ptr root;;
            ret (inl (mkCur (idx c) (last_divider c) (file c) root))
          else ret (inl c)
        else enter_child path c);
  match x with
  | inr y => ret (inr y)
  | inl c =>
      reset_ptr (file c);;
      match new_file c with
      | None => fault
      | Some l => fs_ref_fnode l
      end;;
      ret (inl (mkCur (idx c) (idx c + 1) (new_file c) (new_file c)))
  end.

(** A round of the loop over the path *)
Definition path_round (path : list Z) (c : cursor) : FM (cursor + (cursor + km_result_t * ptr)) :=
  match path !! Z.to_nat (idx c) with
  | None => ret (inr (inl c))
  | Some ch =>
      if ch =? 0 then ret (inr (inl c))
      else
        x <- (if ch =? SLASH then at_divider path c else ret (inl c));
        match x with
        | inr y => ret (inr (inr y))
        | inl c => ret (inl (mkCur (idx c + 1) (last_divider c) (file c) (new_file c)))
        end
  end.

Definition fs_resolve_path (cur_dir : ptr) (path : list Z) : FM (km_result_t * ptr) :=
  ref_ptr cur_dir;;
  x <- loop (Datatypes.S (length path)) (path_round path) (mkCur 0 0 cur_dir None);
  match x with
  | inr y => ret y
  | inl c =>
      x <- (if idx c - last_divider c =? 0 then ret (inl c) else enter_child path c);
      match x with
      | inr y => ret y
      | inl c => reset_ptr (file c);; ret (KM_RESULT_OK, new_file c)
      end
  end.

(** ** File control blocks *)

Definition ki_alloc_fcb (file_in : loc) : FM (km_result_t * ptr) :=
  p <- lift kalloc;
  match p with
  | None => ret (KM_RESULT_NO_MEM, None)
  | Some l =>
      fs_ref_fnode file_in;;
      (fun s => Ok (tt, set_fcbs (<[l := mkFcb (Some file_in) 0]> (fcbs s)) s));;
      fs_unref_fnode file_in;;
      fs_ref_fnode file_in;;
      ret (KM_RESULT_OK, Some l)
  end.

(** The body is empty: control reaches the end of a function that has to
    return a value, which is undefined. *)
Definition fs_create_fcb (file : loc) : FM (km_result_t * ptr) := fault.

Definition fs_file_of_fcb (fcb : loc) : FM ptr := f <- get_fcb fcb; ret (fnode f).
Definition fs_get_fcb_exdata (fcb : loc) : FM Z := f <- get_fcb fcb; ret (fcb_exdata f).
Definition fs_set_fcb_exdata (fcb : loc) (x : Z) : FM unit :=
  f <- get_fcb fcb; put_fcb fcb (mkFcb (fnode f) x).

Definition ki_destroy_fcb (fcb : loc) : FM unit :=
  f <- get_fcb fcb;
  if nonnull (fnode f) then panic
  else (fun s => Ok (tt, set_fcbs (delete fcb (fcbs s)) s));; lift_free (kfree fcb).

Definition fs_close (fcb : loc) : FM km_result_t :=
  f <- get_fcb fcb;
  reset_ptr (fnode f);;
  put_fcb fcb (mkFcb None (fcb_exdata f));;
  ki_destroy_fcb fcb;;
  ret KM_RESULT_OK.

Definition fs_open (base_dir : ptr) (path : list Z) : FM (km_result_t * ptr) :=
  '(r, file) <- fs_resolve_path base_dir path;
  if KM_FAILED r then ret (r, None)
  else
    f <- get_fnode file;
    o <- ops_of f;
    x <- call (match file with Some l => option_map (fun g => g l) (op_open o) | None => None end);
    reset_ptr file;;
    ret x.

(** [fcb->fnode->fs->ops] *)
Definition fcb_ops (fcb : loc) : FM (fs_file_system_ops_t (fs_st W)) :=
  f <- get_fcb fcb; n <- get_fnode (fnode f); ops_of n.

Definition fs_read (fcb : loc) (size off : Z) : FM (km_result_t * list Z) :=
  o <- fcb_ops fcb; call (option_map (fun g => g fcb size off) (op_read o)).
Definition fs_write (fcb : loc) (src : list Z) (off : Z) : FM (km_result_t * Z) :=
  o <- fcb_ops fcb; call (option_map (fun g => g fcb src off) (op_write o)).
Definition fs_size (fcb : loc) : FM (km_result_t * Z) :=
  o <- fcb_ops fcb; call (option_map (fun g => g fcb) (op_size o)).

(** ** File systems *)

(** The buffer for the name is never written: the name is what was there. *)
Definition fs_register_file_system (name_len : Z) (ops : Z) : FM ptr :=
  p <- lift kalloc;
  match p with
  | None => ret None
  | Some l =>
      nm <- lift (name_alloc name_len);
      match nm with
      | None => lift_free (kfree l);; ret None
      | Some nm =>
          ok <- lift map_grow;
          if negb ok then lift_free name_free;; lift_free (kfree l);; ret None
          else fun s => Ok (Some l, mkSt (fnodes s) (fcbs s) (<[l := mkFs nm ops]> (file_systems s))
                                      (<[nm := l]> (ki_registered_fs s)) (fs_abs_root_dir s) (mem s))
      end
  end.

(** [ki_fs_init], with the table of the root file system at [rootfs_ops] *)
Definition ki_fs_init (rootfs_ops : Z) : FM unit :=
  p <- fs_register_file_system 6 rootfs_ops;
  match p with
  | None => panic
  | Some fs_rootfs =>
      '(r, d) <- fs_alloc_dir_fnode fs_rootfs;
      if KM_FAILED r then panic
      else fun s => Ok (tt, mkSt (fnodes s) (fcbs s) (file_systems s) (ki_registered_fs s) d (mem s))
  end.

(** ** The root file system *)

Definition ki_rootfs_subnode (dir : loc) (nm : name) : FM (km_result_t * ptr) := ret (KM_RESULT_NOT_FOUND, None).
Definition ki_rootfs_create_file (dir : loc) (nm : name) : FM (km_result_t * ptr) :=
  ret (KM_RESULT_UNSUPPORTED_OPERATION, None).
Definition ki_rootfs_create_dir (dir : loc) (nm : name) : FM (km_result_t * ptr) :=
  ret (KM_RESULT_UNSUPPORTED_OPERATION, None).
Definition ki_rootfs_open (file : loc) : FM (km_result_t * ptr) :=
  '(r, fcb) <- fs_create_fcb file;
  if KM_FAILED r then ret (r, None) else ret (KM_RESULT_OK, fcb).
Definition ki_rootfs_read (fcb : loc) (size off : Z) : FM (km_result_t * list Z) :=
  ret (KM_RESULT_UNSUPPORTED_OPERATION, []).
Definition ki_rootfs_write (fcb : loc) (src : list Z) (off : Z) : FM (km_result_t * Z) :=
  ret (KM_RESULT_UNSUPPORTED_OPERATION, 0).
Definition ki_rootfs_size (fcb : loc) : FM (km_result_t * Z) := ret (KM_RESULT_UNSUPPORTED_OPERATION, 0).
Definition ki_rootfs_premount (dir file : loc) : FM km_result_t := ret KM_RESULT_OK.
Definition ki_rootfs_unmount_cleanup (file : loc) : FM km_result_t := ret KM_RESULT_OK.
Definition ki_rootfs_mountfail (dir file : loc) : FM unit := ret tt.

(** [create_dir] and [destroy] are not in the table. *)
Definition ki_rootfs_ops : fs_file_system_ops_t (fs_st W) :=
  mkOps (Some ki_rootfs_subnode) (Some ki_rootfs_create_file) None (Some ki_rootfs_open)
    (Some ki_rootfs_read) (Some ki_rootfs_write) (Some ki_rootfs_size) None
    (Some ki_rootfs_premount) (Some ki_rootfs_mountfail) (Some ki_rootfs_unmount_cleanup).

End Ops.
End Fs.
