(* ===== verification/FsPath.v ===== *)
(** * Path resolution

    What [fs_resolve_path] computes: the names between the dividers of the
    path, up to a null character, entered one after the other.  The node found
    gains one reference; all other references taken on the way are given
    back. *)

From S2P Require Import Prelude MemConf Fs.
Import MemConf Fs.

Module FsP.

#[local] Arguments fs_child_of : simpl never.
#[local] Arguments fs_ref_fnode : simpl never.
#[local] Arguments fs_unref_fnode : simpl never.
#[local] Arguments enter_child : simpl never.

(** ** References held on the way *)

Section Hold.
Context {W : Type}.
Implicit Types (s : fs_st W) (ls : list loc).

Definition count (l : loc) ls : Z := Z.of_nat (length (filter (fun k => k = l) ls)).

(** The state [s] with one more reference on each of [ls] *)
Definition hold ls s : fs_st W :=
  set_fnodes (map_imap (fun l f => Some (set_ref (ref_count f + count l ls) f)) (fnodes s)) s.

Lemma hold_nil s : hold [] s = s.
Proof.
  destruct s as [fn ? ? ? ? ?]. rewrite /hold /set_fnodes /=. f_equal. apply map_eq => l.
  rewrite map_lookup_imap. destruct (fn !! l) as [[]|]; rewrite /= /set_ref /count /=; [by rewrite Z.add_0_r | done].
Qed.

Lemma hold_lookup ls s l :
  fnodes (hold ls s) !! l = (fun f => set_ref (ref_count f + count l ls) f) <$> fnodes s !! l.
Proof. rewrite /hold /= map_lookup_imap. by destruct (fnodes s !! l). Qed.

Lemma hold_perm ls ls' s : ls ≡ₚ ls' -> hold ls s = hold ls' s.
Proof.
  move=> E. rewrite /hold. f_equal. apply map_eq => l. rewrite !map_lookup_imap.
  destruct (fnodes s !! l); rewrite //= /count. do 4 f_equal. by rewrite E.
Qed.

Lemma hold_put l ls ls' s f :
  fnodes s !! l = Some f -> (forall k, k <> l -> count k ls' = count k ls) ->
  set_fnodes (<[l := set_ref (ref_count f + count l ls') f]> (fnodes (hold ls s))) (hold ls s) = hold ls' s.
Proof.
  move=> Hf Hc. rewrite /hold /set_fnodes /=. f_equal. apply map_eq => k.
  destruct (decide (k = l)) as [->|Hk].
  - by rewrite lookup_insert_eq map_lookup_imap Hf.
  - rewrite lookup_insert_ne; [by auto|]. rewrite !map_lookup_imap.
    destruct (fnodes s !! k); rewrite //=. by rewrite Hc.
Qed.

Lemma count_cons_eq l ls : count l (l :: ls) = count l ls + 1.
Proof. rewrite /count filter_cons_True //=. lia. Qed.

Lemma count_cons_ne k l ls : k <> l -> count k (l :: ls) = count k ls.
Proof. move=> Hk. by rewrite /count filter_cons_False; [congruence|]. Qed.

Lemma count_bounds l ls : 0 <= count l ls <= Z.of_nat (length ls).
Proof. rewrite /count. pose proof (length_filter (fun k => k = l) ls). lia. Qed.

(** Every node is referred to, and no counter is about to overflow. *)
Definition counted s : Prop :=
  forall l f, fnodes s !! l = Some f -> 1 <= ref_count f < 2 ^ 64 - 4.

(** Entries lead to nodes. *)
Definition linked s : Prop :=
  (forall d f nm l, fnodes s !! d = Some f -> subnodes f !! nm = Some l -> is_Some (fnodes s !! l)) /\
  (forall r, fs_abs_root_dir s = Some r -> is_Some (fnodes s !! r)).

End Hold.

Section Run.
Context {W : Type} `{Memory W}.
Variable ops_table : Z -> fs_file_system_ops_t (fs_st W).
Variable s : fs_st W.
Hypothesis Hcount : counted s.

Lemma ref_hold l ls :
  is_Some (fnodes s !! l) -> (length ls <= 3)%nat -> fs_ref_fnode l (hold ls s) = Ok (tt, hold (l :: ls) s).
Proof.
  move=> [f Hf] Hlen. pose proof (Hcount _ _ Hf) as Hc. pose proof (count_bounds l ls) as Hb.
  rewrite /fs_ref_fnode /bind /get_fnode hold_lookup Hf /= /put_fnode hold_lookup Hf /=.
  rewrite w64_small; [by rewrite /in64; lia|]. f_equal. f_equal.
  rewrite -(hold_put l ls (l :: ls) s f Hf); [by move=> k Hk; rewrite count_cons_ne|].
  by rewrite count_cons_eq (Z.add_assoc _ _ 1).
Qed.

Lemma unref_hold l ls :
  is_Some (fnodes s !! l) -> (length ls <= 3)%nat ->
  fs_unref_fnode ops_table l (hold (l :: ls) s) = Ok (tt, hold ls s).
Proof.
  move=> [f Hf] Hlen. pose proof (Hcount _ _ Hf) as Hc. pose proof (count_bounds l ls) as Hb.
  rewrite /fs_unref_fnode /= /bind /get_fnode hold_lookup Hf /= /put_fnode hold_lookup Hf /=.
  rewrite count_cons_eq w64_small; [by rewrite /in64; lia|].
  rewrite (proj2 (Z.eqb_neq _ 0)); [lia|]. f_equal. f_equal.
  rewrite -(hold_put l (l :: ls) ls s f Hf); [by move=> k Hk; rewrite count_cons_ne|].
  by rewrite (_ : ref_count f + (count l ls + 1) - 1 = ref_count f + count l ls); [lia|].
Qed.

(** ** The specification *)

(** Directories without the name answer [missing], and change nothing: the
    case of file systems that keep their tree in memory. *)
Variable missing : loc -> name -> km_result_t.
Definition in_memory : Prop := forall d f nm,
  fnodes s !! d = Some f -> file_type f = FS_FILETYPE_DIR -> subnodes f !! nm = None ->
  KM_FAILED (missing d nm) = true /\
  exists y g, file_systems s !! fs f = Some y /\ op_subnode (ops_table (fs_ops y)) = Some g /\
    forall ls, g d nm (hold ls s) = Ok ((missing d nm, None), hold ls s).
Hypothesis Hmissing : in_memory.
Hypothesis Hlinked : linked s.

(** The names between the dividers, up to a null character *)
Fixpoint parts (cur : name) (path : list Z) : list name :=
  match path with
  | [] => [cur]
  | c :: tl =>
      if c =? 0 then [cur]
      else if c =? SLASH then cur :: parts [] tl
      else parts (cur ++ [c]) tl
  end.

Definition components (cur : name) (path : list Z) : list name := filter (fun n => n <> []) (parts cur path).

Definition child (d : loc) (nm : name) : loc + km_result_t :=
  match fnodes s !! d with
  | Some f =>
      match file_type f with
      | FS_FILETYPE_DIR => match subnodes f !! nm with Some l => inl l | None => inr (missing d nm) end
      | _ => inr KM_RESULT_UNSUPPORTED_OPERATION
      end
  | None => inr KM_RESULT_NOT_FOUND
  end.

Fixpoint enter (d : loc) (names : list name) : loc + km_result_t :=
  match names with
  | [] => inl d
  | nm :: tl => match child d nm with inl l => enter l tl | inr r => inr r end
  end.

(** The result from the node [new] reached so far, the node [file] to start at
    and the names to enter *)
Definition finish (file new : ptr) (names : list name) : km_result_t * ptr :=
  match names with
  | [] => (KM_RESULT_OK, new)
  | _ => match file with
         | None => (KM_RESULT_NOT_FOUND, None)
         | Some d => match enter d names with inl l => (KM_RESULT_OK, Some l) | inr r => (r, None) end
         end
  end.

(** The result holds a reference to the node. *)
Definition answer (x : km_result_t * ptr) : outcome ((km_result_t * ptr) * fs_st W) :=
  Ok (x, hold (option_list (snd x)) s).

Lemma child_ok d nm l : child d nm = inl l -> is_Some (fnodes s !! l).
Proof.
  rewrite /child. destruct (fnodes s !! d) as [f|] eqn:Hf; [|done]. destruct (file_type f) => //.
  destruct (subnodes f !! nm) as [l'|] eqn:Hl => // - [<-]. exact: (proj1 Hlinked _ _ _ _ Hf Hl).
Qed.

Lemma child_fails d nm r : child d nm = inr r -> KM_FAILED r = true.
Proof.
  rewrite /child. destruct (fnodes s !! d) as [f|] eqn:Hf; [|by move=> [<-]].
  destruct (file_type f) eqn:Ht; [by move=> [<-] | | by move=> [<-] ..].
  destruct (subnodes f !! nm) as [l'|] eqn:Hl => // - [<-]. by destruct (Hmissing _ _ _ Hf Ht Hl).
Qed.

Lemma child_of_hold d nm ls :
  is_Some (fnodes s !! d) -> (length ls <= 2)%nat ->
  fs_child_of ops_table (Some d) nm (hold ls s) =
    match child d nm with
    | inl l => Ok ((KM_RESULT_OK, Some l), hold (l :: ls) s)
    | inr r => Ok ((r, None), hold ls s)
    end.
Proof.
  move=> [f Hf] Hlen. rewrite /fs_child_of /child Hf.
  rewrite (bind_ok _ _ _ (set_ref (ref_count f + count d ls) f) (hold ls s));
    [by rewrite /get_fnode hold_lookup Hf|].
  rewrite /set_ref /=. destruct (file_type f) eqn:Ht => //.
  destruct (subnodes f !! nm) as [l|] eqn:Hl.
  - pose proof (proj1 Hlinked _ _ _ _ Hf Hl) as Hx.
    rewrite (bind_ok _ _ _ _ _ (ref_hold l ls Hx _)); [lia|].
    rewrite (bind_ok _ _ _ _ _ (ref_hold l (l :: ls) Hx _)); [simpl; lia|].
    rewrite (bind_ok _ _ _ _ _ (unref_hold l (l :: ls) Hx _)); [simpl; lia|]. done.
  - destruct (Hmissing _ _ _ Hf Ht Hl) as [_ (y & g & Hy & Hg & Hrun)].
    by rewrite /bind /ops_of /= Hy Hg /=.
Qed.

(** ** The loop *)

Lemma slice_nil (path : list Z) d : slice path d 0 = [].
Proof. done. Qed.

Lemma slice_snoc (path : list Z) d i c :
  0 <= d <= i -> path !! Z.to_nat i = Some c -> slice path d (i + 1 - d) = slice path d (i - d) ++ [c].
Proof.
  move=> Hd Hc. rewrite /slice (_ : Z.to_nat (i + 1 - d) = Datatypes.S (Z.to_nat (i - d))); [lia|].
  apply take_S_r. rewrite lookup_drop -Hc. f_equal. lia.
Qed.

Lemma slice_empty (path : list Z) d i :
  0 <= d <= i -> (Z.to_nat i <= length path)%nat -> slice path d (i - d) = [] <-> i - d = 0.
Proof.
  move=> Hd Hi. rewrite /slice. split; [|by move=> ->].
  move=> E. apply (f_equal length) in E. rewrite length_take length_drop /= in E. lia.
Qed.

(** Entering the name before the cursor *)
Lemma enter_child_hold path i d x new :
  is_Some (fnodes s !! x) -> new = None \/ new = Some x ->
  enter_child ops_table path (mkCur i d (Some x) new) (hold (option_list new ++ [x]) s) =
    match child x (slice path d (i - d)) with
    | inl l => Ok (inl (mkCur i d (Some x) (Some l)), hold [l; x] s)
    | inr r => Ok (inr (r, None), s)
    end.
Proof.
  move=> Hx Hnew. rewrite /enter_child /=.
  rewrite (bind_ok _ _ _ tt (hold [x] s)).
  { destruct Hnew as [->| ->]; [done|]. apply: unref_hold Hx _. simpl. lia. }
  rewrite /bind (child_of_hold x _ [x] Hx); [simpl; lia|]. destruct (child x (slice path d (i - d))) as [l|r] eqn:Hc; [done|].
  rewrite (child_fails _ _ _ Hc) /leave /= /bind /= (unref_hold x [] Hx); [simpl; lia|].
  by rewrite hold_nil.
Qed.

Definition tail (path : list Z) (x : cursor + km_result_t * ptr) : M (fs_st W) (km_result_t * ptr) :=
  match x with
  | inr y => ret y
  | inl c =>
      x <- (if idx c - last_divider c =? 0 then ret (inl c) else enter_child ops_table path c);
      match x with
      | inr y => ret y
      | inl c => reset_ptr ops_table (file c);; ret (KM_RESULT_OK, new_file c)
      end
  end.

(** The pointers of the cursor: nothing entered yet, or both at one node *)
Definition pointers (d : Z) (file new : ptr) : Prop :=
  (forall x, file = Some x -> is_Some (fnodes s !! x)) /\
  (new = None /\ d = 0 \/ new = file /\ nonnull file = true /\ 0 < d).

Lemma tail_hold path i d file new :
  pointers d file new -> 0 <= d <= i -> (Z.to_nat i <= length path)%nat ->
  tail path (inl (mkCur i d file new)) (hold (option_list new ++ option_list file) s) =
    answer (finish file new (filter (fun n => n <> []) [slice path d (i - d)])).
Proof.
  move=> [Hx Hp] Hd Hi. rewrite /tail /=. pose proof (slice_empty path d i Hd Hi) as He.
  destruct (Z.eqb_spec (i - d) 0) as [E|E].
  - rewrite E slice_nil filter_cons_False; [by auto|]. rewrite bind_ret /=.
    destruct file as [x|]; last by destruct Hp as [[-> ?]|(_ & ? & _)].
    rewrite (bind_ok _ _ _ tt (hold (option_list new) s)) //.
    rewrite (hold_perm _ (x :: option_list new)); [by rewrite Permutation_app_comm|].
    apply: (unref_hold x _ (Hx x eq_refl)). destruct new; simpl; lia.
  - rewrite filter_cons_True; [tauto|]. rewrite filter_nil.
    destruct file as [x|]; last by destruct Hp as [[-> ?]|(_ & ? & _)]; rewrite /answer hold_nil.
    rewrite /bind enter_child_hold; [exact: Hx | by destruct Hp as [[-> _]|[-> _]]; auto|].
    rewrite /finish /=. destruct (child x (slice path d (i - d))) as [l|r] eqn:Hc; last by rewrite /answer hold_nil.
    rewrite /= (hold_perm _ [x; l]); [by apply Permutation_swap|].
    rewrite /bind (unref_hold x [l] (Hx x eq_refl)) //=. lia.
Qed.

Definition rounds (n : nat) (path : list Z) (c : cursor) : M (fs_st W) (km_result_t * ptr) :=
  x <- loop n (path_round ops_table path) c; tail path x.

Lemma rounds_next n path c c' st st' :
  path_round ops_table path c st = Ok (inl c', st') -> rounds (Datatypes.S n) path c st = rounds n path c' st'.
Proof. move=> E. by rewrite /rounds /bind (loop_next _ _ _ _ _ _ E). Qed.

Lemma rounds_exit n path c x st st' :
  path_round ops_table path c st = Ok (inr x, st') -> rounds (Datatypes.S n) path c st = tail path x st'.
Proof. move=> E. by rewrite /rounds /bind (loop_exit _ _ _ _ _ _ E). Qed.

(** At a divider [file] takes over [new_file]. *)
Lemma move_file i x l :
  is_Some (fnodes s !! x) -> is_Some (fnodes s !! l) ->
  (reset_ptr ops_table (Some x);;
   match Some l with None => fault | Some l => fs_ref_fnode l end;;
   ret (inl (mkCur i (i + 1) (Some l) (Some l)) : cursor + km_result_t * ptr)) (hold [l; x] s) =
    Ok (inl (mkCur i (i + 1) (Some l) (Some l)), hold [l; l] s).
Proof.
  move=> Hx Hl. rewrite (hold_perm _ [x; l]); [by apply Permutation_swap|].
  rewrite (bind_ok _ _ _ _ _ (unref_hold x [l] Hx _)); [simpl; lia|].
  rewrite (bind_ok _ _ _ _ _ (ref_hold l [l] Hl _)); [simpl; lia|]. done.
Qed.

Lemma finish_cons x l new cur names :
  child x cur = inl l -> finish (Some x) new (cur :: names) = finish (Some l) (Some l) names.
Proof. move=> Hc. rewrite /finish /= Hc. by destruct names. Qed.

(** What a divider does to the cursor and the references *)
Lemma at_divider_hold path i d file new :
  pointers d file new -> 0 <= d <= i -> (Z.to_nat i <= length path)%nat -> (d = 0 -> i <> 0) ->
  let cur := slice path d (i - d) in
  let next (l : loc) := Ok (inl (mkCur i (i + 1) (Some l) (Some l)), hold [l; l] s) in
  at_divider ops_table path (mkCur i d file new) (hold (option_list new ++ option_list file) s) =
    match file with
    | None => Ok (inr (KM_RESULT_NOT_FOUND, None), s)
    | Some x =>
        if bool_decide (cur = []) then next x
        else match child x cur with
             | inl l => next l
             | inr r => Ok (inr (r, None), s)
             end
    end.
Proof.
  move=> [Hx Hp] Hd Hi H0 cur next. rewrite /at_divider /=.
  pose proof (slice_empty path d i Hd Hi) as He. rewrite -/cur in He.
  destruct (Z.eqb_spec (i - d) 0) as [E|E].
  - destruct Hp as [[_ ->]|(-> & Hf & Hd0)]; [lia|]. destruct file as [x|]; [|done].
    rewrite bool_decide_true; [tauto|]. rewrite (proj2 (Z.eqb_neq d 0)); [lia|]. rewrite bind_ret /=.
    exact: (move_file i x x (Hx x eq_refl) (Hx x eq_refl)).
  - rewrite bool_decide_false; [tauto|]. destruct file as [x|].
    + rewrite /bind enter_child_hold; [exact: Hx | by destruct Hp as [[-> _]|[-> _]]; auto|]. rewrite -/cur.
      destruct (child x cur) as [l|r] eqn:Hc; [|done].
      exact: (move_file i x l (Hx x eq_refl) (child_ok _ _ _ Hc)).
    + destruct Hp as [[-> _]|(_ & ? & _)]; [|done]. by rewrite /enter_child /leave /bind /= hold_nil.
Qed.

Lemma rounds_hold rest : forall n path i d file new,
  pointers d file new -> 0 <= d <= i -> drop (Z.to_nat i) path = rest -> (Z.to_nat i <= length path)%nat ->
  (length rest < n)%nat -> (i = 0 -> head rest <> Some SLASH) ->
  rounds n path (mkCur i d file new) (hold (option_list new ++ option_list file) s) =
    answer (finish file new (components (slice path d (i - d)) rest)).
Proof.
  elim: rest => [|c tl IH] [|n] path i d file new Hp Hd Hrest Hi Hn H0; simpl in Hn; try lia.
  - rewrite (rounds_exit _ _ _ (inl (mkCur i d file new)) _ (hold (option_list new ++ option_list file) s)).
    { apply (f_equal length) in Hrest. rewrite length_drop /= in Hrest.
      rewrite /path_round lookup_ge_None_2 //=. lia. }
    by rewrite tail_hold.
  - assert (Hc : path !! Z.to_nat i = Some c).
    { rewrite -(Nat.add_0_r (Z.to_nat i)) -lookup_drop Hrest //. }
    assert (Hlt : (Z.to_nat i < length path)%nat) by exact: lookup_lt_Some Hc.
    assert (Htl : drop (Z.to_nat (i + 1)) path = tl).
    { rewrite (_ : Z.to_nat (i + 1) = (Z.to_nat i + 1)%nat); [lia|].
      by rewrite -drop_drop Hrest. }
    rewrite /components /=. destruct (Z.eqb_spec c 0) as [E|E].
    { rewrite (rounds_exit _ _ _ (inl (mkCur i d file new)) _ (hold (option_list new ++ option_list file) s)).
      { by rewrite /path_round Hc E. }
      by rewrite tail_hold. }
    destruct (Z.eqb_spec c SLASH) as [Ec|Ec].
    + assert (Hd0 : d = 0 -> i <> 0) by (move=> _ Ei; apply (H0 Ei); by rewrite /= Ec).
      pose proof (at_divider_hold path i d file new Hp Hd Hi Hd0) as Hat. cbn zeta in Hat.
      assert (Hgo : forall l, is_Some (fnodes s !! l) ->
        at_divider ops_table path (mkCur i d file new) (hold (option_list new ++ option_list file) s) =
          Ok (inl (mkCur i (i + 1) (Some l) (Some l)), hold [l; l] s) ->
        rounds (Datatypes.S n) path (mkCur i d file new) (hold (option_list new ++ option_list file) s) =
          answer (finish (Some l) (Some l) (components [] tl))).
      { move=> l Hl E2. rewrite (rounds_next _ _ _ (mkCur (i + 1) (i + 1) (Some l) (Some l)) _ (hold [l; l] s)).
        { by rewrite /path_round Hc (proj2 (Z.eqb_neq c 0) E) Ec /= /bind E2. }
        rewrite (IH n path (i + 1) (i + 1) (Some l) (Some l)) ?Z.sub_diag //; try lia.
        split; [by move=> y [<-] | right; split; [done | split; [done | lia]]]. }
      destruct file as [x|]; last first.
      { rewrite (rounds_exit _ _ _ (inr (KM_RESULT_NOT_FOUND, None)) _ s).
        { by rewrite /path_round Hc (proj2 (Z.eqb_neq c 0) E) Ec /= /bind Hat. }
        rewrite filter_cons_True.
        { move=> Es. apply (slice_empty path d i Hd Hi) in Es. destruct Hp as [_ [[_ ?]|(_ & ? & _)]]; [lia|done]. }
        by rewrite /answer /= hold_nil. }
      assert (Hx : is_Some (fnodes s !! x)) by exact: (proj1 Hp).
      case: (decide (slice path d (i - d) = [])) => Es.
      * rewrite filter_cons_False; [by auto|]. rewrite bool_decide_true in Hat; [done|].
        rewrite (Hgo x Hx Hat).
        destruct Hp as [_ [[_ ?]|(-> & _)]]; [|done]. apply (slice_empty path d i Hd Hi) in Es. lia.
      * rewrite filter_cons_True; [done|]. rewrite bool_decide_false in Hat; [done|].
        destruct (child x (slice path d (i - d))) as [l|r] eqn:Hcl.
        { by rewrite (Hgo l (child_ok _ _ _ Hcl) Hat) (finish_cons _ _ _ _ _ Hcl). }
        rewrite (rounds_exit _ _ _ (inr (r, None)) _ s).
        { by rewrite /path_round Hc (proj2 (Z.eqb_neq c 0) E) Ec /= /bind Hat. }
        by rewrite /answer /finish /= Hcl /= hold_nil.
    + rewrite (rounds_next _ _ _ (mkCur (i + 1) d file new) _ (hold (option_list new ++ option_list file) s)).
      { by rewrite /path_round Hc (proj2 (Z.eqb_neq c 0) E) (proj2 (Z.eqb_neq c SLASH) Ec). }
      rewrite (IH n path (i + 1) d file new Hp) //; try lia.
      by rewrite (slice_snoc path d i c).
Qed.

(** [fs_resolve_path] computes the specification. *)
Definition resolve (cur_dir : ptr) (path : list Z) : km_result_t * ptr :=
  if bool_decide (head path = Some SLASH) then finish (fs_abs_root_dir s) (fs_abs_root_dir s) (components [] path)
  else finish cur_dir None (components [] path).

(** The root is entered at a leading divider. *)
Lemma root_round r tl cur_dir :
  fs_abs_root_dir s = Some r -> (forall d, cur_dir = Some d -> is_Some (fnodes s !! d)) ->
  path_round ops_table (SLASH :: tl) (mkCur 0 0 cur_dir None) (hold (option_list cur_dir) s) =
    Ok (inl (mkCur 1 1 (Some r) (Some r)), hold [r; r] s).
Proof.
  move=> Hr Hcur. pose proof (proj2 Hlinked _ Hr) as Hx.
  rewrite /path_round /= /at_divider /bind /= Hr /=.
  rewrite (ref_hold r (option_list cur_dir) Hx); [destruct cur_dir; simpl; lia|]. rewrite /=.
  rewrite (_ : reset_ptr ops_table cur_dir (hold (r :: option_list cur_dir) s) = Ok (tt, hold [r] s)).
  { destruct cur_dir as [x|]; [|done]. rewrite /= (hold_perm _ [x; r]); [by apply Permutation_swap|].
    apply: (unref_hold x [r] (Hcur x eq_refl)). simpl. lia. }
  by rewrite (ref_hold r [r] Hx); [simpl; lia|].
Qed.

Lemma resolve_path_ok cur_dir path :
  (forall d, cur_dir = Some d -> is_Some (fnodes s !! d)) ->
  (head path = Some SLASH -> nonnull (fs_abs_root_dir s) = true) ->
  fs_resolve_path ops_table cur_dir path s = answer (resolve cur_dir path).
Proof.
  move=> Hcur Hroot. rewrite /fs_resolve_path.
  rewrite (bind_ok _ _ _ tt (hold (option_list cur_dir) s)).
  { destruct cur_dir as [x|]; last by rewrite hold_nil.
    rewrite -{1}(hold_nil s). apply: (ref_hold x [] (Hcur x eq_refl)). simpl. lia. }
  change (rounds (Datatypes.S (length path)) path (mkCur 0 0 cur_dir None) (hold (option_list cur_dir) s) =
    answer (resolve cur_dir path)).
  rewrite /resolve. case: bool_decide_reflect => Hs.
  - destruct path as [|c tl]; [done|]. injection Hs as ->.
    specialize (Hroot eq_refl). destruct (fs_abs_root_dir s) as [r|] eqn:Hr; [|done].
    rewrite (rounds_next _ _ _ _ _ _ (root_round r tl cur_dir Hr Hcur)).
    rewrite (rounds_hold tl (length (SLASH :: tl)) (SLASH :: tl) 1 1 (Some r) (Some r)) //=; try lia.
    split; [move=> y [<-]; exact: (proj2 Hlinked _ Hr) | right; split; [done | split; [done | lia]]].
  - rewrite (rounds_hold path (Datatypes.S (length path)) path 0 0 cur_dir None) //=; try lia.
    split; [done | by left].
Qed.

End Run.
End FsP.
