(* ===== verification/FsTheorems.v ===== *)
(** * Theorems on the file system *)

From S2P Require Import Prelude MemConf Fs FsPath.
Import MemConf Fs FsP.

Module FsT.

(** ** A concrete system: the root file system and a heap that never runs out *)

#[local] Instance plenty : Memory positive := {
  kalloc w := (Some w, Pos.succ w);
  kfree _ w := w;
  name_alloc n w := (Some (repeat 0 (Z.to_nat n)), w);
  name_realloc _ w := (true, w);
  name_free w := w;
  map_grow w := (true, w);
  map_shrink w := (true, w)
}.

Definition rootfs_table (_ : Z) : fs_file_system_ops_t (fs_st positive) := ki_rootfs_ops.

(** The root directory 1 with the directory "a" (2), in it the file "b" (3) *)
Definition dir_node (nm : option name) (sub : gmap name loc) : fs_fnode_t :=
  mkFnode 1 None 9%positive FS_FILETYPE_DIR nm 0 sub.

Definition tree3 : fs_st positive :=
  mkSt {[1%positive := dir_node None {[ [97] := 2%positive ]};
         2%positive := dir_node (Some [97]) {[ [98] := 3%positive ]};
         3%positive := mkFnode 1 None 9%positive FS_FILETYPE_FILE (Some [98]) 0 ∅]} ∅
    {[9%positive := mkFs [] 0]} ∅ (Some 1%positive) 10%positive.

Lemma tree3_node l f : fnodes tree3 !! l = Some f ->
  (l = 1%positive /\ f = dir_node None {[ [97] := 2%positive ]}) \/
  (l = 2%positive /\ f = dir_node (Some [97]) {[ [98] := 3%positive ]}) \/
  (l = 3%positive /\ f = mkFnode 1 None 9%positive FS_FILETYPE_FILE (Some [98]) 0 ∅).
Proof.
  move=> /lookup_insert_Some [[<- <-]|[_ /lookup_insert_Some [[<- <-]|[_ /lookup_singleton_Some [<- <-]]]]]; tauto.
Qed.

Lemma tree3_counted : counted tree3.
Proof. move=> l f /tree3_node [[_ ->]|[[_ ->]|[_ ->]]] /=; lia. Qed.

Lemma tree3_linked : linked tree3.
Proof.
  split; [|by move=> r [<-]; eexists].
  move=> d f nm l /tree3_node [[_ ->]|[[_ ->]|[_ ->]]] /=;
    [move=> /lookup_singleton_Some [_ <-]; by eexists | move=> /lookup_singleton_Some [_ <-]; by eexists | by rewrite lookup_empty].
Qed.

Definition not_found (_ : loc) (_ : name) : km_result_t := KM_RESULT_NOT_FOUND.

Lemma tree3_in_memory : in_memory rootfs_table tree3 not_found.
Proof.
  move=> d f nm /tree3_node Hf _ _. split; [done|]. exists (mkFs [] 0), ki_rootfs_subnode.
  split; [|by split]. by destruct Hf as [[_ ->]|[[_ ->]|[_ ->]]].
Qed.

(** ** Linking *)

#[local] Arguments fs_ref_fnode : simpl never.
#[local] Arguments fs_unref_fnode : simpl never.

Section Steps.
Context {W : Type} `{Memory W}.
Variable tbl : Z -> fs_file_system_ops_t (fs_st W).
Implicit Types (s : fs_st W) (f p : fs_fnode_t).

Definition with_node (l : loc) f s : fs_st W := set_fnodes (<[l := f]> (fnodes s)) s.

Lemma ref_step l f s :
  fnodes s !! l = Some f -> in64 (ref_count f + 1) ->
  fs_ref_fnode l s = Ok (tt, with_node l (set_ref (ref_count f + 1) f) s).
Proof. move=> Hf Hr. by rewrite /fs_ref_fnode /bind /get_fnode Hf /put_fnode Hf w64_small. Qed.

Lemma unref_step l f s :
  fnodes s !! l = Some f -> 1 < ref_count f < 2 ^ 64 ->
  fs_unref_fnode tbl l s = Ok (tt, with_node l (set_ref (ref_count f - 1) f) s).
Proof.
  move=> Hf Hr. rewrite /fs_unref_fnode /= /bind /get_fnode Hf /put_fnode Hf /=.
  rewrite w64_small; [by rewrite /in64; lia|].
  by rewrite (proj2 (Z.eqb_neq _ 0)); [lia|].
Qed.

(** The state after a link *)
Definition link_state (d file : loc) p f s : fs_st W :=
  with_node d (set_subnodes (<[view f := file]> (subnodes p)) p)
    (set_mem (map_grow (mem s)).2 (with_node file (set_ref (ref_count f + 1) f) s)).

Lemma link_eq s d file p f :
  fnodes s !! d = Some p -> file_type p = FS_FILETYPE_DIR -> fnodes s !! file = Some f -> d <> file ->
  1 <= ref_count f < 2 ^ 64 - 4 ->
  fs_link_subnode tbl d file s =
    match subnodes p !! view f with
    | Some _ => Ok (KM_RESULT_EXISTED, s)
    | None =>
        if (map_grow (mem s)).1 then Ok (KM_RESULT_OK, link_state d file p f s)
        else Ok (KM_RESULT_NO_MEM, set_mem (map_grow (mem s)).2 s)
    end.
Proof.
  move=> Hp Ht Hf Hne Hr. rewrite /fs_link_subnode /bind /get_fnode Hp Ht Hf.
  destruct (subnodes p !! view f) as [l|]; [done|].
  rewrite /insert_subnode /bind /get_fnode Hf (ref_step _ _ _ Hf); [by rewrite /in64; lia|].
  rewrite /lift /link_state /=. destruct (map_grow (mem s)) as [[] w]; simpl.
  - rewrite lookup_insert_ne; [by auto|]. rewrite Hp /put_fnode /= lookup_insert_ne; [by auto|]. by rewrite Hp.
  - rewrite (unref_step _ (set_ref (ref_count f + 1) f)); [by rewrite /= lookup_insert_eq | simpl; lia |].
    rewrite (_ : set_ref (ref_count (set_ref (ref_count f + 1) f) - 1) (set_ref (ref_count f + 1) f) = f).
    { destruct f. rewrite /set_ref /=. f_equal. lia. }
    by rewrite /with_node /set_mem /set_fnodes /= insert_insert_eq insert_id.
Qed.

Lemma child_of_found s d nm l p f :
  fnodes s !! d = Some p -> file_type p = FS_FILETYPE_DIR -> subnodes p !! nm = Some l ->
  fnodes s !! l = Some f -> 1 <= ref_count f < 2 ^ 64 - 4 ->
  fs_child_of tbl (Some d) nm s = Ok ((KM_RESULT_OK, Some l), with_node l (set_ref (ref_count f + 1) f) s).
Proof.
  move=> Hp Ht Hn Hf Hr. rewrite /fs_child_of /bind /get_fnode Hp Ht Hn.
  rewrite (ref_step _ _ _ Hf); [by rewrite /in64; lia|].
  rewrite (ref_step _ (set_ref (ref_count f + 1) f)); [by rewrite /= lookup_insert_eq | by rewrite /in64 /=; lia |].
  rewrite (unref_step _ (set_ref (ref_count f + 1 + 1) (set_ref (ref_count f + 1) f))).
  { by rewrite /= lookup_insert_eq. }
  { rewrite /=. lia. }
  by rewrite /with_node /set_fnodes /= !insert_insert_eq Z.add_simpl_r.
Qed.

(** ** The last reference *)

(** No result *)
Definition stops {A} (m : outcome A) : Prop := match m with Ok _ => False | _ => True end.

Lemma stops_bind {A B} (m : M (fs_st W) A) (k : A -> M (fs_st W) B) s :
  (forall a s', m s = Ok (a, s') -> stops (k a s')) -> stops (bind m k s).
Proof. rewrite /bind. destruct (m s) as [[a s']| | |] => //. auto. Qed.

Lemma release_gone l s s' : release_fnode l s = Ok (tt, s') -> fnodes s' !! l = None.
Proof.
  rewrite /release_fnode /bind. destruct (ki_do_unname_fnode l s) as [[[] s1]| | |] => //= - [<-].
  by rewrite /= lookup_delete_eq.
Qed.

Lemma last_unref_stops l s f :
  fnodes s !! l = Some f -> ref_count f = 1 -> stops (fs_unref_fnode tbl l s).
Proof.
  move=> Hf Hc. rewrite /fs_unref_fnode. generalize (size (fnodes s)) => n.
  rewrite /unref_fnode -/unref_fnode.
  rewrite (bind_ok _ _ _ _ _ (_ : get_fnode (Some l) s = Ok (f, s))); [by rewrite /get_fnode Hf|].
  cbv zeta. rewrite Hc (_ : w64 (1 - 1) = 0) //. apply: stops_bind => _ s1 _.
  rewrite /negb Z.eqb_refl.
  assert (Hdir : forall s2, stops ((call_destroy tbl l;;
    (d <- get_fnode (Some l);
     fold_right (fun e k => unref_fnode tbl n (snd e);; k) (ret tt) (map_to_list (subnodes d));;
     release_fnode l;; panic : M (fs_st W) unit)) s2)).
  { move=> s2. do 4 (apply: stops_bind => ? ? _). done. }
  destruct (file_type f) => //.
  apply: stops_bind => _ s2 _. apply: stops_bind => [[]] s3 /release_gone Hgone.
  by rewrite /call_destroy /bind /get_fnode Hgone.
Qed.

End Steps.

(** ** Results *)

(** C24: in a tree of nodes whose entries lead to nodes and whose file systems
    keep it in memory, [fs_resolve_path] terminates with what the path
    specifies: the names between the dividers are entered in order from the
    root, for a path that begins with a divider, or from the current
    directory; a name that is missing, or whose parent is no directory, gives
    the error for it.  The node found has one more reference, and nothing else
    has changed. *)
Theorem resolve_path_correct {W} `{Memory W} tbl (s : fs_st W) missing cur_dir path :
  counted s -> linked s -> in_memory tbl s missing ->
  (forall d, cur_dir = Some d -> is_Some (fnodes s !! d)) ->
  (head path = Some SLASH -> nonnull (fs_abs_root_dir s) = true) ->
  fs_resolve_path tbl cur_dir path s = answer s (resolve s missing cur_dir path).
Proof. move=> Hc Hl Hm. exact: resolve_path_ok. Qed.

Lemma resolve_path_correct_witness :
  fs_resolve_path rootfs_table None [47; 97; 47; 47; 98] tree3 = Ok ((KM_RESULT_OK, Some 3%positive), hold [3%positive] tree3) /\
  fs_resolve_path rootfs_table (Some 2%positive) [98; 47; 99] tree3 = Ok ((KM_RESULT_UNSUPPORTED_OPERATION, None), hold [] tree3).
Proof.
  split.
  - apply (resolve_path_correct rootfs_table tree3 not_found None [47; 97; 47; 47; 98] tree3_counted tree3_linked tree3_in_memory); done.
  - apply (resolve_path_correct rootfs_table tree3 not_found (Some 2%positive) [98; 47; 99] tree3_counted tree3_linked tree3_in_memory); [|done].
    move=> d [<-]. by eexists.
Defined.

(** [fs_link_subnode] of a node that is not in the directory yet adds
    exactly that entry under the node's name and takes one reference, after
    which [fs_child_of] finds the node under the name; a name that is in use
    is refused, and when the map cannot grow the tree is as before. *)
Theorem link_subnode_correct {W} `{Memory W} tbl (s : fs_st W) d file p f :
  fnodes s !! d = Some p -> file_type p = FS_FILETYPE_DIR -> fnodes s !! file = Some f -> d <> file ->
  1 <= ref_count f < 2 ^ 64 - 5 ->
  match subnodes p !! view f with
  | Some _ => fs_link_subnode tbl d file s = Ok (KM_RESULT_EXISTED, s)
  | None =>
      if (map_grow (mem s)).1 then
        let s' := link_state d file p f s in
        fs_link_subnode tbl d file s = Ok (KM_RESULT_OK, s') /\
        (exists p', fnodes s' !! d = Some p' /\ subnodes p' = <[view f := file]> (subnodes p)) /\
        (forall l, l <> d -> l <> file -> fnodes s' !! l = fnodes s !! l) /\
        exists s'', fs_child_of tbl (Some d) (view f) s' = Ok ((KM_RESULT_OK, Some file), s'') /\
          exists f', fnodes s'' !! file = Some f' /\ ref_count f' = ref_count f + 2
      else fs_link_subnode tbl d file s = Ok (KM_RESULT_NO_MEM, set_mem (map_grow (mem s)).2 s)
  end.
Proof.
  move=> Hp Ht Hf Hne Hr. rewrite (link_eq tbl s d file p f Hp Ht Hf Hne); [lia|].
  destruct (subnodes p !! view f) as [l|]; [done|]. destruct (map_grow (mem s)).1; [|done].
  split; [done | split; [|split]].
  - eexists. by rewrite /= lookup_insert_eq.
  - move=> l Hd Hl. by rewrite /= !lookup_insert_ne; auto.
  - eexists. split.
    + apply: (child_of_found tbl _ d _ file _ (set_ref (ref_count f + 1) f)).
      * by rewrite /= lookup_insert_eq.
      * done.
      * by rewrite /= lookup_insert_eq.
      * rewrite /= lookup_insert_ne; [by auto|]. by rewrite lookup_insert_eq.
      * rewrite /=. lia.
    + eexists. rewrite /= lookup_insert_eq. split; [done|]. rewrite /=. lia.
Qed.

(** A new file "c" (4) that is not linked *)
Definition tree4 : fs_st positive := with_node 4%positive (mkFnode 1 None 9%positive FS_FILETYPE_FILE (Some [99]) 0 ∅) tree3.

Lemma link_subnode_correct_witness :
  exists s' s'', fs_link_subnode rootfs_table 1 4 tree4 = Ok (KM_RESULT_OK, s') /\
    fs_child_of rootfs_table (Some 1%positive) [99] s' = Ok ((KM_RESULT_OK, Some 4%positive), s'').
Proof.
  destruct (link_subnode_correct rootfs_table tree4 1 4 (dir_node None {[ [97] := 2%positive ]})
    (mkFnode 1 None 9%positive FS_FILETYPE_FILE (Some [99]) 0 ∅) eq_refl eq_refl eq_refl ltac:(done) ltac:(simpl; lia))
    as (E1 & _ & _ & s'' & E2 & _).
  eexists _, s''. split; [exact E1 | exact E2].
Defined.

(** Dropping the last reference to a node never succeeds: a directory ends
    in the panic that follows its case, a file is released and then used as a
    directory. *)
Theorem last_unref_never_returns {W} `{Memory W} tbl (s : fs_st W) l f :
  fnodes s !! l = Some f -> ref_count f = 1 -> stops (fs_unref_fnode tbl l s).
Proof. exact: last_unref_stops. Qed.

Lemma last_unref_never_returns_witness : stops (fs_unref_fnode rootfs_table 3 tree3).
Proof. exact (last_unref_never_returns rootfs_table tree3 3 _ eq_refl eq_refl). Defined.

(** [fs_mount_file] enters the directory that is to be mounted into
    itself; the directory it should be mounted in is left as it was. *)
Theorem mount_into_itself {W} `{Memory W} tbl (s : fs_st W) dir file p f y :
  fnodes s !! dir = Some p -> fnodes s !! file = Some f -> dir <> file ->
  file_type f = FS_FILETYPE_DIR -> subnodes f = ∅ -> 1 <= ref_count f < 2 ^ 64 - 4 ->
  file_systems s !! fs p = Some y -> op_premount (tbl (fs_ops y)) = Some ki_rootfs_premount ->
  (map_shrink (mem s)).1 = true -> (map_grow (map_shrink (mem s)).2).1 = true ->
  exists s' f', fs_mount_file tbl dir file s = Ok (KM_RESULT_OK, s') /\
    fnodes s' !! file = Some f' /\ subnodes f' = {[ view f := file ]} /\ fnodes s' !! dir = Some p.
Proof.
  move=> Hp Hf Hne Ht He Hr Hy Ho Hs Hg.
  rewrite /fs_mount_file (bind_ok _ _ _ f s); [by rewrite /get_fnode Hf|]. rewrite Ht He bool_decide_true //=.
  rewrite /bind /lift. destruct (map_shrink (mem s)) as [b w1]; simpl in Hs, Hg; subst b.
  rewrite /= Hp /ops_of /= Hy /= Ho /= /ki_rootfs_premount /ret /= /insert_subnode /bind /get_fnode /= Hf.
  rewrite (ref_step _ f) //; [by rewrite /in64; lia|].
  rewrite /lift /=. destruct (map_grow w1) as [b w2]; simpl in Hg; subst b.
  rewrite /= lookup_insert_eq /put_fnode /= lookup_insert_eq. do 2 eexists. split; [done|].
  rewrite /= lookup_insert_eq. split; [done | split; [by rewrite /= He insert_empty|]].
  by rewrite !lookup_insert_ne; auto.
Qed.

Lemma mount_into_itself_witness :
  let s := with_node 5%positive (dir_node (Some [109]) ∅) tree3 in
  exists s' f', fs_mount_file rootfs_table 1 5 s = Ok (KM_RESULT_OK, s') /\
    fnodes s' !! 5%positive = Some f' /\ subnodes f' = {[ [109] := 5%positive ]} /\
    fnodes s' !! 1%positive = Some (dir_node None {[ [97] := 2%positive ]}).
Proof.
  exact (mount_into_itself rootfs_table (with_node 5%positive (dir_node (Some [109]) ∅) tree3) 1 5
    (dir_node None {[ [97] := 2%positive ]}) (dir_node (Some [109]) ∅) (mkFs [] 0)
    eq_refl eq_refl ltac:(done) eq_refl eq_refl ltac:(simpl; lia) eq_refl eq_refl eq_refl eq_refl).
Defined.

(** Opening a file of the root file system reaches the end of
    [fs_create_fcb], unmounting dereferences the parent that is never set, and
    an empty path gives no node but success, which [fs_open] dereferences. *)
Example open_undefined : fs_open rootfs_table None [47; 97; 47; 98] tree3 = Fault.
Proof. by vm_compute. Qed.

Example unmount_undefined : fs_unmount_file rootfs_table 2 tree3 = Fault.
Proof. by vm_compute. Qed.

Example empty_path : 
  fs_resolve_path rootfs_table (Some 1%positive) [] tree3 = Ok ((KM_RESULT_OK, None), hold [] tree3) /\
  fs_open rootfs_table (Some 1%positive) [] tree3 = Fault.
Proof. split; by vm_compute. Qed.

End FsT.
