(* ===== verification/Ps.v ===== *)
(** * Processes, threads and the scheduler

    kernel/ps/proc.cc, kernel/ps/thread.cc, kernel/ps/sched.cc,
    kernel/ps/sched/simploop.c and [ps_exec] of kernel/ps/exec.cc.  Control
    blocks live on a heap; the sets of processes, threads and open files are
    ordered maps from identifiers to control blocks ([OMap]).  The operations
    run under the locks of the source, one at a time.  Memory contexts, the
    heap, user contexts, file nodes and the scheduler are reached through an
    interface, [World]. *)

From S2P Require Import Prelude OMap MemConf.
Import MemConf.

Module Ps.

Definition w32 (z : Z) : Z := z mod 2 ^ 32.
Definition PS_PROC_ID_MAX : Z := 2 ^ 32 - 1.
Definition PS_PROC_P : Z := 1.

(** [ps_tcb_t], without the fields nothing here uses *)
Record ps_tcb_t := mkTcb {
  tid : Z;
  t_parent : ptr;
  context : ptr;
  stack : Z;
  stack_size : Z;
  scheduled : bool
}.

(** [ps_ufcb_t] *)
Record ps_ufcb_t := mkUfcb { ufd : Z; kernel_fcb : ptr }.

(** [ps_pcb_t]; [pid], [tid] and [ufd] are the [rb_value] of the nodes. *)
Record ps_pcb_t := mkPcb {
  pid : Z;
  last_thread_id : Z;
  mm_context : ptr;
  thread_set : gmap Z loc;
  flags : Z;
  cur_dir : ptr;
  ufcb_set : gmap Z loc;
  last_fd : Z
}.

(** The rest of the kernel.  [kfree] of an address that is no block panics. *)
Class World (W : Type) := {
  kalloc : M W ptr;
  kfree : loc -> M W unit;
  mm_alloc_context : M W (km_result_t * ptr);
  mm_free_context : loc -> M W unit;
  ps_alloc_context : M W ptr;
  ps_destroy_context : loc -> M W unit;
  mm_getmap : ptr -> Z -> M W Z;
  mm_pgfree : Z -> M W unit;
  fs_ref_fnode : loc -> M W unit;
  fs_unref_fnode : loc -> M W unit;
  prepare_proc : loc -> M W km_result_t;
  prepare_thread : loc -> M W km_result_t;
  drop_proc : loc -> M W unit;
  drop_thread : loc -> M W unit;
  mm_switch_context : ptr -> M W unit;
  clear_order : gmap Z loc -> list loc
}.

Record ps_st (W : Type) := mkPs {
  ps_global_proc_set : gmap Z loc;
  ki_min_free_pid : Z;
  ki_cur_max_pid : Z;
  _last_proc_id : Z;
  pcbs : gmap loc ps_pcb_t;
  tcbs : gmap loc ps_tcb_t;
  ufcbs : gmap loc ps_ufcb_t;
  world : W
}.
Arguments mkPs {W}.
Arguments ps_global_proc_set {W}.
Arguments ki_min_free_pid {W}.
Arguments ki_cur_max_pid {W}.
Arguments _last_proc_id {W}.
Arguments pcbs {W}.
Arguments tcbs {W}.
Arguments ufcbs {W}.
Arguments world {W}.

Section Ops.
Context {W : Type} `{World W}.

Abbreviation PM := (M (ps_st W)).

Definition lift {A} (m : M W A) : PM A := fun s =>
  match m (world s) with
  | Ok (a, w) => Ok (a, mkPs (ps_global_proc_set s) (ki_min_free_pid s) (ki_cur_max_pid s) (_last_proc_id s)
                            (pcbs s) (tcbs s) (ufcbs s) w)
  | Panic => Panic
  | Fault => Fault
  | NoFuel => NoFuel
  end.

Definition get_procs : PM (gmap Z loc) := fun s => Ok (ps_global_proc_set s, s).
Definition set_procs (m : gmap Z loc) : PM unit := fun s =>
  Ok (tt, mkPs m (ki_min_free_pid s) (ki_cur_max_pid s) (_last_proc_id s) (pcbs s) (tcbs s) (ufcbs s) (world s)).
Definition get_min : PM Z := fun s => Ok (ki_min_free_pid s, s).
Definition set_min (i : Z) : PM unit := fun s =>
  Ok (tt, mkPs (ps_global_proc_set s) i (ki_cur_max_pid s) (_last_proc_id s) (pcbs s) (tcbs s) (ufcbs s) (world s)).
Definition get_max : PM Z := fun s => Ok (ki_cur_max_pid s, s).
Definition set_max (i : Z) : PM unit := fun s =>
  Ok (tt, mkPs (ps_global_proc_set s) (ki_min_free_pid s) i (_last_proc_id s) (pcbs s) (tcbs s) (ufcbs s) (world s)).

Definition set_pcbs (m : gmap loc ps_pcb_t) : PM unit := fun s =>
  Ok (tt, mkPs (ps_global_proc_set s) (ki_min_free_pid s) (ki_cur_max_pid s) (_last_proc_id s) m (tcbs s) (ufcbs s) (world s)).
Definition set_tcbs (m : gmap loc ps_tcb_t) : PM unit := fun s =>
  Ok (tt, mkPs (ps_global_proc_set s) (ki_min_free_pid s) (ki_cur_max_pid s) (_last_proc_id s) (pcbs s) m (ufcbs s) (world s)).
Definition set_ufcbs (m : gmap loc ps_ufcb_t) : PM unit := fun s =>
  Ok (tt, mkPs (ps_global_proc_set s) (ki_min_free_pid s) (ki_cur_max_pid s) (_last_proc_id s) (pcbs s) (tcbs s) m (world s)).

Definition get_pcb (p : ptr) : PM ps_pcb_t := fun s =>
  match p with
  | None => Fault
  | Some l => match pcbs s !! l with Some x => Ok (x, s) | None => Fault end
  end.
Definition put_pcb (l : loc) (x : ps_pcb_t) : PM unit := fun s =>
  match pcbs s !! l with Some _ => set_pcbs (<[l := x]> (pcbs s)) s | None => Fault end.
Definition get_tcb (p : ptr) : PM ps_tcb_t := fun s =>
  match p with
  | None => Fault
  | Some l => match tcbs s !! l with Some x => Ok (x, s) | None => Fault end
  end.
Definition put_tcb (l : loc) (x : ps_tcb_t) : PM unit := fun s =>
  match tcbs s !! l with Some _ => set_tcbs (<[l := x]> (tcbs s)) s | None => Fault end.
Definition get_ufcb (p : ptr) : PM ps_ufcb_t := fun s =>
  match p with
  | None => Fault
  | Some l => match ufcbs s !! l with Some x => Ok (x, s) | None => Fault end
  end.

Definition set_pid (i : Z) (p : ps_pcb_t) : ps_pcb_t :=
  mkPcb i (last_thread_id p) (mm_context p) (thread_set p) (flags p) (cur_dir p) (ufcb_set p) (last_fd p).
Definition set_threads (n : Z) (m : gmap Z loc) (p : ps_pcb_t) : ps_pcb_t :=
  mkPcb (pid p) n (mm_context p) m (flags p) (cur_dir p) (ufcb_set p) (last_fd p).
Definition set_context (c : ptr) (p : ps_pcb_t) : ps_pcb_t :=
  mkPcb (pid p) (last_thread_id p) c (thread_set p) (flags p) (cur_dir p) (ufcb_set p) (last_fd p).
Definition set_files (m : gmap Z loc) (fd : Z) (p : ps_pcb_t) : ps_pcb_t :=
  mkPcb (pid p) (last_thread_id p) (mm_context p) (thread_set p) (flags p) (cur_dir p) m fd.
Definition set_cur_dir (d : ptr) (p : ps_pcb_t) : ps_pcb_t :=
  mkPcb (pid p) (last_thread_id p) (mm_context p) (thread_set p) (flags p) d (ufcb_set p) (last_fd p).

(** ** Process identifiers *)

(** A loop over [i], [i + 1], ... up to [stop] for an identifier that is not in
    use; it meets every process at most once. *)
Definition find_free (start stop : Z) : PM (option Z) :=
  procs <- get_procs;
  loop (Datatypes.S (Datatypes.S (size procs))) (fun i =>
    if i =? stop then ret (inr None)
    else
      t <- get_procs;
      match t !! i with
      | Some _ => ret (inl (w32 (i + 1)))
      | None => ret (inr (Some i))
      end) start.

Definition take_pid (pcb : loc) (i : Z) : PM unit :=
  mx <- get_max;
  when (mx <=? i) (set_max i);;
  set_min (w32 (i + 1));;
  p <- get_pcb (Some pcb);
  put_pcb pcb (set_pid i p).

Definition ps_create_proc (pcb : loc) (parent : Z) : PM km_result_t :=
  p <- get_pcb (Some pcb);
  put_pcb pcb (set_pid PS_PROC_ID_MAX p);;
  mn <- get_min;
  r <- find_free mn PS_PROC_ID_MAX;
  match r with Some i => take_pid pcb i | None => ret tt end;;
  p <- get_pcb (Some pcb);
  when (pid p =? PS_PROC_ID_MAX)
    (mn <- get_min;
     r <- find_free 0 mn;
     match r with Some i => take_pid pcb i | None => ret tt end);;
  p <- get_pcb (Some pcb);
  if pid p =? PS_PROC_ID_MAX then ret KM_RESULT_NO_SLOT
  else
    t <- get_procs;
    kd_assert (negb (bool_decide (is_Some (t !! pid p))));;
    set_procs (<[pid p := pcb]> t);;
    ret KM_RESULT_OK.

Definition ps_lookup_pcb (i : Z) : PM ptr := t <- get_procs; ret (t !! i).
Definition ps_pid_of (pcb : loc) : PM Z := p <- get_pcb (Some pcb); ret (pid p).
Definition ki_alloc_proc_id : PM Z := fun s =>
  Ok (_last_proc_id s, mkPs (ps_global_proc_set s) (ki_min_free_pid s) (ki_cur_max_pid s) (w32 (_last_proc_id s + 1))
                         (pcbs s) (tcbs s) (ufcbs s) (world s)).

(** ** Threads *)

(** The pages of the stack: [stack_size] is a multiple of the page size. *)
Fixpoint free_stack (n : nat) (ctx : ptr) (addr : Z) : PM unit :=
  match n with
  | O => ret tt
  | Datatypes.S n => pa <- lift (mm_getmap ctx addr); lift (mm_pgfree pa);; free_stack n ctx (w64 (addr + PAGESIZE))
  end.

(** The block of the thread is released twice. *)
Definition ki_destroy_thread (tcb : loc) : PM unit :=
  t <- get_tcb (Some tcb);
  when (nonnull (t_parent t))
    (lift (drop_thread tcb);;
     match t_parent t with
     | None => ret tt
     | Some pl => p <- get_pcb (Some pl); put_pcb pl (set_threads (last_thread_id p) (delete (tid t) (thread_set p)) p)
     end);;
  when (negb (stack_size t =? 0))
    (p <- get_pcb (t_parent t);
     free_stack (Z.to_nat (stack_size t / PAGESIZE)) (mm_context p) (stack t));;
  match context t with Some c => lift (ps_destroy_context c) | None => ret tt end;;
  (fun s => set_tcbs (delete tcb (tcbs s)) s);;
  lift (kfree tcb);;
  lift (kfree tcb).

Definition ps_alloc_tcb (pcb : ptr) : PM ptr :=
  p <- lift kalloc;
  match p with
  | None => ret None
  | Some t =>
      (fun s => set_tcbs (<[t := mkTcb 0 None None 0 0 false]> (tcbs s)) s);;
      c <- lift ps_alloc_context;
      match c with
      | None =>
          (fun s => set_tcbs (delete t (tcbs s)) s);;
          lift (kfree t);;
          ki_destroy_thread t;;
          ret None
      | Some _ =>
          x <- get_tcb (Some t);
          put_tcb t (mkTcb (tid x) pcb c (stack x) (stack_size x) (scheduled x));;
          ret (Some t)
      end
  end.

Definition ps_add_thread (proc thread : loc) : PM unit :=
  p <- get_pcb (Some proc);
  let i := w32 (last_thread_id p + 1) in
  put_pcb proc (set_threads i (thread_set p) p);;
  t <- get_tcb (Some thread);
  put_tcb thread (mkTcb i (t_parent t) (context t) (stack t) (stack_size t) (scheduled t));;
  p <- get_pcb (Some proc);
  kd_assert (negb (bool_decide (is_Some (thread_set p !! i))));;
  put_pcb proc (set_threads i (<[i := thread]> (thread_set p)) p).

(** The thread keeps the identifier it was allocated with. *)
Definition ps_create_thread (pcb : ptr) (size0 : Z) : PM Z :=
  if size0 =? 0 then ret (w32 (-1))
  else
    t <- ps_alloc_tcb pcb;
    match t, pcb with
    | Some t, Some proc =>
        r <- lift (prepare_thread t);
        if KM_FAILED r then ret (w32 (-1))
        else
          p <- get_pcb pcb;
          x <- get_tcb (Some t);
          match thread_set p !! tid x with
          | Some _ => panic
          | None => put_pcb proc (set_threads (last_thread_id p) (<[tid x := t]> (thread_set p)) p)
          end;;
          ret 0
    | _, _ => ret (w32 (-1))
    end.

(** ** Open files *)

(** [ps_ufd_t] is a signed integer of 32 bits; its increment is taken to wrap. *)
Definition s32 (z : Z) : Z := (z + 2 ^ 31) mod 2 ^ 32 - 2 ^ 31.

Definition ps_alloc_fd (pcb : loc) : PM Z :=
  p <- get_pcb (Some pcb);
  put_pcb pcb (set_files (ufcb_set p) (s32 (last_fd p + 1)) p);;
  ret (last_fd p).

Definition ps_add_ufcb (pcb ufcb : loc) : PM unit :=
  p <- get_pcb (Some pcb);
  u <- get_ufcb (Some ufcb);
  kd_assert (negb (bool_decide (is_Some (ufcb_set p !! ufd u))));;
  put_pcb pcb (set_files (<[ufd u := ufcb]> (ufcb_set p)) (last_fd p) p).

(** The block is written to before it is tested. *)
Definition ps_alloc_ufcb (pcb : loc) (kernel_fcb : ptr) (fd : Z) : PM ptr :=
  b <- lift kalloc;
  match b with
  | None => fault
  | Some u =>
      (fun s => set_ufcbs (<[u := mkUfcb fd kernel_fcb]> (ufcbs s)) s);;
      ps_add_ufcb pcb u;;
      ret (Some u)
  end.

Definition ps_remove_ufcb (pcb ufcb : loc) : PM unit :=
  p <- get_pcb (Some pcb);
  u <- get_ufcb (Some ufcb);
  put_pcb pcb (set_files (delete (ufd u) (ufcb_set p)) (last_fd p) p).

Definition ps_lookup_ufcb (pcb : loc) (fd : Z) : PM ptr := p <- get_pcb (Some pcb); ret (ufcb_set p !! fd).
Definition ps_kfcb_of_ufcb (ufcb : loc) : PM ptr := u <- get_ufcb (Some ufcb); ret (kernel_fcb u).

(** ** Processes *)

Definition ps_get_cwd (pcb : loc) : PM ptr := p <- get_pcb (Some pcb); ret (cur_dir p).

Definition ps_unset_cwd (pcb : loc) : PM unit :=
  p <- get_pcb (Some pcb);
  match cur_dir p with Some d => lift (fs_unref_fnode d) | None => ret tt end;;
  put_pcb pcb (set_cur_dir None p).

Definition ps_set_cwd (pcb : loc) (cwd_node : ptr) : PM unit :=
  ps_unset_cwd pcb;;
  match cwd_node with
  | None => ret tt
  | Some d => lift (fs_ref_fnode d);; p <- get_pcb (Some pcb); put_pcb pcb (set_cur_dir (Some d) p)
  end.

Definition ps_mm_context_of (pcb : loc) : PM ptr := p <- get_pcb (Some pcb); ret (mm_context p).

(** The part of [ki_destroy_proc] under the lock: the process that has the
    identifier is removed, whichever it is. *)
Definition unregister (i : Z) : PM unit :=
  t <- get_procs;
  match t !! i with
  | None => ret tt
  | Some _ =>
      set_procs (delete i t);;
      mn <- get_min;
      when (i <? mn) (set_min i);;
      mx <- get_max;
      when (i =? mx)
        (t <- get_procs;
         set_max (match OMap.max_lteq mx t with Some (k, _) => k | None => 0 end))
  end.

(** The threads are destroyed in the order in which the tree is cleared; the
    destructors of the sets fail when something is left in them. *)
Definition ki_destroy_proc (pcb : loc) : PM unit :=
  p <- get_pcb (Some pcb);
  unregister (pid p);;
  when (has (flags p) PS_PROC_P) (lift (drop_proc pcb));;
  match mm_context p with Some c => lift (mm_free_context c) | None => ret tt end;;
  p <- get_pcb (Some pcb);
  fold_right (fun t k => ki_destroy_thread t;; k) (ret tt) (clear_order (thread_set p));;
  p <- get_pcb (Some pcb);
  kd_assert (bool_decide (ufcb_set p = ∅));;
  match cur_dir p with Some d => lift (fs_unref_fnode d) | None => ret tt end;;
  (fun s => set_pcbs (delete pcb (pcbs s)) s);;
  lift (kfree pcb).

(** A failure after the first allocation releases the block and then runs the
    guard that destroys the process in it. *)
Definition abandon (proc : loc) : PM ptr :=
  (fun s => set_pcbs (delete proc (pcbs s)) s);;
  lift (kfree proc);;
  ki_destroy_proc proc;;
  ret None.

Definition ps_alloc_pcb : PM ptr :=
  b <- lift kalloc;
  match b with
  | None => ret None
  | Some proc =>
      (fun s => set_pcbs (<[proc := mkPcb 0 0 None ∅ 0 None ∅ 0]> (pcbs s)) s);;
      c <- lift kalloc;
      match c with
      | None => abandon proc
      | Some c =>
          '(r, ctx) <- lift mm_alloc_context;
          if KM_FAILED r then lift (kfree c);; abandon proc
          else
            p <- get_pcb (Some proc);
            put_pcb proc (set_context ctx p);;
            r <- lift (prepare_proc proc);
            if KM_FAILED r then
              match ctx with Some x => lift (kfree x) | None => ret tt end;; abandon proc
            else
              p <- get_pcb (Some proc);
              put_pcb proc (mkPcb (pid p) 0 (mm_context p) (thread_set p) PS_PROC_P (cur_dir p) (ufcb_set p) 0);;
              ret (Some proc)
      end
  end.

(** ** Executing a file *)

(** The loaders in the order of their identifiers, as functions on the state:
    the first one that knows the format decides.  [pid_out] is not written. *)
Fixpoint load (loaders : list (loc -> PM km_result_t)) (pcb : loc) : PM km_result_t :=
  match loaders with
  | [] => ret KM_RESULT_UNSUPPORTED_EXECFMT
  | ld :: rest =>
      r <- ld pcb;
      match r with
      | KM_RESULT_OK | KM_RESULT_UNSUPPORTED_EXECFMT =>
          if KM_FAILED r then load rest pcb else ret KM_RESULT_OK
      | _ => ret r
      end
  end.

Definition ps_exec (loaders : list (loc -> PM km_result_t)) (parent : Z) : PM km_result_t :=
  new_proc_id <- ki_alloc_proc_id;
  b <- ps_alloc_pcb;
  match b with
  | None => ret KM_RESULT_NO_MEM
  | Some pcb =>
      r <- load loaders pcb;
      if KM_FAILED r then ki_destroy_proc pcb;; ret r
      else
        r <- ps_create_proc pcb parent;
        if KM_FAILED r then ki_destroy_proc pcb;; ret r else ret KM_RESULT_OK
  end.

(** ** The scheduler *)

Definition ps_global_proc_set_begin : PM ptr := t <- get_procs; ret (option_map snd (OMap.first t)).
Definition ps_global_proc_set_next (cur : ptr) : PM ptr :=
  p <- get_pcb cur; t <- get_procs; ret (option_map snd (OMap.next (pid p) t)).
Definition ps_proc_thread_set_begin (pcb : ptr) : PM ptr :=
  p <- get_pcb pcb; ret (option_map snd (OMap.first (thread_set p))).
Definition ps_proc_thread_set_next (pcb cur : ptr) : PM ptr :=
  p <- get_pcb pcb; t <- get_tcb cur; ret (option_map snd (OMap.next (tid t) (thread_set p))).

Definition ps_simploop_sched_next_thread (cur_proc cur_thread : ptr) : PM ptr :=
  if nonnull cur_thread then
    next_thread <- ps_proc_thread_set_next cur_proc cur_thread;
    if nonnull next_thread then ret next_thread
    else
      next_proc <- ps_global_proc_set_next cur_proc;
      next_proc <- (if nonnull next_proc then ret next_proc else ps_global_proc_set_begin);
      ps_proc_thread_set_begin next_proc
  else
    next_proc <- ps_global_proc_set_begin;
    ps_proc_thread_set_begin next_proc.

(** The timer interrupt without the saving and loading of registers: from the
    process and the thread a processor runs to those it runs next *)
Definition ki_switch_to_user_process (pcb : ptr) : PM unit :=
  p <- get_pcb pcb; lift (mm_switch_context (mm_context p)).

Definition set_scheduled (b : bool) (t : ps_tcb_t) : ps_tcb_t :=
  mkTcb (tid t) (t_parent t) (context t) (stack t) (stack_size t) b.

Definition timer_schedule (cur_proc cur_thread : ptr) : PM (ptr * ptr) :=
  next_thread <- ps_simploop_sched_next_thread cur_proc cur_thread;
  kd_assert (nonnull next_thread);;
  t <- get_tcb next_thread;
  when (negb (ptr_eqb (t_parent t) cur_proc)) (ki_switch_to_user_process (t_parent t));;
  match cur_thread with
  | Some c => x <- get_tcb (Some c); put_tcb c (set_scheduled false x)
  | None => ret tt
  end;;
  match next_thread with
  | Some n => x <- get_tcb (Some n); put_tcb n (set_scheduled true x)
  | None => ret tt
  end;;
  ret (t_parent t, next_thread).

End Ops.
End Ps.
