(* ===== verification/PsTheorems.v ===== *)
(** * Theorems on processes and scheduling *)

From S2P Require Import Prelude OMap MemConf Ps.
Import MemConf Ps.

Module PsT.

(** ** Process identifiers *)

Section Pid.
Context {W : Type} `{World W}.
Implicit Types (s : ps_st W) (m : gmap Z loc).

(** The process table: every entry is a process with that identifier; all
    identifiers below [ki_min_free_pid] are in use, and none is above
    [ki_cur_max_pid]. *)
Definition table_ok s : Prop :=
  (forall i l, ps_global_proc_set s !! i = Some l ->
     0 <= i < PS_PROC_ID_MAX /\ i <= ki_cur_max_pid s /\ exists p, pcbs s !! l = Some p /\ pid p = i) /\
  0 <= ki_min_free_pid s <= PS_PROC_ID_MAX /\ 0 <= ki_cur_max_pid s /\
  (forall i, 0 <= i < ki_min_free_pid s -> is_Some (ps_global_proc_set s !! i)).

Definition least_free m (i : Z) : Prop := m !! i = None /\ forall j, 0 <= j < i -> is_Some (m !! j).

(** The identifiers from [i] on that are in use *)
Definition from (i : Z) m : gmap Z loc := filter (fun e => i <= e.1) m.

Lemma from_step i m l : m !! i = Some l -> size (from i m) = Datatypes.S (size (from (i + 1) m)).
Proof.
  move=> Hi. rewrite (_ : from (i + 1) m = delete i (from i m)).
  - apply map_eq => k. apply option_eq => v. rewrite map_lookup_filter_Some lookup_delete_Some map_lookup_filter_Some /=.
    split; [move=> [? ?]; split; [lia | split; [done | lia]] | move=> [? [? ?]]; split; [done | lia]].
  - assert (Hf : from i m !! i = Some l) by (apply map_lookup_filter_Some; split; [done | simpl; lia]).
    rewrite map_size_delete_Some; [by eauto|].
    assert (size (from i m) <> 0%nat) by (apply map_size_non_empty_iff => E; by rewrite E lookup_empty in Hf). lia.
Qed.

Lemma find_free_ok s start stop :
  0 <= start <= stop -> stop <= PS_PROC_ID_MAX ->
  exists r, find_free start stop s = Ok (r, s) /\
    match r with
    | Some i => start <= i < stop /\ ps_global_proc_set s !! i = None /\
        forall j, start <= j < i -> is_Some (ps_global_proc_set s !! j)
    | None => forall j, start <= j < stop -> is_Some (ps_global_proc_set s !! j)
    end.
Proof.
  move=> Hs Hm. rewrite /find_free (bind_ok _ _ _ (ps_global_proc_set s) s) //.
  assert (Hn : (size (from start (ps_global_proc_set s)) < Datatypes.S (Datatypes.S (size (ps_global_proc_set s))))%nat).
  { pose proof (map_subseteq_size _ _ (map_filter_subseteq (fun e : Z * loc => start <= e.1) (ps_global_proc_set s))).
    rewrite /from. lia. }
  revert start Hs Hn. generalize (Datatypes.S (Datatypes.S (size (ps_global_proc_set s)))) as n.
  elim => [|n IH] start Hs Hn; [lia|].
  destruct (Z.eqb_spec start stop) as [->|Hne].
  { exists None. split; [by rewrite (loop_exit _ _ _ _ None s) // Z.eqb_refl | lia]. }
  destruct (ps_global_proc_set s !! start) as [l|] eqn:Hl.
  - destruct (IH (start + 1)) as (r & E & Hr); [lia | rewrite (from_step _ _ _ Hl) in Hn; lia |].
    exists r. rewrite (loop_next _ _ _ _ (start + 1) s).
    { rewrite (proj2 (Z.eqb_neq start stop) Hne) /bind /= Hl /ret.
      rewrite /w32 Z.mod_small //. rewrite /PS_PROC_ID_MAX in Hm. lia. }
    split; [done|]. destruct r as [i|].
    + destruct Hr as (Hi & Hn' & Hb). split; [lia | split; [done|]].
      move=> j Hj. destruct (decide (j = start)) as [->|]; [by eauto | apply Hb; lia].
    + move=> j Hj. destruct (decide (j = start)) as [->|]; [by eauto | apply Hr; lia].
  - exists (Some start). split; [|split; [lia | split; [done | lia]]].
    rewrite (loop_exit _ _ _ _ (Some start) s) //. by rewrite (proj2 (Z.eqb_neq start stop) Hne) /bind /= Hl.
Qed.

(** A process that is not in the table *)
Definition unregistered l s : Prop := forall i, ps_global_proc_set s !! i <> Some l.

Definition with_pcb l (p : ps_pcb_t) s : ps_st W :=
  mkPs (ps_global_proc_set s) (ki_min_free_pid s) (ki_cur_max_pid s) (_last_proc_id s)
    (<[l := p]> (pcbs s)) (tcbs s) (ufcbs s) (world s).

(** The state after [l] got the identifier [i] *)
Definition created l p i s : ps_st W :=
  mkPs (<[i := l]> (ps_global_proc_set s)) (i + 1) (Z.max (ki_cur_max_pid s) i) (_last_proc_id s)
    (<[l := set_pid i p]> (pcbs s)) (tcbs s) (ufcbs s) (world s).

Lemma take_pid_eq l p i s :
  pcbs s !! l = Some p -> 0 <= i < PS_PROC_ID_MAX ->
  take_pid l i s =
    Ok (tt, mkPs (ps_global_proc_set s) (i + 1) (Z.max (ki_cur_max_pid s) i) (_last_proc_id s)
              (<[l := set_pid i p]> (pcbs s)) (tcbs s) (ufcbs s) (world s)).
Proof.
  move=> Hp Hi. rewrite /take_pid /bind /get_max.
  rewrite (_ : when (ki_cur_max_pid s <=? i) (set_max i) s =
    Ok (tt, mkPs (ps_global_proc_set s) (ki_min_free_pid s) (Z.max (ki_cur_max_pid s) i) (_last_proc_id s)
              (pcbs s) (tcbs s) (ufcbs s) (world s))).
  - rewrite /when. destruct (Z.leb_spec (ki_cur_max_pid s) i).
    + by rewrite /set_max Z.max_r.
    + rewrite Z.max_l; [lia|]. by destruct s.
  - rewrite /set_min /= Hp /put_pcb /= Hp /set_pcbs /= /w32 Z.mod_small //. rewrite /PS_PROC_ID_MAX in Hi. lia.
Qed.

Lemma create_proc_eq l p parent s :
  table_ok s -> pcbs s !! l = Some p -> unregistered l s ->
  (exists i, least_free (ps_global_proc_set s) i /\ 0 <= i < PS_PROC_ID_MAX /\
     ps_create_proc l parent s = Ok (KM_RESULT_OK, created l p i s)) \/
  ((forall i, 0 <= i < PS_PROC_ID_MAX -> is_Some (ps_global_proc_set s !! i)) /\
     ps_create_proc l parent s = Ok (KM_RESULT_NO_SLOT, with_pcb l (set_pid PS_PROC_ID_MAX p) s)).
Proof.
  intros (Ht & Hmin & Hmax & Hused) Hp Hl.
  set (s1 := with_pcb l (set_pid PS_PROC_ID_MAX p) s).
  destruct (find_free_ok s1 (ki_min_free_pid s) PS_PROC_ID_MAX) as (r & E & Hr); [done | done |].
  rewrite /ps_create_proc /bind /get_pcb Hp /put_pcb Hp /set_pcbs -/(with_pcb _ _ _) -/s1 /get_min.
  change (ki_min_free_pid s1) with (ki_min_free_pid s). rewrite E.
  destruct r as [i|].
  - left. exists i. destruct Hr as (Hi & Hfree & Hb). split; [|split; [lia|]].
    { split; [done|]. move=> j Hj. destruct (decide (j < ki_min_free_pid s)); [apply Hused; lia | apply Hb; lia]. }
    rewrite (take_pid_eq l (set_pid PS_PROC_ID_MAX p)) /= ?lookup_insert_eq //; [lia|].
    rewrite /= (proj2 (Z.eqb_neq i _)); [lia|]. rewrite /= lookup_insert_eq /= (proj2 (Z.eqb_neq i _)); [lia|].
    rewrite bool_decide_false /=; [by rewrite Hfree => - []|]. by rewrite /created insert_insert_eq.
  - right. split.
    { move=> j Hj. destruct (decide (j < ki_min_free_pid s)); [apply Hused; lia | apply Hr; lia]. }
    rewrite /= lookup_insert_eq /= /when.
    destruct (find_free_ok s1 0 (ki_min_free_pid s)) as (r & E2 & Hr2); [lia | lia |].
    rewrite E2. destruct r as [i|].
    { destruct Hr2 as (Hi & Hn & _). destruct (Hused i) as [x Hx]; [lia|]. by rewrite Hx in Hn. }
    by rewrite /= lookup_insert_eq /=.
Qed.

Lemma created_ok l p i s :
  table_ok s -> unregistered l s -> least_free (ps_global_proc_set s) i -> 0 <= i < PS_PROC_ID_MAX ->
  table_ok (created l p i s).
Proof.
  intros (Ht & Hmin & Hmax & Hused) Hl [Hn Hb] Hi. split; [|split; [simpl; lia | split; [simpl; lia|]]].
  - move=> j k /= /lookup_insert_Some [[<- <-]|[Hne Hj]].
    + split; [done | split; [lia|]]. exists (set_pid i p). by rewrite lookup_insert_eq.
    + destruct (Ht _ _ Hj) as (? & ? & q & Hq & <-). split; [done | split; [lia|]].
      exists q. rewrite lookup_insert_ne; [|done]. move=> E. subst k. exact: (Hl _ Hj).
  - move=> j /= Hj. destruct (decide (j = i)) as [->|]; [by rewrite lookup_insert_eq; eauto|].
    rewrite lookup_insert_ne; [by auto|]. apply Hb. lia.
Qed.

(** Taking a process out *)
Lemma unregister_eq i s :
  table_ok s ->
  exists mx, unregister i s =
    Ok (tt, mkPs (delete i (ps_global_proc_set s))
              (if bool_decide (is_Some (ps_global_proc_set s !! i)) then Z.min i (ki_min_free_pid s) else ki_min_free_pid s)
              mx (_last_proc_id s) (pcbs s) (tcbs s) (ufcbs s) (world s)) /\
    0 <= mx /\ forall j l, delete i (ps_global_proc_set s) !! j = Some l -> j <= mx.
Proof.
  intros (Ht & Hmin & Hmax & Hused). rewrite /unregister /bind /get_procs.
  destruct (ps_global_proc_set s !! i) as [l|] eqn:Hl; last first.
  { exists (ki_cur_max_pid s). rewrite bool_decide_false; [by move=> []|]. rewrite delete_id //.
    split; [by destruct s | split; [done|]]. move=> j k Hj. by destruct (Ht _ _ Hj) as (_ & ? & _). }
  rewrite bool_decide_true; [by eauto|]. rewrite /set_procs /get_min /=.
  destruct (Ht _ _ Hl) as (Hi & Him & _).
  rewrite (_ : when (i <? ki_min_free_pid s) (set_min i) _ =
    Ok (tt, mkPs (delete i (ps_global_proc_set s)) (Z.min i (ki_min_free_pid s)) (ki_cur_max_pid s) (_last_proc_id s)
              (pcbs s) (tcbs s) (ufcbs s) (world s))).
  { rewrite /when. destruct (Z.ltb_spec i (ki_min_free_pid s)); [rewrite Z.min_l | rewrite Z.min_r]; by try lia. }
  rewrite /get_max /= /when. destruct (Z.eqb_spec i (ki_cur_max_pid s)) as [E|E].
  - rewrite /bind /get_procs /set_max /=. eexists. split; [done|].
    destruct (OMap.max_lteq (ki_cur_max_pid s) (delete i (ps_global_proc_set s))) as [[k v]|] eqn:Ek.
    + destruct (OMap.max_lteq_some _ _ _ _ Ek) as (Hk & _ & Hb).
      apply lookup_delete_Some in Hk as [_ Hk]. split; [by destruct (Ht _ _ Hk); lia|].
      move=> j x Hj. apply (Hb _ _ Hj). apply lookup_delete_Some in Hj as [_ Hj].
      by destruct (Ht _ _ Hj) as (_ & ? & _).
    + split; [done|]. move=> j x Hj. pose proof (OMap.max_lteq_none _ _ Ek _ _ Hj) as Hlt.
      apply lookup_delete_Some in Hj as [_ Hj]. destruct (Ht _ _ Hj) as (_ & ? & _). lia.
  - exists (ki_cur_max_pid s). split; [done | split; [done|]].
    move=> j x Hj. apply lookup_delete_Some in Hj as [_ Hj]. by destruct (Ht _ _ Hj) as (_ & ? & _).
Qed.

Lemma unregister_ok i s :
  table_ok s -> exists s', unregister i s = Ok (tt, s') /\ table_ok s' /\
    ps_global_proc_set s' = delete i (ps_global_proc_set s) /\ pcbs s' = pcbs s.
Proof.
  move=> Hs. destruct (unregister_eq i s Hs) as (mx & E & Hmx & Hb). rewrite E.
  destruct Hs as (Ht & Hmin & Hmax & Hused). eexists. split; [done | split; [|done]].
  split; [|split; [|split; [done|]]].
  - move=> j l /= Hj. pose proof (Hb _ _ Hj). apply lookup_delete_Some in Hj as [_ Hj].
    destruct (Ht _ _ Hj) as (? & _ & ?). done.
  - rewrite /=. case: bool_decide_reflect => [[l Hl]|_]; [|done]. destruct (Ht _ _ Hl) as (? & _). lia.
  - rewrite /= => j. case: bool_decide_reflect => [[l Hl]|Hn] Hj.
    + rewrite lookup_delete_ne; [lia|]. apply Hused. lia.
    + rewrite lookup_delete_ne; [|by apply Hused]. move=> Eij. subst j. by apply Hn, Hused.
Qed.

End Pid.
(** ** Round robin *)

Section Sched.
Context {W : Type} `{World W}.
Implicit Types (s : ps_st W) (k : Z * Z).

(** Every process has a thread, threads know their process, and identifiers
    have 32 bits. *)
Definition thread_ok s (l : loc) (j : Z) (t : loc) : Prop :=
  0 <= j < 2 ^ 32 /\ exists x, tcbs s !! t = Some x /\ tid x = j /\ t_parent x = Some l.

Definition proc_ok s (i : Z) (l : loc) : Prop :=
  0 <= i < 2 ^ 32 /\ exists p, pcbs s !! l = Some p /\ pid p = i /\ thread_set p <> ∅ /\
    forall j t, thread_set p !! j = Some t -> thread_ok s l j t.

Definition sched_ok s : Prop := forall i l, ps_global_proc_set s !! i = Some l -> proc_ok s i l.

(** Thread [k.2] of process [k.1]; threads are ordered by both. *)
Definition thread_at s k (l t : loc) : Prop :=
  exists p, ps_global_proc_set s !! k.1 = Some l /\ pcbs s !! l = Some p /\ thread_set p !! k.2 = Some t.

Definition code k : Z := k.1 * 2 ^ 32 + k.2.

(** The next thread in the order, or the first one after the last one *)
Definition successor s k k' : Prop :=
  (code k < code k' /\ forall k2 l t, thread_at s k2 l t -> code k < code k2 -> code k' <= code k2) \/
  ((forall k2 l t, thread_at s k2 l t -> code k2 <= code k) /\
   (forall k2 l t, thread_at s k2 l t -> code k' <= code k2)).

Lemma at_range s k l t : sched_ok s -> thread_at s k l t -> 0 <= k.1 < 2 ^ 32 /\ 0 <= k.2 < 2 ^ 32.
Proof.
  move=> Hs [p [Hk [Hp Ht]]]. destruct (Hs _ _ Hk) as (Hi & q & Hq & _ & _ & Hth).
  rewrite Hp in Hq. injection Hq as <-. split; [done | exact: (proj1 (Hth _ _ Ht))].
Qed.

Lemma code_lt k k' : 0 <= k.2 < 2 ^ 32 -> 0 <= k'.2 < 2 ^ 32 ->
  code k < code k' <-> k.1 < k'.1 \/ (k.1 = k'.1 /\ k.2 < k'.2).
Proof. rewrite /code. nia. Qed.

Lemma at_code s k k' l t l' t' :
  sched_ok s -> thread_at s k l t -> thread_at s k' l' t' -> code k = code k' -> l = l' /\ t = t'.
Proof.
  move=> Hs Hk Hk' E. pose proof (at_range _ _ _ _ Hs Hk) as [? ?]. pose proof (at_range _ _ _ _ Hs Hk') as [? ?].
  assert (k = k') as <- by (destruct k, k'; rewrite /code /= in E *; simpl in *; f_equal; nia).
  destruct Hk as (p & Ha & Hb & Hc), Hk' as (p' & Ha' & Hb' & Hc').
  rewrite Ha in Ha'. injection Ha' as <-. rewrite Hb in Hb'. injection Hb' as <-. rewrite Hc in Hc'. by injection Hc' as <-.
Qed.

(** The first thread of a process *)
Lemma first_thread s i l :
  sched_ok s -> ps_global_proc_set s !! i = Some l ->
  exists j t, ps_proc_thread_set_begin (Some l) s = Ok (Some t, s) /\ thread_at s (i, j) l t /\
    forall j' t', thread_at s (i, j') l t' -> j <= j'.
Proof.
  move=> Hs Hl. destruct (Hs _ _ Hl) as (_ & p & Hp & _ & Hne & _).
  rewrite /ps_proc_thread_set_begin /bind /get_pcb Hp.
  destruct (OMap.first (thread_set p)) as [[j t]|] eqn:Ef.
  - destruct (OMap.first_some _ _ _ Ef) as [Hj Hb]. exists j, t. split; [done | split; [by exists p|]].
    move=> j' t' [q [_ [Hq Ht]]]. rewrite Hp in Hq. injection Hq as <-. exact: Hb Ht.
  - by apply OMap.first_none in Ef.
Qed.

Lemma begin_least s k0 l0 t0 :
  sched_ok s -> thread_at s k0 l0 t0 ->
  exists l, ps_global_proc_set_begin s = Ok (Some l, s) /\
    exists k t, ps_proc_thread_set_begin (Some l) s = Ok (Some t, s) /\ thread_at s k l t /\
      forall k2 l2 t2, thread_at s k2 l2 t2 -> code k <= code k2.
Proof.
  move=> Hs Hk0. rewrite /ps_global_proc_set_begin /bind /get_procs.
  destruct (OMap.first (ps_global_proc_set s)) as [[i l]|] eqn:Ef.
  - destruct (OMap.first_some _ _ _ Ef) as [Hi Hb]. exists l. split; [done|].
    destruct (first_thread s i l Hs Hi) as (j & t & E & Hat & Hmin).
    exists (i, j), t. split; [done | split; [done|]]. move=> k2 l2 t2 Hk2.
    pose proof (at_range _ _ _ _ Hs Hk2) as [? ?]. pose proof (at_range _ _ _ _ Hs Hat) as [? ?]. simpl in *.
    destruct Hk2 as (p2 & Hi2 & Hp2 & Hj2). pose proof (Hb _ _ Hi2). rewrite /code /=.
    destruct (decide (k2.1 = i)) as [E1|]; [|nia]. rewrite E1 in Hi2. rewrite Hi in Hi2. injection Hi2 as <-.
    assert (j <= k2.2) by (apply (Hmin _ t2); exists p2; by rewrite /= Hi). nia.
  - destruct Hk0 as (p & Hi & _). apply OMap.first_none in Ef. by rewrite Ef lookup_empty in Hi.
Qed.

Lemma next_thread_ok s k l t :
  sched_ok s -> thread_at s k l t ->
  exists k' l' t', ps_simploop_sched_next_thread (Some l) (Some t) s = Ok (Some t', s) /\
    thread_at s k' l' t' /\ successor s k k'.
Proof.
  move=> Hs Hk. pose proof (at_range _ _ _ _ Hs Hk) as [Hr1 Hr2].
  pose proof Hk as (p & Hi & Hp & Ht). destruct (Hs _ _ Hi) as (_ & q & Hq & Hpid & _ & Hth).
  rewrite Hp in Hq. injection Hq as <-. destruct (Hth _ _ Ht) as (_ & x & Hx & Htid & _).
  rewrite /ps_simploop_sched_next_thread /=. rewrite (bind_ok _ _ s (option_map snd (OMap.next (tid x) (thread_set p))) s);
    [by rewrite /ps_proc_thread_set_next /bind /get_pcb Hp /get_tcb Hx|]. rewrite Htid.
  destruct (OMap.next k.2 (thread_set p)) as [[j t']|] eqn:En.
  { destruct (OMap.next_some _ _ _ _ En) as (Hj & Hlt & Hb). exists (k.1, j), l, t'.
    split; [done | split; [by exists p|]]. left. destruct (Hth _ _ Hj) as (Hjr & _).
    split; [apply code_lt; [done | done | by right]|]. move=> k2 l2 t2 Hk2 Hc.
    pose proof (at_range _ _ _ _ Hs Hk2) as [? ?]. apply code_lt in Hc; [|done..].
    destruct Hc as [Hc|[E1 Hc]]; [rewrite /code /=; nia|].
    destruct Hk2 as (p2 & Hi2 & Hp2 & Hj2). rewrite -E1 Hi in Hi2. injection Hi2 as <-.
    rewrite Hp in Hp2. injection Hp2 as <-. pose proof (Hb _ _ Hj2 Hc). rewrite /code /=. nia. }
  assert (Hlast : forall j t2, thread_set p !! j = Some t2 -> j <= k.2) by exact: OMap.next_none En.
  rewrite /= (bind_ok _ _ s (option_map snd (OMap.next k.1 (ps_global_proc_set s))) s);
    [by rewrite /ps_global_proc_set_next /bind /get_pcb Hp /get_procs Hpid|].
  destruct (OMap.next k.1 (ps_global_proc_set s)) as [[i' l']|] eqn:Ep; simpl.
  - destruct (OMap.next_some _ _ _ _ Ep) as (Hi' & Hlt & Hb). rewrite bind_ret.
    destruct (first_thread s i' l' Hs Hi') as (j' & t' & E & Hat & Hmin).
    exists (i', j'), l', t'. split; [done | split; [done|]]. left.
    pose proof (at_range _ _ _ _ Hs Hat) as [? ?]. simpl in *.
    split; [apply code_lt; [done | done | by left]|]. move=> k2 l2 t2 Hk2 Hc.
    pose proof (at_range _ _ _ _ Hs Hk2) as [? ?]. apply code_lt in Hc; [|done..].
    destruct Hk2 as (p2 & Hi2 & Hp2 & Hj2). destruct Hc as [Hc|[E1 Hc]].
    + pose proof (Hb _ _ Hi2 Hc). rewrite /code /=. destruct (decide (k2.1 = i')) as [E1|]; [|nia].
      rewrite E1 Hi' in Hi2. injection Hi2 as <-.
      assert (j' <= k2.2) by (apply (Hmin _ t2); exists p2; by rewrite /= Hi'). nia.
    + rewrite -E1 Hi in Hi2. injection Hi2 as <-. rewrite Hp in Hp2. injection Hp2 as <-.
      pose proof (Hlast _ _ Hj2). lia.
  - destruct (begin_least s k l t Hs Hk) as (l' & El & k' & t' & Et & Hat & Hmin).
    rewrite (bind_ok _ _ _ _ _ El). exists k', l', t'. split; [done | split; [done|]]. right. split; [|done].
    move=> k2 l2 t2 Hk2. pose proof (at_range _ _ _ _ Hs Hk2) as [? ?].
    destruct Hk2 as (p2 & Hi2 & Hp2 & Hj2). pose proof (OMap.next_none _ _ Ep _ _ Hi2). rewrite /code.
    destruct (decide (k2.1 = k.1)) as [E1|]; [|nia]. rewrite E1 Hi in Hi2. injection Hi2 as <-.
    rewrite Hp in Hp2. injection Hp2 as <-. pose proof (Hlast _ _ Hj2). nia.
Qed.

(** Switching address spaces returns. *)
Class SwitchReturns (W : Type) `{World W} : Prop :=
  switch_ok : forall c w, exists w', mm_switch_context c w = Ok (tt, w').
Context {SW : SwitchReturns W}.

(** Only the marks on threads and the rest of the kernel differ. *)
Definition like s s' : Prop :=
  ps_global_proc_set s' = ps_global_proc_set s /\ pcbs s' = pcbs s /\
  forall t x, tcbs s !! t = Some x -> exists x', tcbs s' !! t = Some x' /\ tid x' = tid x /\ t_parent x' = t_parent x.

Lemma like_at s s' k l t : like s s' -> thread_at s k l t <-> thread_at s' k l t.
Proof. intros (E1 & E2 & _). by rewrite /thread_at E1 E2. Qed.

Lemma like_ok s s' : like s s' -> sched_ok s -> sched_ok s'.
Proof.
  intros (E1 & E2 & E3) Hs i l. rewrite E1. intros (Hi & p & Hp & Hpid & Hne & Hth)%Hs.
  split; [done|]. exists p. rewrite E2. split; [done | split; [done | split; [done|]]].
  intros j t (Hj & x & Hx & Htid & Hpar)%Hth. destruct (E3 _ _ Hx) as (x' & Hx' & Et & Ep).
  split; [done|]. exists x'. by rewrite Et Ep.
Qed.

Lemma like_trans s1 s2 s3 : like s1 s2 -> like s2 s3 -> like s1 s3.
Proof.
  intros (E1 & E2 & E3) (F1 & F2 & F3). split; [by rewrite F1 | split; [by rewrite F2|]].
  intros t x (x' & Hx' & <- & <-)%E3. exact: F3.
Qed.

Lemma mark_ok s t x b :
  tcbs s !! t = Some x -> exists s', put_tcb t (set_scheduled b x) s = Ok (tt, s') /\ like s s'.
Proof.
  move=> Hx. rewrite /put_tcb Hx. eexists. split; [done|]. split; [done | split; [done|]].
  move=> t' y /= Hy. destruct (decide (t' = t)) as [->|Hne].
  - rewrite lookup_insert_eq. rewrite Hx in Hy. injection Hy as <-. by eexists.
  - rewrite lookup_insert_ne; [by auto|]. by exists y.
Qed.

Lemma at_tcb s k l t : sched_ok s -> thread_at s k l t -> exists x, tcbs s !! t = Some x /\ t_parent x = Some l.
Proof.
  intros Hs (p & Hi & Hp & Ht). destruct (Hs _ _ Hi) as (_ & q & Hq & _ & _ & Hth).
  rewrite Hp in Hq. injection Hq as <-. destruct (Hth _ _ Ht) as (_ & x & Hx & _ & Hpar). by exists x.
Qed.

Lemma switch_like s l :
  is_Some (pcbs s !! l) -> exists s', ki_switch_to_user_process (Some l) s = Ok (tt, s') /\ like s s'.
Proof.
  move=> [p Hp]. rewrite /ki_switch_to_user_process /bind /get_pcb Hp /lift.
  destruct (switch_ok (mm_context p) (world s)) as [w' ->]. eexists. split; [done|].
  split; [done | split; [done|]]. move=> t x Hx. by exists x.
Qed.

Lemma timer_ok s k l t :
  sched_ok s -> thread_at s k l t ->
  exists k' l' t' s', timer_schedule (Some l) (Some t) s = Ok ((Some l', Some t'), s') /\
    like s s' /\ thread_at s k' l' t' /\ successor s k k'.
Proof.
  move=> Hs Hk. destruct (next_thread_ok s k l t Hs Hk) as (k' & l' & t' & E & Hk' & Hsucc).
  destruct (at_tcb _ _ _ _ Hs Hk') as (x' & Hx' & Hpar).
  rewrite /timer_schedule (bind_ok _ _ _ _ _ E) bind_assert.
  rewrite (bind_ok (get_tcb (Some t')) _ s x' s); [by rewrite /get_tcb Hx'|]. rewrite Hpar.
  assert (H1 : exists s1, when (negb (ptr_eqb (Some l') (Some l))) (ki_switch_to_user_process (Some l')) s = Ok (tt, s1) /\ like s s1).
  { destruct (ptr_eqb (Some l') (Some l)); simpl.
    - exists s. split; [done | split; [done | split; [done | by eauto]]].
    - apply switch_like. destruct Hk' as (p & _ & Hp & _). by eauto. }
  destruct H1 as (s1 & E1 & L1). rewrite (bind_ok _ _ _ _ _ E1).
  pose proof (proj1 (like_at s s1 k l t L1) Hk) as Hk1.
  destruct (at_tcb _ _ _ _ (like_ok _ _ L1 Hs) Hk1) as (x1 & Hx1 & _).
  destruct (mark_ok s1 t x1 false Hx1) as (s2 & E2 & L2). pose proof (like_trans _ _ _ L1 L2) as L02.
  pose proof (proj1 (like_at s s2 k' l' t' L02) Hk') as Hk2.
  destruct (at_tcb _ _ _ _ (like_ok _ _ L02 Hs) Hk2) as (x2 & Hx2 & _).
  destruct (mark_ok s2 t' x2 true Hx2) as (s3 & E3 & L3).
  exists k', l', t', s3. split; [|split; [exact: like_trans L3 | by split]].
  rewrite (bind_ok _ _ s1 tt s2); [by rewrite /bind /get_tcb Hx1 E2|].
  by rewrite (bind_ok _ _ s2 tt s3); [rewrite /bind /get_tcb Hx2 E3|].
Qed.

Fixpoint ticks (n : nat) (c : ptr * ptr) : M (ps_st W) (ptr * ptr) :=
  match n with O => ret c | Datatypes.S n => c' <- timer_schedule c.1 c.2; ticks n c' end.

Lemma ticks_add n m c s c' s' : ticks n c s = Ok (c', s') -> ticks (n + m) c s = ticks m c' s'.
Proof.
  elim: n c s => [|n IH] c s /=; first by move=> [<- <-].
  rewrite /bind. destruct (timer_schedule c.1 c.2 s) as [[c1 s1]| | |] => //. exact: IH.
Qed.

(** Some number of ticks leads from one thread to the other. *)
Definition leads s (l t l' t' : loc) : Prop :=
  exists n s', ticks n (Some l, Some t) s = Ok ((Some l', Some t'), s') /\ like s s'.

Lemma leads_refl s l t : leads s l t l t.
Proof. exists 0%nat, s. split; [done | split; [done | split; [done | by eauto]]]. Qed.

Lemma leads_step s k l t k' l' t' l2 t2 s' :
  timer_schedule (Some l) (Some t) s = Ok ((Some l', Some t'), s') -> like s s' ->
  leads s' l' t' l2 t2 -> thread_at s k' l' t' -> thread_at s k l t -> leads s l t l2 t2.
Proof.
  intros E L (n & s2 & En & L2) _ _. exists (Datatypes.S n), s2. split; [|exact: like_trans L2].
  by rewrite /= (bind_ok _ _ _ _ _ E).
Qed.

Lemma successor_like s s' k k' : like s s' -> successor s k k' -> successor s' k k'.
Proof.
  move=> L. rewrite /successor => - [[Hc Hb]|[Ha Hb]]; [left | right]; (split; [|]); try done;
    move=> k2 l2 t2 /(like_at _ _ _ _ _ L) Hk2; eauto.
Qed.

(** Upwards in the order *)
Lemma climb d : forall s k l t k2 l2 t2,
  sched_ok s -> thread_at s k l t -> thread_at s k2 l2 t2 -> code k <= code k2 -> code k2 - code k <= Z.of_nat d ->
  leads s l t l2 t2.
Proof.
  elim: d => [|d IH] s k l t k2 l2 t2 Hs Hk Hk2 Hle Hd.
  { destruct (at_code s k k2 l t l2 t2 Hs Hk Hk2) as [-> ->]; [lia | exact: leads_refl]. }
  destruct (decide (code k = code k2)) as [E|Hne].
  { destruct (at_code s k k2 l t l2 t2 Hs Hk Hk2) as [-> ->]; [lia | exact: leads_refl]. }
  destruct (timer_ok s k l t Hs Hk) as (k' & l' & t' & s' & E & L & Hk' & Hsucc).
  destruct Hsucc as [[Hc Hb]|[Ha _]]; [|pose proof (Ha _ _ _ Hk2); lia].
  pose proof (Hb _ _ _ Hk2 ltac:(lia)).
  apply (leads_step s k l t k' l' t' l2 t2 s' E L); [|done..].
  apply (IH s' k' l' t' k2 l2 t2 (like_ok _ _ L Hs)); [by apply (like_at _ _ _ _ _ L) | by apply (like_at _ _ _ _ _ L) | lia | lia].
Qed.

(** From every thread the order starts over. *)
Lemma wrap d : forall s k l t k2 l2 t2,
  sched_ok s -> thread_at s k l t -> thread_at s k2 l2 t2 -> 2 ^ 64 - code k <= Z.of_nat d -> leads s l t l2 t2.
Proof.
  elim: d => [|d IH] s k l t k2 l2 t2 Hs Hk Hk2 Hd.
  { pose proof (at_range _ _ _ _ Hs Hk) as [? ?]. rewrite /code in Hd. nia. }
  destruct (timer_ok s k l t Hs Hk) as (k' & l' & t' & s' & E & L & Hk' & Hsucc).
  apply (leads_step s k l t k' l' t' l2 t2 s' E L); [|done..].
  pose proof (proj1 (like_at _ _ _ _ _ L) Hk') as Hk1. pose proof (proj1 (like_at _ _ _ _ _ L) Hk2) as Hk21.
  destruct Hsucc as [[Hc Hb]|[_ Hb]].
  - apply (IH s' k' l' t' k2 l2 t2 (like_ok _ _ L Hs) Hk1 Hk21). lia.
  - apply (climb (Z.to_nat (code k2 - code k')) s' k' l' t' k2 l2 t2 (like_ok _ _ L Hs) Hk1 Hk21).
    + exact: Hb Hk2.
    + lia.
Qed.

End Sched.
(** ** A concrete kernel around the processes *)

Section Concrete.

#[local] Instance calm : World positive := {
  kalloc w := Ok (Some w, Pos.succ w);
  kfree _ w := Ok (tt, w);
  mm_alloc_context w := Ok ((KM_RESULT_OK, Some w), Pos.succ w);
  mm_free_context _ w := Ok (tt, w);
  ps_alloc_context w := Ok (Some w, Pos.succ w);
  ps_destroy_context _ w := Ok (tt, w);
  mm_getmap _ _ w := Ok (0, w);
  mm_pgfree _ w := Ok (tt, w);
  fs_ref_fnode _ w := Ok (tt, w);
  fs_unref_fnode _ w := Ok (tt, w);
  prepare_proc _ w := Ok (KM_RESULT_OK, w);
  prepare_thread _ w := Ok (KM_RESULT_OK, w);
  drop_proc _ w := Ok (tt, w);
  drop_thread _ w := Ok (tt, w);
  mm_switch_context _ w := Ok (tt, w);
  clear_order m := (map_to_list m).*2
}.

#[local] Instance calm_switch : SwitchReturns positive.
Proof. move=> c w. by exists w. Qed.

(** Processes 0 and 2, the threads 1 and 5 of process 0 and the thread 3 of process 2 *)
Definition two_procs : ps_st positive :=
  mkPs {[0 := 1%positive; 2 := 2%positive]} 1 2 0
    {[1%positive := mkPcb 0 5 None {[1 := 11%positive; 5 := 12%positive]} 1 None ∅ 0;
      2%positive := mkPcb 2 3 None {[3 := 13%positive]} 1 None ∅ 0;
      4%positive := mkPcb 0 0 None ∅ 1 None ∅ 0]}
    {[11%positive := mkTcb 1 (Some 1%positive) None 0 0 false;
      12%positive := mkTcb 5 (Some 1%positive) None 0 0 false;
      13%positive := mkTcb 3 (Some 2%positive) None 0 0 false]} ∅ 20%positive.

Lemma two_procs_table i l : ps_global_proc_set two_procs !! i = Some l ->
  (i = 0 /\ l = 1%positive) \/ (i = 2 /\ l = 2%positive).
Proof. move=> /lookup_insert_Some [[<- <-]|[_ /lookup_singleton_Some [<- <-]]]; tauto. Qed.

Lemma two_procs_ok : table_ok two_procs.
Proof.
  split; [|split; [done | split; [done|]]].
  - move=> i l /two_procs_table [[-> ->]|[-> ->]]; (split; [done | split; [done | by eexists]]).
  - move=> i /= Hi. assert (i = 0) as -> by lia. by eexists.
Qed.

Lemma two_procs_sched : sched_ok two_procs.
Proof.
  move=> i l /two_procs_table [[-> ->]|[-> ->]]; (split; [done|]); eexists; (split; [done | split; [done | split; [done|]]]).
  - move=> j t /lookup_insert_Some [[<- <-]|[_ /lookup_singleton_Some [<- <-]]]; (split; [done | by eexists]).
  - move=> j t /lookup_singleton_Some [<- <-]. split; [done | by eexists].
Qed.

(** C26: [ps_create_proc] registers a process that is not registered yet under
    the least identifier that is not in use and keeps the process table in
    order; only when every identifier is in use it fails, with [NO_SLOT], and
    leaves the table as it was.  The search ends whatever the table holds. *)
Theorem create_proc_correct {W} `{World W} (s : ps_st W) l p parent :
  table_ok s -> pcbs s !! l = Some p -> unregistered l s ->
  exists r s', ps_create_proc l parent s = Ok (r, s') /\ table_ok s' /\
    match r with
    | KM_RESULT_OK => exists i, least_free (ps_global_proc_set s) i /\ 0 <= i < PS_PROC_ID_MAX /\
        ps_global_proc_set s' = <[i := l]> (ps_global_proc_set s) /\ pcbs s' = <[l := set_pid i p]> (pcbs s)
    | KM_RESULT_NO_SLOT =>
        (forall i, 0 <= i < PS_PROC_ID_MAX -> is_Some (ps_global_proc_set s !! i)) /\
        ps_global_proc_set s' = ps_global_proc_set s
    | _ => False
    end.
Proof.
  move=> Hs Hp Hl. destruct (create_proc_eq l p parent s Hs Hp Hl) as [(i & Hf & Hi & E)|[Hall E]]; rewrite E.
  - do 2 eexists. split; [done | split; [exact: created_ok | by exists i]].
  - do 2 eexists. split; [done | split; [|done]].
    destruct Hs as (Ht & Hrest). split; [|done]. move=> j k /= Hj.
    destruct (Ht _ _ Hj) as (? & ? & q & Hq & Eq). split; [done | split; [done|]].
    exists q. rewrite lookup_insert_ne; [|done]. move=> El. subst k. exact: (Hl _ Hj).
Qed.

Lemma create_proc_correct_witness :
  exists r s', ps_create_proc 4 0 two_procs = Ok (r, s') /\ table_ok s' /\
    (r = KM_RESULT_OK -> exists i, least_free (ps_global_proc_set two_procs) i).
Proof.
  destruct (create_proc_correct two_procs 4 (mkPcb 0 0 None ∅ 1 None ∅ 0) 0 two_procs_ok eq_refl) as (r & s' & E & Ht & Hr).
  - move=> i Hi. by destruct (two_procs_table _ _ Hi) as [[_ ?]|[_ ?]].
  - exists r, s'. split; [exact E | split; [exact Ht|]]. move=> Er. subst r. destruct Hr as (i & Hi & _). by exists i.
Defined.

(** C27: the round robin is fair.  When every process has a thread, ticks of
    the timer lead from any running thread to any other thread, and the
    threads and processes stay as they are. *)
Theorem round_robin_fair {W} `{World W} `{!SwitchReturns W} (s : ps_st W) k l t k2 l2 t2 :
  sched_ok s -> thread_at s k l t -> thread_at s k2 l2 t2 ->
  exists n s', ticks n (Some l, Some t) s = Ok ((Some l2, Some t2), s') /\ like s s'.
Proof. move=> Hs Hk Hk2. exact: (wrap (Z.to_nat (2 ^ 64 - code k)) s k l t k2 l2 t2 Hs Hk Hk2 ltac:(lia)). Qed.

Lemma round_robin_fair_witness :
  exists n s', ticks n (Some 2%positive, Some 13%positive) two_procs = Ok ((Some 1%positive, Some 12%positive), s') /\
    like two_procs s'.
Proof.
  apply (round_robin_fair two_procs (2, 3) 2 13 (0, 5) 1 12 two_procs_sched); by eexists.
Defined.

(** A process that [ps_exec] could not load has never been registered and
    its identifier is still 0, so destroying it takes the process that has the
    identifier 0 out of the table. *)
Theorem failed_exec_removes_first (s : ps_st positive) l0 parent :
  table_ok s -> ps_global_proc_set s !! 0 = Some l0 -> pcbs s !! world s = None ->
  exists s', ps_exec [fun _ => ret KM_RESULT_MALFORMED] parent s = Ok (KM_RESULT_MALFORMED, s') /\
    ps_global_proc_set s' = delete 0 (ps_global_proc_set s).
Proof.
  move=> Hs H0 Hfresh. rewrite /ps_exec /bind /ki_alloc_proc_id /ps_alloc_pcb /bind /lift /=.
  rewrite lookup_insert_eq /put_pcb /= lookup_insert_eq /set_pcbs /= lookup_insert_eq /= lookup_insert_eq /=.
  rewrite /ki_destroy_proc /bind /= lookup_insert_eq /= !insert_insert_eq.
  match goal with |- context [unregister 0 ?st] => set (s1 := st) end.
  assert (Hs1 : table_ok s1).
  { destruct Hs as (Ht & Hrest). split; [|done]. move=> j k /= Hj.
    destruct (Ht _ _ Hj) as (? & ? & q & Hq & Eq). split; [done | split; [done|]].
    exists q. rewrite lookup_insert_ne; [|done]. move=> El. subst k. by rewrite Hfresh in Hq. }
  destruct (unregister_ok 0 s1 Hs1) as (s2 & E & _ & Hset & Hpcbs). rewrite E.
  change (has PS_PROC_P PS_PROC_P) with true.
  rewrite /when /= /lift /= Hpcbs /= !lookup_insert_eq /= map_to_list_empty /= lookup_insert_eq /=.
  eexists. split; [done|]. by rewrite /= Hset.
Qed.

Lemma failed_exec_removes_first_witness :
  exists s', ps_exec [fun _ => ret KM_RESULT_MALFORMED] 0 two_procs = Ok (KM_RESULT_MALFORMED, s') /\
    ps_global_proc_set s' = delete 0 (ps_global_proc_set two_procs).
Proof. exact (failed_exec_removes_first two_procs 1 0 two_procs_ok eq_refl eq_refl). Defined.

(** [ps_create_thread] registers every thread under the identifier 0, the
    second one panics; destroying a thread releases its block twice. *)
Example second_thread_panics :
  (ps_create_thread (Some 4%positive) 1;; ps_create_thread (Some 4%positive) 1) two_procs = Panic.
Proof. by vm_compute. Qed.

(** A failed allocation uses the process after it was released. *)
Example failed_context_faults :
  match abandon 4 two_procs with Fault => True | _ => False end.
Proof. by vm_compute. Qed.

End Concrete.
End PsT.
