(* ===== verification/KDyn.v ===== *)
(** * Dynamic arrays

    include/pbos/kfxx/dynarray.hh for a trivial element type [T] of [SZ]
    bytes: the branches that the compiler takes when construction, moves and
    destruction are trivial.  A buffer is a list of elements of which some are
    uninitialised ([None]); an access outside it is a [Fault].  A block has as
    many elements as fit in the bytes that were asked for, which wrap around.
    The allocator says whether a block is granted. *)

From S2P Require Import Prelude.

Module KDyn.

(** The allocators, on a state of their own: whether the allocator at an
    address grants a block of so many bytes, or another size for one, the
    return of a block, and the kind of the allocator *)
Class Blocks (A : Type) := {
  grant : loc -> Z -> A -> bool * A;
  regrant : loc -> Z -> Z -> A -> bool * A;
  give_back : loc -> Z -> A -> A;
  type_identity : loc -> Z
}.

(** [DynArray]; [_data] is [None] for a null pointer. *)
Record dynarray (T : Type) := mkDyn {
  _length : Z;
  _capacity : Z;
  _allocator : ptr;
  _data : option (list (option T))
}.
Arguments mkDyn {T}.
Arguments _length {T}.
Arguments _capacity {T}.
Arguments _allocator {T}.
Arguments _data {T}.

(** An array and the allocators *)
Record dyn_st (T A : Type) := mkSt { arr : dynarray T; heap : A }.
Arguments mkSt {T A}.
Arguments arr {T A}.
Arguments heap {T A}.

(** ** Capacities *)

Definition _get_grown_capacity (length old_capacity : Z) : Z :=
  if old_capacity =? 0 then length
  else
    let new_capacity := w64 (old_capacity + Z.shiftr old_capacity 1) in
    if new_capacity <? length then length else new_capacity.

Definition _get_shrinked_capacity (length old_capacity : Z) : Z :=
  if old_capacity =? 0 then length
  else
    let new_capacity := Z.shiftr old_capacity 1 in
    if length <? new_capacity then length else new_capacity.

Definition _check_capacity (length capacity : Z) : Z :=
  if capacity <? length then 1
  else if capacity <? Z.shiftr length 1 then -1
  else 0.

Section Ops.
Context {T A : Type} `{Blocks A}.
Variable SZ : Z.

Abbreviation DM := (M (dyn_st T A)).
Abbreviation buffer := (list (option T)).

(** ** The fields and the memory behind [_data] *)

Definition this : DM (dynarray T) := fun s => Ok (arr s, s).

Definition set_length (n : Z) : DM unit := fun s =>
  Ok (tt, mkSt (mkDyn n (_capacity (arr s)) (_allocator (arr s)) (_data (arr s))) (heap s)).

Definition set_all (len cap : Z) (b : option buffer) : DM unit := fun s =>
  Ok (tt, mkSt (mkDyn len cap (_allocator (arr s)) b) (heap s)).

(** The elements of a new block *)
Definition block (capacity : Z) : buffer := repeat None (Z.to_nat (w64 (capacity * SZ) / SZ)).

(** What the allocator of the array answers *)
Definition ask (request : loc -> A -> bool * A) : DM bool := fun s =>
  match _allocator (arr s) with
  | None => Fault
  | Some al => let '(ok, a) := request al (heap s) in Ok (ok, mkSt (arr s) a)
  end.

(** [_allocator->alloc] *)
Definition alloc (capacity : Z) : DM (option buffer) :=
  ok <- ask (fun al => grant al (w64 (capacity * SZ)));
  ret (if ok : bool then Some (block capacity) else None).

(** [_allocator->realloc] keeps what fits. *)
Definition realloc (old : buffer) (capacity : Z) : DM (option buffer) :=
  d <- this;
  ok <- ask (fun al => regrant al (w64 (SZ * _capacity d)) (w64 (capacity * SZ)));
  ret (if ok : bool
       then let new := block capacity in Some (take (length new) old ++ drop (length old) new)
       else None).

(** [memmove] between two places of the buffer *)
Definition memmove (to from n : Z) (b : buffer) : option buffer :=
  if (0 <=? to) && (0 <=? from) && (0 <=? n) &&
     (to + n <=? Z.of_nat (length b)) && (from + n <=? Z.of_nat (length b))
  then Some (take (Z.to_nat to) b ++ take (Z.to_nat n) (drop (Z.to_nat from) b) ++ drop (Z.to_nat (to + n)) b)
  else None.

(** [_move_data(_data + to, _data + from, n)]; a count whose bytes wrap around
    leaves the buffer. *)
Definition _move_data (to from n : Z) : DM unit := fun s =>
  if n =? 0 then Ok (tt, s)
  else match _data (arr s) ≫= memmove to from n with
       | Some b => set_all (_length (arr s)) (_capacity (arr s)) (Some b) s
       | None => Fault
       end.

(** [construct_at(&_data[i], x)] *)
Definition construct_at (i : Z) (x : option T) : DM unit := fun s =>
  match _data (arr s) with
  | Some b => if (0 <=? i) && (i <? Z.of_nat (length b))
              then set_all (_length (arr s)) (_capacity (arr s)) (Some (<[Z.to_nat i := x]> b)) s
              else Fault
  | None => Fault
  end.

(** [d._data[i]] *)
Definition load (d : dynarray T) (i : Z) : DM (option T) := fun s =>
  match _data d with
  | Some b => if 0 <=? i then match b !! Z.to_nat i with Some x => Ok (x, s) | None => Fault end else Fault
  | None => Fault
  end.

(** ** Private operations *)

(** With trivial elements in place, these only check. *)
Definition _expand_to (length : Z) : DM unit := d <- this; kd_assert (_length d <? length).
Definition _shrink (length : Z) : DM unit := d <- this; kd_assert (length <? _length d).

(** [_clear] *)
Definition _clear : DM unit := fun s =>
  let d := arr s in
  if _capacity d =? 0 then Ok (tt, mkSt (mkDyn 0 0 (_allocator d) None) (heap s))
  else match _allocator d with
       | Some al => Ok (tt, mkSt (mkDyn 0 0 (_allocator d) None) (give_back al (w64 (SZ * _capacity d)) (heap s)))
       | None => Fault
       end.

(** The block of a new capacity, and its installation *)
Definition new_block (new_capacity : Z) : DM (option buffer) :=
  d <- this;
  match _data d with Some b => realloc b new_capacity | None => alloc new_capacity end.

Definition install (length new_capacity : Z) (b : buffer) : DM unit :=
  d <- this;
  when (match _data d with None => true | Some _ => false end) _clear;;
  set_all length new_capacity (Some b).

Definition _grow_capacity (length new_capacity : Z) : DM bool :=
  d <- this;
  kd_assert (_length d <? new_capacity);;
  kd_assert (_length d <? length);;
  new_data <- new_block new_capacity;
  match new_data with
  | None => ret false
  | Some b => install length new_capacity b;; ret true
  end.

Definition _shrink_capacity (length new_capacity : Z) : DM bool :=
  d <- this;
  kd_assert (length <=? _length d);;
  kd_assert (new_capacity <=? _capacity d);;
  new_data <- new_block new_capacity;
  match new_data with
  | None => ret false
  | Some b => install length new_capacity b;; ret true
  end.

Definition _auto_grow_capacity (length : Z) : DM bool :=
  d <- this;
  if _capacity d <? length then _grow_capacity length (_get_grown_capacity length (_capacity d)) else ret true.

Definition _auto_shrink_capacity (length : Z) : DM bool :=
  d <- this;
  if length =? 0 then _clear;; ret true
  else if length <? Z.shiftr (_capacity d) 1
  then _shrink_capacity length (_get_shrinked_capacity length (_capacity d))
  else ret true.

(** ** Resizing *)

Definition resize_and_shrink (length : Z) : DM bool :=
  d <- this;
  if _length d <? length then
    if _capacity d <? length then _grow_capacity length length
    else
      ok <- _shrink_capacity length length;
      if ok : bool then _expand_to length;; ret true else ret false
  else if length <? _length d then _shrink_capacity length length
  else ret true.

Definition resize (length : Z) : DM bool :=
  d <- this;
  if _length d <? length then
    if _capacity d <? length then _auto_grow_capacity length
    else _expand_to length;; set_length length;; ret true
  else if length <? _length d then _shrink length;; set_length length;; ret true
  else ret true.

(** The variants that construct nothing do the same for trivial elements. *)
Definition resize_and_shrink_uninit (length : Z) : DM bool := resize_and_shrink length.
Definition resize_uninit (length : Z) : DM bool := resize length.

Definition shrink_to_fit : DM bool :=
  d <- this;
  if _capacity d <? _length d then _shrink_capacity (_length d) (_length d) else ret true.

Definition clear : DM unit :=
  ok <- resize_uninit 0;
  if ok : bool then ret tt else panic.

Definition clear_and_shrink : DM unit := _clear.

(** ** Removing and keeping a range *)

Definition erase_range (idx_start idx_end : Z) : DM unit :=
  d <- this;
  kd_assert (idx_start <? _length d);;
  kd_assert (idx_end <=? _length d);;
  let gap_length := w64 (idx_end - idx_start) in
  let new_length := w64 (_length d - gap_length) in
  _move_data idx_start idx_end (w64 (_length d - idx_end));;
  set_length new_length.

Definition erase_range_and_shrink (idx_start idx_end : Z) : DM bool :=
  d <- this;
  kd_assert (idx_start <? _length d);;
  kd_assert (idx_end <=? _length d);;
  let gap_length := w64 (idx_end - idx_start) in
  let new_length := w64 (_length d - gap_length) in
  _move_data idx_start idx_end (w64 (_length d - idx_end));;
  _shrink_capacity new_length new_length.

Definition extract_range (idx_start idx_end : Z) : DM unit :=
  d <- this;
  let new_length := w64 (idx_end - idx_start) in
  if new_length =? _length d then ret tt
  else if new_length =? 0 then clear
  else
    when (negb (idx_start =? 0)) (_move_data 0 idx_start new_length);;
    result <- resize new_length;
    kd_assert result.

Definition extract_range_and_shrink (idx_start idx_end : Z) : DM bool :=
  d <- this;
  let new_length := w64 (idx_end - idx_start) in
  if new_length =? _length d then ret true
  else _shrink_capacity new_length new_length.

(** ** Inserting *)

(** The result is the index of the gap, or null: the address [&_data[index]]
    is null when [_data] is and the offset is zero. *)
Definition _insert_range (index length : Z) : DM (option Z) :=
  d <- this;
  let old_length := _length d in
  let new_length := w64 (old_length + length) in
  ok <- _auto_grow_capacity new_length;
  if ok : bool then
    when (index <? old_length)
      (_move_data (w64 (index + length)) index (w64 (old_length - index)));;
    set_length new_length;;
    d <- this;
    ret (match _data d with
         | None => if w64 (index * SZ) =? 0 then None else Some index
         | Some _ => Some index
         end)
  else ret None.

Definition insert_range_initialized (index length : Z) : DM bool :=
  gap <- _insert_range index length;
  ret (match gap with Some _ => true | None => false end).

Definition insert_range_uninit (index length : Z) : DM bool := insert_range_initialized index length.

Definition insert (index : Z) (data : T) : DM bool :=
  gap <- _insert_range index 1;
  match gap with
  | None => ret false
  | Some i => construct_at i (Some data);; ret true
  end.

Definition push_front (data : T) : DM bool := insert 0 data.
Definition push_back (data : T) : DM bool := d <- this; insert (_length d) data.

(** ** Access *)

Definition size : DM Z := d <- this; ret (_length d).
Definition capacity : DM Z := d <- this; ret (_capacity d).
Definition at_ (index : Z) : DM (option T) :=
  d <- this; kd_assert (index <? _length d);; load d index.
Definition front : DM (option T) := at_ 0.
Definition back : DM (option T) := d <- this; at_ (w64 (_length d - 1)).

(** ** Removing at the ends *)

Definition pop_back_and_shrink : DM bool := d <- this; resize_uninit (w64 (_length d - 1)).
Definition pop_back : DM unit := d <- this; resize_uninit (w64 (_length d - 1));; ret tt.

Definition pop_front_and_shrink : DM bool :=
  front_data <- front;
  d <- this;
  let len := w64 (_length d - 1) in
  _move_data 0 1 len;;
  ok <- _shrink_capacity len len;
  if ok : bool then ret true
  else
    _move_data 1 0 len;;
    construct_at 0 front_data;;
    ret false.

Definition pop_front : DM unit :=
  d <- this;
  _move_data 0 1 (w64 (_length d - 1));;
  result <- resize (w64 (_length d - 1));
  kd_assert result.

(** ** Copies and moves *)

(** The loop of [build] from [i] on, [n] iterations *)
Fixpoint build_from (src : Z -> DM (option T)) (i : Z) (n : nat) : DM unit :=
  match n with
  | O => ret tt
  | S n => x <- src i; construct_at i x;; build_from src (i + 1) n
  end.

Definition build (rhs : dynarray T) : DM bool :=
  clear;;
  ok <- resize_uninit (_length rhs);
  if ok : bool then
    d <- this;
    build_from (load rhs) 0 (Z.to_nat (_length d));;
    ret true
  else ret false.

Definition build_init (rhs : list T) : DM bool :=
  clear;;
  ok <- resize_uninit (Z.of_nat (length rhs));
  if ok : bool then
    build_from (fun i s => Ok (rhs !! Z.to_nat i, s)) 0 (length rhs);;
    ret true
  else ret false.

Definition build_and_shrink (rhs : dynarray T) : DM bool :=
  ok <- build rhs; if ok : bool then shrink_to_fit else ret false.

Definition build_init_and_shrink (rhs : list T) : DM bool :=
  ok <- build_init rhs; if ok : bool then shrink_to_fit else ret false.

(** The moves give the new array and what is left of the source. *)
Definition construct (allocator : ptr) : dynarray T := mkDyn 0 0 allocator None.
Definition move_construct (rhs : dynarray T) : dynarray T * dynarray T :=
  (mkDyn (_length rhs) (_capacity rhs) (_allocator rhs) (_data rhs), mkDyn 0 0 None None).

(** [verify_allocator] of allocator.hh *)
Definition verify_allocator (x y : ptr) : DM unit :=
  match x, y with
  | Some x, Some y => kd_assert (type_identity x =? type_identity y)
  | _, _ => ret tt
  end.

Definition move_assign (rhs : dynarray T) : DM (dynarray T) :=
  d <- this;
  verify_allocator (_allocator d) (_allocator rhs);;
  _clear;;
  fun s => Ok (mkDyn 0 0 (_allocator rhs) None, mkSt rhs (heap s)).

Definition destroy : DM unit := _clear.

End Ops.
End KDyn.
