(* ===== verification/KDynTheorems.v ===== *)
(** * Theorems on the dynamic arrays

    An array represents the sequence of its first [_length] elements, some of
    which may be uninitialised.  Its operations implement those of sequences,
    as long as the bytes of a capacity do not wrap around. *)

From S2P Require Import Prelude KDyn.

Module KDynT.
Import KDyn.

Section Represent.
Context {T A : Type} `{Blocks A}.
Variable SZ : Z.
Hypothesis SZ_pos : 0 < SZ.

Abbreviation DM := (M (dyn_st T A)).
Abbreviation seq := (list (option T)).
Implicit Types (s : dyn_st T A) (xs ys zs ws b : seq).

(** ** Well-formed arrays *)

Definition buf s : seq := default [] (_data (arr s)).

Definition wf s : Prop :=
  is_Some (_allocator (arr s)) /\ Z.of_nat (length (buf s)) = _capacity (arr s) /\
  _capacity (arr s) * SZ < 2 ^ 64.

Definition dyn s xs : Prop :=
  wf s /\ _length (arr s) = Z.of_nat (length xs) /\ take (length xs) (buf s) = xs.

(** The same array but for its buffer *)
Definition same_shape s s' : Prop :=
  _length (arr s') = _length (arr s) /\ _capacity (arr s') = _capacity (arr s) /\
  _allocator (arr s') = _allocator (arr s).

Lemma take_le_length xs b : take (length xs) b = xs -> (length xs <= length b)%nat.
Proof. move=> E. rewrite -{1}E length_take. lia. Qed.

Lemma dyn_cap s xs : dyn s xs -> Z.of_nat (length xs) <= _capacity (arr s).
Proof. move=> [[_ [Hb _]] [_ Ht]]. apply take_le_length in Ht. lia. Qed.

Lemma dyn_length s xs : dyn s xs -> _length (arr s) = Z.of_nat (length xs).
Proof. by case=> _ []. Qed.

Lemma wf_cap s : wf s -> 0 <= _capacity (arr s) < 2 ^ 64.
Proof. move=> [_ [Hb Hc]]. nia. Qed.

Lemma dyn_small s xs : dyn s xs -> in64 (Z.of_nat (length xs)).
Proof. move=> Hd. have Hc := dyn_cap _ _ Hd. have := wf_cap _ (proj1 Hd). unfold in64. lia. Qed.

(** ** Blocks *)

Lemma runs_dyn {B} (f : dynarray T -> DM B) s Q : runs (f (arr s)) s Q -> runs (bind this f) s Q.
Proof. done. Qed.

Lemma length_block n : 0 <= n -> n * SZ < 2 ^ 64 -> length (block SZ n : seq) = Z.to_nat n.
Proof.
  move=> Hn Hw. rewrite /block repeat_length w64_small; first by unfold in64; nia.
  rewrite Z.div_mul //; lia.
Qed.

(** A granted block keeps what fits of the old one. *)
Lemma new_block_ok s n :
  wf s -> 0 <= n -> n * SZ < 2 ^ 64 ->
  runs (new_block SZ n) s (fun r s' => arr s' = arr s /\
    match r with
    | Some b => Z.of_nat (length b) = n /\
                forall k, Z.of_nat k <= n -> Z.of_nat k <= _capacity (arr s) -> take k b = take k (buf s)
    | None => True
    end).
Proof.
  move=> [[al Ha] [Hb Hc]] Hn Hw. rewrite /new_block /buf in Hb |- *.
  have Hl := length_block n Hn Hw.
  have Hask : forall r, runs (ask r) s (fun _ s' => arr s' = arr s).
  { move=> r. rewrite /runs /ask Ha. case: (r al (heap s)) => ok a. by eexists _, _. }
  apply: runs_dyn. destruct (_data (arr s)) as [old|] eqn:Ed; simpl in Hb;
    rewrite /realloc /alloc; [apply: runs_dyn|]; apply: runs_bind (Hask _) _ => - [] s' Ea;
    apply: runs_ret; split=> //; (split; [|move=> k Hk Hk']).
  - rewrite length_app length_take length_drop Hl. lia.
  - rewrite take_app_le; first by rewrite length_take Hl; lia.
    rewrite take_take Hl. f_equal. lia.
  - rewrite Hl. lia.
  - by rewrite (_ : k = O); first lia.
Qed.

Lemma install_ok s n m b :
  wf s -> Z.of_nat (length b) = m -> m * SZ < 2 ^ 64 ->
  runs (install SZ n m b) s (fun _ s' =>
    wf s' /\ buf s' = b /\ _length (arr s') = n /\ _capacity (arr s') = m /\
    _allocator (arr s') = _allocator (arr s)).
Proof.
  move=> [[al Ha] [Hb Hc]] Hl Hm. rewrite /buf in Hb.
  rewrite /runs /install /bind /this /when /_clear /set_all.
  destruct (_data (arr s)) eqn:Ed; simpl in Hb; [|rewrite -Hb /=];
    eexists _, _; (split; first done); rewrite /wf /buf /= Ha; eauto 8.
Qed.

(** What growing and shrinking do *)
Definition resized s n m (ok : bool) s' : Prop :=
  wf s' /\
  if ok
  then _length (arr s') = n /\ _capacity (arr s') = m /\
       forall k, Z.of_nat k <= m -> Z.of_nat k <= _capacity (arr s) -> take k (buf s') = take k (buf s)
  else arr s' = arr s.

Lemma change_capacity s n m :
  wf s -> 0 <= m -> m * SZ < 2 ^ 64 ->
  runs (b <- new_block SZ m;
        match b with None => ret false | Some b => install SZ n m b;; ret true end) s (resized s n m).
Proof.
  move=> Hs Hm Hw. apply: runs_bind (new_block_ok _ _ Hs Hm Hw) _ => - [b|] s' [Ea Hb].
  - have Hs' : wf s' by rewrite /wf /buf Ea; exact Hs.
    apply: runs_bind (install_ok _ n m b Hs' (proj1 Hb) Hw) _ => _ s2 [H2 [E2 [E3 [E4 _]]]].
    apply: runs_ret. split; [done|]. split; [done | split; [done|]]. rewrite E2. exact: (proj2 Hb).
  - apply: runs_ret. split; [|done]. by rewrite /wf /buf Ea.
Qed.

Lemma grow_ok s n m :
  wf s -> 0 <= _length (arr s) < n -> _length (arr s) < m -> m * SZ < 2 ^ 64 ->
  runs (_grow_capacity SZ n m) s (resized s n m).
Proof.
  move=> Hs Hn Hm Hw. rewrite /_grow_capacity. apply: (runs_bind _ _ _ (fun d s' => d = arr s /\ s' = s)).
  { exact: runs_eq. }
  move=> _ _ [-> ->]. apply: runs_assert; first lia. apply: runs_assert; first lia.
  apply: change_capacity => //; lia.
Qed.

Lemma shrink_ok s n m :
  wf s -> n <= _length (arr s) -> 0 <= m <= _capacity (arr s) ->
  runs (_shrink_capacity SZ n m) s (resized s n m).
Proof.
  move=> Hs Hn Hm. rewrite /_shrink_capacity. apply: (runs_bind _ _ _ (fun d s' => d = arr s /\ s' = s)).
  { exact: runs_eq. }
  move=> _ _ [-> ->]. apply: runs_assert; first lia. apply: runs_assert; first lia.
  case: (Hs) => [_ [_ Hc]]. apply: change_capacity => //; nia.
Qed.

Lemma runs_set_length {B} n (f : unit -> DM B) s Q :
  (forall s', wf s -> wf s' /\ buf s' = buf s /\ _length (arr s') = n /\ _capacity (arr s') = _capacity (arr s) ->
     runs (f tt) s' Q) ->
  wf s -> runs (bind (set_length n) f) s Q.
Proof. move=> Hf Hs. by apply: (Hf (mkSt (mkDyn n _ _ _) _)). Qed.

(** ** Growing on demand *)

(** The bytes of the capacity that [n] elements lead to do not wrap around. *)
Definition room s (n : Z) : Prop :=
  _capacity (arr s) < n -> _get_grown_capacity n (_capacity (arr s)) * SZ < 2 ^ 64.

Lemma grown_ge n c : 0 <= c -> n <= _get_grown_capacity n c.
Proof.
  move=> Hc. rewrite /_get_grown_capacity. case: Z.eqb_spec => ?; first lia.
  case: Z.ltb_spec => ?; lia.
Qed.

Lemma auto_grow_ok s n :
  wf s -> 0 <= _length (arr s) <= _capacity (arr s) -> room s n ->
  runs (_auto_grow_capacity SZ n) s (fun ok s' => wf s' /\
    if ok
    then n <= _capacity (arr s') /\
         (_length (arr s') = _length (arr s) \/ _length (arr s') = n) /\
         (_capacity (arr s) < n -> _length (arr s') = n) /\
         (forall k, Z.of_nat k <= _capacity (arr s) -> take k (buf s') = take k (buf s))
    else arr s' = arr s).
Proof.
  move=> Hs Hl Hr. rewrite /_auto_grow_capacity. apply: runs_dyn.
  case: Z.ltb_spec => Hn; last by apply: runs_ret; split; [done | split; [done | split; [by left | split; [lia|]]]].
  have Hg := grown_ge n (_capacity (arr s)) ltac:(lia).
  apply: runs_mono.
  - apply: (grow_ok s n (_get_grown_capacity n (_capacity (arr s))) Hs); [lia | lia | exact: Hr].
  - move=> [] s' [H' H2]; split=> //. destruct H2 as [E1 [E2 E3]].
    rewrite E1 E2. split; [lia | split; [by right | split; [done|]]]. move=> k Hk. apply: E3; lia.
Qed.

(** ** Resizing *)

(** [ys] is [xs] cut off or extended to [n] elements. *)
Definition extends (n : Z) xs ys : Prop :=
  Z.of_nat (length ys) = n /\ exists zs, ys = take (Z.to_nat n) xs ++ zs.

Lemma extends_take xs n : 0 <= n <= Z.of_nat (length xs) -> extends n xs (take (Z.to_nat n) xs).
Proof. move=> Hn. split; [rewrite length_take; lia | exists []; by rewrite app_nil_r]. Qed.

(** A buffer that agrees with [xs] represents [xs] cut off or extended. *)
Lemma dyn_extends s xs :
  wf s -> 0 <= _length (arr s) <= _capacity (arr s) ->
  (forall k, Z.of_nat k <= _length (arr s) -> (k <= length xs)%nat -> take k (buf s) = take k xs) ->
  exists ys, dyn s ys /\ extends (_length (arr s)) xs ys.
Proof.
  move=> Hs Hl Hk. set n := _length (arr s) in Hl Hk *.
  have Hlen : Z.of_nat (length (take (Z.to_nat n) (buf s))) = n.
  { case: (Hs) => [_ [Hb _]]. rewrite length_take. lia. }
  exists (take (Z.to_nat n) (buf s)). split; last split=> //.
  - split; [done | split; [by rewrite Hlen|]]. by rewrite (_ : length _ = Z.to_nat n); first lia.
  - exists (drop (Z.to_nat n `min` length xs) (take (Z.to_nat n) (buf s))).
    rewrite -{1}(take_drop (Z.to_nat n `min` length xs) (take (Z.to_nat n) (buf s))). f_equal.
    rewrite take_take -(Nat.min_comm (Z.to_nat n)) Nat.min_assoc Nat.min_id Hk; [lia | lia |].
    by rewrite -take_take firstn_all.
Qed.

Lemma dyn_prefix s xs k : dyn s xs -> (k <= length xs)%nat -> take k (buf s) = take k xs.
Proof. move=> [_ [_ E]] Hk. rewrite -{1}E take_take. f_equal. lia. Qed.

Lemma dyn_same s s' xs : arr s' = arr s -> dyn s xs -> dyn s' xs.
Proof. by rewrite /dyn /wf /buf => ->. Qed.

Lemma resized_dyn s xs n m s' :
  dyn s xs -> resized s n m true s' -> 0 <= n <= m -> exists ys, dyn s' ys /\ extends n xs ys.
Proof.
  move=> Hs [H' [E1 [E2 E3]]] Hn. have Hc := dyn_cap _ _ Hs. subst n m.
  apply: dyn_extends => // k Hk Hx. rewrite E3; [lia | lia |]. exact: dyn_prefix Hs Hx.
Qed.

Lemma shrink_dyn s xs n :
  dyn s xs -> 0 <= n <= Z.of_nat (length xs) ->
  runs (_shrink_capacity SZ n n) s (fun ok s' =>
    if ok then dyn s' (take (Z.to_nat n) xs) /\ _capacity (arr s') = n else arr s' = arr s).
Proof.
  move=> Hs Hn. have Hc := dyn_cap _ _ Hs. have Hl := dyn_length _ _ Hs.
  apply: runs_mono; first (apply: (shrink_ok s n n (proj1 Hs)); lia).
  move=> [] s' Hr; last exact: (proj2 Hr).
  destruct (resized_dyn _ _ _ _ _ Hs Hr) as (ys & Hy & Hlen & zs & ->); first lia.
  split; [|by destruct Hr as (_ & _ & ? & _)].
  rewrite length_app length_take in Hlen. destruct zs; last (simpl in Hlen; lia).
  by rewrite app_nil_r in Hy.
Qed.

Lemma cut_dyn s xs n :
  dyn s xs -> 0 <= n <= Z.of_nat (length xs) ->
  runs (set_length n) s (fun _ s' => dyn s' (take (Z.to_nat n) xs)).
Proof.
  move=> Hs Hn. eexists _, _. split; first done. destruct Hs as [Hw [Hl Ht]].
  split; [done | split; [rewrite /= length_take; lia|]].
  rewrite length_take -{2}Ht take_take. f_equal; lia.
Qed.

Lemma resize_ok s xs n :
  dyn s xs -> 0 <= n -> room s n ->
  runs (resize SZ n) s (fun ok s' =>
    if ok then exists ys, dyn s' ys /\ extends n xs ys else dyn s' xs).
Proof.
  move=> Hs Hn Hr. have Hc := dyn_cap _ _ Hs. have Hl := dyn_length _ _ Hs.
  rewrite /resize. apply: runs_dyn. rewrite Hl. case: Z.ltb_spec => Hlt; [case: Z.ltb_spec => Hcap|].
  - apply: runs_mono; first (apply: auto_grow_ok (proj1 Hs) _ Hr; lia).
    move=> [] s' [H' H2]; last exact: dyn_same Hs.
    destruct H2 as [E1 [_ [E2 E3]]]. rewrite -(E2 Hcap).
    apply: dyn_extends => //; first lia. move=> k Hk Hx. rewrite E3; first lia. exact: dyn_prefix Hs Hx.
  - rewrite /_expand_to. apply: (runs_bind _ _ _ (fun _ s' => s' = s)).
    { apply: runs_dyn. rewrite Hl /kd_assert (proj2 (Z.ltb_lt _ _) Hlt). exact: runs_ret. }
    move=> _ _ ->. apply: runs_set_length (proj1 Hs) => s' _ [H' [Eb [El Ec]]]. apply: runs_ret.
    rewrite -El. apply: dyn_extends => //; first lia.
    move=> k Hk Hx. rewrite Eb. exact: dyn_prefix Hs Hx.
  - case: Z.ltb_spec => Hgt; last first.
    { apply: runs_ret. exists xs. split; [done|]. rewrite (_ : n = Z.of_nat (length xs)); first lia.
      have := extends_take xs (Z.of_nat (length xs)). rewrite Nat2Z.id firstn_all. apply. lia. }
    rewrite /_shrink. apply: (runs_bind _ _ _ (fun _ s' => s' = s)).
    { apply: runs_dyn. rewrite Hl /kd_assert (proj2 (Z.ltb_lt _ _) Hgt). exact: runs_ret. }
    move=> _ _ ->. apply: runs_bind (cut_dyn _ _ n Hs _) _; first lia. move=> _ s' H'. apply: runs_ret.
    eexists; split; [exact H' | apply: extends_take; lia].
Qed.

(** ** Moving elements inside the buffer *)

Definition moved (to from n : nat) b : seq :=
  take to b ++ take n (drop from b) ++ drop (to + n) b.

Lemma length_moved to from n b :
  (to + n <= length b)%nat -> (from + n <= length b)%nat -> length (moved to from n b) = length b.
Proof. move=> H1 H2. rewrite /moved !length_app length_take length_take !length_drop. lia. Qed.

(** Closing the gap between [i] and [j] *)
Lemma moved_left i j xs b :
  (i <= j <= length xs)%nat -> take (length xs) b = xs ->
  take (length (take i xs ++ drop j xs)) (moved i j (length xs - j) b) = take i xs ++ drop j xs.
Proof.
  move=> Hij E. have Hle := take_le_length _ _ E. rewrite /moved.
  have -> : take i b = take i xs by rewrite -{1}E take_take; f_equal; lia.
  have -> : take (length xs - j) (drop j b) = drop j xs by rewrite -{2}E skipn_firstn_comm.
  rewrite app_assoc. by rewrite take_app_length.
Qed.

(** Opening a gap of [n] elements at [i] *)
Lemma moved_right i n xs b :
  (i <= length xs)%nat -> (length xs + n <= length b)%nat -> take (length xs) b = xs ->
  exists zs rest, moved (i + n) i (length xs - i) b = take i xs ++ zs ++ drop i xs ++ rest /\ length zs = n.
Proof.
  move=> Hi Hn E. rewrite /moved.
  have -> : take (length xs - i) (drop i b) = drop i xs by rewrite -{2}E skipn_firstn_comm.
  exists (take n (drop i b)). eexists. split; last by rewrite length_take length_drop; lia.
  rewrite -{1}(take_drop i b) take_app_add'; first by rewrite length_take; lia.
  have -> : take i b = take i xs by rewrite -{1}E take_take; f_equal; lia.
  by rewrite -app_assoc.
Qed.

Lemma move_data_ok s (to from n : nat) :
  wf s -> Z.of_nat (to + n) <= _capacity (arr s) -> Z.of_nat (from + n) <= _capacity (arr s) ->
  runs (_move_data (Z.of_nat to) (Z.of_nat from) (Z.of_nat n)) s (fun _ s' =>
    wf s' /\ buf s' = moved to from n (buf s) /\ same_shape s s').
Proof.
  move=> Hs Ht Hf. case: (Hs) => [[al Ha] [Hb Hc]]. rewrite /_move_data /runs.
  case: Z.eqb_spec => Hn.
  - eexists _, _; split; [done | split; [done|]]. split; [|done].
    rewrite /moved (_ : n = O); first lia. by rewrite /= Nat.add_0_r take_drop.
  - rewrite /buf in Hb |- *. destruct (_data (arr s)) as [b|] eqn:Ed; last (simpl in Hb; lia).
    rewrite /= /memmove. repeat (rewrite (proj2 (Z.leb_le _ _)); first (simpl in Hb; lia)).
    rewrite /= -Nat2Z.inj_add !Nat2Z.id. eexists _, _; split; first done.
    rewrite /wf /buf /= Ha. rewrite -/(moved to from n b) length_moved; simpl in Hb; [lia | lia |].
    by eauto.
Qed.

Lemma construct_ok s (i : nat) (x : option T) :
  wf s -> Z.of_nat i < _capacity (arr s) ->
  runs (construct_at (Z.of_nat i) x) s (fun _ s' =>
    wf s' /\ buf s' = <[i := x]> (buf s) /\ same_shape s s').
Proof.
  move=> Hs Hi. case: (Hs) => [[al Ha] [Hb Hc]]. rewrite /construct_at /runs /buf in Hb |- *.
  destruct (_data (arr s)) as [b|] eqn:Ed; simpl in Hb; last lia.
  rewrite (proj2 (Z.leb_le _ _)) /=; first lia. rewrite (proj2 (Z.ltb_lt _ _)); first lia.
  rewrite Nat2Z.id. eexists _, _; split; first done.
  rewrite /wf /buf /= Ha length_insert. by eauto.
Qed.

(** ** Inserting *)

Lemma w64_nat (n : nat) : in64 (Z.of_nat n) -> w64 (Z.of_nat n) = Z.of_nat n.
Proof. exact: w64_small. Qed.

Lemma insert_range_ok s xs (i n : nat) :
  dyn s xs -> (i <= length xs)%nat -> in64 (Z.of_nat (length xs + n)) -> room s (Z.of_nat (length xs + n)) ->
  runs (_insert_range SZ (Z.of_nat i) (Z.of_nat n)) s (fun gap s' =>
    match gap with
    | Some g => g = Z.of_nat i /\ exists zs, length zs = n /\ dyn s' (take i xs ++ zs ++ drop i xs)
    | None => dyn s' xs
    end).
Proof.
  move=> Hs Hi Hn Hr. have Hc := dyn_cap _ _ Hs. have Hl := dyn_length _ _ Hs.
  rewrite /_insert_range. apply: runs_dyn. rewrite Hl -Nat2Z.inj_add w64_nat //.
  apply: runs_bind; first (apply: auto_grow_ok (proj1 Hs) _ Hr; lia).
  move=> [] s1 [H1 H1']; last by apply: runs_ret; exact: dyn_same H1' Hs.
  destruct H1' as [Ecap [_ [_ Ek]]].
  have Et : take (length xs) (buf s1) = xs by rewrite Ek //; case: Hs => _ [].
  have Hb1 : Z.of_nat (length (buf s1)) = _capacity (arr s1) by case: H1 => _ [].
  apply: (runs_when _ _ _ _ (fun s2 => wf s2 /\ _capacity (arr s2) = _capacity (arr s1) /\
    exists zs, length zs = n /\ take (length xs + n) (buf s2) = take i xs ++ zs ++ drop i xs)).
  - move=> _. rewrite -Nat2Z.inj_add -Nat2Z.inj_sub //.
    have ? := dyn_small _ _ Hs. unfold in64 in *.
    rewrite !w64_nat; [unfold in64; lia | unfold in64; lia |].
    apply: runs_mono; first (apply: move_data_ok => //; lia).
    move=> _ s2 [H2 [E2 [_ [Ec2 _]]]]. split; [done | split; [done|]].
    destruct (moved_right i n xs (buf s1)) as (zs & rest & Em & Hz); [done | lia | done |].
    exists zs. split; [done|]. rewrite E2 Em !app_assoc take_app_length' //.
    rewrite !length_app length_take length_drop. lia.
  - move=> /Z.ltb_ge Hge. split; [done | split; [done|]].
    exists (drop (length xs) (take (length xs + n) (buf s1))).
    rewrite length_drop length_take. split; first lia.
    rewrite (take_ge xs); first lia. rewrite (drop_ge xs); first lia. rewrite app_nil_r.
    rewrite -{1}(take_drop (length xs) (take (length xs + n) (buf s1))). f_equal.
    by rewrite take_take (_ : length xs `min` (length xs + n) = length xs)%nat; first lia.
  - move=> s2 [H2 [Ec2 [zs [Hz E2]]]].
    apply: runs_set_length H2 => s3 _ [H3 [Eb [El Ec]]]. apply: runs_dyn. apply: runs_ret.
    have H' : dyn s3 (take i xs ++ zs ++ drop i xs).
    { have Hlen : length (take i xs ++ zs ++ drop i xs) = (length xs + n)%nat
        by rewrite !length_app length_take length_drop; lia.
      split; [done | split; [by rewrite Hlen | by rewrite Hlen Eb]]. }
    have Hg : Z.of_nat i = Z.of_nat i /\ exists zs0, length zs0 = n /\ dyn s3 (take i xs ++ zs0 ++ drop i xs)
      by split; [done | exists zs].
    destruct (_data (arr s3)) eqn:Ed; first done. case: Z.eqb_spec => _ //.
    have H0 := dyn_cap _ _ H'. have Hz3 : _capacity (arr s3) = 0 by case: (H3) => _ []; rewrite /buf Ed.
    rewrite !length_app length_take length_drop in H0.
    destruct xs as [|x xs]; last (simpl in H0; lia). destruct zs; last (simpl in H0; lia).
    by rewrite take_nil drop_nil in H'.
Qed.

Lemma dyn_insert_ok s xs (i : nat) x :
  dyn s xs -> (i <= length xs)%nat -> in64 (Z.of_nat (length xs + 1)) -> room s (Z.of_nat (length xs + 1)) ->
  runs (insert SZ (Z.of_nat i) x) s (fun ok s' =>
    dyn s' (if ok : bool then take i xs ++ Some x :: drop i xs else xs)).
Proof.
  move=> Hs Hi Hn Hr. rewrite /insert.
  apply: runs_bind (insert_range_ok s xs i 1 Hs Hi Hn Hr) _.
  move=> [g|] s' Hg; last exact: runs_ret.
  destruct Hg as (-> & zs & Hz & Hd). destruct zs as [|z [|]]; try done.
  have Hc := dyn_cap _ _ Hd. rewrite !length_app length_take length_drop /= in Hc.
  apply: runs_bind; first (apply: (construct_ok s' i (Some x) (proj1 Hd)); lia).
  move=> _ s2 [H2 [E2 [El _]]]. apply: runs_ret. case: Hd => [_ [El' Et]].
  have Hlen : length (take i xs ++ Some x :: drop i xs) = length (take i xs ++ [z] ++ drop i xs)
    by rewrite !length_app.
  split; [done | split; [by rewrite El El' Hlen|]].
  rewrite Hlen E2 take_insert_lt ?Et; first by rewrite !length_app length_take /=; lia.
  rewrite insert_app_r_alt length_take; first lia.
  by rewrite (_ : (i - i `min` length xs)%nat = O); first lia.
Qed.

(** ** Removing *)

Lemma close_gap_ok s xs (i j : nat) :
  dyn s xs -> (i <= j <= length xs)%nat ->
  runs (_move_data (Z.of_nat i) (Z.of_nat j) (Z.of_nat (length xs - j))) s (fun _ s' =>
    same_shape s s' /\ _capacity (arr s') = _capacity (arr s) /\ wf s' /\
    exists ys, dyn s' ys /\ length ys = length xs /\
    take (length xs - (j - i)) ys = take i xs ++ drop j xs).
Proof.
  move=> Hs Hij. have Hc := dyn_cap _ _ Hs. case: (Hs) => [_ [El Et]].
  apply: runs_mono; first (apply: move_data_ok (proj1 Hs) _ _; lia).
  move=> _ s' [H' [Eb Hsh]]. split; [done | split; [by case: Hsh => _ [] | split; [done|]]].
  have Hb : Z.of_nat (length (buf s')) = _capacity (arr s') by case: H' => _ [].
  case: (Hsh) => [El' [Ec _]].
  exists (take (length xs) (buf s')). have Hlen : length (take (length xs) (buf s')) = length xs
    by rewrite length_take; lia.
  split; [|split; [done|]].
  - split; [done | split; [by rewrite El' El Hlen | by rewrite Hlen]].
  - rewrite take_take -(moved_left i j xs (buf s)) // Eb. f_equal.
    rewrite length_app length_take length_drop. lia.
Qed.

(** The arithmetic of a removed range *)
Lemma gap_arith s xs (i j : nat) :
  dyn s xs -> (i <= j <= length xs)%nat ->
  w64 (Z.of_nat (length xs) - Z.of_nat j) = Z.of_nat (length xs - j) /\
  w64 (Z.of_nat (length xs) - w64 (Z.of_nat j - Z.of_nat i)) = Z.of_nat (length xs - (j - i)).
Proof.
  move=> Hs Hij. have Hsm := dyn_small _ _ Hs. unfold in64 in Hsm.
  rewrite -!Nat2Z.inj_sub; [lia | lia |].
  rewrite !w64_nat; try (unfold in64; lia). split; [done|].
  rewrite -Nat2Z.inj_sub; first lia. by rewrite w64_nat; first (unfold in64; lia).
Qed.

Lemma erase_range_ok s xs (i j : nat) :
  dyn s xs -> (i <= j <= length xs)%nat -> (i < length xs)%nat ->
  runs (erase_range (Z.of_nat i) (Z.of_nat j)) s (fun _ s' => dyn s' (take i xs ++ drop j xs)).
Proof.
  move=> Hs Hij Hi. have Hl := dyn_length _ _ Hs. destruct (gap_arith _ _ _ _ Hs Hij) as [E1 E2].
  rewrite /erase_range. apply: runs_dyn. rewrite Hl. apply: runs_assert; first lia. apply: runs_assert; first lia.
  rewrite E1 E2. apply: runs_bind (close_gap_ok _ _ _ _ Hs Hij) _ => _ s1 [_ [_ [_ [ys [Hd [Hly <-]]]]]].
  rewrite -{2}(Nat2Z.id (length xs - (j - i))). apply: cut_dyn Hd _. lia.
Qed.

Lemma erase_range_and_shrink_ok s xs (i j : nat) :
  dyn s xs -> (i <= j <= length xs)%nat -> (i < length xs)%nat ->
  runs (erase_range_and_shrink SZ (Z.of_nat i) (Z.of_nat j)) s (fun ok s' =>
    if ok : bool then dyn s' (take i xs ++ drop j xs) /\ _capacity (arr s') = _length (arr s')
    else exists ys, dyn s' ys /\ length ys = length xs /\ take (length xs - (j - i)) ys = take i xs ++ drop j xs).
Proof.
  move=> Hs Hij Hi. have Hl := dyn_length _ _ Hs. destruct (gap_arith _ _ _ _ Hs Hij) as [E1 E2].
  rewrite /erase_range_and_shrink. apply: runs_dyn. rewrite Hl.
  apply: runs_assert; first lia. apply: runs_assert; first lia.
  rewrite E1 E2. apply: runs_bind (close_gap_ok _ _ _ _ Hs Hij) _ => _ s1 [_ [_ [_ [ys [Hd [Hly Ey]]]]]].
  apply: runs_mono; first (apply: (shrink_dyn s1 ys (Z.of_nat (length xs - (j - i))) Hd); lia).
  rewrite Nat2Z.id. move=> [] s2 H2; last by exists ys; split; [exact: dyn_same Hd|].
  rewrite -Ey. split; [by case: H2|]. destruct H2 as [Hd2 ->].
  rewrite (dyn_length _ _ Hd2) length_take Hly. lia.
Qed.

Lemma dyn_clear_ok s xs : dyn s xs -> runs (clear SZ) s (fun _ s' => dyn s' [] /\ _capacity (arr s') = _capacity (arr s)).
Proof.
  move=> Hs. have Hl := dyn_length _ _ Hs. rewrite /clear /resize_uninit /resize.
  apply: (runs_bind _ _ _ (fun ok s' => ok = true /\ dyn s' [] /\ _capacity (arr s') = _capacity (arr s))).
  - apply: runs_dyn. rewrite Hl (proj2 (Z.ltb_ge _ _)); first lia. case: Z.ltb_spec => H0.
    + rewrite /_shrink /runs /bind /this Hl /kd_assert (proj2 (Z.ltb_lt _ _) H0) /=.
      eexists _, _; split; first done. split; [done | split; [|done]].
      split; [exact: (proj1 Hs) | done].
    + apply: runs_ret. destruct xs; [done | simpl in H0; lia].
  - move=> _ s' [-> H']. exact: runs_ret.
Qed.

Lemma clear_and_shrink_ok s xs : dyn s xs -> runs (_clear SZ) s (fun _ s' => dyn s' [] /\ _capacity (arr s') = 0).
Proof.
  move=> [[[al Ha] [Hb Hc]] _]. rewrite /_clear /runs Ha.
  case: Z.eqb_spec => _; (eexists _, _; split; first done); by repeat split; rewrite //=; eauto; lia.
Qed.

Lemma at_ok s xs (i : nat) :
  dyn s xs ->
  at_ (Z.of_nat i) s = match xs !! i with Some x => Ok (x, s) | None => Panic end.
Proof.
  move=> [[_ [Hb _]] [Hl Ht]]. rewrite /at_ /bind /this Hl. have Hle := take_le_length _ _ Ht.
  case: Z.ltb_spec => Hi /=; last by rewrite lookup_ge_None_2; first lia.
  rewrite /kd_assert /ret /load. rewrite /buf in Hb Ht Hle.
  destruct (_data (arr s)) as [b|]; last (simpl in Hle; lia).
  rewrite (proj2 (Z.leb_le _ _)) ?Nat2Z.id; first lia.
  rewrite -Ht lookup_take_lt; first lia. simpl in *.
  by destruct (lookup_lt_is_Some_2 b i) as [x ->]; first lia.
Qed.

(** ** Keeping a range, removing at the ends *)

Lemma extends_cut n xs ys : 0 <= n <= Z.of_nat (length xs) -> extends n xs ys -> ys = take (Z.to_nat n) xs.
Proof.
  intros Hn (Hl & zs & ->). rewrite length_app length_take in Hl.
  destruct zs; [by rewrite app_nil_r | simpl in Hl; lia].
Qed.

(** Shrinking within the capacity never fails. *)
Lemma resize_down s xs (n : nat) :
  dyn s xs -> (n <= length xs)%nat ->
  runs (resize SZ (Z.of_nat n)) s (fun ok s' => ok = true /\ dyn s' (take n xs)).
Proof.
  move=> Hs Hn. have Hl := dyn_length _ _ Hs. rewrite /resize. apply: runs_dyn.
  rewrite Hl (proj2 (Z.ltb_ge _ _)); first lia. case: Z.ltb_spec => Hlt.
  - apply: (runs_bind _ _ _ (fun _ s' => s' = s)).
    { apply: runs_dyn. rewrite Hl /kd_assert (proj2 (Z.ltb_lt _ _) Hlt). exact: runs_ret. }
    move=> _ _ ->. apply: runs_bind (cut_dyn _ _ (Z.of_nat n) Hs _) _; first lia.
    move=> _ s' H'. apply: runs_ret. by rewrite Nat2Z.id in H'.
  - apply: runs_ret. by rewrite take_ge; first lia.
Qed.

Lemma extract_range_ok s xs (i j : nat) :
  dyn s xs -> (i <= j <= length xs)%nat ->
  runs (extract_range SZ (Z.of_nat i) (Z.of_nat j)) s (fun _ s' => dyn s' (take (j - i) (drop i xs))).
Proof.
  move=> Hs Hij. have Hl := dyn_length _ _ Hs. have Hsm := dyn_small _ _ Hs. have Hc := dyn_cap _ _ Hs.
  rewrite /extract_range. apply: runs_dyn. rewrite -Nat2Z.inj_sub ?w64_nat; [lia | unfold in64 in *; lia |].
  rewrite Hl. case: Z.eqb_spec => E1.
  { apply: runs_ret. by rewrite (_ : i = O) ?drop_0 ?take_ge; [lia | lia |]. }
  case: Z.eqb_spec => E2.
  { apply: runs_mono (dyn_clear_ok _ _ Hs) _ => _ s' [H' _]. by rewrite (_ : (j - i)%nat = O); first lia. }
  apply: (runs_when _ _ _ _ (fun s' => exists ys, dyn s' ys /\ length ys = length xs /\
    take (j - i) ys = take (j - i) (drop i xs))).
  - move=> _. apply: runs_mono; first (apply: (move_data_ok s 0 i (j - i) (proj1 Hs)); lia).
    move=> _ s' [H' [Eb [El [Ec _]]]]. case: (Hs) => [_ [_ Et]].
    have Hb : Z.of_nat (length (buf s')) = _capacity (arr s') by case: H' => _ [].
    exists (take (length xs) (buf s')). have Hlen : length (take (length xs) (buf s')) = length xs
      by rewrite length_take; lia.
    split; [split; [done | by rewrite Hlen El Hl] | split; [done|]].
    have Hle := take_le_length _ _ Et.
    rewrite take_take Eb /moved /= take_app_le; first by rewrite length_take length_drop; lia.
    rewrite take_take -{2}Et skipn_firstn_comm take_take. f_equal. lia.
  - move=> /negb_false_iff /Z.eqb_eq H0. exists xs. rewrite (_ : i = O); first lia. by rewrite drop_0.
  - move=> s1 [ys [Hd [Hly Ey]]]. apply: runs_bind (resize_down s1 ys (j - i) Hd _) _; first lia.
    move=> _ s2 [-> H2]. rewrite Ey in H2. exact: runs_ret.
Qed.

Lemma pred_nat s xs : dyn s xs -> xs <> [] -> w64 (Z.of_nat (length xs) - 1) = Z.of_nat (length xs - 1).
Proof.
  move=> Hs Hx. have Hsm := dyn_small _ _ Hs. destruct xs; first done.
  rewrite /= in Hsm |- *. rewrite w64_small; unfold in64 in *; lia.
Qed.

Lemma pop_back_ok s xs :
  dyn s xs -> xs <> [] -> runs (pop_back SZ) s (fun _ s' => dyn s' (take (length xs - 1) xs)).
Proof.
  move=> Hs Hx. rewrite /pop_back. apply: runs_dyn. rewrite (dyn_length _ _ Hs) (pred_nat _ _ Hs Hx).
  apply: runs_bind (resize_down _ _ _ Hs _) _; first lia. move=> _ s' [_ H']. exact: runs_ret.
Qed.

Lemma pop_front_ok s xs :
  dyn s xs -> xs <> [] -> runs (pop_front SZ) s (fun _ s' => dyn s' (drop 1 xs)).
Proof.
  move=> Hs Hx. rewrite /pop_front. apply: runs_dyn. rewrite (dyn_length _ _ Hs) (pred_nat _ _ Hs Hx).
  have Hlen : (1 <= length xs)%nat by destruct xs; simpl; [done | lia].
  apply: runs_bind (close_gap_ok s xs 0 1 Hs _) _; first lia.
  move=> _ s1 [[El _] [_ [_ [ys [Hd [Hly Ey]]]]]].
  apply: runs_bind (resize_down s1 ys (length xs - 1) Hd _) _; first lia. move=> _ s2 [-> H2].
  rewrite Ey /= in H2. exact: runs_ret.
Qed.

(** When the smaller block is refused, the elements go back to their places. *)
Lemma pop_front_and_shrink_ok s x xs :
  dyn s (x :: xs) ->
  runs (pop_front_and_shrink SZ) s (fun ok s' => dyn s' (if ok : bool then xs else x :: xs)).
Proof.
  move=> Hs. have Hl := dyn_length _ _ Hs. have Hc := dyn_cap _ _ Hs. simpl in Hc.
  have E0 : at_ 0 s = Ok (x, s) := at_ok s _ 0 Hs.
  rewrite /pop_front_and_shrink /front /runs (bind_ok _ _ _ _ _ E0) -/(runs _ _ _). apply: runs_dyn. rewrite Hl (pred_nat _ _ Hs) //= Nat.sub_0_r.
  have Hgap := close_gap_ok s (x :: xs) 0 1 Hs. rewrite /= !Nat.sub_0_r in Hgap.
  apply: runs_bind (Hgap _) _; first lia. move=> _ s1 [[El1 _] [Ec1 [H1 [ys [Hd [Hly Ey]]]]]].
  apply: runs_bind (shrink_dyn s1 ys (Z.of_nat (length xs)) Hd _) _; first lia.
  rewrite Nat2Z.id Ey. move=> [] s2 H2; first by apply: runs_ret; case: H2.
  have Hd2 : dyn s2 ys := dyn_same _ _ _ H2 Hd.
  apply: runs_bind; first (apply: (move_data_ok s2 1 0 (length xs) (proj1 Hd2)); rewrite H2; lia).
  move=> _ s3 [H3 [E3 [El3 [Ec3 _]]]].
  apply: runs_bind; first (apply: (construct_ok s3 0 x H3); rewrite Ec3 H2; lia).
  move=> _ s4 [H4 [E4 [El4 _]]]. apply: runs_ret.
  split; [done | split; [by rewrite El4 El3 (dyn_length _ _ Hd2) Hly|]].
  have Hb2 : (length ys <= length (buf s2))%nat by case: Hd2 => _ [_ /take_le_length].
  have Ep : take (length xs) (buf s2) = xs by rewrite (dyn_prefix _ _ _ Hd2); [lia | done].
  rewrite E4 E3 /moved /= drop_0 Ep. destruct (buf s2) as [|y b]; first (simpl in Hb2; lia).
  by rewrite /= take_app_length.
Qed.

(** ** Copies *)

Lemma construct_dyn s ys (i : nat) x :
  dyn s ys -> (i < length ys)%nat ->
  runs (construct_at (Z.of_nat i) x) s (fun _ s' => dyn s' (<[i := x]> ys) /\ same_shape s s').
Proof.
  move=> Hs Hi. have Hc := dyn_cap _ _ Hs. case: (Hs) => [_ [Hl Ht]].
  apply: runs_mono; first (apply: (construct_ok s i x (proj1 Hs)); lia).
  move=> _ s' [H' [Eb Hsh]]. split; [|done]. case: Hsh => [El _].
  split; [done | split; [by rewrite El length_insert|]].
  by rewrite length_insert Eb take_insert_lt // Ht.
Qed.

(** [src] yields the elements [zs] and changes nothing. *)
Definition yields (src : Z -> DM (option T)) zs : Prop :=
  forall i z s, zs !! i = Some z -> src (Z.of_nat i) s = Ok (z, s).

Lemma build_from_ok src zs n i s ws :
  yields src zs -> (i + n = length zs)%nat -> length ws = n -> dyn s (take i zs ++ ws) ->
  runs (build_from src (Z.of_nat i) n) s (fun _ s' => dyn s' zs).
Proof.
  move=> Hsrc. elim: n i s ws => [|n IH] i s ws Hi Hw Hs.
  - apply: runs_ret. destruct ws; last done. by rewrite app_nil_r take_ge in Hs; first lia.
  - rewrite /=. destruct (lookup_lt_is_Some_2 zs i) as [z Hz]; first lia.
    rewrite /runs (bind_ok _ _ _ _ _ (Hsrc _ _ _ Hz)) -/(runs _ _ _).
    destruct ws as [|w ws]; first done.
    have Hlen : length (take i zs) = i by rewrite length_take; lia.
    apply: runs_bind; first (apply: (construct_dyn s _ i z Hs); rewrite length_app Hlen /=; lia).
    move=> _ s' [H' _]. rewrite (_ : Z.of_nat i + 1 = Z.of_nat (Datatypes.S i)); first lia.
    apply: (IH _ _ ws); [lia | simpl in Hw; lia |].
    rewrite (take_S_r _ _ _ Hz) -app_assoc /=.
    by rewrite insert_app_r_alt Hlen ?Nat.sub_diag in H'; first lia.
Qed.

(** The part that [build] for an array and for a list share *)
Lemma build_ok src zs s xs (copy : DM unit) :
  dyn s xs -> yields src zs -> room s (Z.of_nat (length zs)) ->
  (forall s', _length (arr s') = Z.of_nat (length zs) -> copy s' = build_from src 0 (length zs) s') ->
  runs (clear SZ;;
        ok <- resize_uninit SZ (Z.of_nat (length zs));
        if ok : bool then copy;; ret true else ret false) s
    (fun ok s' => dyn s' (if ok : bool then zs else [])).
Proof.
  move=> Hs Hsrc Hr Hcopy. apply: runs_bind (dyn_clear_ok _ _ Hs) _ => _ s1 [H1 Ec].
  apply: runs_bind; first (apply: (resize_ok s1 [] _ H1); [lia | by rewrite /room Ec]).
  move=> [] s2 H2; last exact: runs_ret.
  destruct H2 as (ys & Hd & Hl & _).
  rewrite /runs {1}/bind Hcopy; first by rewrite (dyn_length _ _ Hd).
  apply: runs_bind (build_from_ok src zs (length zs) 0 s2 ys Hsrc _ _ Hd) _; [done | lia |].
  move=> _ s3 H3. exact: runs_ret.
Qed.

Lemma load_yields (rhs : dynarray T) (a : A) zs : dyn (mkSt rhs a) zs -> yields (load rhs) zs.
Proof.
  move=> [_ [_ Ht]] i z s Hz. rewrite /load. rewrite /buf /= in Ht.
  destruct (_data rhs) as [b|]; last by rewrite -Ht /= take_nil in Hz.
  rewrite (proj2 (Z.leb_le _ _)) ?Nat2Z.id; first lia.
  rewrite -Ht in Hz. apply lookup_take_Some in Hz as [Hz _]. simpl in Hz. by rewrite Hz.
Qed.

(** ** The operations of an array, and what they do to the sequence *)

Inductive op : Type :=
  | Insert (i : nat) (x : T)
  | InsertRange (i n : nat)
  | PushFront (x : T)
  | PushBack (x : T)
  | PopFront
  | PopFrontShrink
  | PopBack
  | Erase (i j : nat)
  | EraseShrink (i j : nat)
  | Extract (i j : nat)
  | Resize (n : nat)
  | ResizeShrink (n : nat)
  | Clear
  | ClearShrink
  | Read (i : nat)
  | Build (l : list T)
  | Copy (rhs : dynarray T).

Inductive answer : Type := Flag (b : bool) | Value (x : option T).

Definition flag (m : DM bool) : DM answer := b <- m; ret (Flag b).
Definition done_ (m : DM unit) : DM answer := m;; ret (Flag true).

Definition run (o : op) : DM answer :=
  match o with
  | Insert i x => flag (insert SZ (Z.of_nat i) x)
  | InsertRange i n => flag (insert_range_initialized SZ (Z.of_nat i) (Z.of_nat n))
  | PushFront x => flag (push_front SZ x)
  | PushBack x => flag (push_back SZ x)
  | PopFront => done_ (pop_front SZ)
  | PopFrontShrink => flag (pop_front_and_shrink SZ)
  | PopBack => done_ (pop_back SZ)
  | Erase i j => done_ (erase_range (Z.of_nat i) (Z.of_nat j))
  | EraseShrink i j => flag (erase_range_and_shrink SZ (Z.of_nat i) (Z.of_nat j))
  | Extract i j => done_ (extract_range SZ (Z.of_nat i) (Z.of_nat j))
  | Resize n => flag (resize SZ (Z.of_nat n))
  | ResizeShrink n => flag (resize_and_shrink SZ (Z.of_nat n))
  | Clear => done_ (clear SZ)
  | ClearShrink => done_ (clear_and_shrink SZ)
  | Read i => x <- at_ (Z.of_nat i); ret (Value x)
  | Build zs => flag (build_init SZ zs)
  | Copy rhs => flag (build SZ rhs)
  end.

(** Operations that need memory give up ([Flag false]) when it is refused;
    the array is then what it was, but for two of them. *)
Inductive step : op -> seq -> answer -> seq -> Prop :=
  | step_insert i x xs : step (Insert i x) xs (Flag true) (take i xs ++ Some x :: drop i xs)
  | step_insert_range i n xs zs :
      length zs = n -> step (InsertRange i n) xs (Flag true) (take i xs ++ zs ++ drop i xs)
  | step_push_front x xs : step (PushFront x) xs (Flag true) (Some x :: xs)
  | step_push_back x xs : step (PushBack x) xs (Flag true) (xs ++ [Some x])
  | step_pop_front x xs : step PopFront (x :: xs) (Flag true) xs
  | step_pop_front_shrink x xs : step PopFrontShrink (x :: xs) (Flag true) xs
  | step_pop_back x xs : step PopBack (xs ++ [x]) (Flag true) xs
  | step_erase i j xs : step (Erase i j) xs (Flag true) (take i xs ++ drop j xs)
  | step_erase_shrink i j xs : step (EraseShrink i j) xs (Flag true) (take i xs ++ drop j xs)
  | step_extract i j xs : step (Extract i j) xs (Flag true) (take (j - i) (drop i xs))
  | step_resize n xs ys : extends (Z.of_nat n) xs ys -> step (Resize n) xs (Flag true) ys
  | step_resize_shrink n xs ys : extends (Z.of_nat n) xs ys -> step (ResizeShrink n) xs (Flag true) ys
  | step_clear xs : step Clear xs (Flag true) []
  | step_clear_shrink xs : step ClearShrink xs (Flag true) []
  | step_read i x xs : xs !! i = Some x -> step (Read i) xs (Value x) xs
  | step_build l xs : step (Build l) xs (Flag true) (Some <$> l)
  | step_copy rhs a zs xs : dyn (mkSt rhs a) zs -> step (Copy rhs) xs (Flag true) zs
  | step_refused o xs :
      (match o with
       | Insert _ _ | InsertRange _ _ | PushFront _ | PushBack _ | PopFrontShrink | Resize _ | ResizeShrink _ => True
       | _ => False
       end) -> step o xs (Flag false) xs
  | step_erase_refused i j xs ys :
      length ys = length xs -> take (length xs - (j - i)) ys = take i xs ++ drop j xs ->
      step (EraseShrink i j) xs (Flag false) ys
  | step_build_refused l xs : step (Build l) xs (Flag false) []
  | step_copy_refused rhs xs : step (Copy rhs) xs (Flag false) [].

(** The calls that the source expects: indexes inside the array, and byte
    counts that do not wrap around. *)
Definition fits s (n : nat) : Prop := in64 (Z.of_nat n) /\ room s (Z.of_nat n).

Definition enabled (o : op) s xs : Prop :=
  match o with
  | Insert i _ => (i <= length xs)%nat /\ fits s (length xs + 1)
  | InsertRange i n => (i <= length xs)%nat /\ fits s (length xs + n)
  | PushFront _ | PushBack _ => fits s (length xs + 1)
  | PopFront | PopFrontShrink | PopBack => xs <> []
  | Erase i j | EraseShrink i j => (i <= j <= length xs)%nat /\ (i < length xs)%nat
  | Extract i j => (i <= j <= length xs)%nat
  | Resize n => room s (Z.of_nat n)
  | ResizeShrink n => (n <= length xs)%nat \/ _capacity (arr s) < Z.of_nat n /\ Z.of_nat n * SZ < 2 ^ 64
  | Read i => (i < length xs)%nat
  | Build zs => room s (Z.of_nat (length zs))
  | Copy rhs => exists a zs, dyn (mkSt rhs a) zs /\ room s (Z.of_nat (length zs))
  | Clear | ClearShrink => True
  end.

Definition refines (o : op) s xs : Prop :=
  runs (run o) s (fun r s' => exists ys, step o xs r ys /\ dyn s' ys).

Lemma runs_flag (m : DM bool) (P : bool -> dyn_st T A -> Prop) s o xs :
  runs m s P -> (forall ok s', P ok s' -> exists ys, step o xs (Flag ok) ys /\ dyn s' ys) ->
  runs (flag m) s (fun r s' => exists ys, step o xs r ys /\ dyn s' ys).
Proof. move=> Hm HP. apply: runs_bind Hm _ => b s' Hb. apply: runs_ret. exact: HP. Qed.

Lemma runs_done (m : DM unit) ys s o xs :
  runs m s (fun _ s' => dyn s' ys) -> step o xs (Flag true) ys ->
  runs (done_ m) s (fun r s' => exists ys, step o xs r ys /\ dyn s' ys).
Proof. move=> Hm HP. apply: runs_bind Hm _ => b s' Hb. apply: runs_ret. by exists ys. Qed.

Lemma resize_and_shrink_ok s xs n :
  dyn s xs -> enabled (ResizeShrink n) s xs ->
  runs (resize_and_shrink SZ (Z.of_nat n)) s (fun ok s' =>
    if ok then exists ys, dyn s' ys /\ extends (Z.of_nat n) xs ys else dyn s' xs).
Proof.
  move=> Hs He. have Hl := dyn_length _ _ Hs. have Hc := dyn_cap _ _ Hs.
  rewrite /resize_and_shrink. apply: runs_dyn. rewrite Hl. case: He => [Hn|[Hn Hw]].
  - rewrite (proj2 (Z.ltb_ge _ _)); first lia. case: Z.ltb_spec => Hlt.
    + apply: runs_mono; first (apply: (shrink_dyn s xs (Z.of_nat n) Hs); lia).
      move=> [] s' H'; last exact: dyn_same Hs.
      eexists; split; [exact: (proj1 H') | apply: extends_take; lia].
    + apply: runs_ret. exists xs. split; [done|].
      have := extends_take xs (Z.of_nat n). rewrite Nat2Z.id take_ge; first lia. apply. lia.
  - rewrite !(proj2 (Z.ltb_lt _ _)) //; first lia.
    apply: runs_mono; first (apply: (grow_ok s _ (Z.of_nat n) (proj1 Hs)); lia).
    move=> [] s' H'; last by apply: dyn_same (proj2 H') Hs.
    apply: resized_dyn Hs H' _. lia.
Qed.

Lemma dyn_run_refines o s xs : dyn s xs -> enabled o s xs -> refines o s xs.
Proof.
  move=> Hs He. rewrite /refines.
  destruct o as [i x|i n|x|x| | | |i j|i j|i j|n|n| | |i|zs|rhs]; rewrite /run.
  - destruct He as [Hi [H64 Hr]]. apply: runs_flag (dyn_insert_ok _ _ _ x Hs Hi H64 Hr) _ => - [] s' H'.
    all: eexists; split; [|exact H']; by constructor.
  - destruct He as [Hi [H64 Hr]].
    apply: (runs_flag _ (fun ok s' => if ok : bool
      then exists zs, length zs = n /\ dyn s' (take i xs ++ zs ++ drop i xs) else dyn s' xs)).
    + apply: runs_bind (insert_range_ok _ _ _ _ Hs Hi H64 Hr) _ => g s' Hg. apply: runs_ret.
      destruct g; [by case: Hg | done].
    + move=> [] s' /=; last by exists xs; split; [constructor|].
      move=> [zs [Hz Hd]]. eexists; split; [|exact Hd]. by constructor.
  - destruct He as [H64 Hr]. apply: runs_flag (dyn_insert_ok _ _ 0 x Hs (Nat.le_0_l _) H64 Hr) _ => - [] s' H'.
    all: eexists; split; [|exact H']; by constructor.
  - destruct He as [H64 Hr]. apply: runs_flag.
    + apply: runs_dyn. rewrite (dyn_length _ _ Hs). apply: dyn_insert_ok Hs _ H64 Hr. done.
    + move=> [] s' H'; rewrite ?take_ge ?drop_ge // in H'; eexists; (split; [|exact H']); by constructor.
  - apply: runs_done (pop_front_ok _ _ Hs He) _. destruct xs; [done | constructor].
  - destruct xs as [|x xs]; first done. apply: runs_flag (pop_front_and_shrink_ok _ _ _ Hs) _ => - [] s' H'.
    all: eexists; split; [|exact H']; by constructor.
  - apply: runs_done (pop_back_ok _ _ Hs He) _. destruct xs as [|x xs _] using rev_ind; first done.
    rewrite length_app Nat.add_sub take_app_length. constructor.
  - destruct He as [Hij Hi]. apply: runs_done (erase_range_ok _ _ _ _ Hs Hij Hi) _. constructor.
  - destruct He as [Hij Hi]. apply: runs_flag (erase_range_and_shrink_ok _ _ _ _ Hs Hij Hi) _ => - [] s'.
    + move=> [Hd _]. eexists; split; [|exact Hd]. constructor.
    + move=> [ys [Hd [Hly Ey]]]. exists ys. split; [by constructor | done].
  - apply: runs_done (extract_range_ok _ _ _ _ Hs He) _. constructor.
  - apply: runs_flag (resize_ok _ _ _ Hs (Nat2Z.is_nonneg n) He) _ => - [] s'.
    + move=> [ys [Hd Hx]]. exists ys. split; [by constructor | done].
    + exists xs. split; [by constructor | done].
  - apply: runs_flag (resize_and_shrink_ok _ _ _ Hs He) _ => - [] s'.
    + move=> [ys [Hd Hx]]. exists ys. split; [by constructor | done].
    + exists xs. split; [by constructor | done].
  - apply: runs_done (step_clear _). apply: runs_mono (dyn_clear_ok _ _ Hs) _ => _ s' [] //.
  - apply: runs_done (step_clear_shrink _). apply: runs_mono (clear_and_shrink_ok _ _ Hs) _ => _ s' [] //.
  - destruct (lookup_lt_is_Some_2 xs i He) as [x Hx]. rewrite /runs /bind (at_ok _ _ i Hs) Hx.
    eexists _, _; split; first done. exists xs. split; [by constructor | done].
  - apply: runs_flag.
    + rewrite /build_init -(length_fmap Some zs).
      apply: (build_ok (fun i s => Ok (zs !! Z.to_nat i, s)) (Some <$> zs)) Hs _ _ _.
      * move=> i z s' Hz. rewrite Nat2Z.id. apply list_lookup_fmap_Some in Hz as (y & -> & Hy). by rewrite Hy.
      * by rewrite length_fmap.
      * done.
    + move=> [] s' H'; eexists; (split; [|exact H']); constructor.
  - destruct He as (a & zs & Hz & Hr). apply: runs_flag.
    + rewrite /build (dyn_length (mkSt rhs a) _ Hz).
      apply: (build_ok (load rhs) zs) Hs (load_yields _ _ _ Hz) Hr _.
      move=> s' Hl'. by rewrite /bind /this Hl' Nat2Z.id.
    + move=> [] s' H'; eexists; (split; [|exact H']); by econstructor.
Qed.

(** Growing within the capacity with [resize_and_shrink] fails an assertion,
    and [shrink_to_fit] does nothing: its condition is the other way round. *)
Lemma resize_and_shrink_panics s xs n :
  dyn s xs -> Z.of_nat (length xs) < n <= _capacity (arr s) -> resize_and_shrink SZ n s = Panic.
Proof.
  move=> Hs Hn. rewrite /resize_and_shrink /bind /this (dyn_length _ _ Hs).
  rewrite (proj2 (Z.ltb_lt _ _)); first lia. rewrite (proj2 (Z.ltb_ge _ _)); first lia.
  by rewrite /_shrink_capacity /bind /this (dyn_length _ _ Hs) (proj2 (Z.leb_gt _ _)); first lia.
Qed.

Lemma shrink_to_fit_idle s xs : dyn s xs -> shrink_to_fit SZ s = Ok (true, s).
Proof.
  move=> Hs. have Hc := dyn_cap _ _ Hs.
  by rewrite /shrink_to_fit /bind /this (dyn_length _ _ Hs) (proj2 (Z.ltb_ge _ _)); first lia.
Qed.

(** ** Moving an array *)

Lemma move_assign_ok s xs (rhs : dynarray T) ys :
  dyn s xs -> dyn (mkSt rhs (heap s)) ys ->
  runs (move_assign SZ rhs) s (fun left s' => dyn s' ys /\ dyn (mkSt left (heap s')) [] /\ arr s' = rhs) \/
  move_assign SZ rhs s = Panic.
Proof.
  move=> Hs Hr. case: (proj1 Hs) => [[al Ha] _]. case: (proj1 Hr) => [[al' Ha'] _]. simpl in Ha'.
  destruct (type_identity al =? type_identity al') eqn:Et; [left | right];
    rewrite /runs /move_assign /bind /this /verify_allocator Ha Ha' Et //=.
  destruct (clear_and_shrink_ok s xs Hs) as (u & s1 & -> & _).
  eexists _, _. split; first done. split; [exact Hr|]. split; [|done].
  split; [|done]. split; [by exists al' | done].
Qed.

End Represent.

(** * The claims *)

(** C28: on an array that represents a sequence, the operations of [DynArray]
    on elements of any size do what the same operations do on the sequence --
    insertion, removal, extraction of a range, resizing, copying, access -- or
    report that memory was refused and leave the sequence; only the shrinking
    removal of a range loses elements then, and a copy the old contents.  No
    access leaves the buffer. *)
Theorem dynarray_refines {T A} `{Blocks A} SZ (o : op) (s : dyn_st T A) xs :
  0 < SZ -> dyn SZ s xs -> enabled SZ o s xs -> refines SZ o s xs.
Proof. move=> H0 H1 H2. exact: dyn_run_refines. Qed.

Section Concrete.

(** An allocator that grants as many requests as its state says *)
#[local] Instance some_grants : Blocks Z := {
  grant _ _ a := (0 <? a, a - 1);
  regrant _ _ _ a := (0 <? a, a - 1);
  give_back _ _ a := a;
  type_identity _ := 0
}.

(** The array 1, 2, 3 of 8-byte elements, in a block of four *)
Definition a3 (grants : Z) : dyn_st Z Z :=
  mkSt (mkDyn 3 4 (Some 1%positive) (Some [Some 1; Some 2; Some 3; None])) grants.

Lemma a3_ok grants : dyn 8 (a3 grants) [Some 1; Some 2; Some 3].
Proof. split; [split; [by exists 1%positive | split; [done | by vm_compute]] | done]. Qed.

Lemma dynarray_refines_witness :
  refines 8 (Insert 1 7) (a3 0) [Some 1; Some 2; Some 3] /\
  refines 8 (Resize 9) (a3 1) [Some 1; Some 2; Some 3] /\
  refines 8 (EraseShrink 0 1) (a3 0) [Some 1; Some 2; Some 3].
Proof.
  split; [|split].
  - apply (dynarray_refines 8 (Insert 1 7) (a3 0)); [done | exact (a3_ok 0) |].
    split; [simpl; lia | split; [by vm_compute|]]. move=> Hroom. by vm_compute in Hroom.
  - apply (dynarray_refines 8 (Resize 9) (a3 1)); [done | exact (a3_ok 1) |]. move=> _. by vm_compute.
  - apply (dynarray_refines 8 (EraseShrink 0 1) (a3 0)); [done | exact (a3_ok 0) |]. simpl. lia.
Defined.

Definition contents {R} (r : outcome (R * dyn_st Z Z)) : option (R * list (option Z)) :=
  match r with
  | Ok (b, s) => Some (b, take (Z.to_nat (_length (arr s))) (default [] (_data (arr s))))
  | _ => None
  end.

(** [extract_range_and_shrink] keeps the first elements instead of the range;
    a refused [erase_range_and_shrink] leaves the elements moved; nothing
    checks that an insertion is inside the array. *)
Example extract_keeps_the_first :
  contents (extract_range_and_shrink 8 1 3 (a3 1)) = Some (true, [Some 1; Some 2]).
Proof. by vm_compute. Qed.

Example refused_erase_moves :
  contents (erase_range_and_shrink 8 0 1 (a3 0)) = Some (false, [Some 2; Some 3; Some 3]).
Proof. by vm_compute. Qed.

Example insert_outside : insert 8 6 7 (a3 0) = Fault.
Proof. by vm_compute. Qed.

End Concrete.

End KDynT.
