(* ===== verification/KHash.v ===== *)
(** * Hash sets and hash maps

    include/pbos/kfxx/hashset.hh and hashmap.hh, for comparators and hashers
    that cannot fail.  The array of buckets and the lists in it are the
    sequences that KDynTheorems and KListTheorems show them to be; a node is
    given by its bucket and its position there.  Memory is an interface that
    says which requests are granted. *)

From S2P Require Import Prelude.

Module KHash.

(** Requests for an array of buckets and for a node *)
Class Grants (A : Type) := {
  grant_buckets : Z -> A -> bool * A;
  grant_node : A -> bool * A
}.

(** What the template parameters give: the comparator, the hasher (as
    [size_t]), whether elements can be move-assigned, and what is left of an
    element that is destroyed and constructed again from itself. *)
Class Element (T : Type) := {
  equality_comparator : T -> T -> bool;
  hasher : T -> Z;
  is_move_assignable : bool;
  self_constructed : T -> T
}.

(** [move_assign_or_move_construct] of utils.hh *)
Definition move_assign_or_move_construct {T} `{Element T} (lhs rhs : T) : T :=
  if is_move_assignable then rhs else self_constructed lhs.

(** [element_t] and [bucket_t] *)
Record element_t (T : Type) := mkElement { data : T; hash_code : Z }.
Arguments mkElement {T}.
Arguments data {T}.
Arguments hash_code {T}.
Abbreviation bucket_t T := (list (element_t T)).

Record hashset (T A : Type) := mkSet {
  _buckets : list (bucket_t T);
  _size : Z;
  memory : A
}.
Arguments mkSet {T A}.
Arguments _buckets {T A}.
Arguments _size {T A}.
Arguments memory {T A}.

Definition node_handle : Type := (nat * nat)%type.

Section Ops.
Context {T A : Type} `{Element T} `{Grants A}.

Abbreviation HM := (M (hashset T A)).
Abbreviation buckets := (list (bucket_t T)).
Implicit Types (bs : buckets) (b : bucket_t T).

Definition this : HM (hashset T A) := fun h => Ok (h, h).
Definition set_buckets bs : HM unit := fun h => Ok (tt, mkSet bs (_size h) (memory h)).
Definition set_size (n : Z) : HM unit := fun h => Ok (tt, mkSet (_buckets h) (w64 n) (memory h)).
Definition ask (request : A -> bool * A) : HM bool := fun h =>
  let '(ok, a) := request (memory h) in Ok (ok, mkSet (_buckets h) (_size h) a).

Definition n_buckets bs : Z := Z.of_nat (length bs).

(** [_buckets.at(i)] *)
Definition bucket_at (i : Z) : HM (bucket_t T) := fun h =>
  if i <? n_buckets (_buckets h)
  then match _buckets h !! Z.to_nat i with Some b => Ok (b, h) | None => Fault end
  else Panic.

Definition put_bucket (i : Z) b : HM unit := fun h =>
  set_buckets (<[Z.to_nat i := b]> (_buckets h)) h.

(** ** Buckets *)

Definition _check_capacity (h : hashset T A) : Z :=
  let capacity := w64 (Z.shiftl (n_buckets (_buckets h)) 1) in
  if capacity <? _size h then 1
  else let size := Z.shiftr capacity 1 in
       if _size h <? size then if size <=? 1 then 0 else -1
       else 0.

(** Moving the elements of the old buckets, each to the front of its new one *)
Definition rehash_element (new_size : Z) (new_buckets : buckets) (e : element_t T) : buckets :=
  let index := Z.to_nat (hash_code e mod new_size) in
  alter (cons e) index new_buckets.

Definition rehash_bucket (new_size : Z) (new_buckets : buckets) b : buckets :=
  fold_left (rehash_element new_size) b new_buckets.

(** The new buckets, or none when memory is refused *)
Definition _resize_buckets (new_size : Z) bs : HM (option buckets) :=
  ok <- ask (grant_buckets new_size);
  if ok : bool
  then ret (Some (fold_left (rehash_bucket new_size) bs (repeat [] (Z.to_nat new_size))))
  else ret None.

Definition _check_and_resize_buckets : HM bool :=
  h <- this;
  let size := n_buckets (_buckets h) in
  let resize new_size :=
    new_buckets <- _resize_buckets new_size (_buckets h);
    match new_buckets with
    | Some bs => set_buckets bs;; ret true
    | None => ret false
    end in
  if _check_capacity h =? 1 then resize (if size =? 0 then 1 else w64 (Z.shiftl size 1))
  else if _check_capacity h =? -1 then resize (Z.shiftr size 1)
  else ret true.

(** The position of the first element equal to [x] *)
Fixpoint _get_bucket_slot b (x : T) : option nat :=
  match b with
  | [] => None
  | e :: b => if equality_comparator (data e) x then Some O else option_map Datatypes.S (_get_bucket_slot b x)
  end.

Definition bucket_index (h : hashset T A) (x : T) : Z := hasher x mod n_buckets (_buckets h).

(** ** Insertion, removal, search *)

Definition init_buckets : HM bool :=
  h <- this;
  if n_buckets (_buckets h) =? 0
  then ok <- ask (grant_buckets 1);
       if ok : bool then set_buckets [[]];; ret true else ret false
  else ret true.

(** The element goes over an equal one or to the front of its bucket. *)
Definition store (index : Z) (x : T) (hash_code : Z) : HM bool :=
  bucket <- bucket_at index;
  match _get_bucket_slot bucket x with
  | Some p =>
      put_bucket index
        (alter (fun e => mkElement (move_assign_or_move_construct (data e) x) (KHash.hash_code e)) p bucket);;
      ret true
  | None =>
      ok <- ask grant_node;
      if ok : bool then put_bucket index (mkElement x hash_code :: bucket);; ret true else ret false
  end.

(** [bucket.pop_front()] *)
Definition pop_front_of (index : Z) : HM unit :=
  bucket <- bucket_at index;
  match bucket with
  | [] => panic
  | _ :: bucket => put_bucket index bucket
  end.

Definition _insert (x : T) (force_resize_buckets : bool) : HM bool :=
  ok <- init_buckets;
  if negb ok then ret false
  else
    h <- this;
    let hash_code := hasher x in
    let index := bucket_index h x in
    stored <- store index x hash_code;
    if negb stored then ret false
    else
      resized <- _check_and_resize_buckets;
      if negb resized && force_resize_buckets then
        pop_front_of index;;
        ret false
      else
        h <- this;
        set_size (_size h + 1);;
        ret true.

Definition insert (x : T) : HM bool := _insert x true.
Definition insert_without_resize_buckets (x : T) : HM bool := _insert x false.

Definition remove (x : T) : HM unit :=
  h <- this;
  if n_buckets (_buckets h) =? 0 then ret tt
  else
    let index := bucket_index h x in
    bucket <- bucket_at index;
    match _get_bucket_slot bucket x with
    | Some p =>
        put_bucket index (delete p bucket);;
        h <- this;
        set_size (_size h - 1)
    | None => ret tt
    end.

(** [_get]; its second parameter, the index of the bucket, is never written. *)
Definition get (x : T) : HM (option node_handle) :=
  h <- this;
  if n_buckets (_buckets h) =? 0 then ret None
  else
    let i := bucket_index h x in
    bucket <- bucket_at i;
    ret (option_map (fun p => (Z.to_nat i, p)) (_get_bucket_slot bucket x)).

Definition contains (x : T) : HM bool :=
  node <- get x; ret (match node with Some _ => true | None => false end).

(** The element of a node *)
Definition node_data (node : node_handle) : HM T := fun h =>
  match _buckets h !! fst node ≫= lookup (snd node) with Some e => Ok (data e, h) | None => Fault end.

Definition at_ (x : T) : HM T :=
  node <- get x;
  match node with Some n => node_data n | None => panic end.

Definition size : HM Z := h <- this; ret (_size h).

(** Neither resets [_size]. *)
Definition clear : HM unit := set_buckets [].
Definition clear_and_shrink : HM unit := set_buckets [].
(** [_buckets.shrink_to_fit()], which KDynTheorems shows to do nothing *)
Definition shrink_buckets : HM bool := ret true.

Definition empty (a : A) : hashset T A := mkSet [] 0 a.

(** The moves give the new set and what is left of the source. *)
Definition move_construct (other : hashset T A) : hashset T A * hashset T A :=
  (other, mkSet [] 0 (memory other)).
Definition move_assign (other : hashset T A) : HM (hashset T A) :=
  clear_and_shrink;;
  fun h => Ok (mkSet [] 0 (memory other), mkSet (_buckets other) (_size other) (memory h)).

(** ** Iterators *)

Definition SIZE_MAX : Z := 2 ^ 64 - 1.

Inductive IteratorDirection := Forward | Reversed.

Record Iterator := mkIter {
  idx_cur_bucket : Z;
  bucket_node_handle : option node_handle;
  direction : IteratorDirection
}.

Definition first_node (i : Z) b : option node_handle :=
  match b with [] => None | _ :: _ => Some (Z.to_nat i, O) end.
Definition last_node (i : Z) b : option node_handle :=
  match b with [] => None | _ :: b' => Some (Z.to_nat i, length b') end.

(** [bucket_t::next(node, 1)] and [bucket_t::prev(node, 1)] *)
Definition next_in_bucket (node : option node_handle) : HM (option node_handle) := fun h =>
  match node with
  | None => Fault
  | Some (i, p) =>
      Ok (if bool_decide (is_Some (_buckets h !! i ≫= lookup (Datatypes.S p))) then Some (i, Datatypes.S p) else None, h)
  end.
Definition prev_in_bucket (node : option node_handle) : HM (option node_handle) := fun h =>
  match node with
  | None => Fault
  | Some (i, O) => Ok (None, h)
  | Some (i, Datatypes.S p) => Ok (Some (i, p), h)
  end.

Definition end_ : Iterator := mkIter SIZE_MAX None Forward.
Definition end_reversed : Iterator := mkIter SIZE_MAX None Reversed.

(** The first bucket with a node, from [i] on *)
Definition begin_round (i : Z) : HM (Z + Iterator) :=
  h <- this;
  if i <? n_buckets (_buckets h) then
    cur_bucket <- bucket_at i;
    match first_node i cur_bucket with
    | Some node => ret (inr (mkIter i (Some node) Forward))
    | None => ret (inl (i + 1))
    end
  else ret (inr end_).

Definition begin : HM Iterator :=
  h <- this; loop (Datatypes.S (length (_buckets h))) begin_round 0.

Definition begin_reversed_round (i : Z) : HM (Z + Iterator) :=
  if negb (i =? 0) then
    cur_bucket <- bucket_at i;
    match last_node i cur_bucket with
    | Some node => ret (inr (mkIter i (Some node) Reversed))
    | None => ret (inl (i - 1))
    end
  else
    cur_bucket <- bucket_at 0;
    match last_node 0 cur_bucket with
    | Some node => ret (inr (mkIter 0 (Some node) Reversed))
    | None => ret (inr end_reversed)
    end.

Definition begin_reversed : HM Iterator :=
  h <- this; loop (Datatypes.S (length (_buckets h))) begin_reversed_round (n_buckets (_buckets h)).

(** [while ((!next_node) && (idx_cur_bucket != SIZE_MAX))], upwards *)
Definition up_round (st : Z * option node_handle) : HM (Z * option node_handle + (Z * option node_handle)) :=
  let '(idx, next_node) := st in
  if negb (match next_node with None => true | Some _ => false end && negb (idx =? SIZE_MAX))
  then ret (inr (idx, next_node))
  else
    let idx := idx + 1 in
    h <- this;
    if n_buckets (_buckets h) <=? idx then ret (inl (SIZE_MAX, None))
    else b <- bucket_at idx; ret (inl (idx, first_node idx b)).

Definition down_round (st : Z * option node_handle) : HM (Z * option node_handle + (Z * option node_handle)) :=
  let '(idx, next_node) := st in
  if negb (match next_node with None => true | Some _ => false end && negb (idx =? SIZE_MAX))
  then ret (inr (idx, next_node))
  else if idx =? 0 then ret (inl (SIZE_MAX, None))
  else
    let idx := idx - 1 in
    b <- bucket_at idx; ret (inl (idx, last_node idx b)).

(** [operator++] *)
Definition iter_inc (it : Iterator) : HM Iterator :=
  kd_assert (negb (idx_cur_bucket it =? SIZE_MAX));;
  h <- this;
  let fuel := Datatypes.S (Datatypes.S (length (_buckets h))) in
  match direction it with
  | Forward =>
      next_node <- next_in_bucket (bucket_node_handle it);
      st <- loop fuel up_round (idx_cur_bucket it, next_node);
      ret (mkIter (fst st) (snd st) Forward)
  | Reversed =>
      next_node <- prev_in_bucket (bucket_node_handle it);
      st <- loop fuel down_round (idx_cur_bucket it, next_node);
      ret (mkIter (fst st) (snd st) Reversed)
  end.

(** The loops of [operator--], which panic at the end *)
Definition dec_down_round (st : Z * option node_handle) : HM (Z * option node_handle + (Z * option node_handle)) :=
  let '(idx, next_node) := st in
  match next_node with
  | Some _ => ret (inr st)
  | None =>
      if idx =? 0 then panic
      else let idx := idx - 1 in b <- bucket_at idx; ret (inl (idx, last_node idx b))
  end.

Definition dec_up_round (st : Z * option node_handle) : HM (Z * option node_handle + (Z * option node_handle)) :=
  let '(idx, next_node) := st in
  match next_node with
  | Some _ => ret (inr st)
  | None =>
      let idx := w64 (idx + 1) in
      h <- this;
      if n_buckets (_buckets h) <=? idx then panic
      else b <- bucket_at idx; ret (inl (idx, first_node idx b))
  end.

Definition iter_dec (it : Iterator) : HM Iterator :=
  h <- this;
  let fuel := Datatypes.S (Datatypes.S (length (_buckets h))) in
  match direction it with
  | Forward =>
      if idx_cur_bucket it =? SIZE_MAX then
        let idx := n_buckets (_buckets h) in
        b <- bucket_at idx;
        ret (mkIter idx (last_node idx b) Forward)
      else
        next_node <- prev_in_bucket (bucket_node_handle it);
        st <- loop fuel dec_down_round (idx_cur_bucket it, next_node);
        ret (mkIter (fst st) (snd st) Forward)
  | Reversed =>
      if idx_cur_bucket it =? SIZE_MAX then
        b <- bucket_at 0;
        ret (mkIter 0 (first_node 0 b) Reversed)
      else
        next_node <- next_in_bucket (bucket_node_handle it);
        st <- loop fuel dec_up_round (idx_cur_bucket it, next_node);
        ret (mkIter (fst st) (snd st) Reversed)
  end.

Definition iter_eq (it it' : Iterator) : bool :=
  bool_decide (bucket_node_handle it = bucket_node_handle it').
Definition iter_ne (it it' : Iterator) : bool := negb (iter_eq it it').
(** [operator!=] of [ConstIterator] *)
Definition const_iter_ne (it it' : Iterator) : bool := iter_eq it it'.

Definition iter_deref (it : Iterator) : HM T :=
  match bucket_node_handle it with Some n => node_data n | None => panic end.

(** [find]; [index] is the uninitialised variable that the iterator gets. *)
Definition find (index : Z) (x : T) : HM Iterator :=
  node <- get x;
  match node with
  | Some n => ret (mkIter index (Some n) Forward)
  | None => ret end_
  end.

End Ops.

(** ** Maps

    [Pair], and [QueryPair] for queries *)
Inductive Pair (K V : Type) : Type :=
  | mkPair (key : K) (value : V)
  | QueryPair (query_key : K).
Arguments mkPair {K V}.
Arguments QueryPair {K V}.

Definition pair_key {K V} (p : Pair K V) : K :=
  match p with mkPair k _ => k | QueryPair k => k end.

(** The template parameters of a map: comparator and hasher of the keys, and
    what a move of a destroyed key or value onto itself leaves *)
Class Key (K V : Type) := {
  Eq : K -> K -> bool;
  Hasher : K -> Z;
  moved_key : K -> K;
  moved_value : V -> V
}.

(** [PairCmp] and [PairHasher]; a [Pair] has a move constructor of its own,
    and so no assignment. *)
#[export] Instance pair_element {K V} `{Key K V} : Element (Pair K V) := {
  equality_comparator p q := Eq (pair_key p) (pair_key q);
  hasher p := Hasher (pair_key p);
  is_move_assignable := false;
  self_constructed p := match p with mkPair k v => mkPair (moved_key k) (moved_value v) | q => q end
}.

Section Map.
Context {K V A : Type} `{Key K V} `{Grants A}.

Abbreviation MM := (M (hashset (Pair K V) A)).

Definition map_insert (k : K) (v : V) : MM bool := insert (mkPair k v).
Definition map_insert_without_resize_buckets (k : K) (v : V) : MM bool :=
  insert_without_resize_buckets (mkPair k v).
Definition map_remove (k : K) : MM unit := remove (QueryPair k).
Definition map_contains (k : K) : MM bool := contains (QueryPair k).

(** [.value.get()] of a pair *)
Definition pair_value (p : Pair K V) : MM V :=
  match p with mkPair _ v => ret v | QueryPair _ => fault end.

Definition map_at (k : K) : MM V := p <- at_ (QueryPair k); pair_value p.
Definition map_find (index : Z) (k : K) : MM Iterator := find index (QueryPair k).
Definition iter_value (it : Iterator) : MM V := p <- iter_deref it; pair_value p.
Definition map_size : MM Z := size.
Definition map_is_empty : MM bool := n <- size; ret (n =? 0).
Definition map_clear : MM unit := clear.
Definition map_shrink_buckets : MM bool := shrink_buckets.

End Map.
End KHash.
