(* ===== verification/KHashTheorems.v ===== *)
(** * Theorems on the hash sets and hash maps

    A set represents a collection of elements, given up to their order, of
    which no two are equal.  Its operations implement those of such
    collections; a map represents a finite map. *)

From S2P Require Import Prelude KHash.

Module KHashT.
Import KHash.

(** What the comparator and the hasher promise *)
Class ElementLaws (T : Type) `{Element T} := {
  cmp_refl x : equality_comparator x x = true;
  cmp_sym x y : equality_comparator x y = equality_comparator y x;
  cmp_trans x y z : equality_comparator x y = true -> equality_comparator y z = equality_comparator x z;
  hasher_cmp x y : equality_comparator x y = true -> hasher x = hasher y;
  hasher_nonneg x : 0 <= hasher x
}.

Section Represent.
Context {T A : Type} `{EL : ElementLaws T} `{Grants A}.

Abbreviation HM := (M (hashset T A)).
Abbreviation buckets := (list (bucket_t T)).
Implicit Types (bs : buckets) (b : bucket_t T) (h : hashset T A) (m : list T).

(** ** Buckets in their places *)

(** The elements equal to [x] *)
Definition matches (x : T) b : bucket_t T := filter (fun e => equality_comparator (data e) x = true) b.

Definition placed (n i : nat) (e : element_t T) : Prop :=
  hash_code e = hasher (data e) /\ Z.to_nat (hash_code e mod Z.of_nat n) = i.

Definition well_placed n bs : Prop := forall i b, bs !! i = Some b -> Forall (placed n i) b.

(** No two elements are equal. *)
Definition distinct b : Prop := forall x, (length (matches x b) <= 1)%nat.

Definition inv bs : Prop := well_placed (length bs) bs /\ distinct (concat bs).

(** The elements of a set *)
Definition rep h m : Prop :=
  inv (_buckets h) /\ data <$> concat (_buckets h) ≡ₚ m /\ in64 (_size h).

#[global] Instance matches_proper x : Proper ((≡ₚ) ==> (≡ₚ)) (matches x).
Proof. move=> b b' E. by rewrite /matches E. Qed.

#[global] Instance distinct_proper : Proper ((≡ₚ) ==> iff) distinct.
Proof. move=> b b' E. rewrite /distinct. by setoid_rewrite E. Qed.

Lemma matches_app x b b' : matches x (b ++ b') = matches x b ++ matches x b'.
Proof. exact: filter_app. Qed.

Lemma matches_nil x b : matches x b = [] <-> forall e, e ∈ b -> equality_comparator (data e) x = false.
Proof.
  rewrite /matches. split.
  - move=> E e He. apply not_true_iff_false => Hc.
    have : e ∈ filter (fun e => equality_comparator (data e) x = true) b by apply list_elem_of_filter.
    rewrite E. by move=> /elem_of_nil.
  - elim: b => [|e b IH] Hb //=. rewrite filter_cons_False; first by rewrite Hb //; left.
    apply: IH => e' He. apply: Hb. by right.
Qed.

(** Only the comparison class of [x] matters. *)
Lemma matches_cmp x y b : equality_comparator x y = true -> matches x b = matches y b.
Proof.
  move=> Exy. apply: list_filter_iff => e.
  by rewrite (cmp_sym _ x) (cmp_sym _ y) (cmp_trans x y) // .
Qed.

Lemma distinct_cons e b :
  distinct (e :: b) <-> distinct b /\ matches (data e) b = [].
Proof.
  split.
  - move=> Hd. split.
    + move=> x. have := Hd x. rewrite /matches filter_cons. case: decide => ? /=; lia.
    + have := Hd (data e). rewrite /matches filter_cons_True; first exact: cmp_refl.
      rewrite /=. case: (filter _ b) => //= ? ?. lia.
  - move=> [Hb He] x. rewrite /matches filter_cons. case: decide => Hx; last exact: Hb.
    by rewrite -/(matches x b) -(matches_cmp (data e)) // He.
Qed.

(** ** Replacing one bucket *)

Lemma alter_is_insert {B} (f : B -> B) (l : list B) i x : l !! i = Some x -> alter f i l = <[i := f x]> l.
Proof. elim: l i => [|y l IH] [|i] //=; [by move=> [->] | move=> Hx; f_equal; exact: IH]. Qed.

Lemma split_bucket bs i b :
  bs !! i = Some b -> exists rest, concat bs ≡ₚ b ++ rest /\ forall b', concat (<[i := b']> bs) ≡ₚ b' ++ rest.
Proof.
  move=> Hi. exists (concat (take i bs) ++ concat (drop (S i) bs)).
  have Hlt := lookup_lt_Some _ _ _ Hi. split.
  - rewrite -{1}(take_drop_middle _ _ _ Hi) concat_app /= !app_assoc.
    by rewrite (Permutation_app_comm b).
  - move=> b'. rewrite insert_take_drop // concat_app /= !app_assoc.
    by rewrite (Permutation_app_comm b').
Qed.

Lemma well_placed_insert n bs i b :
  well_placed n bs -> Forall (placed n i) b -> well_placed n (<[i := b]> bs).
Proof.
  move=> Hw Hb j c. case: (decide (i = j)) => [<-|Hne].
  - by move=> /list_lookup_insert_Some [[_ [<- _]]|[? _]].
  - rewrite list_lookup_insert_ne //. exact: Hw.
Qed.

(** ** Looking in a bucket *)

Lemma slot_spec b x :
  match _get_bucket_slot b x with
  | Some p => exists e, b !! p = Some e /\ equality_comparator (data e) x = true
  | None => matches x b = []
  end.
Proof.
  elim: b => [|e b IH] //=. destruct (equality_comparator (data e) x) eqn:E; first by exists e.
  case: (_get_bucket_slot b x) IH => [p|] //=.
  move=> IH. rewrite /matches filter_cons_False //. by rewrite E.
Qed.

(** The elements equal to [x] are in the bucket of its hash code. *)
Lemma matches_elsewhere bs i j b x :
  well_placed (length bs) bs -> bs !! j = Some b ->
  Z.to_nat (hasher x mod Z.of_nat (length bs)) = i -> i <> j -> matches x b = [].
Proof.
  move=> Hw Hj Hi Hne. apply matches_nil => e He. apply not_true_iff_false => Hc.
  have [Hh Hp] := proj1 (Forall_forall _ _) (Hw _ _ Hj) _ He.
  rewrite Hh (hasher_cmp _ _ Hc) in Hp. congruence.
Qed.

Lemma matches_bucket bs i b x :
  well_placed (length bs) bs -> bs !! i = Some b ->
  Z.to_nat (hasher x mod Z.of_nat (length bs)) = i -> matches x (concat bs) = matches x b.
Proof.
  move=> Hw Hb Hi.
  have Hnil : forall l, (forall j c, l !! j = Some c -> matches x c = []) -> matches x (concat l) = [].
  { elim=> [|c l IH] Hl //=. rewrite matches_app (Hl 0%nat) //. apply: IH => j. exact: (Hl (S j)). }
  rewrite -{1}(take_drop_middle _ _ _ Hb) concat_app /= !matches_app.
  rewrite !Hnil ?app_nil_r //.
  - move=> j c Hj. apply lookup_take_Some in Hj as [Hj ?]. apply: (matches_elsewhere bs i) Hw Hj Hi _. lia.
  - move=> j c. rewrite lookup_drop => Hj. apply: (matches_elsewhere bs i) Hw Hj Hi _. lia.
Qed.

Lemma bucket_exists h x :
  _buckets h <> [] ->
  exists b, _buckets h !! Z.to_nat (bucket_index h x) = Some b /\
    bucket_at (bucket_index h x) h = Ok (b, h).
Proof.
  move=> Hne. rewrite /bucket_index /n_buckets.
  have Hpos : 0 < Z.of_nat (length (_buckets h)) by destruct (_buckets h); [done | simpl; lia].
  set i := hasher x mod _.
  have Hr : 0 <= i < Z.of_nat (length (_buckets h)) by apply Z.mod_pos_bound.
  destruct (lookup_lt_is_Some_2 (_buckets h) (Z.to_nat i)) as [b Hb]; first lia.
  exists b. split; [done|]. rewrite /bucket_at /n_buckets (proj2 (Z.ltb_lt _ _)); first lia. by rewrite Hb.
Qed.

(** ** Moving everything to new buckets *)

Definition hashed (e : element_t T) : Prop := hash_code e = hasher (data e).

Lemma placed_hashed n bs : well_placed n bs -> Forall hashed (concat bs).
Proof.
  move=> Hw. apply Forall_concat, Forall_lookup => i b Hb. apply: Forall_impl (Hw _ _ Hb) _ => e [] //.
Qed.

Lemma rehash_concat n bs acc :
  fold_left (rehash_bucket n) bs acc = fold_left (rehash_element n) (concat bs) acc.
Proof. elim: bs acc => [|b bs IH] acc //=. by rewrite fold_left_app IH. Qed.

Lemma rehash_element_ok (n : nat) acc e :
  (0 < n)%nat -> length acc = n -> well_placed n acc -> hashed e ->
  let acc' := rehash_element (Z.of_nat n) acc e in
  length acc' = n /\ well_placed n acc' /\ concat acc' ≡ₚ e :: concat acc.
Proof.
  move=> Hn Hl Hw He. rewrite /rehash_element /=. set i := Z.to_nat _.
  have Hi : (i < length acc)%nat.
  { have := Z.mod_pos_bound (hash_code e) (Z.of_nat n). rewrite Hl /i. lia. }
  destruct (lookup_lt_is_Some_2 acc i Hi) as [b Hb].
  rewrite length_alter (alter_is_insert _ _ _ _ Hb).
  destruct (split_bucket _ _ _ Hb) as (rest & E & E').
  split; [done | split; [|by rewrite E' E]].
  apply: well_placed_insert => //. constructor; [by split | exact: Hw Hb].
Qed.

Lemma rehash_ok (n : nat) b acc :
  (0 < n)%nat -> length acc = n -> well_placed n acc -> Forall hashed b ->
  let acc' := fold_left (rehash_element (Z.of_nat n)) b acc in
  length acc' = n /\ well_placed n acc' /\ concat acc' ≡ₚ b ++ concat acc.
Proof.
  move=> Hn. elim: b acc => [|e b IH] acc Hl Hw Hb //=.
  apply Forall_cons in Hb as [He Hb].
  destruct (rehash_element_ok n acc e Hn Hl Hw He) as (Hl' & Hw' & E).
  destruct (IH _ Hl' Hw' Hb) as (Hl2 & Hw2 & E2).
  split; [done | split; [done|]]. rewrite E2 E. by rewrite Permutation_middle.
Qed.

Lemma concat_repeat_nil n : concat (repeat (A := bucket_t T) [] n) = [].
Proof. elim: n => //=. Qed.

Lemma ask_ok h request :
  runs (ask request) h (fun _ h' => _buckets h' = _buckets h /\ _size h' = _size h).
Proof. rewrite /runs /ask. case: request => ok a. by eexists _, _. Qed.

Lemma runs_set {B} (f : hashset T A -> HM B) h Q : runs (f h) h Q -> runs (bind this f) h Q.
Proof. done. Qed.

Lemma resize_buckets_ok h (n : nat) bs :
  (0 < n)%nat -> inv bs ->
  runs (_resize_buckets (Z.of_nat n) bs) h (fun r h' => _buckets h' = _buckets h /\ _size h' = _size h /\
    match r with
    | Some bs' => length bs' = n /\ inv bs' /\ concat bs' ≡ₚ concat bs
    | None => True
    end).
Proof.
  move=> Hn [Hw Hd]. rewrite /_resize_buckets. apply: runs_bind (ask_ok h _) _ => - [] h' [Eb Es].
  all: apply: runs_ret; split; [done | split; [done|]]; try done.
  rewrite rehash_concat Nat2Z.id.
  destruct (rehash_ok n (concat bs) (repeat [] n) Hn) as (Hl & Hw' & E).
  - by rewrite repeat_length.
  - move=> i b Hb. apply list_elem_of_lookup_2, list_elem_of_In, repeat_spec in Hb. by subst b.
  - exact: placed_hashed Hw.
  - rewrite concat_repeat_nil app_nil_r in E. split; [done|]. split; [|done].
    split; [by rewrite Hl | by rewrite E].
Qed.

(** Numbers of buckets whose double does not wrap around *)
Definition few bs : Prop := n_buckets bs < 2 ^ 62.

Lemma capacity_small bs : few bs -> w64 (Z.shiftl (n_buckets bs) 1) = 2 * n_buckets bs.
Proof.
  rewrite /few /n_buckets => Hf. rewrite Z.shiftl_mul_pow2 // w64_small; last lia. unfold in64. lia.
Qed.

Lemma check_and_resize_ok h :
  inv (_buckets h) -> _buckets h <> [] -> few (_buckets h) ->
  runs _check_and_resize_buckets h (fun ok h' => _size h' = _size h /\
    inv (_buckets h') /\ concat (_buckets h') ≡ₚ concat (_buckets h) /\
    (ok = false -> _buckets h' = _buckets h)).
Proof.
  move=> Hi Hne Hf. set n := length (_buckets h).
  have Hn : (0 < n)%nat by rewrite /n; destruct (_buckets h); [done | simpl; lia].
  have Hres : forall k z, (0 < k)%nat -> z = Z.of_nat k ->
    runs (new_buckets <- _resize_buckets z (_buckets h);
          match new_buckets with Some bs => set_buckets bs;; ret true | None => ret false end) h
      (fun ok h' => _size h' = _size h /\ inv (_buckets h') /\ concat (_buckets h') ≡ₚ concat (_buckets h) /\
        (ok = false -> _buckets h' = _buckets h)).
  { move=> k z Hk ->. apply: runs_bind (resize_buckets_ok h k _ Hk Hi) _ => - [bs|] h' [Eb [Es Hbs]].
    - destruct Hbs as (_ & Hi' & E). by eexists _, _.
    - apply: runs_ret. by rewrite Eb. }
  have Hskip : runs (ret true) h (fun ok h' => _size h' = _size h /\ inv (_buckets h') /\
    concat (_buckets h') ≡ₚ concat (_buckets h) /\ (ok = false -> _buckets h' = _buckets h)) by exact: runs_ret.
  rewrite /_check_and_resize_buckets. apply: runs_set. rewrite /_check_capacity capacity_small // -/n /n_buckets -/n.
  rewrite Z.shiftr_div_pow2 // (_ : 2 * Z.of_nat n / 2 ^ 1 = Z.of_nat n); first by rewrite Z.mul_comm Z.div_mul.
  have Hc : few (_buckets h) := Hf. rewrite /few /n_buckets -/n in Hc.
  case: Z.ltb_spec => Hs /=.
  - apply: (Hres (2 * n)%nat); first lia. case: Z.eqb_spec => ?; first lia.
    lia.
  - case: Z.ltb_spec => Hs2; last exact: Hskip. case: Z.leb_spec => Hs3; first exact: Hskip.
    rewrite /=. apply: (Hres (n / 2)%nat); first (apply Nat.div_str_pos; lia).
    by rewrite Z.shiftr_div_pow2 // Nat2Z.inj_div.
Qed.

(** ** Storing an element *)

Lemma store_ok h x b :
  _buckets h !! Z.to_nat (bucket_index h x) = Some b ->
  bucket_at (bucket_index h x) h = Ok (b, h) ->
  runs (store (bucket_index h x) x (hasher x)) h (fun ok h' => _size h' = _size h /\
    match _get_bucket_slot b x with
    | Some p => ok = true /\ _buckets h' = <[Z.to_nat (bucket_index h x) :=
        alter (fun e => mkElement (move_assign_or_move_construct (data e) x) (hash_code e)) p b]> (_buckets h)
    | None => _buckets h' = if ok : bool then <[Z.to_nat (bucket_index h x) := mkElement x (hasher x) :: b]> (_buckets h)
                            else _buckets h
    end).
Proof.
  move=> Hb E. rewrite /store /runs (bind_ok _ _ _ _ _ E) -/(runs _ _ _).
  destruct (_get_bucket_slot b x) as [p|]; first by eexists _, _.
  apply: runs_bind (ask_ok h _) _ => - [] h' [Eb Es]; last by apply: runs_ret.
  eexists _, _. split; first done. by rewrite /put_bucket /set_buckets /= Eb.
Qed.

Lemma index_nonneg h x : 0 <= bucket_index h x \/ _buckets h = [].
Proof.
  rewrite /bucket_index /n_buckets. destruct (_buckets h) as [|c bs] eqn:E; [by right | left].
  by apply Z.mod_pos_bound.
Qed.

Lemma store_new bs i b x :
  inv bs -> bs !! i = Some b -> Z.to_nat (hasher x mod Z.of_nat (length bs)) = i ->
  matches x (concat bs) = [] ->
  inv (<[i := mkElement x (hasher x) :: b]> bs) /\
  concat (<[i := mkElement x (hasher x) :: b]> bs) ≡ₚ mkElement x (hasher x) :: concat bs.
Proof.
  move=> [Hw Hd] Hb Hi Hx. destruct (split_bucket _ _ _ Hb) as (rest & E & E').
  have Ec : concat (<[i := mkElement x (hasher x) :: b]> bs) ≡ₚ mkElement x (hasher x) :: concat bs
    by rewrite E' E.
  split; [split|done].
  - rewrite length_insert. apply: (well_placed_insert _ _ _ _ Hw). constructor; [by split | exact: Hw Hb].
  - rewrite Ec. apply distinct_cons. by split.
Qed.

Lemma store_over bs i b x p e :
  is_move_assignable = true ->
  inv bs -> bs !! i = Some b -> b !! p = Some e -> equality_comparator (data e) x = true ->
  let b' := alter (fun e => mkElement (move_assign_or_move_construct (data e) x) (hash_code e)) p b in
  inv (<[i := b']> bs) /\
  exists rest, concat bs ≡ₚ e :: rest /\ concat (<[i := b']> bs) ≡ₚ mkElement x (hash_code e) :: rest.
Proof.
  move=> Hass [Hw Hd] Hb He Hc /=. rewrite (alter_is_insert _ _ _ _ He).
  rewrite /move_assign_or_move_construct Hass. set e' := mkElement x (hash_code e).
  destruct (split_bucket _ _ _ Hb) as (rest & E & E').
  have [c [Eb Eb']] : exists c, b ≡ₚ e :: c /\ <[p := e']> b ≡ₚ e' :: c.
  { exists (take p b ++ drop (S p) b). split.
    - rewrite -{1}(take_drop_middle _ _ _ He). by rewrite Permutation_middle.
    - rewrite insert_take_drop; [exact: lookup_lt_Some He | by rewrite Permutation_middle]. }
  have Ec : concat bs ≡ₚ e :: (c ++ rest) by rewrite E Eb.
  have Ec' : concat (<[i := <[p := e']> b]> bs) ≡ₚ e' :: (c ++ rest) by rewrite E' Eb'.
  split; [split|by eexists].
  - rewrite length_insert. apply: (well_placed_insert _ _ _ _ Hw). have Hf := Hw _ _ Hb.
    apply Forall_insert; first done. case: (proj1 (Forall_lookup _ _) Hf _ _ He) => [Hh Hp].
    split; [by rewrite /= Hh; apply hasher_cmp | done].
  - rewrite Ec'. rewrite Ec in Hd. apply distinct_cons in Hd as [Hd Hx]. apply distinct_cons.
    split; [done|]. by rewrite /= -(matches_cmp (data e)).
Qed.

Lemma matches_data x b : matches x b = [] <-> Forall (fun y => equality_comparator y x = false) (data <$> b).
Proof. rewrite matches_nil Forall_fmap Forall_forall. done. Qed.

Lemma absent_matches h m x :
  rep h m -> Forall (fun y => equality_comparator y x = false) m <-> matches x (concat (_buckets h)) = [].
Proof. move=> [_ [E _]]. by rewrite matches_data E. Qed.

(** ** The operations of a set, and what they do to the collection *)

Inductive op : Type :=
  | Insert (force : bool) (x : T)
  | Remove (x : T)
  | Contains (x : T)
  | At (x : T)
  | Clear.

Inductive answer : Type := Nothing | Flag (b : bool) | Value (x : T).

Definition run (o : op) : HM answer :=
  match o with
  | Insert true x => b <- insert x; ret (Flag b)
  | Insert false x => b <- insert_without_resize_buckets x; ret (Flag b)
  | Remove x => remove x;; ret Nothing
  | Contains x => b <- contains x; ret (Flag b)
  | At x => y <- at_ x; ret (Value y)
  | Clear => clear;; ret Nothing
  end.

Definition absent (x : T) m : Prop := Forall (fun y => equality_comparator y x = false) m.

(** The answer, the change of [_size], the new collection.  An equal element
    is overwritten, and counted again; when the buckets cannot be resized
    then, the element at the front of its bucket goes. *)
Inductive step : op -> list T -> answer -> Z -> list T -> Prop :=
  | step_new f x m : absent x m -> step (Insert f x) m (Flag true) 1 (x :: m)
  | step_refused f x m : absent x m -> step (Insert f x) m (Flag false) 0 m
  | step_over f x y m : equality_comparator y x = true -> step (Insert f x) (y :: m) (Flag true) 1 (x :: m)
  | step_over_lost x y m z rest :
      equality_comparator y x = true -> x :: m ≡ₚ z :: rest -> step (Insert true x) (y :: m) (Flag false) 0 rest
  | step_remove x y m : equality_comparator y x = true -> step (Remove x) (y :: m) Nothing (-1) m
  | step_remove_absent x m : absent x m -> step (Remove x) m Nothing 0 m
  | step_contains x m :
      step (Contains x) m (Flag (existsb (fun y => equality_comparator y x) m)) 0 m
  | step_at x y m : equality_comparator y x = true -> step (At x) (y :: m) (Value y) 0 (y :: m)
  | step_clear m : step Clear m Nothing 0 [].

Definition enabled (o : op) h m : Prop :=
  match o with
  | Insert _ x => few (_buckets h) /\ (absent x m \/ is_move_assignable = true)
  | At x => ~ absent x m
  | _ => True
  end.

Definition stepped o h m (r : answer) h' : Prop :=
  exists m0 d m1, m ≡ₚ m0 /\ step o m0 r d m1 /\ rep h' m1 /\
    _size h' = w64 (_size h + d).

Definition refines (o : op) h m : Prop := runs (run o) h (stepped o h m).

(** ** Their correctness *)

Lemma stepped_same o h m r h' m0 :
  m ≡ₚ m0 -> step o m0 r 0 m0 -> rep h m -> inv (_buckets h') ->
  concat (_buckets h') ≡ₚ concat (_buckets h) -> _size h' = _size h -> stepped o h m r h'.
Proof.
  move=> Em Hstep [_ [E H64]] Hi Ec Es. exists m0, 0, m0. split; [done | split; [done|]].
  rewrite Z.add_0_r Es w64_small //. split; [|done]. split; [done | split; [by rewrite Ec E | by rewrite Es]].
Qed.

Lemma init_buckets_ok h m :
  rep h m -> few (_buckets h) ->
  runs init_buckets h (fun ok h' => rep h' m /\ _size h' = _size h /\
    if ok : bool then _buckets h' <> [] /\ few (_buckets h') else m = []).
Proof.
  move=> Hr Hf. rewrite /init_buckets. apply: runs_set. rewrite /n_buckets. case: Z.eqb_spec => Hn.
  - have Hnil : _buckets h = [] by destruct (_buckets h).
    case: (Hr) => [Hi [E H64]]. rewrite Hnil /= in E.
    apply: runs_bind (ask_ok h _) _ => - [] h' [Eb Es].
    + eexists _, _. split; first done. split; [|done]. split; [split|split; [done | by rewrite /= Es]].
      * move=> i b /= Hb. destruct i as [|i]; last done. by case: Hb => <-.
      * move=> x /=. lia.
    + apply: runs_ret. split; [by rewrite /rep Eb Es | split; [done|]].
      by apply Permutation_nil_l in E.
  - apply: runs_ret. split; [done | split; [done|]]. split; [by destruct (_buckets h) | done].
Qed.

Lemma bucket_at_ok h i b :
  0 <= i -> _buckets h !! Z.to_nat i = Some b -> bucket_at i h = Ok (b, h).
Proof.
  move=> Hi Hb. have Hlt := lookup_lt_Some _ _ _ Hb. rewrite /bucket_at /n_buckets.
  rewrite (proj2 (Z.ltb_lt _ _)); first lia. by rewrite Hb.
Qed.

Lemma pop_bucket bs i c b :
  inv bs -> bs !! i = Some (c :: b) ->
  inv (<[i := b]> bs) /\ concat bs ≡ₚ c :: concat (<[i := b]> bs).
Proof.
  move=> [Hw Hd] Hb. destruct (split_bucket _ _ _ Hb) as (rest & E & E').
  have Ec : concat bs ≡ₚ c :: concat (<[i := b]> bs) by rewrite E E'.
  split; [split|done].
  - rewrite length_insert. apply: (well_placed_insert _ _ _ _ Hw).
    by have /Forall_cons [] := Hw _ _ Hb.
  - rewrite Ec in Hd. by apply distinct_cons in Hd as [].
Qed.

Lemma pop_front_of_ok h i c b :
  0 <= i -> _buckets h !! Z.to_nat i = Some (c :: b) ->
  runs (pop_front_of i) h (fun _ h' => _size h' = _size h /\ _buckets h' = <[Z.to_nat i := b]> (_buckets h)).
Proof.
  move=> Hi Hb. rewrite /pop_front_of /runs (bind_ok _ _ _ _ _ (bucket_at_ok _ _ _ Hi Hb)).
  by eexists _, _.
Qed.

(** What follows the storing of the element, which the bucket [c :: b] has *)
Lemma finish_insert h f i c b :
  inv (_buckets h) -> 0 <= i -> _buckets h !! Z.to_nat i = Some (c :: b) -> few (_buckets h) ->
  runs (resized <- _check_and_resize_buckets;
        if negb resized && f then pop_front_of i;; ret false
        else h <- this; set_size (_size h + 1);; ret true) h
    (fun ok h' => inv (_buckets h') /\
      if ok : bool then concat (_buckets h') ≡ₚ concat (_buckets h) /\ _size h' = w64 (_size h + 1)
      else f = true /\ _size h' = _size h /\ _buckets h' = <[Z.to_nat i := b]> (_buckets h)).
Proof.
  move=> Hinv Hi Hb Hf. have Hne : _buckets h <> [] by move=> E; rewrite E in Hb.
  apply: runs_bind (check_and_resize_ok h Hinv Hne Hf) _ => ok h' [Es [Hi' [Ec Ef]]].
  destruct (negb ok && f) eqn:Eok.
  - apply andb_true_iff in Eok as [Eok ->]. apply negb_true_iff in Eok. subst ok.
    have Eb := Ef eq_refl. rewrite -Eb in Hb.
    apply: runs_bind (pop_front_of_ok h' i c b Hi Hb) _ => _ h2 [Es2 Eb2]. apply: runs_ret.
    rewrite Eb2. split; [exact: (proj1 (pop_bucket _ _ _ _ Hi' Hb)) | by rewrite Es2 Es Eb].
  - eexists _, _. split; first done. split; [done|]. by rewrite /= Es.
Qed.

Lemma stepped_change o h m r h' m0 d m1 :
  m ≡ₚ m0 -> step o m0 r d m1 -> inv (_buckets h') -> data <$> concat (_buckets h') ≡ₚ m1 ->
  _size h' = w64 (_size h + d) -> stepped o h m r h'.
Proof.
  move=> Em Hs Hi E Es. exists m0, d, m1. split; [done | split; [done|]]. split; [|done].
  split; [done | split; [done|]]. rewrite Es. exact: w64_range.
Qed.

Lemma few_insert bs i b : few bs -> few (<[i := b]> bs).
Proof. by rewrite /few /n_buckets length_insert. Qed.

Lemma hash_insert_ok f x h m :
  rep h m -> few (_buckets h) -> absent x m \/ is_move_assignable = true ->
  runs (_insert x f) h (fun ok h' => stepped (Insert f x) h m (Flag ok) h').
Proof.
  move=> Hr Hf Hx. rewrite /_insert. apply: runs_bind (init_buckets_ok h m Hr Hf) _ => ok h1 [H1 [Es1 Hok]].
  case: (H1) => [Hi1 [E1 H64]]. case: (Hr) => [_ [_ H64']]. destruct ok; simpl; last first.
  { apply: runs_ret. subst m. apply: (stepped_change _ _ _ _ _ [] 0 []) => //; first by apply: step_refused; apply Forall_nil.
    by rewrite Z.add_0_r w64_small // Es1. }
  destruct Hok as [Hne Hf1]. apply: runs_set. destruct (bucket_exists h1 x Hne) as (b & Hb & Eb).
  have Hi0 : 0 <= bucket_index h1 x by case: (index_nonneg h1 x).
  have Hidx : Z.to_nat (hasher x mod Z.of_nat (length (_buckets h1))) = Z.to_nat (bucket_index h1 x) by [].
  apply: runs_bind (store_ok h1 x b Hb Eb) _ => ok h2 [Es2].
  have Hlt := lookup_lt_Some _ _ _ Hb. have := slot_spec b x.
  destruct (_get_bucket_slot b x) as [p|].
  - move=> [e [He Hc]] [-> Eb2] /=.
    destruct Hx as [Hx|Hass].
    { apply (absent_matches _ _ _ H1) in Hx. rewrite (matches_bucket _ _ _ _ (proj1 Hi1) Hb Hidx) in Hx.
      by rewrite (proj1 (matches_nil x b) Hx) in Hc; first exact: list_elem_of_lookup_2 He. }
    destruct (store_over _ _ _ _ _ _ Hass Hi1 Hb He Hc) as (Hi2 & rest & Er & Er').
    rewrite -Eb2 in Hi2, Er'. rewrite Er /= in E1.
    destruct (alter _ p b) as [|c b'] eqn:Ealt.
    { apply (f_equal length) in Ealt. rewrite length_alter in Ealt. by destruct b. }
    have Hb2 : _buckets h2 !! Z.to_nat (bucket_index h1 x) = Some (c :: b')
      by rewrite Eb2 list_lookup_insert_eq.
    have Hf2 : few (_buckets h2) by rewrite Eb2; exact: few_insert.
    apply: runs_mono (finish_insert h2 f _ c b' Hi2 Hi0 Hb2 Hf2) _ => - [] h3 [Hi3 H3].
    + destruct H3 as [Ec3 Es3]. apply: (stepped_change _ _ _ _ _ (data e :: (data <$> rest)) 1 (x :: (data <$> rest))).
      * by symmetry.
      * by constructor.
      * done.
      * by rewrite Ec3 Er'.
      * by rewrite Es3 Es2 Es1.
    + destruct H3 as (-> & Es3 & Eb3). destruct (pop_bucket _ _ _ _ Hi2 Hb2) as [_ Ep].
      apply: (stepped_change _ _ _ _ _ (data e :: (data <$> rest)) 0 (data <$> concat (_buckets h3))).
      * by symmetry.
      * apply: (step_over_lost x _ _ (data c)); first done. rewrite Eb3 -fmap_cons -Ep Er'. done.
      * done.
      * done.
      * by rewrite Es3 Es2 Es1 Z.add_0_r w64_small.
  - move=> Hslot Eb2. rewrite -(matches_bucket _ _ _ _ (proj1 Hi1) Hb Hidx) in Hslot.
    have Habs : absent x m by apply (absent_matches h1).
    have Hrefused : forall h3, inv (_buckets h3) -> _buckets h3 = _buckets h1 -> _size h3 = _size h2 ->
      stepped (Insert f x) h m (Flag false) h3.
    { move=> h3 Hi3 E3 Es3. apply: (stepped_change _ _ _ _ _ m 0 m) => //; first by constructor.
      - by rewrite E3.
      - by rewrite Es3 Es2 Es1 Z.add_0_r w64_small. }
    destruct ok; simpl; last by apply: runs_ret; apply: Hrefused => //; rewrite Eb2.
    destruct (store_new _ _ _ _ Hi1 Hb Hidx Hslot) as [Hi2 Ec2]. rewrite -Eb2 in Hi2, Ec2.
    have Hb2 : _buckets h2 !! Z.to_nat (bucket_index h1 x) = Some (mkElement x (hasher x) :: b)
      by rewrite Eb2 list_lookup_insert_eq.
    have Hf2 : few (_buckets h2) by rewrite Eb2; exact: few_insert.
    apply: runs_mono (finish_insert h2 f _ _ b Hi2 Hi0 Hb2 Hf2) _ => - [] h3 [Hi3 H3].
    + destruct H3 as [Ec3 Es3]. apply: (stepped_change _ _ _ _ _ m 1 (x :: m)) => //; first by constructor.
      * by rewrite Ec3 Ec2 fmap_cons E1.
      * by rewrite Es3 Es2 Es1.
    + destruct H3 as (-> & Es3 & Eb3). apply: Hrefused => //.
      by rewrite Eb3 Eb2 list_insert_insert_eq list_insert_id.
Qed.

Lemma no_buckets h m : rep h m -> n_buckets (_buckets h) = 0 -> m = [] /\ concat (_buckets h) = [].
Proof.
  move=> [_ [E _]] Hn. have Hnil : _buckets h = [] by destruct (_buckets h).
  rewrite Hnil /= in E |- *. by apply Permutation_nil_l in E.
Qed.

(** What [get] finds *)
Lemma get_ok h m x :
  rep h m ->
  exists r, get x h = Ok (r, h) /\
  match r with
  | Some (i, p) => exists b e, _buckets h !! i = Some b /\ b !! p = Some e /\ equality_comparator (data e) x = true
  | None => matches x (concat (_buckets h)) = []
  end.
Proof.
  move=> Hr. rewrite /get /bind /this. case: Z.eqb_spec => Hn.
  - exists None. by destruct (no_buckets _ _ Hr Hn) as [_ ->].
  - have Hne : _buckets h <> [] by move=> E; rewrite E in Hn.
    destruct (bucket_exists h x Hne) as (b & Hb & ->).
    have := slot_spec b x. destruct (_get_bucket_slot b x) as [p|] => Hs; (eexists; split; first done).
    + destruct Hs as (e & He & Hc). by exists b, e.
    + by rewrite (matches_bucket _ _ _ _ (proj1 (proj1 Hr)) Hb).
Qed.

Lemma node_in h m i p b e :
  rep h m -> _buckets h !! i = Some b -> b !! p = Some e -> exists rest, m ≡ₚ data e :: rest.
Proof.
  move=> [_ [E _]] Hb He. destruct (split_bucket _ _ _ Hb) as (rest & Ec & _).
  have Hin : data e ∈ data <$> concat (_buckets h).
  { apply list_elem_of_fmap. exists e. split; [done|]. rewrite Ec. apply elem_of_app. left.
    exact: list_elem_of_lookup_2 He. }
  rewrite E in Hin. by apply elem_of_Permutation in Hin.
Qed.

Lemma absent_exists x m : absent x m <-> existsb (fun y => equality_comparator y x) m = false.
Proof.
  elim: m => [|y m IH] /=; first by split; [|constructor].
  rewrite /absent Forall_cons -/(absent x m) orb_false_iff IH. done.
Qed.

Lemma present_exists x y m rest :
  m ≡ₚ y :: rest -> equality_comparator y x = true -> existsb (fun y => equality_comparator y x) m = true.
Proof.
  move=> E Hc. apply existsb_exists. exists y. split; [|done].
  apply list_elem_of_In. rewrite E. by left.
Qed.

Lemma contains_ok h m x :
  rep h m -> contains x h = Ok (existsb (fun y => equality_comparator y x) m, h).
Proof.
  move=> Hr. destruct (get_ok h m x Hr) as ([[i p]|] & E & H1); rewrite /contains (bind_ok _ _ _ _ _ E).
  - destruct H1 as (b & e & Hb & He & Hc). destruct (node_in _ _ _ _ _ _ Hr Hb He) as [rest Em].
    by rewrite (present_exists _ _ _ _ Em Hc).
  - apply (absent_matches _ _ _ Hr) in H1. by rewrite (proj1 (absent_exists _ _) H1).
Qed.

Lemma at_found h m x :
  rep h m -> ~ absent x m ->
  exists y rest, at_ x h = Ok (y, h) /\ m ≡ₚ y :: rest /\ equality_comparator y x = true.
Proof.
  move=> Hr Hx. destruct (get_ok h m x Hr) as ([[i p]|] & E & H1); rewrite /at_ (bind_ok _ _ _ _ _ E).
  - destruct H1 as (b & e & Hb & He & Hc). destruct (node_in _ _ _ _ _ _ Hr Hb He) as [rest Em].
    exists (data e), rest. by rewrite /node_data /= Hb /= He.
  - by case: Hx; apply (absent_matches _ _ _ Hr).
Qed.

Lemma at_missing h m x : rep h m -> absent x m -> at_ x h = Panic.
Proof.
  move=> Hr Hx. destruct (get_ok h m x Hr) as ([[i p]|] & E & H1); rewrite /at_ (bind_ok _ _ _ _ _ E) //.
  destruct H1 as (b & e & Hb & He & Hc). destruct (node_in _ _ _ _ _ _ Hr Hb He) as [rest Em].
  apply absent_exists in Hx. by rewrite (present_exists _ _ _ _ Em Hc) in Hx.
Qed.

Lemma hash_remove_ok h m x :
  rep h m -> runs (remove x) h (fun _ h' => stepped (Remove x) h m Nothing h').
Proof.
  move=> Hr. case: (Hr) => [Hi [E H64]]. rewrite /remove. apply: runs_set.
  have Hskip : matches x (concat (_buckets h)) = [] -> stepped (Remove x) h m Nothing h.
  { move=> Hm. apply: (stepped_same _ _ _ _ _ m) => //. constructor. by apply (absent_matches h). }
  case: Z.eqb_spec => Hn; first by apply: runs_ret; apply: Hskip; destruct (no_buckets _ _ Hr Hn) as [_ ->].
  have Hne : _buckets h <> [] by move=> E0; rewrite E0 in Hn.
  destruct (bucket_exists h x Hne) as (b & Hb & Eb). rewrite /runs (bind_ok _ _ _ _ _ Eb) -/(runs _ _ _).
  have := slot_spec b x. destruct (_get_bucket_slot b x) as [p|] => Hs; last first.
  { apply: runs_ret. apply: Hskip. by rewrite (matches_bucket _ _ _ _ (proj1 Hi) Hb). }
  destruct Hs as (e & He & Hc). eexists _, _. split; first done.
  destruct (split_bucket _ _ _ Hb) as (rest & Ec & Ec').
  have Edel : b ≡ₚ e :: delete p b by apply delete_Permutation.
  have Eall : concat (_buckets h) ≡ₚ e :: (delete p b ++ rest) by rewrite Ec; exact: (Permutation_app_tail rest Edel).
  apply: (stepped_change _ _ _ _ _ (data e :: (data <$> (delete p b ++ rest))) (-1) (data <$> (delete p b ++ rest))).
  - by rewrite -E Eall.
  - by constructor.
  - split.
    + rewrite length_insert. apply: (well_placed_insert _ _ _ _ (proj1 Hi)).
      exact: Forall_delete (proj1 Hi _ _ Hb).
    + rewrite /= Ec'. have Hd := proj2 Hi. rewrite Eall in Hd. by apply distinct_cons in Hd as [].
  - by rewrite /= Ec'.
  - done.
Qed.

Lemma hash_run_refines o h m : rep h m -> enabled o h m -> refines o h m.
Proof.
  move=> Hr He. rewrite /refines. destruct o as [f x|x|x|x|].
  - destruct He as [Hf Hx]. destruct f; apply: runs_bind (hash_insert_ok _ x h m Hr Hf Hx) _ => ok h' Hs.
    all: exact: runs_ret.
  - apply: runs_bind (hash_remove_ok h m x Hr) _ => _ h' Hs. exact: runs_ret.
  - rewrite /run /runs (bind_ok _ _ _ _ _ (contains_ok h m x Hr)). eexists _, _. split; first done.
    apply: (stepped_same _ _ _ _ _ m) => //; [constructor | exact: (proj1 Hr)].
  - destruct (at_found h m x Hr He) as (y & rest & E & Em & Hc).
    rewrite /run /runs (bind_ok _ _ _ _ _ E). eexists _, _. split; first done.
    apply: (stepped_same _ _ _ _ _ (y :: rest)) => //; [by constructor | exact: (proj1 Hr)].
  - eexists _, _. split; first done. apply: (stepped_change _ _ _ _ _ m 0 []) => //; first constructor.
    + split; [by move=> i b Hb | by move=> x /=; lia].
    + case: Hr => [_ [_ H64]]. by rewrite /= Z.add_0_r w64_small.
Qed.

(** ** Iterating *)

(** The loop [for (it = begin(); it != end(); ++it)], with at most [n] nodes *)
Fixpoint traverse (n : nat) (it : Iterator) : HM (list T) :=
  if iter_ne it end_ then
    match n with
    | O => fun _ => NoFuel
    | S n =>
        x <- iter_deref it;
        it <- iter_inc it;
        xs <- traverse n it;
        ret (x :: xs)
    end
  else ret [].

(** The elements an iterator has before it *)
Definition before bs (it : Iterator) (l : bucket_t T) : Prop :=
  match bucket_node_handle it with
  | None => l = []
  | Some (i, p) => idx_cur_bucket it = Z.of_nat i /\ direction it = Forward /\
      exists b, bs !! i = Some b /\ (p < length b)%nat /\ l = drop p b ++ concat (drop (S i) bs)
  end.

Lemma bucket_at_nat h (i : nat) b : _buckets h !! i = Some b -> bucket_at (Z.of_nat i) h = Ok (b, h).
Proof. move=> Hb. apply: bucket_at_ok; [lia | by rewrite Nat2Z.id]. Qed.

(** From bucket [i] on, the loops find the first bucket with an element. *)
Lemma up_loop h i fuel :
  few (_buckets h) -> (i < length (_buckets h))%nat -> (length (_buckets h) - i < fuel)%nat ->
  exists it, loop fuel up_round (Z.of_nat i, None) h = Ok ((idx_cur_bucket it, bucket_node_handle it), h) /\
    direction it = Forward /\ before (_buckets h) it (concat (drop (S i) (_buckets h))).
Proof.
  move=> Hf Hi. have Hn : n_buckets (_buckets h) < 2 ^ 62 := Hf. rewrite /n_buckets in Hn.
  remember (length (_buckets h) - i)%nat as d eqn:Hd.
  elim: d i fuel Hi Hd => [|d IH] i fuel Hi Hd Hfuel; first lia.
  destruct fuel as [|[|fuel]]; [lia | lia |].
  have Hne : (Z.of_nat i =? SIZE_MAX) = false by apply Z.eqb_neq; unfold SIZE_MAX; lia.
  destruct (lookup_lt_is_Some_2 (_buckets h) i Hi) as [b0 _].
  case: (decide (S i < length (_buckets h))%nat) => Hlt.
  - destruct (lookup_lt_is_Some_2 (_buckets h) (S i) Hlt) as [b Hb].
    have E1 : up_round (Z.of_nat i, None) h = Ok (inl (Z.of_nat (S i), first_node (Z.of_nat (S i)) b), h).
    { rewrite /up_round Hne /= /bind /this (_ : Z.of_nat i + 1 = Z.of_nat (S i)); first lia.
      rewrite (proj2 (Z.leb_gt _ _)); first (unfold n_buckets; lia). by rewrite (bucket_at_nat _ _ _ Hb). }
    rewrite (loop_next _ _ _ _ _ _ E1) (drop_S _ _ _ Hb) /=.
    destruct b as [|c b].
    + apply: (IH (S i) (S fuel)); [done | lia | lia].
    + exists (mkIter (Z.of_nat (S i)) (Some (S i, O)) Forward). split; [|split; [done|]].
      * by rewrite /= /bind /first_node Nat2Z.id.
      * split; [done | split; [done|]]. exists (c :: b). split; [done | split; [simpl; lia | done]].
  - exists (mkIter SIZE_MAX None Forward). rewrite (drop_ge (_buckets h)); first lia. split; [|done].
    have E1 : up_round (Z.of_nat i, None) h = Ok (inl (SIZE_MAX, None), h).
    { rewrite /up_round Hne /= /bind /this (proj2 (Z.leb_le _ _)) //. unfold n_buckets. lia. }
    by rewrite (loop_next _ _ _ _ _ _ E1).
Qed.

#[local] Arguments loop : simpl never.

Lemma inc_ok h it e l :
  few (_buckets h) -> before (_buckets h) it (e :: l) ->
  iter_deref it h = Ok (data e, h) /\
  exists it', iter_inc it h = Ok (it', h) /\ before (_buckets h) it' l.
Proof.
  move=> Hf. have Hn : n_buckets (_buckets h) < 2 ^ 62 := Hf. rewrite /n_buckets in Hn.
  destruct it as [idx [[i p]|] dir]; rewrite /before /=; last done.
  intros (-> & -> & b & Hb & Hp & El). have Hi := lookup_lt_Some _ _ _ Hb.
  destruct (lookup_lt_is_Some_2 b p Hp) as [e' He]. rewrite (drop_S _ _ _ He) /= in El. case: El => Ee El. subst e'.
  split; first by rewrite /iter_deref /node_data /= Hb /= He.
  have Hne : (Z.of_nat i =? SIZE_MAX) = false by apply Z.eqb_neq; unfold SIZE_MAX; lia.
  rewrite /iter_inc /= Hne /= /bind /kd_assert /ret /this /next_in_bucket Hb.
  case: (decide (S p < length b)%nat) => Hlt.
  - destruct (lookup_lt_is_Some_2 b (S p) Hlt) as [c Hc].
    rewrite bool_decide_true; first by rewrite /= Hc; eauto.
    eexists. split; first by rewrite /= /bind. split; [done | split; [done|]]. by exists b.
  - rewrite bool_decide_false; first by rewrite /= lookup_ge_None_2; [lia | by case].
    destruct (up_loop h i (S (S (length (_buckets h)))) Hf Hi) as (it' & E & Hdir & Hbef); first lia.
    rewrite E. eexists. split; first done. rewrite drop_ge /= in El; first lia. subst l.
    rewrite /before /= -/(before _ _ _). rewrite /before Hdir in Hbef. exact: Hbef.
Qed.

Lemma hash_begin_ok h :
  few (_buckets h) -> exists it, begin h = Ok (it, h) /\ before (_buckets h) it (concat (_buckets h)).
Proof.
  move=> Hf. rewrite /begin /bind /this.
  have Hgen : forall d i fuel, (i <= length (_buckets h))%nat -> d = (length (_buckets h) - i)%nat -> (d < fuel)%nat ->
    exists it, loop fuel begin_round (Z.of_nat i) h = Ok (it, h) /\
      before (_buckets h) it (concat (drop i (_buckets h))).
  { elim=> [|d IH] i fuel Hi Hd Hfuel; (destruct fuel as [|fuel]; first lia).
    - rewrite drop_ge; first lia. exists end_. split; [|done]. apply: loop_exit.
      rewrite /begin_round /bind /this (proj2 (Z.ltb_ge _ _)) //. unfold n_buckets; lia.
    - destruct (lookup_lt_is_Some_2 (_buckets h) i) as [b Hb]; first lia.
      have E : begin_round (Z.of_nat i) h = match b with
        | [] => Ok (inl (Z.of_nat (S i)), h)
        | _ => Ok (inr (mkIter (Z.of_nat i) (Some (i, O)) Forward), h) end.
      { rewrite /begin_round /bind /this (proj2 (Z.ltb_lt _ _)); first (unfold n_buckets; lia).
        rewrite (bucket_at_nat _ _ _ Hb). destruct b; rewrite /= ?Nat2Z.id //.
        by rewrite (_ : Z.of_nat i + 1 = Z.of_nat (S i)); first lia. }
      rewrite (drop_S _ _ _ Hb). destruct b as [|c b].
      + rewrite (loop_next _ _ _ _ _ _ E). apply: IH; lia.
      + eexists. split; first exact: loop_exit E. split; [done | split; [done|]].
        exists (c :: b). split; [done | split; [simpl; lia | done]]. }
  destruct (Hgen (length (_buckets h)) O (S (length (_buckets h)))) as (it & E & Hb); [lia | lia | lia |].
  by exists it.
Qed.

Lemma traverse_ok h l it :
  few (_buckets h) -> before (_buckets h) it l -> traverse (length l) it h = Ok (data <$> l, h).
Proof.
  move=> Hf. elim: l it => [|e l IH] it Hb.
  - rewrite /= /iter_ne /iter_eq. rewrite /before in Hb.
    destruct (bucket_node_handle it) as [[i p]|]; last done.
    destruct Hb as (_ & _ & b & _ & Hp & El). symmetry in El. apply app_eq_nil in El as [El _].
    apply (f_equal length) in El. rewrite length_drop /= in El. lia.
  - rewrite /= /iter_ne /iter_eq bool_decide_false /=.
    { rewrite /before in Hb. destruct (bucket_node_handle it) as [[i p]|]; done. }
    destruct (inc_ok _ _ _ _ Hf Hb) as (E1 & it' & E2 & Hb').
    rewrite (bind_ok _ _ _ _ _ E1) (bind_ok _ _ _ _ _ E2) (bind_ok _ _ _ _ _ (IH _ Hb')) //.
Qed.

(** Iterating backwards is not possible: the first bucket looked at does not
    exist. *)
Lemma begin_reversed_panics h : begin_reversed h = Panic.
Proof.
  have E : begin_reversed_round (n_buckets (_buckets h)) h = Panic.
  { rewrite /begin_reversed_round. case: (Z.eqb_spec (n_buckets (_buckets h)) 0) => Hn /=; rewrite /bind /bucket_at.
    - by rewrite Hn.
    - by rewrite Z.ltb_irrefl. }
  by rewrite /begin_reversed {1}/bind /this /loop {1}/bind E.
Qed.

Lemma dec_end_panics h : iter_dec end_ h = Panic.
Proof. by rewrite /iter_dec /bind /this /= /bind /bucket_at Z.ltb_irrefl. Qed.

(** ** No two elements of a collection are equal *)

Lemma matches_count x b :
  length (matches x b) = length (filter (fun y => equality_comparator y x = true) (data <$> b)).
Proof.
  elim: b => [|e b IH] //. rewrite fmap_cons /matches !filter_cons. by case: decide => _ //=; rewrite -IH.
Qed.

Lemma rep_unique h m y rest :
  rep h m -> m ≡ₚ y :: rest -> absent y rest.
Proof.
  move=> [[_ Hd] [E _]] Em. have := Hd y. rewrite matches_count E Em filter_cons_True; first exact: cmp_refl.
  rewrite /absent. elim: rest {Em} => [|z rest IH] //= Hl. rewrite filter_cons in Hl.
  case: decide Hl => Hz /=; first lia. move=> Hl. constructor; [by apply not_true_iff_false | exact: IH].
Qed.

End Represent.

(** * Maps *)

Class KeyLaws (K V : Type) `{Key K V} := {
  Eq_refl k : Eq k k = true;
  Eq_sym k k' : Eq k k' = Eq k' k;
  Eq_trans k k' k'' : Eq k k' = true -> Eq k' k'' = Eq k k'';
  Hasher_Eq k k' : Eq k k' = true -> Hasher k = Hasher k';
  Hasher_nonneg k : 0 <= Hasher k
}.

#[export] Instance pair_laws {K V} `{KeyLaws K V} : ElementLaws (Pair K V).
Proof.
  split=> *; [exact: Eq_refl | exact: Eq_sym | exact: Eq_trans | exact: Hasher_Eq | exact: Hasher_nonneg].
Qed.

Section Map.
Context {K V A : Type} `{KL : KeyLaws K V} `{Grants A}.
Implicit Types (h : hashset (Pair K V) A) (f : K -> option V) (m : list (Pair K V)).

Lemma Eq_join (a b c : K) : Eq a c = true -> Eq b c = true -> Eq a b = true.
Proof. move=> Ha Hb. by rewrite (Eq_trans c a b) Eq_sym. Qed.

(** [m] has exactly the entries of [f]. *)
Definition entries f m : Prop :=
  Forall (fun p => exists k v, p = mkPair k v) m /\
  forall k v, f k = Some v <-> exists k', mkPair k' v ∈ m /\ Eq k' k = true.

Definition represents h f : Prop := exists m, rep h m /\ entries f m.

Definition updated f (k : K) (v : option V) : K -> option V := fun k' => if Eq k k' then v else f k'.

#[global] Instance entries_proper f : Proper ((≡ₚ) ==> iff) (entries f).
Proof.
  move=> m m' E. have Hin : forall p, p ∈ m <-> p ∈ m' by move=> p; rewrite E.
  rewrite /entries !Forall_forall. by setoid_rewrite Hin.
Qed.

Lemma entries_absent f m (q : Pair K V) : entries f m -> absent q m <-> f (pair_key q) = None.
Proof.
  move=> [Hp Hf]. rewrite /absent. split.
  - move=> Ha. destruct (f (pair_key q)) as [v|] eqn:E; last done.
    apply Hf in E as (k' & Hin & He). have := proj1 (Forall_forall _ _) Ha _ Hin. by rewrite /= He.
  - move=> E. apply Forall_forall => p Hin. have [k' [v Hkv]] := proj1 (Forall_forall _ _) Hp _ Hin. subst p.
    apply not_true_iff_false => He. have : f (pair_key q) = Some v by apply Hf; exists k'. by rewrite E.
Qed.

(** Adding an entry for a key that has none, taking one out *)
Lemma entries_add f m k v : entries f m -> f k = None -> entries (updated f k (Some v)) (mkPair k v :: m).
Proof.
  move=> [Hp Hf] Hk. split; first by constructor; [by exists k, v|].
  move=> k0 v0. rewrite /updated. split.
  - case E: (Eq k k0).
    + move=> [<-]. exists k. split; [by left | done].
    + move=> /Hf [k' [Hin He]]. exists k'. split; [by right | done].
  - move=> [k' [/elem_of_cons [[-> ->]|Hin] He]]; first by rewrite He.
    case E: (Eq k k0); last by apply Hf; exists k'.
    have : f k = Some v0; last by rewrite Hk.
    apply Hf. exists k'. split; [done | exact: Eq_join He E].
Qed.

Lemma entries_take f m k p :
  entries f (p :: m) -> Eq (pair_key p) k = true -> absent p m -> entries (updated f k None) m.
Proof.
  move=> [/Forall_cons [[k1 [v1 ->]] Hp] Hf] /= Hk Ha. split; first done.
  move=> k0 v0. rewrite /updated. case E: (Eq k k0).
  - split; first done. move=> [k' [Hin He]].
    have := proj1 (Forall_forall _ _) Ha _ Hin. rewrite /= (Eq_join k' k1 k0) //.
    by rewrite -(Eq_trans k1 k).
  - rewrite Hf. split; move=> [k' [Hin He]]; exists k'; (split; [|done]); last by right.
    apply elem_of_cons in Hin as [[= E1 E2]|Hin]; last done. subst.
    by rewrite (Eq_trans k1 k) ?He // in E.
Qed.

(** The operations of a map, and what they do to it *)
Inductive map_op : Type := MapInsert (k : K) (v : V) | MapRemove (k : K) | MapContains (k : K) | MapAt (k : K).

Inductive map_answer : Type := MapNothing | MapFlag (b : bool) | MapValue (v : V).

Definition map_run (o : map_op) : M (hashset (Pair K V) A) map_answer :=
  match o with
  | MapInsert k v => b <- map_insert k v; ret (MapFlag b)
  | MapRemove k => map_remove k;; ret MapNothing
  | MapContains k => b <- map_contains k; ret (MapFlag b)
  | MapAt k => v <- map_at k; ret (MapValue v)
  end.

(** The answer and the new map; [None] when the access panics *)
Definition map_step (o : map_op) f (r : map_answer) f' : Prop :=
  match o with
  | MapInsert k v => r = MapFlag true /\ f' = updated f k (Some v) \/ r = MapFlag false /\ f' = f
  | MapRemove k => r = MapNothing /\ f' = updated f k None
  | MapContains k => r = MapFlag (bool_decide (is_Some (f k))) /\ f' = f
  | MapAt k => f k <> None /\ option_map MapValue (f k) = Some r /\ f' = f
  end.

Definition map_enabled (o : map_op) h f : Prop :=
  match o with
  | MapInsert k _ => few (_buckets h) /\ f k = None
  | MapAt k => f k <> None
  | _ => True
  end.

Lemma removed_absent f m k : entries f m -> f k = None -> entries (updated f k None) m.
Proof.
  move=> [Hp Hf] Hk. split; first done. move=> k0 v0. rewrite /updated. case E: (Eq k k0); last exact: Hf.
  split; first done. move=> [k' [Hin He]]. have : f k = Some v0; last by rewrite Hk.
  apply Hf. exists k'. split; [done | exact: Eq_join He E].
Qed.

Lemma map_run_refines o h f :
  represents h f -> map_enabled o h f ->
  runs (map_run o) h (fun r h' => exists f', map_step o f r f' /\ represents h' f').
Proof.
  intros (m & Hr & Hm) He. destruct o as [k v|k|k|k].
  - destruct He as [Hf Hk]. have Ha : absent (mkPair k v) m by apply (entries_absent f).
    apply: runs_bind (hash_insert_ok true (mkPair k v) h m Hr Hf (or_introl Ha)) _ => ok h' Hs.
    apply: runs_ret. destruct Hs as (m0 & d & m1 & Em & Hstep & Hr' & _). rewrite Em in Hm.
    have {}Ha : absent (mkPair k v) m0 by apply (entries_absent f).
    inversion Hstep; subst.
    + eexists. split; [by left|]. exists (mkPair k v :: m0). split; [done|]. exact: entries_add.
    + eexists. split; [by right|]. by exists m1.
    + apply Forall_cons in Ha as [Ha _]. congruence.
    + apply Forall_cons in Ha as [Ha _]. congruence.
  - apply: runs_bind (hash_remove_ok h m (QueryPair k) Hr) _ => _ h' Hs.
    apply: runs_ret. destruct Hs as (m0 & d & m1 & Em & Hstep & Hr' & _).
    eexists. split; first done. exists m1. split; [done|]. have Hm0 := Hm. rewrite Em in Hm0.
    inversion Hstep; subst.
    + apply: (entries_take f m1 k y Hm0) => //. exact: rep_unique Hr Em.
    + apply: removed_absent => //. exact: (proj1 (entries_absent _ _ (QueryPair k) Hm0)).
  - rewrite /map_run /runs (bind_ok _ _ _ _ _ (contains_ok h m (QueryPair k) Hr)).
    eexists _, _. split; first done. exists f. split; [|by exists m]. split; [|done]. f_equal.
    have Hiff := entries_absent f m (QueryPair k) Hm. rewrite absent_exists /= in Hiff.
    destruct (f k) as [w|]; [rewrite bool_decide_true; [by eauto|] | rewrite bool_decide_false; [by case|]].
    + by apply not_false_iff_true => /Hiff.
    + by apply Hiff.
  - have Hna : ~ absent (QueryPair k) m by move=> /(entries_absent f _ _ Hm).
    destruct (at_found h m (QueryPair k) Hr Hna) as (y & rest & E & Em & Hc).
    have Hm0 := Hm. rewrite Em in Hm0. case: (Hm0) => [/Forall_cons [[k1 [v1 E1]] _] Hf]. subst y.
    have Hv : f k = Some v1 by apply Hf; exists k1; split; [by left | done].
    rewrite /map_run /map_at /runs bind_assoc (bind_ok _ _ _ _ _ E). eexists _, _. split; first done.
    exists f. split; [by rewrite /= Hv | by exists m].
Qed.

Lemma map_find_ok h f index k :
  represents h f ->
  exists it, map_find index k h = Ok (it, h) /\ iter_ne it end_ = bool_decide (is_Some (f k)) /\
    (forall v, f k = Some v -> iter_value it h = Ok (v, h)).
Proof.
  intros (m & Hr & Hm). destruct (get_ok h m (QueryPair k) Hr) as ([[i p]|] & E & H1);
    rewrite /map_find /find (bind_ok _ _ _ _ _ E).
  - destruct H1 as (b & e & Hb & He & Hc). destruct (node_in _ _ _ _ _ _ Hr Hb He) as [rest Em].
    have Hm0 := Hm. rewrite Em in Hm0. case: (Hm0) => [/Forall_cons [[k1 [v1 E1]] _] Hf].
    have Hv : f k = Some v1 by apply Hf; exists k1; rewrite E1 /= in Hc |- *; split; [left | done].
    eexists. split; first done. rewrite /iter_ne /iter_eq bool_decide_false // Hv.
    rewrite bool_decide_true; first by eauto. split; [done|]. move=> v [<-].
    by rewrite /iter_value /iter_deref /= /bind /node_data /= Hb /= He E1.
  - exists end_. split; first done. apply (absent_matches _ _ _ Hr) in H1.
    apply (entries_absent f m (QueryPair k) Hm) in H1. simpl in H1. rewrite H1.
    split; [by rewrite bool_decide_false; first by case | done].
Qed.

End Map.

(** * The claims *)

(** C29: with a comparator that is an equivalence and a hasher that respects
    it, the operations of a hash set do what they say to the collection of its
    elements: a new element is added unless memory is refused, an equal one is
    overwritten, a removal takes out exactly the equal element, queries answer
    from the collection, and the buckets keep every element where its hash code
    says through every resizing.  [_size] goes up with every insertion that
    succeeds, also over an equal element. *)
Theorem hashset_refines {T A} `{EL : ElementLaws T} `{Grants A} (o : op) (h : hashset T A) m :
  rep h m -> enabled o h m -> refines o h m.
Proof. move=> Hr He. exact: hash_run_refines. Qed.

(** C30: a hash map whose keys are inserted once behaves as the finite map of
    its entries: insertion of a new key, removal, membership, access, each
    whatever the number of buckets and the resizings in between. *)
Theorem hashmap_refines {K V A} `{KL : KeyLaws K V} `{Grants A} (o : map_op) (h : hashset (Pair K V) A) f :
  represents h f -> map_enabled o h f ->
  runs (map_run o) h (fun r h' => exists f', map_step o f r f' /\ represents h' f').
Proof. move=> Hr He. exact: map_run_refines. Qed.

(** C31: the loop [for (it = begin(); it != end(); ++it)] over a hash set ends:
    it takes one round per element, empty buckets are skipped by loops that end
    themselves, and it yields every element once, bucket by bucket. *)
Theorem hashset_iteration {T A} `{Grants A} (h : hashset T A) :
  few (_buckets h) ->
  (it <- begin; traverse (length (concat (_buckets h))) it) h = Ok (data <$> concat (_buckets h), h).
Proof.
  move=> Hf. destruct (hash_begin_ok h Hf) as (it & E & Hb). rewrite (bind_ok _ _ _ _ _ E). exact: traverse_ok.
Qed.

Section Concrete.

(** Memory that grants as many requests as its state says *)
#[local] Instance some_requests : Grants Z := {
  grant_buckets _ a := (0 <? a, a - 1);
  grant_node a := (0 <? a, a - 1)
}.

(** Integers that hash to their absolute value *)
#[local] Instance integer : Element Z := {
  equality_comparator := Z.eqb;
  hasher := Z.abs;
  is_move_assignable := true;
  self_constructed x := x
}.

#[local] Instance integer_laws : ElementLaws Z.
Proof.
  split.
  - exact: Z.eqb_refl.
  - exact: Z.eqb_sym.
  - by move=> x y z /= /Z.eqb_eq ->.
  - by move=> x y /= /Z.eqb_eq ->.
  - exact: Z.abs_nonneg.
Qed.

(** 1, 3 and 4 in two buckets *)
Definition h3 (grants : Z) : hashset Z Z :=
  mkSet [[mkElement 4 4]; [mkElement 3 3; mkElement 1 1]] 3 grants.

Lemma h3_ok grants : rep (h3 grants) [4; 3; 1].
Proof.
  split; [split|split; [done | by vm_compute]].
  - move=> [|[|i]] b //= [<-]; repeat constructor.
  - move=> x. rewrite /matches. repeat (rewrite filter_cons; case: decide => [/Z.eqb_eq ?|?]); simpl in *; lia.
Qed.

Lemma hashset_refines_witness :
  refines (Insert true 6) (h3 2) [4; 3; 1] /\ refines (Insert true 3) (h3 0) [4; 3; 1] /\
  refines (Remove 3) (h3 0) [4; 3; 1] /\ refines (At 1) (h3 0) [4; 3; 1].
Proof.
  split; [|split; [|split]].
  - apply (hashset_refines (Insert true 6) (h3 2) _ (h3_ok 2)). split; [by vm_compute|].
    left. repeat constructor.
  - apply (hashset_refines (Insert true 3) (h3 0) _ (h3_ok 0)). split; [by vm_compute | by right].
  - exact (hashset_refines (Remove 3) (h3 0) _ (h3_ok 0) I).
  - apply (hashset_refines (At 1) (h3 0) _ (h3_ok 0)). move=> Ha. apply absent_exists in Ha. by vm_compute in Ha.
Defined.

Lemma hashset_iteration_witness :
  (it <- begin; traverse 3 it) (h3 0) = Ok ([4; 3; 1], h3 0).
Proof. exact (hashset_iteration (h3 0) eq_refl). Defined.

(** Overwriting an element counts it again. *)
Example size_drifts :
  match (insert 5;; insert 5;; size) (empty 9) with Ok (n, h) => n = 2 /\ concat (_buckets h) = [mkElement 5 5] | _ => False end.
Proof. by vm_compute. Qed.

(** When the buckets cannot be resized after an element was overwritten, another one is lost. *)
Example overwriting_loses :
  match (insert 1) (mkSet [[mkElement 3 3; mkElement 2 2; mkElement 1 1]] 3 0) with
  | Ok (r, h) => r = false /\ concat (_buckets h) = [mkElement 2 2; mkElement 1 1]
  | _ => False
  end.
Proof. by vm_compute. Qed.

(** Clearing a set leaves its size. *)
Example clear_keeps_size : match (clear;; size) (h3 0) with Ok (n, _) => n = 3 | _ => False end.
Proof. by vm_compute. Qed.

(** Keys that a move leaves empty, as it does string views *)
#[local] Instance view : Key Z Z := { Eq := Z.eqb; Hasher := Z.abs; moved_key _ := 0; moved_value v := v }.

#[local] Instance view_laws : KeyLaws Z Z.
Proof.
  split.
  - exact: Z.eqb_refl.
  - exact: Z.eqb_sym.
  - by move=> x y z /= /Z.eqb_eq ->.
  - by move=> x y /= /Z.eqb_eq ->.
  - exact: Z.abs_nonneg.
Qed.

Definition m1 (grants : Z) : hashset (Pair Z Z) Z := mkSet [[mkElement (mkPair 7 70) 7]] 1 grants.

Lemma m1_ok grants : represents (m1 grants) (updated (fun _ => None) 7 (Some 70)).
Proof.
  exists [mkPair 7 70]. split; [split; [split|split; [done | by vm_compute]]|].
  - move=> [|i] b //= [<-]. repeat constructor.
  - move=> x. rewrite /matches /=. rewrite filter_cons; case: decide => ? /=; lia.
  - apply: entries_add; [|done]. split; [constructor | move=> k v; split; [done | move=> [k' [Hin _]]; by apply elem_of_nil in Hin]].
Qed.

Lemma hashmap_refines_witness :
  exists r h', map_run (MapInsert 8 80) (m1 2) = Ok (r, h') /\
    exists f', map_step (MapInsert 8 80) (updated (fun _ => None) 7 (Some 70)) r f' /\ represents h' f'.
Proof. exact (hashmap_refines (MapInsert 8 80) (m1 2) _ (m1_ok 2) (conj eq_refl eq_refl)). Defined.

(** Inserting a key again constructs the old pair from itself: with keys that
    a move empties, the key is gone and the new value was not stored. *)
Example reinserting_a_key :
  match (map_insert 7 71;; map_contains 7) (m1 2) with
  | Ok (present, h) => present = false /\ concat (_buckets h) = [mkElement (mkPair 0 70) 7]
  | _ => False
  end.
Proof. by vm_compute. Qed.

End Concrete.

End KHashT.
