(* ===== verification/Exec.v ===== *)
(** * Thread stacks and the ELF loader

    hal/x86_64/ps/thread.cc and the loading of executables of
    kernel/ps/loader/x86_64/elf/elf.cc.  Both build the address space of a new
    process page by page with the operations of [Vmr]: the target context is a
    state of that module.  Physical memory is a map from frames to the bytes
    of a page; the loader writes it through a temporary page of the current
    context, whose operations are part of the interface [Env].  A file is a
    function from a size and an offset to a result with the bytes read. *)

From S2P Require Import Prelude OMap MemConf Vmr.
Import MemConf Vmr.

Module Exec.

(** The page allocator and the operations on the current context: a page of
    kernel space, its mapping to a frame, its release; thread control blocks *)
Class Env (H : Type) := {
  mm_pgalloc : M H Z;
  mm_pgfree : Z -> M H unit;
  cur_kvmalloc : Z -> Z -> M H Z;
  cur_mmap : Z -> Z -> Z -> Z -> M H km_result_t;
  cur_vmfree : Z -> Z -> M H unit;
  alloc_tcb : M H bool;
  add_thread : M H unit
}.

(** The registers of [kh_user_context_t] that the code sets *)
Record context_t := mkContext {
  rflags : Z; cs : Z; ds : Z; ss : Z; es : Z; gs : Z; rip : Z; rsp : Z; rbp : Z; rsp0 : Z
}.

(** [ps_tcb_t] *)
Record tcb_t := mkTcb {
  stack : Z; stack_size : Z; kernel_stack : Z; kernel_stack_size : Z; context : context_t
}.

Record exec_st (H : Type) := mkExec {
  vm : vm_st H;
  frames : gmap Z (list Z);
  thread : tcb_t
}.
Arguments mkExec {H}.
Arguments vm {H}.
Arguments frames {H}.
Arguments thread {H}.

Section Ops.
Context {H : Type} `{Backend H} `{Env H}.

Abbreviation XM := (M (exec_st H)).

(** Code on the target context, and on what is below it *)
Definition on_vm {A} (m : M (vm_st H) A) : XM A := fun s =>
  match m (vm s) with
  | Ok (a, v) => Ok (a, mkExec v (frames s) (thread s))
  | Panic => Panic
  | Fault => Fault
  | NoFuel => NoFuel
  end.

Definition below {A} (m : M H A) : XM A := on_vm (lift m).

Definition set_thread (t : tcb_t) : XM unit := fun s => Ok (tt, mkExec (vm s) (frames s) t).
Definition get_thread : XM tcb_t := fun s => Ok (thread s, s).

(** [km_unwrap_result] *)
Definition km_unwrap_result (r : km_result_t) : XM unit := if KM_FAILED r then panic else ret tt.

(** [mm_vmfree] of the target context *)
Definition mm_vmfree (addr size0 : Z) : XM unit := below (kh_unmmap addr size0 0).

(** The target context is not null. *)
Definition target : ptr := Some 1%positive.

(** ** Threads *)

(** The selectors of the user segments *)
Variables SELECTOR_UCODE SELECTOR_UDATA : Z.

Definition set_context (f : context_t -> context_t) : XM unit :=
  t <- get_thread;
  set_thread (mkTcb (stack t) (stack_size t) (kernel_stack t) (kernel_stack_size t) (f (context t))).

Definition ps_user_thread_init : XM unit :=
  set_context (fun c => mkContext (Z.lor (rflags c) (Z.shiftl 1 9)) SELECTOR_UCODE SELECTOR_UDATA
    SELECTOR_UDATA SELECTOR_UDATA SELECTOR_UDATA (rip c) (rsp c) (rbp c) (rsp0 c)).

Definition ps_thread_set_entry (entry : Z) : XM unit :=
  set_context (fun c => mkContext (rflags c) (cs c) (ds c) (ss c) (es c) (gs c) entry (rsp c) (rbp c) (rsp0 c)).

Definition ki_thread_set_stack (p size0 : Z) : XM unit :=
  t <- get_thread;
  let c := context t in
  let sp := w64 (p + size0) in
  set_thread (mkTcb p size0 (kernel_stack t) (kernel_stack_size t)
    (mkContext (rflags c) (cs c) (ds c) (ss c) (es c) (gs c) (rip c) sp sp (rsp0 c))).

Definition ki_thread_set_kernel_stack (p size0 : Z) : XM unit :=
  t <- get_thread;
  let c := context t in
  set_thread (mkTcb (stack t) (stack_size t) p size0
    (mkContext (rflags c) (cs c) (ds c) (ss c) (es c) (gs c) (rip c) (rsp c) (rbp c) (w64 (p + size0)))).

Definition USER_VBASE : Z := 0x1000.
Definition USER_VTOP : Z := 0x0000800000000000 - 1.
Definition MMAP_ATOMIC : Z := 1.
Definition VMALLOC_ATOMIC : Z := 1.

Definition stack_access : Z :=
  Z.lor (Z.lor (Z.lor MM_PAGE_MAPPED MM_PAGE_READ) MM_PAGE_WRITE) MM_PAGE_USER.

(** [release_pages_guard] of the user stack *)
Definition release_stack (p i : Z) : XM unit :=
  when (negb (i =? 0)) (mm_vmfree p (w64 (i - PAGESIZE))).

(** One page of the stack: [inr] leaves the function or the loop. *)
Definition stack_round (p size0 i : Z) : XM (Z + option km_result_t) :=
  if i <? size0 then
    pg <- below mm_pgalloc;
    if pg =? 0 then
      release_stack p (w64 (i - 1));;
      ret (inr (Some KM_RESULT_NO_MEM))
    else
      r <- on_vm (mm_mmap target (w64 (p + i)) pg PAGESIZE stack_access MMAP_ATOMIC);
      if KM_FAILED r then
        below (mm_pgfree pg);;
        release_stack p i;;
        ret (inr (Some r))
      else
        when (negb (i =? 0))
          (r <- on_vm (mm_merge_mapped_area p (w64 (p + i))); km_unwrap_result r);;
        ret (inl (w64 (i + PAGESIZE)))
  else ret (inr None).

(** The rounds a loop over the pages of [n] bytes may take *)
Definition pages_of (n : Z) : nat := S (S (Z.to_nat (n / PAGESIZE))).

Definition ps_thread_alloc_stack (size0 : Z) : XM km_result_t :=
  p <- on_vm (mm_vmalloc USER_VBASE USER_VTOP size0 stack_access VMALLOC_ATOMIC);
  if p =? 0 then ret KM_RESULT_NO_MEM
  else
    early <- loop (pages_of size0) (stack_round p size0) 0;
    match early with
    | Some r => ret r
    | None => ki_thread_set_stack p size0;; ret KM_RESULT_OK
    end.

Definition kernel_stack_access : Z := Z.lor (Z.lor MM_PAGE_MAPPED MM_PAGE_READ) MM_PAGE_WRITE.

(** [release_pages_guard] of the kernel stack *)
Definition free_round (p i j : Z) : XM (Z + unit) :=
  if j <? i then mm_vmfree (w64 (p + j)) PAGESIZE;; ret (inl (w64 (j + PAGESIZE))) else ret (inr tt).

Definition release_kernel_stack (p i : Z) : XM unit := loop (pages_of i) (free_round p i) 0.

Definition kernel_stack_round (p size0 i : Z) : XM (Z + option km_result_t) :=
  if i <? size0 then
    pg <- below mm_pgalloc;
    if pg =? 0 then
      release_kernel_stack p i;;
      ret (inr (Some KM_RESULT_NO_MEM))
    else
      r <- on_vm (mm_mmap target (w64 (p + i)) pg PAGESIZE kernel_stack_access MMAP_ATOMIC);
      if KM_FAILED r then
        release_kernel_stack p i;;
        ret (inr (Some r))
      else ret (inl (w64 (i + PAGESIZE)))
  else ret (inr None).

(** Without the store to the task state segment *)
Definition ps_thread_alloc_kernel_stack (size0 : Z) : XM km_result_t :=
  p <- below (kh_kvmalloc size0 kernel_stack_access VMALLOC_ATOMIC);
  if p =? 0 then ret KM_RESULT_NO_MEM
  else
    early <- loop (pages_of size0) (kernel_stack_round p size0) 0;
    match early with
    | Some r => ret r
    | None => ki_thread_set_kernel_stack p size0;; ret KM_RESULT_OK
    end.

(** ** The ELF-64 format, of which the loader uses these fields and numbers *)

Record Elf64_Ehdr := mkEhdr {
  e_ident : list Z; e_type : Z; e_entry : Z; e_phoff : Z; e_phentsize : Z; e_phnum : Z
}.
Record Elf64_Phdr := mkPhdr {
  p_type : Z; p_flags : Z; p_offset : Z; p_vaddr : Z; p_filesz : Z; p_memsz : Z
}.

Definition EI_CLASS : nat := 4.
Definition EI_DATA : nat := 5.
Definition EI_VERSION : nat := 6.
Definition EI_OSABI : nat := 7.
Definition ELFCLASS64 : Z := 2.
Definition ELFDATA2LSB : Z := 1.
Definition EV_CURRENT : Z := 1.
Definition ELFOSABI_NONE : Z := 0.
Definition ET_EXEC : Z := 2.
Definition PT_LOAD : Z := 1.
Definition PF_X : Z := 1.
Definition PF_W : Z := 2.
Definition PF_R : Z := 4.

Definition KERNEL_VBASE : Z := 0xffffffff80000000.

(** How the bytes of a header are read as a structure (the layout of <elf.h>),
    the sizes of the structures, and the open file *)
Variable Elf64_Ehdr_of : list Z -> Elf64_Ehdr.
Variable Elf64_Phdr_of : list Z -> Elf64_Phdr.
Variable sizeof_Ehdr : Z.
Variable sizeof_Phdr : Z.
Variable fs_read : Z -> Z -> km_result_t * list Z.
(** What uninitialised variables hold *)
Variable garbage : list Z.

(** Bytes written over the start of a buffer *)
Definition overwrite (bytes buffer : list Z) : list Z := bytes ++ drop (length bytes) buffer.

Definition ident (e : Elf64_Ehdr) (i : nat) : Z := default 0 (e_ident e !! i).

(** The checks of the header, in the order of the source *)
Definition ehdr_ok (e : Elf64_Ehdr) : bool :=
  (ident e 0 =? 0x7f) && (ident e 1 =? 0x45) && (ident e 2 =? 0x4c) && (ident e 3 =? 0x46) &&
  (ident e EI_VERSION =? EV_CURRENT) && (ident e EI_DATA =? ELFDATA2LSB) &&
  (ident e EI_OSABI =? ELFOSABI_NONE) && (e_type e =? ET_EXEC) && (ident e EI_CLASS =? ELFCLASS64).

Definition segment_access (ph : Elf64_Phdr) : Z :=
  let a := Z.lor MM_PAGE_MAPPED MM_PAGE_USER in
  let a := if has (p_flags ph) PF_R then Z.lor a MM_PAGE_READ else a in
  let a := if has (p_flags ph) PF_W then Z.lor a MM_PAGE_WRITE else a in
  if has (p_flags ph) PF_X then Z.lor a MM_PAGE_EXEC else a.

(** Writing through the temporary page, which is mapped to the frame *)
Definition write_frame (paddr : Z) (f : list Z -> list Z) : XM unit := fun s =>
  Ok (tt, mkExec (vm s) (<[paddr := f (default [] (frames s !! paddr))]> (frames s)) (thread s)).

Definition zero_page : list Z := replicate (Z.to_nat PAGESIZE) 0.

(** The part of a page that comes from the file: [inl] the new offset, or the
    result to return *)
Definition read_page (ph : Elf64_Phdr) (paddr j off : Z) : XM (Z + km_result_t) :=
  if j <? p_filesz ph then
    let '(r, bytes) := fs_read (Z.min (p_filesz ph - j) PAGESIZE) off in
    if KM_FAILED r then ret (inr r)
    else
      write_frame paddr (overwrite bytes);;
      ret (inl (w64 (off + Z.of_nat (length bytes))))
  else ret (inl off).

(** One page of a segment; the loop carries [j] and [off]. *)
Definition segment_round (ph : Elf64_Phdr) (tmp pgaccess : Z) (st : Z * Z) : XM (Z * Z + km_result_t) :=
  let '(j, off) := st in
  let vaddr := p_vaddr ph in
  if j <? p_memsz ph then
    '(mapped, _) <- below (kh_getmap (w64 (vaddr + j)));
    paddr <- (if mapped =? 0 then below mm_pgalloc else ret mapped);
    if paddr =? 0 then ret (inr KM_RESULT_NO_MEM)
    else
      r <- on_vm (mm_mmap target (w64 (vaddr + j)) paddr PAGESIZE pgaccess 0);
      if KM_FAILED r then ret (inr r)
      else
        r <- below (cur_mmap tmp paddr PAGESIZE (Z.lor MM_PAGE_WRITE MM_PAGE_MAPPED));
        if KM_FAILED r then ret (inr r)
        else
          write_frame paddr (fun _ => zero_page);;
          next <- read_page ph paddr j off;
          match next with
          | inr r => ret (inr r)
          | inl off =>
              when (negb (j =? 0))
                (r <- on_vm (mm_merge_mapped_area vaddr (w64 (vaddr + j))); km_unwrap_result r);;
              ret (inl (w64 (j + PAGESIZE), off))
          end
  else ret (inr KM_RESULT_OK).

(** The body of the loop over the program headers for a [PT_LOAD] segment *)
Definition load_segment (ph : Elf64_Phdr) : XM km_result_t :=
  if KERNEL_VBASE <=? w64 (p_vaddr ph + p_memsz ph) then ret KM_RESULT_INVALID_ADDR
  else if p_memsz ph <? p_filesz ph then ret KM_RESULT_MALFORMED
  else if negb (p_vaddr ph mod PAGESIZE =? 0) then ret KM_RESULT_MALFORMED
  else
    tmp <- below (cur_kvmalloc PAGESIZE (Z.lor MM_PAGE_MAPPED MM_PAGE_WRITE));
    if tmp =? 0 then ret KM_RESULT_NO_MEM
    else
      r <- loop (pages_of (p_memsz ph)) (segment_round ph tmp (segment_access ph)) (0, p_offset ph);
      below (cur_vmfree tmp PAGESIZE);;
      ret r.

Definition phdr_round (e : Elf64_Ehdr) (i : Z) (u : unit) : XM (flow unit km_result_t) :=
  let '(r, bytes) := fs_read sizeof_Phdr (w64 (e_phoff e + s32 (e_phentsize e * i))) in
  if KM_FAILED r then ret (Return r)
  else
    let ph := Elf64_Phdr_of (overwrite bytes garbage) in
    if negb (p_type ph =? PT_LOAD) then ret (Next tt)
    else
      r <- load_segment ph;
      ret (if KM_FAILED r then Return r else Next tt).

Definition ki_elf_load_exec : XM km_result_t :=
  ok <- below alloc_tcb;
  if negb ok then ret KM_RESULT_NO_MEM
  else
    r <- ps_thread_alloc_stack 0x200000;
    if KM_FAILED r then ret r
    else
      r <- ps_thread_alloc_kernel_stack 0x2000;
      if KM_FAILED r then ret r
      else
        let '(r, bytes) := fs_read sizeof_Ehdr 0 in
        if KM_FAILED r then ret r
        else
          let e := Elf64_Ehdr_of (overwrite bytes garbage) in
          if negb (ehdr_ok e) then ret KM_RESULT_MALFORMED
          else
            left <- for_loop (Z.to_nat (e_phnum e)) 0 (phdr_round e) tt;
            match left with
            | inr r => ret r
            | inl _ =>
                ps_user_thread_init;;
                ps_thread_set_entry (e_entry e);;
                below add_thread;;
                ret KM_RESULT_OK
            end.

End Ops.
End Exec.
