(* ===== verification/ExecTheorems.v ===== *)
(** * Thread stacks: mapping page by page

    What the operations of [Vmr] do when the loops of [Exec] call them one page
    at a time, and from it the allocation of the user and the kernel stack. *)

From S2P Require Import Prelude OMap MemConf Vmr VmrTheorems Exec.
Import MemConf Vmr VmrT Exec.

Module ExecT.

(** A counted loop whose body ends *)
Lemma for_loop_ends {S A R} (I : Z -> A -> S -> Prop) (Q : A * Z + R -> S -> Prop)
    (body : Z -> A -> M S (flow A R)) n i a s :
  I i a s ->
  (forall j a s, i <= j < i + Z.of_nat n -> I j a s -> ends (body j a) s (fun r s' =>
     match r with Next a' => I (j + 1) a' s' | Break a' => Q (inl (a', j)) s' | Return b => Q (inr b) s' end)) ->
  (forall a s, I (i + Z.of_nat n) a s -> Q (inl (a, i + Z.of_nat n)) s) ->
  ends (for_loop n i body a) s Q.
Proof.
  elim: n i a s => [|n IH] i a s Hi Hbody Hend /=.
  { right. apply: runs_ret. move: (Hend a s). rewrite Z.add_0_r. exact. }
  apply: ends_bind; first (apply: Hbody Hi; lia). move=> [a'|a'|b] s' HQ; try by right; apply: runs_ret.
  apply: IH => //.
  - move=> j a2 s2 Hj. apply: Hbody. lia.
  - move=> a2 s2. rewrite (_ : i + 1 + Z.of_nat n = i + Z.of_nat (Datatypes.S n)); first lia. exact: Hend.
Qed.

(** The flags with which the code here maps pages *)
Definition plain (flags : Z) : Prop := flags = 0 \/ flags = MMAP_ATOMIC.

Lemma plain_tracked flags : plain flags -> has flags MMAP_IGNORE_VMR = false.
Proof. by move=> [->|->]. Qed.

(** What the parts below promise.  [maps] is the user half of the target's
    address space as the page tables have it: for each page its frame and
    access.  A reservation maps pages to frame 0; it stops the kernel when the
    page tables cannot be extended or the free pages it counted are not in one
    piece. *)
Class EnvLaws (H : Type) `{Backend H} `{Env H} := {
  maps : H -> gmap Z (Z * Z);
  mmap_law v p a f h : plain f -> in64 p -> p mod 4096 = 0 -> exists r h', kh_mmap v p PAGESIZE a f h = Ok (r, h') /\
    maps h' = if KM_FAILED r || (2 ^ 47 <=? v) then maps h else <[v := (p, a)]> (maps h);
  getmap_law v h : exists p, kh_getmap v h = Ok (p, h) /\ in64 (p.1) /\ p.1 mod 4096 = 0 /\
    (v < 2 ^ 47 -> p.1 = match maps h !! PGFLOOR v with Some (q, _) => q | None => 0 end);
  vmalloc_law lo hi n a f h : ends (kh_vmalloc lo hi n a f) h (fun r h' => in64 r /\ r mod 4096 = 0 /\
    forall x p b, p <> 0 -> maps h' !! x = Some (p, b) <-> maps h !! x = Some (p, b));
  kvmalloc_law n a f h : ends (kh_kvmalloc n a f) h (fun r h' => r mod 4096 = 0 /\ maps h' = maps h /\
    (r = 0 \/ 2 ^ 47 <= r /\ r + n < 2 ^ 64));
  alloc_vmr_law h : runs kima_alloc_vmr h (fun _ h' => maps h' = maps h);
  free_vmr_law h : runs kima_free_vmr h (fun _ h' => maps h' = maps h);
  pgalloc_law h : runs mm_pgalloc h (fun p h' => maps h' = maps h /\ in64 p /\ p mod 4096 = 0 /\
    (p <> 0 -> forall v a, maps h !! v <> Some (p, a)));
  pgfree_law p h : runs (mm_pgfree p) h (fun _ h' => maps h' = maps h);
  cur_kvmalloc_law n a h : ends (cur_kvmalloc n a) h (fun _ h' => maps h' = maps h);
  cur_mmap_law v p n a h : runs (cur_mmap v p n a) h (fun _ h' => maps h' = maps h);
  cur_vmfree_law v n h : runs (cur_vmfree v n) h (fun _ h' => maps h' = maps h);
  alloc_tcb_law h : runs alloc_tcb h (fun _ h' => maps h' = maps h);
  add_thread_law h : runs add_thread h (fun _ h' => maps h' = maps h)
}.

Section Proofs.
Context {H : Type} `{B : Backend H} `{BT : !BackendTotal H} `{E : Env H} `{EL : !EnvLaws H}.

Abbreviation XM := (M (exec_st H)).
Implicit Types (s : exec_st H) (v : vm_st H) (t : gmap Z mm_vmr_t).

(** ** Contexts between operations *)

(** Areas are whole pages, in user space, apart from each other; the locks
    are free to take. *)
Definition paged t : Prop := forall k a, t !! k = Some a -> k mod 4096 = 0 /\ size a mod 4096 = 0.

Record good v : Prop := {
  g_mutex : 0 <= vmr_mutex v;
  g_kernel : ki_kernel_mmap_mutex v = false;
  g_inv : vinv (vmr_tree v);
  g_paged : paged (vmr_tree v)
}.

Definition space v : gmap Z (Z * Z) := maps (hw v).

(** Every page of user space that has a frame is in an area. *)
Definition tracked v : Prop := forall x p a, p <> 0 -> space v !! x = Some (p, a) -> covered (vmr_tree v) x.

(** ** Mapping one page of the target context *)

Lemma paged_insert t k a : paged t -> k mod 4096 = 0 -> size a mod 4096 = 0 -> paged (<[k := a]> t).
Proof. move=> Ht Hk Ha k' a'. rewrite lookup_insert_Some. move=> [[<- <-]|[_ Hl]] //. exact: Ht Hl. Qed.

Lemma paged_delete t k : paged t -> paged (delete k t).
Proof. move=> Ht k' a'. rewrite lookup_delete_Some. move=> [_ Hl]. exact: Ht Hl. Qed.

Lemma page_range a : 0 <= a -> a < 2 ^ 47 -> a mod 4096 = 0 -> user_range a PAGESIZE.
Proof.
  move=> H0 H1 Hm. split; rewrite /PAGESIZE; try lia.
  have Hd := Z.div_mod a 4096 ltac:(lia). rewrite Hm in Hd. lia.
Qed.

(** A page is in no area or wholly in one. *)
Lemma page_covered t a x :
  paged t -> a mod 4096 = 0 -> a <= x < a + 4096 -> covered t x ->
  exists k w, t !! k = Some w /\ k <= a /\ a + 4096 <= k + size w.
Proof.
  move=> Ht Ha Hx [k [w [Hk Hkx]]]. exists k, w. destruct (Ht _ _ Hk) as [Hm Hs]. split; [done|].
  have H1 := Z.div_mod a 4096 ltac:(lia). have H2 := Z.div_mod k 4096 ltac:(lia).
  have H3 := Z.div_mod (size w) 4096 ltac:(lia). lia.
Qed.

(** A request for a page of an area is refused; the guard takes the area out
    that starts there. *)
Lemma mmap_covered v a p acc flags k w :
  0 <= vmr_mutex v -> vinv (vmr_tree v) -> user_range a PAGESIZE -> has flags MMAP_IGNORE_VMR = false ->
  vmr_tree v !! k = Some w -> k <= a -> a + 4096 <= k + size w ->
  mm_mmap target a p PAGESIZE acc flags v
  = Ok (KM_RESULT_INVALID_ARGS, mkVm (delete a (vmr_tree v)) (vmr_mutex v) (ki_kernel_mmap_mutex v) (hw v)).
Proof.
  intros Hd Hv Hu Hf Hk Hka Hend. pose proof (user_range_checks _ _ Hu) as (E1 & E2 & E3 & E4 & E5 & E6).
  unfold mm_mmap, target. cbn [negb nonnull]. rewrite E2 E1 E3 E4 E5 E6 Hf. cbn [negb Bool.eqb andb].
  set (s0 := mkVm (vmr_tree v) (vmr_mutex v + 1) (ki_kernel_mmap_mutex v) (hw v)).
  assert (Er : mmap_reserve a a (a + (PAGESIZE - 1)) PAGESIZE acc s0 = Ok (Some KM_RESULT_INVALID_ARGS, s0)).
  { unfold mmap_reserve, get_tree. unfold bind at 1. cbn [vmr_tree s0].
    rewrite bool_decide_false; [intros He; by rewrite He lookup_empty in Hk |]. cbn [negb andb].
    destruct (OMap.max_lteq a (vmr_tree v)) as [[k' w']|] eqn:Hm.
    2:{ pose proof (OMap.max_lteq_none _ _ Hm _ _ Hk). lia. }
    apply OMap.max_lteq_some in Hm as (Hk' & Hle & Hmax). pose proof (Hmax _ _ Hk Hka).
    assert (k' = k) as ->.
    { destruct (Z.lt_trichotomy k k') as [Hlt|[->|]]; [| done | lia].
      pose proof (vi_apart _ Hv _ _ _ _ Hk Hk' Hlt). destruct (vi_range _ Hv _ _ Hk'). lia. }
    simplify_eq. rewrite (area_last _ _ _ Hv Hk). by destruct (Z.leb_spec a (k + size w - 1)); [| lia]. }
  rewrite (bind_ok _ _ _ _ _ (with_lock_ok _ _ _ _ Hd Er eq_refl)).
  unfold remove_vmr_guard, get_tree, set_tree, bind, ret. simpl.
  destruct (vmr_tree v !! a) eqn:Ha; [done|]. by rewrite delete_id.
Qed.

Lemma mmap_kernel_user v a p acc flags :
  2 ^ 47 <= a < 2 ^ 64 -> a mod 4096 = 0 -> has acc MM_PAGE_USER = true ->
  mm_mmap target a p PAGESIZE acc flags v = Ok (KM_RESULT_INVALID_ARGS, v).
Proof.
  move=> Ha Hm Hacc. have Hlast : a + 4096 <= 2 ^ 64.
  { have Hd := Z.div_mod a 4096 ltac:(lia). lia. }
  rewrite /mm_mmap /target /= PGFLOOR_aligned //; first (unfold in64; lia).
  case: Z.ltb_spec => _ //. rewrite w64_small; first (unfold in64, PAGESIZE; lia).
  rewrite /mm_is_user_space !(proj2 (Z.ltb_ge _ _)); [unfold PAGESIZE; lia | unfold PAGESIZE; lia |]. by rewrite Hacc.
Qed.

(** What an attempt to map the page [a] with user access does *)
Lemma mmap_page v a p acc flags :
  good v -> in64 a -> a mod 4096 = 0 -> in64 p -> p mod 4096 = 0 -> has acc MM_PAGE_USER = true ->
  plain flags ->
  runs (mm_mmap target a p PAGESIZE acc flags) v (fun r v' => good v' /\ same_locks v v' /\
    if KM_FAILED r then space v' = space v /\ (vmr_tree v' = vmr_tree v \/ vmr_tree v' = delete a (vmr_tree v))
    else a + 4096 <= 2 ^ 47 /\ (forall x, a <= x < a + 4096 -> ~ covered (vmr_tree v) x) /\
      vmr_tree v' = <[a := mkVmr PAGESIZE acc false]> (vmr_tree v) /\ space v' = <[a := (p, acc)]> (space v)).
Proof.
  move=> [Hd Hkm Hv Hp] Ha Hm Hpa Hpm Hacc Hpl. have Hf := plain_tracked _ Hpl. case: (Z.lt_ge_cases a (2 ^ 47)) => Hu; last first.
  { eexists _, _. split; first by apply: mmap_kernel_user => //; unfold in64 in Ha; lia.
    split; [by split | split; [done|]]. split; [done | by left]. }
  have Hr : user_range a PAGESIZE by apply: page_range => //; unfold in64 in Ha; lia.
  destruct (bool_decide (map_Exists (fun k w => k <= a /\ a + 4096 <= k + size w) (vmr_tree v))) eqn:Hcov.
  - apply bool_decide_eq_true in Hcov as (k & w & Hk & Hka & Hend).
    eexists _, _. split; first exact: mmap_covered Hk Hka Hend.
    split; [split; [done | done | exact: vinv_delete | exact: paged_delete] | split; [done|]].
    split; [done | by right].
  - have Hfree : forall x, a <= x < a + PAGESIZE -> ~ covered (vmr_tree v) x.
    { move=> x Hx Hc. apply bool_decide_eq_false in Hcov. apply: Hcov.
      destruct (page_covered _ a x Hp Hm Hx Hc) as (k & w & ? & ? & ?). by exists k, w. }
    destruct (mmap_user v a p PAGESIZE acc flags Hd Hv Hr Hf Hfree) as (r & v' & Er & Hl & Hhw & Ht).
    eexists r, v'. split; [exact Er|].
    have Hspace : space v' = if KM_FAILED r then space v else <[a := (p, acc)]> (space v).
    { rewrite /space. destruct Hhw as [[-> Hal]|(h0 & Hal & Hmm)].
      - destruct (alloc_vmr_law (hw v)) as (b & h' & Eb & Em). rewrite Eb in Hal. by case: Hal => _ <-.
      - destruct (alloc_vmr_law (hw v)) as (b & h' & Eb & Em). rewrite Eb in Hal. case: Hal => _ Hh. subst h0.
        rewrite (PGFLOOR_aligned p) // in Hmm. change (PGCEIL PAGESIZE) with PAGESIZE in Hmm.
        destruct (mmap_law a p acc flags h' Hpl Hpa Hpm) as (r' & h2 & E2 & M2). rewrite E2 in Hmm. case: Hmm => Hr' Hh2.
        subst r' h2. rewrite M2 Em (proj2 (Z.leb_gt _ _) Hu) orb_false_r. done. }
    case: Hl => Hl1 Hl2. destruct Ht as [[-> Ht]|[Hne Ht]].
    + split; [split; rewrite ?Ht ?Hl1 ?Hl2 //|split; [by split|]].
      * destruct Hr as [? ? ? ?]. apply: vinv_insert => //.
      * exact: paged_insert.
      * destruct Hr as [? ? ? ?]. rewrite Hspace. by repeat split.
    + have Hfail : KM_FAILED r = true by destruct r.
      split; [by split; rewrite ?Ht ?Hl1 ?Hl2 //|split; [by split|]]. rewrite Hfail in Hspace |- *. rewrite Ht. by split; [|left].
Qed.

(** ** Growing an area by a page *)

Lemma merge_page v t p i acc :
  good v -> vmr_tree v = <[p + i := mkVmr PAGESIZE acc false]> t -> t !! p = Some (mkVmr i acc false) ->
  0 < i -> t !! (p + i) = None ->
  runs (mm_merge_mapped_area p (p + i)) v (fun r v' => r = KM_RESULT_OK /\ good v' /\ same_locks v v' /\
    vmr_tree v' = <[p := mkVmr (i + PAGESIZE) acc false]> t /\ space v' = space v /\ (tracked v -> tracked v')).
Proof.
  move=> [Hd Hkm Hv Hp] Ht Hk Hi Hn.
  have Ha : vmr_tree v !! p = Some (mkVmr i acc false) by rewrite Ht lookup_insert_ne //; lia.
  have Hb : vmr_tree v !! (p + i) = Some (mkVmr PAGESIZE acc false) by rewrite Ht lookup_insert_eq.
  destruct (merge_holds v p (p + i) Hd Hv) as (r & v' & Er & Hl & [Hok|Hbad]).
  - destruct Hok as (-> & va & vb & Hva & Hvb & Hadj & Ht' & Hf). rewrite Ha in Hva. rewrite Hb in Hvb. simplify_eq.
    destruct (merged_inv _ _ _ _ _ Hv Ha Hb eq_refl) as [Hv' Hcov].
    have Hm : vmr_tree v' = <[p := mkVmr (i + PAGESIZE) acc false]> t.
    { rewrite Ht' /merged /= Ht insert_insert_ne; first lia. rewrite delete_insert_id //.
      rewrite lookup_insert_ne //. lia. }
    eexists _, v'. split; [exact Er|]. split; [done|]. case: (Hl) => Hl1 Hl2.
    split; [|split; [done | split; [done|]]].
    + split; rewrite ?Hl1 ?Hl2 //; first by rewrite Ht'. destruct (Hp _ _ Ha) as [Hm1 Hm2]. simpl in Hm2.
      rewrite Ht' /merged. apply: paged_delete. apply: paged_insert => //=.
      rewrite /PAGESIZE -Zplus_mod_idemp_l Hm2. done.
    + have Es : space v' = space v.
      { rewrite /space. destruct (free_vmr_law (hw v)) as ([] & h' & Eh & Em). rewrite Eh in Hf. by case: Hf => <-. }
      split; [done|]. move=> Htr x q b Hq. rewrite Es => Hx. rewrite Ht'. apply/Hcov. exact: Htr Hq Hx.
  - destruct Hbad as (_ & _ & Hna). case: Hna. by eexists _, _.
Qed.

(** The area that the loops over pages build: nothing yet, or [i] bytes at
    [p]. *)
Definition grown t (p i acc : Z) : gmap Z mm_vmr_t := if i =? 0 then t else <[p := mkVmr i acc false]> t.

Lemma grown_insert t p i acc :
  0 <= i -> <[p := mkVmr (i + PAGESIZE) acc false]> (grown t p i acc) = grown t p (i + PAGESIZE) acc.
Proof.
  move=> Hi. rewrite /grown (proj2 (Z.eqb_neq (i + PAGESIZE) 0)); first (unfold PAGESIZE; lia).
  case: Z.eqb_spec => _ //. by rewrite insert_insert_eq.
Qed.

(** A page that is in no area has none that starts there. *)
Lemma uncovered_none v a :
  good v -> (forall x, a <= x < a + 4096 -> ~ covered (vmr_tree v) x) -> vmr_tree v !! a = None.
Proof.
  move=> Hg Hfree. destruct (vmr_tree v !! a) as [w|] eqn:Ew; last done. exfalso. apply: (Hfree a); first lia.
  exists a, w. destruct (vi_range _ (g_inv _ Hg) _ _ Ew) as (? & ? & ?). split; [done | lia].
Qed.

Lemma tracked_insert v v' a p acc :
  tracked v -> vmr_tree v !! a = None -> vmr_tree v' = <[a := mkVmr PAGESIZE acc false]> (vmr_tree v) ->
  space v' = <[a := (p, acc)]> (space v) -> tracked v'.
Proof.
  move=> Htr Hn Ht Hs x q b Hq. rewrite Hs Ht lookup_insert_Some => - [[<- _]|[Hne Hx]].
  - exists a, (mkVmr PAGESIZE acc false). rewrite lookup_insert_eq /PAGESIZE /=. split; [done | lia].
  - destruct (Htr _ _ _ Hq Hx) as (k & w & Hk & Hkx). exists k, w. rewrite lookup_insert_ne //. congruence.
Qed.

(** Mapping the next page and merging it into the area *)
Lemma extend_ok v t p i pg acc flags :
  good v -> vmr_tree v = grown t p i acc -> in64 p -> p mod 4096 = 0 -> 0 <= i -> i mod 4096 = 0 ->
  in64 pg -> pg mod 4096 = 0 -> has acc MM_PAGE_USER = true -> plain flags ->
  in64 (p + i) ->
  runs (mm_mmap target (p + i) pg PAGESIZE acc flags) v (fun r v1 => good v1 /\ same_locks v v1 /\
    if KM_FAILED r then space v1 = space v
    else p + i + 4096 <= 2 ^ 47 /\ (forall x, p + i <= x < p + i + 4096 -> ~ covered (vmr_tree v) x) /\
      space v1 = <[p + i := (pg, acc)]> (space v) /\ (tracked v -> tracked v1) /\
      (i = 0 -> vmr_tree v1 = grown t p PAGESIZE acc) /\
      (i <> 0 -> forall w, good w -> vmr_tree w = vmr_tree v1 ->
         runs (mm_merge_mapped_area p (p + i)) w (fun r v2 => r = KM_RESULT_OK /\ good v2 /\ same_locks w v2 /\
           vmr_tree v2 = grown t p (i + PAGESIZE) acc /\ space v2 = space w /\ (tracked w -> tracked v2)))).
Proof.
  move=> Hg Ht Hp Hpm Hi Him Hpg Hpgm Hacc Hf Hpi.
  have Hm : (p + i) mod 4096 = 0 by rewrite Z.add_mod // Hpm Him.
  apply: runs_mono (mmap_page v (p + i) pg acc flags Hg Hpi Hm Hpg Hpgm Hacc Hf) _ => r v1 [Hg1 [Hl1 Hr]].
  split; [done | split; [done|]]. destruct (KM_FAILED r); first by case: Hr.
  destruct Hr as (Hend & Hfree & Ht1 & Hs1). have Hnone := uncovered_none _ _ Hg Hfree.
  split; [done | split; [done | split; [done | split; [|split]]]].
  - move=> Htr. exact: tracked_insert Htr Hnone Ht1 Hs1.
  - move=> E0. rewrite Ht1 Ht /grown E0 Z.add_0_r /=. done.
  - move=> Hne w Hgw Hw. have Hgt : grown t p i acc !! p = Some (mkVmr i acc false).
    { rewrite /grown (proj2 (Z.eqb_neq _ _) Hne) lookup_insert_eq. done. }
    rewrite Ht in Hnone. rewrite Ht1 Ht in Hw.
    apply: runs_mono (merge_page w (grown t p i acc) p i acc Hgw Hw Hgt _ Hnone) _; first lia.
    move=> r2 v2 [-> [Hg2 [Hl2 [Ht2 Hs2]]]]. by rewrite grown_insert in Ht2.
Qed.

(** ** Code on the target context inside the loader *)

Lemma runs_on_vm {X} (m : M (vm_st H) X) s (Q : X -> vm_st H -> Prop) :
  runs m (vm s) Q ->
  runs (on_vm m) s (fun a s' => Q a (vm s') /\ frames s' = frames s /\ thread s' = thread s).
Proof. move=> [a [v' [Em HQ]]]. rewrite /runs /on_vm Em. by eexists _, _. Qed.

(** The same loader state but for what is below *)
Definition only_hw s s' : Prop :=
  vmr_tree (vm s') = vmr_tree (vm s) /\ same_locks (vm s) (vm s') /\ frames s' = frames s /\ thread s' = thread s.

Lemma runs_below {X} (m : M H X) s (Q : X -> H -> Prop) :
  (exists a h', m (hw (vm s)) = Ok (a, h') /\ Q a h') ->
  runs (below m) s (fun a s' => Q a (hw (vm s')) /\ only_hw s s').
Proof. move=> [a [h' [Em HQ]]]. rewrite /runs /below /on_vm /lift Em. by eexists _, _. Qed.

Lemma only_hw_good s s' : only_hw s s' -> good (vm s) -> good (vm s').
Proof. move=> [Et [[E1 E2] _]] [Hd Hk Hv Hp]. by split; rewrite ?Et ?E1 ?E2. Qed.

(** ** Stacks *)

(** Rounds left of a loop over the pages of [n] bytes at offset [i] *)
Definition rounds (n i : Z) : nat := Z.to_nat ((n - i + 4095) / 4096).

Lemma rounds_start n : 0 <= n -> (rounds n 0 < pages_of n)%nat.
Proof.
  move=> Hn. rewrite /rounds /pages_of /PAGESIZE. have H1 := Z.div_mod n 4096 ltac:(lia).
  have H2 := Z.mod_pos_bound n 4096 ltac:(lia).
  have : (n - 0 + 4095) / 4096 < n / 4096 + 2 by apply Z.div_lt_upper_bound; lia. lia.
Qed.

Lemma rounds_smaller n i : i < n -> (rounds n (i + PAGESIZE) < rounds n i)%nat.
Proof.
  move=> Hi. rewrite /rounds /PAGESIZE.
  rewrite (_ : n - i + 4095 = (n - (i + 4096) + 4095) + 1 * 4096); first lia.
  rewrite Z.div_add //. have : 0 <= (n - (i + 4096) + 4095) / 4096 by apply Z.div_pos; lia. lia.
Qed.

(** An area of [i] bytes at [p] under construction *)
Definition building t (p acc i : Z) v : Prop :=
  good v /\ vmr_tree v = grown t p i acc /\ 0 <= i /\ i mod 4096 = 0 /\ (i = 0 \/ p + i <= 2 ^ 47).

Lemma building_in64 t p acc i v : in64 p -> building t p acc i v -> in64 (p + i).
Proof. move=> Hp [_ [_ [Hi [_ Hb]]]]. unfold in64 in *. lia. Qed.

Lemma building_next t p acc i v :
  building t p acc i v -> p + i + 4096 <= 2 ^ 47 -> in64 p ->
  w64 (i + PAGESIZE) = i + PAGESIZE /\ 0 <= i + PAGESIZE /\ (i + PAGESIZE) mod 4096 = 0 /\
  (i + PAGESIZE = 0 \/ p + (i + PAGESIZE) <= 2 ^ 47).
Proof.
  move=> [_ [_ [Hi [Hm _]]]] He Hp. unfold in64, PAGESIZE in *. rewrite w64_small; first (unfold in64; lia).
  split; [done | split; [lia | split; [|lia]]]. by rewrite Z.add_mod // Hm.
Qed.

Lemma release_stack_ok p i s :
  good (vm s) -> runs (release_stack p i) s (fun _ s' => good (vm s') /\ thread s' = thread s).
Proof.
  move=> Hg. rewrite /release_stack /when. case: (negb _); last exact: runs_ret.
  apply: runs_mono; first apply: (runs_below _ s (fun _ _ => True)).
  - destruct (unmmap_total p (w64 (i - PAGESIZE)) 0 (hw (vm s))) as [h' Eh]. by exists tt, h'.
  - move=> _ s' [_ Ho]. split; [exact: only_hw_good Ho Hg | by case: Ho => [_ [_ []]]].
Qed.

Lemma pgalloc_ok s :
  runs (below mm_pgalloc) s (fun p s' => (space (vm s') = space (vm s) /\ in64 p /\ p mod 4096 = 0 /\
    (p <> 0 -> forall x a, space (vm s) !! x <> Some (p, a))) /\ only_hw s s').
Proof. exact (runs_below _ s (fun p h => maps h = space (vm s) /\ _) (pgalloc_law (hw (vm s)))). Qed.

Lemma only_hw_building t p acc i s s' : only_hw s s' -> building t p acc i (vm s) -> building t p acc i (vm s').
Proof. move=> Ho [Hg [Ht Hr]]. split; [exact: only_hw_good Ho Hg|]. case: Ho => [Et _]. by rewrite Et. Qed.

(** The page at [i] and the merge, as both loops do them *)
Lemma map_page_ok t p acc i pg flags s :
  building t p acc i (vm s) -> in64 p -> p mod 4096 = 0 -> in64 pg -> pg mod 4096 = 0 ->
  has acc MM_PAGE_USER = true -> plain flags ->
  runs (on_vm (mm_mmap target (w64 (p + i)) pg PAGESIZE acc flags)) s (fun r s1 =>
    good (vm s1) /\ frames s1 = frames s /\ thread s1 = thread s /\
    if KM_FAILED r then space (vm s1) = space (vm s)
    else p + i + 4096 <= 2 ^ 47 /\ (forall x, p + i <= x < p + i + 4096 -> ~ covered (vmr_tree (vm s)) x) /\
      space (vm s1) = <[p + i := (pg, acc)]> (space (vm s)) /\ (tracked (vm s) -> tracked (vm s1)) /\
      forall s2, good (vm s2) -> vmr_tree (vm s2) = vmr_tree (vm s1) ->
        runs (when (negb (i =? 0)) (r <- on_vm (mm_merge_mapped_area p (w64 (p + i))); km_unwrap_result r)) s2
          (fun _ s3 => building t p acc (i + PAGESIZE) (vm s3) /\ space (vm s3) = space (vm s2) /\
             (tracked (vm s2) -> tracked (vm s3)) /\ frames s3 = frames s2 /\ thread s3 = thread s2)).
Proof.
  move=> Hb Hp Hpm Hpg Hpgm Hacc Hf. have Hpi := building_in64 _ _ _ _ _ Hp Hb. case: (Hb) => [Hg [Ht [Hi [Him _]]]].
  rewrite (w64_small (p + i)) //.
  apply: runs_mono (runs_on_vm _ s _ (extend_ok _ _ _ _ pg acc flags Hg Ht Hp Hpm Hi Him Hpg Hpgm Hacc Hf Hpi)) _.
  move=> r s1 [[Hg1 [_ Hr]] [Hfr Hth]]. split; [done | split; [done | split; [done|]]].
  destruct (KM_FAILED r); first done. destruct Hr as (Hend & Hfree & Hsp & Htr & H0 & Hmerge).
  split; [done | split; [done | split; [done | split; [done|]]]]. move=> s2 Hg2 Et2.
  have [_ [Hn1 [Hn2 Hn3]]] := building_next _ _ _ _ _ Hb Hend Hp.
  rewrite /when. case: Z.eqb_spec => Hi0 /=.
  - apply: runs_ret. split; [|done]. split; [done | split; [|done]]. by rewrite Et2 (H0 Hi0) Hi0.
  - apply: runs_bind (runs_on_vm _ s2 _ (Hmerge Hi0 _ Hg2 Et2)) _ => r2 s3 [[-> [Hg3 [_ [Ht3 [Hs3 Htr3]]]]] [Hfr3 Hth3]].
    rewrite /km_unwrap_result /=. apply: runs_ret. by split.
Qed.

Lemma only_hw_tracked s s' :
  only_hw s s' -> space (vm s') = space (vm s) -> tracked (vm s) -> tracked (vm s').
Proof. move=> [Et _] Es Htr x p a Hp. rewrite Es Et. exact: Htr. Qed.

(** The pages up to [i] have frames. *)
Definition backed (p acc i : Z) v : Prop := forall k, 0 <= k < i -> k mod 4096 = 0 ->
  exists pg, pg <> 0 /\ space v !! (p + k) = Some (pg, acc).

Lemma backed_next p acc i pg v v' :
  backed p acc i v -> space v' = <[p + i := (pg, acc)]> (space v) -> pg <> 0 -> i mod 4096 = 0 ->
  backed p acc (i + PAGESIZE) v'.
Proof.
  move=> Hb Es Hpg Hi k Hk Hm. rewrite Es. case: (decide (k = i)) => [->|Hne].
  - exists pg. by rewrite lookup_insert_eq.
  - rewrite lookup_insert_ne; first lia. apply: Hb => //. unfold PAGESIZE in Hk.
    have H1 := Z.div_mod k 4096 ltac:(lia). have H2 := Z.div_mod i 4096 ltac:(lia). lia.
Qed.

Lemma stack_access_user : has stack_access MM_PAGE_USER = true.
Proof. done. Qed.

Lemma stack_round_ok t p n i s th :
  0 <= n < 2 ^ 64 -> in64 p -> p mod 4096 = 0 ->
  building t p stack_access i (vm s) -> tracked (vm s) -> backed p stack_access i (vm s) -> i < n + 4096 ->
  thread s = th ->
  runs (stack_round p n i) s (fun r s' => thread s' = th /\
    match r with
    | inl i' => (building t p stack_access i' (vm s') /\ tracked (vm s') /\ backed p stack_access i' (vm s') /\
        i' < n + 4096) /\ (rounds n i' < rounds n i)%nat
    | inr None => building t p stack_access i (vm s') /\ tracked (vm s') /\ backed p stack_access i (vm s') /\ n <= i
    | inr (Some r) => good (vm s') /\ KM_FAILED r = true
    end).
Proof.
  move=> Hn Hp Hpm Hb Htr Hbk Hlt Hth. rewrite /stack_round. case: Z.ltb_spec => Hin; last by apply: runs_ret.
  apply: runs_bind (pgalloc_ok s) _ => pg s1 [[Hs1 [Hpg [Hpgm _]]] Ho]. have Hb1 := only_hw_building _ _ _ _ _ _ Ho Hb.
  have Htr1 := only_hw_tracked _ _ Ho Hs1 Htr.
  have Hth1 : thread s1 = th by case: Ho => [_ [_ [_ ->]]].
  case: Z.eqb_spec => Hz.
  { apply: runs_bind (release_stack_ok p _ s1 (proj1 Hb1)) _ => _ s2 [Hg2 Hth2]. apply: runs_ret.
    by rewrite Hth2 Hth1. }
  apply: runs_bind (map_page_ok _ _ _ _ pg MMAP_ATOMIC s1 Hb1 Hp Hpm Hpg Hpgm stack_access_user (or_intror eq_refl)) _.
  move=> r s2 [Hg2 [_ [Hth2 Hr]]]. destruct (KM_FAILED r) eqn:Hfail.
  - apply: runs_bind; first exact: (runs_below _ s2 _ (pgfree_law pg _)).
    move=> _ s3 [_ Ho3]. apply: runs_bind (release_stack_ok p i s3 (only_hw_good _ _ Ho3 Hg2)) _ => _ s4 [Hg4 Hth4].
    apply: runs_ret. rewrite Hth4. case: Ho3 => [_ [_ [_ ->]]]. by rewrite Hth2 Hth1.
  - destruct Hr as (Hend & _ & Es2 & Htr2 & Hmerge). apply: runs_bind (Hmerge s2 Hg2 eq_refl) _.
    move=> _ s3 [Hb3 [Es3 [Htr3 [_ Hth3]]]]. apply: runs_ret. rewrite Hth3 Hth2 Hth1.
    destruct (building_next _ _ _ _ _ Hb1 Hend Hp) as [-> _].
    split; [done|]. split; last exact: rounds_smaller.
    split; [done | split; [auto | split; [|unfold PAGESIZE; lia]]].
    apply: (backed_next _ _ _ pg (vm s)); [done | by rewrite Es3 Es2 Hs1 | done | by case: Hb => [_ [_ [_ []]]]].
Qed.

Lemma ends_on_vm {X} (m : M (vm_st H) X) s (Q : X -> vm_st H -> Prop) :
  ends m (vm s) Q ->
  ends (on_vm m) s (fun a s' => Q a (vm s') /\ frames s' = frames s /\ thread s' = thread s).
Proof. move=> [Em|Hr]; [left; by rewrite /on_vm Em | right; exact: runs_on_vm]. Qed.

Lemma ends_below {X} (m : M H X) s (Q : X -> H -> Prop) :
  ends m (hw (vm s)) Q -> ends (below m) s (fun a s' => Q a (hw (vm s')) /\ only_hw s s').
Proof. move=> [Em|Hr]; [left; by rewrite /below /on_vm /lift Em | right; exact: runs_below]. Qed.

Lemma vmalloc_ok v n acc f :
  good v -> ends (mm_vmalloc USER_VBASE USER_VTOP n acc f) v (fun p v' =>
    good v' /\ vmr_tree v' = vmr_tree v /\ (tracked v -> tracked v') /\ in64 p /\ p mod 4096 = 0).
Proof.
  move=> [Hd Hk Hv Hp]. rewrite /mm_vmalloc.
  have -> : mm_is_user_space (PGFLOOR USER_VBASE) = true by [].
  have -> : mm_is_user_space (PGFLOOR USER_VTOP) = true by [].
  destruct (vmalloc_law USER_VBASE USER_VTOP n acc f (hw v)) as [Er|(r & h' & Er & Hr & Hm & Hmaps)].
  { left. by rewrite /= /bind /ki_mm_lock_vmr /lift /= Er. }
  right. rewrite /runs /= /bind /ki_mm_lock_vmr /lift /= Er /ki_mm_unlock_vmr /=.
  case: Z.eqb_spec => ?; first lia. rewrite Z.add_simpl_r. eexists _, _. split; [done|]. split; [done|].
  split; [done | split; [|done]]. move=> Htr x p a Hp0 /= Hx. exact: (Htr _ _ _ Hp0 (proj1 (Hmaps x p a Hp0) Hx)).
Qed.

(** The new area of a stack, and the registers *)
Definition has_stack t th n s : Prop :=
  exists p, p mod 4096 = 0 /\ 0 < p /\ p + PGCEIL n <= 2 ^ 47 /\
    vmr_tree (vm s) = <[p := mkVmr (PGCEIL n) stack_access false]> t /\
    stack (thread s) = p /\ stack_size (thread s) = n /\
    rsp (context (thread s)) = p + n /\ rbp (context (thread s)) = p + n /\ backed p stack_access n (vm s) /\
    rip (context (thread s)) = rip (context th) /\ rsp0 (context (thread s)) = rsp0 (context th).

Lemma stack_ok s n :
  good (vm s) -> tracked (vm s) -> 0 < n < 2 ^ 63 ->
  ends (ps_thread_alloc_stack n) s (fun r s' => good (vm s') /\
    if KM_FAILED r then True else tracked (vm s') /\ has_stack (vmr_tree (vm s)) (thread s) n s').
Proof.
  move=> Hg Htr Hn. set t := vmr_tree (vm s). set th := thread s. rewrite /ps_thread_alloc_stack.
  apply: ends_bind (ends_on_vm _ s _ (vmalloc_ok (vm s) n _ _ Hg)) _ => p s1 [[Hg1 [Ht1 [Htr1 [Hp Hpm]]]] [_ Hth1]].
  case: Z.eqb_spec => Hz; first by right; apply: runs_ret.
  have Hb1 : building t p stack_access 0 (vm s1) by split; [done | split; [done | split; [lia | split; [done | by left]]]].
  apply: runs_ends. apply: runs_bind.
  - apply: (loop_rule (fun i s => (building t p stack_access i (vm s) /\ tracked (vm s) /\ backed p stack_access i (vm s) /\
        i < n + 4096) /\ thread s = th)
      (rounds n)
      (fun r s' => thread s' = th /\ match r with
        | None => tracked (vm s') /\ exists i, building t p stack_access i (vm s') /\ backed p stack_access i (vm s') /\
            n <= i < n + 4096
        | Some r => good (vm s') /\ KM_FAILED r = true end)).
    + split; [split; [done | split; [auto | split; [move=> k Hk; lia | lia]]] | done].
    + apply: rounds_start. lia.
    + move=> i s2 [[Hb2 [Htr2 [Hbk2 Hi2]]] Hth2]. apply: runs_mono; first (apply: (stack_round_ok t p n i s2 th) => //; lia).
      move=> [i'|[r|]] s3 [Hth3 Hr]; [by case: Hr | done|]. split; [done|]. case: Hr => [? [? [? ?]]]. split; [done|].
      exists i. split; [done | split; [done | lia]].
  - move=> [r|] s2 [Hth2 Hr].
    + apply: runs_ret. case: Hr => [Hg2 ->]. done.
    + destruct Hr as (Htr2 & i & [Hg2 [Ht2 [Hi0 [Him Hend]]]] & Hbk & Hi). eexists _, _. split; first done.
      split; [done | split; [done|]].
      have Hc : i = PGCEIL n.
      { rewrite PGCEIL_eq; [unfold in64; lia | lia |]. have H1 := Z.div_mod (n + 4095) 4096 ltac:(lia).
        have H2 := Z.mod_pos_bound (n + 4095) 4096 ltac:(lia). have H3 := Z.div_mod i 4096 ltac:(lia). lia. }
      have Hpn : w64 (p + n) = p + n by apply: w64_small; unfold in64 in *; lia.
      exists p. rewrite /= Hpn -Hc Hth2. unfold in64 in Hp. rewrite Ht2 /grown (proj2 (Z.eqb_neq _ _)); first lia.
      repeat split; try done; try lia. move=> k Hk. apply: Hbk. lia.
Qed.

(** ** The kernel stack *)

(** A page of kernel space: no area, the page tables under the kernel's lock *)
Lemma mmap_kernel_page v a p flags :
  good v -> 2 ^ 47 <= a -> a + 4096 <= 2 ^ 64 -> a mod 4096 = 0 -> in64 p -> p mod 4096 = 0 -> plain flags ->
  runs (mm_mmap target a p PAGESIZE kernel_stack_access flags) v (fun _ v' =>
    good v' /\ vmr_tree v' = vmr_tree v /\ space v' = space v).
Proof.
  move=> [Hd Hk Hv Hp] Ha Hend Hm Hpa Hpm Hpl.
  rewrite /mm_mmap /target /= (PGFLOOR_aligned a) //; first (unfold in64; lia).
  case: Z.ltb_spec => _; first by apply: runs_ret.
  have Hlast : w64 (a + (PAGESIZE - 1)) = a + (PAGESIZE - 1) by apply: w64_small; unfold in64, PAGESIZE; lia.
  rewrite Hlast /mm_is_user_space !(proj2 (Z.ltb_ge _ _)); [unfold PAGESIZE; lia | unfold PAGESIZE; lia |].
  change (has kernel_stack_access MM_PAGE_USER) with false. cbn [Bool.eqb negb andb]. rewrite andb_false_r.
  destruct (mmap_law a p kernel_stack_access flags (hw v) Hpl Hpa Hpm) as (r & h' & Er & Em).
  rewrite (proj2 (Z.leb_le _ _) Ha) orb_true_r in Em.
  rewrite /runs /bind /lock_kernel_mmap /lift /= Hk /= (PGFLOOR_aligned p) // Er /unlock_kernel_mmap /=.
  eexists _, _. split; [done|]. split; [by split | by split].
Qed.

Lemma release_kernel_stack_ok p i s :
  good (vm s) -> 0 <= i < 2 ^ 63 -> runs (release_kernel_stack p i) s (fun _ s' => good (vm s')).
Proof.
  move=> Hg Hi. rewrite /release_kernel_stack.
  apply: (loop_rule (fun j s => 0 <= j < i + 4096 /\ good (vm s)) (rounds i)).
  - split; [lia | done].
  - apply: rounds_start. lia.
  - move=> j s1 [Hj Hg1]. rewrite /free_round. case: Z.ltb_spec => Hlt; last by apply: runs_ret.
    apply: runs_bind; first apply: (runs_below _ s1 (fun _ _ => True)).
    { destruct (unmmap_total (w64 (p + j)) PAGESIZE 0 (hw (vm s1))) as [h' Eh]. by exists tt, h'. }
    move=> _ s2 [_ Ho]. apply: runs_ret. rewrite w64_small; first (unfold in64, PAGESIZE; lia).
    split; [split; [unfold PAGESIZE; lia | exact: only_hw_good Ho Hg1] | exact: rounds_smaller].
Qed.

(** What the code that deals with kernel space leaves alone *)
Definition kernel_only s s' : Prop :=
  good (vm s') /\ vmr_tree (vm s') = vmr_tree (vm s) /\ space (vm s') = space (vm s) /\
  frames s' = frames s /\ thread s' = thread s.

Lemma kernel_stack_round_ok p n i s0 s :
  2 ^ 47 <= p -> p + PGCEIL n <= 2 ^ 64 -> p mod 4096 = 0 -> 0 <= n < 2 ^ 47 ->
  kernel_only s0 s -> 0 <= i < n + 4096 -> i mod 4096 = 0 ->
  runs (kernel_stack_round p n i) s (fun r s' =>
    match r with
    | inl i' => (kernel_only s0 s' /\ 0 <= i' < n + 4096 /\ i' mod 4096 = 0) /\ (rounds n i' < rounds n i)%nat
    | inr None => kernel_only s0 s'
    | inr (Some r) => good (vm s') /\ KM_FAILED r = true
    end).
Proof.
  move=> Hp Hend Hpm Hn [Hg [Et [Es [Ef Eth]]]] Hi Him. rewrite /kernel_stack_round.
  case: Z.ltb_spec => Hin; last by apply: runs_ret.
  apply: runs_bind (pgalloc_ok s) _ => pg s1 [[Hs1 [Hpg [Hpgm _]]] Ho]. have Hg1 := only_hw_good _ _ Ho Hg.
  case: Z.eqb_spec => Hz.
  { apply: runs_bind; first (apply: (release_kernel_stack_ok p i s1 Hg1); lia). move=> [] s2 Hg2. exact: runs_ret. }
  have Hpi : p + i + 4096 <= 2 ^ 64.
  { rewrite PGCEIL_eq in Hend; [unfold in64; lia | lia |]. have H1 := Z.div_mod (n + 4095) 4096 ltac:(lia).
    have H2 := Z.mod_pos_bound (n + 4095) 4096 ltac:(lia). have H3 := Z.div_mod i 4096 ltac:(lia). lia. }
  rewrite w64_small; first (unfold in64; lia).
  apply: runs_bind.
  { apply: (runs_on_vm _ s1). apply: mmap_kernel_page; try done; try lia; [|by right]. by rewrite Z.add_mod // Hpm Him. }
  move=> r s2 [[Hg2 [Et2 Es2]] [Ef2 Eth2]]. destruct (KM_FAILED r) eqn:Hfail.
  - apply: runs_bind; first (apply: (release_kernel_stack_ok p i s2 Hg2); lia). move=> [] s3 Hg3. exact: runs_ret.
  - apply: runs_ret. case: Ho => [Et1 [_ [Ef1 Eth1]]]. rewrite w64_small; first (unfold in64, PAGESIZE; lia).
    split; [split; [split; [done|] | split; [unfold PAGESIZE; lia | by rewrite /PAGESIZE Z.add_mod // Him]] | exact: rounds_smaller].
    by rewrite Et2 Et1 Es2 Hs1 Ef2 Ef1 Eth2 Eth1.
Qed.

(** The registers after the kernel stack has been set *)
Definition has_kernel_stack th n s : Prop :=
  exists p, 2 ^ 47 <= p /\ kernel_stack (thread s) = p /\ kernel_stack_size (thread s) = n /\
    rsp0 (context (thread s)) = p + n /\ stack (thread s) = stack th /\ stack_size (thread s) = stack_size th /\
    rsp (context (thread s)) = rsp (context th) /\ rbp (context (thread s)) = rbp (context th).

Lemma kernel_stack_ok s n :
  good (vm s) -> 0 < n < 2 ^ 47 -> n mod 4096 = 0 ->
  ends (ps_thread_alloc_kernel_stack n) s (fun r s' => good (vm s') /\
    if KM_FAILED r then True
    else vmr_tree (vm s') = vmr_tree (vm s) /\ space (vm s') = space (vm s) /\ frames s' = frames s /\
      has_kernel_stack (thread s) n s').
Proof.
  move=> Hg Hn Hnm. rewrite /ps_thread_alloc_kernel_stack.
  apply: ends_bind (ends_below _ s _ (kvmalloc_law n kernel_stack_access VMALLOC_ATOMIC _)) _.
  move=> p s1 [[Hpm [Hs1 Hpr]] Ho]. have Hg1 := only_hw_good _ _ Ho Hg. case: Ho => [Et1 [_ [Ef1 Eth1]]].
  case: Z.eqb_spec => Hz; first by right; apply: runs_ret.
  case: Hpr => [//|[Hp Hpn]].
  have Hc : PGCEIL n = n.
  { rewrite PGCEIL_eq; [unfold in64; lia | lia |]. have H1 := Z.div_mod (n + 4095) 4096 ltac:(lia).
    have H2 := Z.mod_pos_bound (n + 4095) 4096 ltac:(lia). have H3 := Z.div_mod n 4096 ltac:(lia). lia. }
  apply: runs_ends. apply: runs_bind.
  - apply: (loop_rule (fun i s => kernel_only s1 s /\ 0 <= i < n + 4096 /\ i mod 4096 = 0) (rounds n)
      (fun r s' => match r with None => kernel_only s1 s' | Some r => good (vm s') /\ KM_FAILED r = true end)).
    + split; [by split | split; [lia | done]].
    + apply: rounds_start. lia.
    + move=> i s2 [Hk [Hi Him]]. apply: kernel_stack_round_ok => //; [rewrite Hc; lia | lia].
  - move=> [r|] s2 Hr; first by apply: runs_ret; case: Hr => [? ->].
    case: Hr => [Hg2 [Et2 [Es2 [Ef2 Eth2]]]]. eexists _, _. split; first done. split; [done|]. simpl.
    rewrite Et2 Es2 Ef2 Et1 /space Hs1 Ef1. split; [done | split; [done | split; [done|]]].
    exists p. rewrite /= Eth2 Eth1 w64_small; [unfold in64; lia | by repeat split].
Qed.

End Proofs.
End ExecT.
