(* ===== verification/ElfTheorems.v ===== *)
(** * Theorems on the ELF loader

    Loading a file returns, or the kernel stops in a reservation; the target
    context stays well formed; after success the memory of the target holds
    the segments of the file and the thread is ready to start. *)

From S2P Require Import Prelude OMap MemConf Vmr VmrTheorems Exec ExecTheorems.
Import MemConf Vmr VmrT Exec ExecT.

Module ElfT.

Section Loader.
Context {H : Type} `{B : Backend H} `{BT : !BackendTotal H} `{E : Env H} `{EL : !EnvLaws H}.
Implicit Types (s : exec_st H) (t : gmap Z mm_vmr_t).

Variable fs_read : Z -> Z -> km_result_t * list Z.

(** [fs_read] gives the bytes of a file that fits in memory, fewer at its end. *)
Definition reads (data : list Z) : Prop :=
  Z.of_nat (length data) < 2 ^ 64 /\
  forall n off, 0 <= n -> 0 <= off -> fs_read n off = (KM_RESULT_OK, take (Z.to_nat n) (drop (Z.to_nat off) data)).

(** What a segment has at offset [i]: the file's bytes, then zeros *)
Definition segment_byte (data : list Z) ph i : Z :=
  if i <? p_filesz ph then default 0 (data !! Z.to_nat (p_offset ph + i)) else 0.

Definition page_image (data : list Z) ph k : list Z :=
  (fun r => segment_byte data ph (k + Z.of_nat r)) <$> seq 0 4096.

(** ** One page of bytes *)

Lemma overwrite_lookup (bytes page : list Z) r :
  overwrite bytes page !! r = if (r <? length bytes)%nat then bytes !! r else page !! r.
Proof.
  rewrite /overwrite. case: Nat.ltb_spec => Hr; first by rewrite lookup_app_l.
  rewrite lookup_app_r; first lia. rewrite lookup_drop. f_equal. lia.
Qed.

Lemma page_image_ok data ph j :
  0 <= p_offset ph -> 0 <= j < p_filesz ph ->
  overwrite (take (Z.to_nat (Z.min (p_filesz ph - j) PAGESIZE)) (drop (Z.to_nat (p_offset ph + j)) data)) zero_page
  = page_image data ph j.
Proof.
  move=> Ho Hj. apply: list_eq => r. rewrite overwrite_lookup length_take length_drop.
  rewrite /page_image /zero_page list_lookup_fmap. have HP : PAGESIZE = 4096 by [].
  case: (decide (r < 4096)%nat) => Hr4; last first.
  { rewrite (lookup_seq_ge 0); first lia. rewrite (proj2 (Nat.ltb_ge _ _)); first lia. apply: lookup_ge_None_2.
    rewrite length_replicate. lia. }
  rewrite lookup_seq_lt //. cbn [fmap option_fmap option_map Nat.add]. rewrite /segment_byte. case: Nat.ltb_spec => Hr.
  - rewrite lookup_take_lt; first lia. rewrite lookup_drop.
    case: Z.ltb_spec => Hf; last lia.
    rewrite (_ : Z.to_nat (p_offset ph + (j + Z.of_nat r)) = (Z.to_nat (p_offset ph + j) + r)%nat); first lia.
    destruct (data !! _) eqn:Ed; first done. apply lookup_ge_None_1 in Ed. lia.
  - rewrite lookup_replicate_2 //. case: Z.ltb_spec => Hf; last done.
    rewrite (lookup_ge_None_2 data) //. lia.
Qed.

Lemma zero_image_ok data ph j : p_filesz ph <= j -> zero_page = page_image data ph j.
Proof.
  move=> Hj. apply: list_eq => r. rewrite /page_image /zero_page list_lookup_fmap.
  case: (decide (r < 4096)%nat) => Hr.
  - rewrite lookup_seq_lt //. cbn [fmap option_fmap option_map Nat.add]. rewrite lookup_replicate_2 // /segment_byte. case: Z.ltb_spec => ?; [lia | done].
  - rewrite (lookup_seq_ge 0); first lia. apply: lookup_ge_None_2. rewrite length_replicate. unfold PAGESIZE. lia.
Qed.

(** Where the next read starts *)
Lemma read_on (data : list Z) off k n :
  drop off data = drop k data ->
  drop (off + length (take n (drop off data))) data = drop (k + n) data.
Proof.
  move=> Ed. rewrite -!drop_drop Ed length_take. case: (Nat.le_ge_cases n (length (drop k data))) => Hl.
  - by rewrite Nat.min_l.
  - rewrite Nat.min_r //. rewrite drop_all //. by rewrite drop_ge.
Qed.

(** ** One page of a segment *)

Lemma write_frame_ok p f s :
  runs (write_frame p f) s (fun _ s' =>
    vm s' = vm s /\ thread s' = thread s /\ frames s' = <[p := f (default [] (frames s !! p))]> (frames s)).
Proof. by eexists _, _. Qed.

(** The offsets at which a segment with [j] bytes in place is read *)
Definition reading (data : list Z) ph j off : Prop :=
  in64 off /\ (j < p_filesz ph -> drop (Z.to_nat off) data = drop (Z.to_nat (p_offset ph + j)) data).

Lemma read_page_ok data ph paddr j off s :
  0 <= p_offset ph -> 0 <= j ->
  runs (read_page fs_read ph paddr j off) s (fun r s' =>
    vm s' = vm s /\ thread s' = thread s /\ (forall q, q <> paddr -> frames s' !! q = frames s !! q) /\
    match r with
    | inr r => KM_FAILED r = true
    | inl off' => reads data -> frames s !! paddr = Some zero_page -> reading data ph j off ->
        frames s' !! paddr = Some (page_image data ph j) /\ reading data ph (j + PAGESIZE) off'
    end).
Proof.
  move=> Ho Hj. rewrite /read_page. case: Z.ltb_spec => Hf; last first.
  { apply: runs_ret. split; [done | split; [done | split; [done|]]]. move=> _ Hz [Hoff _].
    rewrite Hz -(zero_image_ok data ph j) //. split; [done|]. split; [done | unfold PAGESIZE; lia]. }
  destruct (fs_read _ off) as [r bytes] eqn:Er. destruct (KM_FAILED r) eqn:Hfail; first by apply: runs_ret.
  apply: runs_bind (write_frame_ok paddr (overwrite bytes) s) _ => _ s' [Ev [Eth Ef]]. apply: runs_ret.
  split; [done | split; [done | split]]. { move=> q Hq. by rewrite Ef lookup_insert_ne. }
  move=> [Hlen Hread] Hz [Hoff Hdrop].
  have Hn : 0 <= Z.min (p_filesz ph - j) PAGESIZE by unfold PAGESIZE; lia.
  rewrite (Hread _ _ Hn (proj1 Hoff)) in Er. case: Er => _ Eb. specialize (Hdrop Hf).
  rewrite Ef lookup_insert_eq Hz. cbn [default from_option id]. rewrite -Eb {1}Hdrop. split; [by rewrite page_image_ok|].
  have Hle : (length (take (Z.to_nat (Z.min (p_filesz ph - j) PAGESIZE)) (drop (Z.to_nat off) data))
    <= length data - Z.to_nat off)%nat by rewrite length_take length_drop; lia.
  have Hw : in64 (off + Z.of_nat (length (take (Z.to_nat (Z.min (p_filesz ph - j) PAGESIZE)) (drop (Z.to_nat off) data)))).
  { unfold in64 in *. lia. }
  rewrite w64_small //. split; [done|]. move=> Hf2. rewrite Z.min_r; first (unfold PAGESIZE in *; lia).
  rewrite (_ : Z.to_nat (p_offset ph + (j + PAGESIZE)) = (Z.to_nat (p_offset ph + j) + Z.to_nat PAGESIZE)%nat);
    first (unfold PAGESIZE; lia).
  rewrite Z2Nat.inj_add; [unfold in64 in Hoff; lia | lia |]. rewrite Nat2Z.id. exact: read_on.
Qed.

(** Pages that have a frame keep it and what it holds. *)
Definition extends s s' : Prop := forall x pg a, pg <> 0 ->
  space (vm s) !! x = Some (pg, a) -> space (vm s') !! x = Some (pg, a) /\ frames s' !! pg = frames s !! pg.

Lemma extends_refl s : extends s s.
Proof. by []. Qed.

Lemma only_hw_extends s s' : only_hw s s' -> space (vm s') = space (vm s) -> extends s s'.
Proof. move=> [_ [_ [Ef _]]] Es x pg a Hp. by rewrite Ef Es. Qed.

Lemma extends_trans s1 s2 s3 : extends s1 s2 -> extends s2 s3 -> extends s1 s3.
Proof.
  move=> H12 H23 x pg a Hp Hx. destruct (H12 _ _ _ Hp Hx) as [Hx2 <-]. exact: H23 Hp Hx2.
Qed.

(** The pages of a segment up to [j] are mapped and hold its bytes. *)
Definition in_place data ph j s : Prop := forall k, 0 <= k < j -> k mod 4096 = 0 ->
  exists pg, pg <> 0 /\ space (vm s) !! (p_vaddr ph + k) = Some (pg, segment_access ph) /\
    frames s !! pg = Some (page_image data ph k).

Lemma in_place_extends data ph j s s' : extends s s' -> in_place data ph j s -> in_place data ph j s'.
Proof.
  move=> He Hi k Hk Hm. destruct (Hi k Hk Hm) as (pg & Hp & Hs & Hf). exists pg.
  destruct (He _ _ _ Hp Hs) as [-> ->]. done.
Qed.

Lemma segment_access_user ph : has (segment_access ph) MM_PAGE_USER = true.
Proof. rewrite /segment_access. by do 3 case: (has (p_flags ph) _). Qed.

(** A page is taken: the one mapped there, or a new one. *)
Definition taken s x pg s' : Prop :=
  only_hw s s' /\ space (vm s') = space (vm s) /\ in64 pg /\ pg mod 4096 = 0 /\
  (pg <> 0 -> x < 2 ^ 47 -> ~ covered (vmr_tree (vm s)) x -> forall y a, space (vm s) !! y <> Some (pg, a)).

Lemma take_page_ok {X} s x (K : Z -> M (exec_st H) X) (Q : X -> exec_st H -> Prop) :
  in64 x -> x mod 4096 = 0 -> tracked (vm s) ->
  (forall pg s', taken s x pg s' -> runs (K pg) s' Q) ->
  runs (bind (below (kh_getmap x)) (fun '(mapped, _) =>
    bind (if mapped =? 0 then below mm_pgalloc else ret mapped) K)) s Q.
Proof.
  move=> Hx Hm Htr HK. destruct (getmap_law x (hw (vm s))) as ([pg b] & Eg & Hpg & Hpm & Hval).
  apply: runs_bind; first by apply: (runs_below _ s (fun q h => q = (pg, b) /\ h = hw (vm s))); exists (pg, b), (hw (vm s)).
  move=> _ s1 [[-> Eh] Ho]. simpl in Hpg, Hpm, Hval.
  have Es1 : space (vm s1) = space (vm s) by rewrite /space Eh.
  case: Z.eqb_spec => Hz.
  - apply: runs_bind (pgalloc_ok s1) _ => p s2 [[Es2 [Hp [Hpm2 Hfresh]]] Ho2]. apply: HK. split.
    { destruct Ho as (? & [? ?] & ? & ?), Ho2 as (? & [? ?] & ? & ?). repeat split; congruence. }
    rewrite Es2 Es1. split; [done | split; [done | split; [done|]]]. move=> Hp0 _ _. rewrite -Es1. exact: Hfresh.
  - apply: (runs_bind _ _ _ (taken s x)); last exact: HK.
    apply: runs_ret. split; [done | split; [done | split; [done | split; [done|]]]].
    move=> _ Hu Hnc. exfalso. apply: Hnc. specialize (Hval Hu). rewrite PGFLOOR_aligned // in Hval.
    change (maps (hw (vm s))) with (space (vm s)) in Hval.
    destruct (space (vm s) !! x) as [[p c]|] eqn:Ex; last done. subst p. exact: Htr Hz Ex.
Qed.

(** A page at [x] gets a frame that no page had. *)
Lemma extends_page s s' x pg a :
  tracked (vm s) -> ~ covered (vmr_tree (vm s)) x -> (forall y b, space (vm s) !! y <> Some (pg, b)) ->
  space (vm s') = <[x := (pg, a)]> (space (vm s)) -> (forall q, q <> pg -> frames s' !! q = frames s !! q) ->
  extends s s'.
Proof.
  move=> Htr Hnc Hfresh Es Ef y q b Hq Hy. split.
  - rewrite Es lookup_insert_ne //. move=> E0. subst y. apply: Hnc. exact: Htr Hq Hy.
  - apply: Ef => E0. subst q. exact: Hfresh Hy.
Qed.

(** ** The loop over the pages of a segment *)

Record loading data t ph s0 j off s : Prop := {
  l_building : building t (p_vaddr ph) (segment_access ph) j (vm s);
  l_tracked : tracked (vm s);
  l_extends : extends s0 s;
  l_thread : thread s = thread s0;
  l_bound : j < p_memsz ph + 4096;
  l_read : reads data -> reading data ph j off /\ in_place data ph j s
}.

Definition phdr_wf ph : Prop :=
  in64 (p_offset ph) /\ in64 (p_vaddr ph) /\ in64 (p_filesz ph) /\ in64 (p_memsz ph).

Lemma in_place_next data ph j s s' pg :
  extends s s' -> in_place data ph j s -> j mod 4096 = 0 -> pg <> 0 ->
  space (vm s') !! (p_vaddr ph + j) = Some (pg, segment_access ph) ->
  frames s' !! pg = Some (page_image data ph j) -> in_place data ph (j + PAGESIZE) s'.
Proof.
  move=> He Hi Hj Hp Hs Hf k Hk Hm. case: (Z.lt_trichotomy k j) => [Hlt|[->|Hgt]].
  - apply: (in_place_extends _ _ _ _ _ He Hi) => //. lia.
  - by exists pg.
  - unfold PAGESIZE in Hk. have H1 := Z.div_mod k 4096 ltac:(lia). have H2 := Z.div_mod j 4096 ltac:(lia). lia.
Qed.

Lemma segment_round_ok data t ph tmp s0 j off s :
  phdr_wf ph -> p_vaddr ph mod 4096 = 0 -> loading data t ph s0 j off s ->
  runs (segment_round fs_read ph tmp (segment_access ph) (j, off)) s (fun r s' =>
    match r with
    | inl (j', off') => loading data t ph s0 j' off' s' /\ (rounds (p_memsz ph) j' < rounds (p_memsz ph) j)%nat
    | inr r => good (vm s') /\
        if KM_FAILED r then True else loading data t ph s0 j off s' /\ p_memsz ph <= j
    end).
Proof.
  move=> [Hpo [Hpv _]] Hvm Hl. case: (Hl) => Hb Htr He Hth Hbd Hrd. case: (Hb) => [Hg [_ [Hj0 [Hjm _]]]].
  rewrite /segment_round. case: Z.ltb_spec => Hin; last by apply: runs_ret.
  have Hpi := building_in64 _ _ _ _ _ Hpv Hb.
  have Hvj : (p_vaddr ph + j) mod 4096 = 0 by rewrite Z.add_mod // Hvm Hjm.
  rewrite (w64_small (p_vaddr ph + j)) //.
  apply: take_page_ok => // pg s1 [Ho [Es1 [Hpg [Hpgm Hfresh]]]].
  have Hb1 := only_hw_building _ _ _ _ _ _ Ho Hb. have Htr1 := only_hw_tracked _ _ Ho Es1 Htr.
  have Hg1 := only_hw_good _ _ Ho Hg. case: (Ho) => [Et1 [_ [Ef1 Eth1]]].
  case: Z.eqb_spec => Hz; first by apply: runs_ret.
  pose proof (map_page_ok _ _ _ _ pg 0 s1 Hb1 Hpv Hvm Hpg Hpgm (segment_access_user ph) (or_introl eq_refl)) as Hmp.
  rewrite (w64_small (p_vaddr ph + j)) // in Hmp. apply: (runs_bind _ _ _ _ _ Hmp) => r s2 [Hg2 [Ef2 [Eth2 Hr]]].
  destruct (KM_FAILED r) eqn:Hfail; first by apply: runs_ret; rewrite Hfail.
  destruct Hr as (Hend & Hnc & Es2 & Htr2 & Hmerge). specialize (Htr2 Htr1).
  have Hnc0 : ~ covered (vmr_tree (vm s)) (p_vaddr ph + j) by rewrite -Et1; apply: Hnc; lia.
  specialize (Hfresh Hz ltac:(lia) Hnc0).
  apply: runs_bind; first exact: (runs_below _ s2 _ (cur_mmap_law tmp pg PAGESIZE _ _)).
  move=> r2 s3 [Em3 Ho3]. have Hg3 := only_hw_good _ _ Ho3 Hg2.
  have Htr3 := only_hw_tracked _ _ Ho3 Em3 Htr2. case: (Ho3) => [Et3 [_ [Ef3 Eth3]]].
  destruct (KM_FAILED r2) eqn:Hfail2; first by apply: runs_ret; rewrite Hfail2.
  apply: runs_bind (write_frame_ok pg _ s3) _ => _ s4 [Ev4 [Eth4 Ef4]].
  apply: runs_bind (read_page_ok data ph pg j off s4 (proj1 Hpo) Hj0) _ => [[off'|r5]] s5 [Ev5 [Eth5 [Ef5 Hr5]]]; last first.
  { apply: runs_ret. by rewrite Hr5 Ev5 Ev4. }
  have Hg5 : good (vm s5) by rewrite Ev5 Ev4.
  apply: runs_bind (Hmerge s5 Hg5 _) _; first by rewrite Ev5 Ev4.
  move=> _ s6 [Hb6 [Es6 [Htr6 [Ef6 Eth6]]]]. apply: runs_ret.
  destruct (building_next _ _ _ _ _ Hb1 Hend Hpv) as [-> _]. split; last exact: rounds_smaller.
  have Es : space (vm s6) = <[p_vaddr ph + j := (pg, segment_access ph)]> (space (vm s)).
  { rewrite Es6 Ev5 Ev4 -Es1 -Es2. exact: Em3. }
  have Hex : extends s s6.
  { apply: extends_page Htr Hnc0 Hfresh Es _ => q Hq. by rewrite Ef6 Ef5 // Ef4 lookup_insert_ne // Ef3 Ef2 Ef1. }
  split => //.
  - apply: Htr6. by rewrite Ev5 Ev4.
  - exact: extends_trans He Hex.
  - by rewrite Eth6 Eth5 Eth4 Eth3 Eth2 Eth1.
  - unfold PAGESIZE. lia.
  - move=> Hreads. destruct (Hrd Hreads) as [Hrd1 Hrd2].
    destruct (Hr5 Hreads) as [Hf5 Hrd5]; [by rewrite Ef4 lookup_insert_eq | done |]. split; [done|].
    apply: in_place_next Hex Hrd2 Hjm Hz _ _; [by rewrite Es lookup_insert_eq | by rewrite Ef6].
Qed.

(** ** Segments *)

(** What a process reads at [x], and with which access *)
Definition byte_at s x : option Z :=
  match space (vm s) !! PGFLOOR x with
  | Some (pg, _) => match frames s !! pg with Some page => page !! Z.to_nat (x mod 4096) | None => None end
  | None => None
  end.

Definition access_at s x : option Z := snd <$> space (vm s) !! PGFLOOR x.

(** The segment is in memory. *)
Definition loaded data ph s : Prop := forall i, 0 <= i < p_memsz ph ->
  byte_at s (p_vaddr ph + i) = Some (segment_byte data ph i) /\ access_at s (p_vaddr ph + i) = Some (segment_access ph).

Lemma in_place_loaded data ph s :
  p_vaddr ph mod 4096 = 0 -> in64 (p_vaddr ph) -> p_vaddr ph + p_memsz ph <= 2 ^ 64 ->
  in_place data ph (p_memsz ph) s -> loaded data ph s.
Proof.
  move=> Hv Hvr Hend Hin i Hi. have Hm := Z.mod_pos_bound i 4096 ltac:(lia). have Hd := Z.div_mod i 4096 ltac:(lia).
  have Hmod : (p_vaddr ph + i) mod 4096 = i mod 4096 by rewrite -Zplus_mod_idemp_l Hv.
  have Hfl : PGFLOOR (p_vaddr ph + i) = p_vaddr ph + (i - i mod 4096).
  { rewrite PGFLOOR_eq; first (unfold in64 in *; lia). have := Z.div_mod (p_vaddr ph + i) 4096 ltac:(lia). lia. }
  have Hk : (i - i mod 4096) mod 4096 = 0 by rewrite Zminus_mod_idemp_r Z.sub_diag.
  destruct (Hin (i - i mod 4096)) as (pg & Hp & Hs & Hf); [lia | done |].
  rewrite /byte_at /access_at Hfl Hs Hf Hmod. split; [|done].
  rewrite /page_image list_lookup_fmap lookup_seq_lt; first lia. cbn [fmap option_fmap option_map Nat.add].
  do 2 f_equal. lia.
Qed.

Lemma load_segment_ok data ph s :
  phdr_wf ph -> good (vm s) -> tracked (vm s) ->
  ends (load_segment fs_read ph) s (fun r s' => good (vm s') /\
    if KM_FAILED r then True
    else tracked (vm s') /\ extends s s' /\ thread s' = thread s /\ p_vaddr ph mod 4096 = 0 /\
      (p_memsz ph = 0 \/ p_vaddr ph + p_memsz ph <= 2 ^ 47) /\ (reads data -> in_place data ph (p_memsz ph) s')).
Proof.
  move=> Hwf Hg Htr. rewrite /load_segment. case: Z.leb_spec => _; first by right; apply: runs_ret.
  case: Z.ltb_spec => Hfm; first by right; apply: runs_ret.
  case: Z.eqb_spec => Hvm; last by right; apply: runs_ret.
  cbn [negb].
  apply: ends_bind (ends_below _ s _ (cur_kvmalloc_law PAGESIZE _ _)) _ => tmp s1 [Es1 Ho].
  have Hg1 := only_hw_good _ _ Ho Hg. have Htr1 := only_hw_tracked _ _ Ho Es1 Htr.
  case: Z.eqb_spec => Hz; first by right; apply: runs_ret.
  apply: runs_ends. set t := vmr_tree (vm s1). case: (Hwf) => [Hpo [Hpv [Hpf Hpm]]].
  case: (Ho) => [_ [_ [Ef1 Eth1]]].
  have He := only_hw_extends _ _ Ho Es1.
  apply: (runs_bind _ _ _ (fun r s' => good (vm s') /\ if KM_FAILED r then True
      else exists j off, loading data t ph s1 j off s' /\ p_memsz ph <= j)).
  - apply: (loop_rule (fun st s' => loading data t ph s1 st.1 st.2 s') (fun st => rounds (p_memsz ph) st.1)).
    + split => //=.
      * split; [done | split; [done | split; [lia | split; [done | by left]]]].
      * unfold in64 in Hpm. lia.
      * move=> _. split; [split; [done | by rewrite Z.add_0_r] |]. move=> k Hk. lia.
    + apply: rounds_start. unfold in64 in Hpm. lia.
    + move=> [j off] s2 Hl. apply: runs_mono (segment_round_ok _ _ _ tmp _ _ _ _ Hwf Hvm Hl) _ => [[[j' off']|r]] s3 //.
      case: (KM_FAILED r) => [[Hg3 _] //|[Hg3 [Hl3 Hj]]]. split; [done|]. by exists j, off.
  - move=> r s2 [Hg2 Hr].
    apply: runs_bind; first exact: (runs_below _ s2 _ (cur_vmfree_law tmp PAGESIZE _)).
    move=> _ s3 [Es3 Ho3]. apply: runs_ret. split; first exact: only_hw_good Ho3 Hg2.
    destruct (KM_FAILED r); first done. destruct Hr as (j & off & [Hb Htr2 He2 Hth2 _ Hrd] & Hj).
    case: (Ho3) => [_ [_ [Ef3 Eth3]]].
    have He3 := only_hw_extends _ _ Ho3 Es3.
    split; first exact: only_hw_tracked Ho3 Es3 Htr2.
    split; first exact: extends_trans (extends_trans _ _ _ He He2) He3.
    split; [by rewrite Eth3 Hth2 Eth1 | split; [done | split]].
    + case: Hb => [_ [_ [_ [_ Hend]]]]. unfold in64 in Hpm. lia.
    + move=> Hreads. destruct (Hrd Hreads) as [_ Hin]. apply: in_place_extends He3 _. move=> k Hk. apply: Hin. lia.
Qed.

(** ** Files *)

Variables SELECTOR_UCODE SELECTOR_UDATA : Z.
Variable Elf64_Ehdr_of : list Z -> Elf64_Ehdr.
Variable Elf64_Phdr_of : list Z -> Elf64_Phdr.
Variables sizeof_Ehdr sizeof_Phdr : Z.
Variable garbage : list Z.

(** The headers as the loader sees them *)
Definition header e (i : Z) : Elf64_Phdr :=
  Elf64_Phdr_of (overwrite (fs_read sizeof_Phdr (w64 (e_phoff e + s32 (e_phentsize e * i)))).2 garbage).

Definition file_header : Elf64_Ehdr := Elf64_Ehdr_of (overwrite (fs_read sizeof_Ehdr 0).2 garbage).

(** The fields of a program header are 64 bits wide. *)
Hypothesis phdr_fields : forall b, phdr_wf (Elf64_Phdr_of b).

(** What is in place after a segment, or when it is skipped *)
Definition segment_done data e i s : Prop :=
  p_type (header e i) = PT_LOAD -> p_vaddr (header e i) mod 4096 = 0 /\
    (p_memsz (header e i) = 0 \/ p_vaddr (header e i) + p_memsz (header e i) <= 2 ^ 47) /\
    (reads data -> in_place data (header e i) (p_memsz (header e i)) s).

Lemma segment_done_extends data e i s s' : extends s s' -> segment_done data e i s -> segment_done data e i s'.
Proof.
  move=> He Hd Ht. destruct (Hd Ht) as (Hv & Hm & Hr). split; [done | split; [done|]].
  move=> Hreads. exact: in_place_extends He (Hr Hreads).
Qed.

Definition segments_done data e i s0 s : Prop :=
  good (vm s) /\ tracked (vm s) /\ extends s0 s /\ thread s = thread s0 /\
  forall k, 0 <= k < i -> segment_done data e k s.

Lemma phdr_round_ok data e i s0 s :
  segments_done data e i s0 s ->
  ends (phdr_round Elf64_Phdr_of sizeof_Phdr fs_read garbage e i tt) s (fun r s' =>
    match r with
    | Next _ => segments_done data e (i + 1) s0 s'
    | Break _ => False
    | Return r => good (vm s') /\ KM_FAILED r = true
    end).
Proof.
  move=> [Hg [Htr [He [Hth Hdone]]]]. rewrite /phdr_round.
  destruct (fs_read sizeof_Phdr _) as [r bytes] eqn:Er.
  destruct (KM_FAILED r) eqn:Hfail; first by right; apply: runs_ret.
  have Eh : header e i = Elf64_Phdr_of (overwrite bytes garbage) by rewrite /header Er.
  rewrite -Eh. case: Z.eqb_spec => Ht.
  - apply: ends_bind (load_segment_ok data _ s (phdr_fields _) Hg Htr) _ => r2 s2 [Hg2 Hr2].
    right. apply: runs_ret. destruct (KM_FAILED r2) eqn:Hfail2; first done.
    destruct Hr2 as (Htr2 & He2 & Hth2 & Hv & Hm & Hin).
    split; [done | split; [done | split; [exact: extends_trans He He2 | split; [by rewrite Hth2 Hth|]]]].
    move=> k Hk. case: (decide (k = i)) => [->|Hne]; first done.
    apply: segment_done_extends He2 _. apply: Hdone. lia.
  - right. apply: runs_ret. split; [done | split; [done | split; [done | split; [done|]]]].
    move=> k Hk. case: (decide (k = i)) => [->|Hne]; first done. apply: Hdone. lia.
Qed.

(** The thread is ready to start at the entry point, in user mode, with
    interrupts on and its stack pointers at the top of its stacks; every byte
    of the user stack is mapped. *)
Record ready (entry : Z) s : Prop := {
  rd_entry : rip (context (thread s)) = entry;
  rd_interrupts : Z.testbit (rflags (context (thread s))) 9 = true;
  rd_code : cs (context (thread s)) = SELECTOR_UCODE;
  rd_data : ds (context (thread s)) = SELECTOR_UDATA /\ ss (context (thread s)) = SELECTOR_UDATA /\
    es (context (thread s)) = SELECTOR_UDATA /\ gs (context (thread s)) = SELECTOR_UDATA;
  rd_stack : stack_size (thread s) = 0x200000 /\ rsp (context (thread s)) = stack (thread s) + 0x200000 /\
    rbp (context (thread s)) = stack (thread s) + 0x200000;
  rd_kernel : kernel_stack_size (thread s) = 0x2000 /\
    rsp0 (context (thread s)) = kernel_stack (thread s) + 0x2000 /\ 2 ^ 47 <= kernel_stack (thread s);
  rd_mapped : forall x, stack (thread s) <= x < stack (thread s) + 0x200000 ->
    access_at s x = Some stack_access
}.

Lemma backed_access p n s x :
  0 <= p -> p mod 4096 = 0 -> p + n <= 2 ^ 47 -> backed p stack_access n (vm s) -> p <= x < p + n ->
  access_at s x = Some stack_access.
Proof.
  move=> Hp Hpm Hend Hb Hx. have Hm := Z.mod_pos_bound x 4096 ltac:(lia). have Hd := Z.div_mod x 4096 ltac:(lia).
  have Hdp := Z.div_mod p 4096 ltac:(lia).
  have Hfl : PGFLOOR x = p + (x - x mod 4096 - p). { rewrite PGFLOOR_eq; [unfold in64; lia | lia]. }
  destruct (Hb (x - x mod 4096 - p)) as (pg & _ & Hs); [lia | |].
  { rewrite Zminus_mod Hpm (_ : x - x mod 4096 = x / 4096 * 4096); first lia. by rewrite Z.mod_mul. }
  by rewrite /access_at Hfl Hs.
Qed.

Abbreviation elf_load_exec := (ki_elf_load_exec SELECTOR_UCODE SELECTOR_UDATA Elf64_Ehdr_of Elf64_Phdr_of
  sizeof_Ehdr sizeof_Phdr fs_read garbage).

(** What a successful load leaves *)
Definition running_image data s : Prop :=
  ehdr_ok file_header = true /\ ready (e_entry file_header) s /\
  (reads data -> forall i, 0 <= i < e_phnum file_header -> p_type (header file_header i) = PT_LOAD ->
     loaded data (header file_header i) s).

(** The two stacks: what the first gives is still there after the second. *)
Definition stacks s : Prop :=
  good (vm s) /\ tracked (vm s) /\ exists p, p mod 4096 = 0 /\ 0 < p /\ p + 0x200000 <= 2 ^ 47 /\
    stack (thread s) = p /\ stack_size (thread s) = 0x200000 /\
    rsp (context (thread s)) = p + 0x200000 /\ rbp (context (thread s)) = p + 0x200000 /\
    backed p stack_access 0x200000 (vm s) /\
    kernel_stack_size (thread s) = 0x2000 /\ rsp0 (context (thread s)) = kernel_stack (thread s) + 0x2000 /\
    2 ^ 47 <= kernel_stack (thread s).

Lemma stacks_ok {X} s (K : M (exec_st H) X) (Q : X -> exec_st H -> Prop) (fail : km_result_t -> M (exec_st H) X) :
  good (vm s) -> tracked (vm s) ->
  (forall r s', good (vm s') -> KM_FAILED r = true -> ends (fail r) s' Q) ->
  (forall s', stacks s' -> ends K s' Q) ->
  ends (bind (ps_thread_alloc_stack 0x200000) (fun r => if KM_FAILED r then fail r else
    bind (ps_thread_alloc_kernel_stack 0x2000) (fun r => if KM_FAILED r then fail r else K))) s Q.
Proof.
  move=> Hg Htr Hf HK. apply: ends_bind (stack_ok s 0x200000 Hg Htr ltac:(lia)) _ => r s1 [Hg1 Hr1].
  destruct (KM_FAILED r) eqn:Hfail; first exact: Hf. destruct Hr1 as (Htr1 & p & Hpm & Hp & Hend & _ & Hst).
  destruct Hst as (Es & Esz & Ersp & Erbp & Hbk & _).
  apply: ends_bind (kernel_stack_ok s1 0x2000 Hg1 ltac:(lia) eq_refl) _ => r2 s2 [Hg2 Hr2].
  destruct (KM_FAILED r2) eqn:Hfail2; first exact: Hf. destruct Hr2 as (Et2 & Es2 & _ & q & Hq & Eq & Eqz & E0 & H2).
  destruct H2 as (F1 & F2 & F3 & F4). apply: HK. split; [done|].
  split; first by move=> x y z Hy; rewrite Es2 Et2; exact: Htr1.
  exists p. rewrite F1 F2 F3 F4 Eqz E0 Eq. change (PGCEIL 0x200000) with 0x200000 in Hend.
  repeat split; try done; try lia.
  move=> k Hk Hm. rewrite Es2. exact: Hbk.
Qed.

Lemma interrupts_on r : Z.testbit (Z.lor r (Z.shiftl 1 9)) 9 = true.
Proof. by rewrite Z.lor_spec orb_true_r. Qed.

Lemma finish_ok data s :
  stacks s -> ehdr_ok file_header = true ->
  (forall k, 0 <= k < e_phnum file_header -> segment_done data file_header k s) ->
  ends (bind (ps_user_thread_init SELECTOR_UCODE SELECTOR_UDATA) (fun _ =>
    bind (ps_thread_set_entry (e_entry file_header)) (fun _ => bind (below add_thread) (fun _ => ret KM_RESULT_OK)))) s
    (fun r s' => good (vm s') /\ if KM_FAILED r then True else running_image data s').
Proof.
  move=> [Hg [Htr [p [Hpm [Hp [Hend [Est [Esz [Ersp [Erbp [Hbk [Eks [Er0 Hk]]]]]]]]]]]]] Hok Hdone. right.
  destruct (add_thread_law (hw (vm s))) as ([] & h' & Eh & Em). eexists _, _. split.
  { rewrite /ps_user_thread_init /ps_thread_set_entry /set_context /get_thread /set_thread /bind /below /on_vm /lift /= Eh. done. }
  have Es3 : forall fr th, space (vm (mkExec (mkVm (vmr_tree (vm s)) (vmr_mutex (vm s)) (ki_kernel_mmap_mutex (vm s)) h') fr th))
    = space (vm s) by [].
  split; first by case: Hg => *; split. split; [done | split].
  - split; rewrite /= //.
    + exact: interrupts_on.
    + by rewrite Esz Ersp Erbp Est.
    + move=> x Hx. rewrite Est in Hx. apply: (backed_access p 0x200000) => //; [lia|].
      move=> k Hk2 Hm2. rewrite Es3. exact: Hbk.
  - move=> Hreads i Hi Ht. destruct (Hdone i Hi Ht) as (Hv & Hm & Hin).
    have Hwf : phdr_wf (header file_header i) := phdr_fields _.
    destruct Hwf as (_ & Hwv & _ & Hwm). apply: in_place_loaded => //; first (unfold in64 in *; lia).
    move=> k Hk2 Hm2. rewrite Es3. exact: Hin.
Qed.

(** C32: for every file and every well-formed target, [ki_elf_load_exec] returns
    and leaves the target's areas well formed and its locks free, or the kernel
    stops in a reservation of addresses.  On success the header has passed the
    checks; the thread is ready: entry point, user selectors, interrupts on,
    2 MiB of user stack all mapped, both stack pointers at the top; and when
    [fs_read] gives the bytes of the file, every byte of every loadable segment
    is in the target's memory with the segment's access, the bytes of the file
    first and then zeros, whatever was loaded after it. *)
Theorem load_exec_ok data s :
  good (vm s) -> tracked (vm s) ->
  ends elf_load_exec s (fun r s' => good (vm s') /\ if KM_FAILED r then True else running_image data s').
Proof.
  move=> Hg Htr. rewrite /ki_elf_load_exec.
  apply: ends_bind (runs_ends _ _ _ (runs_below _ s _ (alloc_tcb_law _))) _ => ok s1 [Em1 Ho1].
  have Hg1 := only_hw_good _ _ Ho1 Hg. have Htr1 := only_hw_tracked _ _ Ho1 Em1 Htr.
  case: ok; last by right; apply: runs_ret. cbn [negb].
  apply: stacks_ok => // [r s2 Hg2 Hr|s2 Hst]; first by right; apply: runs_ret; rewrite Hr.
  destruct (fs_read sizeof_Ehdr 0) as [r bytes] eqn:Er.
  destruct (KM_FAILED r) eqn:Hfail; first by right; apply: runs_ret; rewrite Hfail; case: Hst.
  have Eh : file_header = Elf64_Ehdr_of (overwrite bytes garbage) by rewrite /file_header Er.
  rewrite -Eh. destruct (ehdr_ok file_header) eqn:Hok; last by right; apply: runs_ret; case: Hst.
  apply: (ends_bind _ _ _ (fun left s' => match left with
    | inl _ => segments_done data file_header (Z.of_nat (Z.to_nat (e_phnum file_header))) s2 s'
    | inr r => good (vm s') /\ KM_FAILED r = true end)).
  - apply: (for_loop_ends (fun i _ s' => segments_done data file_header i s2 s')) => //.
    + case: (Hst) => [Hg2 [Htr2 _]]. split; [done | split; [done | split; [done | split; [done|]]]]. move=> k Hk. lia.
    + move=> i [] s3 _ Hd. apply: ends_mono (phdr_round_ok _ _ _ _ _ Hd) _ => [[u|u|r3]] s4 //.
  - move=> [u|r2] s3 Hl; last by right; apply: runs_ret; destruct Hl as [? ->].
    destruct Hl as (Hg3 & Htr3 & He3 & Hth3 & Hdone). apply: finish_ok => //.
    + case: Hst => [_ [_ [p [? [? [? [? [? [? [? [Hbk ?]]]]]]]]]]]. split; [done | split; [done|]]. exists p. rewrite Hth3.
      repeat split; try tauto. move=> k Hk Hm. destruct (Hbk k Hk Hm) as (pg & Hpg & Hs). exists pg. split; [done|].
      by case: (He3 _ _ _ Hpg Hs).
    + move=> k Hk. apply: Hdone. lia.
Qed.

End Loader.
End ElfT.
