(* ===== verification/ElfClaims.v ===== *)
(** * The ELF loader on a concrete machine

    A small machine that meets the interface of [ExecT], the layout of ELF-64
    headers, and a file that loads. *)

From S2P Require Import Prelude OMap MemConf Vmr VmrTheorems Exec ExecTheorems ElfTheorems.
Import MemConf Vmr VmrT Exec ExecT ElfT.

Module ElfClaims.

(** ** Stacks *)

Section Stacks.
Context {H : Type} `{B : Backend H} `{BT : !BackendTotal H} `{E : Env H} `{EL : !EnvLaws H}.
Implicit Types s : exec_st H.

(** [ps_thread_alloc_stack] returns for every size below 2^63, or the kernel
    stops in the reservation of addresses.  On success the target has one more
    area, of the pages of the size asked for, every page of it has a frame and
    the access of a stack, [rsp] and [rbp] point to its end and the other stack
    pointer and the entry are as before; in every case the areas stay well formed and the locks
    free. *)
Theorem alloc_stack_correct s n :
  good (vm s) -> tracked (vm s) -> 0 < n < 2 ^ 63 ->
  ends (ps_thread_alloc_stack n) s (fun r s' => good (vm s') /\
    (KM_FAILED r = false -> tracked (vm s') /\ has_stack (vmr_tree (vm s)) (thread s) n s')).
Proof.
  move=> Hg Htr Hn. apply: ends_mono (stack_ok s n Hg Htr Hn) _ => r s' [Hg' Hr]. split; [done|].
  move=> Hok. by rewrite Hok in Hr.
Qed.

(** When there is no frame for the first page of a stack, the guard that is
    to give back what was mapped unmaps 2^64 - 4097 bytes from the start of the
    stack: the counter is decremented below zero before the guard runs. *)
Theorem no_first_page_unmaps_all s p n h h' :
  0 < n -> mm_pgalloc (hw (vm s)) = Ok (0, h) -> kh_unmmap p (2 ^ 64 - 4097) 0 h = Ok (tt, h') ->
  stack_round p n 0 s
  = Ok (inr (Some KM_RESULT_NO_MEM),
        mkExec (mkVm (vmr_tree (vm s)) (vmr_mutex (vm s)) (ki_kernel_mmap_mutex (vm s)) h') (frames s) (thread s)).
Proof.
  move=> Hn Ha Hu. rewrite /stack_round (proj2 (Z.ltb_lt _ _) Hn) /below /on_vm /lift /bind Ha /=.
  by rewrite /release_stack /mm_vmfree /below /on_vm /lift /when /bind /= Hu.
Qed.

End Stacks.

(** ** A machine: the user half of the page tables, with frame numbers *)

Record machine := mkMachine { table : gmap Z (Z * Z) }.

Definition clamp (n : Z) : Z := if (0 <=? n) && (n <? 2 ^ 52) then n else 0.

Lemma clamp_range n : 0 <= clamp n < 2 ^ 52.
Proof. rewrite /clamp. case: Z.leb_spec => ? /=; last lia. case: Z.ltb_spec => ?; lia. Qed.

Definition frame_of (n : Z) : Z := 4096 * clamp n.

Definition mapped (h : machine) : gmap Z (Z * Z) := (fun e => (frame_of e.1, e.2)) <$> table h.

(** A frame number above those in use *)
Definition above (m : gmap Z (Z * Z)) : Z := map_fold (fun _ e top => Z.max (clamp e.1) top) 0 m + 1.

#[local] Instance machine_backend : Backend machine := {
  kh_mmap v p n a f := fun h =>
    Ok (KM_RESULT_OK, if 2 ^ 47 <=? v then h else mkMachine (<[v := (p / 4096, a)]> (table h)));
  kh_unmmap v n f := ret tt;
  kh_set_page_access v n a := ret tt;
  kh_vmalloc lo hi n a f := ret 0x700000000000;
  kh_kvmalloc n a f := fun h => Ok (if (0 <=? n) && (n <? 2 ^ 40) then 0xffff900000000000 else 0, h);
  kh_getmap v := fun h => Ok (default (0, 0) (mapped h !! PGFLOOR v), h);
  kima_alloc_vmr := ret true;
  kima_free_vmr := ret tt
}.

#[local] Instance machine_total : BackendTotal machine.
Proof. split; intros; repeat eexists. Qed.

#[local] Instance machine_env : Env machine := {
  mm_pgalloc := fun h => Ok (if above (table h) <? 2 ^ 52 then 4096 * above (table h) else 0, h);
  mm_pgfree p := ret tt;
  cur_kvmalloc n a := ret 0xffff800000001000;
  cur_mmap v p n a := ret KM_RESULT_OK;
  cur_vmfree v n := ret tt;
  alloc_tcb := ret true;
  add_thread := ret tt
}.

Lemma above_spec m v e : m !! v = Some e -> 0 <= clamp e.1 < above m.
Proof.
  rewrite /above. move: v. apply (map_fold_weak_ind (fun top m => forall v, m !! v = Some e -> 0 <= clamp e.1 < top + 1)).
  - move=> v. by rewrite lookup_empty.
  - move=> i x m' top _ IH v. have H1 := clamp_range e.1.
    rewrite lookup_insert_Some. move=> [[_ Ex]|[_ Hv]]; [subst x; lia | have := IH _ Hv; lia].
Qed.

Lemma above_pos m : 0 < above m.
Proof.
  rewrite /above. apply (map_fold_weak_ind (fun top m => 0 < top + 1)); first lia.
  move=> i x m' top _ IH. have H1 := clamp_range x.1. lia.
Qed.

Lemma frame_of_ok n : in64 (frame_of n) /\ frame_of n mod 4096 = 0.
Proof.
  rewrite /frame_of /in64. have H1 := clamp_range n.
  split; [lia|]. by rewrite Z.mul_comm Z.mod_mul.
Qed.

Lemma frame_of_page p : in64 p -> p mod 4096 = 0 -> frame_of (p / 4096) = p.
Proof.
  move=> Hp Hm. have Hd := Z.div_mod p 4096 ltac:(lia). unfold in64 in Hp.
  rewrite /frame_of /clamp (proj2 (Z.leb_le _ _)); first lia. rewrite (proj2 (Z.ltb_lt _ _)) /=; lia.
Qed.

#[local] Instance machine_laws : EnvLaws machine.
Proof.
  refine {| maps := mapped |}.
  - move=> v p a f h _ Hp Hm. eexists _, _. split; [done|]. cbn [KM_FAILED orb].
    case: Z.leb_spec => _; [done|]. rewrite /mapped /= fmap_insert /= frame_of_page //.
  - move=> v h. eexists. split; [done|]. rewrite /mapped lookup_fmap.
    destruct (table h !! PGFLOOR v) as [[n a]|]; cbn [fmap option_fmap option_map default from_option id fst snd].
    + by split; [apply frame_of_ok | split; [apply frame_of_ok|]].
    + by [].
  - move=> *. right. by eexists _, _.
  - move=> n a f h. right. eexists _, _. split; [done|].
    case: (Z.leb_spec 0 n) => ? /=; last by split; [|split; [|left]].
    case: (Z.ltb_spec n (2 ^ 40)) => ?; [split; [done | split; [done | right; lia]] | by split; [|split; [|left]]].
  - move=> h. by eexists _, _.
  - move=> h. by eexists _, _.
  - move=> h. eexists _, _. split; [done|]. split; [done|]. have H1 := above_pos (table h).
    case: Z.ltb_spec => Hlt; last by [].
    split; [unfold in64; lia | split; [by rewrite Z.mul_comm Z.mod_mul|]].
    move=> _ v a. rewrite /mapped lookup_fmap. destruct (table h !! v) as [e|] eqn:Ee; last done.
    have := above_spec _ _ _ Ee. cbn [fmap option_fmap option_map]. rewrite /frame_of => H2 [E1 _]. lia.
  - move=> p h. by eexists _, _.
  - move=> *. right. by eexists _, _.
  - move=> *. by eexists _, _.
  - move=> *. by eexists _, _.
  - move=> *. by eexists _, _.
  - move=> *. by eexists _, _.
Defined.

(** ** ELF-64 headers *)

(** Little-endian integers *)
Definition le (n off : nat) (b : list Z) : Z :=
  foldr (fun x acc => (x mod 256) + 256 * acc) 0 (take n (drop off b)) mod 2 ^ 64.

Definition Elf64_Ehdr_of (b : list Z) : Elf64_Ehdr :=
  mkEhdr (take 16 b) (le 2 16 b) (le 8 24 b) (le 8 32 b) (le 2 54 b) (le 2 56 b).

Definition Elf64_Phdr_of (b : list Z) : Elf64_Phdr :=
  mkPhdr (le 4 0 b) (le 4 4 b) (le 8 8 b) (le 8 16 b) (le 8 32 b) (le 8 40 b).

Lemma Elf64_Phdr_fields b : phdr_wf (Elf64_Phdr_of b).
Proof. rewrite /phdr_wf /=. repeat split; by apply Z.mod_pos_bound. Qed.

(** An executable with one segment: four bytes of code at 0x400000 and a
    page and four bytes of zeros after them *)
Definition demo_file : list Z :=
  [0x7f; 0x45; 0x4c; 0x46; 2; 1; 1; 0] ++ replicate 8 0 ++ [2; 0; 0x3e; 0; 1; 0; 0; 0] ++
  [2; 0; 0x40; 0; 0; 0; 0; 0] ++ [64; 0; 0; 0; 0; 0; 0; 0] ++ replicate 14 0 ++ [56; 0; 1; 0] ++ replicate 6 0 ++
  [1; 0; 0; 0; 5; 0; 0; 0] ++ [120; 0; 0; 0; 0; 0; 0; 0] ++ [0; 0; 0x40; 0; 0; 0; 0; 0] ++ replicate 8 0 ++
  [4; 0; 0; 0; 0; 0; 0; 0] ++ [8; 0x10; 0; 0; 0; 0; 0; 0] ++ replicate 8 0 ++ [0x90; 0xeb; 0xfe; 0xc3].

Definition demo_read (n off : Z) : km_result_t * list Z :=
  (KM_RESULT_OK, take (Z.to_nat n) (drop (Z.to_nat off) demo_file)).

Definition demo_tcb : tcb_t := mkTcb 0 0 0 0 (mkContext 0 0 0 0 0 0 0 0 0 0).
Definition demo_st : exec_st machine := mkExec (mkVm ∅ 0 false (mkMachine ∅)) ∅ demo_tcb.

Abbreviation demo_load :=
  (ki_elf_load_exec (H := machine) 0x1b 0x23 Elf64_Ehdr_of Elf64_Phdr_of 64 56 demo_read []).

Lemma demo_reads : reads demo_read demo_file.
Proof. by split. Qed.

Lemma demo_good : good (vm demo_st) /\ tracked (vm demo_st).
Proof. split; [split; [done | done | by split | by []] | by []]. Qed.

Definition succeeds {S} (r : outcome (km_result_t * S)) : bool :=
  match r with Ok (KM_RESULT_OK, _) => true | _ => false end.

Lemma ends_success {S} (m : M S km_result_t) s Q :
  succeeds (m s) = true -> ends m s Q -> exists s', m s = Ok (KM_RESULT_OK, s') /\ Q KM_RESULT_OK s'.
Proof.
  move=> Hs [Em|[r [s' [Em HQ]]]]; rewrite Em in Hs; first done. exists s'. by destruct r.
Qed.

Abbreviation demo_header :=
  (header demo_read Elf64_Phdr_of 56 [] (file_header demo_read Elf64_Ehdr_of 64 []) 0).

Lemma demo_facts :
  0 <= 0 < e_phnum (file_header demo_read Elf64_Ehdr_of 64 []) /\ p_type demo_header = PT_LOAD /\
  p_vaddr demo_header = 0x400000 /\ 0 <= 2 < p_memsz demo_header /\
  0 <= 0x1007 < p_memsz demo_header /\   segment_byte demo_file demo_header 2 = 0xfe /\ segment_byte demo_file demo_header 0x1007 = 0.
Proof. by vm_compute. Qed.

(** The file loads, and the process finds its code and zeros. *)
Lemma load_exec_witness :
  exists s, demo_load demo_st = Ok (KM_RESULT_OK, s) /\ good (vm s) /\ ready 0x1b 0x23 0x400002 s /\
    byte_at s (0x400000 + 2) = Some 0xfe /\ byte_at s (0x400000 + 0x1007) = Some 0.
Proof.
  have Hc : succeeds (demo_load demo_st) = true by vm_cast_no_check (eq_refl true).
  destruct (ends_success _ _ _ Hc
    (load_exec_ok demo_read 0x1b 0x23 Elf64_Ehdr_of Elf64_Phdr_of 64 56 [] Elf64_Phdr_fields demo_file demo_st
      (proj1 demo_good) (proj2 demo_good))) as (s & Em & Hg & _ & Hrd & Hl).
  exists s. split; [exact Em | split; [exact Hg | split; [exact Hrd|]]].
  destruct demo_facts as (Hn & Ht & Hv & Hm2 & Hm3 & Hb2 & Hb3).
  specialize (Hl demo_reads 0 Hn Ht). rewrite -Hb2 -Hb3 -Hv.
  exact (conj (proj1 (Hl _ Hm2)) (proj1 (Hl _ Hm3))).
Defined.

(** A stack of three pages *)
Lemma alloc_stack_witness :
  exists s, ps_thread_alloc_stack 0x2001 demo_st = Ok (KM_RESULT_OK, s) /\ has_stack ∅ demo_tcb 0x2001 s.
Proof.
  have Hn : 0 < 0x2001 < 2 ^ 63 by [].
  have Hc : succeeds (ps_thread_alloc_stack 0x2001 demo_st) = true by vm_cast_no_check (eq_refl true).
  destruct (ends_success _ _ _ Hc (alloc_stack_correct demo_st 0x2001 (proj1 demo_good) (proj2 demo_good) Hn))
    as (s & Em & Hg & Hs).
  exists s. split; [exact Em | exact (proj2 (Hs eq_refl))].
Defined.

(** A machine without a frame left, whose reservations and releases are as
    above *)
Definition full_machine : exec_st machine :=
  mkExec (mkVm ∅ 0 false (mkMachine {[ 0 := (2 ^ 52 - 1, 0) ]})) ∅ demo_tcb.

Lemma no_first_page_witness : stack_round 0x700000000000 0x2001 0 full_machine = Ok (inr (Some KM_RESULT_NO_MEM), full_machine).
Proof.
  exact (no_first_page_unmaps_all full_machine 0x700000000000 0x2001 (hw (vm full_machine)) (hw (vm full_machine))
    eq_refl eq_refl eq_refl).
Defined.

End ElfClaims.
