(* ===== verification/CString.v ===== *)
(** * Strings and memory of the C library

    lib/freestdc/src/string.c and lib/freestdc/src/x86_64/string.c, the library
    the kernel is linked with.  Memory is a map from addresses to bytes; code
    that touches an address without memory faults.  Accesses of 2, 4 and 8
    bytes are little-endian; [char] is signed. *)

From S2P Require Import Prelude.

Module CString.

Abbreviation mem := (gmap Z Z).
Abbreviation MM := (M mem).

Definition load8 (a : Z) : MM Z := fun m =>
  match m !! w64 a with Some b => Ok (b, m) | None => Fault end.

Definition store8 (a v : Z) : MM unit := fun m =>
  match m !! w64 a with Some _ => Ok (tt, <[w64 a := v mod 256]> m) | None => Fault end.

(** An access of [k] bytes *)
Fixpoint load (k : nat) (a : Z) : MM Z :=
  match k with
  | O => ret 0
  | S k' => b <- load8 a; r <- load k' (a + 1); ret (b + 256 * r)
  end.

Fixpoint store (k : nat) (a v : Z) : MM unit :=
  match k with
  | O => ret tt
  | S k' => store8 a v;; store k' (a + 1) (v / 256)
  end.

(** The bytes as [char] *)
Definition schar (b : Z) : Z := if b <? 128 then b else b - 256.

(** The rounds of a walk along memory: one for each byte there is *)
Definition walk {L R} (body : L -> MM (L + R)) (x : L) : MM R := fun m => loop (S (size m)) body x m.

(** ** Strings *)

Definition strlen (str : Z) : MM Z :=
  walk (fun i =>
    c <- load8 (str + i);
    let i := w64 (i + 1) in
    ret (if c =? 0 then inr (w64 (i - 1)) else inl i)) 0.

Definition strcpy (dest src : Z) : MM Z :=
  let dest_ptr := dest in
  walk (fun '(dest, src) =>
    c <- load8 src;
    store8 dest c;;
    ret (if c =? 0 then inr tt else inl (w64 (dest + 1), w64 (src + 1)))) (dest, src);;
  ret dest_ptr.

(** The two loops of [strncpy] *)
Definition strncpy_copy (st : Z * Z * Z) : MM (Z * Z * Z + Z * Z) :=
  let '(dest, src, num) := st in
  c <- load8 src;
  store8 dest c;;
  let dest := w64 (dest + 1) in
  let src := w64 (src + 1) in
  ret (if c =? 0 then inr (dest, num)
       else if num =? 0 then inr (dest, w64 (num - 1))
       else inl (dest, src, w64 (num - 1))).

Definition strncpy_pad (st : Z * Z) : MM (Z * Z + unit) :=
  let '(dest, num) := st in
  if num =? 0 then ret (inr tt)
  else store8 dest 0;; ret (inl (w64 (dest + 1), num - 1)).

Definition strncpy (dest src num : Z) : MM Z :=
  let dest_ptr := dest in
  st <- walk strncpy_copy (dest, src, num);
  walk strncpy_pad st;;
  ret dest_ptr.

Definition strcat (dest src : Z) : MM Z :=
  dest_len <- strlen dest;
  src_len <- strlen src;
  walk (fun i =>
    c <- load8 (src + i);
    if c =? 0 then ret (inr tt)
    else
      c <- load8 (src + i);
      store8 (dest + dest_len + i) c;;
      ret (inl (w64 (i + 1)))) 0;;
  store8 (dest + src_len + dest_len) 0;;
  ret dest.

Definition strncat (dest src num : Z) : MM Z :=
  dest_len <- strlen dest;
  src_len <- strlen src;
  for_loop (R := unit) (Z.to_nat num) 0 (fun i _ =>
    c <- load8 (src + i);
    store8 (dest + dest_len + i) c;;
    ret (Next tt)) tt;;
  store8 (dest + dest_len + num) 0;;
  ret dest.

(** The comparison of [n] characters that both functions end with *)
Definition compare_chars (s1 s2 n : Z) : MM Z :=
  r <- for_loop (Z.to_nat n) 0 (fun i _ =>
    c1 <- load8 (s1 + i);
    c2 <- load8 (s2 + i);
    let diff := schar c1 - schar c2 in
    ret (if diff =? 0 then Next tt else Return diff)) tt;
  ret (match r with inr diff => diff | inl _ => 0 end).

Definition strcmp (s1 s2 : Z) : MM Z :=
  s1_len <- strlen s1;
  s2_len <- strlen s2;
  if negb (s1_len =? s2_len) then ret (s32 (s1_len - s2_len))
  else compare_chars s1 s2 s1_len.

Definition strncmp (s1 s2 num : Z) : MM Z :=
  s1_len <- strlen s1;
  s2_len <- strlen s2;
  let s1_len := if num <? s1_len then num else s1_len in
  let s2_len := if num <? s2_len then num else s2_len in
  if negb (s1_len =? s2_len) then ret (s32 (s1_len - s2_len))
  else compare_chars s1 s2 num.

(** The length is computed again in every round; memory does not change. *)
Definition strchr (str c : Z) : MM Z :=
  len <- strlen str;
  r <- for_loop (Z.to_nat len) 0 (fun i _ =>
    _ <- strlen str;
    ret (if i =? w64 c then Return (w64 (str + i)) else Next tt)) tt;
  ret (match r with inr p => p | inl _ => 0 end).

Definition strrchr (str c : Z) : MM Z :=
  len <- strlen str;
  let first := w64 (len - 1) in
  r <- for_loop (Z.to_nat first) 0 (fun k _ =>
    let i := first - k in
    ret (if i =? w64 c then Return (w64 (str + i)) else Next tt)) tt;
  ret (match r with inr p => p | inl _ => 0 end).

(** ** Memory *)

(** [n] units of [k] bytes, upwards and downwards *)
Definition copy_up (k : nat) (dest src n : Z) : MM unit :=
  for_loop (R := unit) (Z.to_nat n) 0 (fun i _ =>
    v <- load k (src + Z.of_nat k * i);
    store k (dest + Z.of_nat k * i) v;;
    ret (Next tt)) tt;;
  ret tt.

Definition copy_down (k : nat) (dest src n : Z) : MM unit :=
  for_loop (R := unit) (Z.to_nat n) 0 (fun c _ =>
    let i := n - c in
    v <- load k (src + Z.of_nat k * (i - 1));
    store k (dest + Z.of_nat k * (i - 1)) v;;
    ret (Next tt)) tt;;
  ret tt.

Definition fill (k : nat) (dest v n : Z) : MM unit :=
  for_loop (R := unit) (Z.to_nat n) 0 (fun i _ =>
    store k (dest + Z.of_nat k * i) v;;
    ret (Next tt)) tt;;
  ret tt.

(** [memset] of string.c, for targets that have none of their own *)
Definition memset_generic (dest c n : Z) : MM Z :=
  let c := Z.land c 0xff in
  (if Z.land n 0x11 =? 0 then
     let c := Z.lor (Z.lor (Z.lor (Z.shiftl c 24) (Z.shiftl c 16)) (Z.shiftl c 8)) c in
     fill 4 dest c (Z.shiftr n 2)
   else if Z.land n 0x1 =? 0 then
     let c := Z.lor (Z.shiftl c 8) c in
     fill 2 dest c (Z.shiftr n 1)
   else fill 1 dest c n);;
  ret dest.

(** [memset] of x86_64/string.c *)
Definition memset (dest c n : Z) : MM Z :=
  let c := Z.land c 0xff in
  (if Z.land n 7 =? 0 then
     let _c := Z.lor (Z.lor (Z.lor (Z.lor (Z.lor (Z.lor (Z.lor (Z.shiftl c 56) (Z.shiftl c 48))
       (Z.shiftl c 40)) (Z.shiftl c 32)) (Z.shiftl c 24)) (Z.shiftl c 16)) (Z.shiftl c 8)) c in
     fill 8 dest _c (Z.shiftr n 3)
   else if Z.land n 3 =? 0 then
     let _c := Z.lor (Z.lor (Z.lor (Z.shiftl c 24) (Z.shiftl c 16)) (Z.shiftl c 8)) c in
     fill 4 dest c (Z.shiftr n 2)
   else if Z.land n 1 =? 0 then
     let _c := Z.lor (Z.shiftl c 8) c in
     fill 2 dest c (Z.shiftr n 1)
   else fill 1 dest c n);;
  ret dest.

Definition memcmp (s1 s2 n : Z) : MM Z :=
  r <- for_loop (Z.to_nat n) 0 (fun i _ =>
    b1 <- load8 (s1 + i);
    b2 <- load8 (s2 + i);
    ret (if schar b1 =? schar b2 then Next tt else Return (schar b1 - schar b2))) tt;
  ret (match r with inr diff => diff | inl _ => 0 end).

Definition memcpy (dest src n : Z) : MM Z :=
  (if Z.land n 3 =? 0 then copy_up 4 dest src (Z.shiftr n 2)
   else if Z.land n 1 =? 0 then copy_up 2 dest src (Z.shiftr n 1)
   else copy_up 1 dest src n);;
  ret dest.

Definition memmove (dest src n : Z) : MM Z :=
  if w64 (src + n) <? dest then memcpy dest src n
  else
    (if Z.land n 3 =? 0 then copy_down 4 dest src (Z.shiftr n 2)
     else if Z.land n 1 =? 0 then copy_down 2 dest src (Z.shiftr n 1)
     else copy_down 1 dest src n);;
    ret dest.

End CString.
