(* ===== verification/CStringTheorems.v ===== *)
(** * Theorems on the strings and memory of the C library *)

From S2P Require Import Prelude CString.
Import CString.

Module CStringT.

Implicit Types (m : gmap Z Z) (a x : Z).

(** ** Ranges of memory *)

Definition within (a n x : Z) : bool := (a <=? x) && (x <? a + n).

Lemma withinP a n x : BoolSpec (a <= x < a + n) (~ a <= x < a + n) (within a n x).
Proof.
  rewrite /within. case: Z.leb_spec => H1; case: Z.ltb_spec => H2; constructor; lia.
Qed.

(** The range has memory and does not wrap around; memory holds bytes. *)
Record range m a n : Prop := {
  r_pos : 0 <= n;
  r_lo : 0 <= a;
  r_hi : a + n <= 2 ^ 64;
  r_mem : forall x, a <= x < a + n -> is_Some (m !! x)
}.

Definition bytes m : Prop := forall x b, m !! x = Some b -> 0 <= b < 256.

Lemma range_sub m a n b k : range m a n -> a <= b -> 0 <= k -> b + k <= a + n -> range m b k.
Proof. move=> [? ? ? Hm] ? ? ?. split; try lia. move=> x Hx. apply: Hm. lia. Qed.

(** The same addresses have memory. *)
Definition same_dom m m' : Prop := forall x, is_Some (m' !! x) <-> is_Some (m !! x).

Lemma range_dom m m' a n : same_dom m m' -> range m a n -> range m' a n.
Proof. move=> Hd [? ? ? Hm]. split => // x Hx. apply/Hd. exact: Hm. Qed.

(** ** Accesses *)

Lemma load8_ok m a : range m a 1 -> exists b, load8 a m = Ok (b, m) /\ m !! a = Some b.
Proof.
  move=> [? ? ? Hm]. destruct (Hm a ltac:(lia)) as [b Hb]. exists b. rewrite /load8 w64_small ?Hb //.
  unfold in64. lia.
Qed.

Lemma store8_ok m a v : range m a 1 -> store8 a v m = Ok (tt, <[a := v mod 256]> m).
Proof.
  move=> [? ? ? Hm]. destruct (Hm a ltac:(lia)) as [b Hb]. rewrite /store8 w64_small ?Hb //. unfold in64. lia.
Qed.

(** The byte [r] of a value *)
Definition byte_of (v r : Z) : Z := (v / 256 ^ r) mod 256.

Lemma byte_of_0 v : byte_of v 0 = v mod 256.
Proof. by rewrite /byte_of Z.pow_0_r Z.div_1_r. Qed.

Lemma byte_of_next v r : 0 <= r -> byte_of v (r + 1) = byte_of (v / 256) r.
Proof.
  move=> Hr. rewrite /byte_of Z.pow_add_r // Z.mul_comm -Z.div_div //. have := Z.pow_pos_nonneg 256 r. lia.
Qed.

Lemma byte_of_cons b v r : 0 <= b < 256 -> byte_of (b + 256 * v) r = if r =? 0 then b else byte_of v (r - 1).
Proof.
  move=> Hb. case: Z.eqb_spec => [->|Hr].
  - by rewrite byte_of_0 (Z.mul_comm 256) Z.mod_add // Z.mod_small.
  - case: (Z.lt_ge_cases r 0) => Hneg.
    + rewrite /byte_of !Z.pow_neg_r; [lia | lia |]. by rewrite !Z.div_0_r.
    + rewrite -{1}(Z.sub_add 1 r) byte_of_next; first lia. f_equal.
      by rewrite (Z.mul_comm 256) Z.div_add // Z.div_small.
Qed.

Lemma load_ok k m a :
  bytes m -> range m a (Z.of_nat k) ->
  exists v, load k a m = Ok (v, m) /\ forall r, 0 <= r < Z.of_nat k -> m !! (a + r) = Some (byte_of v r).
Proof.
  move=> Hb. elim: k a => [|k IH] a Hr; first by exists 0; split => // r ?; lia.
  destruct (load8_ok m a) as (b & Eb & Hab); first (apply: range_sub Hr _ _ _; lia).
  destruct (IH (a + 1)) as (v & Ev & Hv); first (apply: range_sub Hr _ _ _; lia).
  exists (b + 256 * v). rewrite /= (bind_ok _ _ _ _ _ Eb) (bind_ok _ _ _ _ _ Ev). split; [done|]. move=> r Hrk.
  rewrite byte_of_cons; first exact: Hb Hab. case: Z.eqb_spec => [->|Hne]; first by rewrite Z.add_0_r.
  rewrite (_ : a + r = a + 1 + (r - 1)); first lia. apply: Hv. lia.
Qed.

Lemma store_word_ok k m a v :
  range m a (Z.of_nat k) ->
  exists m', store k a v m = Ok (tt, m') /\
    forall x, m' !! x = if within a (Z.of_nat k) x then Some (byte_of v (x - a)) else m !! x.
Proof.
  elim: k m a v => [|k IH] m a v Hr.
  { exists m. split; [done|]. move=> x. case: withinP => // ?. lia. }
  have H8 := store8_ok m a v ltac:(apply: range_sub Hr _ _ _; lia).
  destruct (IH (<[a := v mod 256]> m) (a + 1) (v / 256)) as (m' & Em & Hm).
  { apply: (range_dom m); last (apply: range_sub Hr _ _ _; lia). move=> x.
    case: (decide (x = a)) => [->|Hne]; last by rewrite lookup_insert_ne.
    rewrite lookup_insert_eq. split; [move=> _ | by eexists]. case: Hr => ? ? ? Hmm. apply: Hmm. lia. }
  exists m'. rewrite /= (bind_ok _ _ _ _ _ H8) Em. split; [done|]. move=> x. rewrite Hm.
  case: (withinP (a + 1)) => H1; case: (withinP a) => H2; try lia.
  - rewrite -byte_of_next; first lia. do 2 f_equal. lia.
  - rewrite (_ : x = a); first lia. by rewrite lookup_insert_eq Z.sub_diag byte_of_0.
  - rewrite lookup_insert_ne //. lia.
Qed.

(** ** Copies *)

(** [m'] is [m] with [n] bytes from [src] at [dest]. *)
Definition copied m dest src n m' : Prop :=
  forall x, m' !! x = if within dest n x then m !! (src + (x - dest)) else m !! x.

(** What writing the range [dest] keeps of [m] *)
Definition outside m dest n m' : Prop := forall x, ~ dest <= x < dest + n -> m' !! x = m !! x.

Lemma copied_dom m dest src n m' : range m dest n -> range m src n -> copied m dest src n m' -> same_dom m m'.
Proof.
  move=> [_ _ _ Hd] [_ _ _ Hs] Hc x. rewrite Hc. case: withinP => Hx; last done.
  split => _; [exact: Hd | apply: Hs; lia].
Qed.

Lemma copied_bytes m dest src n m' : bytes m -> copied m dest src n m' -> bytes m'.
Proof. move=> Hb Hc x b. rewrite Hc. case: withinP => _; exact: Hb. Qed.

(** One unit: all of it is read before any of it is written. *)
Lemma unit_ok k m dest src :
  bytes m -> range m src (Z.of_nat k) -> range m dest (Z.of_nat k) ->
  runs (v <- load k src; store k dest v) m (fun _ => copied m dest src (Z.of_nat k)).
Proof.
  move=> Hb Hs Hd. destruct (load_ok k m src Hb Hs) as (v & Ev & Hv). rewrite /runs (bind_ok _ _ _ _ _ Ev).
  destruct (store_word_ok k m dest v Hd) as (m' & Em & Hm). exists tt, m'. split; [done|]. move=> x. rewrite Hm.
  case: withinP => Hx; last done. rewrite Hv //. lia.
Qed.

(** Upwards, when what is still to be read is not yet written *)
Lemma copy_up_ok k m dest src n :
  bytes m -> 0 <= n -> range m src (Z.of_nat k * n) -> range m dest (Z.of_nat k * n) ->
  dest <= src \/ src + Z.of_nat k * n <= dest ->
  runs (copy_up k dest src n) m (fun _ => copied m dest src (Z.of_nat k * n)).
Proof.
  move=> Hb Hn Hs Hd Hov. rewrite /copy_up. have HK := Zle_0_nat k.
  apply: (runs_bind _ _ _ (fun r m' => copied m dest src (Z.of_nat k * n) m')); last by move=> r m' Hc; apply: runs_ret.
  apply: (for_loop_rule (fun i _ m' => copied m dest src (Z.of_nat k * i) m')).
  - move=> x. rewrite Z.mul_0_r. case: withinP => // ?. lia.
  - move=> i [] m1 Hi Hc. rewrite Z2Nat.id // in Hi.
    have Hr1 : range m dest (Z.of_nat k * i) by apply: (range_sub _ _ _ _ _ Hd); nia.
    have Hr2 : range m src (Z.of_nat k * i) by apply: (range_sub _ _ _ _ _ Hs); nia.
    have Hdom := copied_dom _ _ _ _ _ Hr1 Hr2 Hc.
    destruct (unit_ok k m1 (dest + Z.of_nat k * i) (src + Z.of_nat k * i)) as (u & m2 & E2 & H2).
    + exact: copied_bytes Hb Hc.
    + apply: (range_dom m) => //. apply: (range_sub _ _ _ _ _ Hs); nia.
    + apply: (range_dom m) => //. apply: (range_sub _ _ _ _ _ Hd); nia.
    + exists (Next tt), m2. split.
      { rewrite -bind_assoc (bind_ok _ _ _ _ _ E2). done. }
      move=> x. rewrite H2.  case: withinP => Hx.
      * rewrite Hc. case: withinP => Hx2; first nia. case: withinP => Hx3; last nia. f_equal. lia.
      * rewrite Hc. case: withinP => Hx2; case: withinP => Hx3; (done || nia).
  - move=> [] m1. rewrite Z.add_0_l Z2Nat.id //.
Qed.

Lemma copy_down_ok k m dest src n :
  bytes m -> 0 <= n -> range m src (Z.of_nat k * n) -> range m dest (Z.of_nat k * n) ->
  src <= dest \/ dest + Z.of_nat k * n <= src ->
  runs (copy_down k dest src n) m (fun _ => copied m dest src (Z.of_nat k * n)).
Proof.
  move=> Hb Hn Hs Hd Hov. rewrite /copy_down. have HK := Zle_0_nat k.
  apply: (runs_bind _ _ _ (fun r m' => copied m dest src (Z.of_nat k * n) m')); last by move=> r m' Hc; apply: runs_ret.
  apply: (for_loop_rule (fun i _ m' => copied m (dest + Z.of_nat k * (n - i)) (src + Z.of_nat k * (n - i)) (Z.of_nat k * i) m')).
  - move=> x. rewrite Z.mul_0_r. case: withinP => // ?. lia.
  - move=> i [] m1 Hi Hc. rewrite Z2Nat.id // in Hi.
    have Hr1 : range m (dest + Z.of_nat k * (n - i)) (Z.of_nat k * i) by apply: (range_sub _ _ _ _ _ Hd); nia.
    have Hr2 : range m (src + Z.of_nat k * (n - i)) (Z.of_nat k * i) by apply: (range_sub _ _ _ _ _ Hs); nia.
    have Hdom := copied_dom _ _ _ _ _ Hr1 Hr2 Hc.
    destruct (unit_ok k m1 (dest + Z.of_nat k * (n - i - 1)) (src + Z.of_nat k * (n - i - 1))) as (u & m2 & E2 & H2).
    + exact: copied_bytes Hb Hc.
    + apply: (range_dom m) => //. apply: (range_sub _ _ _ _ _ Hs); nia.
    + apply: (range_dom m) => //. apply: (range_sub _ _ _ _ _ Hd); nia.
    + exists (Next tt), m2. split.
      { rewrite -bind_assoc (bind_ok _ _ _ _ _ E2). done. }
      move=> x. rewrite H2.  case: withinP => Hx.
      * rewrite Hc. case: withinP => Hx2; first nia. case: withinP => Hx3; last nia. f_equal. lia.
      * rewrite Hc. case: withinP => Hx2; case: withinP => Hx3; try nia; f_equal; lia.
  - move=> [] m1. rewrite Z.add_0_l Z2Nat.id // Z.sub_diag Z.mul_0_r !Z.add_0_r. done.
Qed.

(** The tests on the low bits of a size and the shifts that go with them *)
Lemma low_bits n k j : 0 <= j -> k = 2 ^ j -> Z.land n (k - 1) = n mod k /\ Z.shiftr n j = n / k.
Proof.
  move=> Hj ->. rewrite Z.shiftr_div_pow2 // -Z.land_ones // Z.ones_equiv. by rewrite Z.sub_1_r.
Qed.

Lemma size_4 n : Z.land n 3 = n mod 4 /\ Z.shiftr n 2 = n / 4.
Proof. exact: (low_bits n 4 2). Qed.
Lemma size_2 n : Z.land n 1 = n mod 2 /\ Z.shiftr n 1 = n / 2.
Proof. exact: (low_bits n 2 1). Qed.
Lemma size_8 n : Z.land n 7 = n mod 8 /\ Z.shiftr n 3 = n / 8.
Proof. exact: (low_bits n 8 3). Qed.

Lemma units n k : 0 < k -> n mod k = 0 -> k * (n / k) = n.
Proof. move=> Hk Hm. have := Z.div_mod n k ltac:(lia). lia. Qed.

(** A loop over units that does what [P] says of the size does so for every
    size, with the unit the size allows. *)
Lemma by_units (f : nat -> Z -> MM unit) m (P : Z -> mem -> Prop) n :
  0 <= n ->
  (forall k c, (0 < k)%nat -> 0 <= c -> Z.of_nat k * c = n -> runs (f k c) m (fun _ => P n)) ->
  runs (if Z.land n 3 =? 0 then f 4%nat (Z.shiftr n 2) else if Z.land n 1 =? 0 then f 2%nat (Z.shiftr n 1) else f 1%nat n)
    m (fun _ => P n).
Proof.
  move=> Hn Hf. destruct (size_4 n) as [-> ->], (size_2 n) as [-> ->].
  case: Z.eqb_spec => H4; first (apply: Hf; [lia | exact: Z.div_pos | exact: units]).
  case: Z.eqb_spec => H2; first (apply: Hf; [lia | exact: Z.div_pos | exact: units]).
  apply: Hf; lia.
Qed.

Lemma memcpy_ok m dest src n :
  bytes m -> range m src n -> range m dest n -> dest <= src \/ src + n <= dest ->
  runs (memcpy dest src n) m (fun r m' => r = dest /\ copied m dest src n m').
Proof.
  move=> Hb Hs Hd Hov. apply: (runs_bind _ _ _ (fun _ => copied m dest src n)).
  - apply: (by_units (fun k c => copy_up k dest src c) m (fun n => copied m dest src n)); first by case: Hs.
    move=> k c Hk Hc En. subst n. exact: copy_up_ok.
  - move=> [] m' Hc. by apply: runs_ret.
Qed.

Lemma memmove_ok m dest src n :
  bytes m -> range m src n -> range m dest n -> src <= dest \/ dest + n <= src ->
  runs (memmove dest src n) m (fun r m' => r = dest /\ copied m dest src n m').
Proof.
  move=> Hb Hs Hd Hov. rewrite /memmove. case: Z.ltb_spec => Hlt.
  - apply: memcpy_ok => //. case: (Hs) => ? ? Hhi _. case: (Hd) => ? ? ? _.
    case: (Z.eq_dec (src + n) (2 ^ 64)) => He; first by left; lia.
    rewrite w64_small in Hlt; [unfold in64|]; lia.
  - apply: (runs_bind _ _ _ (fun _ => copied m dest src n)).
    + apply: (by_units (fun k c => copy_down k dest src c) m (fun n => copied m dest src n)); first by case: Hs.
      move=> k c Hk Hc En. subst n. exact: copy_down_ok.
    + move=> [] m' Hc. by apply: runs_ret.
Qed.

(** ** Filling *)

(** [m'] is [m] with the bytes [f 0], ..., [f (n - 1)] at [dest]. *)
Definition written m dest n (f : Z -> Z) m' : Prop :=
  forall x, m' !! x = if within dest n x then Some (f (x - dest)) else m !! x.

Lemma fill_ok k m dest v n :
  0 <= n -> (0 < k)%nat -> range m dest (Z.of_nat k * n) ->
  runs (fill k dest v n) m (fun _ => written m dest (Z.of_nat k * n) (fun i => byte_of v (i mod Z.of_nat k))).
Proof.
  move=> Hn Hk Hd. rewrite /fill.
  apply: (runs_bind _ _ _ (fun r => written m dest (Z.of_nat k * n) (fun i => byte_of v (i mod Z.of_nat k))));
    last by move=> r m' Hc; apply: runs_ret.
  apply: (for_loop_rule (fun i _ => written m dest (Z.of_nat k * i) (fun i => byte_of v (i mod Z.of_nat k)))).
  - move=> x. rewrite Z.mul_0_r. case: withinP => // ?. lia.
  - move=> i [] m1 Hi Hc. rewrite Z2Nat.id // in Hi.
    destruct (store_word_ok k m1 (dest + Z.of_nat k * i) v) as (m2 & E2 & H2).
    { apply: (range_dom m); last (apply: (range_sub _ _ _ _ _ Hd); nia). move=> x. rewrite Hc.
      case: withinP => Hx //. split => _; [|by eexists]. case: Hd => _ _ _ Hm. apply: Hm. nia. }
    exists (Next tt), m2. split; first by rewrite (bind_ok _ _ _ _ _ E2).
    move=> x. rewrite H2 Hc. case: withinP => Hx.
    + case: withinP => Hx2; last nia. do 2 f_equal. apply: (Z.mod_unique _ _ i); lia.
    + case: withinP => Hx2; case: withinP => Hx3; try done; nia.
  - move=> [] m1. by rewrite Z.add_0_l Z2Nat.id.
Qed.

(** A property of the bytes is checked for each of them. *)
Lemma all_bytes (f : Z -> bool) n :
  forallb (fun i => f (Z.of_nat i)) (seq 0 n) = true -> forall c, 0 <= c < Z.of_nat n -> f c = true.
Proof.
  rewrite forallb_forall => Hf c Hc. rewrite -(Z2Nat.id c); first lia. apply: Hf. apply in_seq. lia.
Qed.

Definition spread4 c : Z := Z.lor (Z.lor (Z.lor (Z.shiftl c 24) (Z.shiftl c 16)) (Z.shiftl c 8)) c.
Definition spread2 c : Z := Z.lor (Z.shiftl c 8) c.
Definition spread8 c : Z :=
  Z.lor (Z.lor (Z.lor (Z.lor (Z.lor (Z.lor (Z.lor (Z.shiftl c 56) (Z.shiftl c 48))
       (Z.shiftl c 40)) (Z.shiftl c 32)) (Z.shiftl c 24)) (Z.shiftl c 16)) (Z.shiftl c 8)) c.

Definition spread_check (f : Z -> Z) (k : nat) (c : Z) : bool :=
  forallb (fun r => byte_of (f c) (Z.of_nat r) =? c) (seq 0 k).

Lemma spread_ok f k c r :
  forallb (fun i => spread_check f k (Z.of_nat i)) (seq 0 256) = true ->
  0 <= c < 256 -> 0 <= r < Z.of_nat k -> byte_of (f c) r = c.
Proof.
  move=> Hf Hc Hr. have := all_bytes (spread_check f k) 256 Hf c Hc.
  rewrite /spread_check => Hs. apply Z.eqb_eq. exact: (all_bytes (fun r => byte_of (f c) r =? c) k Hs r Hr).
Qed.

Lemma spread2_ok : forallb (fun i => spread_check spread2 2 (Z.of_nat i)) (seq 0 256) = true.
Proof. vm_compute. reflexivity. Qed.
Lemma spread4_ok : forallb (fun i => spread_check spread4 4 (Z.of_nat i)) (seq 0 256) = true.
Proof. vm_compute. reflexivity. Qed.
Lemma spread8_ok : forallb (fun i => spread_check spread8 8 (Z.of_nat i)) (seq 0 256) = true.
Proof. vm_compute. reflexivity. Qed.

Lemma low_byte c r : 0 <= c < 256 -> 0 <= r -> byte_of c r = if r =? 0 then c else 0.
Proof.
  move=> Hc Hr. rewrite -{1}(Z.add_0_r c) -{1}(Z.mul_0_r 256) byte_of_cons //.
Qed.

Lemma written_ext m dest n f g m' :
  (forall i, 0 <= i < n -> f i = g i) -> written m dest n f m' -> written m dest n g m'.
Proof. move=> Hfg Hw x. rewrite Hw. case: withinP => Hx //. rewrite Hfg //. lia. Qed.

(** What [memset] writes at offset [i]: the byte, but in sizes that are a
    multiple of 4 and not of 8, or even and not a multiple of 4, only once per
    unit, followed by zeros *)
Definition set_byte (c n i : Z) : Z :=
  let c := c mod 256 in
  if (n mod 8 =? 0) || (n mod 2 =? 1) then c
  else if n mod 4 =? 0 then (if i mod 4 =? 0 then c else 0)
  else (if i mod 2 =? 0 then c else 0).

Lemma land_255 c : Z.land c 0xff = c mod 256.
Proof. exact: (Z.land_ones c 8). Qed.

Lemma fill_units k m dest v n (f : Z -> Z) :
  (0 < k)%nat -> n mod Z.of_nat k = 0 -> range m dest n ->
  (forall i, 0 <= i -> byte_of v (i mod Z.of_nat k) = f i) ->
  runs (fill k dest v (n / Z.of_nat k);; ret dest) m (fun r m' => r = dest /\ written m dest n f m').
Proof.
  move=> Hk Hm Hr Hf. have Hu := units n (Z.of_nat k) ltac:(lia) Hm. have Hn := r_pos _ _ _ Hr.
  apply: (runs_bind _ _ _ (fun _ => written m dest n f)); last by move=> [] m' Hw; apply: runs_ret.
  rewrite -{2}Hu. apply: runs_mono; first (apply: fill_ok; [apply Z.div_pos; lia | lia | by rewrite Hu]).
  move=> [] m'. apply: written_ext => i Hi. apply: Hf. lia.
Qed.

Lemma memset_ok m dest c n :
  range m dest n -> runs (memset dest c n) m (fun r m' => r = dest /\ written m dest n (set_byte c n) m').
Proof.
  move=> Hr. rewrite /memset land_255. have Hc := Z.mod_pos_bound c 256 ltac:(lia).
  destruct (size_8 n) as [-> ->], (size_4 n) as [-> ->], (size_2 n) as [-> ->].
  have H8 := Z.mod_pos_bound n 8 ltac:(lia). have Hd8 := Z.div_mod n 8 ltac:(lia).
  have H4 := Z.mod_pos_bound n 4 ltac:(lia). have Hd4 := Z.div_mod n 4 ltac:(lia).
  have H2 := Z.mod_pos_bound n 2 ltac:(lia). have Hd2 := Z.div_mod n 2 ltac:(lia).
  case: (Z.eqb_spec (n mod 8)) => E8.
  { apply: (fill_units 8); [lia | done | done | move=> i Hi]. rewrite /set_byte E8 /=. apply: (spread_ok spread8 8); [exact: spread8_ok | done | by apply Z.mod_pos_bound]. }
  case: (Z.eqb_spec (n mod 4)) => E4.
  { apply: (fill_units 4); [lia | done | done | move=> i Hi]. rewrite /set_byte (proj2 (Z.eqb_neq _ _) E8) (_ : n mod 2 = 0); first lia.
    rewrite E4 /= low_byte //. apply Z.mod_pos_bound. lia. }
  case: (Z.eqb_spec (n mod 2)) => E2.
  { apply: (fill_units 2); [lia | done | done | move=> i Hi]. rewrite /set_byte (proj2 (Z.eqb_neq _ _) E8) (proj2 (Z.eqb_neq _ _) E4) E2 /=.
    rewrite low_byte //. apply Z.mod_pos_bound. lia. }
  rewrite -{1}(Z.div_1_r n). apply: (fill_units 1); [lia | exact: Z.mod_1_r | done | move=> i Hi].
  rewrite Z.mod_1_r byte_of_0 Z.mod_small // /set_byte (_ : n mod 2 = 1); first lia. by rewrite orb_true_r.
Qed.

(** The bytes that [memset] of string.c reaches *)
Definition generic_reach (n : Z) : Z := if Z.land n 0x11 =? 0 then n - n mod 4 else n.

Lemma memset_generic_ok m dest c n :
  range m dest n ->
  runs (memset_generic dest c n) m (fun r m' => r = dest /\ written m dest (generic_reach n) (fun _ => c mod 256) m').
Proof.
  move=> Hr. rewrite /memset_generic /generic_reach land_255. have Hc := Z.mod_pos_bound c 256 ltac:(lia).
  destruct (size_4 n) as [_ ->], (size_2 n) as [-> ->].
  have H4 := Z.mod_pos_bound n 4 ltac:(lia). have Hd4 := Z.div_mod n 4 ltac:(lia). have Hn := r_pos _ _ _ Hr.
  case: (Z.eqb_spec (Z.land n 17)) => E17.
  { have En : (n - n mod 4) / 4 = n / 4 by rewrite {1}Hd4 Z.add_simpl_r Z.mul_comm Z.div_mul.
    rewrite -En. apply: (fill_units 4); first lia.
    - by rewrite {1}Hd4 Z.add_simpl_r Z.mul_comm Z.mod_mul.
    - apply: (range_sub _ _ _ _ _ Hr); lia.
    - move=> i Hi. apply: (spread_ok spread4 4); [exact: spread4_ok | done | by apply Z.mod_pos_bound]. }
  case: (Z.eqb_spec (n mod 2)) => E2.
  - apply: (fill_units 2); [lia | done | done | move=> i Hi]. apply: (spread_ok spread2 2); [exact: spread2_ok | done | by apply Z.mod_pos_bound].
  - rewrite -{1}(Z.div_1_r n). apply: (fill_units 1); [lia | exact: Z.mod_1_r | done | move=> i Hi].
    by rewrite Z.mod_1_r byte_of_0 Z.mod_small.
Qed.

(** ** Strings *)

(** The string [l] is at [a]. *)
Record cstr m a (l : list Z) : Prop := {
  cs_lo : 0 <= a;
  cs_hi : a + Z.of_nat (length l) < 2 ^ 64;
  cs_at : forall i b, l !! i = Some b -> m !! (a + Z.of_nat i) = Some b;
  cs_char : Forall (fun b => b <> 0) l;
  cs_end : m !! (a + Z.of_nat (length l)) = Some 0
}.

(** Distinct addresses with memory are at most as many as there are bytes. *)
Lemma walk_bound m (f : Z -> Z) (n : nat) :
  (forall i, 0 <= i < Z.of_nat n -> is_Some (m !! f i)) ->
  (forall i j, 0 <= i < Z.of_nat n -> 0 <= j < Z.of_nat n -> f i = f j -> i = j) -> (n <= size m)%nat.
Proof.
  move=> Hm Hinj. set l := (fun i => f (Z.of_nat i)) <$> seq 0 n.
  have Hnd : NoDup l.
  { apply: NoDup_fmap_2_strong; last exact: NoDup_seq. move=> i j /elem_of_seq Hi /elem_of_seq Hj E.
    have := Hinj (Z.of_nat i) (Z.of_nat j) ltac:(lia) ltac:(lia) E. lia. }
  have Hlen : length l = n by rewrite /l length_fmap length_seq.
  rewrite -Hlen -(size_list_to_set (C := gset Z) l) // -(size_dom (D := gset Z)). apply: subseteq_size => x.
  rewrite elem_of_list_to_set elem_of_dom => Hx. apply list_elem_of_fmap in Hx as [i [-> Hi]].
  apply elem_of_seq in Hi. apply: Hm. lia.
Qed.

Lemma cstr_char m a l i b : cstr m a l -> l !! i = Some b -> m !! (a + Z.of_nat i) = Some b /\ b <> 0.
Proof.
  move=> Hc Hi. split; first exact: (cs_at _ _ _ Hc). exact: (Forall_lookup_1 _ _ _ _ (cs_char _ _ _ Hc) Hi).
Qed.

Lemma cstr_range m a l : cstr m a l -> range m a (Z.of_nat (length l) + 1).
Proof.
  move=> [? ? Hat _ Hend]. split; try lia. move=> x Hx.
  case: (decide (x = a + Z.of_nat (length l))) => [->|Hne]; first by rewrite Hend.
  destruct (lookup_lt_is_Some_2 l (Z.to_nat (x - a))) as [b Hb]; first lia. apply Hat in Hb.
  rewrite Z2Nat.id in Hb; first lia. rewrite (_ : a + (x - a) = x) in Hb; first lia. by rewrite Hb.
Qed.

Lemma cstr_bound m a l : cstr m a l -> (length l < size m)%nat.
Proof.
  move=> Hc. apply: (walk_bound m (fun i => a + i) (S (length l))); last by move=> *; lia.
  move=> i Hi. apply: (r_mem _ _ _ (cstr_range _ _ _ Hc)). lia.
Qed.

(** Reading a character of the string, or its end *)
Lemma load_char m a l i :
  cstr m a l -> 0 <= i <= Z.of_nat (length l) ->
  load8 (a + i) m = Ok (default 0 (l !! Z.to_nat i), m) /\
  (default 0 (l !! Z.to_nat i) = 0 <-> i = Z.of_nat (length l)).
Proof.
  move=> Hc Hi. case: (Hc) => ? ? Hat _ Hend. rewrite /load8 w64_small; first (unfold in64; lia).
  destruct (l !! Z.to_nat i) as [b|] eqn:Hb.
  - have Hlt := lookup_lt_Some _ _ _ Hb. destruct (cstr_char _ _ _ _ _ Hc Hb) as [Hm Hnz].
    rewrite Z2Nat.id in Hm; first lia. rewrite Hm /=. split; [done|]. split; [done | lia].
  - apply lookup_ge_None_1 in Hb. rewrite (_ : i = Z.of_nat (length l)); first lia. by rewrite Hend.
Qed.

Lemma strlen_ok m a l : cstr m a l -> strlen a m = Ok (Z.of_nat (length l), m).
Proof.
  move=> Hc. case: (Hc) => ? ? _ _ _. rewrite /strlen /walk.
  have Hr : runs (loop (S (size m)) (fun i => c <- load8 (a + i);
      let i := w64 (i + 1) in ret (if c =? 0 then inr (w64 (i - 1)) else inl i)) 0) m
      (fun r m' => r = Z.of_nat (length l) /\ m' = m).
  { apply: (loop_rule (fun i m' => m' = m /\ 0 <= i <= Z.of_nat (length l)) (fun i => (length l - Z.to_nat i)%nat)).
    - split; [done | lia].
    - have := cstr_bound _ _ _ Hc. lia.
    - move=> i m' [-> Hi]. destruct (load_char _ _ _ _ Hc Hi) as [El Hz].
      rewrite /runs (bind_ok _ _ _ _ _ El). eexists _, _. split; [done|].
      case: Z.eqb_spec => E0.
      + apply Hz in E0. subst i. rewrite w64_add_l w64_small; [unfold in64; lia|]. split; [lia | done].
      + rewrite w64_small; first (unfold in64; lia). have : i <> Z.of_nat (length l) by tauto.
        move=> Hne. split; [split; [done | lia] | lia]. }
  destruct Hr as (r & m' & Er & -> & ->). exact Er.
Qed.

(** [l] and then zeros *)
Definition chars (l : list Z) (i : Z) : Z := default 0 (l !! Z.to_nat i).

Lemma written_cstr m a l m' :
  0 <= a -> a + Z.of_nat (length l) < 2 ^ 64 -> Forall (fun b => b <> 0) l ->
  written m a (Z.of_nat (length l) + 1) (chars l) m' -> cstr m' a l.
Proof.
  move=> Hlo Hhi Hc Hw. split => //.
  - move=> i b Hi. have Hlt := lookup_lt_Some _ _ _ Hi. rewrite Hw. case: withinP => Hx; last lia.
    rewrite /chars (_ : Z.to_nat (a + Z.of_nat i - a) = i); first lia. by rewrite Hi.
  - rewrite Hw. case: withinP => Hx; last lia. rewrite /chars lookup_ge_None_2 //. lia.
Qed.

(** A range that writing does not touch *)
Lemma written_outside m dest n f m' x : written m dest n f m' -> ~ dest <= x < dest + n -> m' !! x = m !! x.
Proof. move=> Hw Hx. rewrite Hw. by case: withinP. Qed.

Lemma written_dom m dest n f m' : range m dest n -> written m dest n f m' -> same_dom m m'.
Proof. move=> [_ _ _ Hm] Hw x. rewrite Hw. case: withinP => Hx; last done. split => _; [exact: Hm | by eexists]. Qed.

Lemma cstr_outside m m' a l dest n :
  cstr m a l -> (forall x, ~ dest <= x < dest + n -> m' !! x = m !! x) ->
  a + Z.of_nat (length l) < dest \/ dest + n <= a -> cstr m' a l.
Proof.
  move=> [? ? Hat Hc Hend] Ho Hsep. split => //.
  - move=> i b Hi. have Hlt := lookup_lt_Some _ _ _ Hi. rewrite Ho; first lia. exact: Hat.
  - rewrite Ho //. lia.
Qed.

(** Writing one more byte *)
Lemma written_next m dest i f m' :
  0 <= i -> written m dest i f m' -> 0 <= f i < 256 -> written m dest (i + 1) f (<[dest + i := f i mod 256]> m').
Proof.
  move=> Hi Hw Hf x. case: (decide (x = dest + i)) => [->|Hne].
  - rewrite lookup_insert_eq Z.mod_small //. case: withinP => Hx; last lia. do 2 f_equal. lia.
  - rewrite lookup_insert_ne // Hw. case: withinP => Hx; case: withinP => Hx2; (done || lia).
Qed.

Lemma chars_byte m a l i : bytes m -> cstr m a l -> 0 <= chars l i < 256.
Proof.
  move=> Hb Hc. rewrite /chars. destruct (l !! Z.to_nat i) as [b|] eqn:Hi; last by [].
  exact: Hb (proj1 (cstr_char _ _ _ _ _ Hc Hi)).
Qed.

Lemma strcpy_ok m dest src l :
  bytes m -> cstr m src l -> range m dest (Z.of_nat (length l) + 1) ->
  src + Z.of_nat (length l) < dest \/ dest + Z.of_nat (length l) < src ->
  runs (strcpy dest src) m (fun r m' => r = dest /\ written m dest (Z.of_nat (length l) + 1) (chars l) m').
Proof.
  move=> Hb Hc Hd Hsep. rewrite /strcpy.
  apply: (runs_bind _ _ _ (fun _ => written m dest (Z.of_nat (length l) + 1) (chars l))); last by move=> [] m' Hw; apply: runs_ret.
  rewrite /walk.
  have Hcr := cstr_range _ _ _ Hc. case: (Hcr) => _ Hs0 Hs1 _. case: (Hd) => _ Hd0 Hd1 _.
  apply: (loop_rule (fun st m' => exists i, 0 <= i <= Z.of_nat (length l) /\ st = (dest + i, src + i) /\
      written m dest i (chars l) m') (fun st => Z.to_nat (src + Z.of_nat (length l) - st.2))).
  - exists 0. split; [lia|]. split; [by rewrite !Z.add_0_r|]. move=> x. case: withinP => // ?. lia.
  - have := cstr_bound _ _ _ Hc. simpl. lia.
  - move=> st m' [i [Hi [-> Hw]]].
    have Hc' : cstr m' src l.
    { apply: (cstr_outside m m' _ _ dest i Hc); last lia. move=> x Hx. exact: written_outside Hw Hx. }
    destruct (load_char _ _ _ _ Hc' Hi) as [El Hz]. rewrite -/(chars l i) in El Hz.
    have Hr8 : range m' (dest + i) 1.
    { apply: (range_dom m); last (apply: (range_sub _ _ _ _ _ Hd); lia).
      apply: (written_dom _ _ _ _ _ _ Hw). apply: (range_sub _ _ _ _ _ Hd); lia. }
    rewrite /runs (bind_ok _ _ _ _ _ El) (bind_ok _ _ _ _ _ (store8_ok _ _ (chars l i) Hr8)).
    eexists _, _. split; [done|].
    have Hw' := written_next _ _ _ _ _ (proj1 Hi) Hw (chars_byte _ _ _ i Hb Hc).
    case: Z.eqb_spec => E0.
    + apply Hz in E0. by subst i.
    + have Hne : i <> Z.of_nat (length l) by tauto. rewrite !w64_small; [unfold in64; lia | unfold in64; lia |].
      split; [|simpl; lia]. exists (i + 1). split; [lia|]. split; [f_equal; lia | done].
Qed.

(** A byte of a range that code has partly written *)
Lemma store_next m dest n i f m' :
  range m dest n -> 0 <= i < n -> written m dest i f m' -> 0 <= f i < 256 ->
  store8 (dest + i) (f i) m' = Ok (tt, <[dest + i := f i mod 256]> m') /\
  written m dest (i + 1) f (<[dest + i := f i mod 256]> m').
Proof.
  move=> Hd Hi Hw Hf. split; last (apply: written_next => //; lia). apply: store8_ok.
  apply: (range_dom m); last (apply: (range_sub _ _ _ _ _ Hd); lia).
  apply: (written_dom _ _ _ _ _ _ Hw). apply: (range_sub _ _ _ _ _ Hd); lia.
Qed.

(** A string continued where it ended *)
Lemma cstr_app m dest d l m' :
  cstr m dest d -> dest + Z.of_nat (length d) + Z.of_nat (length l) < 2 ^ 64 -> Forall (fun b => b <> 0) l ->
  written m (dest + Z.of_nat (length d)) (Z.of_nat (length l) + 1) (chars l) m' -> cstr m' dest (d ++ l).
Proof.
  move=> [? ? Hat Hch _] Hhi Hcl Hw. split; rewrite ?length_app ?Nat2Z.inj_add; try lia.
  - move=> i c. rewrite lookup_app. destruct (d !! i) as [c'|] eqn:Ei.
    + move=> [<-]. have Hlt := lookup_lt_Some _ _ _ Ei. rewrite (written_outside _ _ _ _ _ _ Hw); first lia.
      exact: Hat.
    + move=> Hl. have Hlt := lookup_lt_Some _ _ _ Hl. apply lookup_ge_None_1 in Ei. rewrite Hw.
      case: withinP => Hx; last lia.
      rewrite /chars (_ : Z.to_nat _ = (i - length d)%nat); first lia. by rewrite Hl.
  - by apply Forall_app.
  - rewrite Hw. case: withinP => Hx; last lia. rewrite /chars lookup_ge_None_2 //. lia.
Qed.

Lemma strcat_ok m dest src d l :
  bytes m -> cstr m dest d -> cstr m src l -> range m dest (Z.of_nat (length d) + Z.of_nat (length l) + 1) ->
  src + Z.of_nat (length l) < dest \/ dest + Z.of_nat (length d) + Z.of_nat (length l) < src ->
  runs (strcat dest src) m (fun r m' => r = dest /\ cstr m' dest (d ++ l) /\
    outside m (dest + Z.of_nat (length d)) (Z.of_nat (length l) + 1) m').
Proof.
  move=> Hb Hcd Hc Hd Hsep. rewrite /strcat.
  rewrite /runs (bind_ok _ _ _ _ _ (strlen_ok _ _ _ Hcd)) (bind_ok _ _ _ _ _ (strlen_ok _ _ _ Hc)).
  set D := dest + Z.of_nat (length d). case: (Hd) => _ Hd0 Hd1 _.
  have HD : range m D (Z.of_nat (length l) + 1) by apply: (range_sub _ _ _ _ _ Hd); lia.
  change (runs (bind (walk (fun i => c <- load8 (src + i); if c =? 0 then ret (inr tt)
    else c <- load8 (src + i); store8 (D + i) c;; ret (inl (w64 (i + 1)))) 0)
    (fun _ => store8 (dest + Z.of_nat (length l) + Z.of_nat (length d)) 0;; ret dest)) m
    (fun r m' => r = dest /\ cstr m' dest (d ++ l) /\ outside m D (Z.of_nat (length l) + 1) m')).
  case: (cstr_range _ _ _ Hc) => _ Hs0 Hs1 _.
  apply: (runs_bind _ _ _ (fun _ => written m D (Z.of_nat (length l)) (chars l))).
  - apply: (loop_rule (fun i m' => 0 <= i <= Z.of_nat (length l) /\ written m D i (chars l) m')
      (fun i => Z.to_nat (Z.of_nat (length l) - i))).
    + split; [lia|]. move=> x. case: withinP => // ?. lia.
    + have := cstr_bound _ _ _ Hc. lia.
    + move=> i m' [Hi Hw].
      have Hc' : cstr m' src l.
      { apply: (cstr_outside m m' _ _ D i Hc); last (unfold D; lia). move=> x Hx. exact: written_outside Hw Hx. }
      destruct (load_char _ _ _ _ Hc' Hi) as [El Hz]. rewrite -/(chars l i) in El Hz.
      rewrite /runs (bind_ok _ _ _ _ _ El). case: Z.eqb_spec => E0.
      { apply Hz in E0. subst i. by eexists _, _. }
      have Hne : i <> Z.of_nat (length l) by tauto.
      destruct (store_next _ _ _ i (chars l) _ HD ltac:(lia) Hw (chars_byte _ _ _ i Hb Hc)) as [Es Hw'].
      rewrite (bind_ok _ _ _ _ _ El) (bind_ok _ _ _ _ _ Es). eexists _, _. split; [done|].
      rewrite w64_small; first (unfold in64; lia). split; [split; [lia | done] | lia].
  - move=> [] m1 Hw. have Ez : chars l (Z.of_nat (length l)) = 0.
    { rewrite /chars lookup_ge_None_2 //. lia. }
    destruct (store_next _ _ _ (Z.of_nat (length l)) (chars l) _ HD ltac:(lia) Hw ltac:(lia)) as [Es Hw'].
    rewrite Ez in Es. rewrite /runs (_ : dest + Z.of_nat (length l) + Z.of_nat (length d) = D + Z.of_nat (length l)); first (unfold D; lia).
    rewrite (bind_ok _ _ _ _ _ Es). eexists _, _. split; [done|]. split; [done|].
    rewrite Ez in Hw'. split; last by move=> x Hx; exact: written_outside Hw' Hx.
    apply: (cstr_app _ _ _ _ _ Hcd) => //; [unfold D in *; lia | by case: Hc].
Qed.

(** ** Comparison *)

Lemma schar_inj b c : 0 <= b < 256 -> 0 <= c < 256 -> schar b - schar c = 0 -> b = c.
Proof. rewrite /schar. move=> ? ?. do 2 case: Z.ltb_spec => ?; lia. Qed.

Lemma compare_chars_ok m a b l1 l2 n :
  bytes m -> cstr m a l1 -> cstr m b l2 -> 0 <= n <= Z.of_nat (length l1) -> n <= Z.of_nat (length l2) ->
  runs (compare_chars a b n) m (fun r m' => m' = m /\ (r = 0 <-> take (Z.to_nat n) l1 = take (Z.to_nat n) l2)).
Proof.
  move=> Hb H1 H2 Hn Hn2. rewrite /compare_chars.
  apply: (runs_bind _ _ _ (fun r m' => m' = m /\ match r with
    | inl _ => take (Z.to_nat n) l1 = take (Z.to_nat n) l2
    | inr d => d <> 0 /\ take (Z.to_nat n) l1 <> take (Z.to_nat n) l2 end)).
  - apply: (for_loop_rule (fun i _ m' => m' = m /\ take (Z.to_nat i) l1 = take (Z.to_nat i) l2)).
    + by [].
    + move=> i [] m' Hi [-> Ht]. rewrite Z2Nat.id in Hi; first lia.
      destruct (load_char _ _ _ i H1 ltac:(lia)) as [E1 _], (load_char _ _ _ i H2 ltac:(lia)) as [E2 _].
      rewrite -/(chars l1 i) in E1. rewrite -/(chars l2 i) in E2.
      rewrite (bind_ok _ _ _ _ _ E1) (bind_ok _ _ _ _ _ E2). eexists _, _. split; [done|].
      destruct (lookup_lt_is_Some_2 l1 (Z.to_nat i)) as [c1 L1]; first lia.
      destruct (lookup_lt_is_Some_2 l2 (Z.to_nat i)) as [c2 L2]; first lia.
      have R1 := chars_byte m a l1 i Hb H1. have R2 := chars_byte m b l2 i Hb H2.
      have C1 : chars l1 i = c1 by rewrite /chars L1. have C2 : chars l2 i = c2 by rewrite /chars L2.
      rewrite C1 C2 in R1 R2 |- *. case: Z.eqb_spec => Hd.
      * split; [done|]. have E := schar_inj _ _ R1 R2 Hd.
        rewrite Z2Nat.inj_add; [lia | lia |]. change (Z.to_nat 1) with 1%nat. rewrite Nat.add_1_r (take_S_r _ _ _ L1) (take_S_r _ _ _ L2) Ht E //.
      * split; [done | split; [done|]]. move=> Heq.
        have : take (Z.to_nat n) l1 !! Z.to_nat i = take (Z.to_nat n) l2 !! Z.to_nat i by rewrite Heq.
        rewrite !lookup_take_lt; [lia | lia |]. rewrite L1 L2. move=> [Hc]. apply: Hd. rewrite Hc. lia.
    + move=> [] m'. by rewrite Z.add_0_l Z2Nat.id; first lia.
  - move=> [u|d] m' [-> Hr]; apply: runs_ret; split => //. case: Hr => [? ?]. by split.
Qed.

Lemma strcmp_ok m a b l1 l2 :
  bytes m -> cstr m a l1 -> cstr m b l2 -> Z.of_nat (length l1) < 2 ^ 31 -> Z.of_nat (length l2) < 2 ^ 31 ->
  runs (strcmp a b) m (fun r m' => m' = m /\ (r = 0 <-> l1 = l2)).
Proof.
  move=> Hb H1 H2 Hl1 Hl2. rewrite /strcmp.
  rewrite /runs (bind_ok _ _ _ _ _ (strlen_ok _ _ _ H1)) (bind_ok _ _ _ _ _ (strlen_ok _ _ _ H2)).
  case: Z.eqb_spec => Hlen.
  - apply: runs_mono; first (apply: (compare_chars_ok m a b l1 l2); try done; lia). move=> r m' [-> Hr]. split; [done|].
    rewrite Hr Nat2Z.id {2}(_ : length l1 = length l2); first lia. by rewrite !take_ge.
  - eexists _, _. split; [done|]. split; [done|]. rewrite s32_small; first lia. split; [lia|]. move=> E. subst. lia.
Qed.

(** ** [strncpy] *)

(** The first loop, with [i] characters copied *)
Definition copying m dest src num l (st : Z * Z * Z) m' : Prop :=
  exists i, 0 <= i <= Z.of_nat (length l) /\ i <= num /\ st = (dest + i, src + i, num - i) /\
    written m dest i (chars l) m'.

Lemma strncpy_copy_ok m dest src num l :
  bytes m -> cstr m src l -> 0 <= num < 2 ^ 64 - 1 -> range m dest (num + 1) ->
  src + Z.of_nat (length l) < dest \/ dest + num < src ->
  runs (walk strncpy_copy (dest, src, num)) m (fun st m' =>
    if num <? Z.of_nat (length l)
    then st = (w64 (dest + num + 1), 2 ^ 64 - 1) /\ written m dest (num + 1) (chars l) m'
    else st = (w64 (dest + Z.of_nat (length l) + 1), num - Z.of_nat (length l)) /\
      written m dest (Z.of_nat (length l) + 1) (chars l) m').
Proof.
  move=> Hb Hc Hn Hd Hsep. case: (cstr_range _ _ _ Hc) => _ Hs0 Hs1 _. case: (Hd) => _ Hd0 Hd1 _.
  apply: (loop_rule (copying m dest src num l) (fun st => Z.to_nat (src + Z.of_nat (length l) - st.1.2))).
  - exists 0. split; [lia | split; [lia|]]. split; [by rewrite !Z.add_0_r Z.sub_0_r|]. move=> x. case: withinP => // ?. lia.
  - have := cstr_bound _ _ _ Hc. simpl. lia.
  - move=> st m' [i [Hi [Hin [-> Hw]]]].
    have Hc' : cstr m' src l.
    { apply: (cstr_outside m m' _ _ dest i Hc); last lia. move=> x Hx. exact: written_outside Hw Hx. }
    destruct (load_char _ _ _ _ Hc' Hi) as [El Hz]. rewrite -/(chars l i) in El Hz.
    destruct (store_next _ _ _ i (chars l) _ Hd ltac:(lia) Hw (chars_byte _ _ _ i Hb Hc)) as [Es Hw'].
    rewrite /strncpy_copy /runs (bind_ok _ _ _ _ _ El) (bind_ok _ _ _ _ _ Es). eexists _, _. split; [done|].
    case: Z.eqb_spec => E0.
    + apply Hz in E0. subst i. case: Z.ltb_spec => Hlt; [lia | done].
    + have Hne : i <> Z.of_nat (length l) by tauto. case: Z.eqb_spec => En.
      * case: Z.ltb_spec => Hlt; last lia. rewrite (_ : i = num) in Hw' |- *; first lia. split; [|done]. f_equal. by rewrite Z.sub_diag.
      * rewrite !w64_small; [unfold in64; lia | unfold in64; lia | unfold in64; lia |]. split; [|simpl; lia].
        exists (i + 1). split; [lia | split; [lia|]]. split; [by rewrite !Z.add_assoc Z.sub_add_distr | done].
Qed.

Lemma strncpy_ok m dest src num l :
  bytes m -> cstr m src l -> Z.of_nat (length l) <= num < 2 ^ 64 - 1 -> range m dest (num + 1) ->
  src + Z.of_nat (length l) < dest \/ dest + num < src ->
  runs (strncpy dest src num) m (fun r m' => r = dest /\ written m dest (num + 1) (chars l) m').
Proof.
  move=> Hb Hc Hn Hd Hsep. rewrite /strncpy.
  apply: runs_bind; first (apply: strncpy_copy_ok => //; lia). move=> st m1. case: Z.ltb_spec => Hlt; first lia.
  move=> [-> Hw1]. set len := Z.of_nat (length l) in Hlt Hn Hsep Hw1 |- *.
  have Hl0 : 0 <= len by unfold len; lia. case: (Hd) => _ Hd0 Hd1 _.
  apply: (runs_bind _ _ _ (fun _ => written m dest (num + 1) (chars l))); last by move=> [] m' Hw; apply: runs_ret.
  have Hdom : same_dom m m1.
  { apply: (written_dom m dest (len + 1) (chars l)) => //. apply: (range_sub _ _ _ _ _ Hd); lia. }
  have Hbound : (Z.to_nat (num - len) < size m1)%nat.
  { have Hk : (Z.to_nat (num + 1) <= size m1)%nat; last lia.
    apply: (walk_bound m1 (fun i => dest + i)); last by move=> *; lia. move=> i Hi.
    apply Hdom. case: Hd => _ _ _ Hm. apply: Hm. lia. }
  apply: (loop_rule (fun st m' => exists j, 0 <= j <= num - len /\ st = (w64 (dest + len + 1 + j), num - len - j) /\
      written m dest (len + 1 + j) (chars l) m') (fun st => Z.to_nat st.2)).
  - exists 0. split; [lia|]. by rewrite !Z.add_0_r Z.sub_0_r.
  - simpl. lia.
  - move=> st' m' [j [Hj [-> Hw]]]. rewrite /strncpy_pad. case: Z.eqb_spec => Ez.
    + apply: runs_ret. by rewrite (_ : num + 1 = len + 1 + j); first lia.
    + rewrite (w64_small (dest + len + 1 + j)); first (unfold in64; lia).
      have Ec : chars l (len + 1 + j) = 0. { rewrite /chars lookup_ge_None_2 //. unfold len. lia. }
      destruct (store_next _ _ _ (len + 1 + j) (chars l) _ Hd ltac:(lia) Hw ltac:(lia)) as [Es Hw'].
      rewrite Ec in Es. rewrite /runs (_ : dest + len + 1 + j = dest + (len + 1 + j)); first lia.
      rewrite (bind_ok _ _ _ _ _ Es). eexists _, _. split; [done|]. split; [|simpl; lia].
      exists (j + 1). split; [lia|]. split; [f_equal; [f_equal|]; lia|].
      rewrite -Ec. by rewrite (_ : len + 1 + (j + 1) = len + 1 + j + 1); first lia.
Qed.

(** The second loop runs into the first address without memory. *)
Lemma strncpy_pad_faults k n m d c :
  (forall i, 0 <= i < Z.of_nat k -> is_Some (m !! w64 (d + i))) -> m !! w64 (d + Z.of_nat k) = None ->
  Z.of_nat k < c -> (k < n)%nat -> loop n strncpy_pad (w64 d, c) m = Fault.
Proof.
  elim: k n m d c => [|k IH] n m d c Hm Hnone Hc Hn; (destruct n as [|n]; first lia).
  all: rewrite /= /strncpy_pad (proj2 (Z.eqb_neq c 0)); first lia.
  - rewrite Z.add_0_r in Hnone. by rewrite /bind /store8 /w64 Zmod_mod -/(w64 d) Hnone.
  - destruct (Hm 0 ltac:(lia)) as [b Hb]. rewrite Z.add_0_r in Hb.
    have Es : store8 (w64 d) 0 m = Ok (tt, <[w64 d := 0 mod 256]> m).
    { by rewrite /store8 /w64 Zmod_mod -/(w64 d) Hb. }
    rewrite bind_assoc (bind_ok _ _ _ _ _ Es) /bind /=. rewrite w64_add_l. apply: IH; try lia.
    + move=> i Hi. rewrite -Z.add_assoc (Z.add_comm 1). destruct (Hm (i + 1) ltac:(lia)) as [b' Hb'].
      case: (decide (w64 d = w64 (d + (i + 1)))) => [->|Hne]; first by rewrite lookup_insert_eq.
      by rewrite lookup_insert_ne // Hb'.
    + rewrite (_ : d + 1 + Z.of_nat k = d + Z.of_nat (S k)); first lia. rewrite lookup_insert_ne //.
      move=> E. rewrite -E Hb in Hnone. done.
Qed.

(** The first address from [d] on without memory *)
Lemma first_gap m d x :
  in64 x -> m !! x = None ->
  exists k : nat, Z.of_nat k <= w64 (x - d) /\ m !! w64 (d + Z.of_nat k) = None /\
    forall i, 0 <= i < Z.of_nat k -> is_Some (m !! w64 (d + i)).
Proof.
  move=> Hx Hnone. set P := fun k : nat => m !! w64 (d + Z.of_nat k) = None.
  have H0 : P (Z.to_nat (w64 (x - d))).
  { rewrite /P Z2Nat.id; first by case: (w64_range (x - d)). rewrite Z.add_comm w64_add_l Z.sub_add w64_small //. }
  destruct (dec_inh_nat_subset_has_unique_least_element P) as (k & [Hk Hmin] & _).
  - move=> n. rewrite /P. destruct (m !! w64 (d + Z.of_nat n)); [by right | by left].
  - by eexists.
  - exists k. have Hle := Hmin _ H0. have := w64_range (x - d). unfold in64. split; [lia | split; [done|]].
    move=> i Hi. destruct (m !! w64 (d + i)) eqn:E; first by eexists. exfalso.
    have := Hmin (Z.to_nat i). rewrite /P Z2Nat.id; first lia. move=> /(_ E). lia.
Qed.

Lemma w64_inj d i j : 0 <= i < 2 ^ 64 -> 0 <= j < 2 ^ 64 -> w64 (d + i) = w64 (d + j) -> i = j.
Proof.
  rewrite /w64 => Hi Hj E. have H1 := Z.div_mod (d + i) (2 ^ 64) ltac:(lia). have H2 := Z.div_mod (d + j) (2 ^ 64) ltac:(lia).
  nia.
Qed.

Lemma strncpy_long m dest src num l x :
  bytes m -> cstr m src l -> 0 <= num < Z.of_nat (length l) -> range m dest (num + 1) ->
  src + Z.of_nat (length l) < dest \/ dest + num < src -> in64 x -> m !! x = None ->
  strncpy dest src num m = Fault.
Proof.
  move=> Hb Hc Hn Hd Hsep Hx Hnone. case: (cstr_range _ _ _ Hc) => _ Hs0 Hs1 _. rewrite /strncpy.
  destruct (strncpy_copy_ok m dest src num l Hb Hc ltac:(lia) Hd Hsep) as (st & m1 & E1 & H1).
  rewrite (proj2 (Z.ltb_lt _ _) (proj2 Hn)) in H1. destruct H1 as [-> Hw].
  have Hdom := written_dom _ _ _ _ _ Hd Hw.
  have Hnone1 : m1 !! x = None.
  { destruct (m1 !! x) eqn:E; last done. have : is_Some (m !! x) by apply Hdom; rewrite E. by rewrite Hnone => - []. }
  destruct (first_gap m1 (dest + num + 1) x Hx Hnone1) as (k & Hk & Hgap & Hbefore).
  rewrite (bind_ok _ _ _ _ _ E1) /bind /walk. rewrite (strncpy_pad_faults k) //.
  - have : w64 (x - (dest + num + 1)) <> 2 ^ 64 - 1; last by have := w64_range (x - (dest + num + 1)); unfold in64; lia.
    move=> E. have Ex : x = dest + num.
    { case: (Hd) => _ ? ? _. apply: (w64_inj (- (dest + num + 1))); [done | lia |].
      rewrite !(Z.add_comm (- _)) !Z.add_opp_r E. rewrite /w64. apply: (Z.mod_unique _ _ (-1)); lia. }
    case: (Hd) => ? ? ? Hm. destruct (Hm x ltac:(lia)) as [b Hb']. by rewrite Hnone in Hb'.
  - apply Nat.lt_succ_r. apply: (walk_bound m1 (fun i => w64 (dest + num + 1 + i))) => //.
    move=> i j Hi Hj. have := w64_range (x - (dest + num + 1)). unfold in64 => ?. apply: w64_inj; lia.
Qed.

(** ** Results *)

(** C34: [memcpy] copies the bytes of one range to another, whatever unit the
    size lets it use, when the ranges do not overlap or the copy goes down;
    [memmove] does so when they do not overlap or the copy goes up.  Nothing
    else changes, and no access leaves the ranges. *)
Theorem copies_correct m dest src n :
  bytes m -> range m src n -> range m dest n ->
  (dest <= src \/ src + n <= dest -> runs (memcpy dest src n) m (fun r m' => r = dest /\ copied m dest src n m')) /\
  (src <= dest \/ dest + n <= src -> runs (memmove dest src n) m (fun r m' => r = dest /\ copied m dest src n m')).
Proof. move=> Hb Hs Hd. split => Hov; [exact: memcpy_ok | exact: memmove_ok]. Qed.

(** Memory with the bytes of [l] at [a] *)
Definition mem_of (a : Z) (l : list Z) : mem := list_to_map (zip (seqZ a (Z.of_nat (length l))) l).

Definition demo_mem : mem := mem_of 0 [1; 2; 3; 4; 5; 6; 7; 8].

Lemma forall_range (P : Z -> Prop) a (n : nat) :
  Forall (fun i => P (a + Z.of_nat i)) (seq 0 n) -> forall x, a <= x < a + Z.of_nat n -> P x.
Proof.
  move=> Hf x Hx. rewrite (_ : x = a + Z.of_nat (Z.to_nat (x - a))); first lia.
  apply (proj1 (Forall_forall _ _) Hf). apply elem_of_seq. lia.
Qed.

Lemma demo_range a n : (0 <=? a) && (0 <=? n) && (a + n <=? 8) = true -> range demo_mem a n.
Proof.
  rewrite !andb_true_iff !Z.leb_le => - [[Ha Hn] Han]. split; try lia. move=> x Hx.
  apply: (forall_range (fun x => is_Some (demo_mem !! x)) 0 8); last lia.
  repeat constructor; by eexists.
Qed.

Lemma demo_bytes : bytes demo_mem.
Proof.
  have Hf : map_Forall (fun _ b => 0 <= b < 256) demo_mem by apply: bool_decide_unpack; vm_compute.
  move=> x b Hx. exact: (Hf x b Hx).
Qed.

Lemma copies_correct_witness :
  runs (memcpy 0 4 4) demo_mem (fun r m' => r = 0 /\ copied demo_mem 0 4 4 m') /\
  runs (memmove 1 0 3) demo_mem (fun r m' => r = 1 /\ copied demo_mem 1 0 3 m').
Proof.
  split.
  - apply (proj1 (copies_correct demo_mem 0 4 4 demo_bytes (demo_range 4 4 eq_refl) (demo_range 0 4 eq_refl))). lia.
  - apply (proj2 (copies_correct demo_mem 1 0 3 demo_bytes (demo_range 0 3 eq_refl) (demo_range 1 3 eq_refl))). lia.
Defined.

(** [memmove] of overlapping ranges downwards copies from the end and loses
    the bytes it has overwritten: moving 2, 3, 4 one address down gives 4, 4, 4. *)
Theorem memmove_corrupts :
  exists m', memmove 0 1 3 demo_mem = Ok (0, m') /\ m' = mem_of 0 [4; 4; 4; 4; 5; 6; 7; 8] /\
    ~ copied demo_mem 0 1 3 m'.
Proof.
  exists (mem_of 0 [4; 4; 4; 4; 5; 6; 7; 8]). split; [by vm_compute | split; [done|]].
  move=> Hc. specialize (Hc 0). by vm_compute in Hc.
Qed.

(** [memset] of the x86_64 port writes exactly its range: the byte in every
    place when the size is a multiple of 8 or odd, and otherwise the byte once
    in every 4 or 2 places with zeros between; so it is right for every size
    when the byte is 0. *)
Theorem memset_pattern m dest c n :
  range m dest n ->
  runs (memset dest c n) m (fun r m' => r = dest /\ written m dest n (set_byte c n) m' /\
    (c mod 256 = 0 -> written m dest n (fun _ => 0) m')).
Proof.
  move=> Hr. apply: runs_mono (memset_ok m dest c n Hr) _ => r m' [-> Hw]. split; [done | split; [done|]].
  move=> Hc. apply: written_ext Hw => i _. rewrite /set_byte Hc. by do 4 case: (_ =? _).
Qed.

Lemma memset_pattern_witness : exists m', memset 0 0xab 4 demo_mem = Ok (0, m') /\
  m' !! 0 = Some 0xab /\ m' !! 1 = Some 0 /\ m' !! 4 = Some 5.
Proof.
  destruct (memset_pattern demo_mem 0 0xab 4 (demo_range 0 4 eq_refl)) as (r & m' & E & -> & Hw & _).
  exists m'. rewrite (Hw 0) (Hw 1) (Hw 4). done.
Defined.

Lemma cstr_bytes m a l : bytes m -> cstr m a l -> Forall (fun b => 0 <= b < 256) l.
Proof. move=> Hb Hc. apply Forall_lookup => i b Hi. exact: Hb (cs_at _ _ _ Hc _ _ Hi). Qed.

(** Memory that differs by a string *)
Lemma bytes_outside m m' dest l :
  bytes m -> cstr m' dest l -> Forall (fun b => 0 <= b < 256) l -> outside m dest (Z.of_nat (length l) + 1) m' -> bytes m'.
Proof.
  move=> Hb Hc Hl Ho x v Hx. case: (withinP dest (Z.of_nat (length l) + 1) x) => Hin; last by rewrite Ho // in Hx; exact: Hb Hx.
  move: Hx. rewrite (_ : x = dest + Z.of_nat (Z.to_nat (x - dest))); first lia. move=> Hx.
  destruct (l !! Z.to_nat (x - dest)) as [v'|] eqn:Ev.
  - rewrite (cs_at _ _ _ Hc _ _ Ev) in Hx. case: Hx => <-. exact: (Forall_lookup_1 _ _ _ _ Hl Ev).
  - apply lookup_ge_None_1 in Ev. move: (cs_end _ _ _ Hc).
    rewrite (_ : Z.of_nat (length l) = Z.of_nat (Z.to_nat (x - dest))); first lia. rewrite Hx. by case=> ->.
Qed.

(** The string [l] at [a] and the [n] bytes at [dest] have no byte in common. *)
Definition apart a (l : list Z) dest n : Prop := a + Z.of_nat (length l) < dest \/ dest + n <= a.

(** A string built with [strcpy] and [strcat] is the concatenation: comparing
    it by [strcmp] with a third string gives 0 exactly when that is the
    concatenation, and all three functions stay within the strings and the
    buffer. *)
Theorem strings_compose m dest a b c l1 l2 l3 :
  bytes m -> cstr m a l1 -> cstr m b l2 -> cstr m c l3 ->
  range m dest (Z.of_nat (length (l1 ++ l2)) + 1) ->
  apart a l1 dest (Z.of_nat (length (l1 ++ l2)) + 1) -> apart b l2 dest (Z.of_nat (length (l1 ++ l2)) + 1) ->
  apart c l3 dest (Z.of_nat (length (l1 ++ l2)) + 1) ->
  Z.of_nat (length (l1 ++ l2)) < 2 ^ 31 -> Z.of_nat (length l3) < 2 ^ 31 ->
  runs (strcpy dest a;; strcat dest b;; strcmp dest c) m (fun r m' =>
    cstr m' dest (l1 ++ l2) /\ outside m dest (Z.of_nat (length (l1 ++ l2)) + 1) m' /\ (r = 0 <-> l1 ++ l2 = l3)).
Proof.
  rewrite /apart length_app Nat2Z.inj_add => Hb Ha Hbs Hc Hd S1 S2 S3 Hl Hl3. case: (Hd) => _ Hd0 Hd1 _.
  have Hd1' : range m dest (Z.of_nat (length l1) + 1) by apply: (range_sub _ _ _ _ _ Hd); lia.
  apply: runs_bind; first (apply: (strcpy_ok m dest a l1) => //; lia). move=> r1 m1 [_ Hw1].
  have Hb1 : bytes m1.
  { move=> x v. rewrite Hw1. case: withinP => _; last exact: Hb. move=> [<-]. exact: chars_byte Hb Ha. }
  have Hcd : cstr m1 dest l1 by apply: written_cstr Hw1 => //; [lia | by case: Ha].
  have Ho1 : outside m dest (Z.of_nat (length l1) + Z.of_nat (length l2) + 1) m1.
  { move=> x Hx. apply: (written_outside _ _ _ _ _ _ Hw1). lia. }
  have Hdom := written_dom _ _ _ _ _ Hd1' Hw1.
  apply: runs_bind.
  { apply: (strcat_ok m1 dest b l1 l2) => //; [exact: (cstr_outside _ _ _ _ _ _ Hbs Ho1) | exact: range_dom Hdom Hd | lia]. }
  move=> r2 m2 [_ [Hc2 Ho2]].
  have Ho : outside m dest (Z.of_nat (length l1) + Z.of_nat (length l2) + 1) m2.
  { move=> x Hx. rewrite Ho2; first lia. exact: Ho1. }
  have Hb2 : bytes m2.
  { apply: (bytes_outside m m2 dest (l1 ++ l2)) => //; last by rewrite length_app Nat2Z.inj_add.
    apply Forall_app. split; [exact: cstr_bytes Hb Ha | exact: cstr_bytes Hb Hbs]. }
  apply: runs_mono; first (apply: (strcmp_ok m2 dest c (l1 ++ l2) l3) => //; rewrite ?length_app; try lia; exact: (cstr_outside _ _ _ _ _ _ Hc Ho)).
  by move=> r m' [-> Hr].
Qed.

(** Three strings and a buffer of five bytes *)
Definition text_mem : mem := mem_of 16 ([104; 105; 0; 33; 0; 104; 105; 33; 0] ++ replicate 5 255).

Lemma text_bytes : bytes text_mem.
Proof.
  have Hf : map_Forall (fun _ b => 0 <= b < 256) text_mem by apply: bool_decide_unpack; vm_compute.
  move=> x b Hx. exact: (Hf x b Hx).
Qed.

(** A string is checked character by character. *)
Lemma cstr_check m a l :
  (0 <=? a) && (a + Z.of_nat (length l) <? 2 ^ 64) = true -> Forall (fun b => b <> 0) l ->
  Forall2 (fun i b => m !! (a + Z.of_nat i) = Some b) (seq 0 (S (length l))) (l ++ [0]) -> cstr m a l.
Proof.
  rewrite andb_true_iff Z.leb_le Z.ltb_lt => - [Ha Hhi] Hc Hf. split => //.
  - move=> i b Hi. have Hlt := lookup_lt_Some _ _ _ Hi.
    apply (Forall2_lookup_lr _ _ _ i _ _ Hf); [rewrite lookup_seq_lt //; lia | by rewrite lookup_app_l].
  - apply (Forall2_lookup_lr _ _ _ (length l) _ _ Hf); [rewrite lookup_seq_lt //; lia | by rewrite list_lookup_middle].
Qed.

Lemma text_strings : cstr text_mem 16 [104; 105] /\ cstr text_mem 19 [33] /\ cstr text_mem 21 [104; 105; 33].
Proof. split; [|split]; (apply: cstr_check; [done | by repeat constructor | by repeat constructor]). Qed.

Lemma text_range a n : (16 <=? a) && (0 <=? n) && (a + n <=? 30) = true -> range text_mem a n.
Proof.
  rewrite !andb_true_iff !Z.leb_le => - [[Ha Hn] Han]. split; try lia. move=> x Hx.
  apply: (forall_range (fun x => is_Some (text_mem !! x)) 16 14); last lia.
  repeat constructor; by eexists.
Qed.

Lemma strings_compose_witness : exists m', (strcpy 25 16;; strcat 25 19;; strcmp 25 21) text_mem = Ok (0, m') /\
  cstr m' 25 [104; 105; 33].
Proof.
  destruct text_strings as (H1 & H2 & H3).
  destruct (strings_compose text_mem 25 16 19 21 [104; 105] [33] [104; 105; 33] text_bytes H1 H2 H3
    (text_range 25 4 eq_refl)) as (r & m' & E & Hc & _ & Hr); try (by left); try done.
  exists m'. rewrite E (proj2 Hr eq_refl). by split.
Defined.

(** [strncpy] of a string that is not longer than [num] writes [num] + 1
    bytes, one more than it is given: the string and zeros.  Of a longer string
    it copies [num] + 1 characters and then writes zeros until it reaches an
    address without memory. *)
Theorem strncpy_overruns m dest src num l :
  bytes m -> cstr m src l -> 0 <= num < 2 ^ 64 - 1 -> range m dest (num + 1) -> apart src l dest (num + 1) ->
  if num <? Z.of_nat (length l)
  then (exists x, in64 x /\ m !! x = None) -> strncpy dest src num m = Fault
  else runs (strncpy dest src num) m (fun r m' => r = dest /\ written m dest (num + 1) (chars l) m').
Proof.
  rewrite /apart => Hb Hc Hn Hd Hsep. case: Z.ltb_spec => Hlt.
  - move=> [x [Hx Hnone]]. apply: (strncpy_long m dest src num l x) => //; lia.
  - apply: strncpy_ok => //; lia.
Qed.

Lemma strncpy_overruns_witness :
  runs (strncpy 25 16 3) text_mem (fun r m' => r = 25 /\ written text_mem 25 4 (chars [104; 105]) m') /\
  strncpy 25 16 1 text_mem = Fault.
Proof.
  destruct text_strings as (H1 & _). split.
  - apply (strncpy_overruns text_mem 25 16 3 [104; 105] text_bytes H1 ltac:(lia) (text_range 25 4 eq_refl)). by left.
  - apply (strncpy_overruns text_mem 25 16 1 [104; 105] text_bytes H1 ltac:(lia) (text_range 25 2 eq_refl)); first by left.
    by exists 0.
Defined.

(** ** What differs from the C standard *)

(** "b" comes before "aa": the shorter string is the smaller one. *)
Fact strcmp_by_length : exists m', strcmp 0 2 (mem_of 0 [98; 0; 97; 97; 0]) = Ok (-1, m').
Proof. by eexists; vm_compute. Qed.

(** Equal strings differ when what follows them does. *)
Fact strncmp_past_end : exists m', strncmp 0 3 3 (mem_of 0 [97; 0; 1; 97; 0; 2]) = Ok (-1, m').
Proof. by eexists; vm_compute. Qed.

(** [strchr] compares the character with indexes: 'h' is not found, and 1 is
    found at index 1. *)
Fact strchr_by_index : (exists m', strchr 16 104 text_mem = Ok (0, m')) /\ exists m', strchr 16 1 text_mem = Ok (17, m').
Proof. split; by eexists; vm_compute. Qed.

(** Bytes are compared as signed characters. *)
Fact memcmp_signed : exists m', memcmp 0 1 1 (mem_of 0 [255; 1]) = Ok (-2, m').
Proof. by eexists; vm_compute. Qed.

(** [memset] of string.c for two bytes writes none. *)
Fact memset_generic_short : memset_generic 0 0xab 2 demo_mem = Ok (0, demo_mem).
Proof. by vm_compute. Qed.

(** [strncat] copies what follows the end of the source string. *)
Fact strncat_past_end : exists m', strncat 25 19 3 (<[25 := 0]> text_mem) = Ok (25, m') /\ cstr m' 25 [33] /\ m' !! 27 = Some 104.
Proof.
  eexists. split; [by vm_compute|]. split; last by vm_compute.
  apply: cstr_check; [done | by repeat constructor | by repeat constructor; vm_compute].
Qed.

End CStringT.
