(* ===== verification/CMath.v ===== *)
(** * Digits and 64-bit arithmetic of the C library

    lib/freestdc/src/common/mathex.c, which counts and picks the digits that
    the formatted output prints, and lib/freestdc/src/common/i64div.c, the
    multiplication and division of 64-bit integers for targets without them.
    The functions have no state. *)

From S2P Require Import Prelude.

Module CMath.

(** ** Digits *)

(** The loop of the counting functions; the value shrinks in every round and
    has at most 64 bits, so that 64 rounds are enough. *)
Fixpoint count_loop (rounds : nat) (step : Z -> Z) (x count : Z) : Z :=
  match rounds with
  | O => count
  | S n => if x =? 0 then count else count_loop n step (step x) (count + 1)
  end.

Definition count_digits (step : Z -> Z) (x : Z) : Z :=
  let count := count_loop 64 step x 0 in
  if count =? 0 then 1 else count.

(** The loop of the functions that pick a digit *)
Definition skip_digits (step : Z -> Z) (x n : Z) : Z := Nat.iter (Z.to_nat (n - 1)) step x.

Definition div10 (x : Z) : Z := Z.quot x 10.
Definition shr4 (x : Z) : Z := Z.shiftr x 4.
Definition shr3 (x : Z) : Z := Z.shiftr x 3.

Definition digcount (x : Z) : Z := count_digits div10 x.

Definition getdigit (x n : Z) : Z :=
  if (digcount x <? n) || (n <? 1) then -1
  else
    let x := if x <? 0 then s32 (- x) else x in
    Z.rem (skip_digits div10 x n) 10.

Definition udigcount (x : Z) : Z := count_digits div10 x.

Definition getudigit (x n : Z) : Z :=
  if (udigcount x <? n) || (n <? 1) then -1 else Z.rem (skip_digits div10 x n) 10.

Definition ludigcount (x : Z) : Z := count_digits div10 x.

Definition getludigit (x n : Z) : Z :=
  if (ludigcount x <? n) || (n <? 1) then -1 else Z.rem (skip_digits div10 x n) 10.

Definition lludigcount (x : Z) : Z := count_digits div10 x.

Definition getlludigit (x n : Z) : Z :=
  if (lludigcount x <? n) || (n <? 1) then -1 else Z.rem (skip_digits div10 x n) 10.

Definition xdigcount (x : Z) : Z := count_digits shr4 x.

Definition getxdigit (x n : Z) : Z :=
  if (xdigcount x <? n) || (n <? 1) then -1 else Z.rem (skip_digits shr4 x n) 16.

Definition llxdigcount (x : Z) : Z := count_digits shr4 x.

Definition getllxdigit (x n : Z) : Z :=
  if (llxdigcount x <? n) || (n <? 1) then -1 else Z.rem (skip_digits shr4 x n) 16.

Definition odigcount (x : Z) : Z := count_digits shr3 x.

Definition getodigit (x n : Z) : Z :=
  if (odigcount x <? n) || (n <? 1) then -1 else Z.rem (skip_digits shr3 x n) 8.

(** ** Arithmetic *)

Fixpoint mul_loop (rounds : nat) (x y i sum : Z) : Z :=
  match rounds with
  | O => sum
  | S n =>
      if y =? 0 then sum
      else
        let sum := if Z.land y 1 =? 0 then sum else w64 (sum + w64 (Z.shiftl x i)) in
        mul_loop n x (Z.shiftr y 1) (i + 1) sum
  end.

Definition __mulvdi3 (x y : Z) : Z := mul_loop 64 x y 0 0.

(** The rounds for [i] = 63, ..., 0 *)
Fixpoint div_loop (rounds : nat) (x y ans : Z) : Z :=
  match rounds with
  | O => ans
  | S n =>
      let i := Z.of_nat n in
      if y <=? Z.shiftr x i
      then div_loop n (w64 (x - w64 (Z.shiftl y i))) y (Z.lor ans (Z.shiftl 1 i))
      else div_loop n x y ans
  end.

Definition __udivdi3 (x y : Z) : Z := div_loop 64 x y 0.

Definition __umoddi3 (x y : Z) : Z := w64 (x - __mulvdi3 (__udivdi3 x y) y).

End CMath.
