(* ===== verification/CMathTheorems.v ===== *)
(** * Theorems on the digits and the 64-bit arithmetic of the C library *)

From S2P Require Import Prelude CMath.
Import CMath.

Module CMathT.

(** ** Digits in base [b], most significant first *)

Definition digits (get : Z -> Z -> Z) (count : Z -> Z) (x : Z) : list Z :=
  (fun j => get x (count x - Z.of_nat j)) <$> seq 0 (Z.to_nat (count x)).

(** The number that a list of digits stands for *)
Definition value (b : Z) (l : list Z) : Z := foldl (fun a d => a * b + d) 0 l.

(** A step that drops the last digit *)
Definition drops (b : Z) (step : Z -> Z) : Prop := forall x, 0 <= x -> step x = x / b.

Lemma div10_drops : drops 10 div10.
Proof. move=> x Hx. rewrite /div10 Z.quot_div_nonneg //; lia. Qed.

Lemma shr4_drops : drops 16 shr4.
Proof. move=> x Hx. rewrite /shr4 Z.shiftr_div_pow2 //. Qed.

Lemma shr3_drops : drops 8 shr3.
Proof. move=> x Hx. rewrite /shr3 Z.shiftr_div_pow2 //. Qed.

Section Base.
Variables (b : Z) (step : Z -> Z).
Hypothesis Hb : 2 <= b.
Hypothesis Hstep : drops b step.

Lemma count_loop_ok n x c :
  0 <= x < 2 ^ Z.of_nat n ->
  exists k, count_loop n step x c = c + k /\ 0 <= k /\ x < b ^ k /\ (x = 0 /\ k = 0 \/ 0 < k /\ b ^ (k - 1) <= x).
Proof.
  elim: n x c => [|n IH] x c Hx.
  { exists 0. rewrite /= Z.add_0_r. split; [done|]. simpl in Hx. split; [lia | split; [lia | left; lia]]. }
  simpl. case: Z.eqb_spec => Hz.
  { exists 0. rewrite Z.add_0_r. split; [done | split; [lia | split; [lia | left; lia]]]. }
  rewrite Hstep; first lia. have Hd := Z.div_mod x b ltac:(lia). have Hm := Z.mod_pos_bound x b ltac:(lia).
  have Hq : 0 <= x / b by apply Z.div_pos; lia.
  destruct (IH (x / b) (c + 1)) as (k & Ek & Hk & Hlt & Hge).
  { split; [done|]. rewrite Nat2Z.inj_succ Z.pow_succ_r in Hx; first lia. apply Z.div_lt_upper_bound; [lia|]. nia. }
  exists (k + 1). rewrite Ek. split; [lia | split; [lia|]]. rewrite Z.pow_add_r // Z.pow_1_r. split; [nia|].
  right. split; [lia|]. rewrite Z.add_simpl_r. case: Hge => [[H0 ->]|[Hk0 Hge]]; first (simpl; lia).
  rewrite -(Z.sub_add 1 k) Z.pow_add_r; [lia | lia |]. rewrite Z.pow_1_r. nia.
Qed.

(** The count is that of the digits needed. *)
Lemma count_digits_ok x :
  0 <= x < 2 ^ 64 ->
  1 <= count_digits step x /\ x < b ^ count_digits step x /\
  (count_digits step x = 1 \/ b ^ (count_digits step x - 1) <= x).
Proof.
  move=> Hx. destruct (count_loop_ok 64 x 0 Hx) as (k & Ek & Hk & Hlt & Hge).
  rewrite /count_digits Ek Z.add_0_l. case: Z.eqb_spec => Hz.
  - subst k. rewrite Z.pow_0_r in Hlt. rewrite Z.pow_1_r. split; [lia | split; [lia | by left]].
  - split; [lia | split; [done | right; lia]].
Qed.

Lemma skip_digits_ok x n : 0 <= x -> 1 <= n -> skip_digits step x n = x / b ^ (n - 1).
Proof.
  move=> Hx Hn. rewrite /skip_digits. rewrite -{2}(Z2Nat.id (n - 1)); first lia. elim: (Z.to_nat (n - 1)) => [|k IH].
  - by rewrite Z.pow_0_r Z.div_1_r.
  - rewrite Nat.iter_succ IH Hstep; first (apply Z.div_pos; [lia | apply Z.pow_pos_nonneg; lia]).
    rewrite Z.div_div; [have := Z.pow_pos_nonneg b (Z.of_nat k); lia | lia |].
    rewrite Nat2Z.inj_succ Z.pow_succ_r; first lia. by rewrite Z.mul_comm.
Qed.

Lemma value_app l d : value b (l ++ [d]) = value b l * b + d.
Proof. by rewrite /value foldl_app. Qed.

Lemma value_digits x (n : nat) :
  0 <= x -> value b ((fun j => (x / b ^ (Z.of_nat n - Z.of_nat j - 1)) mod b) <$> seq 0 n) = x mod b ^ Z.of_nat n.
Proof.
  elim: n x => [|n IH] x Hx; first by rewrite Z.mod_1_r.
  rewrite seq_S fmap_app value_app /=. rewrite (_ : Z.of_nat (S n) - Z.of_nat n - 1 = 0); first lia.
  rewrite Z.pow_0_r Z.div_1_r Nat2Z.inj_succ Z.pow_succ_r; first lia.
  rewrite Z.rem_mul_r; [lia | apply Z.pow_pos_nonneg; lia |]. rewrite -(IH (x / b)); first (apply Z.div_pos; lia).
  rewrite Z.add_comm (Z.mul_comm b). f_equal. f_equal. rewrite /value. f_equal. apply: list_fmap_ext => i y Hy.
  apply lookup_seq in Hy as [-> Hlt]. rewrite Z.div_div; [lia | apply Z.pow_pos_nonneg; lia |]. simpl.
  do 2 f_equal. rewrite -Z.pow_succ_r; [lia|]. f_equal. lia.
Qed.

(** Picking every digit and reading them gives the number. *)
Lemma digits_value get x :
  (forall n, 1 <= n <= count_digits step x -> get x n = (x / b ^ (n - 1)) mod b) -> 0 <= x < 2 ^ 64 ->
  value b (digits get (count_digits step) x) = x.
Proof.
  move=> Hget Hx. destruct (count_digits_ok x Hx) as (H1 & Hlt & _).
  rewrite /digits. set c := count_digits step x in Hget H1 Hlt |- *.
  rewrite (_ : (fun j : nat => get x (c - Z.of_nat j)) <$> seq 0 (Z.to_nat c)
    = (fun j => (x / b ^ (Z.of_nat (Z.to_nat c) - Z.of_nat j - 1)) mod b) <$> seq 0 (Z.to_nat c)).
  { apply: list_fmap_ext => i y Hy. apply lookup_seq in Hy as [-> Hi]. rewrite Z2Nat.id; first lia. rewrite Hget //. lia. }
  rewrite value_digits; first lia. rewrite Z2Nat.id; first lia. apply Z.mod_small. lia.
Qed.

End Base.

(** A function that picks digits as they all do *)
Lemma get_digit_ok b step x n :
  2 <= b -> drops b step -> 0 <= x < 2 ^ 64 -> 1 <= n <= count_digits step x ->
  (if (count_digits step x <? n) || (n <? 1) then -1 else Z.rem (skip_digits step x n) b) = (x / b ^ (n - 1)) mod b.
Proof.
  move=> Hb Hs Hx Hn. rewrite !(proj2 (Z.ltb_ge _ _)); [lia | lia |]. cbn [orb].
  rewrite (skip_digits_ok b) //; try lia. apply Z.rem_mod_nonneg; last lia.
  apply Z.div_pos; [lia | apply Z.pow_pos_nonneg; lia].
Qed.

Lemma s32_neg x : - 2 ^ 31 < x < 0 -> s32 (- x) = - x.
Proof. move=> Hx. apply: s32_small. lia. Qed.

(** Negative numbers have the digits of their absolute value. *)
Lemma digcount_neg x : digcount (- x) = digcount x.
Proof.
  rewrite /digcount /count_digits. suff E : forall n y c, count_loop n div10 (- y) c = count_loop n div10 y c by rewrite E.
  elim=> [|n IH] y c //=. rewrite (_ : (- y =? 0) = (y =? 0)); first by do 2 case: Z.eqb_spec => ?; lia.
  case: Z.eqb_spec => // _. rewrite /div10 Z.quot_opp_l //.
Qed.

(** ** Multiplication and division *)

Lemma mul_loop_ok n x y i sum :
  0 <= y < 2 ^ Z.of_nat n -> 0 <= i -> in64 sum -> mul_loop n x y i sum = w64 (sum + x * y * 2 ^ i).
Proof.
  elim: n y i sum => [|n IH] y i sum Hy Hi Hs.
  { simpl in Hy |- *. rewrite (_ : y = 0); first lia. by rewrite Z.mul_0_r Z.add_0_r w64_small. }
  simpl. case: Z.eqb_spec => Hz. { by rewrite Hz Z.mul_0_r Z.add_0_r w64_small. }
  rewrite (Z.land_ones y 1) // Z.shiftr_div_pow2 // Z.pow_1_r.
  have Hd := Z.div_mod y 2 ltac:(lia). have Hm := Z.mod_pos_bound y 2 ltac:(lia).
  rewrite Nat2Z.inj_succ Z.pow_succ_r in Hy; first lia.
  rewrite IH; [split; [apply Z.div_pos; lia | apply Z.div_lt_upper_bound; lia] | lia | by case: Z.eqb_spec => _ //; exact: w64_range |].
  have Ey : x * y * 2 ^ i = x * (y / 2) * (2 ^ i * 2) + x * 2 ^ i * (y mod 2) by rewrite {1}Hd; ring.
  rewrite Z.pow_add_r // Z.pow_1_r Ey. case: Z.eqb_spec => Hb; first by rewrite Hb Z.mul_0_r Z.add_0_r.
  rewrite w64_add_l -Z.add_assoc Z.add_comm -Z.add_assoc w64_add_l Z.shiftl_mul_pow2 //.
  f_equal. rewrite (_ : y mod 2 = 1); first lia. ring.
Qed.

Lemma lor_high ans i : 0 <= i -> 0 <= ans -> ans mod 2 ^ (i + 1) = 0 -> Z.lor ans (Z.shiftl 1 i) = ans + 2 ^ i.
Proof.
  move=> Hi Ha Hm. rewrite Z.shiftl_1_l. rewrite Z.add_nocarry_lxor ?Z.lxor_lor //; apply Z.bits_inj' => k Hk.
  all: rewrite Z.land_spec Z.bits_0 Z.pow2_bits_eqb //; case: Z.eqb_spec => [<-|]; last by rewrite andb_false_r.
  all: rewrite andb_true_r -(Z.mod_pow2_bits_low _ (i + 1)); first lia; by rewrite Hm Z.bits_0.
Qed.

Lemma div_loop_ok n x y ans :
  0 < y < 2 ^ 64 -> 0 <= x < 2 ^ 64 -> x < y * 2 ^ Z.of_nat n -> 0 <= ans -> ans mod 2 ^ Z.of_nat n = 0 ->
  div_loop n x y ans = ans + x / y.
Proof.
  move=> Hy. elim: n x ans => [|n IH] x ans Hx Hlt Ha Hm.
  { simpl in Hlt |- *. rewrite Z.div_small; lia. }
  simpl. rewrite Z.shiftr_div_pow2; first lia. rewrite Nat2Z.inj_succ -Z.add_1_r in Hlt Hm.
  have Hp : 0 < 2 ^ Z.of_nat n by apply Z.pow_pos_nonneg; lia.
  have Hd := Z.div_mod x (2 ^ Z.of_nat n) ltac:(lia). have Hr := Z.mod_pos_bound x (2 ^ Z.of_nat n) ltac:(lia).
  have Hpow : 2 ^ (Z.of_nat n + 1) = 2 * 2 ^ Z.of_nat n by rewrite Z.pow_add_r //; lia.
  have Hm' : (ans + 2 ^ Z.of_nat n) mod 2 ^ Z.of_nat n = 0 /\ ans mod 2 ^ Z.of_nat n = 0.
  { have Hq := Z.div_mod ans (2 ^ (Z.of_nat n + 1)) ltac:(lia). rewrite Hm Hpow in Hq.
    split; [rewrite {1}Hq | rewrite Hq];
      [rewrite (_ : _ + _ = (2 * (ans / (2 * 2 ^ Z.of_nat n)) + 1) * 2 ^ Z.of_nat n); first ring
      | rewrite (_ : _ + _ = (2 * (ans / (2 * 2 ^ Z.of_nat n))) * 2 ^ Z.of_nat n); first ring]; by rewrite Z.mod_mul; first lia. }
  case: Z.leb_spec => Hc.
  - have Hge : y * 2 ^ Z.of_nat n <= x by nia.
    rewrite Z.shiftl_mul_pow2; first lia. rewrite (w64_small (y * _)); first (unfold in64; lia).
    rewrite w64_small; first (unfold in64; lia). rewrite lor_high //; try lia. rewrite Hpow in Hlt. rewrite IH; try lia.
    rewrite (_ : x / y = 2 ^ Z.of_nat n + (x - y * 2 ^ Z.of_nat n) / y); last lia.
    rewrite -{1}(Z.sub_add (y * 2 ^ Z.of_nat n) x) (Z.mul_comm y) Z.div_add; lia.
  - apply: IH => //; [nia | by case: Hm'].
Qed.

Lemma div_by_zero n x ans : 0 <= x < 2 ^ 64 -> 0 <= ans -> ans mod 2 ^ Z.of_nat n = 0 ->
  div_loop n x 0 ans = ans + (2 ^ Z.of_nat n - 1).
Proof.
  elim: n ans => [|n IH] ans Hx Ha Hm; first by rewrite /=; lia.
  simpl. rewrite Z.shiftr_div_pow2; first lia. have Hp : 0 < 2 ^ Z.of_nat n by apply Z.pow_pos_nonneg; lia.
  rewrite (proj2 (Z.leb_le 0 _)); first by apply Z.div_pos; lia. rewrite Nat2Z.inj_succ -Z.add_1_r in Hm |- *.
  have Hpow : 2 ^ (Z.of_nat n + 1) = 2 * 2 ^ Z.of_nat n by rewrite Z.pow_add_r //; lia.
  rewrite Z.shiftl_0_l Z.sub_0_r w64_small // lor_high //; [lia|].
  have Hq := Z.div_mod ans (2 ^ (Z.of_nat n + 1)) ltac:(lia). rewrite Hm Hpow in Hq.
  rewrite IH; [done | lia | | lia].
  rewrite {1}Hq (_ : _ + _ = (2 * (ans / (2 * 2 ^ Z.of_nat n)) + 1) * 2 ^ Z.of_nat n); first ring. by rewrite Z.mod_mul; first lia.
Qed.

(** ** Results *)

(** C35: the routines of i64div.c compute the product modulo 2^64, the quotient
    and the remainder of 64-bit integers; a division by zero gives 2^64 - 1
    and the dividend. *)
Theorem arithmetic_correct x y :
  in64 x -> in64 y ->
  __mulvdi3 x y = w64 (x * y) /\
  __udivdi3 x y = (if y =? 0 then 2 ^ 64 - 1 else x / y) /\
  __umoddi3 x y = (if y =? 0 then x else x mod y).
Proof.
  move=> Hx Hy. have Hmul : forall u v, in64 v -> __mulvdi3 u v = w64 (u * v).
  { move=> u v Hv. rewrite /__mulvdi3 mul_loop_ok //. by rewrite Z.pow_0_r Z.mul_1_r. }
  have Hdiv : __udivdi3 x y = (if y =? 0 then 2 ^ 64 - 1 else x / y).
  { rewrite /__udivdi3. case: Z.eqb_spec => [->|Hz]; first exact: div_by_zero.
    unfold in64 in *. rewrite div_loop_ok //; [lia|]. change (Z.of_nat 64) with 64. nia. }
  split; [exact: Hmul | split; [done|]]. rewrite /__umoddi3 Hdiv Hmul //. case: Z.eqb_spec => [->|Hz].
  - by rewrite Z.mul_0_r Z.sub_0_r w64_small.
  - unfold in64 in Hx, Hy. have Hd := Z.div_mod x y Hz. have Hm := Z.mod_pos_bound x y ltac:(lia).
    have Hq : 0 <= x / y by apply Z.div_pos; lia.
    rewrite (w64_small (x / y * y)); first (unfold in64; nia). rewrite w64_small; first (unfold in64; lia). lia.
Qed.

Lemma arithmetic_correct_witness : __mulvdi3 (2 ^ 63) 3 = 2 ^ 63 /\ __udivdi3 100 7 = 14 /\ __umoddi3 100 7 = 2.
Proof.
  have H1 : in64 (2 ^ 63) /\ in64 3 /\ in64 100 /\ in64 7 by [].
  destruct H1 as (Ha & Hb & Hc & Hd).
  destruct (arithmetic_correct _ _ Ha Hb) as [-> _]. destruct (arithmetic_correct _ _ Hc Hd) as (_ & -> & ->). done.
Defined.

(** The digits of [x] in base [b] as [get] and [count] give them: they stand for
    [x], each is a digit, and there is no zero in front. *)
Definition spells (b : Z) (get : Z -> Z -> Z) (count : Z -> Z) (y x : Z) : Prop :=
  value b (digits get count y) = x /\ Forall (fun d => 0 <= d < b) (digits get count y) /\
  (x <> 0 -> b ^ (count y - 1) <= x).

Lemma spells_ok b step get x y :
  2 <= b -> drops b step -> 0 <= x < 2 ^ 64 -> count_digits step y = count_digits step x ->
  (forall n, 1 <= n <= count_digits step x -> get y n = (x / b ^ (n - 1)) mod b) ->
  spells b get (count_digits step) y x.
Proof.
  move=> Hb Hs Hx Hc Hget. have Ed : digits get (count_digits step) y = digits (fun _ => get y) (count_digits step) x.
  { by rewrite /digits Hc. }
  rewrite /spells Ed Hc. destruct (count_digits_ok b step Hb Hs x Hx) as (H1 & Hlt & Hge). split; [|split].
  - exact: digits_value.
  - apply Forall_fmap, Forall_forall => j Hj. apply elem_of_seq in Hj. simpl. rewrite Hget; first lia.
    apply Z.mod_pos_bound. lia.
  - move=> Hz. case: Hge => [->|//]. rewrite Z.sub_diag Z.pow_0_r. lia.
Qed.

Lemma digits_spell x :
  (0 <= x < 2 ^ 32 -> spells 10 getudigit udigcount x x /\ spells 16 getxdigit xdigcount x x /\
     spells 8 getodigit odigcount x x) /\
  (0 <= x < 2 ^ 64 -> spells 10 getludigit ludigcount x x /\ spells 10 getlludigit lludigcount x x /\
     spells 16 getllxdigit llxdigcount x x) /\
  (- 2 ^ 31 < x < 2 ^ 31 -> spells 10 getdigit digcount x (Z.abs x)).
Proof.
  split; [|split]; move=> Hx.
  - split; [|split]; (apply: spells_ok; [lia | by [exact: div10_drops | exact: shr4_drops | exact: shr3_drops] | lia | done |]);
      move=> n Hn; apply: get_digit_ok => //; try lia; by [exact: div10_drops | exact: shr4_drops | exact: shr3_drops].
  - split; [|split]; (apply: spells_ok; [lia | by [exact: div10_drops | exact: shr4_drops] | lia | done |]);
      move=> n Hn; apply: get_digit_ok => //; try lia; by [exact: div10_drops | exact: shr4_drops].
  - have Hc : digcount x = digcount (Z.abs x).
    { case: (Z.abs_spec x) => [[_ ->]|[_ ->]]; [done | by rewrite digcount_neg]. }
    apply: (spells_ok 10 div10); [lia | exact: div10_drops | lia | exact: Hc |]. move=> n Hn. rewrite /getdigit Hc.
    rewrite (_ : (if x <? 0 then s32 (- x) else x) = Z.abs x).
    { case: Z.ltb_spec => ?; [rewrite s32_neg; lia | lia]. }
    apply: get_digit_ok => //; [exact: div10_drops | lia].
Qed.

(** Printing the digits that the functions of mathex.c count and pick, from
    the first to the last, spells the number: in base 10, 16 and 8, for each
    width, and for negative numbers other than the least their absolute value. *)
Theorem digits_roundtrip x :
  (0 <= x < 2 ^ 32 -> spells 10 getudigit udigcount x x /\ spells 16 getxdigit xdigcount x x /\
     spells 8 getodigit odigcount x x) /\
  (0 <= x < 2 ^ 64 -> spells 10 getludigit ludigcount x x /\ spells 10 getlludigit lludigcount x x /\
     spells 16 getllxdigit llxdigcount x x) /\
  (- 2 ^ 31 < x < 2 ^ 31 -> spells 10 getdigit digcount x (Z.abs x)).
Proof. exact: digits_spell. Qed.

Lemma digits_roundtrip_witness :
  digits getudigit udigcount 2026 = [2; 0; 2; 6] /\ spells 10 getudigit udigcount 2026 2026 /\
  spells 10 getdigit digcount (-407) 407.
Proof.
  split; [by vm_compute|]. split.
  - apply (proj1 (digits_roundtrip 2026)). lia.
  - apply (proj2 (proj2 (digits_roundtrip (-407)))). lia.
Defined.

(** The least number has no absolute value: its digits come out negative. *)
Fact getdigit_least : getdigit (- 2 ^ 31) 1 = -8.
Proof. by vm_compute. Qed.

End CMathT.
