(* ===== verification/CFormat.v ===== *)
(** * Formatted output of the C library

    lib/freestdc/src/common/format.c, which reads a conversion such as %08x,
    and [vsprintf] of lib/freestdc/src/stdio.c.  The format, the strings to
    print and the buffer are in memory; the variable arguments are a list of
    64-bit values, of which the code takes what it expects. *)

From S2P Require Import Prelude CString CMath.
Import CString CMath.

Module CFormat.

Inductive flags_t := FLAGS_NONE | FLAGS_RIGHT_ALIGN | FLAGS_DISPLAY_POSITIVE | FLAGS_SPECIAL_OUTPUT | FLAGS_PADDING_WITH_0.
Inductive length_t := LENGTH_NONE | LENGTH_HALF | LENGTH_LONG | LENGTH_LONG_FLOAT.
Inductive specifier_t := DEC | OCT | HEX | UNSIGNED | FLOAT | FLOAT_EXPONENTIAL | FLOAT_TRIMMED | CHAR | STR | PTR
  | LUNSIGNED | LLUNSIGNED | SIZE | PERCENT.

(** [fmtctl_info_t] *)
Record fmtctl_info_t := mkInfo {
  flags : flags_t; width : Z; precision : Z; len : length_t; specifier : specifier_t
}.

(** A decimal number at [n]: its value and the index after it *)
Definition parse_number (str n : Z) : MM (Z * Z) :=
  walk (fun '(v, n) =>
    c <- load8 (str + n);
    ret (if (48 <=? c) && (c <=? 57) then inl (s32 (s32 (v * 10) + (c - 48)), w64 (n + 1)) else inr (v, n))) (0, n).

Definition flag_of (c : Z) : option flags_t :=
  if c =? 45 then Some FLAGS_RIGHT_ALIGN
  else if c =? 43 then Some FLAGS_DISPLAY_POSITIVE
  else if c =? 35 then Some FLAGS_SPECIAL_OUTPUT
  else if c =? 48 then Some FLAGS_PADDING_WITH_0
  else None.

Definition length_of (c : Z) : option length_t :=
  if c =? 104 then Some LENGTH_HALF
  else if c =? 108 then Some LENGTH_LONG
  else if c =? 76 then Some LENGTH_LONG_FLOAT
  else None.

Definition specifier_of (c : Z) : option specifier_t :=
  if c =? 100 then Some DEC
  else if c =? 111 then Some OCT
  else if (c =? 88) || (c =? 120) then Some HEX
  else if c =? 117 then Some UNSIGNED
  else if c =? 102 then Some FLOAT
  else if (c =? 69) || (c =? 101) then Some FLOAT_EXPONENTIAL
  else if (c =? 71) || (c =? 103) then Some FLOAT_TRIMMED
  else if c =? 99 then Some CHAR
  else if c =? 115 then Some STR
  else if c =? 112 then Some PTR
  else None.

(** The last switch: the specifier and the count of characters, or failure.
    After the inner switch of case 'l' the specifier is [STR] in every case. *)
Definition parse_specifier (str n : Z) : MM (option (specifier_t * Z)) :=
  c <- load8 (str + n);
  let n := w64 (n + 1) in
  match specifier_of c with
  | Some sp => ret (Some (sp, n))
  | None =>
      if c =? 108 then
        c <- load8 (str + n);
        let n := w64 (n + 1) in
        if c =? 117 then ret (Some (STR, n))
        else if c =? 108 then
          c <- load8 (str + n);
          ret (if c =? 117 then Some (STR, n) else None)
        else ret None
      else ret None
  end.

(** The count of characters with the information, or [None] for a count of 0 *)
Definition fmtctl_parse (str : Z) : MM (option (Z * fmtctl_info_t)) :=
  c <- load8 str;
  if negb (c =? 37) then ret None
  else
    c <- load8 (str + 1);
    let '(fl, n) := match flag_of c with Some f => (f, 2) | None => (FLAGS_NONE, 1) end in
    '(w, n) <- parse_number str n;
    c <- load8 (str + n);
    '(p, n) <- (if c =? 46 then parse_number str (w64 (n + 1)) else ret (0, n));
    c <- load8 (str + n);
    let '(l, n) := match length_of c with Some l => (l, w64 (n + 1)) | None => (LENGTH_NONE, n) end in
    sp <- parse_specifier str n;
    ret (match sp with Some (sp, n) => Some (n, mkInfo fl w p l sp) | None => None end).

(** ** Output *)

(** [s[printed_len] = c; printed_len++] *)
Definition put (s pos c : Z) : MM Z := store8 (s + pos) c;; ret (w64 (pos + 1)).

(** [for (int j = 0; j < n; ++j)] of the same *)
Definition pad (s pos n c : Z) : MM Z :=
  r <- for_loop (R := unit) (Z.to_nat n) 0 (fun _ pos => pos <- put s pos c; ret (Next pos)) pos;
  ret (match r with inl (pos, _) => pos | inr _ => pos end).

(** [for (int j = count; j > 0; j--)] of the digits *)
Definition put_digits (s pos : Z) (chr : Z -> Z) (get : Z -> Z -> Z) (x count : Z) : MM Z :=
  r <- for_loop (R := unit) (Z.to_nat count) 0 (fun k pos => pos <- put s pos (chr (get x (count - k))); ret (Next pos)) pos;
  ret (match r with inl (pos, _) => pos | inr _ => pos end).

Definition dec_chr (d : Z) : Z := d + 48.
Definition hex_chr (d : Z) : Z := if 9 <? d then d - 10 + 97 else d + 48.

(** The cases for octal, hexadecimal and unsigned numbers *)
Definition put_number (s pos : Z) (info : fmtctl_info_t) (chr : Z -> Z) (get : Z -> Z -> Z) (count : Z -> Z) (x : Z) : MM Z :=
  let prec := if precision info <? count x then count x else precision info in
  pos <- pad s pos (s32 (width info - prec)) 32;
  pos <- pad s pos (s32 (prec - count x)) 48;
  put_digits s pos chr get x (count x).

Definition put_dec (s pos : Z) (info : fmtctl_info_t) (arg : Z) : MM Z :=
  if 0 <? arg then put_number s pos info dec_chr getdigit digcount arg
  else if arg <? 0 then
    pos <- put s pos 45;
    let prec := if precision info <? digcount arg then digcount arg else precision info in
    pos <- pad s pos (s32 (width info - prec - 1)) 32;
    pos <- pad s pos (s32 (prec - digcount arg - 1)) 48;
    put_digits s pos dec_chr getdigit arg (digcount arg)
  else
    pos <- pad s pos (s32 (width info - precision info)) 32;
    pos <- pad s pos (precision info) 48;
    store8 (s + pos) 48;;
    ret pos.

Definition put_str (s pos : Z) (info : fmtctl_info_t) (arg : Z) : MM Z :=
  n <- strlen arg;
  pos <- pad s pos (s32 (width info - n)) 32;
  n <- strlen arg;
  memcpy (s + pos) arg n;;
  n <- strlen arg;
  ret (w64 (pos + n)).

Definition put_char (s pos : Z) (info : fmtctl_info_t) (arg : Z) : MM Z :=
  pos <- pad s pos (s32 (width info - 1)) 32;
  put s pos arg.

Definition put_ptr (s pos : Z) (info : fmtctl_info_t) (arg : Z) : MM Z :=
  pos <- pad s pos (s32 (width info - 8 - 2)) 32;
  pos <- put s pos 48;
  pos <- put s pos 120;
  pos <- pad s pos (8 - xdigcount arg) 48;
  put_digits s pos hex_chr getxdigit arg (xdigcount arg).

(** [va_arg] *)
Definition va_arg (args : list Z) : MM (Z * list Z) :=
  match args with
  | a :: args => ret (a, args)
  | [] => fun _ => Fault
  end.

Definition uint (z : Z) : Z := z mod 2 ^ 32.

(** The switch over the specifier *)
Definition convert (s pos : Z) (info : fmtctl_info_t) (args : list Z) : MM (Z * list Z) :=
  let take (f : Z -> MM Z) : MM (Z * list Z) :=
    '(a, args) <- va_arg args;
    pos <- f a;
    ret (pos, args) in
  match specifier info with
  | DEC => take (fun a => put_dec s pos info (s32 a))
  | OCT => take (fun a => put_number s pos info dec_chr getodigit odigcount (uint a))
  | HEX => take (fun a => put_number s pos info hex_chr getxdigit xdigcount (uint a))
  | UNSIGNED | LUNSIGNED => take (fun a => put_number s pos info dec_chr getudigit udigcount (uint a))
  | FLOAT | FLOAT_EXPONENTIAL | FLOAT_TRIMMED | SIZE => ret (pos, args)
  | STR => take (fun a => put_str s pos info (w64 a))
  | CHAR => take (fun a => put_char s pos info (s32 a))
  | PTR => take (fun a => put_ptr s pos info (uint a))
  | LLUNSIGNED => take (fun a => put_number s pos info dec_chr getlludigit lludigcount (w64 a))
  | PERCENT => pos <- put s pos 37; ret (pos, args)
  end.

(** The variables of the loop *)
Record scan := mkScan { index : Z; print_start : Z; print_len : Z; printed_len : Z; args : list Z }.

Definition scan_round (s fmt : Z) (st : scan) : MM (scan + option scan) :=
  n <- strlen fmt;
  if index st <? n then
    c <- load8 (fmt + index st);
    if c =? 37 then
      memcpy (s + printed_len st) (fmt + print_start st) (print_len st);;
      let printed := w64 (printed_len st + print_len st) in
      r <- fmtctl_parse (fmt + index st);
      match r with
      | None => ret (inr None)
      | Some (parsed_len, info) =>
          let i := w64 (index st + parsed_len) in
          '(printed, args) <- convert s printed info (args st);
          ret (inl (mkScan i i 0 printed args))
      end
    else ret (inl (mkScan (w64 (index st + 1)) (print_start st) (w64 (print_len st + 1)) (printed_len st) (args st)))
  else ret (inr (Some st)).

Definition vsprintf (s fmt : Z) (va : list Z) : MM Z :=
  r <- walk (scan_round s fmt) (mkScan 0 0 0 0 va);
  match r with
  | None => ret (-1)
  | Some st =>
      strcpy (s + printed_len st) (fmt + print_start st);;
      ret (s32 (printed_len st + print_len st))
  end.

End CFormat.
