(* ===== verification/CFormatTheorems.v ===== *)
(** * Theorems on the formatted output of the C library *)

From S2P Require Import Prelude CString CStringTheorems CMath CMathTheorems CFormat.
Import CString CStringT CMath CMathT CFormat.

Module CFormatT.

Implicit Types (m : gmap Z Z) (t : list Z).

(** ** Text written at the end of the output *)

Definition puts m a t m' : Prop := written m a (Z.of_nat (length t)) (chars t) m' /\ (bytes m -> bytes m').

Lemma puts_nil m a : puts m a [] m.
Proof. split; [|done]. move=> x. case: withinP => // ?. simpl in *. lia. Qed.

Lemma puts_app m a t1 t2 m1 m2 :
  puts m a t1 m1 -> puts m1 (a + Z.of_nat (length t1)) t2 m2 -> puts m a (t1 ++ t2) m2.
Proof.
  move=> [H1 B1] [H2 B2]. split; [|auto]. move=> x. rewrite H2 H1 length_app Nat2Z.inj_add.
  case: (withinP (a + _)) => Hx.
  - case: withinP => Hx2; last lia. f_equal. rewrite /chars lookup_app_r; first lia. do 2 f_equal. lia.
  - case: withinP => Hx2; case: withinP => Hx3; try lia; last done. f_equal. rewrite /chars lookup_app_l //. lia.
Qed.

Lemma puts_dom m a t m' : range m a (Z.of_nat (length t)) -> puts m a t m' -> same_dom m m'.
Proof. move=> Hr [Hw _]. exact: written_dom Hr Hw. Qed.

(** [f] writes [t] at the position [pos] of the buffer [s] and gives the next
    position. *)
Definition prints (f : MM Z) m s pos t : Prop :=
  runs f m (fun pos' m' => pos' = pos + Z.of_nat (length t) /\ puts m (s + pos) t m').

(** There is room for [n] bytes at position [pos]. *)
Definition room m s pos n : Prop := 0 < s /\ 0 <= pos /\ range m (s + pos) n.

Lemma room_sub m s pos n k : room m s pos n -> 0 <= k <= n -> room m s pos k.
Proof. move=> [? [? Hr]] ?. split; [done | split; [done|]]. apply: (range_sub _ _ _ _ _ Hr); lia. Qed.

Lemma room_next m m' s pos n t :
  room m s pos n -> Z.of_nat (length t) <= n -> puts m (s + pos) t m' ->
  room m' s (pos + Z.of_nat (length t)) (n - Z.of_nat (length t)).
Proof.
  move=> [? [? Hr]] Hn Hp. split; [done | split; [lia|]].
  apply: (range_dom m); first by apply: (puts_dom _ _ _ _ _ Hp); apply: (range_sub _ _ _ _ _ Hr); lia.
  apply: (range_sub _ _ _ _ _ Hr); lia.
Qed.

Lemma prints_ret m s pos : prints (ret pos) m s pos [].
Proof. apply: runs_ret. split; [simpl; lia | exact: puts_nil]. Qed.

Lemma prints_bind f (g : Z -> MM Z) m s pos t1 t2 n :
  room m s pos n -> Z.of_nat (length t1) <= n -> prints f m s pos t1 ->
  (forall m1, room m1 s (pos + Z.of_nat (length t1)) (n - Z.of_nat (length t1)) -> puts m (s + pos) t1 m1 ->
     prints (g (pos + Z.of_nat (length t1))) m1 s (pos + Z.of_nat (length t1)) t2) ->
  prints (bind f g) m s pos (t1 ++ t2).
Proof.
  move=> Hroom Hn Hf Hg. apply: runs_bind Hf _ => pos' m1 [-> H1].
  apply: runs_mono (Hg m1 (room_next _ _ _ _ _ _ Hroom Hn H1) H1) _ => pos2 m2 [-> H2].
  rewrite length_app Nat2Z.inj_add. split; [lia|]. apply: puts_app H1 _. by rewrite Z.add_assoc in H2.
Qed.

Lemma put_ok m s pos c : room m s pos 1 -> prints (put s pos c) m s pos [c mod 256].
Proof.
  move=> [Hs [Hp Hr]]. case: (Hr) => _ _ Hhi _. rewrite /prints /runs /put (bind_ok _ _ _ _ _ (store8_ok _ _ c Hr)).
  eexists _, _. split; [done|]. rewrite w64_small; first (unfold in64; lia). split; [done|].
  split; last first.
  { move=> Hb x v. rewrite lookup_insert_Some => - [[_ <-]|[_ Hx]]; [exact: Z.mod_pos_bound | exact: Hb Hx]. }
  move=> x. case: withinP => Hx.
  - rewrite (_ : x = s + pos); first (simpl in Hx; lia). by rewrite lookup_insert_eq Z.sub_diag.
  - rewrite lookup_insert_ne //. simpl in Hx. lia.
Qed.

(** A loop that puts a character in every round *)
Lemma loop_puts (f : Z -> Z) n i m s pos :
  room m s pos (Z.of_nat n) ->
  runs (for_loop (R := unit) n i (fun k pos => pos <- put s pos (f k); ret (Next pos)) pos) m (fun r m' =>
    r = inl (pos + Z.of_nat n, i + Z.of_nat n) /\ puts m (s + pos) ((fun j => f (i + Z.of_nat j) mod 256) <$> seq 0 n) m').
Proof.
  elim: n i m pos => [|n IH] i m pos Hroom.
  { apply: runs_ret. rewrite !Z.add_0_r. split; [done | exact: puts_nil]. }
  have Hr0 : room m s pos 1 by apply: room_sub Hroom _; lia.
  simpl. destruct (put_ok m s pos (f i) Hr0) as (pos1 & m1 & E1 & -> & H1).
  rewrite /runs bind_assoc (bind_ok _ _ _ _ _ E1). cbn [ret bind].
  have Hr1 : room m1 s (pos + 1) (Z.of_nat n).
  { have := room_next _ _ _ _ _ _ Hroom _ H1. simpl. rewrite (_ : Z.of_nat (S n) - 1 = Z.of_nat n); first lia. apply. lia. }
  destruct (IH (i + 1) m1 (pos + 1) Hr1) as (r & m2 & E2 & -> & H2). eexists _, m2. split; first exact E2.
  split; first by do 2 f_equal; lia.
  change (puts m (s + pos) ([f (i + 0) mod 256] ++ ((fun j : nat => f (i + Z.of_nat j) mod 256) <$> seq 1 n)) m2).
  rewrite Z.add_0_r -fmap_S_seq -list_fmap_compose. apply: puts_app H1 _.
  rewrite -Z.add_assoc. move: H2. rewrite (_ : (fun j : nat => f (i + 1 + Z.of_nat j) mod 256) <$> seq 0 n
    = ((fun j : nat => f (i + Z.of_nat j) mod 256) ∘ S) <$> seq 0 n) //.
  apply: list_fmap_ext => k y _ /=. do 2 f_equal. lia.
Qed.

Lemma const_seq (c : Z) k n : (fun _ : nat => c) <$> seq k n = replicate n c.
Proof. elim: n k => [|n IH] k //=. f_equal. exact: IH. Qed.

Lemma pad_ok m s pos n c :
  room m s pos (Z.max 0 n) -> prints (pad s pos n c) m s pos (replicate (Z.to_nat n) (c mod 256)).
Proof.
  move=> Hr. rewrite /pad. have := loop_puts (fun _ => c) (Z.to_nat n) 0 m s pos.
  rewrite (_ : Z.of_nat (Z.to_nat n) = Z.max 0 n); first lia. move=> /(_ Hr) Hl. destruct Hl as (r & m' & E & -> & H).
  rewrite /prints /runs (bind_ok _ _ _ _ _ E). eexists _, _. split; [done|]. rewrite length_replicate. split; first lia.
  move: H. rewrite (_ : (fun _ : nat => c mod 256) <$> seq 0 (Z.to_nat n) = replicate (Z.to_nat n) (c mod 256)) //.
  exact: const_seq.
Qed.

Lemma put_digits_ok m s pos chr get x count :
  room m s pos count -> 0 <= count ->
  prints (put_digits s pos chr get x count) m s pos
    ((fun j => chr (get x (count - Z.of_nat j)) mod 256) <$> seq 0 (Z.to_nat count)).
Proof.
  move=> Hr Hc. rewrite /put_digits. have := loop_puts (fun k => chr (get x (count - k))) (Z.to_nat count) 0 m s pos.
  rewrite Z2Nat.id // => /(_ Hr) Hl. destruct Hl as (r & m' & E & -> & H).
  rewrite /prints /runs (bind_ok _ _ _ _ _ E). eexists _, _. split; [done|]. rewrite length_fmap length_seq Z2Nat.id //.
Qed.

(** ** What each conversion prints *)

Definition spaces (n : Z) : list Z := replicate (Z.to_nat n) 32.
Definition zeros (n : Z) : list Z := replicate (Z.to_nat n) 48.

Definition number_text (info : fmtctl_info_t) (chr : Z -> Z) (ds : list Z) : list Z :=
  let c := Z.of_nat (length ds) in
  let p := Z.max (precision info) c in
  spaces (width info - p) ++ zeros (p - c) ++ (chr <$> ds).

(** The sign comes before the padding, and counts in it. *)
Definition negative_text (info : fmtctl_info_t) (ds : list Z) : list Z :=
  let c := Z.of_nat (length ds) in
  let p := Z.max (precision info) c in
  [45] ++ spaces (width info - p - 1) ++ zeros (p - c - 1) ++ (dec_chr <$> ds).

Definition pointer_text (info : fmtctl_info_t) (ds : list Z) : list Z :=
  spaces (width info - 8 - 2) ++ [48; 120] ++ zeros (8 - Z.of_nat (length ds)) ++ (hex_chr <$> ds).

Definition info_ok (info : fmtctl_info_t) : Prop := 0 <= width info < 2 ^ 31 /\ 0 <= precision info < 2 ^ 31.

Lemma pads_ok m s pos n k c :
  room m s pos n -> - 2 ^ 31 <= k < 2 ^ 31 -> Z.max 0 k <= n -> 0 <= c < 256 ->
  prints (pad s pos (s32 k) c) m s pos (replicate (Z.to_nat k) c).
Proof.
  move=> Hr Hk Hn Hc. rewrite s32_small // -{2}(Z.mod_small c 256) //. apply: pad_ok. apply: room_sub Hr _. lia.
Qed.

(** The digits of a number as the code prints them *)
Lemma digits_text m s pos chr get count b x :
  room m s pos (Z.of_nat (length (digits get count x))) -> 0 <= count x ->
  Forall (fun d => 0 <= d < b) (digits get count x) -> (forall d, 0 <= d < b -> 0 <= chr d < 256) ->
  prints (put_digits s pos chr get x (count x)) m s pos (chr <$> digits get count x).
Proof.
  move=> Hr Hc Hd Hchr. have Hlen : Z.of_nat (length (digits get count x)) = count x.
  { rewrite /digits length_fmap length_seq. lia. }
  rewrite Hlen in Hr. have := put_digits_ok m s pos chr get x (count x) Hr Hc.
  rewrite (_ : (fun j : nat => chr (get x (count x - Z.of_nat j)) mod 256) <$> seq 0 (Z.to_nat (count x)) = chr <$> digits get count x) //.
  rewrite /digits -list_fmap_compose. apply: list_fmap_ext => j y Hy. simpl. apply Z.mod_small. apply: Hchr.
  rewrite /digits in Hd. apply (proj1 (Forall_fmap _ _ _)) in Hd. exact: (Forall_lookup_1 _ _ _ _ Hd Hy).
Qed.

Lemma dec_chr_byte d : 0 <= d < 10 -> 0 <= dec_chr d < 256.
Proof. rewrite /dec_chr. lia. Qed.
Lemma oct_chr_byte d : 0 <= d < 8 -> 0 <= dec_chr d < 256.
Proof. rewrite /dec_chr. lia. Qed.
Lemma hex_chr_byte d : 0 <= d < 16 -> 0 <= hex_chr d < 256.
Proof. rewrite /hex_chr. case: Z.ltb_spec; lia. Qed.

Lemma length_digits get count x : 0 <= count x -> Z.of_nat (length (digits get count x)) = count x.
Proof. move=> Hc. rewrite /digits length_fmap length_seq. lia. Qed.

Lemma put_number_ok m s pos info chr get count b x :
  info_ok info -> 1 <= count x <= 64 -> Forall (fun d => 0 <= d < b) (digits get count x) ->
  (forall d, 0 <= d < b -> 0 <= chr d < 256) ->
  room m s pos (Z.of_nat (length (number_text info chr (digits get count x)))) ->
  prints (put_number s pos info chr get count x) m s pos (number_text info chr (digits get count x)).
Proof.
  move=> [Hw Hp] Hc Hd Hchr. rewrite /number_text /put_number length_digits; first lia.
  rewrite (_ : (if precision info <? count x then count x else precision info) = Z.max (precision info) (count x)).
  { case: Z.ltb_spec; lia. }
  set p := Z.max _ _. have Hpp : count x <= p < 2 ^ 31 by unfold p; lia.
  rewrite !length_app !length_replicate length_fmap => Hr.
  have Hl := length_digits get count x ltac:(lia).
  apply: (prints_bind _ _ _ _ _ _ _ _ Hr); [rewrite length_replicate; lia | apply: (pads_ok _ _ _ _ _ _ Hr); lia |].
  move=> m1 Hr1 _. rewrite length_replicate in Hr1 |- *.
  apply: (prints_bind _ _ _ _ _ _ _ _ Hr1); [rewrite length_replicate; lia | apply: (pads_ok _ _ _ _ _ _ Hr1); lia |].
  move=> m2 Hr2 _. rewrite length_replicate in Hr2 |- *. apply: (digits_text _ _ _ _ _ _ b) => //; last lia.
  apply: room_sub Hr2 _. lia.
Qed.

(** Reading of lengths in sums of texts *)
Ltac lens := rewrite ?length_app ?length_replicate ?length_fmap ?length_seq ?length_cons; cbn [length]; lia.

Lemma put_negative_ok m s pos info x :
  info_ok info -> - 2 ^ 31 < x < 0 -> 1 <= digcount x <= 64 ->
  Forall (fun d => 0 <= d < 10) (digits getdigit digcount x) ->
  room m s pos (Z.of_nat (length (negative_text info (digits getdigit digcount x)))) ->
  prints (put_dec s pos info x) m s pos (negative_text info (digits getdigit digcount x)).
Proof.
  move=> [Hw Hp] Hx Hc Hd. rewrite /put_dec (proj2 (Z.ltb_ge 0 x)); first lia. rewrite (proj2 (Z.ltb_lt x 0)); first lia.
  rewrite /negative_text length_digits; first lia.
  rewrite (_ : (if precision info <? digcount x then digcount x else precision info) = Z.max (precision info) (digcount x)).
  { case: Z.ltb_spec; lia. }
  set p := Z.max _ _. have Hpp : digcount x <= p < 2 ^ 31 by unfold p; lia. move=> Hr.
  have Hl := length_digits getdigit digcount x ltac:(lia).
  have Htot : 1 + Z.max 0 (width info - p - 1) + Z.max 0 (p - digcount x - 1) + digcount x
    <= Z.of_nat (length ([45] ++ spaces (width info - p - 1) ++ zeros (p - digcount x - 1) ++ (dec_chr <$> digits getdigit digcount x))).
  { rewrite /spaces /zeros. lens. }
  apply: (prints_bind _ _ _ _ _ _ _ _ Hr); [simpl; lia | apply: put_ok; apply: room_sub Hr _; lia |].
  move=> m1 Hr1 _. cbn [length] in Hr1 |- *.
  apply: (prints_bind _ _ _ _ _ _ _ _ Hr1); [rewrite length_replicate; lia | apply: (pads_ok _ _ _ _ _ _ Hr1); lia |].
  move=> m2 Hr2 _. rewrite length_replicate in Hr2 |- *.
  apply: (prints_bind _ _ _ _ _ _ _ _ Hr2); [rewrite length_replicate; lia | apply: (pads_ok _ _ _ _ _ _ Hr2); lia |].
  move=> m3 Hr3 _. rewrite length_replicate in Hr3 |- *. apply: (digits_text _ _ _ _ _ _ 10); [| lia | done | exact: dec_chr_byte].
  apply: room_sub Hr3 _. lia.
Qed.

Lemma put_char_ok m s pos info a :
  info_ok info -> room m s pos (Z.of_nat (length (spaces (width info - 1) ++ [a mod 256]))) ->
  prints (put_char s pos info a) m s pos (spaces (width info - 1) ++ [a mod 256]).
Proof.
  move=> [Hw Hp] Hr. have Hl : Z.of_nat (length (spaces (width info - 1) ++ [a mod 256])) = Z.max 0 (width info - 1) + 1.
  { rewrite /spaces. lens. }
  apply: (prints_bind _ _ _ _ _ _ _ _ Hr); [rewrite /spaces; lens | apply: (pads_ok _ _ _ _ _ _ Hr); lia |].
  move=> m1 Hr1 _. apply: put_ok. apply: room_sub Hr1 _. rewrite length_replicate. lia.
Qed.

Lemma put_ptr_ok m s pos info x :
  info_ok info -> 1 <= xdigcount x <= 8 -> Forall (fun d => 0 <= d < 16) (digits getxdigit xdigcount x) ->
  room m s pos (Z.of_nat (length (pointer_text info (digits getxdigit xdigcount x)))) ->
  prints (put_ptr s pos info x) m s pos (pointer_text info (digits getxdigit xdigcount x)).
Proof.
  move=> [Hw Hp] Hc Hd. rewrite /pointer_text length_digits; first lia. move=> Hr.
  have Hl := length_digits getxdigit xdigcount x ltac:(lia).
  have Htot : Z.max 0 (width info - 8 - 2) + 2 + (8 - xdigcount x) + xdigcount x
    <= Z.of_nat (length (spaces (width info - 8 - 2) ++ [48; 120] ++ zeros (8 - xdigcount x) ++ (hex_chr <$> digits getxdigit xdigcount x))).
  { rewrite /spaces /zeros. lens. }
  move: Hr Htot. generalize (Z.of_nat (length (spaces (width info - 8 - 2) ++ [48; 120] ++ zeros (8 - xdigcount x) ++
    (hex_chr <$> digits getxdigit xdigcount x)))) => N Hr Htot.
  rewrite /put_ptr. apply: (prints_bind _ _ _ _ _ _ _ _ Hr); [rewrite /spaces; lens | apply: (pads_ok _ _ _ _ _ _ Hr); lia |].
  move=> m1 Hr1 _. rewrite length_replicate in Hr1 |- *. change ([48; 120] ++ ?l) with ([48] ++ [120] ++ l).
  apply: (prints_bind _ _ _ _ _ [48] _ _ Hr1); [simpl; lia | apply: put_ok; apply: room_sub Hr1 _; lia |].
  move=> m2 Hr2 _. cbn [length] in Hr2 |- *.
  apply: (prints_bind _ _ _ _ _ [120] _ _ Hr2); [simpl; lia | apply: put_ok; apply: room_sub Hr2 _; lia |].
  move=> m3 Hr3 _. cbn [length] in Hr3 |- *.
  apply: (prints_bind _ _ _ _ _ _ _ _ Hr3); [rewrite /zeros; lens | |].
  { apply: pad_ok. apply: room_sub Hr3 _. lia. }
  move=> m4 Hr4 _. rewrite length_replicate in Hr4 |- *. apply: (digits_text _ _ _ _ _ _ 16); [| lia | done | exact: hex_chr_byte].
  apply: room_sub Hr4 _. lia.
Qed.

(** A string that the buffer does not touch *)
Lemma puts_cstr m a t m' p l :
  puts m a t m' -> cstr m p l -> apart p l a (Z.of_nat (length t)) -> cstr m' p l.
Proof. move=> [Hp _] Hc Ha. apply: (cstr_outside _ _ _ _ _ _ Hc); [|exact: Ha]. move=> x Hx. exact: written_outside Hp Hx. Qed.

Lemma copied_puts m dest src l m' :
  cstr m src l -> copied m dest src (Z.of_nat (length l)) m' -> puts m dest l m'.
Proof.
  move=> Hc Hcp. split; [|move=> Hb; exact: copied_bytes Hb Hcp]. move=> x. rewrite Hcp. case: withinP => Hx; last done.
  destruct (lookup_lt_is_Some_2 l (Z.to_nat (x - dest))) as [b Hb]; first lia.
  rewrite /chars Hb /= -(cs_at _ _ _ Hc _ _ Hb). f_equal. lia.
Qed.

Lemma put_str_ok m s pos info p l :
  info_ok info -> bytes m -> cstr m p l -> Z.of_nat (length l) < 2 ^ 31 ->
  room m s pos (Z.of_nat (length (spaces (width info - Z.of_nat (length l)) ++ l))) ->
  apart p l (s + pos) (Z.of_nat (length (spaces (width info - Z.of_nat (length l)) ++ l))) ->
  prints (put_str s pos info p) m s pos (spaces (width info - Z.of_nat (length l)) ++ l).
Proof.
  move=> [Hw Hp] Hb Hc Hlen Hr Ha. set k := width info - Z.of_nat (length l) in Hr Ha |- *.
  have Hl : Z.of_nat (length (spaces k ++ l)) = Z.max 0 k + Z.of_nat (length l) by rewrite /spaces; lens.
  rewrite Hl in Hr Ha. rewrite /put_str /prints /runs (bind_ok _ _ _ _ _ (strlen_ok _ _ _ Hc)).
  change (prints (bind (pad s pos (s32 k) 32) (fun pos => n <- strlen p; memcpy (s + pos) p n;; n <- strlen p; ret (w64 (pos + n))))
    m s pos (spaces k ++ l)).
  apply: (prints_bind _ _ _ _ _ _ _ _ Hr); [rewrite /spaces; lens | apply: (pads_ok _ _ _ _ _ _ Hr); lia |].
  move=> m1 Hr1 H1. rewrite length_replicate in Hr1 |- *.
  have Hc1 : cstr m1 p l by apply: (puts_cstr _ _ _ _ _ _ H1 Hc); move: Ha; rewrite /apart /spaces; lens.
  have Hb1 : bytes m1 := proj2 H1 Hb.
  rewrite /prints /runs (bind_ok _ _ _ _ _ (strlen_ok _ _ _ Hc1)). set q := pos + Z.of_nat (Z.to_nat k) in Hr1 |- *.
  case: (Hr1) => [Hs [Hq Hrq]]. have Hcr := cstr_range _ _ _ Hc1.
  destruct (memcpy_ok m1 (s + q) p (Z.of_nat (length l)) Hb1) as (r & m2 & E2 & _ & H2).
  - apply: (range_sub _ _ _ _ _ Hcr); lia.
  - apply: (range_sub _ _ _ _ _ Hrq); lia.
  - move: Ha. rewrite /apart. unfold q. lia.
  - rewrite (bind_ok _ _ _ _ _ E2). have H2p := copied_puts _ _ _ _ _ Hc1 H2.
    have Hc2 : cstr m2 p l by apply: (puts_cstr _ _ _ _ _ _ H2p Hc1); move: Ha; rewrite /apart; unfold q; lia.
    rewrite (bind_ok _ _ _ _ _ (strlen_ok _ _ _ Hc2)). eexists _, _. split; [done|]. split; [|done].
    case: Hrq => _ _ Hhi _. apply: w64_small. unfold in64. lia.
Qed.

(** How many digits there are *)
Lemma count_bound b step x n :
  2 <= b -> drops b step -> 0 <= x < 2 ^ 64 -> x < b ^ n -> 1 <= n -> 1 <= count_digits step x <= n.
Proof.
  move=> Hb Hs Hx Hn Hn1. destruct (count_digits_ok b step Hb Hs x Hx) as (H1 & Hlt & Hge). split; [done|].
  case: Hge => [->|Hge]; first done. have Hp : b ^ (count_digits step x - 1) < b ^ n by lia.
  apply Z.pow_lt_mono_r_iff in Hp; lia.
Qed.

Lemma pow_10_64 : 2 ^ 64 < 10 ^ 64. Proof. by vm_compute. Qed.
Lemma pow_8_64 : 2 ^ 64 < 8 ^ 64. Proof. by vm_compute. Qed.
Lemma pow_16_64 : 2 ^ 64 < 16 ^ 64. Proof. by vm_compute. Qed.

(** An argument: a number, or the address of a string *)
Inductive datum := Num (a : Z) | Text (p : Z) (l : list Z).

Definition raw (d : datum) : Z := match d with Num a => a | Text p _ => p end.

(** What a conversion prints; [None] when the argument does not fit it or is a
    zero for %d, which the code does not count *)
Definition render (info : fmtctl_info_t) (d : datum) : option (list Z) :=
  match specifier info, d with
  | DEC, Num a =>
      if 0 <? s32 a then Some (number_text info dec_chr (digits getdigit digcount (s32 a)))
      else if s32 a <? 0 then Some (negative_text info (digits getdigit digcount (s32 a)))
      else None
  | OCT, Num a => Some (number_text info dec_chr (digits getodigit odigcount (uint a)))
  | HEX, Num a => Some (number_text info hex_chr (digits getxdigit xdigcount (uint a)))
  | UNSIGNED, Num a => Some (number_text info dec_chr (digits getudigit udigcount (uint a)))
  | CHAR, Num a => Some (spaces (width info - 1) ++ [s32 a mod 256])
  | PTR, Num a => Some (pointer_text info (digits getxdigit xdigcount (uint a)))
  | STR, Text p l => Some (spaces (width info - Z.of_nat (length l)) ++ l)
  | _, _ => None
  end.

(** The argument can be printed: %d excludes the least number, and a string is
    in memory, away from the [n] bytes at [a]. *)
Definition datum_ok m a n (d : datum) : Prop :=
  match d with
  | Num z => s32 z <> - 2 ^ 31
  | Text p l => in64 p /\ cstr m p l /\ Z.of_nat (length l) < 2 ^ 31 /\ apart p l a n
  end.

Lemma s32_range z : - 2 ^ 31 <= s32 z < 2 ^ 31.
Proof. rewrite /s32. have := Z.mod_pos_bound (z + 2 ^ 31) (2 ^ 32) ltac:(lia). lia. Qed.

Lemma uint_range z : 0 <= uint z < 2 ^ 32.
Proof. exact: Z.mod_pos_bound. Qed.

Lemma apart_sub p l a n k : apart p l a n -> k <= n -> apart p l a k.
Proof. rewrite /apart. lia. Qed.

Lemma digcount_bound x : - 2 ^ 31 < x < 2 ^ 31 -> 1 <= digcount x <= 64.
Proof.
  move=> Hx. have Hc : digcount x = digcount (Z.abs x).
  { case: (Z.abs_spec x) => [[_ ->]|[_ ->]]; [done | by rewrite digcount_neg]. }
  rewrite Hc. apply: (count_bound 10); [lia | exact: div10_drops | lia | have := pow_10_64; lia | lia].
Qed.

(** One number, whatever its base *)
Lemma put_unsigned_ok m s pos info chr get b step x :
  2 <= b <= 16 -> 8 <= b -> drops b step -> 0 <= x < 2 ^ 32 -> info_ok info ->
  spells b get (count_digits step) x x -> (forall d, 0 <= d < b -> 0 <= chr d < 256) ->
  room m s pos (Z.of_nat (length (number_text info chr (digits get (count_digits step) x)))) ->
  prints (put_number s pos info chr get (count_digits step) x) m s pos (number_text info chr (digits get (count_digits step) x)).
Proof.
  move=> Hb Hb8 Hs Hx Hi [_ [Hd _]] Hchr. apply: (put_number_ok _ _ _ _ _ _ _ b) => //.
  have Hp : 8 ^ 64 <= b ^ 64 by apply Z.pow_le_mono_l; lia.
  have := pow_8_64. move=> ?. apply: (count_bound b) => //; lia.
Qed.

Lemma convert_ok m s pos info d va t n :
  info_ok info -> bytes m -> render info d = Some t -> room m s pos n -> Z.of_nat (length t) <= n ->
  datum_ok m (s + pos) n d ->
  runs (convert s pos info (raw d :: va)) m (fun r m' =>
    r = (pos + Z.of_nat (length t), va) /\ puts m (s + pos) t m').
Proof.
  move=> Hi Hb Ht Hr Hn Hd.
  have Hr' : room m s pos (Z.of_nat (length t)) by apply: room_sub Hr _; lia.
  have Htake : forall f, prints (f (raw d)) m s pos t ->
    runs ('(a, va) <- va_arg (raw d :: va); pos <- f a; ret (pos, va)) m (fun r m' =>
      r = (pos + Z.of_nat (length t), va) /\ puts m (s + pos) t m').
  { move=> f Hf. rewrite /runs /va_arg. cbn [bind ret]. apply: runs_bind Hf _ => pos' m' [-> Hp]. by apply: runs_ret. }
  move: Ht. rewrite /render /convert. destruct (specifier info), d as [a|p l]; try done.
  - destruct (digits_spell (s32 a)) as (_ & _ & Hdig). have Hsr := s32_range a. simpl in Hd. specialize (Hdig ltac:(lia)).
    have Hcb := digcount_bound (s32 a) ltac:(lia).
    case: Z.ltb_spec => Hpos; [|case: Z.ltb_spec => Hneg; last done]; move=> [Et]; subst t; apply: Htake.
    + rewrite /put_dec (proj2 (Z.ltb_lt _ _) Hpos). case: Hdig => [_ [Hf _]]. apply: (put_number_ok _ _ _ _ _ _ _ 10) => //. exact: dec_chr_byte.
    + case: Hdig => [_ [Hf _]]. apply: put_negative_ok => //. simpl in *. lia.
  - move=> [Et]; subst t; apply: Htake. have Hu := uint_range a.
    apply: (put_unsigned_ok _ _ _ _ _ _ 8) => //; [exact: shr3_drops | | exact: oct_chr_byte].
    apply (proj1 (digits_spell (uint a)) Hu).
  - move=> [Et]; subst t; apply: Htake. have Hu := uint_range a.
    apply: (put_unsigned_ok _ _ _ _ _ _ 16) => //; [exact: shr4_drops | | exact: hex_chr_byte].
    apply (proj1 (digits_spell (uint a)) Hu).
  - move=> [Et]; subst t; apply: Htake. have Hu := uint_range a.
    apply: (put_unsigned_ok _ _ _ _ _ _ 10) => //; [exact: div10_drops | | exact: dec_chr_byte].
    apply (proj1 (digits_spell (uint a)) Hu).
  - move=> [Et]; subst t; apply: Htake. exact: put_char_ok.
  - move=> [Et]; subst t; apply: Htake. destruct Hd as (Hp & Hc & Hl & Ha). rewrite /= w64_small //.
    apply: put_str_ok => //. exact: apart_sub Ha Hn.
  - move=> [Et]; subst t; apply: Htake. have Hu := uint_range a. destruct (proj1 (digits_spell (uint a)) Hu) as (_ & [_ [Hf _]] & _).
    apply: put_ptr_ok => //. apply: (count_bound 16); [lia | exact: shr4_drops | simpl; lia | simpl; lia | lia].
Qed.

(** ** Reading a conversion *)

Lemma load_at m a l n : cstr m a l -> 0 <= n <= Z.of_nat (length l) -> load8 (a + n) m = Ok (chars l n, m).
Proof. move=> Hc Hn. exact: (proj1 (load_char _ _ _ _ Hc Hn)). Qed.

Lemma chars_app l1 l2 : chars (l1 ++ l2) (Z.of_nat (length l1)) = chars l2 0.
Proof. rewrite /chars Nat2Z.id lookup_app_r // Nat.sub_diag. done. Qed.

Definition digit_list (ds : list Z) : Prop := Forall (fun d => 0 <= d < 10) ds.

Lemma value_nonneg ds : digit_list ds -> 0 <= value 10 ds.
Proof.
  elim/rev_ind: ds => [|d ds IH] // /Forall_app [H1 /Forall_singleton Hd]. rewrite value_app. have := IH H1. lia.
Qed.

Lemma value_prefix l1 l2 : digit_list (l1 ++ l2) -> value 10 l1 <= value 10 (l1 ++ l2).
Proof.
  elim/rev_ind: l2 => [|d l2 IH]; first by rewrite app_nil_r. rewrite app_assoc => /Forall_app [H1 /Forall_singleton Hd].
  rewrite value_app. have := IH H1. have := value_nonneg _ H1. lia.
Qed.

Definition digit_char (c : Z) : bool := (48 <=? c) && (c <=? 57).

Lemma parse_number_ok m a l pre ds rest :
  cstr m a l -> l = pre ++ (dec_chr <$> ds) ++ rest -> digit_list ds -> value 10 ds < 2 ^ 31 ->
  digit_char (chars rest 0) = false ->
  parse_number a (Z.of_nat (length pre)) m = Ok ((value 10 ds, Z.of_nat (length pre) + Z.of_nat (length ds)), m).
Proof.
  move=> Hc El Hd Hv Hrest. case: (cstr_range _ _ _ Hc) => _ Ha0 Ha1 _.
  have Hlen : length l = (length pre + length ds + length rest)%nat by rewrite El !length_app length_fmap; lia.
  have Hr : runs (parse_number a (Z.of_nat (length pre))) m (fun r m' =>
    r = (value 10 ds, Z.of_nat (length pre) + Z.of_nat (length ds)) /\ m' = m); last first.
  { by destruct Hr as (r & m' & -> & -> & ->). }
  rewrite /parse_number /walk.
  apply: (loop_rule (fun st m' => m' = m /\ exists k : nat, (k <= length ds)%nat /\
      st = (value 10 (take k ds), Z.of_nat (length pre) + Z.of_nat k))
    (fun st => (length pre + length ds - Z.to_nat st.2)%nat)).
  - split; [done|]. exists 0%nat. split; [lia|]. by rewrite take_0 Z.add_0_r.
  - have := cstr_bound _ _ _ Hc. simpl. lia.
  - move=> st m' [-> [k [Hk ->]]].
    have El8 := load_at m a l (Z.of_nat (length pre) + Z.of_nat k) Hc ltac:(lia).
    rewrite /runs (bind_ok _ _ _ _ _ El8). eexists _, _. split; [done|].
    case: (Nat.eq_dec k (length ds)) => Hke.
    + have -> : chars l (Z.of_nat (length pre) + Z.of_nat k) = chars rest 0.
      { rewrite El app_assoc (_ : Z.of_nat (length pre) + Z.of_nat k = Z.of_nat (length (pre ++ (dec_chr <$> ds)))).
        - rewrite length_app length_fmap. lia.
        - exact: chars_app. }
      rewrite -/(digit_char (chars rest 0)) Hrest. by rewrite Hke take_ge.
    + destruct (lookup_lt_is_Some_2 ds k) as [d Hdk]; first lia. have Hd10 := Forall_lookup_1 _ _ _ _ Hd Hdk.
      have -> : chars l (Z.of_nat (length pre) + Z.of_nat k) = dec_chr d.
      { rewrite /chars El lookup_app_r; first lia. rewrite lookup_app_l; first (rewrite length_fmap; lia).
        rewrite list_lookup_fmap (_ : (Z.to_nat _ - length pre)%nat = k); first lia. by rewrite Hdk. }
      rewrite -/(digit_char (dec_chr d)). have -> : digit_char (dec_chr d) = true.
      { rewrite /digit_char /dec_chr. apply andb_true_iff. rewrite !Z.leb_le. lia. }
      have Hsn : value 10 (take (S k) ds) = value 10 (take k ds) * 10 + d by rewrite (take_S_r _ _ _ Hdk) value_app.
      have Hp : value 10 (take (S k) ds) <= value 10 ds.
      { rewrite -{2}(take_drop (S k) ds). apply: value_prefix. by rewrite take_drop. }
      have Hn0 : 0 <= value 10 (take k ds) by apply: value_nonneg; exact: Forall_take.
      split; last by simpl; rewrite w64_small; [unfold in64; lia | lia].
      split; [done|]. exists (S k). split; [lia|]. rewrite w64_small; first (unfold in64; lia). f_equal; last lia.
      rewrite Hsn /dec_chr !s32_small; lia.
Qed.

(** A conversion as it is written: a flag, the digits of the width and, after a
    point, of the precision, a length and the specifier *)
Record conv := mkConv {
  cv_flag : option Z; cv_width : list Z; cv_prec : option (list Z); cv_len : option Z; cv_spec : Z
}.

Definition opt_char (o : option Z) : list Z := match o with Some c => [c] | None => [] end.
Definition prec_text (o : option (list Z)) : list Z := match o with Some ds => 46 :: (dec_chr <$> ds) | None => [] end.

Definition conv_text (c : conv) : list Z :=
  [37] ++ opt_char (cv_flag c) ++ (dec_chr <$> cv_width c) ++ prec_text (cv_prec c) ++ opt_char (cv_len c) ++ [cv_spec c].

Definition conv_info (c : conv) : fmtctl_info_t :=
  mkInfo (default FLAGS_NONE (cv_flag c ≫= flag_of)) (value 10 (cv_width c)) (value 10 (default [] (cv_prec c)))
    (default LENGTH_NONE (cv_len c ≫= length_of)) (default PERCENT (specifier_of (cv_spec c))).

(** A width without a flag does not start with 0, which is a flag. *)
Record conv_ok (c : conv) : Prop := {
  ck_flag : match cv_flag c with Some ch => is_Some (flag_of ch) | None => hd 1 (cv_width c) <> 0 end;
  ck_width : digit_list (cv_width c) /\ value 10 (cv_width c) < 2 ^ 31;
  ck_prec : digit_list (default [] (cv_prec c)) /\ value 10 (default [] (cv_prec c)) < 2 ^ 31;
  ck_len : match cv_len c with Some ch => is_Some (length_of ch) | None => True end;
  ck_spec : is_Some (specifier_of (cv_spec c))
}.

Lemma conv_info_ok c : conv_ok c -> info_ok (conv_info c).
Proof.
  move=> [_ [Hw Hwv] [Hp Hpv] _ _]. rewrite /info_ok /=. have := value_nonneg _ Hw. have := value_nonneg _ Hp. lia.
Qed.

(** A character that ends a number and is no flag *)
Definition plain_char (c : Z) : Prop := digit_char c = false /\ flag_of c = None /\ c <> 0 /\ c <> 37.

Lemma spec_plain c : is_Some (specifier_of c) -> plain_char c /\ c <> 46 /\ length_of c = None.
Proof. rewrite /specifier_of. by repeat (case: Z.eqb_spec => [->|?]; [done|]; cbn [orb]); case. Qed.

Lemma len_plain c : is_Some (length_of c) -> plain_char c /\ c <> 46.
Proof. rewrite /length_of. by repeat (case: Z.eqb_spec => [->|?]; [done|]); case. Qed.

Lemma load_split m a l pre rest :
  cstr m a l -> l = pre ++ rest -> load8 (a + Z.of_nat (length pre)) m = Ok (chars rest 0, m).
Proof.
  move=> Hc El. rewrite (load_at m a l) //; first (rewrite El length_app; lia). by rewrite El chars_app.
Qed.

(** What follows the width, and what follows the precision *)
Definition after_prec c rest : list Z := opt_char (cv_len c) ++ [cv_spec c] ++ rest.

Lemma after_prec_plain c rest : conv_ok c -> plain_char (chars (after_prec c rest) 0) /\ chars (after_prec c rest) 0 <> 46.
Proof.
  move=> [_ _ _ Hl Hs]. rewrite /after_prec. destruct (cv_len c) as [ch|]; first exact: len_plain.
  by destruct (spec_plain _ Hs) as (? & ? & _).
Qed.

Lemma parse_specifier_ok m a l pre sc rest sp :
  cstr m a l -> l = pre ++ [sc] ++ rest -> specifier_of sc = Some sp ->
  parse_specifier a (Z.of_nat (length pre)) m = Ok (Some (sp, Z.of_nat (length pre) + 1), m).
Proof.
  move=> Hc El Hs. rewrite /parse_specifier (bind_ok _ _ _ _ _ (load_split _ _ _ _ _ Hc El)).
  change (chars ([sc] ++ rest) 0) with sc. rewrite Hs w64_small //. case: (cstr_range _ _ _ Hc) => _ Ha0 Ha1 _.
  unfold in64. rewrite El !length_app in Ha1. simpl in Ha1. lia.
Qed.

(** The flag: where the width starts *)
Lemma flag_ok c rest :
  conv_ok c ->
  match flag_of (chars (opt_char (cv_flag c) ++ (dec_chr <$> cv_width c) ++ prec_text (cv_prec c) ++ after_prec c rest) 0) with
  | Some f => (f, 2) | None => (FLAGS_NONE, 1) end
  = (flags (conv_info c), Z.of_nat (length ([37] ++ opt_char (cv_flag c)))).
Proof.
  move=> Hok. case: (Hok) => Hf [Hw _] _ _ _. destruct (cv_flag c) as [ch|] eqn:Ef.
  - destruct Hf as [f Hf]. change (chars _ 0) with ch. by rewrite /= Ef /= Hf.
  - have -> : flag_of (chars (opt_char None ++ (dec_chr <$> cv_width c) ++ prec_text (cv_prec c) ++ after_prec c rest) 0) = None.
    { destruct (cv_width c) as [|d ds] eqn:Ew.
      - destruct (cv_prec c); first done. by destruct (after_prec_plain c rest Hok) as [[_ [? _]] _].
      - change (chars _ 0) with (dec_chr d). simpl in Hf. apply Forall_cons in Hw as [Hd _]. rewrite /flag_of /dec_chr.
        rewrite !(proj2 (Z.eqb_neq _ _)) //; lia. }
    by rewrite /= Ef.
Qed.

(** The precision *)
Lemma prec_ok m a l pre c rest :
  cstr m a l -> conv_ok c -> l = pre ++ prec_text (cv_prec c) ++ after_prec c rest ->
  bind (load8 (a + Z.of_nat (length pre))) (fun ch =>
    if ch =? 46 then parse_number a (w64 (Z.of_nat (length pre) + 1)) else ret (0, Z.of_nat (length pre))) m
  = Ok ((precision (conv_info c), Z.of_nat (length (pre ++ prec_text (cv_prec c)))), m).
Proof.
  move=> Hc Hok El. case: (cstr_range _ _ _ Hc) => _ Ha0 Ha1 _. destruct (after_prec_plain c rest Hok) as [Hpl Hne].
  rewrite (bind_ok _ _ _ _ _ (load_split _ _ _ _ _ Hc El)). case: (Hok) => _ _ [Hd Hv] _ _. rewrite /conv_info /=.
  destruct (cv_prec c) as [ds|]; simpl in El, Hd, Hv |- *.
  - rewrite w64_small; first (unfold in64; rewrite El !length_app /= in Ha1; lia).
    rewrite (_ : Z.of_nat (length pre) + 1 = Z.of_nat (length (pre ++ [46]))); first (rewrite length_app /=; lia).
    rewrite (parse_number_ok m a l _ ds (after_prec c rest)) //; [by rewrite El -app_assoc | by case: Hpl |].
    do 3 f_equal. rewrite !length_app /= length_fmap. lia.
  - rewrite (proj2 (Z.eqb_neq _ _) Hne) app_nil_r. done.
Qed.

Lemma fmtctl_parse_ok m a l c rest :
  cstr m a l -> conv_ok c -> l = conv_text c ++ rest ->
  fmtctl_parse a m = Ok (Some (Z.of_nat (length (conv_text c)), conv_info c), m).
Proof.
  move=> Hc Hok El. case: (cstr_range _ _ _ Hc) => _ Ha0 Ha1 _. case: (Hok) => Hf [Hw Hwv] _ Hl [sp Hs].
  set F := opt_char (cv_flag c). set W := dec_chr <$> cv_width c. set P := prec_text (cv_prec c).
  have El1 : l = [37] ++ F ++ W ++ P ++ after_prec c rest.
  { by rewrite El /conv_text /after_prec -!app_assoc. }
  have E0 := load_split m a l [] _ Hc El1. rewrite Z.add_0_r in E0. have E1 := load_split m a l [37] _ Hc El1.
  change (Z.of_nat (length [37])) with 1 in E1.
  rewrite /fmtctl_parse (bind_ok _ _ _ _ _ E0). change (chars ([37] ++ _) 0) with 37. cbn [negb Z.eqb Pos.eqb].
  rewrite (bind_ok _ _ _ _ _ E1) (flag_ok c rest Hok). fold F.
  have Hnd : digit_char (chars (P ++ after_prec c rest) 0) = false.
  { rewrite /P. destruct (cv_prec c); [done | by destruct (after_prec_plain c rest Hok) as [[? _] _]]. }
  have E2 := parse_number_ok m a l ([37] ++ F) (cv_width c) (P ++ after_prec c rest) Hc ltac:(by rewrite El1 -!app_assoc) Hw Hwv Hnd.
  rewrite (bind_ok _ _ _ _ _ E2).
  rewrite (_ : Z.of_nat (length ([37] ++ F)) + Z.of_nat (length (cv_width c)) = Z.of_nat (length ([37] ++ F ++ W))).
  { rewrite !length_app /W length_fmap. lia. }
  have E3 := prec_ok m a l ([37] ++ F ++ W) c rest Hc Hok ltac:(by rewrite El1 -!app_assoc). fold P in E3.
  rewrite -bind_assoc (bind_ok _ _ _ _ _ E3).
  have El4 : l = ([37] ++ F ++ W ++ P) ++ after_prec c rest by rewrite El1 -!app_assoc.
  rewrite (_ : ([37] ++ F ++ W) ++ P = [37] ++ F ++ W ++ P); first by rewrite -!app_assoc.
  rewrite (bind_ok _ _ _ _ _ (load_split m a l _ _ Hc El4)).
  remember ([37] ++ F ++ W ++ P) as N eqn:EN.
  have Hlen : match length_of (chars (after_prec c rest) 0) with
    | Some l0 => (l0, w64 (Z.of_nat (length N) + 1)) | None => (LENGTH_NONE, Z.of_nat (length N)) end
    = (len (conv_info c), Z.of_nat (length (N ++ opt_char (cv_len c)))).
  { rewrite /after_prec /=. destruct (cv_len c) as [ch|].
    - destruct Hl as [lf Hl]. change (chars _ 0) with ch. rewrite Hl /= Hl. rewrite w64_small.
      + rewrite El4 /after_prec !length_app /= in Ha1. unfold in64. lia.
      + f_equal. rewrite length_app /=. lia.
    - change (chars _ 0) with (cv_spec c). destruct (spec_plain (cv_spec c)) as (_ & _ & ->); first by rewrite Hs. by rewrite app_nil_r. }
  rewrite Hlen. have E5 := parse_specifier_ok m a l (N ++ opt_char (cv_len c)) (cv_spec c) rest sp Hc ltac:(by rewrite El4 /after_prec -!app_assoc) Hs.
  rewrite (bind_ok _ _ _ _ _ E5). rewrite /ret /conv_info Hs /=. do 4 f_equal.
  rewrite EN /conv_text !length_app -/F -/W -/P /=. lia.
Qed.

(** ** Whole formats *)

(** A conversion with the text before it, its argument and what it prints *)
Record entry := mkEntry { e_text : list Z; e_conv : conv; e_datum : datum; e_out : list Z }.

Definition format_of (es : list entry) : list Z := flat_map (fun e => e_text e ++ conv_text (e_conv e)) es.
Definition output_of (es : list entry) : list Z := flat_map (fun e => e_text e ++ e_out e) es.
Definition args_of (es : list entry) : list Z := (fun e => raw (e_datum e)) <$> es.

(** The entry can be printed into the [n] bytes at [s]. *)
Record entry_ok m s n e : Prop := {
  en_text : Forall (fun b => b <> 37) (e_text e);
  en_conv : conv_ok (e_conv e);
  en_out : render (conv_info (e_conv e)) (e_datum e) = Some (e_out e);
  en_datum : datum_ok m s n (e_datum e)
}.

Lemma cstr_drop m a l1 l2 : cstr m a (l1 ++ l2) -> cstr m (a + Z.of_nat (length l1)) l2.
Proof.
  move=> [? Hhi Hat Hc Hend]. rewrite length_app Nat2Z.inj_add in Hhi Hend. split; try lia.
  - move=> i b Hi. rewrite -Z.add_assoc -Nat2Z.inj_add. apply: Hat. rewrite lookup_app_r; first lia. rewrite -Hi. f_equal. lia.
  - by apply Forall_app in Hc as [_ ?].
  - by rewrite -Z.add_assoc.
Qed.

(** The text that is being scanned, and what follows it *)
Definition cur_text (todo : list entry) (tail : list Z) : list Z := match todo with e :: _ => e_text e | [] => tail end.
Definition cur_rest (todo : list entry) (tail : list Z) : list Z :=
  match todo with e :: todo' => conv_text (e_conv e) ++ format_of todo' ++ tail | [] => [] end.

Lemma cur_split todo tail : format_of todo ++ tail = cur_text todo tail ++ cur_rest todo tail.
Proof. destruct todo as [|e todo]; rewrite /= ?app_nil_r // -!app_assoc. done. Qed.

Lemma output_split done todo tail : output_of (done ++ todo) ++ tail = output_of done ++ output_of todo ++ tail.
Proof. by rewrite /output_of flat_map_app -app_assoc. Qed.

(** The state of the loop: [done] is printed, [j] characters of the next text
    are scanned. *)
Definition scanning m s es tail (st : scan) m' : Prop :=
  exists done todo (j : nat), es = done ++ todo /\ (j <= length (cur_text todo tail))%nat /\
    st = mkScan (Z.of_nat (length (format_of done)) + Z.of_nat j) (Z.of_nat (length (format_of done))) (Z.of_nat j)
           (Z.of_nat (length (output_of done))) (args_of todo) /\
    puts m s (output_of done) m'.

(** What the whole call relies on: the format is in memory, the buffer has room
    for the output and a zero, and overlaps nothing that is read. *)
Record call m s fmt es tail : Prop := {
  cl_bytes : bytes m;
  cl_fmt : cstr m fmt (format_of es ++ tail);
  cl_tail : Forall (fun b => b <> 37) tail;
  cl_room : room m s 0 (Z.of_nat (length (output_of es ++ tail)) + 1);
  cl_apart : apart fmt (format_of es ++ tail) s (Z.of_nat (length (output_of es ++ tail)) + 1);
  cl_entries : Forall (entry_ok m s (Z.of_nat (length (output_of es ++ tail)) + 1)) es
}.

Lemma datum_ok_mono m m' a n a' n' t d :
  datum_ok m a n d -> puts m a t m' -> Z.of_nat (length t) <= n -> a <= a' -> a' + n' <= a + n -> datum_ok m' a' n' d.
Proof.
  destruct d as [z|p l]; first done. move=> [Hp [Hc [Hl Ha]]] Hw Hn Ha1 Ha2.
  split; [done | split; [|split; [done|]]]; last by move: Ha; rewrite /apart; lia.
  apply: (puts_cstr _ _ _ _ _ _ Hw Hc). exact: apart_sub Ha Hn.
Qed.

(** Copying the start of a string *)
Lemma copied_prefix m dest src l1 l2 m' :
  cstr m src (l1 ++ l2) -> copied m dest src (Z.of_nat (length l1)) m' -> puts m dest l1 m'.
Proof.
  move=> Hc Hcp. split; [|move=> Hb; exact: copied_bytes Hb Hcp]. move=> x. rewrite Hcp. case: withinP => Hx; last done.
  destruct (lookup_lt_is_Some_2 l1 (Z.to_nat (x - dest))) as [b Hb]; first lia.
  have Hb' : (l1 ++ l2) !! Z.to_nat (x - dest) = Some b by rewrite lookup_app_l //; lia.
  rewrite /chars Hb /= -(cs_at _ _ _ Hc _ _ Hb'). f_equal. lia.
Qed.

Section Call.
Variables (m : gmap Z Z) (s fmt : Z) (es : list entry) (tail : list Z).
Hypothesis Hcall : call m s fmt es tail.

Abbreviation total := (Z.of_nat (length (output_of es ++ tail)) + 1).

(** Memory with the output of some entries still has the format. *)
Lemma call_fmt t m' : puts m s t m' -> Z.of_nat (length t) <= total -> cstr m' fmt (format_of es ++ tail).
Proof.
  move=> Hp Ht. apply: (puts_cstr _ _ _ _ _ _ Hp (cl_fmt _ _ _ _ _ Hcall)). exact: apart_sub (cl_apart _ _ _ _ _ Hcall) Ht.
Qed.

Lemma call_room t m' : puts m s t m' -> Z.of_nat (length t) <= total ->
  room m' s (Z.of_nat (length t)) (total - Z.of_nat (length t)).
Proof.
  move=> Hp Ht. have := room_next m m' s 0 total t (cl_room _ _ _ _ _ Hcall) Ht. rewrite Z.add_0_r Z.add_0_l. exact.
Qed.

Lemma fmt_in64 n : 0 <= n <= Z.of_nat (length (format_of es ++ tail)) -> in64 n /\ in64 (fmt + n).
Proof. case: (cl_fmt _ _ _ _ _ Hcall) => ? ? _ _ _ Hn. unfold in64. lia. Qed.

(** A conversion: the text before it is copied and its argument printed. *)
Lemma conversion_ok done e todo m' :
  es = done ++ e :: todo -> puts m s (output_of done) m' ->
  let D := Z.of_nat (length (format_of done)) in
  let T := Z.of_nat (length (e_text e)) in
  let O := Z.of_nat (length (output_of done)) in
  runs (memcpy (s + O) (fmt + D) T;; r <- fmtctl_parse (fmt + (D + T));
    match r with
    | None => ret (inr None)
    | Some (parsed_len, info) =>
        '(printed, args) <- convert s (w64 (O + T)) info (args_of (e :: todo));
        ret (inl (mkScan (w64 (D + T + parsed_len)) (w64 (D + T + parsed_len)) 0 printed args))
    end : MM (scan + option scan)) m' (fun r m2 =>
      r = inl (mkScan (Z.of_nat (length (format_of (done ++ [e])))) (Z.of_nat (length (format_of (done ++ [e])))) 0
        (Z.of_nat (length (output_of (done ++ [e])))) (args_of todo)) /\ puts m s (output_of (done ++ [e])) m2).
Proof.
  move=> Ees Hp D T O. have [Hb Hf _ Hroom Hap Hen] := Hcall.
  have Hout : output_of es ++ tail = output_of done ++ (e_text e ++ e_out e) ++ output_of todo ++ tail.
  { by rewrite Ees output_split /= -!app_assoc. }
  have Hfmt : format_of es ++ tail = format_of done ++ e_text e ++ conv_text (e_conv e) ++ format_of todo ++ tail.
  { by rewrite Ees /format_of flat_map_app /= -!app_assoc. }
  have Htot : total = O + T + Z.of_nat (length (e_out e)) + Z.of_nat (length (output_of todo ++ tail)) + 1.
  { rewrite Hout !length_app. unfold O, T. lia. }
  have Hflen : Z.of_nat (length (format_of es ++ tail)) =
    D + T + Z.of_nat (length (conv_text (e_conv e))) + Z.of_nat (length (format_of todo ++ tail)).
  { rewrite Hfmt !length_app. unfold D, T. lia. }
  have Hc' := call_fmt _ _ Hp ltac:(lia). have Hr' := call_room _ _ Hp ltac:(lia). fold O in Hr'.
  have Hcs := Hc'. rewrite Hfmt in Hcs. apply cstr_drop in Hcs. fold D in Hcs.
  have Hb' : bytes m' := proj2 Hp Hb. case: (Hr') => [Hs0 [HO0 Hrd]].
  destruct (memcpy_ok m' (s + O) (fmt + D) T Hb') as (r1 & m1 & E1 & _ & Hcp1).
  { apply: (range_sub _ _ _ _ _ (cstr_range _ _ _ Hcs)); rewrite ?length_app; unfold T; lia. }
  { apply: (range_sub _ _ _ _ _ Hrd); unfold T; lia. }
  { move: Hap. rewrite /apart. unfold D, T, O. lia. }
  have Hp1 := copied_prefix _ _ _ _ _ _ Hcs Hcp1.
  have Hp1' : puts m s (output_of done ++ e_text e) m1 := puts_app _ _ _ _ _ _ Hp Hp1.
  rewrite /runs (bind_ok _ _ _ _ _ E1).
  have Hc1 : cstr m1 (fmt + (D + T)) (conv_text (e_conv e) ++ format_of todo ++ tail).
  { have Hx := call_fmt _ _ Hp1' ltac:(rewrite length_app; lia). rewrite Hfmt app_assoc in Hx. apply cstr_drop in Hx.
    rewrite length_app Nat2Z.inj_add in Hx. exact: Hx. }
  have Hin : e ∈ es by rewrite Ees; set_solver. destruct (proj1 (Forall_forall _ _) Hen e Hin) as [_ He2 He3 He4].
  rewrite (bind_ok _ _ _ _ _ (fmtctl_parse_ok _ _ _ _ _ Hc1 He2 eq_refl)).
  have Hw : w64 (O + T) = O + T by apply: w64_small; case: Hrd => _ _ ? _; unfold in64; lia.
  rewrite Hw. destruct (convert_ok m1 s (O + T) (conv_info (e_conv e)) (e_datum e) (args_of todo) (e_out e) (total - (O + T)))
    as (r2 & m2 & E2 & -> & Hp2).
  - exact: conv_info_ok.
  - exact: (proj2 Hp1' Hb).
  - done.
  - have := call_room _ _ Hp1' ltac:(rewrite length_app; lia). rewrite length_app Nat2Z.inj_add. exact.
  - lia.
  - apply: (datum_ok_mono m m1 s total _ _ _ _ He4 Hp1'); rewrite ?(length_app (output_of done)); unfold O, T in *; lia.
  - rewrite (bind_ok _ _ _ _ _ E2). eexists _, _. split; [done|].
    have Hi : w64 (D + T + Z.of_nat (length (conv_text (e_conv e)))) = D + T + Z.of_nat (length (conv_text (e_conv e))).
    { apply: w64_small. apply: (proj1 (fmt_in64 _ _)). lia. }
    have Hod : output_of (done ++ [e]) = (output_of done ++ e_text e) ++ e_out e.
    { by rewrite /output_of flat_map_app /= app_nil_r -!app_assoc. }
    have Hfd : Z.of_nat (length (format_of (done ++ [e]))) = D + T + Z.of_nat (length (conv_text (e_conv e))).
    { rewrite /format_of flat_map_app. cbn [flat_map]. rewrite app_nil_r -/(format_of done). unfold D, T.
      move: (conv_text (e_conv e)) => ct. rewrite !length_app. lia. }
    have Hol : Z.of_nat (length (output_of (done ++ [e]))) = O + T + Z.of_nat (length (e_out e)).
    { rewrite Hod !length_app. unfold O, T. lia. }
    rewrite Hi Hfd Hol. split; [done|].
    rewrite Hod. apply: puts_app Hp1' _. rewrite length_app Nat2Z.inj_add. exact: Hp2.
Qed.

(** The character under the index *)
Lemma scan_char done todo (j : nat) m' :
  es = done ++ todo -> (j <= length (cur_text todo tail))%nat -> puts m s (output_of done) m' ->
  strlen fmt m' = Ok (Z.of_nat (length (format_of es ++ tail)), m') /\
  load8 (fmt + (Z.of_nat (length (format_of done)) + Z.of_nat j)) m'
    = Ok (chars (drop j (cur_text todo tail) ++ cur_rest todo tail) 0, m') /\
  (length (format_of es ++ tail) = length (format_of done) + length (cur_text todo tail) + length (cur_rest todo tail))%nat.
Proof.
  move=> Ees Hj Hp.
  have Ho : Z.of_nat (length (output_of done)) <= total by rewrite Ees output_split (length_app (output_of done)); lia.
  have Hc := call_fmt _ _ Hp Ho.
  have El : format_of es ++ tail = format_of done ++ cur_text todo tail ++ cur_rest todo tail.
  { by rewrite Ees /format_of flat_map_app -app_assoc -/(format_of todo) cur_split. }
  split; [exact: strlen_ok | split].
  - have Hl := load_split m' fmt (format_of es ++ tail) (format_of done ++ take j (cur_text todo tail))
      (drop j (cur_text todo tail) ++ cur_rest todo tail) Hc.
    rewrite length_app length_take_le // Nat2Z.inj_add in Hl. apply: Hl.
    by rewrite El -!app_assoc (app_assoc (take _ _)) take_drop.
  - rewrite El !length_app. lia.
Qed.

Lemma text_plain done todo : es = done ++ todo -> Forall (fun b => b <> 37) (cur_text todo tail).
Proof.
  move=> Ees. destruct todo as [|e todo]; first exact: (cl_tail _ _ _ _ _ Hcall).
  have Hin : e ∈ es by rewrite Ees; set_solver.
  by destruct (proj1 (Forall_forall _ _) (cl_entries _ _ _ _ _ Hcall) e Hin).
Qed.

Lemma conv_text_pos c : (0 < length (conv_text c))%nat.
Proof. rewrite /conv_text. simpl. lia. Qed.

Lemma format_step dn e :
  length (format_of (dn ++ [e])) = (length (format_of dn) + length (e_text e) + length (conv_text (e_conv e)))%nat.
Proof.
  rewrite /format_of flat_map_app -/(format_of dn). cbn [flat_map]. rewrite app_nil_r.
  move: (conv_text (e_conv e)) => ct. rewrite !length_app. lia.
Qed.

(** A round of the loop *)
Lemma scan_round_ok st m' :
  scanning m s es tail st m' ->
  runs (scan_round s fmt st) m' (fun r m2 =>
    match r with
    | inl st' => scanning m s es tail st' m2 /\
        (length (format_of es ++ tail) - Z.to_nat (index st') < length (format_of es ++ tail) - Z.to_nat (index st))%nat
    | inr r => r = Some (mkScan (Z.of_nat (length (format_of es ++ tail))) (Z.of_nat (length (format_of es)))
        (Z.of_nat (length tail)) (Z.of_nat (length (output_of es))) []) /\ puts m s (output_of es) m2
    end).
Proof.
  move=> [dn [todo [j [Ees [Hj [-> Hp]]]]]]. destruct (scan_char dn todo j m' Ees Hj Hp) as (E1 & E2 & Elen).
  rewrite /scan_round /runs (bind_ok _ _ _ _ _ E1). cbn [index print_start print_len printed_len args].
  case: (Nat.eq_dec j (length (cur_text todo tail))) => Hjj.
  - rewrite {2}Hjj drop_all in E2. destruct todo as [|e todo].
    + rewrite app_nil_r in Ees. subst dn. simpl in Hjj, Elen. rewrite (proj2 (Z.ltb_ge _ _)); first lia.
      eexists _, _. split; [done|]. split; [|done]. do 2 f_equal; lia.
    + simpl in Hjj. have Hlt : (length (format_of dn) + j < length (format_of es ++ tail))%nat.
      { rewrite Elen. cbn [cur_rest cur_text]. rewrite length_app /conv_text. simpl. lia. }
      rewrite (proj2 (Z.ltb_lt _ _)); first lia. rewrite (bind_ok _ _ _ _ _ E2). cbn [app cur_rest].
      rewrite (_ : chars (conv_text (e_conv e) ++ format_of todo ++ tail) 0 = 37) //. cbn [Z.eqb Pos.eqb].
      subst j. apply: (runs_mono _ _ _ _ (conversion_ok dn e todo m' Ees Hp)) => r m2 [-> Hp2]. split.
      * exists (dn ++ [e]), todo, 0%nat. rewrite Z.add_0_r -app_assoc. split; [done|]. split; [lia|]. done.
      * cbn [index]. rewrite Nat2Z.id format_step. have := conv_text_pos (e_conv e). cbn [cur_text] in Hlt. lia.
  - have Hlt : (length (format_of dn) + j < length (format_of es ++ tail))%nat by lia.
    rewrite (proj2 (Z.ltb_lt _ _)); first lia. rewrite (bind_ok _ _ _ _ _ E2).
    destruct (lookup_lt_is_Some_2 (cur_text todo tail) j) as [b Hb]; first lia.
    rewrite (drop_S _ _ _ Hb). change (chars _ 0) with b. have Hb37 := Forall_lookup_1 _ _ _ _ (text_plain _ _ Ees) Hb.
    rewrite (proj2 (Z.eqb_neq _ _) Hb37). eexists _, _. split; [done|].
    have [Hi _] := fmt_in64 (Z.of_nat (length (format_of dn)) + Z.of_nat j + 1) ltac:(lia).
    have [Hi2 _] := fmt_in64 (Z.of_nat j + 1) ltac:(lia). rewrite !w64_small //. split.
    + exists dn, todo, (S j). split; [done|]. split; [lia|]. split; [f_equal; lia | done].
    + cbn [index]. lia.
Qed.

Lemma vsprintf_ok :
  runs (vsprintf s fmt (args_of es)) m (fun r m' =>
    r = s32 (Z.of_nat (length (output_of es ++ tail))) /\ written m s total (chars (output_of es ++ tail)) m').
Proof.
  have [Hb Hf _ Hroom Hap _] := Hcall. rewrite /vsprintf /walk.
  apply: (runs_bind _ _ _ (fun r m2 => r = Some (mkScan (Z.of_nat (length (format_of es ++ tail))) (Z.of_nat (length (format_of es)))
        (Z.of_nat (length tail)) (Z.of_nat (length (output_of es))) []) /\ puts m s (output_of es) m2)).
  - apply: (loop_rule (scanning m s es tail) (fun st => length (format_of es ++ tail) - Z.to_nat (index st))%nat).
    + exists [], es, 0%nat. split; [done|]. split; [lia|]. split; [done | exact: puts_nil].
    + have := cstr_bound _ _ _ Hf. simpl. lia.
    + exact: scan_round_ok.
  - move=> r m1 [-> Hp]. cbn [printed_len print_start print_len].
    have Ho : Z.of_nat (length (output_of es)) + Z.of_nat (length tail) + 1 = total by rewrite (length_app (output_of es)); lia.
    have Hc := cstr_drop _ _ _ _ (call_fmt _ _ Hp ltac:(lia)). destruct (call_room _ _ Hp ltac:(lia)) as (Hs & _ & Hr).
    apply: runs_bind; first apply: (strcpy_ok m1 _ _ _ (proj2 Hp Hb) Hc).
    + apply: (range_sub _ _ _ _ _ Hr); lia.
    + move: Hap. rewrite /apart (length_app (format_of es)) Nat2Z.inj_add. lia.
    + move=> r2 m2 [_ Hw]. apply: runs_ret. rewrite (length_app (output_of es)) Nat2Z.inj_add. split; [done|].
      move=> x. rewrite Hw (proj1 Hp). case: (withinP (s + _)) => Hx.
      * case: withinP => Hx2; last lia. f_equal. rewrite /chars lookup_app_r; first lia. do 2 f_equal. lia.
      * case: withinP => Hx2; case: withinP => Hx3; try lia; last done. f_equal. rewrite /chars lookup_app_l //. lia.
Qed.

End Call.

(** ** What the printed text means *)

(** [ds] are the digits of [x] in base [b], without zeros in front. *)
Definition numeral (b x : Z) (ds : list Z) : Prop :=
  value b ds = x /\ Forall (fun d => 0 <= d < b) ds /\ (1 <= length ds)%nat /\
  (x <> 0 -> b ^ (Z.of_nat (length ds) - 1) <= x).

(** The text of an argument under a conversion *)
Definition printed (info : fmtctl_info_t) (d : datum) t : Prop :=
  match specifier info, d with
  | DEC, Num a => exists ds, numeral 10 (Z.abs (s32 a)) ds /\
      t = if s32 a <? 0 then negative_text info ds else number_text info dec_chr ds
  | OCT, Num a => exists ds, numeral 8 (uint a) ds /\ t = number_text info dec_chr ds
  | HEX, Num a => exists ds, numeral 16 (uint a) ds /\ t = number_text info hex_chr ds
  | UNSIGNED, Num a => exists ds, numeral 10 (uint a) ds /\ t = number_text info dec_chr ds
  | CHAR, Num a => t = spaces (width info - 1) ++ [s32 a mod 256]
  | PTR, Num a => exists ds, numeral 16 (uint a) ds /\ t = pointer_text info ds
  | STR, Text _ l => t = spaces (width info - Z.of_nat (length l)) ++ l
  | _, _ => False
  end.

Lemma spells_numeral b get count y x : 1 <= count y -> spells b get count y x -> numeral b x (digits get count y).
Proof.
  move=> Hc [Hv [Hd Hlead]]. have Hl := length_digits get count y ltac:(lia). split; [done|]. split; [done|].
  split; [lia|]. by rewrite Hl.
Qed.

Lemma uint_numeral z :
  numeral 8 (uint z) (digits getodigit odigcount (uint z)) /\ numeral 16 (uint z) (digits getxdigit xdigcount (uint z)) /\
  numeral 10 (uint z) (digits getudigit udigcount (uint z)).
Proof.
  have Hr := uint_range z. destruct (digits_spell (uint z)) as (Hs & _ & _). destruct (Hs Hr) as (H10 & H16 & H8).
  have Hcnt b step : 8 <= b -> drops b step -> 1 <= count_digits step (uint z).
  { move=> Hb Hd. by destruct (count_digits_ok b step ltac:(lia) Hd (uint z) ltac:(lia)) as (? & _). }
  split; [|split]; [apply: spells_numeral H8 | apply: spells_numeral H16 | apply: spells_numeral H10].
  - exact: (Hcnt 8 _ _ shr3_drops).
  - exact: (Hcnt 16 _ _ shr4_drops).
  - exact: (Hcnt 10 _ _ div10_drops).
Qed.

Lemma render_printed m a n info d t : datum_ok m a n d -> render info d = Some t -> printed info d t.
Proof.
  rewrite /printed /render. destruct d as [z|p l]; last by destruct (specifier info) => // _ [<-].
  destruct (uint_numeral z) as (H8 & H16 & H10). destruct (specifier info) => // Hd; try (by move=> Ht; inversion Ht; eauto).
  simpl in Hd. have Hr := s32_range z. destruct (digits_spell (s32 z)) as (_ & _ & Hs). specialize (Hs ltac:(lia)).
  have Hn := spells_numeral _ _ _ _ _ (proj1 (digcount_bound (s32 z) ltac:(lia))) Hs.
  case: (Z.ltb_spec 0) => H0.
  - move=> [<-]. exists (digits getdigit digcount (s32 z)). rewrite (proj2 (Z.ltb_ge (s32 z) 0)); [lia | done].
  - case: Z.ltb_spec => // H1 [<-]. by eexists.
Qed.

(** ** Claims *)


(** The format "n=%3u%s!" at 16, the string "hi" at 25 and 9 bytes at 28 *)
Definition print_mem : gmap Z Z :=
  mem_of 16 ([110; 61; 37; 51; 117; 37; 115; 33; 0] ++ [104; 105; 0] ++ replicate 9 255).

Definition print_entries : list entry := [
  mkEntry [110; 61] (mkConv None [3] None None 117) (Num 42) [32; 52; 50];
  mkEntry [] (mkConv None [] None None 115) (Text 25 [104; 105]) [104; 105]
].

Lemma print_bytes : bytes print_mem.
Proof.
  have Hf : map_Forall (fun _ b => 0 <= b < 256) print_mem by apply: bool_decide_unpack; vm_compute.
  move=> x b Hx. exact: (Hf x b Hx).
Qed.

Lemma print_string : cstr print_mem 25 [104; 105].
Proof. apply: cstr_check; [done | by repeat constructor | by repeat constructor; vm_compute]. Qed.

Lemma print_room : room print_mem 28 0 9.
Proof.
  split; [done | split; [done|]]. split; [done | done | done |]. move=> x Hx.
  apply: (forall_range (fun x => is_Some (print_mem !! x)) 16 21); last lia. repeat constructor; by eexists.
Qed.

Lemma print_call : call print_mem 28 16 print_entries [33].
Proof.
  split.
  - exact: print_bytes.
  - apply: cstr_check; [done | by repeat constructor | by repeat constructor; vm_compute].
  - by repeat constructor.
  - exact: print_room.
  - by left.
  - constructor; [|constructor; [|constructor]]; split.
    + by repeat constructor.
    + split; [done | by split; [repeat constructor |] | by split; [repeat constructor |] | done | by eexists].
    + by vm_compute.
    + by vm_compute.
    + by repeat constructor.
    + split; [done | by split; [repeat constructor |] | by split; [repeat constructor |] | done | by eexists].
    + by vm_compute.
    + split; [done | split; [exact: print_string | split; [done | by left]]].
Qed.


(** [fmtctl_parse] reads back every conversion: for a flag, a width, a
    precision, a length and a specifier written one after the other, whatever
    text follows, it gives the number of characters and exactly these fields,
    changes nothing, and stays within the string. *)
Theorem format_roundtrip m a c rest :
  cstr m a (conv_text c ++ rest) -> conv_ok c ->
  fmtctl_parse a m = Ok (Some (Z.of_nat (length (conv_text c)), conv_info c), m).
Proof. move=> Hc Hok. exact: (fmtctl_parse_ok m a _ c rest Hc Hok eq_refl). Qed.

Lemma format_roundtrip_witness :
  fmtctl_parse 18 print_mem = Ok (Some (3, mkInfo FLAGS_NONE 3 0 LENGTH_NONE UNSIGNED), print_mem).
Proof.
  apply (format_roundtrip print_mem 18 (mkConv None [3] None None 117) [37; 115; 33]).
  - apply: cstr_check; [done | by repeat constructor | by repeat constructor; vm_compute].
  - split; [done | by split; [repeat constructor |] | by split; [repeat constructor |] | done | by eexists].
Defined.

(** ** What differs from the C standard *)

(** "%%" is refused: [vsprintf] returns -1. *)
Fact percent_refused : exists m', vsprintf 3 0 [] (mem_of 0 [37; 37; 0; 255]) = Ok (-1, m').
Proof. by eexists; vm_compute. Qed.

(** "%llu" is read as a string of type long. *)
Fact long_long_as_string : fmtctl_parse 0 (mem_of 0 [37; 108; 108; 117; 0])
  = Ok (Some (4, mkInfo FLAGS_NONE 0 0 LENGTH_LONG STR), mem_of 0 [37; 108; 108; 117; 0]).
Proof. by vm_compute. Qed.

(** "%d" of 0 leaves the empty string. *)
Fact zero_prints_nothing : exists m', vsprintf 3 0 [0] (mem_of 0 [37; 100; 0; 255; 255]) = Ok (0, m') /\ m' !! 3 = Some 0.
Proof. by eexists; vm_compute. Qed.

(** "%4d" of -7 is "-  7". *)
Fact sign_before_padding : exists m', vsprintf 4 0 [-7] (mem_of 0 ([37; 52; 100; 0] ++ replicate 6 255)) = Ok (4, m') /\
  (fun i => m' !! i) <$> [4; 5; 6; 7; 8] = [Some 45; Some 32; Some 32; Some 55; Some 0].
Proof. by eexists; vm_compute. Qed.

End CFormatT.
