(* ===== verification/KMap.v ===== *)
(** * Ordered maps

    include/pbos/kfxx/map.hh and include/pbos/kfxx/set.hh, with [clear] of
    include/pbos/kfxx/rbtree.hh, for the instance [kfxx::Map]: a [Map] is a
    [Set] of pairs, and the set owns the nodes of a red-black tree of
    [RBTreeModel].  The key of a pair is the [rb_value] of its node; the value
    of the pair is kept beside it, under the address of the node.  Nodes come
    from the allocators of [KList]. *)

From S2P Require Import Prelude RBTreeModel KList.
Import RB.

Module KMap.

(** The tree with its heap of nodes, the values of the pairs, the allocators,
    and [_allocator] *)
Record map_st (V A : Type) := mkMap {
  _tree : tree_st;
  values : gmap loc V;
  allocs : A;
  _allocator : ptr
}.
Arguments mkMap {V A}.
Arguments _tree {V A}.
Arguments values {V A}.
Arguments allocs {V A}.
Arguments _allocator {V A}.

Section Ops.
Context {V A : Type} `{KList.Allocator A}.

Abbreviation MapM := (M (map_st V A)).

Definition on_tree {B} (f : M tree_st B) : MapM B := fun s =>
  match f (_tree s) with
  | Ok (b, t) => Ok (b, mkMap t (values s) (allocs s) (_allocator s))
  | Panic => Panic
  | Fault => Fault
  | NoFuel => NoFuel
  end.

(** [alloc_and_construct<Node>(allocator(), std::move(pair))] *)
Definition alloc_node (key : Z) (value : V) : MapM ptr := fun s =>
  match _allocator s with
  | None => Fault
  | Some al =>
      match KList.alloc al (allocs s) with
      | (None, a) => Ok (None, mkMap (_tree s) (values s) a (_allocator s))
      | (Some l, a) =>
          Ok (Some l, mkMap (with_heap (_tree s) (<[l := mkNode None None None Black key]> (heap (_tree s))))
            (<[l := value]> (values s)) a (_allocator s))
      end
  end.

(** [destroy_and_release(allocator(), node)] *)
Definition release_node (node : ptr) : MapM unit := fun s =>
  match node, _allocator s with
  | Some l, Some al =>
      match heap (_tree s) !! l with
      | Some _ =>
          Ok (tt, mkMap (with_heap (_tree s) (delete l (heap (_tree s)))) (delete l (values s))
            (KList.release al l (allocs s)) (_allocator s))
      | None => Fault
      end
  | _, _ => Fault
  end.

(** ** [RBTreeImpl::clear] *)

(** The inner loop: [node] is released when it is the right child of its
    parent, and the parent is next. *)
Definition climb_round (node : ptr) : MapM (ptr + ptr) :=
  np <- on_tree (get_p node);
  if nonnull np then
    npr <- on_tree (get_r np);
    if ptr_eqb node npr then
      release_node node;;
      ret (inl np)
    else ret (inr node)
  else ret (inr node).

Definition clear_round (parent cur : ptr) : MapM (ptr + unit) :=
  if ptr_eqb cur parent then ret (inr tt)
  else
    r <- on_tree (get_r cur);
    if nonnull r then
      m <- on_tree (_get_min_node r);
      ret (inl m)
    else
      n <- on_tree bound;
      cur <- loop n climb_round cur;
      up <- on_tree (get_p cur);
      release_node cur;;
      ret (inl up).

Definition tree_clear : MapM unit :=
  root <- on_tree get_root;
  when (nonnull root)
    (max_node <- on_tree (_get_max_node root);
     cur <- on_tree (_get_min_node root);
     parent <- on_tree (get_p root);
     n <- on_tree bound;
     loop n (clear_round parent) cur;;
     on_tree (fun t => Ok (tt, mkTree (heap t) None (_cached_min_node t) (_cached_max_node t) 0)));;
  on_tree (fun t => Ok (tt, mkTree (heap t) (_root t) None None (_size t))).

(** ** [SetImpl], with [MapImpl] over it *)

Definition insert (key : Z) (value : V) : MapM bool :=
  node <- alloc_node key value;
  ok <- on_tree (RB.insert node);
  if negb ok then
    release_node node;;
    ret false
  else ret true.

Definition remove (key : Z) : MapM unit :=
  node <- on_tree (RB.find key);
  when (nonnull node) (on_tree (RB.remove node)).

Definition contains (key : Z) : MapM bool :=
  node <- on_tree (RB.find key);
  ret (nonnull node).

(** The value of the pair of a node *)
Definition value_of (node : ptr) : MapM V := fun s =>
  match node with
  | None => Fault
  | Some l => match values s !! l with Some v => Ok (v, s) | None => Fault end
  end.

Definition at_ (key : Z) : MapM V :=
  node <- on_tree (RB.find key);
  kd_assert (nonnull node);;
  value_of node.

Definition size : MapM Z := on_tree tree_size.

Definition clear : MapM unit := tree_clear.

(** *** Iterators *)

Definition begin : MapM Iterator := on_tree iter_begin.
Definition end_ : Iterator := iter_end.
Definition begin_reversed : MapM Iterator := on_tree iter_begin_reversed.
Definition end_reversed : Iterator := iter_end_reversed.

Definition inc (it : Iterator) : MapM Iterator := on_tree (iter_inc it).
Definition dec (it : Iterator) : MapM Iterator := on_tree (iter_dec it).

(** [operator->] of the set's iterator dereferences the tree's. *)
Definition key (it : Iterator) : MapM Z := on_tree (iter_deref it).
Definition value (it : Iterator) : MapM V :=
  on_tree (iter_deref it);;
  value_of (node it).

(** [operator*] *)
Definition deref (it : Iterator) : MapM (Z * V) :=
  k <- key it;
  v <- value it;
  ret (k, v).

Definition find (key : Z) : MapM Iterator :=
  node <- on_tree (RB.find key);
  ret (if nonnull node then mkIterator node Forward else iter_end).

Definition find_max_lteq (key : Z) : MapM Iterator :=
  node <- on_tree (RB.find_max_lteq key);
  ret (if nonnull node then mkIterator node Forward else iter_end).

(** [SetImpl::remove(const Iterator &)] *)
Definition remove_at (it : Iterator) : MapM unit :=
  kd_assert (nonnull (node it));;
  on_tree (RB.remove (node it)).

(** ** Construction and moves

    The move constructor of the set does not name [_allocator], which is then
    null. *)
Definition create (h : gmap loc Node) (vs : gmap loc V) (a : A) (allocator : ptr) : map_st V A :=
  mkMap (mkTree h None None None 0) vs a allocator.

Definition move_construct (rhs : map_st V A) : map_st V A * map_st V A :=
  let '(this, other) := RB.move_construct (_tree rhs) in
  (mkMap this (values rhs) (allocs rhs) None, mkMap other (values rhs) (allocs rhs) (_allocator rhs)).

(** [MapImpl::operator=]: the map is cleared first. *)
Definition move_assign (this : map_st V A) (rhs_tree : tree_st) : outcome (map_st V A * tree_st) :=
  match clear this with
  | Ok (_, s) =>
      let rhs_tree := with_heap rhs_tree (heap (_tree s)) in
      match RB.move_assign (_tree s) rhs_tree with
      | Ok (t, other) => Ok (mkMap t (values s) (allocs s) (_allocator s), other)
      | Panic => Panic
      | Fault => Fault
      | NoFuel => NoFuel
      end
  | Panic => Panic
  | Fault => Fault
  | NoFuel => NoFuel
  end.

(** [~SetImpl] is that of the tree. *)
Definition destroy (this : map_st V A) : outcome unit := RB.destroy (_tree this).

End Ops.

End KMap.
