(* ===== verification/KMapTheorems.v ===== *)
(** * Theorems on the ordered map *)

From S2P Require Import Prelude OMap RBTreeModel RBTreeSpec RBTreeShape RBTreeSearch RBTreeInsert RBTree KList KMap.
Import RB RBS RBShape RBSearch RBInsert RBTree KMap.

Module KMapT.

Section Proofs.
Context {V A : Type} `{KList.Allocator A}.

Implicit Types (s : map_st V A) (ls anc : list loc).

Lemma on_tree_ok {B} (f : M tree_st B) s b t :
  f (_tree s) = Ok (b, t) -> on_tree f s = Ok (b, mkMap t (values s) (allocs s) (_allocator s)).
Proof. rewrite /on_tree. by move=> ->. Qed.

(** Code that only reads the tree *)
Lemma on_tree_read {B} (f : M tree_st B) s b : f (_tree s) = Ok (b, _tree s) -> on_tree f s = Ok (b, s).
Proof. move=> E. rewrite (on_tree_ok _ _ _ _ E). by destruct s. Qed.

Lemma read_node (get : ptr -> M tree_st ptr) (f : Node -> ptr) s x n :
  (forall t, heap t !! x = Some n -> get (Some x) t = Ok (f n, t)) ->
  heap (_tree s) !! x = Some n -> on_tree (get (Some x)) s = Ok (f n, s).
Proof. move=> Hg Hx. apply: on_tree_read. exact: Hg. Qed.

Lemma read_p s x n : heap (_tree s) !! x = Some n -> on_tree (get_p (Some x)) s = Ok (p n, s).
Proof. apply: read_node => t Ht. by rewrite /get_p /load /bind Ht. Qed.

Lemma read_r s x n : heap (_tree s) !! x = Some n -> on_tree (get_r (Some x)) s = Ok (r n, s).
Proof. apply: read_node => t Ht. by rewrite /get_r /load /bind Ht. Qed.

(** More fuel gives the same result. *)
Lemma loop_more {S L R} (body : L -> M S (L + R)) n n' x (s : S) r :
  (n <= n')%nat -> loop n body x s = Ok r -> loop n' body x s = Ok r.
Proof.
  elim: n n' x s => [|n IH] n' x s Hn // Hl. destruct n' as [|n']; first lia. move: Hl. simpl.
  rewrite /bind. destruct (body x s) as [[[y|b] s']| | |]; try done. by apply IH; lia.
Qed.

(** ** Releasing nodes *)

Definition drop1 (l : loc) s : map_st V A :=
  mkMap (with_heap (_tree s) (delete l (heap (_tree s)))) (delete l (values s))
    (match _allocator s with Some al => KList.release al l (allocs s) | None => allocs s end) (_allocator s).

Definition drop_nodes ls s : map_st V A := foldl (fun s l => drop1 l s) s ls.

Lemma drop_nodes_app ls1 ls2 s : drop_nodes (ls1 ++ ls2) s = drop_nodes ls2 (drop_nodes ls1 s).
Proof. exact: foldl_app. Qed.

Lemma drop_nodes_lookup ls s y :
  y ∉ ls -> heap (_tree (drop_nodes ls s)) !! y = heap (_tree s) !! y.
Proof.
  elim: ls s => [|l ls IH] s Hy //=. rewrite IH; first set_solver. simpl. rewrite lookup_delete_ne //. set_solver.
Qed.

Lemma drop_nodes_allocator ls s : _allocator (drop_nodes ls s) = _allocator s.
Proof. by elim: ls s => [|l ls IH] s //=; rewrite IH. Qed.

Lemma release_node_ok s l n al :
  _allocator s = Some al -> heap (_tree s) !! l = Some n -> release_node (Some l) s = Ok (tt, drop1 l s).
Proof. move=> Ha Hl. by rewrite /release_node /drop1 Ha Hl. Qed.

(** ** [clear] *)

(** The order in which nodes are released *)
Fixpoint post (t : tree) : list loc :=
  match t with
  | E => []
  | T _ a x _ b => post a ++ post b ++ [x]
  end.

Lemma post_perm t : post t ≡ₚ tlocs t.
Proof.
  elim: t => [|c a IHa x k b IHb] //=. rewrite /tlocs /= fmap_app fmap_cons -/(tlocs a) -/(tlocs b) IHa IHb /=.
  by rewrite (Permutation_app_comm (tlocs b) [x]).
Qed.

Lemma post_in y t : y ∈ post t <-> y ∈ tlocs t.
Proof. by rewrite post_perm. Qed.

(** The least node below a node *)
Lemma min_sub n (t : tree_st) par col a x k b :
  rep (heap t) par (T col a x k b) -> (length (tlocs (T col a x k b)) <= n)%nat ->
  loop n (fun node => nl <- get_l node; if nonnull nl then ret (inl nl) else ret (inr node)) (Some x) t
  = Ok (head (tlocs (T col a x k b)), t).
Proof.
  elim: n par col a x k b => [|n IH] par col a x k b [Hx [Ha Hb]] Hn.
  { move: Hn. rewrite /tlocs /= fmap_app length_app /=. lia. }
  have El : get_l (Some x) t = Ok (rt a, t) by rewrite /get_l /load /bind Hx.
  simpl. rewrite bind_assoc (bind_ok _ _ _ _ _ El). destruct a as [|ca aa ax ak ab]; first done.
  cbn [rt nonnull bind ret]. rewrite (IH (Some x) ca aa ax ak ab Ha).
  - move: Hn. rewrite /tlocs /= !fmap_app !length_app /=. lia.
  - f_equal. f_equal. rewrite /tlocs /= !fmap_app /=. by destruct (inorder aa).
Qed.

Lemma rep_in h par t y : rep h par t -> y ∈ tlocs t -> is_Some (h !! y).
Proof. move=> Hr Hy. apply elem_of_dom. exact: rep_dom Hr Hy. Qed.

(** Distinct nodes of the heap are at most as many as it has. *)
Lemma nodes_bound (h : gmap loc Node) ls :
  NoDup ls -> (forall y, y ∈ ls -> is_Some (h !! y)) -> (length ls <= base.size h)%nat.
Proof.
  move=> Hnd Hin. rewrite -(size_list_to_set (C := gset loc) ls) // -(size_dom (D := gset loc)).
  apply: subseteq_size => y. rewrite elem_of_list_to_set elem_of_dom. exact: Hin.
Qed.

(** The rest of a round of [clear], from the inner loop with [m] rounds on,
    and of the loop *)
Definition climb_then (n m : nat) (x : loc) : M (map_st V A) unit :=
  cur <- loop m climb_round (Some x);
  up <- on_tree (get_p cur);
  release_node cur;;
  loop n (clear_round None) up.

Lemma climb_more n m m' x s res : (m <= m')%nat -> climb_then n m x s = Ok res -> climb_then n m' x s = Ok res.
Proof.
  move=> Hm. rewrite /climb_then /bind. destruct (loop m climb_round (Some x) s) as [[c s1]| | |] eqn:El; try done.
  by rewrite (loop_more _ _ _ _ _ _ Hm El).
Qed.

(** What the walk below a node needs: an allocator, and the nodes above in the
    heap *)
Record walk_ok s anc t par : Prop := {
  wo_rep : rep (heap (_tree s)) par t;
  wo_nodup : NoDup (anc ++ tlocs t);
  wo_anc y : y ∈ anc -> is_Some (heap (_tree s) !! y);
  wo_alloc : is_Some (_allocator s)
}.

Lemma walk_size s anc t par : walk_ok s anc t par -> (length anc + length (tlocs t) <= base.size (heap (_tree s)))%nat.
Proof.
  move=> [Hr Hnd Ha _]. rewrite -length_app. apply: nodes_bound Hnd _ => y /elem_of_app [/Ha //|Hy]. exact: rep_in Hr Hy.
Qed.

(** A walk that released other nodes *)
Lemma walk_drop s anc t par ls :
  walk_ok s anc t par -> (forall y, y ∈ ls -> y ∉ anc /\ y ∉ tlocs t) -> walk_ok (drop_nodes ls s) anc t par.
Proof.
  move=> [Hr Hnd Ha Hal] Hls. split => //.
  - apply: rep_ext Hr => z Hz. apply: drop_nodes_lookup => /Hls. tauto.
  - move=> y Hy. rewrite drop_nodes_lookup; [move=> /Hls; tauto | exact: Ha].
  - by rewrite drop_nodes_allocator.
Qed.

Lemma walk_left s anc col a x k b par : walk_ok s anc (T col a x k b) par -> walk_ok s (x :: anc) a (Some x).
Proof.
  move=> [[Hx [Ha Hb]] Hnd Hanc Hal]. rewrite tlocs_T in Hnd. split => //.
  - move: Hnd. rewrite app_assoc. move=> /list.NoDup_app [Hnd1 [Hd /list.NoDup_cons [Hxb _]]]. simpl. constructor => //.
    move=> Hin. apply: (Hd _ Hin). by left.
  - move=> y /elem_of_cons [->|/Hanc //]. by rewrite Hx.
Qed.

Lemma walk_right s anc col a x k b par : walk_ok s anc (T col a x k b) par -> walk_ok s (x :: anc) b (Some x).
Proof.
  move=> [[Hx [Ha Hb]] Hnd Hanc Hal]. rewrite tlocs_T in Hnd. split => //.
  - move: Hnd => /list.NoDup_app [Hnd1 [Hd /list.NoDup_app [_ [_ Hnd2]]]].
    apply list.NoDup_cons in Hnd2 as [Hxb Hndb]. simpl. constructor.
    + rewrite elem_of_app. move=> [Hin|//]. apply: (Hd _ Hin). set_solver.
    + apply list.NoDup_app. split_and!; [done | | done]. move=> y Hy Hyb. apply: (Hd _ Hy). set_solver.
  - move=> y /elem_of_cons [->|/Hanc //]. by rewrite Hx.
Qed.

(** Below the walk nodes are distinct. *)
Lemma walk_apart s anc col a x k b par : walk_ok s anc (T col a x k b) par ->
  x ∉ anc /\ x ∉ tlocs a /\ x ∉ tlocs b /\ (forall y, y ∈ tlocs a -> y ∉ anc /\ y ∉ tlocs b) /\
  (forall y, y ∈ tlocs b -> y ∉ anc).
Proof.
  move=> [_ Hnd _ _]. rewrite tlocs_T in Hnd. apply list.NoDup_app in Hnd as (_ & H1 & Hnd).
  apply list.NoDup_app in Hnd as (_ & H2 & Hnd). apply list.NoDup_cons in Hnd as [H3 _]. split_and!; try set_solver.
Qed.

(** The round that starts at a node without a right child *)
Lemma clear_leaf n s m x nd res :
  heap (_tree s) !! x = Some nd -> r nd = None -> (m <= S (base.size (heap (_tree s))))%nat ->
  climb_then n m x s = Ok res -> loop (S n) (clear_round None) (Some x) s = Ok res.
Proof.
  move=> Hx Hr Hm Hc. move: (climb_more _ _ _ _ _ _ Hm Hc). simpl. rewrite {1}/clear_round. cbn [ptr_eqb].
  rewrite !bind_assoc (bind_ok _ _ _ _ _ (read_r _ _ _ Hx)) Hr. cbn [nonnull]. rewrite !bind_assoc.
  rewrite (bind_ok (on_tree bound) _ s (S (base.size (heap (_tree s)))) s); first by apply: on_tree_read.
  rewrite /climb_then /bind /ret.
  destruct (loop (S (base.size (heap (_tree s)))) climb_round (Some x) s) as [[cur s1]| | |]; try done.
  destruct (on_tree (get_p cur) s1) as [[up s2]| | |]; try done.
  by destruct (release_node cur s2) as [[u s3]| | |].
Qed.

(** The number of nodes of a subtree *)
Abbreviation count t := (length (tlocs t)).

Definition clears t : Prop := forall n s anc col a x k b par res,
  t = T col a x k b -> walk_ok s anc t par ->
  climb_then n (S (length anc)) x (drop_nodes (post a ++ post b) s) = Ok res ->
  loop (count t + n) (clear_round None) (head (tlocs t)) s = Ok res.

(** A right child: it is released and its parent is next. *)
Lemma climb_right n m s x nx bx nb res :
  heap (_tree s) !! bx = Some nb -> p nb = Some x -> heap (_tree s) !! x = Some nx -> r nx = Some bx ->
  is_Some (_allocator s) -> climb_then n m x (drop1 bx s) = Ok res -> climb_then n (S m) bx s = Ok res.
Proof.
  move=> Hb Hp Hx Hr [al Hal] Hc. rewrite /climb_then. simpl. rewrite {1}/climb_round !bind_assoc.
  rewrite (bind_ok _ _ _ _ _ (read_p _ _ _ Hb)) Hp. cbn [nonnull]. rewrite !bind_assoc.
  rewrite (bind_ok _ _ _ _ _ (read_r _ _ _ Hx)) Hr ptr_eqb_refl !bind_assoc.
  by rewrite (bind_ok _ _ _ _ _ (release_node_ok _ _ _ _ Hal Hb)).
Qed.

(** A left child or the root: it is released, and the loop goes on above. *)
Lemma climb_last n m s x nd res :
  heap (_tree s) !! x = Some nd ->
  match p nd with
  | Some q => exists nq, heap (_tree s) !! q = Some nq /\ r nq <> Some x
  | None => True
  end ->
  is_Some (_allocator s) -> loop n (clear_round None) (p nd) (drop1 x s) = Ok res -> climb_then n (S m) x s = Ok res.
Proof.
  move=> Hx Hq [al Hal] Hl. have Hc : climb_round (Some x) s = Ok (inr (Some x), s).
  { rewrite /climb_round (bind_ok _ _ _ _ _ (read_p _ _ _ Hx)). destruct (p nd) as [q|]; last done. cbn [nonnull].
    destruct Hq as (nq & Hnq & Hr). rewrite (bind_ok _ _ _ _ _ (read_r _ _ _ Hnq)).
    by rewrite ptr_eqb_ne //; congruence. }
  rewrite /climb_then. simpl. rewrite bind_assoc (bind_ok _ _ _ _ _ Hc) bind_ret (bind_ok _ _ _ _ _ (read_p _ _ _ Hx)).
  by rewrite (bind_ok _ _ _ _ _ (release_node_ok _ _ _ _ Hal Hx)).
Qed.

(** From a node whose left subtree is gone *)
Lemma clear_node n s anc col la x k b par res :
  clears b -> heap (_tree s) !! x = Some (mkNode par la (rt b) col k) -> walk_ok s (x :: anc) b (Some x) ->
  climb_then n (S (length anc)) x (drop_nodes (post b) s) = Ok res ->
  loop (S (count b) + n) (clear_round None) (Some x) s = Ok res.
Proof.
  move=> IHb Hx Hw Hc. destruct b as [|cb ba bx bk bb].
  { apply: (clear_leaf n s _ x _ res Hx eq_refl _ Hc). have := walk_size _ _ _ _ Hw. simpl. lia. }
  have [Hrep Hnd Hanc Hal] := Hw. have Hdep := walk_apart _ _ _ _ _ _ _ _ Hw. case: (Hrep) => Hbx _.
  simpl. rewrite {1}/clear_round. cbn [ptr_eqb]. rewrite bind_assoc (bind_ok _ _ _ _ _ (read_r _ _ _ Hx)).
  cbn [r rt nonnull]. rewrite bind_assoc (bind_ok _ _ _ (head (tlocs (T cb ba bx bk bb))) s).
  { apply: on_tree_read. rewrite /_get_min_node /while. cbn [nonnull negb].
    rewrite (bind_ok bound _ _ (S (base.size (heap (_tree s)))) (_tree s)) //. apply: min_sub Hrep _.
    have := walk_size _ _ _ _ Hw. lia. }
  apply: (IHb n s (x :: anc) cb ba bx bk bb (Some x) res eq_refl Hw).
  have Hout : forall y, y = x \/ y = bx -> y ∉ post ba ++ post bb.
  { move=> y Hy. rewrite elem_of_app !post_in. destruct Hdep as (Hd1 & Hd2 & Hd3 & Hd4 & Hd5).
    destruct Hy as [->| ->]; [|tauto]. move=> [/Hd4 [Hn _]|/Hd5 Hn]; apply: Hn; by left. }
  apply: (climb_right n _ _ x (mkNode par la (Some bx) col k) bx (mkNode (Some x) (rt ba) (rt bb) cb bk)).
  - rewrite drop_nodes_lookup //. apply: Hout. by right.
  - done.
  - rewrite drop_nodes_lookup //. apply: Hout. by left.
  - done.
  - by rewrite drop_nodes_allocator.
  - move: Hc. cbn [post]. by rewrite app_assoc drop_nodes_app.
Qed.

Lemma clears_ok t : clears t.
Proof.
  elim: t => [|col a IHa x k b IHb] n s anc col' a' x' k' b' par res; first done.
  move=> Heq Hw Hc. injection Heq as <- <- <- <- <-. have [[Hx [Ha Hb]] Hnd Hanc Hal] := Hw.
  have Hdep := walk_apart _ _ _ _ _ _ _ _ Hw. destruct Hdep as (Hd1 & Hd2 & Hd3 & Hd4 & Hd5).
  have Hwb : walk_ok (drop_nodes (post a) s) (x :: anc) b (Some x).
  { apply: (walk_drop _ _ _ _ _ (walk_right _ _ _ _ _ _ _ _ Hw)) => y. rewrite post_in => Hy. set_solver. }
  have Hxa : heap (_tree (drop_nodes (post a) s)) !! x = Some (mkNode par (rt a) (rt b) col k).
  { by rewrite drop_nodes_lookup // post_in. }
  have Hnode := clear_node n _ anc _ _ _ _ _ _ res IHb Hxa Hwb. rewrite drop_nodes_app in Hc. specialize (Hnode Hc).
  rewrite tlocs_T length_app. cbn [length]. destruct a as [|ca aa ax ak ab]; first exact: Hnode.
  rewrite (_ : head (tlocs (T ca aa ax ak ab) ++ x :: tlocs b) = head (tlocs (T ca aa ax ak ab))).
  { rewrite tlocs_T. by destruct (tlocs aa). }
  rewrite -Nat.add_assoc. have Hwa := walk_left _ _ _ _ _ _ _ _ Hw.
  apply: (IHa _ s (x :: anc) ca aa ax ak ab (Some x) res eq_refl Hwa).
  have Hpa := walk_apart _ _ _ _ _ _ _ _ Hwa. destruct Hpa as (Ha1 & Ha2 & Ha3 & Ha4 & Ha5).
  case: (Ha) => Hax _.
  apply: (climb_last _ _ _ _ (mkNode (Some x) (rt aa) (rt ab) ca ak)).
  - rewrite drop_nodes_lookup // elem_of_app !post_in. tauto.
  - cbn [p]. exists (mkNode par (Some ax) (rt b) col k). split.
    + rewrite drop_nodes_lookup // elem_of_app !post_in. move=> [/Ha4 [Hn _]|/Ha5 Hn]; apply: Hn; by left.
    + cbn [r]. destruct b as [|cb ba bx bk bb]; first done. case=> E. subst bx.
      apply: (proj2 (Hd4 ax _)); rewrite tlocs_T; set_solver.
  - by rewrite drop_nodes_allocator.
  - cbn [p]. move: Hnode. cbn [post]. by rewrite app_assoc drop_nodes_app.
Qed.

(** The map after [clear]: the nodes are gone and the tree is empty. *)
Definition cleared ls s : map_st V A :=
  let s := drop_nodes ls s in
  mkMap (mkTree (heap (_tree s)) None None None 0) (values s) (allocs s) (_allocator s).

Lemma tree_clear_ok s t :
  tree_inv (_tree s) t -> is_Some (_allocator s) -> tree_clear s = Ok (tt, cleared (post t) s).
Proof.
  move=> Hi Hal. have [Hz _ _ _ _ Hsz] := Hi. case: (Hz) => [Hroot [_ [Hrep Hnd]]]. rewrite /tree_clear.
  rewrite (bind_ok _ _ _ (rt t) s); first by apply: on_tree_read; rewrite /get_root Hroot.
  destruct t as [|col a x k b].
  { rewrite /cleared /=. simpl in Hroot, Hsz. rewrite /when /= bind_ret. rewrite /on_tree /=. by rewrite Hroot Hsz. }
  cbn [rt nonnull when]. have Hmax := get_max_ok _ _ _ Hz. have Hmin := get_min_ok _ _ _ Hz. rewrite !bind_assoc.
  rewrite (bind_ok _ _ _ _ _ (on_tree_read _ _ _ Hmax)) !bind_assoc (bind_ok _ _ _ _ _ (on_tree_read _ _ _ Hmin)).
  case: (Hrep) => Hx _. rewrite !bind_assoc (bind_ok _ _ _ _ _ (read_p _ _ _ Hx)). cbn [p cpar]. rewrite !bind_assoc.
  rewrite (bind_ok _ _ _ (S (base.size (heap (_tree s)))) s); first by apply: on_tree_read.
  have Hnd' : NoDup ([] ++ tlocs (T col a x k b)) by rewrite -tlocs_zlocs.
  have Hw : walk_ok s [] (T col a x k b) None by split => // y /elem_of_nil.
  have Hd := walk_apart _ _ _ _ _ _ _ _ Hw. destruct Hd as (_ & Hd1 & Hd2 & _).
  have Hl : loop (count (T col a x k b) + 1) (clear_round None) (head (tlocs (T col a x k b))) s
    = Ok (tt, drop_nodes (post (T col a x k b)) s).
  { apply (clears_ok (T col a x k b) 1%nat s [] col a x k b None _ eq_refl Hw). apply: (climb_last 1 0 _ x (mkNode None (rt a) (rt b) col k)).
    - rewrite drop_nodes_lookup // elem_of_app !post_in. tauto.
    - done.
    - by rewrite drop_nodes_allocator.
    - cbn [post]. by rewrite app_assoc !drop_nodes_app. }
  rewrite bind_assoc (bind_ok _ _ _ _ _ (loop_more _ _ (S (base.size (heap (_tree s)))) _ _ _ _ Hl)).
  { have := walk_size _ _ _ _ Hw. simpl. lia. }
  done.
Qed.


(** ** What a map holds *)

Context {AL : KList.AllocatorLaws A}.

(** [nodes] has the node of every key; the values beside them make the map [m]. *)
Record holds_map s (nodes : gmap Z loc) (m : gmap Z V) : Prop := {
  hm_tree : holds (_tree s) nodes;
  hm_get k : m !! k = nodes !! k ≫= (fun l => values s !! l);
  hm_value k l : nodes !! k = Some l -> is_Some (values s !! l);
  hm_alloc : is_Some (_allocator s);
  hm_live : dom (heap (_tree s)) ⊆ KList.live (allocs s)
}.

Definition map_inv s (m : gmap Z V) : Prop := exists nodes, holds_map s nodes m.

Lemma holds_map_node s nodes m k l : holds_map s nodes m -> nodes !! k = Some l -> exists v, values s !! l = Some v /\ m !! k = Some v.
Proof. move=> Hm Hk. destruct (hm_value _ _ _ Hm _ _ Hk) as [v Hv]. exists v. by rewrite (hm_get _ _ _ Hm) Hk. Qed.

Lemma holds_map_none s nodes m k : holds_map s nodes m -> nodes !! k = None -> m !! k = None.
Proof. move=> Hm Hk. by rewrite (hm_get _ _ _ Hm) Hk. Qed.

Lemma holds_map_size s nodes m : holds_map s nodes m -> base.size m = base.size nodes.
Proof.
  move=> Hm. rewrite -!(size_dom (D := gset Z)). f_equal. apply set_eq => k. rewrite !elem_of_dom (hm_get _ _ _ Hm). split.
  - move=> [v]. destruct (nodes !! k); by eauto.
  - move=> [l Hl]. rewrite Hl /=. exact: hm_value Hm _ _ Hl.
Qed.

(** The best node is that of the best entry. *)
Lemma holds_map_best s nodes m P better :
  OMap.order better -> (forall a, better a a = false) -> holds_map s nodes m ->
  match OMap.best P better nodes with
  | Some (k, l) => exists v, values s !! l = Some v /\ OMap.best P better m = Some (k, v)
  | None => OMap.best P better m = None
  end.
Proof.
  move=> Ho Hi Hm. have := OMap.best_ok P better nodes Ho. destruct (OMap.best P better nodes) as [[k l]|].
  - move=> [Hk [HP Hb]]. destruct (holds_map_node _ _ _ _ _ Hm Hk) as (v & Hv & Hmk). exists v. split; [done|].
    apply: OMap.best_unique => //. split; [done | split; [done|]]. move=> k' v' Hk' HP'.
    rewrite (hm_get _ _ _ Hm) in Hk'. destruct (nodes !! k') as [l'|] eqn:El; last done. exact: Hb El HP'.
  - move=> Hn. apply: OMap.best_none => // k v Hk. rewrite (hm_get _ _ _ Hm) in Hk.
    destruct (nodes !! k) as [l|] eqn:El; last done. exact: Hn El.
Qed.

(** A heap that changes outside the nodes of the tree *)
Lemma holds_heap (t : tree_st) h nodes :
  holds t nodes -> (forall y, member nodes y -> h !! y = heap t !! y) -> holds (with_heap t h) nodes.
Proof.
  move=> [t' [[Hz Hrb Hb Hmn Hmx Hsz] Hmap]] Hh. exists t'. split; [|done]. split => //.
  case: Hz => [Hr [_ [Hrep Hnd]]]. split; [done | split; [done | split; [|done]]].
  apply: rep_ext Hrep => z Hz. apply: Hh. rewrite -Hmap. by apply member_tlocs.
Qed.

Lemma member_heap (t : tree_st) nodes y : holds t nodes -> member nodes y -> y ∈ dom (heap t).
Proof. move=> Hh [k Hk]. destruct (holds_key _ _ _ _ Hh Hk) as (n & Hn & _). apply elem_of_dom. by rewrite Hn. Qed.

(** The state after a node was made *)
Definition with_node l key (v : V) a s : map_st V A :=
  mkMap (with_heap (_tree s) (<[l := mkNode None None None Black key]> (heap (_tree s)))) (<[l := v]> (values s)) a (_allocator s).

Lemma with_node_holds s nodes m l key v a :
  holds_map s nodes m -> l ∉ dom (heap (_tree s)) -> dom (heap (_tree s)) ∪ {[l]} ⊆ KList.live a ->
  holds_map (with_node l key v a s) nodes m /\ detached (_tree (with_node l key v a s)) l key /\ ~ member nodes l.
Proof.
  move=> [Ht Hg Hv Ha Hl] Hn Hsub. have Hnm : ~ member nodes l by move=> Hin; apply: Hn; exact: member_heap Hin.
  have Hne k l' : nodes !! k = Some l' -> l <> l' by move=> Hk E; apply: Hnm; exists k; rewrite Hk E.
  split; [split => //|split; [|done]].
  - apply: holds_heap Ht _ => y Hy. rewrite lookup_insert_ne //. by move=> E; subst y.
  - move=> k. rewrite Hg /=. destruct (nodes !! k) as [l'|] eqn:Ek; last done. rewrite /= lookup_insert_ne //. exact: Hne Ek.
  - move=> k l' Hk /=. rewrite lookup_insert_ne; [exact: Hne Hk | exact: Hv Hk].
  - rewrite /= dom_insert_L. set_solver.
  - exists Black. by rewrite /= lookup_insert_eq.
Qed.

(** ** Each operation *)

Lemma insert_node_new s nodes m l key v a :
  holds_map s nodes m -> l ∉ dom (heap (_tree s)) -> dom (heap (_tree s)) ∪ {[l]} ⊆ KList.live a -> nodes !! key = None ->
  exists t, RB.insert (Some l) (_tree (with_node l key v a s)) = Ok (true, t) /\
    holds_map (mkMap t (<[l := v]> (values s)) a (_allocator s)) (<[key := l]> nodes) (<[key := v]> m).
Proof.
  move=> Hm Hl Hsub Hk. destruct (with_node_holds s nodes m l key v a Hm Hl Hsub) as (Hm' & Hd & Hnm).
  destruct (holds_insert _ _ _ _ (hm_tree _ _ _ Hm') Hk Hd Hnm) as (t & E & Ht & [Hdom _]). exists t. split; [done|].
  split => //=.
  - move=> k. case: (Z.eq_dec k key) => [->|Hne]; first by rewrite !lookup_insert_eq /= lookup_insert_eq.
    rewrite !lookup_insert_ne //; try congruence. exact: (hm_get _ _ _ Hm').
  - move=> k l'. rewrite lookup_insert_Some => - [[_ <-]|[_ Hk']]; first by rewrite lookup_insert_eq.
    exact: (hm_value _ _ _ Hm' _ _ Hk').
  - exact: hm_alloc Hm.
  - rewrite Hdom /= dom_insert_L. set_solver.
Qed.

(** A node that is made and released again leaves nothing behind. *)
Lemma unused_node s l key v a :
  l ∉ dom (heap (_tree s)) -> values s !! l = None ->
  drop1 l (with_node l key v a s)
  = mkMap (_tree s) (values s) (match _allocator s with Some al => KList.release al l a | None => a end) (_allocator s).
Proof.
  move=> Hl Hv. rewrite /drop1 /with_node /=. have Hh : heap (_tree s) !! l = None by apply not_elem_of_dom.
  rewrite !delete_insert_id //. by destruct s as [[]].
Qed.

(** The allocators may only differ. *)
Lemma holds_map_allocs s nodes m a :
  holds_map s nodes m -> dom (heap (_tree s)) ⊆ KList.live a ->
  holds_map (mkMap (_tree s) (values s) a (_allocator s)) nodes m.
Proof. move=> [? ? ? ? ?] Hd. by split. Qed.

(** Values are kept for live nodes only. *)
Definition map_ok s (m : gmap Z V) : Prop := exists nodes, holds_map s nodes m /\ dom (values s) ⊆ dom (heap (_tree s)).

Lemma insert_ok s m key v :
  map_ok s m ->
  (exists al a, _allocator s = Some al /\ KList.alloc al (allocs s) = (None, a) /\ insert key v s = Fault) \/
  runs (insert key v) s (fun r s' => match m !! key with
    | None => r = true /\ map_ok s' (<[key := v]> m)
    | Some _ => r = false /\ map_ok s' m
    end).
Proof.
  move=> [nodes [Hm Hdv]]. destruct (hm_alloc _ _ _ Hm) as [al Hal]. rewrite /insert.
  destruct (KList.alloc al (allocs s)) as [[l|] a] eqn:Ea; last first.
  { left. exists al, a. split; [done | split; [done|]]. by rewrite {1}/bind /alloc_node Hal Ea. }
  right. destruct (KList.alloc_some _ _ _ _ Ea) as [Hnew Hlive].
  have Hl : l ∉ dom (heap (_tree s)) by move=> Hin; apply: Hnew; exact: (hm_live _ _ _ Hm _ Hin).
  have Hsub : dom (heap (_tree s)) ∪ {[l]} ⊆ KList.live a by rewrite Hlive; have := hm_live _ _ _ Hm; set_solver.
  have Halloc : alloc_node key v s = Ok (Some l, with_node l key v a s) by rewrite /alloc_node /with_node Hal Ea.
  rewrite /runs (bind_ok _ _ _ _ _ Halloc). destruct (nodes !! key) as [x|] eqn:Ek.
  - destruct (holds_map_node _ _ _ _ _ Hm Ek) as (v' & _ & Hmk). rewrite Hmk.
    destruct (with_node_holds s nodes m l key v a Hm Hl Hsub) as (Hm' & [col Hd] & _).
    have Hins := holds_insert_present _ _ _ _ x (hm_tree _ _ _ Hm') Hd Ek.
    rewrite (bind_ok _ _ _ _ _ (on_tree_read _ _ _ Hins)). cbn [negb].
    rewrite (bind_ok _ _ _ _ _ (release_node_ok (with_node l key v a s) l _ al Hal Hd)). eexists _, _. split; [done|]. split; [done|].
    rewrite unused_node //; first by apply not_elem_of_dom; set_solver. rewrite Hal. exists nodes. split; [|done].
    have := holds_map_allocs s nodes m (KList.release al l a) Hm. rewrite Hal. apply. rewrite KList.release_live Hlive. set_solver.
  - rewrite (holds_map_none _ _ _ _ Hm Ek). destruct (insert_node_new s nodes m l key v a Hm Hl Hsub Ek) as (t & E & Hm').
    rewrite (bind_ok _ _ _ _ _ (on_tree_ok _ (with_node l key v a s) _ _ E)). eexists _, _. split; [done|]. split; [done|].
    eexists. split; [exact Hm'|]. have [Hd _] : only (_tree (with_node l key v a s)) t nodes [l].
    { destruct (with_node_holds s nodes m l key v a Hm Hl Hsub) as (Hw & Hdet & Hnm).
      destruct (holds_insert _ _ _ _ (hm_tree _ _ _ Hw) Ek Hdet Hnm) as (t' & E' & _ & Ho). congruence. }
    simpl. rewrite Hd /= !dom_insert_L. set_solver.
Qed.

Lemma map_remove_ok s m key : map_ok s m -> runs (remove key) s (fun _ s' => map_ok s' (delete key m)).
Proof.
  move=> [nodes [Hm Hdv]]. have Hf := holds_find _ _ key (hm_tree _ _ _ Hm).
  rewrite /remove /runs (bind_ok _ _ _ _ _ (on_tree_read _ _ _ Hf)). destruct (nodes !! key) as [l|] eqn:Ek.
  - destruct (holds_remove _ _ _ _ (hm_tree _ _ _ Hm) Ek) as (t & E & Ht & _ & [Hd _]). cbn [nonnull when].
    rewrite (on_tree_ok _ _ _ _ E). eexists _, _. split; [done|]. exists (delete key nodes). split; last by rewrite /= Hd.
    case: Hm => _ Hg Hv Ha Hl. split => //=.
    + move=> k. case: (Z.eq_dec k key) => [->|Hne]; first by rewrite !lookup_delete_eq. rewrite !lookup_delete_ne //; congruence.
    + move=> k l'. rewrite lookup_delete_Some => - [_ Hk]. exact: Hv Hk.
    + by rewrite Hd.
  - eexists _, _. split; [done|]. exists nodes. split; [|done]. by rewrite delete_id //; exact: holds_map_none Hm Ek.
Qed.

Lemma map_at_ok s m key : map_ok s m ->
  at_ key s = match m !! key with Some v => Ok (v, s) | None => Panic end.
Proof.
  move=> [nodes [Hm _]]. have Hf := holds_find _ _ key (hm_tree _ _ _ Hm).
  rewrite /at_ (bind_ok _ _ _ _ _ (on_tree_read _ _ _ Hf)). destruct (nodes !! key) as [l|] eqn:Ek.
  - destruct (holds_map_node _ _ _ _ _ Hm Ek) as (v & Hv & ->). cbn [nonnull]. by rewrite bind_assert /value_of Hv.
  - by rewrite (holds_map_none _ _ _ _ Hm Ek).
Qed.

Lemma map_contains_ok s m key : map_ok s m -> contains key s = Ok (bool_decide (is_Some (m !! key)), s).
Proof.
  move=> [nodes [Hm _]]. have Hf := holds_find _ _ key (hm_tree _ _ _ Hm).
  rewrite /contains (bind_ok _ _ _ _ _ (on_tree_read _ _ _ Hf)) /ret. destruct (nodes !! key) as [l|] eqn:Ek.
  - destruct (holds_map_node _ _ _ _ _ Hm Ek) as (v & Hv & ->). by rewrite bool_decide_eq_true_2.
  - rewrite (holds_map_none _ _ _ _ Hm Ek) bool_decide_eq_false_2 //.
Qed.

Lemma size_ok s m : map_ok s m -> size s = Ok (w64 (Z.of_nat (base.size m)), s).
Proof.
  move=> [nodes [Hm _]]. apply: on_tree_read. by rewrite (holds_size _ _ (hm_tree _ _ _ Hm)) (holds_map_size _ _ _ Hm).
Qed.

(** The entry of an iterator, or none at the end *)
Definition entry (it : Iterator) : M (map_st V A) (option (Z * V)) :=
  if nonnull (node it) then e <- deref it; ret (Some e) else ret None.

Lemma map_deref_ok s nodes m k l v d :
  holds_map s nodes m -> nodes !! k = Some l -> values s !! l = Some v -> deref (mkIterator (Some l) d) s = Ok ((k, v), s).
Proof.
  move=> Hm Hk Hv. destruct (holds_key _ _ _ _ (hm_tree _ _ _ Hm) Hk) as (n & Hn & Hkey).
  have Hd : on_tree (iter_deref (mkIterator (Some l) d)) s = Ok (k, s).
  { apply: on_tree_read. by rewrite /iter_deref /get_value /load /bind /= Hn -Hkey. }
  rewrite /deref /key (bind_ok _ _ _ _ _ Hd) /value bind_assoc (bind_ok _ _ _ _ _ Hd) /value_of /bind /=. by rewrite Hv.
Qed.

Lemma entry_best s nodes m P better :
  OMap.order better -> (forall a, better a a = false) -> holds_map s nodes m ->
  entry (mkIterator (snd <$> OMap.best P better nodes) Forward) s = Ok (OMap.best P better m, s).
Proof.
  move=> Ho Hi Hm. have Hb := holds_map_best s nodes m P better Ho Hi Hm. have := OMap.best_ok P better nodes Ho.
  destruct (OMap.best P better nodes) as [[k l]|]; last by rewrite Hb. destruct Hb as (v & Hv & ->). move=> [Hk _].
  rewrite /entry /=. by rewrite (bind_ok _ _ _ _ _ (map_deref_ok _ _ _ _ _ _ Forward Hm Hk Hv)).
Qed.

Lemma find_max_lteq_ok s m key :
  map_ok s m -> (it <- find_max_lteq key; entry it) s = Ok (OMap.max_lteq key m, s).
Proof.
  move=> [nodes [Hm _]]. have Hf := holds_find_max_lteq _ _ key (hm_tree _ _ _ Hm). rewrite /find_max_lteq bind_assoc.
  rewrite (bind_ok _ _ _ _ _ (on_tree_read _ _ _ Hf)) bind_ret.
  rewrite (_ : (if nonnull _ then _ else iter_end) = mkIterator (snd <$> OMap.max_lteq key nodes) Forward).
  { by destruct (OMap.max_lteq key nodes) as [[]|]. }
  apply: entry_best Hm; [exact: OMap.above_order | move=> a; exact: Z.ltb_irrefl].
Qed.

Lemma map_begin_ok s m : map_ok s m -> (it <- begin; entry it) s = Ok (OMap.first m, s).
Proof.
  move=> [nodes [Hm _]]. have Hf := holds_begin _ _ (hm_tree _ _ _ Hm). rewrite /begin.
  rewrite (bind_ok _ _ _ (mkIterator (snd <$> OMap.first nodes) Forward) s).
  { apply: on_tree_read. by rewrite /iter_begin (bind_ok _ _ _ _ _ Hf). }
  apply: entry_best Hm; [exact: OMap.below_order | move=> a; exact: Z.ltb_irrefl].
Qed.

Lemma drop_nodes_dom ls s :
  dom (heap (_tree (drop_nodes ls s))) = dom (heap (_tree s)) ∖ list_to_set ls /\
  dom (values (drop_nodes ls s)) = dom (values s) ∖ list_to_set ls /\
  (is_Some (_allocator s) -> KList.live (allocs (drop_nodes ls s)) = KList.live (allocs s) ∖ list_to_set ls).
Proof.
  elim: ls s => [|l ls IH] s /=; first by split_and!; [set_solver | set_solver | move=> _; set_solver].
  destruct (IH (drop1 l s)) as (-> & -> & H3). split_and!; [rewrite /= dom_delete_L; set_solver | rewrite /= dom_delete_L; set_solver|].
  move=> Ha. rewrite H3 //=. destruct Ha as [al ->]. rewrite KList.release_live. set_solver.
Qed.

(** Clearing gives every node of the map back. *)
Lemma map_clear_ok s nodes m :
  holds_map s nodes m -> dom (values s) ⊆ dom (heap (_tree s)) ->
  exists s' ls, clear s = Ok (tt, s') /\ map_ok s' ∅ /\ _root (_tree s') = None /\
    NoDup ls /\ (forall l, l ∈ ls <-> member nodes l) /\
    dom (heap (_tree s')) = dom (heap (_tree s)) ∖ list_to_set ls /\
    dom (values s') = dom (values s) ∖ list_to_set ls /\
    KList.live (allocs s') = KList.live (allocs s) ∖ list_to_set ls.
Proof.
  move=> Hm Hdv. have [[t [Hi Hmap]] _ _ Ha Hl] := Hm. destruct (drop_nodes_dom (post t) s) as (D1 & D2 & D3).
  exists (cleared (post t) s), (post t). split; [exact: tree_clear_ok|].
  have Hperm := post_perm t. have [Hz _ Hb _ _ _] := Hi. split_and!.
  - exists ∅. split; last by rewrite /cleared /= D1 D2; set_solver. split.
    + exact: holds_empty.
    + move=> k. by rewrite !lookup_empty.
    + move=> k l. by rewrite lookup_empty.
    + by rewrite /cleared /= drop_nodes_allocator.
    + rewrite /cleared /= D1 D3 //. set_solver.
  - done.
  - rewrite Hperm -tlocs_zlocs. exact: (proj2 (proj2 (proj2 Hz))).
  - move=> l. rewrite -Hmap member_tlocs // Hperm. done.
  - by rewrite /cleared /= D1.
  - by rewrite /cleared /= D2.
  - by rewrite /cleared /= D3.
Qed.

(** ** Programs *)

Inductive map_op := Insert (k : Z) (v : V) | Remove (k : Z) | Contains (k : Z) | At (k : Z) | Size | MaxLteq (k : Z) | First | Clear.
Inductive map_res := RUnit | RBool (b : bool) | RValue (v : V) | RSize (n : Z) | REntry (e : option (Z * V)).

(** What an operation does to a finite map *)
Definition spec_step (o : map_op) (m : gmap Z V) : outcome (map_res * gmap Z V) :=
  match o with
  | Insert k v => match m !! k with None => Ok (RBool true, <[k := v]> m) | Some _ => Ok (RBool false, m) end
  | Remove k => Ok (RUnit, delete k m)
  | Contains k => Ok (RBool (bool_decide (is_Some (m !! k))), m)
  | At k => match m !! k with Some v => Ok (RValue v, m) | None => Panic end
  | Size => Ok (RSize (w64 (Z.of_nat (base.size m))), m)
  | MaxLteq k => Ok (REntry (OMap.max_lteq k m), m)
  | First => Ok (REntry (OMap.first m), m)
  | Clear => Ok (RUnit, ∅)
  end.

Definition impl_step (o : map_op) : M (map_st V A) map_res :=
  match o with
  | Insert k v => b <- insert k v; ret (RBool b)
  | Remove k => remove k;; ret RUnit
  | Contains k => b <- contains k; ret (RBool b)
  | At k => v <- at_ k; ret (RValue v)
  | Size => n <- size; ret (RSize n)
  | MaxLteq k => it <- find_max_lteq k; e <- entry it; ret (REntry e)
  | First => it <- begin; e <- entry it; ret (REntry e)
  | Clear => clear;; ret RUnit
  end.

Fixpoint spec_prog (os : list map_op) : M (gmap Z V) (list map_res) :=
  match os with
  | [] => ret []
  | o :: os => r <- spec_step o; rs <- spec_prog os; ret (r :: rs)
  end.

Fixpoint impl_prog (os : list map_op) : M (map_st V A) (list map_res) :=
  match os with
  | [] => ret []
  | o :: os => r <- impl_step o; rs <- impl_prog os; ret (r :: rs)
  end.

(** The code does what the specification does. *)
Definition agrees {R} (x : outcome (R * map_st V A)) (y : outcome (R * gmap Z V)) : Prop :=
  match y with
  | Ok (r, m) => exists s, x = Ok (r, s) /\ map_ok s m
  | Panic => x = Panic
  | _ => False
  end.

(** An allocator has refused memory. *)
Definition refused : Prop := exists al a a', KList.alloc al a = (None, a').

Lemma step_ok o s m : map_ok s m -> agrees (impl_step o s) (spec_step o m) \/ (impl_step o s = Fault /\ refused).
Proof.
  move=> Hm. destruct o as [k v|k|k|k| |k| |]; cbn [impl_step spec_step].
  - destruct (insert_ok s m k v Hm) as [(al & a & _ & Ha & E)|(r & s' & E & Hr)].
    + right. split; [by rewrite /bind E | by exists al, (allocs s), a].
    + left. rewrite (bind_ok _ _ _ _ _ E). destruct (m !! k); destruct Hr as [-> Hs]; by eexists.
  - left. destruct (map_remove_ok s m k Hm) as ([] & s' & E & Hs). rewrite (bind_ok _ _ _ _ _ E). by eexists.
  - left. rewrite (bind_ok _ _ _ _ _ (map_contains_ok s m k Hm)). by eexists.
  - left. have := map_at_ok s m k Hm. destruct (m !! k) as [v|]; move=> E; [rewrite (bind_ok _ _ _ _ _ E); by eexists | by rewrite /bind E].
  - left. rewrite (bind_ok _ _ _ _ _ (size_ok s m Hm)). by eexists.
  - left. rewrite -bind_assoc (bind_ok _ _ _ _ _ (find_max_lteq_ok s m k Hm)). by eexists.
  - left. rewrite -bind_assoc (bind_ok _ _ _ _ _ (map_begin_ok s m Hm)). by eexists.
  - left. destruct Hm as (nodes & Hm & Hd). destruct (map_clear_ok s nodes m Hm Hd) as (s' & ls & E & Hs & _).
    rewrite (bind_ok _ _ _ _ _ E). by eexists.
Qed.

Lemma prog_ok os s m : map_ok s m -> agrees (impl_prog os s) (spec_prog os m) \/ (impl_prog os s = Fault /\ refused).
Proof.
  elim: os s m => [|o os IH] s m Hm; first by left; exists s.
  simpl. rewrite /bind /ret. destruct (step_ok o s m Hm) as [Ha|[-> Hr]]; last by right.
  rewrite /agrees in Ha. destruct (spec_step o m) as [[r m1]| | |]; try done; last by left; rewrite Ha.
  destruct Ha as (s1 & -> & Hm1). destruct (IH s1 m1 Hm1) as [Hp|[-> Hr]]; last by right.
  left. rewrite /agrees in Hp. destruct (spec_prog os m1) as [[rs m2]| | |]; try done; last by rewrite Hp.
  destruct Hp as (s2 & -> & Hm2). by exists s2.
Qed.

(** A new map is empty. *)
Lemma create_ok h vs a al :
  dom vs ⊆ dom h -> dom h ⊆ KList.live a -> map_ok (create (V := V) h vs a (Some al)) ∅.
Proof.
  move=> Hv Hl. exists ∅. split; [split; [| | |done|done]|done].
  - exact: holds_empty.
  - move=> k. by rewrite !lookup_empty.
  - move=> k l. by rewrite lookup_empty.
Qed.

(** ** What goes wrong *)

(** A removed node is never given back. *)
Fact removed_node_leaks s m key :
  map_ok s m -> runs (remove key) s (fun _ s' =>
    map_ok s' (delete key m) /\ allocs s' = allocs s /\ dom (heap (_tree s')) = dom (heap (_tree s))).
Proof.
  move=> Hok. destruct (map_remove_ok s m key Hok) as ([] & s' & E & Hs). exists tt, s'. split; [done | split; [done|]].
  destruct Hok as (nodes & Hm & _). move: E. have Hf := holds_find _ _ key (hm_tree _ _ _ Hm).
  rewrite /remove (bind_ok _ _ _ _ _ (on_tree_read _ _ _ Hf)). destruct (nodes !! key) as [l|] eqn:Ek; last by case=> <-.
  destruct (holds_remove _ _ _ _ (hm_tree _ _ _ Hm) Ek) as (t & E & _ & _ & [Hd _]). cbn [nonnull when].
  rewrite (on_tree_ok _ _ _ _ E). by case=> <-.
Qed.

(** A map that was made by moving has no allocator. *)
Fact moved_insert_faults s key v : insert key v (move_construct s).1 = Fault.
Proof. done. Qed.

End Proofs.

(** ** Results *)


(** C37: [clear] ends for every map and gives every node of it back to the
    allocator exactly once, in an order in which no released node is looked at
    again; the map is empty afterwards and no other node is touched. *)
Theorem clear_releases_all {V A} `{AL : KList.AllocatorLaws A} (s : map_st V A) nodes m :
  holds_map s nodes m -> dom (values s) ⊆ dom (heap (_tree s)) ->
  exists s' ls, clear s = Ok (tt, s') /\ map_ok s' ∅ /\ _root (_tree s') = None /\
    NoDup ls /\ (forall l, l ∈ ls <-> member nodes l) /\
    dom (heap (_tree s')) = dom (heap (_tree s)) ∖ list_to_set ls /\
    dom (values s') = dom (values s) ∖ list_to_set ls /\
    KList.live (allocs s') = KList.live (allocs s) ∖ list_to_set ls.
Proof. exact: map_clear_ok. Qed.

(** *** On a concrete allocator *)

Section Concrete.

#[local] Instance unlimited : KList.Allocator (gset loc) := {
  alloc _ a := (Some (fresh a), {[fresh a]} ∪ a);
  release _ l a := a ∖ {[l]}
}.

#[local] Instance unlimited_laws : KList.AllocatorLaws (gset loc).
Proof.
  refine {| KList.live := fun a => a |}.
  - move=> _ a l a' /= [<- <-]. split; [exact: is_fresh | done].
  - done.
  - done.
Defined.

Definition no_map : map_st Z (gset loc) := create ∅ ∅ ∅ (Some 1%positive).

Lemma no_map_ok : map_ok no_map ∅.
Proof. apply: create_ok; set_solver. Qed.

Lemma never_refused : ~ refused (A := gset loc).
Proof. by move=> [al [a [a' E]]]. Qed.


(** The root 2 with the children 1 and 3 *)
Definition three_nodes : tree := T Black (T Red E 1%positive 10 E) 2%positive 20 (T Red E 3%positive 30 E).

Definition three_map : map_st Z (gset loc) :=
  mkMap (mkTree {[1%positive := mkNode (Some 2%positive) None None Red 10;
                  2%positive := mkNode None (Some 1%positive) (Some 3%positive) Black 20;
                  3%positive := mkNode (Some 2%positive) None None Red 30]}
           (Some 2%positive) (Some 1%positive) (Some 3%positive) 3)
    {[1%positive := 100; 2%positive := 200; 3%positive := 300]} {[1%positive; 2%positive; 3%positive]} (Some 1%positive).

Definition three_locs : gmap Z loc := {[10 := 1%positive; 20 := 2%positive; 30 := 3%positive]}.

Lemma three_inv : tree_inv (_tree three_map) three_nodes.
Proof.
  split.
  - split; [done | split; [done | split; [done|]]]. by apply: bool_decide_unpack; vm_compute.
  - split; [done|]. exists 1%nat. eauto with pbos.
  - rewrite /bst /keys_sorted. cbn. repeat constructor; lia.
  - done.
  - done.
  - done.
Qed.

Lemma three_holds : holds_map three_map three_locs {[10 := 100; 20 := 200; 30 := 300]}.
Proof.
  split.
  - exists three_nodes. split; [exact: three_inv | done].
  - move=> k. rewrite /three_locs.
    case: (Z.eq_dec k 10) => [->|?]; [done|]; case: (Z.eq_dec k 20) => [->|?]; [done|]; case: (Z.eq_dec k 30) => [->|?]; [done|].
    by rewrite !lookup_insert_ne // !lookup_singleton_ne.
  - move=> k l. rewrite /three_locs !lookup_insert_Some lookup_empty => Hl.
    have Hin : l = 1%positive \/ l = 2%positive \/ l = 3%positive by naive_solver. by destruct Hin as [->|[->| ->]]; eexists.
  - by eexists.
  - by apply: bool_decide_unpack; vm_compute.
Qed.

Lemma three_live (ls : list loc) :
  (forall l, l ∈ ls <-> member three_locs l) -> {[1%positive; 2%positive; 3%positive]} ∖ list_to_set ls = (∅ : gset loc).
Proof.
  move=> Hin. apply set_eq => l. rewrite elem_of_difference elem_of_list_to_set Hin elem_of_empty.
  split => // - [Hl Hn]. apply: Hn. have H3 : l = 1%positive \/ l = 2%positive \/ l = 3%positive by set_solver.
  destruct H3 as [->|[->| ->]]; [by exists 10 | by exists 20 | by exists 30].
Qed.

Lemma clear_releases_all_witness : exists s', clear three_map = Ok (tt, s') /\ KList.live (allocs s') = ∅.
Proof.
  destruct (clear_releases_all three_map three_locs _ three_holds) as (s' & ls & E & _ & _ & _ & Hin & _ & _ & Hl).
  { by apply: bool_decide_unpack; vm_compute. }
  exists s'. split; [exact E|]. rewrite Hl. exact (three_live ls Hin).
Defined.

End Concrete.

End KMapT.
