(* ===== verification/Console.v ===== *)
(** * The text console and the kernel log

    hal/x86_64/display/vga.cc, the text screen, and hal/x86_64/kd/logger.cc, the
    log that goes to a debug port.  The screen is a range of memory; the cursor
    is kept by the display controller, which is reached through ports
    ([Ports]).  Both files have a formatted output of their own over
    [fmtctl_parse] of [CFormat]. *)

From S2P Require Import Prelude CString CMath CFormat.
Import CString CMath CFormat.

Module Console.

(** The devices behind the ports, on a state of their own *)
Class Ports (D : Type) := {
  arch_out8 : Z -> Z -> D -> D;
  arch_in8 : Z -> D -> Z
}.

(** Memory, devices, and the current colours *)
Record con_st (D : Type) := mkCon { memory : mem; dev : D; _cur_fgcolor : Z; _cur_bgcolor : Z }.
Arguments mkCon {D}.
Arguments memory {D}.
Arguments dev {D}.
Arguments _cur_fgcolor {D}.
Arguments _cur_bgcolor {D}.

Definition u8 (z : Z) : Z := z mod 2 ^ 8.
Definition u16 (z : Z) : Z := z mod 2 ^ 16.

Definition VGA_TEXTDISP_BUFFER_OFFSET : Z := 0xb8000.
Definition VGA_TEXTDISP_WIDTH : Z := 80.
Definition VGA_TEXTDISP_HEIGHT : Z := 25.

Definition CURSOR_POS_Y (lp : Z) : Z := lp / VGA_TEXTDISP_WIDTH.
Definition CURSOR_POS_X (lp : Z) : Z := lp mod VGA_TEXTDISP_WIDTH.

Section Ops.
Context {D : Type} `{Ports D}.

Abbreviation CM := (M (con_st D)).

Definition on_mem {B} (f : MM B) : CM B := fun s =>
  match f (memory s) with
  | Ok (b, m) => Ok (b, mkCon m (dev s) (_cur_fgcolor s) (_cur_bgcolor s))
  | Panic => Panic
  | Fault => Fault
  | NoFuel => NoFuel
  end.

Definition out8 (port v : Z) : CM unit := fun s =>
  Ok (tt, mkCon (memory s) (arch_out8 port (u8 v) (dev s)) (_cur_fgcolor s) (_cur_bgcolor s)).
Definition in8 (port : Z) : CM Z := fun s => Ok (arch_in8 port (dev s), s).

Definition get_colors : CM (Z * Z) := fun s => Ok ((_cur_fgcolor s, _cur_bgcolor s), s).

(** [for (size_t i = 0; i < n; ++i)] of a body without a result *)
Definition repeat_for (n : Z) (body : Z -> CM unit) : CM unit :=
  for_loop (R := unit) (Z.to_nat n) 0 (fun i _ => body i;; ret (Next tt)) tt;;
  ret tt.

(** ** The screen *)

(** [mm_kernel_bottom_mapping_base_vaddr] *)
Context (mm_kernel_bottom_mapping_base_vaddr : Z).

Definition screen : Z := w64 (mm_kernel_bottom_mapping_base_vaddr + VGA_TEXTDISP_BUFFER_OFFSET).

Definition vga_setpos (x y : Z) : CM unit :=
  let offset := u16 (u8 y * VGA_TEXTDISP_WIDTH + u8 x) in
  out8 0x3d4 0x0e;;
  out8 0x3d5 (Z.shiftr offset 8);;
  out8 0x3d4 0x0f;;
  out8 0x3d5 (Z.land offset 0xff).

Definition vga_getpos : CM Z :=
  out8 0x3d4 0x0e;;
  hi <- in8 0x3d5;
  let offset := u16 (Z.shiftl hi 8) in
  out8 0x3d4 0x0f;;
  lo <- in8 0x3d5;
  ret (Z.lor offset lo).

Definition vga_clear : CM unit :=
  on_mem (memset screen 0 (VGA_TEXTDISP_WIDTH * VGA_TEXTDISP_HEIGHT * 2));;
  vga_setpos 0 0.

Definition vga_setcolor (fgcolor bgcolor : Z) : CM unit := fun s =>
  Ok (tt, mkCon (memory s) (dev s) (u8 fgcolor) (u8 bgcolor)).

Definition vga_scroll : CM unit :=
  let p_topline := screen + VGA_TEXTDISP_WIDTH * 2 in
  let size := VGA_TEXTDISP_WIDTH * VGA_TEXTDISP_HEIGHT * 2 in
  on_mem (memcpy screen p_topline size);;
  ret tt.

Definition vga_chwrite (ch fgcolor bgcolor x y : Z) : CM unit :=
  let attrib := u8 (Z.lor (u8 fgcolor) (Z.shiftl (u8 bgcolor) 4)) in
  let dest := screen + (u8 y * VGA_TEXTDISP_WIDTH + u8 x) * 2 in
  on_mem (store8 dest ch);;
  on_mem (store8 (dest + 1) attrib).

(** The switch of [vga_putcchar]: 7 is the bell, 8 goes back, 9 is a tab, 10 a
    new line, 13 a return. *)
Definition put_at (c fgcolor bgcolor pos : Z) : CM unit :=
  let X := CURSOR_POS_X pos in
  let Y := CURSOR_POS_Y pos in
  if c =? 7 then ret tt
  else if c =? 10 then vga_setpos 0 (Y + 1)
  else if c =? 9 then
    let x_diff := X mod 4 in
    if negb (x_diff =? 0) then vga_setpos (X + (4 - x_diff)) Y
    else vga_setpos (X + 4) Y
  else if c =? 8 then when (negb (X =? 0)) (vga_setpos (X - 1) Y)
  else if c =? 13 then vga_setpos 0 Y
  else
    vga_chwrite c fgcolor bgcolor X Y;;
    vga_setpos (X + 1) Y.

Definition vga_putcchar (c fgcolor bgcolor : Z) : CM unit :=
  pos <- vga_getpos;
  put_at (u8 c) fgcolor bgcolor pos;;
  pos <- vga_getpos;
  when (CURSOR_POS_Y pos =? VGA_TEXTDISP_HEIGHT)
    (vga_scroll;;
     pos <- vga_getpos;
     vga_setpos (CURSOR_POS_X pos) (VGA_TEXTDISP_HEIGHT - 1)).

Definition vga_putchar (c : Z) : CM unit :=
  '(fg, bg) <- get_colors;
  vga_putcchar c fg bg.

Definition vga_strnwrite (s n fgcolor bgcolor : Z) : CM unit :=
  repeat_for n (fun i => c <- on_mem (load8 (s + i)); vga_putcchar c fgcolor bgcolor).

Definition vga_puts (s : Z) : CM Z :=
  len <- on_mem (strlen s);
  '(fg, bg) <- get_colors;
  vga_strnwrite s len fg bg;;
  vga_putchar 10;;
  ret (s32 (len + 1)).

(** ** The debug port *)

Definition qemu_console_logger_putchar (s : Z) : CM unit :=
  when (u8 s =? 10) (out8 0xe9 13);;
  out8 0xe9 s.

Definition qemu_console_logger_print (s len : Z) : CM unit :=
  repeat_for len (fun i =>
    c <- on_mem (load8 (s + i));
    when (c =? 10) (out8 0xe9 13);;
    out8 0xe9 c).

(** [kd_logger_t], without the functions that do nothing *)
Record kd_logger_t := mkLogger { print : Z -> Z -> CM unit; putchar : Z -> CM unit }.

Definition hn_qemu_logger : kd_logger_t := mkLogger qemu_console_logger_print qemu_console_logger_putchar.

(** ** Formatted output

    The loops that both printers share, with the functions they print with. *)

Section Format.
Context (pr : kd_logger_t).

(** [for (int j = 0; j < n; ++j)] of [putchar(c)] and [len_printed++] *)
Definition emit (pos n : Z) (chr : Z -> Z) : CM Z :=
  r <- for_loop (R := unit) (Z.to_nat n) 0 (fun j pos => putchar pr (chr j);; ret (Next (w64 (pos + 1)))) pos;
  ret (match r with inl (pos, _) => pos | inr _ => pos end).

Definition pad (pos n c : Z) : CM Z := emit pos n (fun _ => c).

Definition put_digits (pos : Z) (chr : Z -> Z) (get : Z -> Z -> Z) (x count : Z) : CM Z :=
  emit pos count (fun j => chr (get x (count - j))).

Definition put_number (pos : Z) (info : fmtctl_info_t) (chr : Z -> Z) (get : Z -> Z -> Z) (count : Z -> Z) (x : Z) : CM Z :=
  let prec := if precision info <? count x then count x else precision info in
  pos <- pad pos (s32 (width info - prec)) 32;
  pos <- pad pos (s32 (prec - count x)) 48;
  put_digits pos chr get x (count x).

(** A negative number, whose digits are those of [y] *)
Definition put_negative (pos : Z) (info : fmtctl_info_t) (arg y : Z) : CM Z :=
  let prec := if precision info <? digcount arg then digcount arg else precision info in
  putchar pr 45;;
  pos <- pad (w64 (pos + 1)) (s32 (width info - prec - 1)) 32;
  pos <- pad pos (s32 (prec - digcount arg - 1)) 48;
  put_digits pos dec_chr getdigit y (digcount arg).

(** A zero: the padding and the digit *)
Definition put_zero (pos : Z) (info : fmtctl_info_t) : CM Z :=
  pos <- pad pos (s32 (width info - precision info)) 32;
  pos <- pad pos (precision info) 48;
  putchar pr 48;;
  ret pos.

Definition put_str (pos : Z) (info : fmtctl_info_t) (arg : Z) : CM Z :=
  n <- on_mem (strlen arg);
  pos <- pad pos (s32 (width info - n)) 32;
  n <- on_mem (strlen arg);
  print pr arg n;;
  n <- on_mem (strlen arg);
  ret (w64 (pos + n)).

Definition put_char (pos : Z) (info : fmtctl_info_t) (arg : Z) : CM Z :=
  pos <- pad pos (s32 (width info - 1)) 32;
  putchar pr arg;;
  ret (w64 (pos + 1)).

(** The address of the literal "0x" *)
Context (hex_prefix : Z).

(** A pointer of [digits] digits, of which [count] come from [get] *)
Definition put_ptr (pos : Z) (info : fmtctl_info_t) (digits : Z) (get : Z -> Z -> Z) (x count : Z) : CM Z :=
  pos <- pad pos (s32 (width info - digits - 2)) 32;
  print pr hex_prefix 2;;
  pos <- pad pos (digits - count) 48;
  put_digits pos hex_chr get x count.

Definition take_arg (args : list Z) (f : Z -> CM Z) : CM (Z * list Z) :=
  match args with
  | a :: args => pos <- f a; ret (pos, args)
  | [] => fun _ => Fault
  end.

(** The scan over the format that both functions have, around their switch *)
Definition format_round (convert : Z -> fmtctl_info_t -> list Z -> CM (Z * list Z)) (s len : Z) (st : scan)
    : CM (scan + option scan) :=
  if index st <? len then
    c <- on_mem (load8 (s + index st));
    if c =? 37 then
      print pr (s + print_start st) (print_len st);;
      let printed := w64 (printed_len st + print_len st) in
      r <- on_mem (fmtctl_parse (s + index st));
      match r with
      | None => ret (inr None)
      | Some (parsed_len, info) =>
          let i := w64 (index st + parsed_len) in
          '(printed, args) <- convert printed info (args st);
          ret (inl (mkScan i i 0 printed args))
      end
    else ret (inl (mkScan (w64 (index st + 1)) (print_start st) (w64 (print_len st + 1)) (printed_len st) (args st)))
  else ret (inr (Some st)).

Definition format_run (convert : Z -> fmtctl_info_t -> list Z -> CM (Z * list Z)) (s : Z) (va : list Z) : CM Z :=
  len <- on_mem (strlen s);
  r <- loop (S (Z.to_nat len)) (format_round convert s len) (mkScan 0 0 0 0 va);
  match r with
  | None => ret (-1)
  | Some st =>
      print pr (s + print_start st) (print_len st);;
      ret (s32 (printed_len st + print_len st))
  end.

(** The switch of [do_vprintf] *)
Definition log_dec (pos : Z) (info : fmtctl_info_t) (arg : Z) : CM Z :=
  if 0 <? arg then put_number pos info dec_chr getdigit digcount arg
  else if arg <? 0 then put_negative pos info arg (s32 (- arg))
  else pos <- put_zero pos info; ret (w64 (pos + 1)).

(** The digits of [%llu] from the last to the first *)
Definition log_llunsigned (pos : Z) (info : fmtctl_info_t) (arg : Z) : CM Z :=
  let prec := if precision info <? udigcount arg then udigcount arg else precision info in
  pos <- pad pos (s32 (width info - prec)) 32;
  pos <- pad pos (s32 (prec - udigcount arg)) 48;
  if arg =? 0 then putchar pr 48;; ret (w64 (pos + 1))
  else loop 64 (fun '(arg, pos) =>
    if arg =? 0 then ret (inr pos)
    else putchar pr (arg mod 10 + 48);; ret (inl (arg / 10, w64 (pos + 1)))) (arg, pos).

Definition log_convert (pos : Z) (info : fmtctl_info_t) (args : list Z) : CM (Z * list Z) :=
  match specifier info with
  | DEC => take_arg args (fun a => log_dec pos info (s32 a))
  | OCT => take_arg args (fun a => put_number pos info dec_chr getodigit odigcount (uint a))
  | HEX => take_arg args (fun a => put_number pos info hex_chr getxdigit xdigcount (uint a))
  | UNSIGNED => take_arg args (fun a => put_number pos info dec_chr getudigit udigcount (uint a))
  | LUNSIGNED => take_arg args (fun a => put_number pos info dec_chr getludigit ludigcount (uint a))
  | FLOAT | FLOAT_EXPONENTIAL | FLOAT_TRIMMED | SIZE => ret (pos, args)
  | STR => take_arg args (fun a => put_str pos info (w64 a))
  | CHAR => take_arg args (fun a => put_char pos info (s32 a))
  | PTR => take_arg args (fun a => put_ptr pos info 16 (fun x j => getxdigit (uint x) j) (w64 a) (llxdigcount (w64 a)))
  | LLUNSIGNED => take_arg args (fun a => log_llunsigned pos info (uint a))
  | PERCENT => putchar pr 37;; ret (w64 (pos + 1), args)
  end.

Definition do_vprintf (s : Z) (va : list Z) : CM Z := format_run log_convert s va.

(** The switch of [vga_vprintf] *)
Definition vga_dec (pos : Z) (info : fmtctl_info_t) (arg : Z) : CM Z :=
  if 0 <? arg then put_number pos info dec_chr getdigit digcount arg
  else if arg <? 0 then put_negative pos info arg arg
  else put_zero pos info.

Definition vga_convert (pos : Z) (info : fmtctl_info_t) (args : list Z) : CM (Z * list Z) :=
  match specifier info with
  | DEC => take_arg args (fun a => vga_dec pos info (s32 a))
  | OCT => take_arg args (fun a => put_number pos info dec_chr getodigit odigcount (uint a))
  | HEX => take_arg args (fun a => put_number pos info hex_chr getxdigit xdigcount (uint a))
  | UNSIGNED | LUNSIGNED => take_arg args (fun a => put_number pos info dec_chr getudigit udigcount (uint a))
  | FLOAT | FLOAT_EXPONENTIAL | FLOAT_TRIMMED | SIZE => ret (pos, args)
  | STR => take_arg args (fun a => put_str pos info (w64 a))
  | CHAR => take_arg args (fun a => put_char pos info (s32 a))
  | PTR => take_arg args (fun a => put_ptr pos info 8 getllxdigit (uint a) (llxdigcount (uint a)))
  | LLUNSIGNED => take_arg args (fun a => put_number pos info dec_chr getlludigit lludigcount (w64 a))
  | PERCENT => putchar pr 37;; ret (w64 (pos + 1), args)
  end.

End Format.

(** [vga_putchar], and [vga_strnwrite] in the current colours *)
Definition vga_printer : kd_logger_t :=
  mkLogger (fun s n => '(fg, bg) <- get_colors; vga_strnwrite s n fg bg) vga_putchar.

Definition vga_vprintf (hex_prefix s : Z) (va : list Z) : CM Z :=
  format_run vga_printer (vga_convert vga_printer hex_prefix) s va.

(** [hn_active_logger] is passed; it may be null. *)
Definition klog_putc (hn_active_logger : option kd_logger_t) (ch : Z) : CM unit :=
  match hn_active_logger with Some l => putchar l ch | None => fun _ => Fault end.

Definition klog_puts (hn_active_logger : option kd_logger_t) (str : Z) : CM unit :=
  match hn_active_logger with
  | Some l =>
      n <- on_mem (strlen str);
      print l str n;;
      klog_putc (Some l) 10
  | None => fun _ => Fault
  end.

End Ops.

End Console.
