(* ===== verification/ConsoleFormat.v ===== *)
(** * Formatted output on any printer

    The scan of [vga_vprintf] and [do_vprintf] against what a printer promises
    ([Printer]): the text is shown, and strings stay readable.  [ConsoleLog] and
    [ConsoleScreen] show that the debug port and the screen are printers. *)

From S2P Require Import Prelude CString CStringTheorems CMath CMathTheorems CFormat CFormatTheorems Console.
Import CString CStringT CMath CMathT CFormat CFormatT Console.

Module ConsoleF.

(** [P t s]: in state [s] the text [t] has been shown; [stable] strings can be
    read all the time. *)
Class Printer {D} (pr : kd_logger_t (D := D)) (P : list Z -> con_st D -> Prop) (stable : Z -> list Z -> Prop) := {
  p_cstr t s a l : P t s -> stable a l -> cstr (memory s) a l;
  p_putchar t s c : P t s -> runs (putchar pr c) s (fun _ s' => P (t ++ [c mod 256]) s');
  p_print t s a l1 l2 l3 : P t s -> stable a (l1 ++ l2 ++ l3) ->
    runs (print pr (a + Z.of_nat (length l1)) (Z.of_nat (length l2))) s (fun _ s' => P (t ++ l2) s')
}.

Lemma s32_w64 x : s32 (w64 x) = s32 x.
Proof.
  rewrite /s32 /w64. f_equal. rewrite Z.add_mod // (Z.mod_mod_divide x (2 ^ 64) (2 ^ 32)) -?Z.add_mod //.
  by exists (2 ^ 32).
Qed.

Lemma on_mem_read {D} {B} (f : MM B) (s : con_st D) b :
  f (memory s) = Ok (b, memory s) -> on_mem f s = Ok (b, s).
Proof. rewrite /on_mem => ->. by destruct s. Qed.

Section Format.
Context {D : Type} {pr : kd_logger_t (D := D)} {P stable} `{PR : !Printer (D := D) pr P stable}.
Implicit Types (t out : list Z) (s : con_st D).

Lemma stable_cstr t s a l : P t s -> stable a l -> cstr (memory s) a l.
Proof. exact: (p_cstr (pr := pr)). Qed.

(** [f] shows [out] and counts [n] from the position [pos] on. *)
Definition shows (f : M (con_st D) Z) (pos : Z) t s out n : Prop :=
  runs f s (fun pos' s' => pos' = w64 (pos + n) /\ P (t ++ out) s').

Lemma shows_bind f g pos t s out1 n1 out2 n2 :
  shows f pos t s out1 n1 ->
  (forall s', P (t ++ out1) s' -> shows (g (w64 (pos + n1))) (w64 (pos + n1)) (t ++ out1) s' out2 n2) ->
  shows (bind f g) pos t s (out1 ++ out2) (n1 + n2).
Proof.
  move=> Hf Hg. apply: runs_bind Hf _ => pos' s' [-> H1]. apply: runs_mono (Hg s' H1) _ => pos2 s2 [-> H2].
  rewrite w64_add_l Z.add_assoc app_assoc. done.
Qed.

Lemma emit_ok pos n chr t s :
  0 <= pos < 2 ^ 64 -> P t s ->
  shows (emit pr pos n chr) pos t s ((fun j => chr (Z.of_nat j) mod 256) <$> seq 0 (Z.to_nat n)) (Z.max 0 n).
Proof.
  move=> Hpos Hp. rewrite /emit /shows.
  apply: (runs_bind _ _ _ (fun r s' => exists i, r = inl (w64 (pos + Z.max 0 n), i) /\
    P (t ++ ((fun j => chr (Z.of_nat j) mod 256) <$> seq 0 (Z.to_nat n))) s')); last first.
  { move=> r s' [i [-> Hs]]. by apply: runs_ret. }
  apply: (for_loop_rule (fun i q s' => q = w64 (pos + i) /\
    P (t ++ ((fun j => chr (Z.of_nat j) mod 256) <$> seq 0 (Z.to_nat i))) s')).
  - rewrite Z.add_0_r w64_small // app_nil_r. done.
  - move=> i q s1 Hi [-> H1]. destruct (p_putchar _ _ (chr i) H1) as (r & s2 & E & H2). rewrite (bind_ok _ _ _ _ _ E).
    eexists _, _. split; [done|]. rewrite w64_add_l -Z.add_assoc. split; [done|].
    rewrite (_ : Z.to_nat (i + 1) = S (Z.to_nat i)); first lia. rewrite seq_S fmap_app app_assoc /= Z2Nat.id //. lia.
  - move=> q s1 [-> H1]. rewrite Z.add_0_l in H1 |- *. exists (Z.of_nat (Z.to_nat n)).
    rewrite Nat2Z.id in H1. split; [|done]. do 3 f_equal. lia.
Qed.

Lemma con_pad_ok pos n c t s :
  0 <= pos < 2 ^ 64 -> P t s -> 0 <= c < 256 -> shows (pad pr pos n c) pos t s (replicate (Z.to_nat n) c) (Z.max 0 n).
Proof.
  move=> Hpos Hp Hc. have := emit_ok pos n (fun _ => c) t s Hpos Hp. by rewrite const_seq Z.mod_small.
Qed.

Lemma w64_pos z : 0 <= w64 z < 2 ^ 64.
Proof. exact: w64_range. Qed.

Lemma con_put_digits_ok pos chr get count b x t s :
  0 <= pos < 2 ^ 64 -> P t s -> 0 <= count x -> Forall (fun d => 0 <= d < b) (digits get count x) ->
  (forall d, 0 <= d < b -> 0 <= chr d < 256) ->
  shows (put_digits pr pos chr get x (count x)) pos t s (chr <$> digits get count x) (count x).
Proof.
  move=> Hpos Hp Hc Hd Hchr. have := emit_ok pos (count x) (fun j => chr (get x (count x - j))) t s Hpos Hp.
  rewrite Z.max_r // (_ : (fun j : nat => chr (get x (count x - Z.of_nat j)) mod 256) <$> seq 0 (Z.to_nat (count x)) = chr <$> digits get count x) //.
  rewrite /digits -list_fmap_compose. apply: list_fmap_ext => j y Hy. simpl. apply Z.mod_small. apply: Hchr.
  rewrite /digits in Hd. apply (proj1 (Forall_fmap _ _ _)) in Hd. exact: (Forall_lookup_1 _ _ _ _ Hd Hy).
Qed.

(** The length of what was shown *)
Lemma shows_len f pos t s out n : shows f pos t s out n -> n = Z.of_nat (length out) -> shows f pos t s out (Z.of_nat (length out)).
Proof. by move=> H <-. Qed.

Lemma con_put_number_ok pos info chr get count b x t s :
  0 <= pos < 2 ^ 64 -> P t s -> info_ok info -> 1 <= count x <= 64 -> Forall (fun d => 0 <= d < b) (digits get count x) ->
  (forall d, 0 <= d < b -> 0 <= chr d < 256) ->
  shows (put_number pr pos info chr get count x) pos t s (number_text info chr (digits get count x))
    (Z.of_nat (length (number_text info chr (digits get count x)))).
Proof.
  move=> Hpos Hp [Hw Hpr] Hc Hd Hchr. have Hl := length_digits get count x ltac:(lia).
  apply: (shows_len _ _ _ _ _ (Z.max 0 (width info - Z.max (precision info) (count x)) +
    (Z.max 0 (Z.max (precision info) (count x) - count x) + count x))); last first.
  { rewrite /number_text Hl /spaces /zeros !length_app !length_replicate length_fmap. lia. }
  rewrite /put_number (_ : (if precision info <? count x then count x else precision info) = Z.max (precision info) (count x)).
  { case: Z.ltb_spec; lia. }
  rewrite /number_text Hl !s32_small; [lia | lia |].
  apply: shows_bind; first by apply: con_pad_ok. move=> s1 H1. apply: shows_bind; first by apply: con_pad_ok => //; exact: w64_pos.
  move=> s2 H2. apply: (con_put_digits_ok _ _ _ _ b) => //; [exact: w64_pos | lia].
Qed.

Lemma con_put_negative_ok pos info arg y t s :
  0 <= pos < 2 ^ 64 -> P t s -> info_ok info -> 1 <= digcount arg <= 64 -> digcount y = digcount arg ->
  Forall (fun d => 0 <= d < 10) (digits getdigit digcount y) ->
  shows (put_negative pr pos info arg y) pos t s (negative_text info (digits getdigit digcount y))
    (Z.of_nat (length (negative_text info (digits getdigit digcount y)))).
Proof.
  move=> Hpos Hp [Hw Hpr] Hc Hy Hd. have Hl := length_digits getdigit digcount y ltac:(lia).
  have Hlen : Z.of_nat (length (negative_text info (digits getdigit digcount y))) =
    1 + (Z.max 0 (width info - Z.max (precision info) (digcount arg) - 1) +
    (Z.max 0 (Z.max (precision info) (digcount arg) - digcount arg - 1) + digcount arg)).
  { rewrite /negative_text Hl Hy /spaces /zeros !length_app !length_replicate length_fmap. cbn [length]. lia. }
  rewrite Hlen /put_negative (_ : (if precision info <? digcount arg then digcount arg else precision info) = Z.max (precision info) (digcount arg)).
  { case: Z.ltb_spec; lia. }
  rewrite /negative_text Hl Hy !s32_small; [lia | lia |]. apply: runs_bind (p_putchar _ _ 45 Hp) _ => r s1 H1.
  have Hs : shows (pos <- pad pr (w64 (pos + 1)) (width info - Z.max (precision info) (digcount arg) - 1) 32;
      pos <- pad pr pos (Z.max (precision info) (digcount arg) - digcount arg - 1) 48;
      put_digits pr pos dec_chr getdigit y (digcount arg)) (w64 (pos + 1)) (t ++ [45]) s1
      (spaces (width info - Z.max (precision info) (digcount arg) - 1) ++
        zeros (Z.max (precision info) (digcount arg) - digcount arg - 1) ++ (dec_chr <$> digits getdigit digcount y))
      (Z.max 0 (width info - Z.max (precision info) (digcount arg) - 1) +
        (Z.max 0 (Z.max (precision info) (digcount arg) - digcount arg - 1) + digcount arg)).
  { apply: shows_bind; first by apply: con_pad_ok => //; exact: w64_pos. move=> s2 H2.
    apply: shows_bind; first by apply: con_pad_ok => //; exact: w64_pos. move=> s3 H3.
    have Hdig := con_put_digits_ok _ dec_chr getdigit digcount 10 y _ _ (w64_pos _) H3 ltac:(lia) Hd dec_chr_byte.
    rewrite Hy in Hdig. exact: Hdig. }
  apply: runs_mono Hs _ => p' s2 [-> H2]. rewrite w64_add_l -Z.add_assoc. split; [done|]. by rewrite -app_assoc in H2.
Qed.

(** The text of a zero under %d: the precision counts zeros before the digit. *)
Definition zero_text (info : fmtctl_info_t) : list Z := spaces (width info - precision info) ++ zeros (precision info) ++ [48].

Lemma put_zero_ok pos info t s :
  0 <= pos < 2 ^ 64 -> P t s -> info_ok info ->
  shows (put_zero pr pos info) pos t s (zero_text info) (Z.of_nat (length (zero_text info)) - 1).
Proof.
  move=> Hpos Hp [Hw Hpr].
  have Hlen : Z.of_nat (length (zero_text info)) - 1 = Z.max 0 (width info - precision info) + (Z.max 0 (precision info) + 0).
  { rewrite /zero_text /spaces /zeros !length_app !length_replicate. cbn [length]. lia. }
  rewrite Hlen /put_zero s32_small; first lia. apply: shows_bind; first by apply: con_pad_ok. move=> s1 H1.
  apply: shows_bind; first by apply: con_pad_ok => //; exact: w64_pos. move=> s2 H2.
  apply: runs_bind (p_putchar _ _ 48 H2) _ => r s3 H3. apply: runs_ret. split; [|exact: H3].
  rewrite Z.add_0_r. symmetry. apply: w64_small. exact: w64_range.
Qed.

Lemma con_put_char_ok pos info arg t s :
  0 <= pos < 2 ^ 64 -> P t s -> info_ok info ->
  shows (put_char pr pos info arg) pos t s (spaces (width info - 1) ++ [arg mod 256])
    (Z.of_nat (length (spaces (width info - 1) ++ [arg mod 256]))).
Proof.
  move=> Hpos Hp [Hw Hpr]. have Hlen : Z.of_nat (length (spaces (width info - 1) ++ [arg mod 256])) = Z.max 0 (width info - 1) + 1.
  { rewrite /spaces !length_app !length_replicate. cbn [length]. lia. }
  rewrite Hlen /put_char s32_small; first lia. apply: shows_bind; first by apply: con_pad_ok. move=> s1 H1.
  apply: runs_bind (p_putchar _ _ arg H1) _ => r s2 H2. by apply: runs_ret.
Qed.

Lemma strlen_stable t s a l : P t s -> stable a l -> on_mem (strlen a) s = Ok (Z.of_nat (length l), s).
Proof. move=> Hp Hs. apply: on_mem_read. apply: strlen_ok. exact: stable_cstr Hp Hs. Qed.

Lemma print_all t s a l : P t s -> stable a l -> runs (print pr a (Z.of_nat (length l))) s (fun _ s' => P (t ++ l) s').
Proof.
  move=> Hp Hs. have := p_print t s a [] l [] Hp. rewrite app_nil_r Z.add_0_r. exact.
Qed.

Lemma con_put_str_ok pos info a l t s :
  0 <= pos < 2 ^ 64 -> P t s -> info_ok info -> stable a l -> Z.of_nat (length l) < 2 ^ 31 ->
  shows (put_str pr pos info a) pos t s (spaces (width info - Z.of_nat (length l)) ++ l)
    (Z.of_nat (length (spaces (width info - Z.of_nat (length l)) ++ l))).
Proof.
  move=> Hpos Hp [Hw Hpr] Hst Hl.
  have Hlen : Z.of_nat (length (spaces (width info - Z.of_nat (length l)) ++ l)) = Z.max 0 (width info - Z.of_nat (length l)) + Z.of_nat (length l).
  { rewrite /spaces !length_app !length_replicate. lia. }
  rewrite Hlen /put_str /shows /runs (bind_ok _ _ _ _ _ (strlen_stable _ _ _ _ Hp Hst)) s32_small; first lia.
  apply: (shows_bind _ (fun pos => n <- on_mem (strlen a); print pr a n;; n <- on_mem (strlen a); ret (w64 (pos + n)))); first by apply: con_pad_ok.
  move=> s1 H1. rewrite /shows /runs (bind_ok _ _ _ _ _ (strlen_stable _ _ _ _ H1 Hst)).
  apply: runs_bind (print_all _ _ _ _ H1 Hst) _ => r s2 H2. rewrite /runs (bind_ok _ _ _ _ _ (strlen_stable _ _ _ _ H2 Hst)).
  eexists _, _. split; [done|]. done.
Qed.

(** A pointer of [w] digits *)
Definition wide_pointer_text (w : Z) (info : fmtctl_info_t) (ds : list Z) : list Z :=
  spaces (width info - w - 2) ++ [48; 120] ++ zeros (w - Z.of_nat (length ds)) ++ (hex_chr <$> ds).

(** "0x" is not counted. *)
Lemma con_put_ptr_ok hex_prefix pos info w get count x t s :
  0 <= pos < 2 ^ 64 -> P t s -> info_ok info -> stable hex_prefix [48; 120] -> 0 <= w <= 16 -> 0 <= count x <= w ->
  Forall (fun d => 0 <= d < 16) (digits get count x) ->
  shows (put_ptr pr hex_prefix pos info w get x (count x)) pos t s (wide_pointer_text w info (digits get count x))
    (Z.of_nat (length (wide_pointer_text w info (digits get count x))) - 2).
Proof.
  move=> Hpos Hp [Hw Hpr] Hst Hd16 Hc Hd. have Hl := length_digits get count x ltac:(lia).
  have Hlen : Z.of_nat (length (wide_pointer_text w info (digits get count x))) - 2 =
    Z.max 0 (width info - w - 2) + (Z.max 0 (w - count x) + count x).
  { rewrite /wide_pointer_text Hl /spaces /zeros !length_app !length_replicate length_fmap. cbn [length]. lia. }
  rewrite Hlen /put_ptr s32_small; first lia. rewrite /wide_pointer_text Hl.
  apply: shows_bind; first by apply: con_pad_ok. move=> s1 H1. apply: runs_bind (print_all _ _ _ _ H1 Hst) _ => r s2 H2.
  have Hs : shows (pos0 <- pad pr (w64 (pos + Z.max 0 (width info - w - 2))) (w - count x) 48; put_digits pr pos0 hex_chr get x (count x))
    (w64 (pos + Z.max 0 (width info - w - 2))) ((t ++ spaces (width info - w - 2)) ++ [48; 120]) s2
    (zeros (w - count x) ++ (hex_chr <$> digits get count x)) (Z.max 0 (w - count x) + count x).
  { apply: shows_bind; first by apply: con_pad_ok => //; exact: w64_pos. move=> s3 H3.
    apply: (con_put_digits_ok _ _ _ _ 16) => //; [exact: w64_pos | lia | exact: hex_chr_byte]. }
  apply: runs_mono Hs _ => p' s3 [-> H3]. split; [done|]. by rewrite -app_assoc in H3.
Qed.

(** ** The scan *)

Section Scan.
Context (convert : Z -> fmtctl_info_t -> list Z -> M (con_st D) (Z * list Z)).
Context (rend : fmtctl_info_t -> datum -> option (list Z)) (count : fmtctl_info_t -> datum -> list Z -> Z).
Context (fits : datum -> Prop).

Hypothesis convert_law : forall info d out va pos t s,
  0 <= pos < 2 ^ 64 -> P t s -> info_ok info -> rend info d = Some out -> fits d ->
  runs (convert pos info (raw d :: va)) s (fun r s' => r = (w64 (pos + count info d out), va) /\ P (t ++ out) s').

Record entry_fits (e : entry) : Prop := {
  ef_text : Forall (fun b => b <> 37) (e_text e);
  ef_conv : conv_ok (e_conv e);
  ef_out : rend (conv_info (e_conv e)) (e_datum e) = Some (e_out e);
  ef_datum : fits (e_datum e)
}.

Definition counted (es : list entry) : Z :=
  foldr (fun e n => Z.of_nat (length (e_text e)) + count (conv_info (e_conv e)) (e_datum e) (e_out e) + n) 0 es.

Lemma counted_snoc es e :
  counted (es ++ [e]) = counted es + (Z.of_nat (length (e_text e)) + count (conv_info (e_conv e)) (e_datum e) (e_out e)).
Proof. elim: es => [|e' es IH]; rewrite /= ?IH; lia. Qed.

Context (fmt : Z) (es : list entry) (tail t0 : list Z).
Hypothesis Hstable : stable fmt (format_of es ++ tail).
Hypothesis Htail : Forall (fun b => b <> 37) tail.
Hypothesis Hes : Forall entry_fits es.

Abbreviation whole := (format_of es ++ tail).

(** [dn] is shown, [j] characters of the next text are scanned. *)
Definition scans (st : scan) s : Prop :=
  exists dn todo (j : nat), es = dn ++ todo /\ (j <= length (cur_text todo tail))%nat /\
    st = mkScan (Z.of_nat (length (format_of dn)) + Z.of_nat j) (Z.of_nat (length (format_of dn))) (Z.of_nat j)
           (w64 (counted dn)) (args_of todo) /\
    P (t0 ++ output_of dn) s.

Lemma whole_split dn todo : es = dn ++ todo -> whole = format_of dn ++ cur_text todo tail ++ cur_rest todo tail.
Proof. move=> ->. by rewrite /format_of flat_map_app -app_assoc -/(format_of todo) cur_split. Qed.

Lemma whole_char dn todo (j : nat) s t :
  es = dn ++ todo -> (j <= length (cur_text todo tail))%nat -> P t s ->
  on_mem (load8 (fmt + (Z.of_nat (length (format_of dn)) + Z.of_nat j))) s
  = Ok (chars (drop j (cur_text todo tail) ++ cur_rest todo tail) 0, s).
Proof.
  move=> Ees Hj Hp. have Hc := stable_cstr _ _ _ _ Hp Hstable. apply: on_mem_read.
  have Hl := load_split _ fmt whole (format_of dn ++ take j (cur_text todo tail)) (drop j (cur_text todo tail) ++ cur_rest todo tail) Hc.
  rewrite length_app length_take_le // Nat2Z.inj_add in Hl. apply: Hl.
  by rewrite (whole_split _ _ Ees) -!app_assoc (app_assoc (take _ _)) take_drop.
Qed.

(** A conversion *)
Lemma convert_round dn e todo s :
  es = dn ++ e :: todo -> P (t0 ++ output_of dn) s ->
  let F := Z.of_nat (length (format_of dn)) in
  let T := Z.of_nat (length (e_text e)) in
  runs (print pr (fmt + F) T;;
    r <- on_mem (fmtctl_parse (fmt + (F + T)));
    match r with
    | None => ret (inr None)
    | Some (parsed_len, info) =>
        '(printed, args) <- convert (w64 (w64 (counted dn) + T)) info (args_of (e :: todo));
        ret (inl (mkScan (w64 (F + T + parsed_len)) (w64 (F + T + parsed_len)) 0 printed args))
    end : M (con_st D) (scan + option scan)) s (fun r s' =>
      r = inl (mkScan (Z.of_nat (length (format_of (dn ++ [e])))) (Z.of_nat (length (format_of (dn ++ [e])))) 0
        (w64 (counted (dn ++ [e]))) (args_of todo)) /\ P (t0 ++ output_of (dn ++ [e])) s').
Proof.
  move=> Ees Hp F T. have Hin : e ∈ es by rewrite Ees; set_solver.
  destruct (proj1 (Forall_forall _ _) Hes e Hin) as [_ Hconv Hout Hfit].
  have Hw : whole = format_of dn ++ e_text e ++ conv_text (e_conv e) ++ format_of todo ++ tail.
  { exact: (whole_split dn (e :: todo) Ees). }
  have Hst := Hstable. rewrite Hw in Hst. apply: runs_bind (p_print _ _ _ _ _ _ Hp Hst) _ => r1 s1 H1.
  have Hc1 : cstr (memory s1) (fmt + (F + T)) (conv_text (e_conv e) ++ format_of todo ++ tail).
  { have Hx := stable_cstr _ _ _ _ H1 Hstable. rewrite Hw app_assoc in Hx. apply cstr_drop in Hx.
    rewrite length_app Nat2Z.inj_add in Hx. exact: Hx. }
  rewrite /runs (bind_ok _ _ _ _ _ (on_mem_read _ _ _ (fmtctl_parse_ok _ _ _ _ _ Hc1 Hconv eq_refl))).
  rewrite w64_add_l. apply: runs_bind (convert_law _ _ _ (args_of todo) _ _ _ (w64_pos _) H1 (conv_info_ok _ Hconv) Hout Hfit) _.
  move=> r2 s2 [-> H2]. apply: runs_ret. rewrite w64_add_l.
  have Hlen : Z.of_nat (length (format_of (dn ++ [e]))) = F + T + Z.of_nat (length (conv_text (e_conv e))).
  { rewrite format_step. unfold F, T. lia. }
  rewrite Hlen counted_snoc Z.add_assoc w64_small.
  { have Hhi := cs_hi _ _ _ (stable_cstr _ _ _ _ H1 Hstable). have Hlo := cs_lo _ _ _ (stable_cstr _ _ _ _ H1 Hstable). move: Hhi.
    rewrite Hw. move: (conv_text (e_conv e)) => ct. rewrite !length_app. unfold in64, F, T. lia. }
  split; [done|]. move: H2. by rewrite /output_of flat_map_app /= app_nil_r -!app_assoc.
Qed.

Lemma format_round_ok st s :
  scans st s ->
  runs (format_round pr convert fmt (Z.of_nat (length whole)) st) s (fun r s' =>
    match r with
    | inl st' => scans st' s' /\ (length whole - Z.to_nat (index st') < length whole - Z.to_nat (index st))%nat
    | inr r => r = Some (mkScan (Z.of_nat (length whole)) (Z.of_nat (length (format_of es))) (Z.of_nat (length tail)) (w64 (counted es)) []) /\
        P (t0 ++ output_of es) s'
    end).
Proof.
  move=> [dn [todo [j [Ees [Hj [-> Hp]]]]]]. have Hch := whole_char _ _ _ _ _ Ees Hj Hp.
  have Elen : length whole = (length (format_of dn) + length (cur_text todo tail) + length (cur_rest todo tail))%nat.
  { rewrite (whole_split _ _ Ees) !length_app. lia. }
  rewrite /format_round. cbn [index print_start print_len printed_len args].
  case: (Nat.eq_dec j (length (cur_text todo tail))) => Hjj.
  - rewrite {2}Hjj drop_all in Hch. destruct todo as [|e todo].
    + rewrite app_nil_r in Ees. subst dn. cbn [cur_text cur_rest length] in Hjj, Elen.
      rewrite (proj2 (Z.ltb_ge _ _)); first lia. apply: runs_ret. split; [|done]. do 2 f_equal; lia.
    + cbn [cur_text] in Hjj. have Hpos := conv_text_pos (e_conv e).
      have Hlt : (length (format_of dn) + j < length whole)%nat.
      { rewrite Elen. cbn [cur_rest cur_text]. move: Hpos. move: (conv_text (e_conv e)) => ct Hpos. rewrite length_app. lia. }
      rewrite (proj2 (Z.ltb_lt _ _)); first lia. rewrite /runs (bind_ok _ _ _ _ _ Hch). cbn [app cur_rest].
      rewrite (_ : chars (conv_text (e_conv e) ++ format_of todo ++ tail) 0 = 37) //. cbn [Z.eqb Pos.eqb].
      subst j. apply: (runs_mono _ _ _ _ (convert_round dn e todo s Ees Hp)) => r s2 [-> Hp2]. split.
      * exists (dn ++ [e]), todo, 0%nat. rewrite Z.add_0_r -app_assoc. split; [done|]. split; [lia|]. done.
      * cbn [index]. rewrite Nat2Z.id format_step. lia.
  - have Hlt : (length (format_of dn) + j < length whole)%nat by lia.
    rewrite (proj2 (Z.ltb_lt _ _)); first lia. rewrite /runs (bind_ok _ _ _ _ _ Hch).
    destruct (lookup_lt_is_Some_2 (cur_text todo tail) j) as [b Hb]; first lia.
    rewrite (drop_S _ _ _ Hb). change (chars _ 0) with b.
    have Hplain : Forall (fun b => b <> 37) (cur_text todo tail).
    { destruct todo as [|e todo]; first exact: Htail. have Hin : e ∈ es by rewrite Ees; set_solver.
      by destruct (proj1 (Forall_forall _ _) Hes e Hin). }
    rewrite (proj2 (Z.eqb_neq _ _) (Forall_lookup_1 _ _ _ _ Hplain Hb)). eexists _, _. split; [done|].
    have Hhi := cs_hi _ _ _ (stable_cstr _ _ _ _ Hp Hstable). have Hlo := cs_lo _ _ _ (stable_cstr _ _ _ _ Hp Hstable).
    rewrite (w64_small (_ + _ + 1)); first (unfold in64; lia). rewrite (w64_small (Z.of_nat j + 1)); first (unfold in64; lia). split.
    + exists dn, todo, (S j). split; [done|]. split; [lia|]. split; [f_equal; lia | done].
    + cbn [index]. lia.
Qed.

Lemma format_run_ok s :
  P t0 s -> runs (format_run pr convert fmt (args_of es)) s (fun r s' =>
    r = s32 (counted es + Z.of_nat (length tail)) /\ P (t0 ++ output_of es ++ tail) s').
Proof.
  move=> Hp. rewrite /format_run /runs (bind_ok _ _ _ _ _ (strlen_stable _ _ _ _ Hp Hstable)).
  apply: (runs_bind _ _ _ (fun r s' => r = Some (mkScan (Z.of_nat (length whole)) (Z.of_nat (length (format_of es)))
    (Z.of_nat (length tail)) (w64 (counted es)) []) /\ P (t0 ++ output_of es) s')).
  - apply: (loop_rule scans (fun st => length whole - Z.to_nat (index st))%nat).
    + exists [], es, 0%nat. split; [done|]. split; [lia|]. split; [done|]. by rewrite app_nil_r.
    + simpl. lia.
    + exact: format_round_ok.
  - move=> r s1 [-> H1]. cbn [print_start print_len printed_len].
    have Hst := Hstable. rewrite -(app_nil_r tail) in Hst.
    apply: runs_bind (p_print _ _ _ _ _ _ H1 Hst) _ => r2 s2 H2. apply: runs_ret. rewrite app_assoc. split; [|done].
    rewrite -s32_w64 w64_add_l. exact: s32_w64.
Qed.

End Scan.

(** ** The two switches *)

(** What is shown for an argument, with pointers of [w] digits; a wider pointer
    than 32 bits has no text on the log. *)
Definition con_render (w : Z) (info : fmtctl_info_t) (d : datum) : option (list Z) :=
  match specifier info, d with
  | DEC, Num a =>
      Some (if 0 <? s32 a then number_text info dec_chr (digits getdigit digcount (s32 a))
            else if s32 a <? 0 then negative_text info (digits getdigit digcount (s32 a))
            else zero_text info)
  | OCT, Num a => Some (number_text info dec_chr (digits getodigit odigcount (uint a)))
  | HEX, Num a => Some (number_text info hex_chr (digits getxdigit xdigcount (uint a)))
  | UNSIGNED, Num a => Some (number_text info dec_chr (digits getudigit udigcount (uint a)))
  | CHAR, Num a => Some (spaces (width info - 1) ++ [s32 a mod 256])
  | PTR, Num a => if (w =? 8) || (w64 a <? 2 ^ 32) then Some (wide_pointer_text w info (digits getxdigit xdigcount (uint a))) else None
  | STR, Text p l => Some (spaces (width info - Z.of_nat (length l)) ++ l)
  | _, _ => None
  end.

(** How much of it is counted: not the "0x" of a pointer, and on the screen not
    the digit of a zero *)
Definition con_count (w : Z) (info : fmtctl_info_t) (d : datum) (out : list Z) : Z :=
  Z.of_nat (length out) -
  match specifier info, d with
  | PTR, _ => 2
  | DEC, Num a => if (w =? 8) && (s32 a =? 0) then 1 else 0
  | _, _ => 0
  end.

Definition con_fits (d : datum) : Prop :=
  match d with
  | Num a => s32 a <> - 2 ^ 31
  | Text p l => in64 p /\ stable p l /\ Z.of_nat (length l) < 2 ^ 31
  end.

Lemma shows_take f pos a va t s out n :
  shows (f a) pos t s out n ->
  runs (take_arg (a :: va) f) s (fun r s' => r = (w64 (pos + n), va) /\ P (t ++ out) s').
Proof. move=> Hf. apply: runs_bind Hf _ => pos' s' [-> Hs]. by apply: runs_ret. Qed.

Lemma digits_opp x : - 2 ^ 31 < x < 0 -> digits getdigit digcount (- x) = digits getdigit digcount x.
Proof.
  move=> Hx. rewrite /digits digcount_neg. apply: list_fmap_ext => j y _. rewrite /getdigit digcount_neg.
  rewrite (proj2 (Z.ltb_lt x 0)); first lia. rewrite (proj2 (Z.ltb_ge (- x) 0)); first lia. by rewrite s32_small; first lia.
Qed.

Lemma uint_count z : 1 <= udigcount (uint z) <= 64 /\ 1 <= odigcount (uint z) <= 64 /\ 1 <= xdigcount (uint z) <= 8.
Proof.
  have Hr := uint_range z. split; [|split].
  - apply: (count_bound 10); [lia | exact: div10_drops | lia | have := pow_10_64; lia | lia].
  - apply: (count_bound 8); [lia | exact: shr3_drops | lia | have := pow_8_64; lia | lia].
  - apply: (count_bound 16); [lia | exact: shr4_drops | lia | lia | lia].
Qed.

(** A signed number, for either way to print zero and the digits of a negative one *)
Lemma dec_ok (f : Z -> fmtctl_info_t -> Z -> M (con_st D) Z) (z : bool) pos info a t s :
  (forall pos info x s, f pos info x s =
     (if 0 <? x then put_number pr pos info dec_chr getdigit digcount x
      else if x <? 0 then put_negative pr pos info x (if z then x else s32 (- x))
      else pos <- put_zero pr pos info; ret (if z then pos else w64 (pos + 1))) s) ->
  0 <= pos < 2 ^ 64 -> P t s -> info_ok info -> s32 a <> - 2 ^ 31 ->
  shows (f pos info (s32 a)) pos t s
    (if 0 <? s32 a then number_text info dec_chr (digits getdigit digcount (s32 a))
     else if s32 a <? 0 then negative_text info (digits getdigit digcount (s32 a)) else zero_text info)
    (Z.of_nat (length (if 0 <? s32 a then number_text info dec_chr (digits getdigit digcount (s32 a))
     else if s32 a <? 0 then negative_text info (digits getdigit digcount (s32 a)) else zero_text info))
     - if z && (s32 a =? 0) then 1 else 0).
Proof.
  move=> Hf Hpos Hp Hi Ha. have Hr := s32_range a. rewrite /shows /runs Hf. have Hc := digcount_bound (s32 a) ltac:(lia).
  destruct (digits_spell (s32 a)) as (_ & _ & Hsp). destruct (Hsp ltac:(lia)) as (_ & Hd & _).
  case: (Z.ltb_spec 0) => H0.
  - rewrite (proj2 (Z.eqb_neq _ 0)); first lia. rewrite andb_false_r Z.sub_0_r.
    apply: (con_put_number_ok _ _ _ _ _ 10) => //. exact: dec_chr_byte.
  - case: Z.ltb_spec => H1.
    + rewrite (proj2 (Z.eqb_neq _ 0)); first lia. rewrite andb_false_r Z.sub_0_r. destruct z; first by apply: con_put_negative_ok.
      rewrite (s32_small (- s32 a)); first lia. rewrite -(digits_opp (s32 a)); first lia.
      apply: con_put_negative_ok => //; [exact: digcount_neg | rewrite digits_opp //; lia].
    + rewrite (proj2 (Z.eqb_eq _ 0)); first lia. rewrite andb_true_r.
      apply: runs_bind (put_zero_ok pos info t s Hpos Hp Hi) _ => p' s' [-> Hs]. apply: runs_ret. split; [|done].
      destruct z; first done. rewrite w64_add_l Z.sub_0_r. f_equal. lia.
Qed.

Lemma log_convert_ok hex_prefix info d out va pos t s :
  stable hex_prefix [48; 120] -> 0 <= pos < 2 ^ 64 -> P t s -> info_ok info -> con_render 16 info d = Some out -> con_fits d ->
  runs (log_convert pr hex_prefix pos info (raw d :: va)) s (fun r s' => r = (w64 (pos + con_count 16 info d out), va) /\ P (t ++ out) s').
Proof.
  move=> Hhex Hpos Hp Hi. rewrite /con_render /log_convert /con_count.
  destruct d as [a|p l]; last first.
  { destruct (specifier info) => // [] [<-] [Hin [Hst Hl]]. apply: shows_take. rewrite Z.sub_0_r w64_small //. exact: con_put_str_ok. }
  destruct (uint_count a) as (Hu & Ho & Hx). destruct (digits_spell (uint a)) as (Hs32 & _ & _).
  destruct (Hs32 (uint_range a)) as ((_ & Hd10 & _) & (_ & Hd16 & _) & (_ & Hd8 & _)). cbn [raw].
  destruct (specifier info) => //.
  - move=> [<-] Ha. apply: shows_take. exact: (dec_ok (log_dec pr) false).
  - move=> [<-] _. apply: shows_take. rewrite Z.sub_0_r. apply: (con_put_number_ok _ _ _ _ _ 8) => //. exact: oct_chr_byte.
  - move=> [<-] _. apply: shows_take. rewrite Z.sub_0_r. apply: (con_put_number_ok _ _ _ _ _ 16) => //; [lia | exact: hex_chr_byte].
  - move=> [<-] _. apply: shows_take. rewrite Z.sub_0_r. apply: (con_put_number_ok _ _ _ _ _ 10) => //. exact: dec_chr_byte.
  - move=> [<-] _. apply: shows_take. rewrite Z.sub_0_r. exact: con_put_char_ok.
  - cbn [Z.eqb Pos.eqb orb]. case: Z.ltb_spec => // Hlt [<-] _. apply: shows_take.
    have Hw := w64_range a. have Hua : w64 a = uint a.
    { rewrite /uint /w64 -(Z.mod_mod_divide a (2 ^ 64) (2 ^ 32)); first by exists (2 ^ 32). symmetry. apply: Z.mod_small. move: Hw Hlt. rewrite /w64 /in64. lia. }
    rewrite Hua. have Hp16 := con_put_ptr_ok hex_prefix pos info 16 (fun x j => getxdigit (uint x) j) llxdigcount (uint a) t s Hpos Hp Hi Hhex.
    have Hdd : digits (fun x j => getxdigit (uint x) j) llxdigcount (uint a) = digits getxdigit xdigcount (uint a).
    { rewrite /digits. apply: list_fmap_ext => j y _. by rewrite {1}/uint (Z.mod_small (uint a)) //; exact: uint_range. }
    rewrite Hdd in Hp16. apply: Hp16 => //. change (llxdigcount (uint a)) with (xdigcount (uint a)). lia.
Qed.

Lemma vga_convert_ok hex_prefix info d out va pos t s :
  stable hex_prefix [48; 120] -> 0 <= pos < 2 ^ 64 -> P t s -> info_ok info -> con_render 8 info d = Some out -> con_fits d ->
  runs (vga_convert pr hex_prefix pos info (raw d :: va)) s (fun r s' => r = (w64 (pos + con_count 8 info d out), va) /\ P (t ++ out) s').
Proof.
  move=> Hhex Hpos Hp Hi. rewrite /con_render /vga_convert /con_count.
  destruct d as [a|p l]; last first.
  { destruct (specifier info) => // [] [<-] [Hin [Hst Hl]]. apply: shows_take. rewrite Z.sub_0_r w64_small //. exact: con_put_str_ok. }
  destruct (uint_count a) as (Hu & Ho & Hx). destruct (digits_spell (uint a)) as (Hs32 & _ & _).
  destruct (Hs32 (uint_range a)) as ((_ & Hd10 & _) & (_ & Hd16 & _) & (_ & Hd8 & _)). cbn [raw].
  destruct (specifier info) => //.
  - move=> [<-] Ha. apply: shows_take. apply: (dec_ok (vga_dec pr) true) => // pos' info' x s'. rewrite /vga_dec.
    case: Z.ltb_spec => // _. case: Z.ltb_spec => // _. rewrite /bind /ret. by destruct (put_zero pr pos' info' s') as [[]| | |].
  - move=> [<-] _. apply: shows_take. rewrite Z.sub_0_r. apply: (con_put_number_ok _ _ _ _ _ 8) => //. exact: oct_chr_byte.
  - move=> [<-] _. apply: shows_take. rewrite Z.sub_0_r. apply: (con_put_number_ok _ _ _ _ _ 16) => //; [lia | exact: hex_chr_byte].
  - move=> [<-] _. apply: shows_take. rewrite Z.sub_0_r. apply: (con_put_number_ok _ _ _ _ _ 10) => //. exact: dec_chr_byte.
  - move=> [<-] _. apply: shows_take. rewrite Z.sub_0_r. exact: con_put_char_ok.
  - cbn [Z.eqb Pos.eqb orb]. move=> [<-] _. apply: shows_take. apply: (con_put_ptr_ok hex_prefix pos info 8 getllxdigit llxdigcount (uint a)) => //.
    change (llxdigcount (uint a)) with (xdigcount (uint a)). lia.
Qed.

(** ** What the text means *)

Definition con_printed (w : Z) (info : fmtctl_info_t) (d : datum) t : Prop :=
  match specifier info, d with
  | DEC, Num a =>
      if s32 a =? 0 then t = zero_text info
      else exists ds, numeral 10 (Z.abs (s32 a)) ds /\ t = if s32 a <? 0 then negative_text info ds else number_text info dec_chr ds
  | PTR, Num a => exists ds, numeral 16 (uint a) ds /\ t = wide_pointer_text w info ds
  | _, _ => printed info d t
  end.

Lemma con_render_printed w info d t : con_fits d -> con_render w info d = Some t -> con_printed w info d t.
Proof.
  rewrite /con_printed /con_render /printed. destruct d as [a|p l]; last by destruct (specifier info) => // _ [<-].
  destruct (uint_numeral a) as (H8 & H16 & H10). destruct (specifier info) => // Hd; try (by move=> Ht; inversion Ht; eauto).
  - move=> [<-]. simpl in Hd. have Hr := s32_range a. destruct (digits_spell (s32 a)) as (_ & _ & Hs). specialize (Hs ltac:(lia)).
    have Hn := spells_numeral _ _ _ _ _ (proj1 (digcount_bound (s32 a) ltac:(lia))) Hs.
    case: Z.eqb_spec => [->|H0]; first done. eexists. split; [exact: Hn|].
    case: (Z.ltb_spec 0) => H1; case: Z.ltb_spec => H2 //; lia.
  - case: orb => // [] [<-]. by eauto.
Qed.

End Format.

End ConsoleF.
