(* ===== verification/ConsoleLog.v ===== *)
(** * The kernel log: what reaches the debug port *)

From S2P Require Import Prelude CString CStringTheorems CMath CMathTheorems CFormat CFormatTheorems Console ConsoleFormat.
Import CString CStringT CMath CMathT CFormat CFormatT Console ConsoleF.

Module ConsoleLog.

(** The debug port keeps what is written to it, byte by byte. *)
Class DebugPort (D : Type) {PD : Ports D} := {
  port_log : D -> list Z;
  port_out d v : 0 <= v < 256 -> port_log (arch_out8 0xe9 v d) = port_log d ++ [v]
}.

(** A new line gets a return in front. *)
Definition crlf (t : list Z) : list Z := flat_map (fun c => if c =? 10 then [13; 10] else [c]) t.

Lemma crlf_app t1 t2 : crlf (t1 ++ t2) = crlf t1 ++ crlf t2.
Proof. exact: flat_map_app. Qed.

Section Log.
Context {D : Type} `{DP : DebugPort D}.
Context (m0 : mem) (log0 : list Z) (fg bg : Z).
Hypothesis Hbytes : bytes m0.

(** The text [t] was logged since the log was [log0]. *)
Definition logged (t : list Z) (s : con_st D) : Prop :=
  memory s = m0 /\ _cur_fgcolor s = fg /\ _cur_bgcolor s = bg /\ port_log (dev s) = log0 ++ crlf t.

Lemma u8_byte c : 0 <= u8 c < 256.
Proof. exact: Z.mod_pos_bound. Qed.

Lemma log_byte t s c : logged t s ->
  runs (when (u8 c =? 10) (out8 0xe9 13);; out8 0xe9 c) s (fun _ s' => logged (t ++ [u8 c]) s').
Proof.
  move=> [Hm [Hf [Hb Hl]]]. have Hc := u8_byte c. rewrite /logged crlf_app /= app_nil_r.
  case: Z.eqb_spec => E; cbn [when].
  - eexists _, _. split; [done|]. simpl. split; [done | split; [done | split; [done|]]].
    rewrite port_out; first exact: u8_byte. rewrite port_out; first done. rewrite Hl E -!app_assoc. done.
  - eexists _, _. split; [done|]. simpl. split; [done | split; [done | split; [done|]]].
    rewrite port_out; first exact: u8_byte. rewrite Hl -!app_assoc. done.
Qed.

Lemma print_chars t s a l1 l2 l3 :
  logged t s -> cstr m0 a (l1 ++ l2 ++ l3) ->
  runs (qemu_console_logger_print (a + Z.of_nat (length l1)) (Z.of_nat (length l2))) s (fun _ s' => logged (t ++ l2) s').
Proof.
  move=> Hlog Hc. rewrite /qemu_console_logger_print /repeat_for.
  apply: (runs_bind _ _ _ (fun _ s' => logged (t ++ l2) s')); last by move=> r s' Hs; apply: runs_ret.
  apply: (for_loop_rule (fun i _ s' => logged (t ++ take (Z.to_nat i) l2) s')).
  - by rewrite app_nil_r.
  - move=> i [] s1 Hi H1. rewrite Z.add_0_l Nat2Z.id in Hi.
    destruct (lookup_lt_is_Some_2 l2 (Z.to_nat i)) as [c Hci]; first lia.
    have Hat : m0 !! (a + Z.of_nat (length l1) + i) = Some c.
    { rewrite -(cs_at _ _ _ Hc (length l1 + Z.to_nat i) c).
      - rewrite lookup_app_r; first lia. rewrite lookup_app_l; first lia. rewrite -Hci. f_equal. lia.
      - f_equal. lia. }
    have Hcb := Hbytes _ _ Hat. have Hu : u8 c = c by apply Z.mod_small.
    have Hhi := cs_hi _ _ _ Hc. have Hlo := cs_lo _ _ _ Hc. rewrite !length_app in Hhi.
    have Eload : on_mem (load8 (a + Z.of_nat (length l1) + i)) s1 = Ok (c, s1).
    { apply: on_mem_read. rewrite /load8 w64_small; first (unfold in64; lia). by rewrite (proj1 H1) Hat. }
    destruct (log_byte _ _ c H1) as (r & s2 & E & H2). rewrite Hu in E H2.
    rewrite bind_assoc (bind_ok _ _ _ _ _ Eload). rewrite (bind_ok _ _ _ _ _ E).
    eexists _, _. split; [done|]. rewrite (_ : Z.to_nat (i + 1) = S (Z.to_nat i)); first lia.
    by rewrite (take_S_r _ _ _ Hci) app_assoc.
  - move=> [] s1. rewrite Z.add_0_l Nat2Z.id take_ge //. lia.
Qed.

#[local] Instance log_printer : Printer hn_qemu_logger logged (cstr m0).
Proof.
  split.
  - move=> t s a l [-> _]. done.
  - move=> t s c Hs. exact: log_byte.
  - move=> t s a l1 l2 l3. exact: print_chars.
Qed.

End Log.

(** ** Results *)

(** The format, the strings among the arguments and the literal "0x" are in
    memory, and the arguments fit their conversions. *)
Record log_call (m : mem) (hex_prefix fmt : Z) (es : list entry) (tail : list Z) : Prop := {
  lc_bytes : bytes m;
  lc_hex : cstr m hex_prefix [48; 120];
  lc_fmt : cstr m fmt (format_of es ++ tail);
  lc_tail : Forall (fun b => b <> 37) tail;
  lc_entries : Forall (entry_fits (con_render 16) (con_fits (stable := cstr m))) es
}.


(** ** A machine with the two devices *)

(** The register the display controller has selected, its cursor registers, and
    the bytes sent to the debug port *)
Record machine := mkMachine { sel : Z; cursor_hi : Z; cursor_lo : Z; sent : list Z }.

#[global] Instance machine_ports : Ports machine := {
  arch_out8 port v d :=
    if port =? 0x3d4 then mkMachine v (cursor_hi d) (cursor_lo d) (sent d)
    else if port =? 0x3d5 then
      if sel d =? 0x0e then mkMachine (sel d) v (cursor_lo d) (sent d)
      else if sel d =? 0x0f then mkMachine (sel d) (cursor_hi d) v (sent d)
      else d
    else if port =? 0xe9 then mkMachine (sel d) (cursor_hi d) (cursor_lo d) (sent d ++ [v])
    else d;
  arch_in8 port d :=
    if port =? 0x3d5 then (if sel d =? 0x0e then cursor_hi d else if sel d =? 0x0f then cursor_lo d else 0) mod 256
    else 0
}.

#[global] Instance machine_log : DebugPort machine.
Proof. by refine {| port_log := sent |}. Defined.

(** The format with %d, %s and a new line at 16, a string at 24, the literal at 27 *)
Definition log_mem : mem := mem_of 16 ([110; 61; 37; 100; 37; 115; 10; 0] ++ [104; 105; 0] ++ [48; 120; 0]).

Definition log_entries : list entry := [
  mkEntry [110; 61] (mkConv None [] None None 100) (Num 42) [52; 50];
  mkEntry [] (mkConv None [] None None 115) (Text 24 [104; 105]) [104; 105]
].

Definition log_start : con_st machine := mkCon log_mem (mkMachine 0 0 0 []) 7 0.

Lemma log_string : cstr log_mem 24 [104; 105].
Proof. apply: cstr_check; [done | by repeat constructor | by repeat constructor; vm_compute]. Qed.

Lemma log_start_call : log_call log_mem 27 16 log_entries [10].
Proof.
  split.
  - have Hf : map_Forall (fun _ b => 0 <= b < 256) log_mem by apply: bool_decide_unpack; vm_compute.
    move=> x b Hx. exact: (Hf x b Hx).
  - apply: cstr_check; [done | by repeat constructor | by repeat constructor; vm_compute].
  - apply: cstr_check; [done | by repeat constructor | by repeat constructor; vm_compute].
  - by repeat constructor.
  - constructor; [|constructor; [|constructor]]; split.
    + by repeat constructor.
    + split; [done | by split; [repeat constructor |] | by split; [repeat constructor |] | done | by eexists].
    + by vm_compute.
    + by vm_compute.
    + by repeat constructor.
    + split; [done | by split; [repeat constructor |] | by split; [repeat constructor |] | done | by eexists].
    + by vm_compute.
    + split; [done | split; [exact: log_string | done]].
Qed.


(** A pointer above 32 bits: the digits above the low half come out as '/'
    (47). *)
Fact pointer_slashes :
  exists s', do_vprintf hn_qemu_logger 3 0 [0xffffffff80000000] (mkCon (mem_of 0 [37; 112; 0; 48; 120; 0]) (mkMachine 0 0 0 []) 7 0)
    = Ok (16, s') /\ sent (dev s') = [48; 120] ++ replicate 8 47 ++ [56] ++ replicate 7 48.
Proof. by eexists; vm_compute. Qed.

End ConsoleLog.
