(* ===== verification/ConsoleScreen.v ===== *)
(** * The text screen: a terminal of 80 columns and 25 rows

    [term] is the screen as a user sees it: the bytes of the cells and the
    cursor.  The code of vga.cc keeps a range of memory and the cursor registers of
    the display in step with it; so the screen is a printer, and the
    formatted output of [ConsoleFormat] appears on it. *)

From S2P Require Import Prelude CString CStringTheorems CMath CMathTheorems CFormat CFormatTheorems Console ConsoleFormat ConsoleLog.
Import CString CStringT CMath CMathT CFormat CFormatT Console ConsoleF ConsoleLog.

Module ConsoleScreen.

(** The display controller: one register is selected, of which 14 and 15 have
    the cursor. *)
Class Display (D : Type) {PD : Ports D} := {
  crtc : D -> Z -> Z;
  selected : D -> Z;
  crtc_byte d r : 0 <= crtc d r < 256;
  select_out d v : 0 <= v < 256 -> selected (arch_out8 0x3d4 v d) = v;
  select_keeps d v r : crtc (arch_out8 0x3d4 v d) r = crtc d r;
  data_out d v r : 0 <= v < 256 -> selected d = 14 \/ selected d = 15 -> r = 14 \/ r = 15 ->
    crtc (arch_out8 0x3d5 v d) r = if r =? selected d then v else crtc d r;
  data_in d : selected d = 14 \/ selected d = 15 -> arch_in8 0x3d5 d = crtc d (selected d)
}.

Definition cursor {D} {PD : Ports D} `{!Display D} (d : D) : Z := 256 * crtc d 14 + crtc d 15.

(** ** The terminal *)

Record term := mkTerm { cell : Z -> Z; pos : Z }.

(** Where the cursor goes, before the screen scrolls *)
Definition move (c p : Z) : Z :=
  if c =? 7 then p
  else if c =? 10 then (p / 80 + 1) * 80
  else if c =? 9 then p + (4 - p mod 4)
  else if c =? 8 then (if p mod 80 =? 0 then p else p - 1)
  else if c =? 13 then p / 80 * 80
  else p + 1.

Definition control (c : Z) : bool := (c =? 7) || (c =? 10) || (c =? 9) || (c =? 8) || (c =? 13).

(** A character in a cell with its attribute *)
Definition draw (attr c p : Z) (f : Z -> Z) : Z -> Z :=
  fun i => if i =? 2 * p then c else if i =? 2 * p + 1 then attr else f i.

(** Every row goes up by one; the last one gets what follows the screen in
    memory. *)
Definition scroll (f : Z -> Z) : Z -> Z := fun i => if i <? 4000 then f (i + 160) else f i.

Definition term_put (attr : Z) (t : term) (c : Z) : term :=
  let f := if control c then cell t else draw attr c (pos t) (cell t) in
  let p := move c (pos t) in
  if p =? 2000 then mkTerm (scroll f) 1920 else mkTerm f p.

Lemma move_bounds c p : 0 <= p < 2000 -> 0 <= move c p <= 2000.
Proof.
  move=> Hp. rewrite /move. have H80 := Z.div_mod p 80 ltac:(lia). have Hm := Z.mod_pos_bound p 80 ltac:(lia).
  have H4 := Z.div_mod p 4 ltac:(lia). have Hm4 := Z.mod_pos_bound p 4 ltac:(lia).
  repeat case: Z.eqb_spec => ?; lia.
Qed.

Lemma term_put_bounds attr t c : 0 <= pos t < 2000 -> 0 <= pos (term_put attr t c) < 2000.
Proof.
  move=> Hp. have Hm := move_bounds c (pos t) Hp. rewrite /term_put. case: Z.eqb_spec => E; cbn [pos]; lia.
Qed.

Section Screen.
Context {D : Type} {PD : Ports D} `{!Display D}.
Context (base : Z).

Abbreviation scr := (screen base).

(** The devices changed, not the memory. *)
Definition with_dev (s : con_st D) (d : D) : con_st D := mkCon (memory s) d (_cur_fgcolor s) (_cur_bgcolor s).

(** Writing a cursor register *)
Lemma set_reg d r v : r = 14 \/ r = 15 -> 0 <= v < 256 ->
  let d' := arch_out8 0x3d5 v (arch_out8 0x3d4 r d) in
  crtc d' r = v /\ crtc d' (29 - r) = crtc d (29 - r).
Proof.
  move=> Hr Hv d'. have Hs : selected (arch_out8 0x3d4 r d) = r by apply: select_out; lia.
  split; rewrite /d' data_out //; rewrite ?Hs; try lia; [by rewrite Z.eqb_refl|].
  rewrite (proj2 (Z.eqb_neq _ _)); first lia. exact: select_keeps.
Qed.

Lemma u8_small z : 0 <= z < 256 -> u8 z = z.
Proof. exact: Z.mod_small. Qed.

Lemma vga_setpos_ok s x y :
  0 <= x < 256 -> 0 <= y < 256 ->
  exists d, vga_setpos x y s = Ok (tt, with_dev s d) /\ cursor d = y * 80 + x.
Proof.
  move=> Hx Hy. rewrite /vga_setpos !u8_small // /VGA_TEXTDISP_WIDTH /u16 (Z.mod_small (y * 80 + x)); first lia.
  set o := y * 80 + x. have Ho : 0 <= o < 65536 by unfold o; lia.
  have Hhi : 0 <= o / 256 < 256 by split; [apply: Z.div_pos; lia | apply: Z.div_lt_upper_bound; lia].
  have Hlo := Z.mod_pos_bound o 256 ltac:(lia). rewrite Z.shiftr_div_pow2 // (Z.land_ones o 8) //.
  eexists. split; [reflexivity|]. rewrite /out8 /= !u8_small //.
  destruct (set_reg (dev s) 14 (o / 256) ltac:(by left) Hhi) as [A1 A2].
  destruct (set_reg (arch_out8 981 (o / 256) (arch_out8 980 14 (dev s))) 15 (o mod 256) ltac:(by right) Hlo) as [B1 B2].
  rewrite /cursor. change (29 - 15) with 14 in B2. rewrite B1 B2 A1. have := Z.div_mod o 256 ltac:(lia). lia.
Qed.

Lemma vga_getpos_ok s : exists d, vga_getpos s = Ok (cursor (dev s), with_dev s d) /\ cursor d = cursor (dev s).
Proof.
  pose proof (select_out (dev s) 14 ltac:(lia)) as Hs1. pose proof (select_out (arch_out8 980 14 (dev s)) 15 ltac:(lia)) as Hs2.
  have E : vga_getpos s = Ok (Z.lor (u16 (Z.shiftl (arch_in8 981 (arch_out8 980 14 (dev s))) 8))
    (arch_in8 981 (arch_out8 980 15 (arch_out8 980 14 (dev s)))), with_dev s (arch_out8 980 15 (arch_out8 980 14 (dev s)))) by [].
  eexists. rewrite E data_in ?Hs1; [by left|]. rewrite data_in ?Hs2; [by right|]. rewrite !select_keeps. split.
  - pose proof (crtc_byte (dev s) 14) as H14. pose proof (crtc_byte (dev s) 15) as H15. f_equal. f_equal.
    rewrite /u16 Z.mod_small; first (rewrite Z.shiftl_mul_pow2 //; lia). rewrite lor_add //. rewrite /cursor. lia.
  - by rewrite /cursor !select_keeps.
Qed.

(** ** Memory against the terminal *)

Record on_screen (s : con_st D) (t : term) : Prop := {
  os_pos : cursor (dev s) = pos t;
  os_bounds : 0 <= pos t < 2000;
  os_bytes : bytes (memory s);
  os_range : range (memory s) scr 4160;
  os_cell i : 0 <= i < 4160 -> memory s !! (scr + i) = Some (cell t i)
}.

(** Outside the screen nothing changes. *)
Definition frame (s s' : con_st D) : Prop :=
  outside (memory s) scr 4000 (memory s') /\ _cur_fgcolor s' = _cur_fgcolor s /\ _cur_bgcolor s' = _cur_bgcolor s.

Lemma scr_refl s : frame s s.
Proof. by split. Qed.

Lemma scr_trans s1 s2 s3 : frame s1 s2 -> frame s2 s3 -> frame s1 s3.
Proof. move=> [H1 [F1 B1]] [H2 [F2 B2]]. split; [|split; congruence]. move=> x Hx. by rewrite H2 // H1. Qed.

Lemma frame_dev s d : frame s (with_dev s d).
Proof. by split. Qed.

(** The memory of a screen whose cursor is about to move *)
Definition cells (s : con_st D) (f : Z -> Z) : Prop :=
  bytes (memory s) /\ range (memory s) scr 4160 /\ forall i, 0 <= i < 4160 -> memory s !! (scr + i) = Some (f i).

Lemma on_screen_dev s f p d : cells s f -> cursor d = p -> 0 <= p < 2000 -> on_screen (with_dev s d) (mkTerm f p).
Proof. move=> [Hb [Hr Hc]] Hd Hp. by split. Qed.

Lemma on_screen_cells s t : on_screen s t -> cells s (cell t).
Proof. by case. Qed.

Definition attr (fg bg : Z) : Z := u8 (Z.lor (u8 fg) (Z.shiftl (u8 bg) 4)).

Lemma vga_chwrite_ok s f c fg bg p :
  cells s f -> 0 <= p < 2000 -> 0 <= c < 256 ->
  runs (vga_chwrite base c fg bg (p mod 80) (p / 80)) s (fun _ s' =>
    cells s' (draw (attr fg bg) c p f) /\ frame s s' /\ dev s' = dev s).
Proof.
  move=> [Hb [Hr Hc]] Hp Hcb. have Hm := Z.mod_pos_bound p 80 ltac:(lia). have Hd := Z.div_mod p 80 ltac:(lia).
  have Hat : 0 <= attr fg bg < 256 by exact: Z.mod_pos_bound. case: (Hr) => _ Hlo Hhi _.
  rewrite /vga_chwrite (u8_small (p mod 80)); first lia. rewrite (u8_small (p / 80)).
  { split; [apply: Z.div_pos; lia | apply: Z.div_lt_upper_bound; lia]. }
  rewrite (_ : (p / 80 * VGA_TEXTDISP_WIDTH + p mod 80) * 2 = 2 * p); first (rewrite /VGA_TEXTDISP_WIDTH; lia).
  have Hr1 : range (memory s) (scr + 2 * p) 1 by apply: (range_sub _ _ _ _ _ Hr); lia.
  have E1 := store8_ok _ _ c Hr1. set m1 := <[scr + 2 * p := c mod 256]> (memory s) in E1.
  have Hr2 : range m1 (scr + 2 * p + 1) 1.
  { apply: (range_dom (memory s)); last (apply: (range_sub _ _ _ _ _ Hr); lia). move=> x. rewrite /m1.
    case: (Z.eq_dec x (scr + 2 * p)) => [->|Hne]; last by rewrite lookup_insert_ne.
    rewrite lookup_insert_eq (Hc (2 * p)); first lia. by split; eexists. }
  have E2 := store8_ok _ _ (attr fg bg) Hr2. set m2 := <[scr + 2 * p + 1 := attr fg bg mod 256]> m1 in E2.
  rewrite !Z.mod_small // in m1 m2 E1 Hr2 E2.
  exists tt, (mkCon m2 (dev s) (_cur_fgcolor s) (_cur_bgcolor s)). split.
  { rewrite /on_mem /bind E1 /=. by rewrite E2. }
  have Hlook x : m2 !! x = if x =? scr + 2 * p then Some c else if x =? scr + 2 * p + 1 then Some (attr fg bg) else memory s !! x.
  { rewrite /m2 /m1. case: Z.eqb_spec => [->|H1]; first by rewrite lookup_insert_ne ?lookup_insert_eq //; lia.
    case: Z.eqb_spec => [->|H2]; first by rewrite lookup_insert_eq. by rewrite !lookup_insert_ne //; lia. }
  split; [|split; [|done]].
  - split; [|split].
    + move=> x b /=. rewrite Hlook. case: Z.eqb_spec => _; first by case=> <-. case: Z.eqb_spec => _; [by case=> <- | exact: Hb].
    + split; try lia. move=> x Hx /=. rewrite Hlook. case: Z.eqb_spec => _; first by eexists. case: Z.eqb_spec => _; first by eexists.
      by case: Hr => _ _ _; apply.
    + move=> i Hi /=. rewrite Hlook /draw (_ : (scr + i =? scr + 2 * p) = (i =? 2 * p)); first by do 2 case: Z.eqb_spec => ?; lia.
      rewrite (_ : (scr + i =? scr + 2 * p + 1) = (i =? 2 * p + 1)); first by do 2 case: Z.eqb_spec => ?; lia.
      case: Z.eqb_spec => // _. case: Z.eqb_spec => // _. exact: Hc.
  - split; [|done]. move=> x Hx /=. rewrite Hlook (proj2 (Z.eqb_neq _ _)); first lia. by rewrite (proj2 (Z.eqb_neq _ _)) //; lia.
Qed.

(** The switch: what is drawn, and where the cursor goes *)
Lemma put_at_ok s f c fg bg p :
  cells s f -> cursor (dev s) = p -> 0 <= p < 2000 -> 0 <= c < 256 ->
  runs (put_at base c fg bg p) s (fun _ s' =>
    cells s' (if control c then f else draw (attr fg bg) c p f) /\ cursor (dev s') = move c p /\ frame s s').
Proof.
  move=> Hc Hcur Hp Hb. have Hm := Z.mod_pos_bound p 80 ltac:(lia). have Hd := Z.div_mod p 80 ltac:(lia).
  have Hy : 0 <= p / 80 < 25 by split; [apply: Z.div_pos; lia | apply: Z.div_lt_upper_bound; lia].
  have H4 : (p mod 80) mod 4 = p mod 4 by rewrite (Z.mod_mod_divide p 80 4) //; by exists 20.
  have Hm4 := Z.mod_pos_bound p 4 ltac:(lia).
  have Hset x y : 0 <= x < 256 -> 0 <= y < 256 -> y * 80 + x = move c p -> control c = true ->
    runs (vga_setpos x y) s (fun _ s' =>
      cells s' (if control c then f else draw (attr fg bg) c p f) /\ cursor (dev s') = move c p /\ frame s s').
  { move=> Hx Hy' Hmv ->. destruct (vga_setpos_ok s x y Hx Hy') as (d & E & Hd'). exists tt, (with_dev s d). split; [done|].
    split; [done|]. split; [by rewrite Hd' | exact: frame_dev]. }
  rewrite /put_at /CURSOR_POS_X /CURSOR_POS_Y /VGA_TEXTDISP_WIDTH. move: Hset. rewrite /move /control.
  case: (Z.eqb_spec c 7) => [->|H7]. { move=> _. apply: runs_ret. split; [done|]. split; [done | exact: scr_refl]. }
  case: (Z.eqb_spec c 10) => [->|H10]. { apply; [lia | lia | lia | done]. }
  case: (Z.eqb_spec c 9) => [->|H9].
  { rewrite H4. move=> Hset. case: Z.eqb_spec => E0; apply: Hset; try lia; done. }
  case: (Z.eqb_spec c 8) => [->|H8].
  { case: Z.eqb_spec => E0 Hset; cbn [negb when]; [|apply: Hset; try lia; done].
    apply: runs_ret. split; [done|]. split; [done | exact: scr_refl]. }
  case: (Z.eqb_spec c 13) => [->|H13]. { apply; [lia | lia | lia | done]. }
  move=> _. cbn [orb]. apply: runs_bind (vga_chwrite_ok s f c fg bg p Hc Hp Hb) _ => r s1 [H1 [F1 D1]].
  destruct (vga_setpos_ok s1 (p mod 80 + 1) (p / 80) ltac:(lia) ltac:(lia)) as (d & E & Hd'). exists tt, (with_dev s1 d).
  split; [done|]. split; [done|]. split; [rewrite Hd'; lia | exact: scr_trans F1 (frame_dev _ _)].
Qed.

Lemma vga_scroll_ok s f :
  cells s f -> runs (vga_scroll base) s (fun _ s' => cells s' (scroll f) /\ frame s s' /\ dev s' = dev s).
Proof.
  move=> [Hb [Hr Hc]]. case: (Hr) => _ Hlo Hhi _. rewrite /vga_scroll /VGA_TEXTDISP_WIDTH /VGA_TEXTDISP_HEIGHT.
  destruct (memcpy_ok (memory s) scr (scr + 80 * 2) (80 * 25 * 2) Hb) as (r & m' & E & _ & Hcp).
  { apply: (range_sub _ _ _ _ _ Hr); lia. }
  { apply: (range_sub _ _ _ _ _ Hr); lia. }
  { lia. }
  exists tt, (mkCon m' (dev s) (_cur_fgcolor s) (_cur_bgcolor s)). split; first by rewrite /on_mem /bind E.
  split; [split; [|split]|split; [|done]].
  - exact: copied_bytes Hb Hcp.
  - split; try lia. move=> x Hx /=. rewrite Hcp. case: withinP => Hw.
    + have -> : scr + 80 * 2 + (x - scr) = scr + (x - scr + 160) by lia. rewrite Hc; [lia | by eexists].
    + have -> : x = scr + (x - scr) by lia. rewrite Hc; [lia | by eexists].
  - move=> i Hi /=. rewrite Hcp /scroll. case: withinP => Hw; case: Z.ltb_spec => Hl; try lia; last exact: Hc.
    rewrite -Hc; first lia. f_equal. lia.
  - split; [|done]. move=> x Hx /=. rewrite Hcp. by case: withinP => Hw.
Qed.

Lemma vga_putcchar_ok s t c fg bg :
  on_screen s t -> runs (vga_putcchar base c fg bg) s (fun _ s' => on_screen s' (term_put (attr fg bg) t (u8 c)) /\ frame s s').
Proof.
  move=> Hs. have [Hpos Hbnd _ _ _] := Hs. have Hcb : 0 <= u8 c < 256 by exact: Z.mod_pos_bound.
  have Hmv := move_bounds (u8 c) (pos t) Hbnd. rewrite /vga_putcchar /runs.
  destruct (vga_getpos_ok s) as (d & E0 & Hd). rewrite (bind_ok _ _ _ _ _ E0) Hpos.
  have Hcells : cells (with_dev s d) (cell t) by exact: on_screen_cells Hs.
  apply: runs_bind (put_at_ok (with_dev s d) (cell t) (u8 c) fg bg (pos t) Hcells ltac:(by rewrite Hd) Hbnd Hcb) _.
  move=> _ s1 [H1 [C1 F1]]. destruct (vga_getpos_ok s1) as (d1 & E1 & Hd1). rewrite /runs (bind_ok _ _ _ _ _ E1) C1.
  have F01 : frame s (with_dev s1 d1) by exact: (scr_trans _ _ _ (scr_trans _ _ _ (frame_dev s d) F1) (frame_dev _ _)).
  rewrite /term_put /CURSOR_POS_Y /VGA_TEXTDISP_WIDTH /VGA_TEXTDISP_HEIGHT.
  have Hy : (move (u8 c) (pos t) / 80 =? 25) = (move (u8 c) (pos t) =? 2000).
  { have Hdm := Z.div_mod (move (u8 c) (pos t)) 80 ltac:(lia). have Hmb := Z.mod_pos_bound (move (u8 c) (pos t)) 80 ltac:(lia).
    case: Z.eqb_spec => ?; case: Z.eqb_spec => ?; lia. }
  rewrite Hy. case: Z.eqb_spec => Hfull; cbn [when]; last first.
  { apply: runs_ret. split; [|exact: F01]. apply: on_screen_dev => //; [by rewrite Hd1 | lia]. }
  apply: runs_bind (vga_scroll_ok (with_dev s1 d1) _ H1) _ => _ s2 [H2 [F2 D2]].
  destruct (vga_getpos_ok s2) as (d3 & E3 & Hd3). rewrite /runs (bind_ok _ _ _ _ _ E3) D2 /= Hd1 C1 Hfull.
  destruct (vga_setpos_ok (with_dev s2 d3) (2000 mod 80) 24 ltac:(done) ltac:(done)) as (d4 & E4 & Hd4).
  exists tt, (with_dev s2 d4). split; [exact: E4|]. split; first by apply: on_screen_dev.
  exact: (scr_trans _ _ _ F01 (scr_trans _ _ _ F2 (frame_dev _ _))).
Qed.

(** The terminal after it was cleared *)
Definition blank (t : term) : term := mkTerm (fun i => if i <? 4000 then 0 else cell t i) 0.

Lemma vga_clear_ok s t : on_screen s t -> runs (vga_clear base) s (fun _ s' => on_screen s' (blank t) /\ frame s s').
Proof.
  move=> [_ _ Hb Hr Hc]. case: (Hr) => _ Hlo Hhi _. rewrite /vga_clear /VGA_TEXTDISP_WIDTH /VGA_TEXTDISP_HEIGHT.
  destruct (memset_ok (memory s) scr 0 (80 * 25 * 2)) as (r & m' & E & _ & Hw); first (apply: (range_sub _ _ _ _ _ Hr); lia).
  have Hw0 x : m' !! x = if within scr 4000 x then Some 0 else memory s !! x by rewrite Hw; case: withinP.
  set s1 := mkCon m' (dev s) (_cur_fgcolor s) (_cur_bgcolor s).
  have E1 : on_mem (memset scr 0 (80 * 25 * 2)) s = Ok (r, s1) by rewrite /on_mem E.
  destruct (vga_setpos_ok s1 0 0 ltac:(done) ltac:(done)) as (d & E2 & Hd). exists tt, (with_dev s1 d).
  split; first by rewrite (bind_ok _ _ _ _ _ E1). split; [|split; [|done]].
  - apply: on_screen_dev; [|exact: Hd|done]. split; [|split].
    + move=> x b /=. rewrite Hw0. case: withinP => _; [by case=> <- | exact: Hb].
    + split; try lia. move=> x Hx /=. rewrite Hw0. case: withinP => _; [by eexists | by case: Hr => _ _ _; apply].
    + move=> i Hi /=. rewrite Hw0. case: withinP => Hin; case: Z.ltb_spec => Hl; try lia; [done | exact: Hc].
  - move=> x Hx /=. rewrite Hw0. by case: withinP.
Qed.

(** ** The screen as a printer *)

Context (m0 : mem) (t0 : term) (fg bg : Z).

Definition screened (text : list Z) (s : con_st D) : Prop :=
  on_screen s (foldl (term_put (attr fg bg)) t0 text) /\ outside m0 scr 4000 (memory s) /\
  _cur_fgcolor s = fg /\ _cur_bgcolor s = bg.

(** A string away from the screen *)
Definition off_screen (a : Z) (l : list Z) : Prop := cstr m0 a l /\ apart a l scr 4000.

Lemma screened_cstr text s a l : screened text s -> off_screen a l -> cstr (memory s) a l.
Proof. move=> [_ [Ho _]] [Hc Ha]. exact: (cstr_outside _ _ _ _ _ _ Hc Ho Ha). Qed.

Lemma screened_put text s c : screened text s ->
  runs (vga_putcchar base c fg bg) s (fun _ s' => screened (text ++ [u8 c]) s').
Proof.
  move=> [Hs [Ho [Hf Hb]]]. apply: runs_mono (vga_putcchar_ok s _ c fg bg Hs) _ => r s' [Hs' [Ho' [Hf' Hb']]].
  rewrite /screened foldl_app /=. split; [done|]. split; [|split; congruence]. move=> x Hx. by rewrite Ho' // Ho.
Qed.

Lemma vga_strnwrite_ok text s a l1 l2 l3 :
  screened text s -> off_screen a (l1 ++ l2 ++ l3) ->
  runs (vga_strnwrite base (a + Z.of_nat (length l1)) (Z.of_nat (length l2)) fg bg) s (fun _ s' => screened (text ++ l2) s').
Proof.
  move=> Hs Hoff. rewrite /vga_strnwrite /repeat_for.
  apply: (runs_bind _ _ _ (fun _ s' => screened (text ++ l2) s')); last by move=> r s' Hs'; apply: runs_ret.
  apply: (for_loop_rule (fun i _ s' => screened (text ++ take (Z.to_nat i) l2) s')).
  - by rewrite app_nil_r.
  - move=> i [] s1 Hi H1. rewrite Z.add_0_l Nat2Z.id in Hi. have Hc := screened_cstr _ _ _ _ H1 Hoff.
    destruct (lookup_lt_is_Some_2 l2 (Z.to_nat i)) as [c Hci]; first lia.
    have Hat : memory s1 !! (a + Z.of_nat (length l1) + i) = Some c.
    { rewrite -(cs_at _ _ _ Hc (length l1 + Z.to_nat i) c).
      - rewrite lookup_app_r; first lia. rewrite lookup_app_l; first lia. rewrite -Hci. f_equal. lia.
      - f_equal. lia. }
    have Hcb := os_bytes _ _ (proj1 H1) _ _ Hat. have Hhi := cs_hi _ _ _ Hc. have Hlo := cs_lo _ _ _ Hc. rewrite !length_app in Hhi.
    have Eload : on_mem (load8 (a + Z.of_nat (length l1) + i)) s1 = Ok (c, s1).
    { apply: on_mem_read. rewrite /load8 w64_small; first (unfold in64; lia). by rewrite Hat. }
    destruct (screened_put _ _ c H1) as (r & s2 & E & H2). rewrite u8_small // in H2.
    rewrite bind_assoc (bind_ok _ _ _ _ _ Eload) (bind_ok _ _ _ _ _ E). eexists _, _. split; [done|].
    rewrite (_ : Z.to_nat (i + 1) = S (Z.to_nat i)); first lia. by rewrite (take_S_r _ _ _ Hci) app_assoc.
  - move=> [] s1. rewrite Z.add_0_l Nat2Z.id take_ge //. lia.
Qed.

Lemma screen_printer : Printer (vga_printer base) screened off_screen.
Proof.
  split.
  - exact: screened_cstr.
  - move=> text s c Hs. have [_ [_ [Hf Hb]]] := Hs. rewrite /vga_printer /vga_putchar /=.
    rewrite /runs /get_colors {1}/bind Hf Hb. exact: screened_put.
  - move=> text s a l1 l2 l3 Hs Hoff. have [_ [_ [Hf Hb]]] := Hs. rewrite /vga_printer /=.
    rewrite /runs /get_colors {1}/bind Hf Hb. exact: vga_strnwrite_ok.
Qed.

Lemma vga_puts_ok text s a l :
  screened text s -> off_screen a l ->
  runs (vga_puts base a) s (fun r s' => r = s32 (Z.of_nat (length l) + 1) /\ screened (text ++ l ++ [10]) s').
Proof.
  move=> Hs Hoff. have [_ [_ [Hf Hb]]] := Hs. rewrite /vga_puts /runs.
  have El : on_mem (strlen a) s = Ok (Z.of_nat (length l), s) by apply: on_mem_read; apply: strlen_ok; exact: screened_cstr Hs Hoff.
  rewrite (bind_ok _ _ _ _ _ El) {1}/bind /get_colors Hf Hb. have Hw := vga_strnwrite_ok text s a [] l [] Hs.
  rewrite app_nil_r Z.add_0_r in Hw. apply: runs_bind (Hw Hoff) _ => r s1 H1.
  have [_ [_ [Hf1 Hb1]]] := H1. rewrite /vga_putchar /runs bind_assoc {1}/bind /get_colors Hf1 Hb1.
  apply: runs_bind (screened_put _ _ 10 H1) _ => r2 s2 H2. apply: runs_ret. by rewrite app_assoc.
Qed.

End Screen.

(** ** Results *)



(** *** On a machine *)

#[global] Instance machine_display : Display machine.
Proof.
  refine {| crtc := fun d r => (if r =? 14 then cursor_hi d else if r =? 15 then cursor_lo d else 0) mod 256; selected := sel |}.
  - move=> d r. exact: Z.mod_pos_bound.
  - done.
  - done.
  - move=> d v r Hv Hs Hr /=. destruct Hs as [-> | ->], Hr as [-> | ->] => //=; exact: Z.mod_small.
  - move=> d Hs /=. by destruct Hs as [-> | ->].
Defined.

(** What [mem_of] holds *)
Lemma mem_of_cons a b l : mem_of a (b :: l) = <[a := b]> (mem_of (a + 1) l).
Proof. rewrite /mem_of [length _]/= seqZ_cons; first lia. simpl. do 3 f_equal. rewrite /Z.succ. f_equal. lia. Qed.

Lemma mem_of_lookup a l x : mem_of a l !! x = if within a (Z.of_nat (length l)) x then l !! Z.to_nat (x - a) else None.
Proof.
  elim: l a => [|b l IH] a.
  { rewrite /mem_of /= lookup_empty. by case: withinP. }
  rewrite mem_of_cons. case: (Z.eq_dec x a) => [->|Hne].
  - rewrite lookup_insert_eq Z.sub_diag. case: withinP => //= Hn. lia.
  - rewrite lookup_insert_ne // IH [length (b :: l)]/=. case: withinP => H1; case: withinP => H2; try lia; last done.
    rewrite (_ : Z.to_nat (x - a) = S (Z.to_nat (x - (a + 1)))); [lia | done].
Qed.

Lemma mem_of_bytes a l : Forall (fun b => 0 <= b < 256) l -> bytes (mem_of a l).
Proof.
  move=> Hl x b. rewrite mem_of_lookup. case: withinP => // _ Hb. exact: (Forall_lookup_1 _ _ _ _ Hl Hb).
Qed.

(** The screen and the row behind it, all zero; at 0x10000 the string "hi",
    the literal, and the format with %u *)
Definition zero_cells : list Z := replicate 4160 0.
Definition strings : list Z := [104; 105; 0; 48; 120; 0; 37; 117; 0].
Definition vga_mem : mem := mem_of 0x10000 strings ∪ mem_of 0xb8000 zero_cells.

Definition vga_start : con_st machine := mkCon vga_mem (mkMachine 0 0 0 []) 7 0.

Definition dark : term := mkTerm (fun _ => 0) 0.

Lemma vga_mem_cell i : 0 <= i < 4160 -> vga_mem !! (0xb8000 + i) = Some 0.
Proof.
  move=> Hi. rewrite /vga_mem lookup_union_r; first by rewrite mem_of_lookup; case: withinP => // H; simpl in H; lia.
  rewrite mem_of_lookup /zero_cells length_replicate. case: withinP => H; last lia. apply lookup_replicate_2. lia.
Qed.

Lemma vga_mem_string x : 0x10000 <= x < 0x10009 -> vga_mem !! x = strings !! Z.to_nat (x - 0x10000).
Proof.
  move=> Hx. have Hs : mem_of 0x10000 strings !! x = strings !! Z.to_nat (x - 0x10000).
  { rewrite mem_of_lookup. by case: withinP. }
  destruct (strings !! Z.to_nat (x - 65536)) as [b|] eqn:E; first by rewrite /vga_mem; apply lookup_union_Some_l; rewrite Hs.
  apply lookup_ge_None_1 in E. simpl in E. lia.
Qed.

Lemma vga_cstr a l : 0x10000 <= a -> a + Z.of_nat (length l) < 0x10009 -> Forall (fun b => b <> 0) l ->
  take (S (length l)) (drop (Z.to_nat (a - 0x10000)) strings) = l ++ [0] -> off_screen 0 vga_mem a l.
Proof.
  move=> Ha Hhi Hnz Ht. have Hat i b : (l ++ [0]) !! i = Some b -> vga_mem !! (a + Z.of_nat i) = Some b.
  { move=> Hi. have Hlt := lookup_lt_Some _ _ _ Hi. rewrite length_app /= in Hlt. rewrite vga_mem_string; first lia.
    rewrite -Hi -Ht lookup_take_lt; first lia. rewrite lookup_drop. f_equal. lia. }
  split; last by left; rewrite /screen w64_small; [done|]; change (0 + VGA_TEXTDISP_BUFFER_OFFSET) with 0xb8000; lia.
  split; [lia | lia | | exact Hnz | apply: Hat; by rewrite list_lookup_middle].
  move=> i b Hi. apply: Hat. rewrite lookup_app_l //. exact: lookup_lt_Some Hi.
Qed.

Lemma strings_bytes : Forall (fun b => 0 <= b < 256) strings.
Proof. by repeat constructor. Qed.

Lemma cells_bytes : Forall (fun b => 0 <= b < 256) zero_cells.
Proof. by apply Forall_replicate. Qed.

Lemma vga_mem_bytes : bytes vga_mem.
Proof.
  move=> x b. rewrite /vga_mem lookup_union_Some_raw => - [Hx|[_ Hx]].
  - exact (mem_of_bytes _ _ strings_bytes x b Hx).
  - exact (mem_of_bytes _ _ cells_bytes x b Hx).
Qed.

Lemma vga_mem_range : range vga_mem 0xb8000 4160.
Proof.
  split; [lia | lia | lia |]. move=> x Hx. exists 0. have <- : 0xb8000 + (x - 0xb8000) = x by lia. apply vga_mem_cell. lia.
Qed.

Lemma vga_start_on : on_screen 0 vga_start dark.
Proof.
  have Hscr : screen 0 = 0xb8000 by []. split; rewrite ?Hscr.
  - done.
  - done.
  - exact vga_mem_bytes.
  - exact vga_mem_range.
  - exact vga_mem_cell.
Qed.


Definition vga_entries : list entry := [mkEntry [] (mkConv None [] None None 117) (Num 42) [52; 50]].


End ConsoleScreen.
