(* ===== verification/MmInit.v ===== *)
(** * Bringing up the physical memory

    hal/x86_64/mm/init.cc: the areas of physical memory are made from the
    memory map of the boot loader ([hn_mm_init_pmadlist], [hn_push_pmad]), and
    every page gets a descriptor ([hn_mm_init_areas]).  Descriptors live in
    pages of their own, the pools, which are taken from the areas while these
    are being set up; at the end all memory is mapped to one range of
    addresses.  The areas and the descriptors are those of [PgAlloc]: a
    descriptor is known by its page, and a pool says which page each of its
    slots describes.  The early mapping is an interface. *)

From S2P Require Import Prelude MemConf OMap PgAlloc.
Import MemConf.

Module MmInit.

(** An entry of the boot loader's map; the names are those of its protocol. *)
Inductive memmap_type :=
  | LIMINE_MEMMAP_USABLE
  | LIMINE_MEMMAP_BOOTLOADER_RECLAIMABLE
  | LIMINE_MEMMAP_ACPI_RECLAIMABLE
  | LIMINE_MEMMAP_ACPI_NVS
  | LIMINE_MEMMAP_FRAMEBUFFER
  | LIMINE_MEMMAP_EXECUTABLE_AND_MODULES
  | LIMINE_MEMMAP_RESERVED
  | LIMINE_MEMMAP_BAD_MEMORY
  | unknown_type.

Record limine_memmap_entry := mkEntry { entry_base : Z; entry_length : Z; entry_type : memmap_type }.

(** [mm_kvmalloc_early] and [hn_mm_mmap_early] of the kernel context: the
    second says in bits 2, 1 and 0 which of the three tables it used. *)
Class EarlyVm (E : Type) := {
  mm_kvmalloc_early : Z -> M E Z;
  hn_mm_mmap_early : Z -> Z -> Z -> Z -> Z -> M E Z
}.

(** [hn_madpool_t]: [used_num], and the page of each descriptor in it *)
Record hn_madpool_t := mkPool { used_num : Z; descs : gmap Z Z }.

Record init_st (E : Type) := mkInit {
  pmads : PgAlloc.pg_st;
  ki_pmad_number : Z;
  ki_global_mad_pool_list : list (Z * hn_madpool_t);   (* from the newest on, with their addresses *)
  direct_map_bases : gmap Z Z;                         (* [direct_map_base] of each area *)
  direct_map_sizes : gmap Z Z;
  early : E
}.
Arguments mkInit {E}.
Arguments pmads {E}.
Arguments ki_pmad_number {E}.
Arguments ki_global_mad_pool_list {E}.
Arguments direct_map_bases {E}.
Arguments direct_map_sizes {E}.
Arguments early {E}.

Section Ops.
Context {E : Type} `{EarlyVm E}.

(** [KI_INITIAL_MM_AREA_STORAGE_NUM] and [sizeof(hn_mad_t)] *)
Context (KI_INITIAL_MM_AREA_STORAGE_NUM sizeof_hn_mad_t : Z).

Abbreviation IM := (M (init_st E)).

Definition in_pmads {A} (m : M PgAlloc.pg_st A) : IM A := fun s =>
  match m (pmads s) with
  | Ok (a, p) => Ok (a, mkInit p (ki_pmad_number s) (ki_global_mad_pool_list s) (direct_map_bases s) (direct_map_sizes s) (early s))
  | Panic => Panic
  | Fault => Fault
  | NoFuel => NoFuel
  end.

Definition in_early {A} (m : M E A) : IM A := fun s =>
  match m (early s) with
  | Ok (a, e) => Ok (a, mkInit (pmads s) (ki_pmad_number s) (ki_global_mad_pool_list s) (direct_map_bases s) (direct_map_sizes s) e)
  | Panic => Panic
  | Fault => Fault
  | NoFuel => NoFuel
  end.

(** ** The areas *)

(** [ki_pmad_tree.insert_unwrap] of an area without descriptors *)
Definition insert_pmad (b len type : Z) : M PgAlloc.pg_st unit := fun s =>
  match PgAlloc.ki_pmad_tree s !! b with
  | Some _ => Panic
  | None => Ok (tt, PgAlloc.mkPg (<[b := PgAlloc.mkPmad len type None ∅]> (PgAlloc.ki_pmad_tree s)) (PgAlloc.mads s))
  end.

Definition hn_push_pmad (b len type : Z) : IM unit := fun s =>
  (when (KI_INITIAL_MM_AREA_STORAGE_NUM <=? w64 (ki_pmad_number s + 1)) panic;;
   when (match OMap.max_lteq b (PgAlloc.ki_pmad_tree (pmads s)) with
         | Some (d, a) => b <? w64 (d + PgAlloc.len a)
         | None => false
         end) panic;;
   in_pmads (insert_pmad b len type);;
   (fun s => Ok (tt, mkInit (pmads s) (w64 (ki_pmad_number s + 1)) (ki_global_mad_pool_list s)
                       (direct_map_bases s) (direct_map_sizes s) (early s)))) s.

(** The switch of [hn_mm_init_pmadlist]: the first page of memory is never
    available. *)
Definition push_entry (entry : limine_memmap_entry) : IM unit :=
  match entry_type entry with
  | LIMINE_MEMMAP_USABLE | LIMINE_MEMMAP_BOOTLOADER_RECLAIMABLE =>
      if entry_base entry =? 0 then
        hn_push_pmad 0 PAGESIZE MM_PHYSICAL_MEMORY_TYPE_HARDWARE;;
        hn_push_pmad PAGESIZE (w64 (entry_length entry - PAGESIZE)) MM_PHYSICAL_MEMORY_TYPE_AVAILABLE
      else hn_push_pmad (entry_base entry) (entry_length entry) MM_PHYSICAL_MEMORY_TYPE_AVAILABLE
  | LIMINE_MEMMAP_ACPI_RECLAIMABLE | LIMINE_MEMMAP_ACPI_NVS =>
      hn_push_pmad (entry_base entry) (entry_length entry) MM_PHYSICAL_MEMORY_TYPE_ACPI
  | LIMINE_MEMMAP_FRAMEBUFFER => hn_push_pmad (entry_base entry) (entry_length entry) MM_PHYSICAL_MEMORY_TYPE_HARDWARE
  | LIMINE_MEMMAP_EXECUTABLE_AND_MODULES => hn_push_pmad (entry_base entry) (entry_length entry) MM_PHYSICAL_MEMORY_TYPE_BOOTDATA
  | LIMINE_MEMMAP_RESERVED => hn_push_pmad (entry_base entry) (entry_length entry) MM_PHYSICAL_MEMORY_TYPE_CRITICAL
  | LIMINE_MEMMAP_BAD_MEMORY => hn_push_pmad (entry_base entry) (entry_length entry) MM_PHYSICAL_MEMORY_TYPE_BAD
  | unknown_type => panic
  end.

Fixpoint push_entries (entries : list limine_memmap_entry) : IM unit :=
  match entries with
  | [] => ret tt
  | entry :: rest => push_entry entry;; push_entries rest
  end.

Definition hn_mm_init_pmadlist (entries : list limine_memmap_entry) : IM unit :=
  when (KI_INITIAL_MM_AREA_STORAGE_NUM <? Z.of_nat (length entries)) panic;;
  push_entries entries.

(** [KI_PMAD_FOREACH]: the area is given by its base; the body goes on with
    [inl] and breaks with [inr]. *)
Definition KI_PMAD_FOREACH {L} (body : Z -> L -> IM (L + L)) (l : L) : IM L := fun s =>
  loop (S (size (PgAlloc.ki_pmad_tree (pmads s)))) (fun '(i, l) =>
    match i with
    | None => ret (inr l)
    | Some b =>
        r <- body b l;
        match r with
        | inl l => fun s => Ok (inl (fst <$> OMap.next b (PgAlloc.ki_pmad_tree (pmads s)), l), s)
        | inr l => ret (inr l)
        end
    end) (fst <$> OMap.first (PgAlloc.ki_pmad_tree (pmads s)), l) s.

(** ** Descriptors *)

(** [sizeof(hn_madpool_header_t)] is 24; descriptors are aligned to 8 bytes. *)
Definition kh_mad_pool_descs_off : Z := 24 + (8 - 24 mod 8) mod 8.
Definition kh_mad_pool_descs_num_per_page : Z := (PAGESIZE - kh_mad_pool_descs_off) / sizeof_hn_mad_t.

(** A new pool in front of the list, cleared *)
Definition push_pool (vaddr : Z) : IM unit := fun s =>
  Ok (tt, mkInit (pmads s) (ki_pmad_number s) ((vaddr, mkPool 0 ∅) :: ki_global_mad_pool_list s)
            (direct_map_bases s) (direct_map_sizes s) (early s)).

Definition head_pool (f : hn_madpool_t -> hn_madpool_t) : IM unit := fun s =>
  match ki_global_mad_pool_list s with
  | (v, p) :: rest =>
      Ok (tt, mkInit (pmads s) (ki_pmad_number s) ((v, f p) :: rest) (direct_map_bases s) (direct_map_sizes s) (early s))
  | [] => Fault
  end.

(** [construct_at(&descs[slot])], for the page that the descriptor gets *)
Definition construct_desc (slot page : Z) : IM unit :=
  head_pool (fun p => mkPool (used_num p) (<[slot := page]> (descs p)));;
  in_pmads (fun s => Ok (tt, PgAlloc.mkPg (PgAlloc.ki_pmad_tree s) (<[page := PgAlloc.mkMad None None 0]> (PgAlloc.mads s)))).

(** [descs[slot]], which is outside the pool for slot -1 *)
Definition desc_at (slot : Z) : IM Z := fun s =>
  match ki_global_mad_pool_list s with
  | (_, p) :: _ => match descs p !! slot with Some page => Ok (page, s) | None => Fault end
  | [] => Fault
  end.

(** [++used_num] and [i->query_tree.insert_unwrap(&descs[slot])] *)
Definition insert_desc (i page : Z) : IM unit :=
  head_pool (fun p => mkPool (w64 (used_num p + 1)) (descs p));;
  in_pmads (a <- PgAlloc.get_area i;
    if bool_decide (page ∈ PgAlloc.query_tree a) then panic
    else fun s => Ok (tt, PgAlloc.mkPg
      (<[i := PgAlloc.mkPmad (PgAlloc.len a) (PgAlloc.type a) (PgAlloc.free_list a) ({[page]} ∪ PgAlloc.query_tree a)]>
        (PgAlloc.ki_pmad_tree s)) (PgAlloc.mads s))).

(** Tables in reserve for the early mapping; null is 0 *)
Abbreviation tables := (Z * Z * Z)%type.

Definition take_page : IM Z :=
  p <- in_pmads (PgAlloc.mm_pgalloc MM_PHYSICAL_MEMORY_TYPE_AVAILABLE);
  if p =? 0 then panic else ret p.

Definition reserve (p : Z) : IM Z := if negb (p =? 0) then ret p else take_page.

Definition reserve_tables (t : tables) : IM tables :=
  let '(pdpt, pdt, ptt) := t in
  pdpt <- reserve pdpt;
  pdt <- reserve pdt;
  ptt <- reserve ptt;
  ret (pdpt, pdt, ptt).

Definition unused (mmap_result : Z) (t : tables) : tables :=
  let '(pdpt, pdt, ptt) := t in
  (if Z.testbit mmap_result 2 then 0 else pdpt,
   if Z.testbit mmap_result 1 then 0 else pdt,
   if Z.testbit mmap_result 0 then 0 else ptt).

Definition map_early (vaddr paddr : Z) (t : tables) : IM tables :=
  let '(pdpt, pdt, ptt) := t in
  r <- in_early (hn_mm_mmap_early vaddr paddr pdpt pdt ptt);
  ret (unused r t).

(** [cur_madpool_slot_index], and the tables *)
Abbreviation locals := (Z * tables)%type.

(** A new pool when the slots are used up; the loop over available memory does
    not test the address. *)
Definition new_pool (test_vaddr : bool) (v : locals) : IM locals :=
  let '(cur, t) := v in
  if kh_mad_pool_descs_num_per_page <=? cur then
    new_poolpg_paddr <- take_page;
    new_poolpg_vaddr <- in_early (mm_kvmalloc_early PAGESIZE);
    when (test_vaddr && (new_poolpg_vaddr =? 0)) panic;;
    t <- reserve_tables t;
    t <- map_early new_poolpg_vaddr new_poolpg_paddr t;
    push_pool new_poolpg_vaddr;;
    ret (0, t)
  else ret v.

(** ** The first pool *)

(** The search for an area for the pool and one for its tables *)
Definition find_initial (i : Z) (l : option Z * option Z) : IM ((option Z * option Z) + (option Z * option Z)) :=
  let '(init_madpool_pmad, init_pgtab_pmad) := l in
  a <- in_pmads (PgAlloc.get_area i);
  if negb (PgAlloc.type a =? MM_PHYSICAL_MEMORY_TYPE_AVAILABLE) then ret (inl l)
  else
    let pages := PGROUNDDOWN (PgAlloc.len a) in
    let '(init_pgtab_pmad, pages_used) := if 3 <? pages then (Some i, 3) else (init_pgtab_pmad, 0) in
    let init_madpool_pmad :=
      if PgAlloc.len a / PAGESIZE / kh_mad_pool_descs_num_per_page + pages_used <? pages then Some i
      else init_madpool_pmad in
    ret (match init_madpool_pmad, init_pgtab_pmad with
         | Some _, Some _ => inr (init_madpool_pmad, init_pgtab_pmad)
         | _, _ => inl (init_madpool_pmad, init_pgtab_pmad)
         end).

(** The descriptor of an initial page, which is on no free list *)
Definition mark_initial (i page slot : Z) : IM Z :=
  construct_desc slot page;;
  insert_desc i page;;
  ret (slot + 1).

(** [init_madpool_paddr], [initial_map_result] and [init_pgtab_pmad] *)
Record initial := mkInitial { init_madpool_paddr : Z; initial_map_result : Z; init_pgtab_pmad : Z }.

Definition init_first_pool : IM (initial * Z) :=
  init_madpool_vaddr <- in_early (mm_kvmalloc_early PAGESIZE);
  when (init_madpool_vaddr =? 0) panic;;
  '(mp, pt) <- KI_PMAD_FOREACH find_initial (None, None);
  match mp, pt with
  | Some mp, Some pt =>
      let paddr := if mp =? pt then w64 (pt + 3 * PAGESIZE) else mp in
      r <- in_early (hn_mm_mmap_early init_madpool_vaddr paddr pt (w64 (pt + PAGESIZE)) (w64 (pt + 2 * PAGESIZE)));
      push_pool init_madpool_vaddr;;
      cur <- mark_initial mp paddr 0;
      cur <- (if Z.testbit r 2 then mark_initial pt pt cur else ret cur);
      cur <- (if Z.testbit r 1 then mark_initial pt (w64 (pt + PAGESIZE * 1)) cur else ret cur);
      cur <- (if Z.testbit r 0 then mark_initial pt (w64 (pt + PAGESIZE * 2)) cur else ret cur);
      ret (mkInitial paddr r pt, cur)
  | _, _ => panic
  end.

(** The pages that the loop over available memory skips *)
Definition is_initial (n : initial) (j : Z) : bool :=
  (j =? init_madpool_paddr n) ||
  (Z.testbit (initial_map_result n) 2 && (j =? init_pgtab_pmad n)) ||
  (Z.testbit (initial_map_result n) 1 && (j =? w64 (init_pgtab_pmad n + 1 * PAGESIZE))) ||
  (Z.testbit (initial_map_result n) 0 && (j =? w64 (init_pgtab_pmad n + 2 * PAGESIZE))).

(** ** The loops over the pages of an area *)

Definition pages_bound (len : Z) : nat := Z.to_nat (len / PAGESIZE + 2).

(** Linking a new descriptor behind [prev], or as the first of the area *)
Definition link_desc (i page : Z) (prev : option Z) : IM unit :=
  in_pmads (match prev with
    | Some p =>
        PgAlloc.put_mad page (PgAlloc.set_prev (Some p));;
        PgAlloc.put_mad p (PgAlloc.set_next (Some page));;
        PgAlloc.put_mad page (PgAlloc.set_next None)
    | None =>
        PgAlloc.set_free_list i (Some page);;
        PgAlloc.put_mad page (PgAlloc.set_prev None);;
        PgAlloc.put_mad page (PgAlloc.set_next None)
    end).

Definition available_round (n : initial) (i : Z) (x : Z * option Z * locals) : IM (Z * option Z * locals + locals) :=
  let '(j, prev_free_mad, v) := x in
  a <- in_pmads (PgAlloc.get_area i);
  if j <? w64 (i + PgAlloc.len a) then
    if is_initial n j then ret (inl (w64 (j + PAGESIZE), prev_free_mad, v))
    else
      '(cur, t) <- new_pool false v;
      construct_desc cur j;;
      link_desc i j prev_free_mad;;
      insert_desc i j;;
      ret (inl (w64 (j + PAGESIZE), Some j, (cur + 1, t)))
  else ret (inr v).

Definition describe_available (n : initial) (i : Z) (v : locals) : IM (locals + locals) :=
  a <- in_pmads (PgAlloc.get_area i);
  if negb (PgAlloc.type a =? MM_PHYSICAL_MEMORY_TYPE_AVAILABLE) then ret (inl v)
  else
    v <- loop (pages_bound (PgAlloc.len a)) (available_round n i) (i, None, v);
    ret (inl v).

(** The other areas: the previous descriptor is the one in the slot before. *)
Definition desc_before (i page cur : Z) : IM (option Z) :=
  if negb (page =? i) then p <- desc_at (cur - 1); ret (Some p) else ret None.

Definition other_round (i : Z) (x : Z * locals) : IM (Z * locals + locals) :=
  let '(j, v) := x in
  a <- in_pmads (PgAlloc.get_area i);
  if j <? w64 (i + PgAlloc.len a) then
    '(cur, t) <- new_pool true v;
    construct_desc cur j;;
    prev <- desc_before i j cur;
    link_desc i j prev;;
    insert_desc i j;;
    ret (inl (w64 (j + PAGESIZE), (cur + 1, t)))
  else ret (inr v).

Definition describe_other (i : Z) (v : locals) : IM (locals + locals) :=
  a <- in_pmads (PgAlloc.get_area i);
  if (PgAlloc.type a =? MM_PHYSICAL_MEMORY_TYPE_AVAILABLE) || (PgAlloc.type a =? MM_PHYSICAL_MEMORY_TYPE_CRITICAL)
  then ret (inl v)
  else
    v <- loop (pages_bound (PgAlloc.len a)) (other_round i) (i, v);
    ret (inl v).

Definition free_table (p : Z) : IM unit := when (negb (p =? 0)) (in_pmads (PgAlloc.mm_pgfree p)).

Definition free_tables (t : tables) : IM unit :=
  let '(pdpt, pdt, ptt) := t in
  free_table pdpt;; free_table pdt;; free_table ptt.

(** The first block of [hn_mm_init_areas] *)
Definition init_descriptors : IM unit :=
  '(n, cur) <- init_first_pool;
  v <- KI_PMAD_FOREACH (describe_available n) (cur, (0, 0, 0));
  '(_, t) <- KI_PMAD_FOREACH describe_other v;
  free_tables t.

(** ** The direct mapping *)

Definition set_direct_map (i b size : Z) : IM unit := fun s =>
  Ok (tt, mkInit (pmads s) (ki_pmad_number s) (ki_global_mad_pool_list s)
            (<[i := b]> (direct_map_bases s)) (<[i := size]> (direct_map_sizes s)) (early s)).

Definition direct_round (i direct_map_base size : Z) (x : Z * tables) : IM (Z * tables + tables) :=
  let '(j, t) := x in
  if j <? size then
    t <- reserve_tables t;
    t <- map_early (w64 (direct_map_base + j)) (w64 (i + j)) t;
    ret (inl (w64 (j + PAGESIZE), t))
  else ret (inr t).

Definition direct_area (i : Z) (x : Z * tables) : IM (Z * tables + Z * tables) :=
  let '(direct_map_base, t) := x in
  a <- in_pmads (PgAlloc.get_area i);
  if (PgAlloc.type a =? MM_PHYSICAL_MEMORY_TYPE_CRITICAL) || (DIRECTPHYMEM_VTOP <=? direct_map_base) then
    set_direct_map i 0 0;;
    ret (inl x)
  else
    let size := if w64 (DIRECTPHYMEM_VTOP - PgAlloc.len a) <? direct_map_base
                then DIRECTPHYMEM_VTOP - direct_map_base else PgAlloc.len a in
    t <- loop (pages_bound size) (direct_round i direct_map_base size) (0, t);
    set_direct_map i direct_map_base size;;
    ret (inl (w64 (direct_map_base + size), t)).

Definition init_direct_map : IM unit :=
  '(_, t) <- KI_PMAD_FOREACH direct_area (DIRECTPHYMEM_VBASE, (0, 0, 0));
  free_tables t.

Definition hn_mm_init_areas : IM unit :=
  init_descriptors;;
  init_direct_map.

End Ops.

End MmInit.
