(* ===== verification/MmInitAreas.v ===== *)
(** * Bringing up the physical memory: pages and areas

    The loops over the areas, the pages of an area, and what the steps of
    [MmInit] do to the areas and descriptors of [PgAlloc]. *)

From S2P Require Import Prelude MemConf OMap PgAlloc MmInit.
Import MemConf MmInit.

Module MmInitA.

(** What the code relies on in the early stage: the search for a free address
    and the mapping of a page return. *)
Class EarlyLaws (E : Type) `{EarlyVm E} := {
  kvmalloc_total size e : exists v e', mm_kvmalloc_early size e = Ok (v, e');
  mmap_total v p t1 t2 t3 e : exists r e', hn_mm_mmap_early v p t1 t2 t3 e = Ok (r, e')
}.

(** ** The loop over the areas *)

Definition before (p : option Z) (k : Z) : Prop :=
  match p with Some b => k < b | None => True end.

Lemma before_first {A} (tr : gmap Z A) k : k ∈ dom tr -> ~ before (fst <$> OMap.first tr) k.
Proof.
  intros [a Ha]%elem_of_dom. destruct (OMap.first tr) as [[b x]|] eqn:Hf; simpl.
  - apply OMap.first_some in Hf as [_ Hmin]. pose proof (Hmin _ _ Ha). lia.
  - rewrite (OMap.first_none _ Hf) in Ha. by rewrite lookup_empty in Ha.
Qed.

Lemma before_next {A} (tr : gmap Z A) b k : b ∈ dom tr -> k ∈ dom tr ->
  before (fst <$> OMap.next b tr) k <-> before (Some b) k \/ k = b.
Proof.
  intros [a Ha]%elem_of_dom [x Hx]%elem_of_dom. destruct (OMap.next b tr) as [[c y]|] eqn:Hn; simpl.
  - apply OMap.next_some in Hn as (Hc & Hlt & Hmin). split; [| lia]. intros Hk.
    destruct (Z.lt_trichotomy k b) as [?|[?|Hbk]]; [by left | by right |]. pose proof (Hmin _ _ Hx Hbk). lia.
  - pose proof (OMap.next_none _ _ Hn _ _ Hx). split; [lia | done].
Qed.

Definition to_visit (K : gset Z) (p : option Z) : nat :=
  match p with Some b => size (filter (fun k => b <= k) K) | None => O end.

Lemma to_visit_next {A} (tr : gmap Z A) b : b ∈ dom tr ->
  (to_visit (dom tr) (fst <$> OMap.next b tr) < to_visit (dom tr) (Some b))%nat.
Proof.
  intros Hb. destruct (OMap.next b tr) as [[c y]|] eqn:Hn; simpl.
  - apply OMap.next_some in Hn as (_ & Hlt & _). apply subset_size. split.
    + intros k. rewrite !elem_of_filter. intros [? ?]. split; [lia | done].
    + intros Hsub. specialize (Hsub b). rewrite !elem_of_filter in Hsub. destruct Hsub; [split; [lia | done] | lia].
  - assert (Hin : b ∈ filter (fun k => b <= k) (dom tr)) by (rewrite elem_of_filter; split; [lia | done]).
    assert (size (filter (fun k => b <= k) (dom tr)) <> O); [| lia]. intros Hz%size_empty_inv. set_solver.
Qed.

Lemma in_first {A} (tr : gmap Z A) b : fst <$> OMap.first tr = Some b -> b ∈ dom tr.
Proof.
  destruct (OMap.first tr) as [[c y]|] eqn:Hf; [| done]. intros [= <-]. simpl.
  apply OMap.first_some in Hf as [Hc _]. by apply elem_of_dom_2 in Hc.
Qed.

Lemma in_next {A} (tr : gmap Z A) c b : fst <$> OMap.next c tr = Some b -> b ∈ dom tr.
Proof.
  destruct (OMap.next c tr) as [[d y]|] eqn:Hf; [| done]. intros [= <-]. simpl.
  apply OMap.next_some in Hf as [Hc _]. by apply elem_of_dom_2 in Hc.
Qed.

Section Rules.
Context {E : Type}.

Abbreviation areas s := (PgAlloc.ki_pmad_tree (pmads (E := E) s)).

(** What holds before each round *)
Definition visiting {L} (K : gset Z) (I : option Z -> L -> init_st E -> Prop) (x : option Z * L) (s : init_st E) : Prop :=
  dom (areas s) = K /\ I x.1 x.2 s /\ forall b, x.1 = Some b -> b ∈ K.

Lemma visiting_first {L} K (I : option Z -> L -> init_st E -> Prop) l s : dom (areas s) = K ->
  I (fst <$> OMap.first (areas s)) l s -> visiting K I (fst <$> OMap.first (areas s), l) s.
Proof. intros HK HI. split_and!; [done | done |]. intros b Hb. rewrite -HK. by apply in_first. Qed.

Lemma visits_bound K s : dom (areas s) = K ->
  (to_visit K (fst <$> OMap.first (areas s)) < S (size (areas s)))%nat.
Proof.
  intros HK. rewrite -size_dom HK. unfold to_visit. destruct (fst <$> _); [| lia].
  apply Nat.lt_succ_r, subseteq_size. set_solver.
Qed.

Lemma visiting_next {L} K (I : option Z -> L -> init_st E -> Prop) b l s : b ∈ K -> dom (areas s) = K ->
  I (fst <$> OMap.next b (areas s)) l s ->
  visiting K I (fst <$> OMap.next b (areas s), l) s /\
  (to_visit K (fst <$> OMap.next b (areas s)) < to_visit K (Some b))%nat.
Proof.
  intros Hb HK HI. split; [split_and!; [done | done |] |].
  - intros c Hc. rewrite -HK. by apply (in_next _ b).
  - rewrite -HK. apply to_visit_next. by rewrite HK.
Qed.

Lemma foreach_rule {L} (K : gset Z) (I : option Z -> L -> init_st E -> Prop) (Q : L -> init_st E -> Prop)
    (body : Z -> L -> M (init_st E) (L + L)) l s :
  dom (areas s) = K -> I (fst <$> OMap.first (areas s)) l s ->
  (forall b l s, b ∈ K -> dom (areas s) = K -> I (Some b) l s -> runs (body b l) s (fun r s' =>
     dom (areas s') = K /\ match r with inl l' => I (fst <$> OMap.next b (areas s')) l' s' | inr l' => Q l' s' end)) ->
  (forall l s, dom (areas s) = K -> I None l s -> Q l s) ->
  runs (KI_PMAD_FOREACH body l) s Q.
Proof.
  intros HK HI Hbody Hend. unfold KI_PMAD_FOREACH.
  eapply (loop_rule (visiting K I) (fun '(p, _) => to_visit K p)).
  - by apply visiting_first.
  - by apply visits_bound.
  - intros [[b|] l1] s1 (HK1 & HI1 & Hb1); [| by apply runs_ret, Hend].
    eapply runs_bind; [by apply Hbody, HI1; [apply Hb1 |] |]. intros [l2|l2] s2 [HK2 H2]; [| by apply runs_ret].
    eexists _, _. split; [reflexivity |]. by apply (visiting_next K I b l2 s2 (Hb1 b eq_refl)).
Qed.

Lemma foreach_ends {L} (K : gset Z) (I : option Z -> L -> init_st E -> Prop) (Q : L -> init_st E -> Prop)
    (body : Z -> L -> M (init_st E) (L + L)) l s :
  dom (areas s) = K -> I (fst <$> OMap.first (areas s)) l s ->
  (forall b l s, b ∈ K -> dom (areas s) = K -> I (Some b) l s -> ends (body b l) s (fun r s' =>
     dom (areas s') = K /\ match r with inl l' => I (fst <$> OMap.next b (areas s')) l' s' | inr l' => Q l' s' end)) ->
  (forall l s, dom (areas s) = K -> I None l s -> Q l s) ->
  ends (KI_PMAD_FOREACH body l) s Q.
Proof.
  intros HK HI Hbody Hend. unfold KI_PMAD_FOREACH.
  eapply (loop_ends (visiting K I) (fun '(p, _) => to_visit K p)).
  - by apply visiting_first.
  - by apply visits_bound.
  - intros [[b|] l1] s1 (HK1 & HI1 & Hb1); [| by apply ends_ret, Hend].
    eapply ends_bind; [by apply Hbody, HI1; [apply Hb1 |] |]. intros [l2|l2] s2 [HK2 H2]; [| by apply ends_ret].
    right. eexists _, _. split; [reflexivity |]. by apply (visiting_next K I b l2 s2 (Hb1 b eq_refl)).
Qed.

End Rules.

(** ** The pages of an area *)

Definition npages (len : Z) : Z := (len + (PAGESIZE - 1)) / PAGESIZE.

Definition area_pages (b len : Z) : list Z := (fun k => b + PAGESIZE * k) <$> seqZ 0 (npages len).

Lemma in_area_pages b len x : x ∈ area_pages b len <-> exists k, x = b + PAGESIZE * k /\ 0 <= k /\ x < b + len.
Proof.
  unfold area_pages, npages, PAGESIZE. rewrite list_elem_of_fmap.
  split; intros (k & -> & Hk); exists k; [rewrite elem_of_seqZ in Hk | rewrite elem_of_seqZ];
    (split; [done |]); pose proof (Z.div_mod (len + (4096 - 1)) 4096 ltac:(lia));
    pose proof (Z.mod_pos_bound (len + (4096 - 1)) 4096 ltac:(lia)); nia.
Qed.

Definition in_area (b len : Z) (x : Z) : Prop := b <= x < b + len.

#[global] Instance in_area_dec b len x : Decision (in_area b len x).
Proof. unfold in_area. apply _. Defined.

Lemma area_pages_in b len x : x ∈ area_pages b len -> in_area b len x.
Proof. rewrite in_area_pages. unfold in_area, PAGESIZE. intros (k & -> & ? & ?). lia. Qed.

(** The pages below a page of the area *)
Lemma area_pages_step b len j x : j ∈ area_pages b len ->
  x ∈ area_pages b len /\ x < j + PAGESIZE <-> x ∈ area_pages b len /\ x < j \/ x = j.
Proof.
  intros Hj. pose proof Hj as (k & -> & Hk & Hlt)%in_area_pages. split.
  - intros [Hx Hxj]. pose proof Hx as (m & -> & Hm & Hl)%in_area_pages. unfold PAGESIZE in *.
    destruct (decide (m = k)) as [->|]; [by right | left]. split; [done | lia].
  - unfold PAGESIZE. intros [[Hx Hxj]| ->]; split; try done; lia.
Qed.

(** ** The lists of free pages *)

Lemma lst_last L : PgAlloc.lst L None = last L.
Proof.
  induction L as [|x L _] using rev_ind; [done |]. by rewrite PgAlloc.lst_snoc last_snoc.
Qed.

Lemma sorted_snoc W x : StronglySorted Z.lt W -> Forall (fun y => y < x) W -> StronglySorted Z.lt (W ++ [x]).
Proof.
  induction 1 as [|y W HW IH Hy]; simpl; [by repeat constructor |].
  intros [Hyx HWx]%Forall_cons. constructor; [by apply IH |]. apply Forall_app. split; [done | by repeat constructor].
Qed.

Lemma sorted_nodup W : StronglySorted Z.lt W -> NoDup W.
Proof.
  induction 1 as [|y W HW IH Hy]; [constructor |]. constructor; [| done].
  intros Hin. rewrite Forall_forall in Hy. pose proof (Hy _ Hin). lia.
Qed.

Lemma sorted_drop W n : StronglySorted Z.lt W -> StronglySorted Z.lt (drop n W).
Proof.
  revert n. induction W as [|y W IH]; intros [|n] HW; simpl; try done. apply IH. by inversion HW.
Qed.

Lemma last_filter (P : Z -> Prop) `{!forall x, Decision (P x)} W x :
  last W = Some x -> P x -> last (filter P W) = Some x.
Proof.
  intros Hl HP. destruct W as [|y W _] using rev_ind; [done |]. rewrite last_snoc in Hl. injection Hl as ->.
  rewrite filter_app filter_cons_True // filter_nil. apply last_snoc.
Qed.

Lemma last_drop (W : list Z) n : (n < List.length W)%nat -> last (drop n W) = last W.
Proof.
  revert n. induction W as [|y W IH]; intros [|n] Hn; simpl in *; try done.
  rewrite IH; [lia |]. destruct W; [simpl in *; lia | done].
Qed.

Lemma sorted_filter (P : Z -> Prop) `{!forall x, Decision (P x)} W :
  StronglySorted Z.lt W -> StronglySorted Z.lt (filter P W).
Proof.
  induction 1 as [|y W HW IH Hy]; [constructor |]. rewrite filter_cons. case_decide; [| done]. constructor; [done |].
  rewrite Forall_forall in Hy. apply Forall_forall. intros z [_ Hz]%list_elem_of_filter. by apply Hy.
Qed.

Lemma sorted_same L1 L2 : StronglySorted Z.lt L1 -> StronglySorted Z.lt L2 ->
  (forall x, x ∈ L1 <-> x ∈ L2) -> L1 = L2.
Proof.
  intros H1 H2 He. apply (StronglySorted_unique_strong Z.lt); [intros x y _ _; lia | done | done |].
  apply NoDup_Permutation; [by apply sorted_nodup | by apply sorted_nodup | done].
Qed.

Lemma seqZ_sorted m n : StronglySorted Z.lt (seqZ m n).
Proof.
  unfold seqZ. generalize O. induction (Z.to_nat n) as [|k IH]; intros j; simpl; [constructor |].
  constructor; [apply IH |]. apply Forall_fmap, Forall_forall. intros x [? ?]%elem_of_seq. simpl. lia.
Qed.

Lemma area_pages_sorted b len : StronglySorted Z.lt (area_pages b len).
Proof.
  unfold area_pages. generalize (seqZ_sorted 0 (npages len)). induction 1 as [|x L _ IH Hx]; simpl; [constructor |].
  constructor; [done |]. apply Forall_fmap. eapply Forall_impl; [exact Hx |]. intros y Hy. simpl. unfold PAGESIZE. lia.
Qed.

End MmInitA.
