(* ===== verification/MmInitSteps.v ===== *)
(** * Bringing up the physical memory: giving pages their descriptors

    What the steps of the loops do to the areas, and the invariant of the loop
    over available memory: the free lists of all areas, one after the other,
    are the pages described so far, in order, without the first ones, which
    were taken for pools and tables. *)

From S2P Require Import Prelude MemConf OMap PgAlloc MmInit MmInitAreas.
Import MemConf MmInit MmInitA.

Module MmInitS.

Section State.
Context {E : Type}.

Definition with_pmads (s : init_st E) (p : PgAlloc.pg_st) : init_st E :=
  mkInit p (ki_pmad_number s) (ki_global_mad_pool_list s) (direct_map_bases s) (direct_map_sizes s) (early s).

Definition with_early (s : init_st E) (e : E) : init_st E :=
  mkInit (pmads s) (ki_pmad_number s) (ki_global_mad_pool_list s) (direct_map_bases s) (direct_map_sizes s) e.

Definition with_pools (s : init_st E) (l : list (Z * hn_madpool_t)) : init_st E :=
  mkInit (pmads s) (ki_pmad_number s) l (direct_map_bases s) (direct_map_sizes s) (early s).

Abbreviation areas s := (PgAlloc.ki_pmad_tree (pmads (E := E) s)).
Abbreviation mads s := (PgAlloc.mads (pmads (E := E) s)).

Lemma in_pmads_ok {A} (m : M PgAlloc.pg_st A) s a p :
  m (pmads s) = Ok (a, p) -> in_pmads m s = Ok (a, with_pmads s p).
Proof. unfold in_pmads. by intros ->. Qed.

Lemma in_early_ok {A} (m : M E A) s a e : m (early s) = Ok (a, e) -> in_early m s = Ok (a, with_early s e).
Proof. unfold in_early. by intros ->. Qed.

Lemma get_area_run {B} s i a (k : PgAlloc.ki_pmad_t -> M (init_st E) B) :
  areas s !! i = Some a -> bind (in_pmads (PgAlloc.get_area i)) k s = k a s.
Proof.
  intros Ha. erewrite bind_ok; [| apply in_pmads_ok; unfold PgAlloc.get_area; by rewrite Ha]. by destruct s.
Qed.

(** ** One descriptor *)

Definition constructed (s : init_st E) (slot page : Z) (v : Z) (p : hn_madpool_t) rest : init_st E :=
  mkInit (PgAlloc.mkPg (areas s) (<[page := PgAlloc.fresh_mad]> (mads s))) (ki_pmad_number s)
    ((v, mkPool (used_num p) (<[slot := page]> (descs p))) :: rest) (direct_map_bases s) (direct_map_sizes s) (early s).

Lemma construct_desc_ok s slot page v p rest : ki_global_mad_pool_list s = (v, p) :: rest ->
  construct_desc slot page s = Ok (tt, constructed s slot page v p rest).
Proof. intros Hp. unfold construct_desc, head_pool, bind. by rewrite Hp. Qed.

(** The links of a page behind the last of the list *)
Lemma link_desc_ok s i a g j L ms :
  areas s !! i = Some a -> mads s = <[j := PgAlloc.fresh_mad]> ms -> PgAlloc.area_ok ms a L g -> j ∉ PgAlloc.query_tree a ->
  link_desc i j (PgAlloc.lst L None) s = Ok (tt, with_pmads s (PgAlloc.mkPg
    (<[i := if bool_decide (L = []) then PgAlloc.with_free_list a (Some j) else a]> (areas s))
    (PgAlloc.appended j L ms))).
Proof.
  intros Hi Hms Hok Hj. unfold link_desc. destruct (decide (L = [])) as [->|HL].
  - apply in_pmads_ok. simpl. unfold PgAlloc.set_free_list, bind. rewrite Hi. unfold PgAlloc.put_mad. simpl.
    rewrite Hms !lookup_insert_eq. do 3 f_equal. unfold PgAlloc.appended. simpl. by rewrite !insert_insert_eq.
  - destruct (PgAlloc.lst_snoc_nil _ HL) as (L' & w & HLw & Hw). rewrite Hw bool_decide_false //.
    assert (HwL : w ∈ L) by (rewrite HLw; set_solver).
    assert (Hwj : w <> j) by (intros ->; by apply Hj, (PgAlloc.ok_in _ _ _ _ Hok)).
    destruct (PgAlloc.ok_dom _ _ _ _ Hok w (PgAlloc.ok_in _ _ _ _ Hok _ HwL)) as [mw Hmw].
    apply in_pmads_ok.
    erewrite PgAlloc.put_run; [| rewrite Hms; apply lookup_insert_eq].
    erewrite PgAlloc.put_run; [| simpl; rewrite Hms !lookup_insert_ne; [congruence | congruence | exact Hmw]].
    unfold PgAlloc.put_mad. simpl. rewrite lookup_insert_ne // lookup_insert_eq.
    rewrite (insert_id (areas s) i a Hi). do 3 f_equal. unfold PgAlloc.appended. rewrite Hw (PgAlloc.upd_eq _ _ _ _ Hmw) Hms.
    unfold PgAlloc.set_prev, PgAlloc.set_next, PgAlloc.fresh_mad. simpl.
    apply map_eq. intros y. destruct (decide (y = j)) as [->|Hy]; [by rewrite !lookup_insert_eq |].
    rewrite !(lookup_insert_ne _ j y) //. destruct (decide (y = w)) as [->|Hyw]; [by rewrite !lookup_insert_eq |].
    by rewrite !lookup_insert_ne.
Qed.

Definition counted (s : init_st E) (v : Z) (p : hn_madpool_t) rest : init_st E :=
  with_pools s ((v, mkPool (w64 (used_num p + 1)) (descs p)) :: rest).

Lemma insert_desc_ok s i a page v p rest : ki_global_mad_pool_list s = (v, p) :: rest ->
  areas s !! i = Some a -> page ∉ PgAlloc.query_tree a ->
  insert_desc i page s = Ok (tt, with_pmads (counted s v p rest)
    (PgAlloc.mkPg (<[i := PgAlloc.with_page page a]> (areas s)) (mads s))).
Proof.
  intros Hp Hi Hq. unfold insert_desc, head_pool. erewrite bind_ok; [| by rewrite Hp].
  apply in_pmads_ok. unfold PgAlloc.get_area, bind. simpl. rewrite Hi. by rewrite bool_decide_false.
Qed.

(** A page of area [i] gets the descriptor in [slot] of the newest pool. *)
Definition grown (s : init_st E) (slot page : Z) (v : Z) (p : hn_madpool_t) rest (i : Z) a' ms' : init_st E :=
  mkInit (PgAlloc.mkPg (<[i := a']> (areas s)) ms') (ki_pmad_number s)
    ((v, mkPool (w64 (used_num p + 1)) (<[slot := page]> (descs p))) :: rest) (direct_map_bases s) (direct_map_sizes s) (early s).

Lemma mark_initial_ok s i a page slot v p rest : ki_global_mad_pool_list s = (v, p) :: rest ->
  areas s !! i = Some a -> page ∉ PgAlloc.query_tree a ->
  mark_initial i page slot s = Ok (slot + 1,
    grown s slot page v p rest i (PgAlloc.with_page page a) (<[page := PgAlloc.fresh_mad]> (mads s))).
Proof.
  intros Hp Hi Hq. unfold mark_initial. rewrite (bind_ok _ _ _ _ _ (construct_desc_ok s slot page v p rest Hp)).
  erewrite bind_ok; [| by apply insert_desc_ok]. done.
Qed.

Lemma link_insert_ok {B} s i a g page slot v p rest L (k : unit -> M (init_st E) B) :
  ki_global_mad_pool_list s = (v, p) :: rest ->
  areas s !! i = Some a -> PgAlloc.area_ok (mads s) a L g -> page ∉ PgAlloc.query_tree a ->
  bind (link_desc i page (PgAlloc.lst L None)) (fun _ => bind (insert_desc i page) k)
    (constructed s slot page v p rest)
  = k tt (grown s slot page v p rest i (PgAlloc.with_last page L a) (PgAlloc.appended page L (mads s))).
Proof.
  intros Hp Hi Hok Hq. erewrite bind_ok; [| by apply (link_desc_ok _ i a g page L (mads s))].
  erewrite bind_ok; [| eapply (insert_desc_ok _ i); [done | apply lookup_insert_eq | by case_bool_decide]].
  f_equal. unfold grown, with_pmads, counted. simpl. rewrite insert_insert_eq. do 3 f_equal.
  unfold PgAlloc.with_page, PgAlloc.with_last, PgAlloc.with_free_list. by case_bool_decide.
Qed.

End State.

(** ** The memory map *)

(** What a memory map must be like: areas are disjoint; those that are mapped
    lie in the first 64 TiB; available memory comes in whole pages and does not
    contain page 0. *)
Record memory_map (T0 : gmap Z PgAlloc.ki_pmad_t) : Prop := {
  map_range : forall b a, T0 !! b = Some a -> 0 <= b /\ 0 < PgAlloc.len a /\ b + PgAlloc.len a < 2 ^ 64;
  map_low : forall b a, T0 !! b = Some a -> PgAlloc.type a <> MM_PHYSICAL_MEMORY_TYPE_CRITICAL ->
    b + PgAlloc.len a < 2 ^ 46;
  map_apart : forall b1 a1 b2 a2, T0 !! b1 = Some a1 -> T0 !! b2 = Some a2 -> b1 < b2 -> b1 + PgAlloc.len a1 <= b2;
  map_available : forall b a, T0 !! b = Some a -> PgAlloc.type a = MM_PHYSICAL_MEMORY_TYPE_AVAILABLE ->
    b mod PAGESIZE = 0 /\ PgAlloc.len a mod PAGESIZE = 0 /\ b <> 0;
  map_fresh : forall b a, T0 !! b = Some a -> PgAlloc.free_list a = None /\ PgAlloc.query_tree a = ∅
}.

Section Available.
Context {E : Type} `{EL : EarlyLaws E} (T0 : gmap Z PgAlloc.ki_pmad_t).
Hypothesis HT : memory_map T0.

Abbreviation areas s := (PgAlloc.ki_pmad_tree (pmads (E := E) s)).
Abbreviation mads s := (PgAlloc.mads (pmads (E := E) s)).

(** The areas are those of the memory map. *)
Definition shape (s : init_st E) : Prop :=
  forall b, (fun a => (PgAlloc.len a, PgAlloc.type a)) <$> areas s !! b = (fun a => (PgAlloc.len a, PgAlloc.type a)) <$> T0 !! b.

Lemma shape_area s b a : shape s -> areas s !! b = Some a ->
  exists a0, T0 !! b = Some a0 /\ PgAlloc.len a0 = PgAlloc.len a /\ PgAlloc.type a0 = PgAlloc.type a.
Proof. intros Hs Ha. specialize (Hs b). rewrite Ha in Hs. destruct (T0 !! b) as [a0|]; [| done]. exists a0. by simplify_eq/=. Qed.

Lemma shape_map s b a0 : shape s -> T0 !! b = Some a0 ->
  exists a, areas s !! b = Some a /\ PgAlloc.len a = PgAlloc.len a0 /\ PgAlloc.type a = PgAlloc.type a0.
Proof. intros Hs Ha. specialize (Hs b). rewrite Ha in Hs. destruct (areas s !! b) as [a|]; [| done]. exists a. by simplify_eq/=. Qed.

Lemma shape_dom s : shape s -> dom (areas s) = dom T0.
Proof.
  intros Hs. apply set_eq. intros b. rewrite !elem_of_dom. specialize (Hs b).
  destruct (areas s !! b), (T0 !! b); try done; by split; intros [? ?].
Qed.

Lemma home_unique b1 a1 b2 a2 x : T0 !! b1 = Some a1 -> T0 !! b2 = Some a2 ->
  in_area b1 (PgAlloc.len a1) x -> in_area b2 (PgAlloc.len a2) x -> b1 = b2.
Proof.
  unfold in_area. intros H1 H2 Hx1 Hx2. destruct (Z.lt_trichotomy b1 b2) as [Hlt|[?|Hlt]]; [| done |].
  - pose proof (map_apart _ HT _ _ _ _ H1 H2 Hlt). lia.
  - pose proof (map_apart _ HT _ _ _ _ H2 H1 Hlt). lia.
Qed.

(** The pages that have descriptors: [D] are on no free list, [F] are on the
    free list of their area, in this order. *)
Record state_ok (D F : list Z) (s : init_st E) : Prop := {
  st_inv : PgAlloc.pg_inv (pmads s);
  st_shape : shape s;
  st_query : forall i a x, areas s !! i = Some a ->
    x ∈ PgAlloc.query_tree a <-> x ∈ D ++ F /\ in_area i (PgAlloc.len a) x;
  st_dom : forall x, is_Some (mads s !! x) <-> x ∈ D ++ F;
  st_home : forall x, x ∈ D ++ F -> exists i a, T0 !! i = Some a /\ in_area i (PgAlloc.len a) x;
  st_nodup : NoDup (D ++ F);
  st_free : forall i a, areas s !! i = Some a ->
    PgAlloc.free_pages (pmads s) i = filter (in_area i (PgAlloc.len a)) F
}.

Definition available_home (x : Z) : Prop := exists i a, T0 !! i = Some a /\
  PgAlloc.type a = MM_PHYSICAL_MEMORY_TYPE_AVAILABLE /\ in_area i (PgAlloc.len a) x.

Lemma drop_tail {A} (W : list A) k x rest : drop k W = x :: rest -> drop (S k) W = rest.
Proof.
  revert W. induction k as [|k IH]; intros [|y W] Hd; [done | | done |].
  - rewrite drop_0 in Hd. by injection Hd as _ ->.
  - exact (IH W Hd).
Qed.

Lemma upd_dom p f ms x : is_Some (PgAlloc.upd p f ms !! x) <-> is_Some (ms !! x).
Proof.
  split; [| apply PgAlloc.upd_is_Some]. destruct p as [y|]; [| done]. simpl.
  destruct (decide (x = y)) as [->|]; [| by rewrite lookup_alter_ne].
  rewrite lookup_alter_eq. by destruct (ms !! y); [| intros [? ?]].
Qed.

Lemma filter_nothing {A} (P : A -> Prop) `{!forall x, Decision (P x)} L : (forall x, x ∈ L -> ~ P x) -> filter P L = [].
Proof.
  intros HL. apply elem_of_nil_inv. intros x. rewrite list_elem_of_filter. intros [Hx Hin]. by apply (HL x).
Qed.

Lemma layout_area P Q b a : PgAlloc.layout Q = PgAlloc.layout P -> PgAlloc.ki_pmad_tree P !! b = Some a ->
  exists a', PgAlloc.ki_pmad_tree Q !! b = Some a' /\ PgAlloc.len a' = PgAlloc.len a /\
    PgAlloc.type a' = PgAlloc.type a /\ PgAlloc.query_tree a' = PgAlloc.query_tree a.
Proof.
  intros Hl Hb. assert (He : PgAlloc.layout Q !! b = PgAlloc.layout P !! b) by (by rewrite Hl).
  unfold PgAlloc.layout in He. rewrite !lookup_fmap Hb in He.
  destruct (PgAlloc.ki_pmad_tree Q !! b) as [a'|]; [| done]. exists a'. by simplify_eq/=.
Qed.

Lemma layout_none P Q b : PgAlloc.layout Q = PgAlloc.layout P -> PgAlloc.ki_pmad_tree P !! b = None ->
  PgAlloc.ki_pmad_tree Q !! b = None.
Proof.
  intros Hl Hb. destruct (PgAlloc.ki_pmad_tree Q !! b) as [a|] eqn:Hq; [| done].
  destruct (layout_area Q P b a (eq_sym Hl) Hq) as (? & ? & _). congruence.
Qed.

(** Taking the first page of all *)
Lemma take_ok D s x rest : state_ok D (x :: rest) s -> StronglySorted Z.lt (x :: rest) ->
  (forall y, y ∈ x :: rest -> available_home y) ->
  exists P, take_page s = Ok (x, with_pmads s P) /\ state_ok (D ++ [x]) rest (with_pmads s P) /\
    PgAlloc.layout P = PgAlloc.layout (pmads s) /\ exists i a, PgAlloc.page_of P i a x.
Proof.
  intros Hs Hsort Hhome. pose proof Hs as [Hinv0 Hsh Hq Hdm Hh Hnd Hfr].
  destruct (Hhome x ltac:(left)) as (i & a0 & Hi0 & Ht0 & Hin0).
  destruct (shape_map _ _ _ Hsh Hi0) as (a & Hi & Hlen & Hty).
  inversion Hsort as [| ? ? Hsort' Hmin]. subst. rewrite Forall_forall in Hmin.
  assert (Hf : PgAlloc.free_pages (pmads s) i = x :: filter (in_area i (PgAlloc.len a)) rest).
  { rewrite (Hfr _ _ Hi) filter_cons_True; [by rewrite Hlen | done]. }
  destruct (PgAlloc.pgalloc_head (pmads s) i a x (filter (in_area i (PgAlloc.len a)) rest))
    as (P & E1 & Hinv & Hx0 & Hrx & Href & Hdom & Hfi & Hfo); [done | done | congruence | done | |].
  { intros b' a' Hb' Hlt Ht'. rewrite (Hfr _ _ Hb').
    destruct (shape_area _ _ _ Hsh Hb') as (a1 & H1 & Hl1 & _).
    apply filter_nothing. intros y Hy Hyb. unfold in_area in *.
    pose proof (map_apart _ HT _ _ _ _ H1 Hi0 Hlt). apply elem_of_cons in Hy as [->|Hy]; [lia |].
    pose proof (Hmin _ Hy). lia. }
  pose proof (PgAlloc.keeps_pgalloc _ _ _ _ E1) as Hlay.
  assert (Happ : (D ++ [x]) ++ rest = D ++ x :: rest) by (by rewrite -app_assoc).
  exists P. unfold take_page. rewrite (bind_ok _ _ _ _ _ (in_pmads_ok _ _ _ _ E1)) (proj2 (Z.eqb_neq _ _) Hx0).
  split; [done |]. split; [| split; [done |]].
  2:{ exists i. destruct (layout_area _ _ i a Hlay Hi) as (a' & Ha' & _ & _ & Hq'). exists a'. split; [done |]. rewrite Hq'.
    apply (Hq _ _ _ Hi). rewrite Hlen. split; [apply elem_of_app; right; left | done]. }
  split; simpl; rewrite ?Happ; try done.
  - intros b. simpl. destruct (areas s !! b) as [a1|] eqn:Hb.
    + destruct (layout_area _ _ b a1 Hlay Hb) as (a2 & -> & Hl2 & Ht2 & _). rewrite -(Hsh b) Hb /=. congruence.
    + rewrite -(Hsh b) Hb. by rewrite (layout_none _ _ b Hlay Hb).
  - intros b a2 y Hb. destruct (layout_area _ _ b a2 (eq_sym Hlay) Hb) as (a1 & Ha1 & Hl1 & _ & Hq1).
    rewrite -Hq1 -Hl1. by apply Hq.
  - intros y. rewrite -Hdm. destruct (decide (y = x)) as [->|Hne].
    + split; intros _; [apply Hdm, elem_of_app; right; left |]. unfold PgAlloc.refs in Hrx. by destruct (PgAlloc.mads P !! x).
    + specialize (Href _ Hne). unfold PgAlloc.refs in Href.
      destruct (PgAlloc.mads P !! y), (mads s !! y); simplify_eq/=; split; intros [? ?]; done.
  - intros b a2 Hb. destruct (layout_area _ _ b a2 (eq_sym Hlay) Hb) as (a1 & Ha1 & Hl1 & _ & _).
    rewrite -Hl1. destruct (decide (b = i)) as [->|Hne].
    + assert (a1 = a) as -> by congruence. done.
    + rewrite (Hfo _ Hne) (Hfr _ _ Ha1) filter_cons_False //. intros Hxb. apply Hne.
      destruct (shape_area _ _ _ Hsh Ha1) as (a3 & H3 & Hl3 & _).
      eapply (home_unique b a3 i a0 x); [done | done | by rewrite Hl3 | done].
Qed.

(** The last page of an area's list is the last page of the area so far: the
    pages in front were taken first. *)
Lemma last_of_area W k i l j : StronglySorted Z.lt W -> Forall (fun y => y < j) W -> in_area i l j ->
  (k < length W)%nat \/ k = O ->
  PgAlloc.lst (filter (in_area i l) (drop k W)) None = last (filter (in_area i l) W).
Proof.
  intros Hs Hj Hin Hk. rewrite lst_last. destruct Hk as [Hk| ->]; [| done].
  destruct (decide (filter (in_area i l) W = [])) as [Hnil|Hnil].
  - rewrite Hnil filter_nothing //. intros y Hy Hyi.
    assert (Hf : y ∈ filter (in_area i l) W); [| rewrite Hnil in Hf; by apply not_elem_of_nil in Hf].
    rewrite list_elem_of_filter. split; [done |]. rewrite -(take_drop k W). apply elem_of_app. by right.
  - destruct W as [|w W' _] using rev_ind; [done |].
    assert (Hw : in_area i l w).
    { destruct (filter (in_area i l) (W' ++ [w])) as [|y L] eqn:Hf; [done |].
      assert (Hy : y ∈ filter (in_area i l) (W' ++ [w])) by (rewrite Hf; left).
      rewrite list_elem_of_filter elem_of_app list_elem_of_singleton in Hy. destruct Hy as [Hyi [Hy| ->]]; [| done].
      rewrite Forall_app Forall_singleton in Hj. destruct Hj as [_ Hwj].
      assert (y < w); [| unfold in_area in *; lia].
      clear -Hs Hy. induction W' as [|z W' IH]; [by apply not_elem_of_nil in Hy |]. simpl in Hs.
      inversion Hs as [| ? ? Hs' Hz]; subst. apply elem_of_cons in Hy as [->|Hy]; [| by apply IH].
      rewrite Forall_app Forall_singleton in Hz. tauto. }
    rewrite (last_filter _ _ w); [by rewrite last_drop // last_snoc | done |].
    rewrite (last_filter _ _ w); [by rewrite last_snoc | done | done].
Qed.

(** A new page at the end of its area's list *)
Lemma append_ok D F s slot j v p rest i a0 :
  state_ok D F s -> T0 !! i = Some a0 -> in_area i (PgAlloc.len a0) j ->
  (j = 0 -> PgAlloc.type a0 <> MM_PHYSICAL_MEMORY_TYPE_AVAILABLE) -> j ∉ D ++ F ->
  ki_global_mad_pool_list s = (v, p) :: rest ->
  let L := filter (in_area i (PgAlloc.len a0)) F in
  exists a g, areas s !! i = Some a /\ PgAlloc.area_ok (mads s) a L g /\ j ∉ PgAlloc.query_tree a /\
    state_ok D (F ++ [j]) (grown s slot j v p rest i (PgAlloc.with_last j L a) (PgAlloc.appended j L (mads s))).
Proof.
  intros Hs Hi0 Hj Hj0 HjF Hp L. pose proof Hs as [Hinv Hsh Hq Hdm Hh Hnd Hfr].
  destruct (shape_map _ _ _ Hsh Hi0) as (a & Hi & Hlen & Hty).
  assert (Hjq : j ∉ PgAlloc.query_tree a) by (rewrite (Hq _ _ _ Hi); tauto).
  destruct (proj2 Hinv _ _ Hi) as (L0 & g & Hok).
  assert (L0 = L) as ->.
  { rewrite -(PgAlloc.free_pages_ok _ _ _ _ _ Hi Hok) (Hfr _ _ Hi) Hlen //. }
  exists a, g. split_and!; [done | done | done |].
  destruct (PgAlloc.pg_grow (pmads s) i a (PgAlloc.with_last j L a) (PgAlloc.appended j L (mads s)) (L ++ [j]) g j)
    as (Hinv' & Hfi & Hfo); try done.
  { unfold in_area in Hj. lia. }
  { rewrite Hty. exact Hj0. }
  { apply PgAlloc.area_append; [done | done |]. destruct g as [y|]; [right | by left].
    by destruct (PgAlloc.ok_ghost _ _ _ _ Hok y eq_refl). }
  { intros z Hz Hzj. unfold PgAlloc.appended. rewrite lookup_insert_ne; [congruence |]. apply PgAlloc.upd_other.
    rewrite lst_last. intros Hl%last_Some_elem_of. by apply Hz, (PgAlloc.ok_in _ _ _ _ Hok). }
  split; simpl; try done.
  - intros b. simpl. rewrite -(Hsh b). destruct (decide (b = i)) as [->|Hne]; [by rewrite lookup_insert_eq Hi | by rewrite lookup_insert_ne].
  - intros b a1 x Hb. rewrite app_assoc (elem_of_app (D ++ F)) list_elem_of_singleton. apply lookup_insert_Some in Hb as [[<- <-]|[Hne Hb]].
    + simpl. rewrite elem_of_union elem_of_singleton (Hq _ _ _ Hi) Hlen. split; [intros [->|]; tauto | tauto].
    + rewrite (Hq _ _ _ Hb). split; [tauto |]. intros [[?| ->] Hx]; [tauto |].
      exfalso. apply Hne. destruct (shape_area _ _ _ Hsh Hb) as (a2 & H2 & Hl2 & _).
      eapply (home_unique i a0 b a2 j); [done | done | done | by rewrite Hl2].
  - intros x. unfold PgAlloc.appended. rewrite app_assoc (elem_of_app (D ++ F)) list_elem_of_singleton lookup_insert_is_Some.
    rewrite upd_dom Hdm. destruct (decide (j = x)) as [->|]; naive_solver.
  - intros x. rewrite app_assoc (elem_of_app (D ++ F)) list_elem_of_singleton. intros [?| ->]; [by apply Hh | by exists i, a0].
  - rewrite app_assoc. apply list.NoDup_app. split_and!; [done | | apply list.NoDup_singleton]. intros x Hx ->%list_elem_of_singleton. done.
  - intros b a1 Hb. rewrite filter_app. apply lookup_insert_Some in Hb as [[<- <-]|[Hne Hb]].
    + rewrite Hfi /= Hlen filter_cons_True //.
    + rewrite (Hfo b) // (Hfr _ _ Hb) filter_cons_False; [| by rewrite app_nil_r].
      intros Hx. apply Hne. destruct (shape_area _ _ _ Hsh Hb) as (a2 & H2 & Hl2 & _).
      eapply (home_unique i a0 b a2 j); [done | done | done | by rewrite Hl2].
Qed.

(** A new page that is on no list *)
Lemma mark_state D F s slot v p rest i a0 j :
  state_ok D F s -> T0 !! i = Some a0 -> in_area i (PgAlloc.len a0) j ->
  (j = 0 -> PgAlloc.type a0 <> MM_PHYSICAL_MEMORY_TYPE_AVAILABLE) -> j ∉ D ++ F ->
  ki_global_mad_pool_list s = (v, p) :: rest ->
  exists s', mark_initial i j slot s = Ok (slot + 1, s') /\ state_ok (j :: D) F s' /\
    length (ki_global_mad_pool_list s') = length (ki_global_mad_pool_list s).
Proof.
  intros Hs Hi0 Hj Hj0 HjD Hp. pose proof Hs as [Hinv Hsh Hq Hdm Hh Hnd Hfr].
  destruct (shape_map _ _ _ Hsh Hi0) as (a & Hi & Hlen & Hty).
  assert (Hjq : j ∉ PgAlloc.query_tree a) by (rewrite (Hq _ _ _ Hi); tauto).
  eexists. split; [by apply (mark_initial_ok s i a) |]. split; [| simpl; by rewrite Hp].
  destruct (proj2 Hinv _ _ Hi) as (L0 & g & Hok).
  destruct (PgAlloc.pg_grow (pmads s) i a (PgAlloc.with_page j a) (<[j := PgAlloc.fresh_mad]> (mads s)) L0 g j)
    as (Hinv' & Hfi & Hfo); try done.
  { unfold in_area in Hj. lia. }
  { rewrite Hty. exact Hj0. }
  { by apply PgAlloc.area_page_off. }
  { intros z _ Hz. by rewrite lookup_insert_ne. }
  rewrite -(PgAlloc.free_pages_ok _ _ _ _ _ Hi Hok) (Hfr _ _ Hi) in Hfi.
  split; simpl; try done.
  - intros b. simpl. rewrite -(Hsh b). destruct (decide (b = i)) as [->|Hne]; [by rewrite lookup_insert_eq Hi | by rewrite lookup_insert_ne].
  - intros b a1 x Hb. rewrite elem_of_cons. apply lookup_insert_Some in Hb as [[<- <-]|[Hne Hb]].
    + simpl. rewrite elem_of_union elem_of_singleton (Hq _ _ _ Hi) Hlen. split; [intros [->|]; tauto | tauto].
    + rewrite (Hq _ _ _ Hb). split; [tauto |]. intros [[->|?] Hx]; [| tauto].
      exfalso. apply Hne. destruct (shape_area _ _ _ Hsh Hb) as (a2 & H2 & Hl2 & _).
      eapply (home_unique i a0 b a2 j); [done | done | done | by rewrite Hl2].
  - intros x. rewrite elem_of_cons lookup_insert_is_Some Hdm. destruct (decide (j = x)) as [->|]; naive_solver.
  - intros x. rewrite elem_of_cons. intros [->|?]; [by exists i, a0 | by apply Hh].
  - by constructor.
  - intros b a1 Hb. apply lookup_insert_Some in Hb as [[<- <-]|[Hne Hb]]; [by rewrite Hfi | by rewrite (Hfo b) // (Hfr _ _ Hb)].
Qed.

(** ** Available memory

    [init] are the initial pages, [W] the pages that went to a free list, of
    which the first [k] were taken again. *)
Record avail_ok (init W : list Z) (k : nat) (s : init_st E) : Prop := {
  av_state : state_ok (init ++ take k W) (drop k W) s;
  av_sorted : StronglySorted Z.lt W;
  av_home : forall x, x ∈ W -> available_home x
}.

Lemma take_avail init W k s x rest : avail_ok init W k s -> drop k W = x :: rest ->
  exists P, take_page s = Ok (x, with_pmads s P) /\ avail_ok init W (S k) (with_pmads s P) /\
    PgAlloc.layout P = PgAlloc.layout (pmads s) /\ exists i a, PgAlloc.page_of P i a x.
Proof.
  intros [Hs Hso Hh] Hd. rewrite Hd in Hs. pose proof (sorted_drop _ k Hso) as Hso'. rewrite Hd in Hso'.
  destruct (take_ok _ _ _ _ Hs Hso') as (P & E1 & Hs' & Hrest).
  { intros y Hy. apply Hh. rewrite -(take_drop k W) Hd. apply elem_of_app. by right. }
  exists P. split; [done |]. split; [| done]. split; [| done | done].
  rewrite (drop_tail _ _ _ _ Hd). rewrite -app_assoc in Hs'.
  assert (Hx : W !! k = Some x) by (rewrite -(Nat.add_0_r k) -lookup_drop Hd //). by rewrite (take_S_r _ _ _ Hx).
Qed.

(** *** Pools *)

(** A page of some area stays one. *)
Definition keeps_pages (s s' : init_st E) : Prop :=
  forall i a x, PgAlloc.page_of (pmads s) i a x -> exists a', PgAlloc.page_of (pmads s') i a' x.

Definition spare_ok (s : init_st E) (p : Z) : Prop := p = 0 \/ exists i a, PgAlloc.page_of (pmads s) i a p.

Definition tables_ok (t : Z * Z * Z) (s : init_st E) : Prop :=
  spare_ok s t.1.1 /\ spare_ok s t.1.2 /\ spare_ok s t.2.

Lemma spare_keep s s' p : keeps_pages s s' -> spare_ok s p -> spare_ok s' p.
Proof. intros Hk [->|(i & a & Ha)]; [by left | right]. destruct (Hk _ _ _ Ha) as [a' Ha']. by exists i, a'. Qed.

Lemma tables_keep t s s' : keeps_pages s s' -> tables_ok t s -> tables_ok t s'.
Proof. intros Hk (H1 & H2 & H3). split_and!; by apply (spare_keep s). Qed.

Lemma tables_unused r t s : tables_ok t s -> tables_ok (unused r t) s.
Proof.
  destruct t as [[pdpt pdt] ptt]. intros (H1 & H2 & H3). unfold unused, tables_ok in *. simpl in *.
  split_and!; case_match; try done; by left.
Qed.

(** Only the pages matter. *)
Lemma state_ok_eq D F s s' : pmads s' = pmads s -> state_ok D F s -> state_ok D F s'.
Proof. intros He [? ? ? ? ? ? ?]. split; unfold shape; rewrite ?He; done. Qed.

Lemma state_ok_perm D D' F s : D ≡ₚ D' -> state_ok D F s -> state_ok D' F s.
Proof.
  intros HD [H1 H2 Hq Hd Hh Hn Hf]. split; try done.
  - intros i a x Hi. by rewrite -HD (Hq _ _ _ Hi).
  - intros x. by rewrite -HD Hd.
  - intros x. rewrite -HD. apply Hh.
  - by rewrite -HD.
Qed.

Lemma avail_ok_eq init W k s s' : pmads s' = pmads s -> avail_ok init W k s -> avail_ok init W k s'.
Proof. intros He [? ? ?]. split; [by eapply state_ok_eq | done | done]. Qed.

Lemma keeps_pages_eq s s' : pmads s' = pmads s -> keeps_pages s s'.
Proof. intros He i a x Hx. exists a. by rewrite He. Qed.

Lemma keeps_pages_trans s1 s2 s3 : keeps_pages s1 s2 -> keeps_pages s2 s3 -> keeps_pages s1 s3.
Proof. intros H1 H2 i a x Hx. destruct (H1 _ _ _ Hx) as [a' Ha']. by eapply H2. Qed.

Lemma reserve_ok init W k s p : avail_ok init W k s -> (k < length W)%nat -> spare_ok s p ->
  exists q P k', reserve p s = Ok (q, with_pmads s P) /\ keeps_pages s (with_pmads s P) /\
    spare_ok (with_pmads s P) q /\ (k <= k' <= k + 1)%nat /\ avail_ok init W k' (with_pmads s P).
Proof.
  intros Hs Hk Hp. unfold reserve. destruct (Z.eqb_spec p 0) as [->|Hp0]; simpl.
  - destruct (drop k W) as [|x rest] eqn:Hd.
    { pose proof (length_drop W k) as Hl. rewrite Hd /= in Hl. lia. }
    destruct (take_avail _ _ _ _ _ _ Hs Hd) as (P & E1 & Hs' & Hlay & Hx).
    exists x, P, (S k). split_and!; [done | | by right | lia | lia | done].
    intros i a y Hy. by eapply PgAlloc.layout_page.
  - exists p, (pmads s), k. destruct s. split_and!; [done | by intros i a y Hy; exists a | done | lia | lia | done].
Qed.

(** At most three pages are taken for tables. *)
Lemma reserve_tables_ok init W k s t : avail_ok init W k s -> (k + 3 <= length W)%nat -> tables_ok t s ->
  exists t' P k', reserve_tables t s = Ok (t', with_pmads s P) /\ keeps_pages s (with_pmads s P) /\
    tables_ok t' (with_pmads s P) /\ (k <= k' <= k + 3)%nat /\ avail_ok init W k' (with_pmads s P).
Proof.
  destruct t as [[t2 t1] t0]. intros Hs Hk (H2 & H1 & H0). unfold reserve_tables.
  destruct (reserve_ok _ _ _ _ t2 Hs ltac:(lia) H2) as (q2 & P2 & k2 & E2 & K2 & S2 & L2 & Hs2).
  destruct (reserve_ok _ _ _ _ t1 Hs2 ltac:(lia) (spare_keep _ _ _ K2 H1)) as (q1 & P1 & k1 & E1 & K1 & S1 & L1 & Hs1).
  pose proof (keeps_pages_trans _ _ _ K2 K1) as K21.
  destruct (reserve_ok _ _ _ _ t0 Hs1 ltac:(lia) (spare_keep _ _ _ K21 H0)) as (q0 & P0 & k0 & E0 & K0 & S0 & L0 & Hs0).
  exists (q2, q1, q0), P0, k0. rewrite (bind_ok _ _ _ _ _ E2) (bind_ok _ _ _ _ _ E1) (bind_ok _ _ _ _ _ E0).
  split_and!; [done | by eapply keeps_pages_trans | | lia | lia | done].
  unfold tables_ok. simpl. split_and!; [by apply (spare_keep _ _ _ K0), (spare_keep _ _ _ K1) | by apply (spare_keep _ _ _ K0) | done].
Qed.

(** *** The invariant of the loop *)

Context (sizeof_hn_mad_t : Z).
Abbreviation N := (kh_mad_pool_descs_num_per_page sizeof_hn_mad_t).
Hypothesis HN : 9 <= N.

Definition pools (s : init_st E) : Z := Z.of_nat (length (ki_global_mad_pool_list s)).

(** Each pool but the newest is full, and took at most four pages; there are
    pages left on the lists whenever one was put there. *)
Record loop_ok (init W : list Z) (k : nat) (v : Z * (Z * Z * Z)) (s : init_st E) : Prop := {
  loop_state : avail_ok init W k s;
  loop_pools : 1 <= pools s;
  loop_slots : Z.of_nat (length init + length W) = (pools s - 1) * N + v.1;
  loop_cur : 0 <= v.1 <= N;
  loop_taken : Z.of_nat k <= 4 * (pools s - 1);
  loop_left : (k < length W)%nat \/ k = O;
  loop_tables : tables_ok v.2 s
}.

Lemma map_early_ok va pa t s : exists r e,
  map_early va pa t s = Ok (unused r t, with_early s e).
Proof.
  destruct t as [[t2 t1] t0]. destruct (mmap_total va pa t2 t1 t0 (early s)) as (r & e & E1).
  exists r, e. unfold map_early. by erewrite bind_ok; [| by apply in_early_ok].
Qed.

Lemma new_pool_ok init W k v s : loop_ok init W k v s -> (length init <= 4)%nat ->
  runs (new_pool sizeof_hn_mad_t false v) s (fun v' s' => exists k', loop_ok init W k' v' s' /\ v'.1 < N).
Proof.
  destruct v as [cur t]. intros [Hs Hp1 Hsl Hc Ht Hl Htb] Hinit. simpl in *. unfold new_pool.
  destruct (Z.leb_spec N cur) as [Hfull|Hroom]; [| by apply runs_ret; exists k].
  assert (Hlen : (k + 5 <= length W)%nat) by nia.
  destruct (drop k W) as [|x rest] eqn:Hd.
  { pose proof (length_drop W k) as Hdl. rewrite Hd /= in Hdl. lia. }
  destruct (take_avail _ _ _ _ _ _ Hs Hd) as (P & E1 & Hs1 & Hlay & _).
  destruct (kvmalloc_total PAGESIZE (early s)) as (va & e1 & Ev).
  set (s1 := with_early (with_pmads s P) e1).
  assert (K1 : keeps_pages s s1) by (intros i a y Hy; by eapply PgAlloc.layout_page).
  assert (Hs1' : avail_ok init W (S k) s1) by (by eapply avail_ok_eq, Hs1).
  destruct (reserve_tables_ok init W (S k) s1 t Hs1' ltac:(lia) (tables_keep _ _ _ K1 Htb))
    as (t' & P2 & k2 & E2 & K2 & Htb2 & Hk2 & Hs2).
  destruct (map_early_ok va x t' (with_pmads s1 P2)) as (r & e2 & E3).
  unfold runs. rewrite (bind_ok _ _ _ _ _ E1).
  rewrite (bind_ok _ _ _ _ _ (in_early_ok (mm_kvmalloc_early PAGESIZE) (with_pmads s P) va e1 Ev)).
  simpl. rewrite bind_ret.
  rewrite (bind_ok _ _ _ _ _ E2) (bind_ok _ _ _ _ _ E3). do 2 eexists. split; [reflexivity |].
  exists k2. split; [| simpl; lia].
  split; unfold pools in *; simpl in *; try lia.
  - by eapply avail_ok_eq, Hs2.
  - eapply tables_keep, tables_unused, Htb2. by apply keeps_pages_eq.
Qed.

End Available.

End MmInitS.
