(* ===== verification/MmInitFirst.v ===== *)
(** * Bringing up the physical memory: the first pool

    The search for an area for the first pool, and the descriptors of the
    pages that the pool and its tables occupy. *)

From S2P Require Import Prelude MemConf OMap PgAlloc MmInit MmInitAreas MmInitSteps.
Import MemConf MmInit MmInitA MmInitS.

Module MmInitF.

Section First.
Context {E : Type} `{EL : EarlyLaws E} (T0 : gmap Z PgAlloc.ki_pmad_t).
Hypothesis HT : memory_map T0.
Context (sizeof_hn_mad_t : Z).
Abbreviation N := (kh_mad_pool_descs_num_per_page sizeof_hn_mad_t).
Hypothesis HN : 9 <= N.

Abbreviation areas s := (PgAlloc.ki_pmad_tree (pmads (E := E) s)).
Abbreviation mads s := (PgAlloc.mads (pmads (E := E) s)).
Abbreviation state_ok := (state_ok (E := E) T0).

(** The areas as the memory map has them, before any page has a descriptor *)
Record unprepared (s : init_st E) : Prop := {
  un_areas : areas s = T0;
  un_mads : mads s = ∅;
  un_pools : ki_global_mad_pool_list s = []
}.

Lemma unprepared_ok s : unprepared s -> state_ok [] [] s.
Proof.
  intros [Ha Hm _].
  assert (Hok : forall b a, T0 !! b = Some a -> PgAlloc.area_ok ∅ a [] None).
  { intros b a Hb. destruct (map_fresh _ HT _ _ Hb) as [Hf Hq]. split; rewrite ?Hf ?Hq; try done; try set_solver. constructor. }
  split.
  - split; [split |]; rewrite ?Ha ?Hm.
    + apply (map_range _ HT).
    + apply (map_apart _ HT).
    + intros b a x Hb. rewrite (proj2 (map_fresh _ HT _ _ Hb)). set_solver.
    + intros b a Hb. exists [], None. by apply (Hok b).
  - intros b. by rewrite Ha.
  - intros i a x. rewrite Ha. intros Hb. rewrite (proj2 (map_fresh _ HT _ _ Hb)). set_solver.
  - intros x. rewrite Hm lookup_empty. split; [by intros [? ?] | set_solver].
  - set_solver.
  - constructor.
  - intros i a Hb. rewrite filter_nil. apply (PgAlloc.free_pages_ok _ _ a [] None); [done |].
    rewrite Hm. rewrite Ha in Hb. by apply (Hok i).
Qed.

(** ** The search *)

Definition roomy (a : PgAlloc.ki_pmad_t) : Prop :=
  PgAlloc.type a = MM_PHYSICAL_MEMORY_TYPE_AVAILABLE /\ 4 * PAGESIZE <= PgAlloc.len a.

Lemma rounddown_pages z : 0 <= z -> PGROUNDDOWN z = z / PAGESIZE.
Proof. intros Hz. unfold PGROUNDDOWN, PAGESIZE. rewrite Z.shiftr_div_pow2; [lia |]. done. Qed.

Lemma find_initial_ok i a mp s : areas s = T0 -> T0 !! i = Some a ->
  exists mp', find_initial sizeof_hn_mad_t i (mp, None) s =
    Ok (if bool_decide (roomy a) then inr (Some i, Some i) else inl (mp', None), s).
Proof.
  intros Ha Hi. unfold find_initial. rewrite -Ha in Hi. rewrite (get_area_run _ _ _ _ Hi).
  destruct (Z.eqb_spec (PgAlloc.type a) MM_PHYSICAL_MEMORY_TYPE_AVAILABLE) as [Ht|Ht]; simpl.
  2:{ exists mp. rewrite bool_decide_false; [by intros [? _] |]. done. }
  rewrite Ha in Hi. destruct (map_range _ HT _ _ Hi) as (_ & Hl & _). rewrite rounddown_pages; [lia |].
  unfold roomy. rewrite Ht. unfold PAGESIZE. pose proof (Z.div_mod (PgAlloc.len a) 4096 ltac:(lia)) as Hdm.
  pose proof (Z.mod_pos_bound (PgAlloc.len a) 4096 ltac:(lia)).
  set (m := PgAlloc.len a / 4096) in *. destruct (Z.ltb_spec 3 m) as [Hm|Hm].
  - exists None. rewrite bool_decide_true; [split; [done | lia] |].
    assert (Hd : m / N + 3 < m) by (pose proof (Z.div_lt_upper_bound m N (m - 3) ltac:(lia) ltac:(nia)); lia).
    by rewrite (proj2 (Z.ltb_lt _ _) Hd).
  - rewrite bool_decide_false; [intros [_ ?]; lia |].
    exists (if m / N + 0 <? m then Some i else mp). by case_match.
Qed.

Lemma search_ok s : areas s = T0 -> (exists i a, T0 !! i = Some a /\ roomy a) ->
  runs (KI_PMAD_FOREACH (find_initial sizeof_hn_mad_t) (None, None)) s
    (fun l s' => s' = s /\ exists i a, l = (Some i, Some i) /\ T0 !! i = Some a /\ roomy a).
Proof.
  intros Ha (r & ar & Hr & Har).
  eapply (foreach_rule (dom T0) (fun p l s' => s' = s /\ l.2 = None /\
    forall c b, T0 !! c = Some b -> before p c -> ~ roomy b)); [by rewrite Ha | | |].
  - split_and!; [done | done |]. intros c b Hc Hb. rewrite Ha in Hb.
    exfalso. by apply (before_first T0 c); [apply elem_of_dom_2 in Hc |].
  - intros i [mp pt] s' Hi _ (-> & Hpt & Hbef). simpl in Hpt. subst pt. apply elem_of_dom in Hi as [a Hi].
    destruct (find_initial_ok i a mp s Ha Hi) as [mp' E1]. eexists _, s. split; [exact E1 |]. split; [by rewrite Ha |].
    case_bool_decide as Hroomy; [by split; [| exists i, a] |]. split_and!; [done | done |].
    intros c b Hc Hb. rewrite Ha in Hb. apply before_next in Hb; [| by apply elem_of_dom_2 in Hi | by apply elem_of_dom_2 in Hc].
    destruct Hb as [Hb| ->]; [by apply (Hbef c) | by simplify_eq].
  - intros l s' _ (_ & _ & Hnone). by destruct (Hnone r ar Hr I).
Qed.

(** ** The initial pages *)

(** The pages that are marked so far fill the first slots of the first pool. *)
Definition marked (init : list Z) (cur : Z) (s : init_st E) : Prop :=
  state_ok init [] s /\ cur = Z.of_nat (length init) /\ pools s = 1.

Lemma mark_if (b : bool) init cur s i a0 j :
  marked init cur s -> T0 !! i = Some a0 -> roomy a0 -> in_area i (PgAlloc.len a0) j -> j ∉ init ->
  runs (if b then mark_initial i j cur else ret cur) s
    (fun cur' s' => marked (init ++ if b then [j] else []) cur' s').
Proof.
  intros (Hs & -> & Hp) Hi [Ht _] Hj Hji. destruct b; [| rewrite app_nil_r; by apply runs_ret].
  destruct (ki_global_mad_pool_list s) as [|[v p] rest] eqn:Hpools; [unfold pools in Hp; by rewrite Hpools in Hp |].
  destruct (mark_state T0 HT init [] s (Z.of_nat (length init)) v p rest i a0 j Hs Hi Hj) as (s' & E1 & Hs' & Hp'); [| by rewrite app_nil_r | done |].
  { intros ->. destruct (map_available _ HT _ _ Hi Ht) as (_ & _ & Hi00). pose proof (map_range _ HT _ _ Hi). unfold in_area in Hj. lia. }
  exists (Z.of_nat (length init) + 1), s'. split; [done |]. split_and!; [| rewrite length_app /=; lia | unfold pools in *; congruence].
  eapply state_ok_perm, Hs'. by rewrite Permutation_app_comm.
Qed.

Definition initial_pages (n : initial) : list Z :=
  (([init_madpool_paddr n] ++
   (if Z.testbit (initial_map_result n) 2 then [init_pgtab_pmad n] else [])) ++
   (if Z.testbit (initial_map_result n) 1 then [w64 (init_pgtab_pmad n + PAGESIZE * 1)] else [])) ++
   (if Z.testbit (initial_map_result n) 0 then [w64 (init_pgtab_pmad n + PAGESIZE * 2)] else []).

Lemma initial_pages_ok n j : is_initial n j = true <-> j ∈ initial_pages n.
Proof.
  unfold is_initial, initial_pages. rewrite !elem_of_app !orb_true_iff !andb_true_iff !Z.eqb_eq.
  rewrite (Z.mul_comm 1) (Z.mul_comm 2) list_elem_of_singleton.
  assert (Hb : forall (b : bool) y, j ∈ (if b then [y] else []) <-> b = true /\ j = y).
  { intros [] y; [rewrite list_elem_of_singleton; naive_solver |]. split; [by intros ?%not_elem_of_nil | by intros []]. }
  by rewrite !Hb.
Qed.

Lemma initial_pages_short n : (1 <= length (initial_pages n) <= 4)%nat.
Proof. unfold initial_pages. rewrite !length_app /=. repeat case_match; simpl; lia. Qed.

(** The initial pages are available memory. *)
Definition pages_available (init : list Z) : Prop := forall x, x ∈ init -> exists i a, T0 !! i = Some a /\
  PgAlloc.type a = MM_PHYSICAL_MEMORY_TYPE_AVAILABLE /\ x ∈ area_pages i (PgAlloc.len a).

Lemma initial_available n i a : T0 !! i = Some a -> roomy a -> init_pgtab_pmad n = i ->
  init_madpool_paddr n = w64 (i + 3 * PAGESIZE) -> pages_available (initial_pages n).
Proof.
  intros Hi [Ht Hlen] Hp Hm x Hx. exists i, a. split; [done |]. split; [done |]. apply in_area_pages.
  assert (Hlow : i + PgAlloc.len a < 2 ^ 46) by (apply (map_low _ HT _ _ Hi); by rewrite Ht).
  pose proof (map_range _ HT _ _ Hi) as (Hi0 & _ & _). unfold PAGESIZE in *.
  unfold initial_pages in Hx. rewrite Hm Hp !(w64_small (i + _)) in Hx; try (unfold in64, PAGESIZE; lia).
  unfold PAGESIZE in Hx.
  rewrite !elem_of_app list_elem_of_singleton in Hx. destruct Hx as [[[->|Hx]|Hx]|Hx]; [exists 3; lia | | |];
    (case_match; [apply list_elem_of_singleton in Hx as -> | by apply not_elem_of_nil in Hx]);
    [exists 0 | exists 1 | exists 2]; lia.
Qed.

(** There is an address for the first pool. *)
Definition early_room (s : init_st E) : Prop :=
  exists v e, mm_kvmalloc_early PAGESIZE (early s) = Ok (v, e) /\ v <> 0.

(** The first pool and its tables *)
Lemma first_pool_ok s : unprepared s -> early_room s -> (exists i a, T0 !! i = Some a /\ roomy a) ->
  runs (init_first_pool sizeof_hn_mad_t) s (fun r s' =>
    loop_ok T0 sizeof_hn_mad_t (initial_pages r.1) [] 0 (r.2, (0, 0, 0)) s' /\
    1 <= r.2 /\ pages_available (initial_pages r.1)).
Proof.
  intros Hun (va & e1 & Ev & Hv0) Hroom. pose proof Hun as [Ha Hm Hp]. unfold init_first_pool, runs.
  rewrite (bind_ok _ _ _ _ _ (in_early_ok (mm_kvmalloc_early PAGESIZE) s va e1 Ev)).
  rewrite (proj2 (Z.eqb_neq va 0) Hv0) /= bind_ret.
  destruct (search_ok (with_early s e1) Ha Hroom) as (l & s' & Es & -> & i & a & -> & Hi & Hr).
  rewrite (bind_ok _ _ _ _ _ Es) Z.eqb_refl. pose proof Hr as [Ht Hlen].
  assert (Hlow : i + PgAlloc.len a < 2 ^ 46) by (apply (map_low _ HT _ _ Hi); by rewrite Ht).
  pose proof (map_range _ HT _ _ Hi) as (Hi0 & _ & _). unfold PAGESIZE in Hlen.
  set (paddr := w64 (i + 3 * PAGESIZE)).
  destruct (mmap_total va paddr i (w64 (i + PAGESIZE)) (w64 (i + 2 * PAGESIZE)) e1) as (r & e2 & Em).
  rewrite (bind_ok _ _ _ _ _ (in_early_ok (hn_mm_mmap_early va paddr i (w64 (i + PAGESIZE)) (w64 (i + 2 * PAGESIZE))) (with_early s e1) r e2 Em)).
  erewrite bind_ok; [| reflexivity].
  assert (Hw : forall m, 0 <= m <= 3 -> w64 (i + PAGESIZE * m) = i + PAGESIZE * m).
  { intros m Hm'. apply w64_small. unfold in64, PAGESIZE. lia. }
  assert (Hw3 : paddr = i + PAGESIZE * 3) by (unfold paddr; rewrite (Z.mul_comm 3); by apply Hw).
  assert (Hin : forall m, 0 <= m <= 3 -> in_area i (PgAlloc.len a) (i + PAGESIZE * m)) by (unfold in_area, PAGESIZE; lia).
  assert (Hne : forall m m', m <> m' -> i + PAGESIZE * m <> i + PAGESIZE * m') by (unfold PAGESIZE; lia).
  assert (H0 : marked [] 0 (mkInit (pmads s) (ki_pmad_number s) ((va, mkPool 0 ∅) :: ki_global_mad_pool_list s)
    (direct_map_bases s) (direct_map_sizes s) e2)).
  { split_and!; [| done | by unfold pools; simpl; rewrite Hp]. by apply (state_ok_eq T0 [] [] s); [| by apply unprepared_ok]. }
  eapply runs_bind; [apply (mark_if true [] 0 _ i a paddr H0 Hi Hr); [rewrite Hw3; by apply Hin | apply not_elem_of_nil] |].
  intros c1 s1 H1. eapply runs_bind; [apply (mark_if _ _ _ _ i a i H1 Hi Hr) |].
  { specialize (Hin 0). rewrite Z.mul_0_r Z.add_0_r in Hin. by apply Hin. }
  { rewrite list_elem_of_singleton Hw3. unfold PAGESIZE. lia. }
  intros c2 s2 H2. eapply runs_bind; [apply (mark_if _ _ _ _ i a _ H2 Hi Hr) |].
  { rewrite Hw //. by apply Hin. }
  { rewrite Hw // Hw3 elem_of_app list_elem_of_singleton. unfold PAGESIZE.
    intros [?|Hx]; [lia |]. case_match; [apply list_elem_of_singleton in Hx; lia | by apply not_elem_of_nil in Hx]. }
  intros c3 s3 H3. eapply runs_bind; [apply (mark_if _ _ _ _ i a _ H3 Hi Hr) |].
  { rewrite Hw //. by apply Hin. }
  { rewrite !Hw // Hw3 app_nil_l !elem_of_app list_elem_of_singleton. unfold PAGESIZE.
    intros [[?|Hx]|Hx]; [lia | |]; (case_match; [apply list_elem_of_singleton in Hx; lia | by apply not_elem_of_nil in Hx]). }
  intros c4 s4 (Hs4 & -> & Hp4). apply runs_ret. pose proof (initial_pages_short (mkInitial paddr r i)) as Hshort.
  cbn [fst snd]. split; [| split; [exact (proj1 (Nat2Z.inj_le 1 _) (proj1 Hshort)) | by apply (initial_available _ i a)]].
  split; cbn [fst snd]; rewrite ?Hp4.
  - split; [by rewrite app_nil_r | constructor | by intros x ?%not_elem_of_nil].
  - done.
  - change (length (@nil Z)) with O. rewrite Nat.add_0_r Z.sub_diag Z.mul_0_l. done.
  - split; [lia |]. transitivity 4; [exact (proj1 (Nat2Z.inj_le _ 4) (proj2 Hshort)) | lia].
  - done.
  - by right.
  - unfold tables_ok, spare_ok. simpl. auto.
Qed.

End First.

End MmInitF.
