(* ===== verification/MmInitLoops.v ===== *)
(** * Bringing up the physical memory: the loops

    The loop over available memory keeps the invariant of [MmInitSteps]; the
    loop over the other areas gives each of them a free list of its own, as
    long as the newest pool has room for their descriptors. *)

From S2P Require Import Prelude MemConf OMap PgAlloc MmInit MmInitAreas MmInitSteps.
Import MemConf MmInit MmInitA MmInitS.

Module MmInitL.

Section Loops.
Context {E : Type} `{EL : EarlyLaws E} (T0 : gmap Z PgAlloc.ki_pmad_t).
Hypothesis HT : memory_map T0.
Context (sizeof_hn_mad_t : Z).
Abbreviation N := (kh_mad_pool_descs_num_per_page sizeof_hn_mad_t).
Hypothesis HN : 9 <= N.

Abbreviation areas s := (PgAlloc.ki_pmad_tree (pmads (E := E) s)).
Abbreviation mads s := (PgAlloc.mads (pmads (E := E) s)).
Abbreviation state_ok := (state_ok (E := E) T0).
Abbreviation avail_ok := (avail_ok (E := E) T0).
Abbreviation loop_ok := (loop_ok (E := E) T0 sizeof_hn_mad_t).

Lemma loop_shape init W k v s : loop_ok init W k v s -> shape T0 s.
Proof. intros [[Hs _ _] _ _ _ _ _ _]. apply Hs. Qed.

(** The pages of available memory, but for the initial ones *)
Definition usable (init : list Z) (x : Z) : Prop := exists i a, T0 !! i = Some a /\
  PgAlloc.type a = MM_PHYSICAL_MEMORY_TYPE_AVAILABLE /\ x ∈ area_pages i (PgAlloc.len a) /\ x ∉ init.

(** [W] has the pages of a set that are in front of a place. *)
Definition upto (U : Z -> Prop) (W : list Z) (p : option Z) : Prop := forall x, x ∈ W <-> U x /\ before p x.

(** The set has only pages of areas. *)
Definition homed (U : Z -> Prop) : Prop := forall x, U x -> exists i a, T0 !! i = Some a /\ in_area i (PgAlloc.len a) x.

Lemma usable_homed init : homed (usable init).
Proof. intros x (i & a & Hi & _ & Hx & _). exists i, a. split; [done | by apply area_pages_in]. Qed.

Lemma usable_aligned init x : usable init x -> x mod PAGESIZE = 0.
Proof.
  intros (i & a & Hi & Ht & (k & -> & _)%in_area_pages & _). destruct (map_available _ HT _ _ Hi Ht) as (Hm & _).
  unfold PAGESIZE in *. by rewrite Z.add_comm Z.mul_comm Z.add_comm Z_mod_plus_full.
Qed.

(** A page is in front of an area exactly when its own area is. *)
Lemma before_area p i a x : (forall c, p = Some c -> is_Some (T0 !! c)) -> T0 !! i = Some a -> in_area i (PgAlloc.len a) x ->
  before p x <-> before p i.
Proof.
  intros Hp Hi Hx. destruct p as [c|]; [| done]. simpl. destruct (Hp c eq_refl) as [a' Ha'].
  unfold in_area in Hx. split; [lia |]. intros Hc. pose proof (map_apart _ HT _ _ _ _ Hi Ha' Hc). lia.
Qed.

Lemma next_is_area (tr : gmap Z PgAlloc.ki_pmad_t) b c : dom tr = dom T0 -> fst <$> OMap.next b tr = Some c -> is_Some (T0 !! c).
Proof. intros Hd Hc. rewrite -elem_of_dom -Hd. by eapply in_next. Qed.

Lemma first_is_area (tr : gmap Z PgAlloc.ki_pmad_t) c : dom tr = dom T0 -> fst <$> OMap.first tr = Some c -> is_Some (T0 !! c).
Proof. intros Hd Hc. rewrite -elem_of_dom -Hd. by apply in_first. Qed.

(** Moving on to the next area *)
Lemma upto_next U W s i a : homed U -> shape T0 s -> T0 !! i = Some a ->
  (forall x, x ∈ W <-> U x /\ (x < i \/ in_area i (PgAlloc.len a) x)) ->
  upto U W (fst <$> OMap.next i (areas s)).
Proof.
  intros HU Hsh Hi HW x. rewrite HW. pose proof (shape_dom _ _ Hsh) as Hd.
  split; intros [Hu Hx]; (split; [done |]); destruct (HU x Hu) as (c & b & Hc & Hxc).
  - rewrite (before_area _ _ _ _ (fun c => next_is_area _ i c Hd) Hc Hxc).
    apply before_next; rewrite ?Hd; [by apply elem_of_dom_2 in Hi | by apply elem_of_dom_2 in Hc |].
    destruct Hx as [Hx|Hx]; [| right; by eapply home_unique]. left. simpl. unfold in_area in Hxc. lia.
  - rewrite (before_area _ _ _ _ (fun c => next_is_area _ i c Hd) Hc Hxc) in Hx.
    apply before_next in Hx; rewrite ?Hd; [| by apply elem_of_dom_2 in Hi | by apply elem_of_dom_2 in Hc].
    destruct Hx as [Hx| ->]; [left | right].
    + simpl in Hx. pose proof (map_apart _ HT _ _ _ _ Hc Hi Hx). unfold in_area in Hxc. lia.
    + by simplify_eq.
Qed.

(** Nothing is in front of the first area. *)
Lemma upto_first U s : homed U -> shape T0 s -> upto U [] (fst <$> OMap.first (areas s)).
Proof.
  intros HU Hsh x. pose proof (shape_dom _ _ Hsh) as Hd. split; [by intros ?%not_elem_of_nil |]. intros [Hu Hx]. exfalso.
  destruct (HU x Hu) as (c & b & Hc & Hxc).
  assert (Hcd : c ∈ dom (areas s)) by (rewrite Hd; by apply elem_of_dom_2 in Hc).
  apply (before_first (areas s) c Hcd), (before_area _ _ _ _ (fun d => first_is_area (areas s) d Hd) Hc Hxc), Hx.
Qed.

(** ** The pages of one available area *)

Context (n : initial) (init : list Z).
Hypothesis Hinit : (length init <= 4)%nat.
Hypothesis Hn : forall j, is_initial n j = true <-> j ∈ init.

Section Area.
Context (i : Z) (a0 : PgAlloc.ki_pmad_t).
Hypothesis Hi : T0 !! i = Some a0.
Hypothesis Ht : PgAlloc.type a0 = MM_PHYSICAL_MEMORY_TYPE_AVAILABLE.

Lemma avail_area : 0 <= i /\ i mod PAGESIZE = 0 /\ 0 < PgAlloc.len a0 /\ PgAlloc.len a0 mod PAGESIZE = 0 /\ i + PgAlloc.len a0 < 2 ^ 46.
Proof.
  destruct (map_range _ HT _ _ Hi) as (? & ? & _). destruct (map_available _ HT _ _ Hi Ht) as (? & ? & _).
  assert (i + PgAlloc.len a0 < 2 ^ 46) by (apply (map_low _ HT _ _ Hi); by rewrite Ht). done.
Qed.

Definition area_inv (x : Z * option Z * (Z * (Z * Z * Z))) (s : init_st E) : Prop :=
  let '(j, prev, v) := x in
  exists W k, loop_ok init W k v s /\ 1 <= v.1 /\ i <= j <= i + PgAlloc.len a0 /\ j mod PAGESIZE = 0 /\
    upto (usable init) W (Some j) /\ prev = last (filter (in_area i (PgAlloc.len a0)) W).

Lemma area_page j : i <= j < i + PgAlloc.len a0 -> j mod PAGESIZE = 0 -> j ∈ area_pages i (PgAlloc.len a0).
Proof.
  intros Hj Hm. destruct avail_area as (_ & Him & _ & _ & _). apply in_area_pages. exists ((j - i) / PAGESIZE).
  unfold PAGESIZE in *. pose proof (Z.div_mod j 4096 ltac:(lia)). pose proof (Z.div_mod i 4096 ltac:(lia)).
  replace (j - i) with ((j / 4096 - i / 4096) * 4096) by lia. rewrite Z.div_mul //. lia.
Qed.

Lemma upto_step W j : j mod PAGESIZE = 0 -> upto (usable init) W (Some j) ->
  forall x, x ∈ W \/ (x = j /\ usable init j) <-> usable init x /\ before (Some (j + PAGESIZE)) x.
Proof.
  intros Hm HW x. rewrite HW. simpl. unfold PAGESIZE in *. split.
  - intros [[Hu Hx]|[-> Hu]]; (split; [done | lia]).
  - intros [Hu Hx]. pose proof (usable_aligned _ _ Hu) as Hxm. unfold PAGESIZE in Hxm.
    destruct (Z.lt_ge_cases x j) as [?|Hge]; [by left; split | right].
    assert (x = j) as ->; [| done]. pose proof (Z.div_mod x 4096 ltac:(lia)). pose proof (Z.div_mod j 4096 ltac:(lia)). lia.
Qed.

Lemma available_round_ok x s : area_inv x s ->
  runs (available_round sizeof_hn_mad_t n i x) s (fun r s' =>
    match r with
    | inl y => area_inv y s' /\ y.1.1 = x.1.1 + PAGESIZE /\ x.1.1 < i + PgAlloc.len a0
    | inr v => exists W k, loop_ok init W k v s' /\ 1 <= v.1 /\ upto (usable init) W (Some (i + PgAlloc.len a0))
    end).
Proof.
  destruct x as [[j prev] v]. intros (W & k & Hl & Hv & Hj & Hm & HW & ->). destruct avail_area as (Hi0 & Him & Hl0 & Hlm & Hhi).
  pose proof (loop_state _ _ _ _ _ _ _ Hl) as Hs.
  destruct (shape_map _ _ _ _ (loop_shape _ _ _ _ _ Hl) Hi) as (a & Ha & Hlen & Hty).
  unfold available_round. unfold runs. rewrite (get_area_run _ _ _ _ Ha) Hlen.
  rewrite (w64_small (i + PgAlloc.len a0)); [unfold in64; lia |]. simpl.
  destruct (Z.ltb_spec j (i + PgAlloc.len a0)) as [Hlt|Hge].
  2:{ apply runs_ret. exists W, k. split; [done |]. split; [done |]. by replace (i + PgAlloc.len a0) with j by lia. }
  assert (Hjn : j + PAGESIZE <= i + PgAlloc.len a0 /\ (j + PAGESIZE) mod PAGESIZE = 0).
  { unfold PAGESIZE in *. pose proof (Z.div_mod j 4096 ltac:(lia)). pose proof (Z.div_mod i 4096 ltac:(lia)).
    pose proof (Z.div_mod (PgAlloc.len a0) 4096 ltac:(lia)). split; [lia |].
    replace (j + 4096) with ((j / 4096 + 1) * 4096) by lia. apply Z_mod_mult. }
  destruct Hjn as [Hjn Hjm]. assert (HP : 0 < PAGESIZE) by done. rewrite (w64_small (j + PAGESIZE)); [unfold in64, PAGESIZE in *; lia |].
  pose proof (upto_step _ _ Hm HW) as Hstep.
  destruct (is_initial n j) eqn:Hini.
  { apply runs_ret. split; [| split; [done | lia]]. exists W, k. split; [done |]. split; [done |]. split; [lia |]. split; [done |]. split; [| done].
    intros x. rewrite -Hstep. split; [by left |]. intros [?|[-> (? & ? & _ & _ & _ & Hnot)]]; [done |]. by apply Hn in Hini. }
  assert (Hjinit : j ∉ init) by (rewrite -Hn Hini; done).
  pose proof (area_page j ltac:(lia) Hm) as Hjp.
  eapply runs_bind; [by apply (new_pool_ok T0 HT sizeof_hn_mad_t HN init W k) |]. intros [cur t] s1 (k1 & Hl1 & Hcur).
  destruct Hl1 as [Hs1 Hp1 Hsl1 Hc1 Ht1 Hlf1 Htb1]. simpl in *.
  destruct (ki_global_mad_pool_list s1) as [|[va p] rest] eqn:Hpools; [unfold pools in Hp1; rewrite Hpools /= in Hp1; lia |].
  assert (HWj : Forall (fun y => y < j) W) by (apply Forall_forall; intros y [_ Hy]%HW; exact Hy).
  assert (Hk1 : (k1 <= length W)%nat) by lia.
  pose proof Hs1 as [Hst1 Hso1 Hho1].
  assert (HjW : j ∉ (init ++ take k1 W) ++ drop k1 W).
  { rewrite -app_assoc take_drop elem_of_app. intros [?|HjW%HW]; [done |]. destruct HjW as [_ HjW]. simpl in HjW. lia. }
  assert (Hj0 : j = 0 -> PgAlloc.type a0 <> MM_PHYSICAL_MEMORY_TYPE_AVAILABLE).
  { intros Hj0. destruct (map_available _ HT _ _ Hi Ht) as (_ & _ & Hi00). lia. }
  destruct (append_ok T0 HT _ _ s1 cur j va p rest i a0 Hst1 Hi (area_pages_in _ _ _ Hjp) Hj0 HjW Hpools)
    as (a1 & g & Ha1 & Hok & Hq & Hs2).
  unfold runs. rewrite (bind_ok _ _ _ _ _ (construct_desc_ok s1 cur j va p rest Hpools)).
  rewrite -(last_of_area W k1 i (PgAlloc.len a0) j Hso1 HWj (area_pages_in _ _ _ Hjp) Hlf1).
  rewrite (link_insert_ok s1 i a1 g j cur va p rest _ _ Hpools Ha1 Hok Hq).
  do 2 eexists. split; [reflexivity |]. split; [| split; [done | lia]].
  exists (W ++ [j]), k1. split_and!; [| simpl; lia | lia | lia | done | | ].
  - split; simpl; try done.
    + split; [by rewrite take_app_le // drop_app_le | by apply sorted_snoc |].
      intros x. rewrite elem_of_app list_elem_of_singleton. intros [?| ->]; [by apply Hho1 |].
      exists i, a0. split_and!; [done | done | by apply area_pages_in].
    + unfold pools in *. simpl. rewrite Hpools /= in Hp1. lia.
    + unfold pools in *. simpl. rewrite Hpools /= in Hsl1. rewrite length_app /=. lia.
    + lia.
    + unfold pools in *. simpl. rewrite Hpools /= in Ht1. lia.
    + rewrite length_app /=. lia.
    + eapply tables_keep, Htb1. intros c b x [Hb Hx]. unfold PgAlloc.page_of. simpl.
      destruct (decide (c = i)) as [->|Hne]; [| exists b; by rewrite lookup_insert_ne].
      rewrite lookup_insert_eq. eexists. split; [done |]. simpl. assert (b = a1) as -> by congruence. set_solver.
  - intros x. rewrite -Hstep elem_of_app list_elem_of_singleton. split; intros [?|?]; auto; [| tauto].
    right. split; [done |]. by exists i, a0.
  - rewrite filter_app filter_cons_True; [by apply area_pages_in |]. by rewrite filter_nil last_snoc.
Qed.

Lemma available_area_ok v s W k : loop_ok init W k v s -> 1 <= v.1 -> upto (usable init) W (Some i) ->
  runs (loop (pages_bound (PgAlloc.len a0)) (available_round sizeof_hn_mad_t n i) (i, None, v)) s
    (fun v' s' => exists W k, loop_ok init W k v' s' /\ 1 <= v'.1 /\ upto (usable init) W (Some (i + PgAlloc.len a0))).
Proof.
  intros Hl Hv HW. destruct avail_area as (Hi0 & Him & Hl0 & Hlm & Hhi).
  eapply (loop_rule area_inv (fun x => Z.to_nat ((i + PgAlloc.len a0 - x.1.1) / PAGESIZE))).
  - exists W, k. split_and!; [done | done | lia | lia | done | done |]. rewrite filter_nothing //.
    intros x [_ Hx]%HW. simpl in Hx. unfold in_area. lia.
  - simpl. unfold pages_bound. replace (i + PgAlloc.len a0 - i) with (PgAlloc.len a0) by lia.
    pose proof (Z.div_pos (PgAlloc.len a0) PAGESIZE ltac:(lia) ltac:(done)). lia.
  - intros x s1 Hx. eapply runs_mono; [by apply available_round_ok |]. intros [y|v'] s2 H2; [| done].
    destruct H2 as (Hy & Hj & Hlt). split; [done |].
    destruct y as [[j pv] v']. destruct Hy as (W' & k' & _ & _ & Hjr & Hjm & _). simpl in *. subst j.
    unfold PAGESIZE in *.
    pose proof (Z.div_mod (i + PgAlloc.len a0 - x.1.1) 4096 ltac:(lia)). pose proof (Z.mod_pos_bound (i + PgAlloc.len a0 - x.1.1) 4096 ltac:(lia)).
    replace (i + PgAlloc.len a0 - (x.1.1 + 4096)) with (i + PgAlloc.len a0 - x.1.1 + (-1) * 4096) by lia.
    rewrite Z.div_add; [lia |]. lia.
Qed.

End Area.

(** ** All available areas *)

Definition at_area (p : option Z) (v : Z * (Z * Z * Z)) (s : init_st E) : Prop :=
  exists W k, loop_ok init W k v s /\ 1 <= v.1 /\ upto (usable init) W p.

Lemma describe_available_ok i v s : is_Some (T0 !! i) -> at_area (Some i) v s ->
  runs (describe_available sizeof_hn_mad_t n i v) s (fun r s' => dom (areas s') = dom T0 /\
    match r with inl v' => at_area (fst <$> OMap.next i (areas s')) v' s' | inr _ => False end).
Proof.
  intros [a0 Hi] (W & k & Hl & Hv & HW). pose proof (loop_shape _ _ _ _ _ Hl) as Hsh.
  destruct (shape_map _ _ _ _ Hsh Hi) as (a & Ha & Hlen & Hty).
  unfold describe_available, runs. rewrite (get_area_run _ _ _ _ Ha) Hty Hlen.
  destruct (Z.eqb_spec (PgAlloc.type a0) MM_PHYSICAL_MEMORY_TYPE_AVAILABLE) as [Ht|Ht]; simpl.
  - eapply runs_bind; [by apply (available_area_ok i a0 Hi Ht v s W k) |]. intros v' s' (W' & k' & Hl' & Hv' & HW').
    apply runs_ret. pose proof (loop_shape _ _ _ _ _ Hl') as Hsh'.
    split; [by apply shape_dom |]. exists W', k'. split; [done |]. split; [done |]. apply (upto_next _ _ _ _ a0 (usable_homed init) Hsh' Hi).
    intros x. rewrite (HW' x). simpl. unfold in_area. pose proof (map_range _ HT _ _ Hi).
    split; intros [? ?]; (split; [done | lia]).
  - apply runs_ret. split; [by apply shape_dom |]. exists W, k. split; [done |]. split; [done |]. apply (upto_next _ _ _ _ a0 (usable_homed init) Hsh Hi).
    intros x. rewrite (HW x). simpl. split; intros [Hu Hx]; (split; [done |]); [by left |].
    destruct Hx as [Hx|Hx]; [done |]. destruct Hu as (c & b & Hc & Htc & Hxc%area_pages_in & _).
    assert (c = i) as -> by (by eapply home_unique). by simplify_eq.
Qed.

(** Afterwards every page of available memory has a descriptor. *)
Lemma all_available_ok v s : loop_ok init [] 0 v s -> 1 <= v.1 ->
  runs (KI_PMAD_FOREACH (describe_available sizeof_hn_mad_t n) v) s (at_area None).
Proof.
  intros Hl Hv. pose proof (loop_shape _ _ _ _ _ Hl) as Hsh. pose proof (shape_dom _ _ Hsh) as Hd.
  eapply (foreach_rule (dom T0) (fun p v s => at_area p v s)); [done | | |].
  - exists [], O. split; [done |]. split; [done |]. apply upto_first; [apply usable_homed | done].
  - intros b v1 s1 Hb _ H1. eapply runs_mono; [apply describe_available_ok; [by apply elem_of_dom | done] |].
    intros [v2|v2] s2 [? H2]; [done | done].
  - done.
Qed.

End Loops.

End MmInitL.
