(* ===== verification/MmInitOthers.v ===== *)
(** * Bringing up the physical memory: the other areas

    The loop over the areas that are neither available nor critical gives each
    of them a free list of all its pages, as long as the newest pool has room
    for the descriptors. *)

From S2P Require Import Prelude MemConf OMap PgAlloc MmInit MmInitAreas MmInitSteps MmInitLoops.
Import MemConf MmInit MmInitA MmInitS MmInitL.

Module MmInitO.

(** The pages of the areas of some types *)
Definition pages_where (p : Z -> bool) (tr : gmap Z PgAlloc.ki_pmad_t) : gset Z :=
  list_to_set (mjoin ((fun '(b, a) => if p (PgAlloc.type a) then area_pages b (PgAlloc.len a) else []) <$> map_to_list tr)).

Lemma elem_of_pages_where p tr x : x ∈ pages_where p tr <->
  exists b a, tr !! b = Some a /\ p (PgAlloc.type a) = true /\ x ∈ area_pages b (PgAlloc.len a).
Proof.
  unfold pages_where. rewrite elem_of_list_to_set list_elem_of_join. split.
  - intros (l & Hx & Hl). apply list_elem_of_fmap in Hl as ([b a] & -> & Hba%elem_of_map_to_list). exists b, a.
    destruct (p (PgAlloc.type a)); [done | by apply not_elem_of_nil in Hx].
  - intros (b & a & Hb & Hp & Hx). exists (area_pages b (PgAlloc.len a)). split; [done |].
    apply list_elem_of_fmap. exists (b, a). rewrite Hp. split; [done |]. by apply elem_of_map_to_list.
Qed.

Definition is_available (t : Z) : bool := t =? MM_PHYSICAL_MEMORY_TYPE_AVAILABLE.
Definition is_other (t : Z) : bool := negb ((t =? MM_PHYSICAL_MEMORY_TYPE_AVAILABLE) || (t =? MM_PHYSICAL_MEMORY_TYPE_CRITICAL)).

Section Others.
Context {E : Type} `{EL : EarlyLaws E} (T0 : gmap Z PgAlloc.ki_pmad_t).
Hypothesis HT : memory_map T0.
Context (sizeof_hn_mad_t : Z).
Abbreviation N := (kh_mad_pool_descs_num_per_page sizeof_hn_mad_t).

Abbreviation areas s := (PgAlloc.ki_pmad_tree (pmads (E := E) s)).
Abbreviation mads s := (PgAlloc.mads (pmads (E := E) s)).
Abbreviation state_ok := (state_ok (E := E) T0).

Definition other_page (x : Z) : Prop := x ∈ pages_where is_other T0.

Lemma other_homed : homed T0 other_page.
Proof.
  intros x (b & a & Hb & _ & Hx)%elem_of_pages_where. exists b, a. split; [done | by apply area_pages_in].
Qed.

(** [D] and [F] are the pages that had their descriptors before; the pool then
    had [cur0] of them. *)
Context (D F : list Z) (cur0 : Z) (t0 : Z * Z * Z).
Hypothesis HF : forall x, x ∈ D ++ F -> available_home T0 x.
Hypothesis Hroom : cur0 + Z.of_nat (size (pages_where is_other T0)) <= N.

(** [X] are the pages that the loop gave descriptors. *)
Record others_ok (X : list Z) (v : Z * (Z * Z * Z)) (s : init_st E) : Prop := {
  oth_state : state_ok D (F ++ X) s;
  oth_sorted : StronglySorted Z.lt X;
  oth_pages : forall x, x ∈ X -> other_page x;
  oth_cur : v.1 = cur0 + Z.of_nat (length X);
  oth_tables : v.2 = t0 /\ tables_ok t0 s;
  oth_pools : ki_global_mad_pool_list s <> []
}.

Lemma others_nodup X v s : others_ok X v s -> NoDup X.
Proof. intros [Hs _ _ _ _ _]. pose proof (st_nodup _ _ _ _ Hs) as Hn. rewrite !list.NoDup_app in Hn. tauto. Qed.

(** There is room for a page that is still to come. *)
Lemma others_room X v s j : others_ok X v s -> other_page j -> j ∉ X -> v.1 < N.
Proof.
  intros Ho Hj HjX. pose proof (others_nodup _ _ _ Ho) as Hn. destruct Ho as [_ _ Hp -> _ _].
  assert (Hsz : (length (j :: X) <= size (pages_where is_other T0))%nat).
  { rewrite -(size_list_to_set (C := gset Z) (j :: X)); [by constructor |]. apply subseteq_size.
    intros x. rewrite elem_of_list_to_set elem_of_cons. intros [->|Hx]; [done | by apply Hp]. }
  simpl in Hsz. lia.
Qed.

Section Area.
Context (i : Z) (a0 : PgAlloc.ki_pmad_t).
Hypothesis Hi : T0 !! i = Some a0.
Hypothesis Ht : is_other (PgAlloc.type a0) = true.

Lemma other_area : 0 <= i /\ 0 < PgAlloc.len a0 /\ i + PgAlloc.len a0 < 2 ^ 46 /\
  PgAlloc.type a0 <> MM_PHYSICAL_MEMORY_TYPE_AVAILABLE.
Proof.
  destruct (map_range _ HT _ _ Hi) as (? & ? & _). pose proof Ht as Hto. unfold is_other in Hto.
  rewrite negb_true_iff orb_false_iff !Z.eqb_neq in Hto. destruct Hto as [Ht1 Ht2].
  by pose proof (map_low _ HT _ _ Hi Ht2).
Qed.

Lemma other_page_of j : j ∈ area_pages i (PgAlloc.len a0) -> other_page j.
Proof. intros Hj. apply elem_of_pages_where. by exists i, a0. Qed.

(** The pages of this area are not those of available memory. *)
Lemma other_off j : in_area i (PgAlloc.len a0) j -> j ∉ D ++ F.
Proof.
  intros Hj HD. destruct (HF _ HD) as (c & b & Hc & Htc & Hjc). destruct other_area as (_ & _ & _ & Hta).
  assert (c = i) as -> by (by eapply (home_unique T0 HT)). by simplify_eq.
Qed.

(** The descriptor of the page before is in the slot before. *)
Definition slot_before (j cur : Z) (s : init_st E) : Prop :=
  j = i \/ exists v p rest, ki_global_mad_pool_list s = (v, p) :: rest /\ descs p !! (cur - 1) = Some (j - PAGESIZE).

Definition other_inv (x : Z * (Z * (Z * Z * Z))) (s : init_st E) : Prop :=
  let '(j, v) := x in
  exists X m, others_ok X v s /\ j = i + PAGESIZE * m /\ 0 <= m /\ j < 2 ^ 47 /\
    (forall x, x ∈ X <-> other_page x /\ (x < i \/ in_area i (PgAlloc.len a0) x /\ x < j)) /\
    last (filter (in_area i (PgAlloc.len a0)) X) = (if j =? i then None else Some (j - PAGESIZE)) /\
    slot_before j v.1 s.

Lemma other_in_area x : other_page x -> in_area i (PgAlloc.len a0) x -> x ∈ area_pages i (PgAlloc.len a0).
Proof.
  intros (b & a & Hb & _ & Hx)%elem_of_pages_where Hin.
  assert (b = i) as -> by (eapply (home_unique T0 HT); [done | done | by apply area_pages_in | done]). by simplify_eq.
Qed.

Lemma desc_before_ok j cur s va p rest : ki_global_mad_pool_list s = (va, p) :: rest -> slot_before j cur s ->
  desc_before i j cur (constructed s cur j va p rest) =
    Ok (if j =? i then None else Some (j - PAGESIZE), constructed s cur j va p rest).
Proof.
  intros Hp Hs. unfold desc_before. destruct (Z.eqb_spec j i) as [->|Hne]; [done |].
  destruct Hs as [?|(v' & p' & rest' & Hp' & Hd)]; [done |].
  rewrite Hp in Hp'. injection Hp' as <- <- <-.
  unfold desc_at, bind. simpl. rewrite lookup_insert_ne; [lia |]. by rewrite Hd.
Qed.

Lemma other_round_ok x s : other_inv x s ->
  runs (other_round sizeof_hn_mad_t i x) s (fun r s' =>
    match r with
    | inl y => other_inv y s' /\ y.1 = x.1 + PAGESIZE /\ x.1 < i + PgAlloc.len a0
    | inr v => exists X, others_ok X v s' /\
        forall x, x ∈ X <-> other_page x /\ (x < i \/ in_area i (PgAlloc.len a0) x)
    end).
Proof.
  destruct x as [j [cur t]]. intros (X & m & Ho & Hj & Hm & Hj47 & HX & Hlast & Hslot).
  destruct other_area as (Hi0 & Hl0 & Hhi & Hty0). assert (HP : PAGESIZE = 4096) by done.
  pose proof Ho as [Hs Hsort Hpg Hcur [Htt Htb] Hpl]. simpl in Hcur, Htt. subst t.
  destruct (shape_map _ _ _ _ (st_shape _ _ _ _ Hs) Hi) as (a & Ha & Hlen & Hty).
  unfold other_round, runs. rewrite (get_area_run _ _ _ _ Ha) Hlen.
  rewrite (w64_small (i + PgAlloc.len a0)); [unfold in64; lia |]. simpl.
  destruct (Z.ltb_spec j (i + PgAlloc.len a0)) as [Hlt|Hge].
  2:{ apply runs_ret. exists X. split; [done |]. intros x. rewrite HX. unfold in_area. split; intros [? ?]; (split; [done | lia]). }
  rewrite (w64_small (j + PAGESIZE)); [unfold in64; lia |].
  assert (Hjp : j ∈ area_pages i (PgAlloc.len a0)) by (apply in_area_pages; by exists m).
  pose proof (area_pages_in _ _ _ Hjp) as Hjin.
  assert (HjX : j ∉ X) by (rewrite HX; unfold in_area in Hjin; lia).
  pose proof (others_room _ _ _ _ Ho (other_page_of _ Hjp) HjX) as Hcn. simpl in Hcn.
  erewrite bind_ok; [| unfold new_pool; rewrite (proj2 (Z.leb_gt _ _) Hcn); reflexivity].
  destruct (ki_global_mad_pool_list s) as [|[va p] rest] eqn:Hpools; [done |].
  assert (HjF : j ∉ D ++ F ++ X).
  { rewrite app_assoc elem_of_app. intros [?|?]; [by apply (other_off j) | done]. }
  destruct (append_ok T0 HT D (F ++ X) s cur j va p rest i a0 Hs Hi Hjin ltac:(done) HjF Hpools)
    as (a1 & g & Ha1 & Hok & Hq & Hs2).
  rewrite (bind_ok _ _ _ _ _ (construct_desc_ok s cur j va p rest Hpools)).
  assert (Hprev : desc_before i j cur (constructed s cur j va p rest) =
    Ok (PgAlloc.lst (filter (in_area i (PgAlloc.len a0)) (F ++ X)) None, constructed s cur j va p rest)).
  { rewrite lst_last filter_app (filter_nothing _ F); [| by rewrite Hlast; exact (desc_before_ok j cur s va p rest Hpools Hslot)].
    intros x Hx Hxi. apply (other_off x Hxi). apply elem_of_app. by right. }
  rewrite (bind_ok _ _ _ _ _ Hprev).
  rewrite (link_insert_ok s i a1 g j cur va p rest _ _ Hpools Ha1 Hok Hq).
  do 2 eexists. split; [reflexivity |]. split; [| split; [done | lia]].
  exists (X ++ [j]), (m + 1). split_and!; [| lia | lia | lia | | |].
  - split; simpl.
    + by rewrite app_assoc.
    + apply sorted_snoc; [done |]. apply Forall_forall. intros x [_ Hx]%HX. lia.
    + intros x. rewrite elem_of_app list_elem_of_singleton. intros [?| ->]; [by apply Hpg | by apply other_page_of].
    + rewrite length_app /=. lia.
    + split; [done |]. eapply tables_keep, Htb. intros c b x [Hb Hx]. unfold PgAlloc.page_of. simpl.
      destruct (decide (c = i)) as [->|Hne]; [| exists b; by rewrite lookup_insert_ne].
      rewrite lookup_insert_eq. eexists. split; [done |]. simpl. assert (b = a1) as -> by congruence. set_solver.
    + done.
  - intros x. rewrite elem_of_app list_elem_of_singleton HX. split.
    + intros [[Hx Hxi]| ->]; (split; [done || by apply other_page_of |]).
      * destruct Hxi as [?|[? ?]]; [by left | right; split; [done | lia]].
      * right. split; [done | lia].
    + intros [Hx [Hxi|[Hxi Hxj]]]; [left; split; [done | by left] |].
      pose proof (proj1 (area_pages_step _ _ _ x Hjp) (conj (other_in_area _ Hx Hxi) Hxj)) as [[_ Hxlt]| ->]; [left | by right].
      split; [done | by right].
  - rewrite filter_app filter_cons_True // filter_nil last_snoc. rewrite (proj2 (Z.eqb_neq _ _)); [lia |]. f_equal. lia.
  - right. exists va, (mkPool (w64 (used_num p + 1)) (<[cur := j]> (descs p))), rest. split; [done |]. simpl.
    replace (cur + 1 - 1) with cur by lia. rewrite lookup_insert_eq. f_equal. lia.
Qed.

Lemma other_area_ok v s X : others_ok X v s -> upto other_page X (Some i) ->
  runs (loop (pages_bound (PgAlloc.len a0)) (other_round sizeof_hn_mad_t i) (i, v)) s
    (fun v' s' => exists X, others_ok X v' s' /\
       forall x, x ∈ X <-> other_page x /\ (x < i \/ in_area i (PgAlloc.len a0) x)).
Proof.
  intros Ho HX. destruct other_area as (Hi0 & Hl0 & Hhi & _). assert (HP : PAGESIZE = 4096) by done.
  eapply (loop_rule other_inv (fun x => Z.to_nat (npages (i + PgAlloc.len a0 - x.1)))).
  - exists X, 0. split_and!; [done | lia | done | lia | | | by left].
    + intros x. rewrite (HX x). simpl. split; intros [Hx Hxi]; (split; [done |]); [by left |].
      destruct Hxi as [?|[? ?]]; [done | lia].
    + rewrite Z.eqb_refl filter_nothing //. intros x [_ Hx]%HX. simpl in Hx. unfold in_area. lia.
  - simpl. unfold npages, pages_bound. rewrite HP. replace (i + PgAlloc.len a0 - i) with (PgAlloc.len a0) by lia.
    pose proof (Z.div_mod (PgAlloc.len a0 + (4096 - 1)) 4096 ltac:(lia)). pose proof (Z.mod_pos_bound (PgAlloc.len a0 + (4096 - 1)) 4096 ltac:(lia)).
    pose proof (Z.div_mod (PgAlloc.len a0) 4096 ltac:(lia)). pose proof (Z.mod_pos_bound (PgAlloc.len a0) 4096 ltac:(lia)). lia.
  - intros x s1 Hx. eapply runs_mono; [by apply other_round_ok |]. intros [y|v'] s2 H2; [| done].
    destruct H2 as (Hy & Hj & Hlt). split; [done |]. rewrite Hj. unfold npages. rewrite HP.
    set (d := i + PgAlloc.len a0 - x.1). replace (i + PgAlloc.len a0 - (x.1 + 4096) + (4096 - 1)) with (d + (4096 - 1) + (-1) * 4096) by lia.
    rewrite Z.div_add; [lia |]. pose proof (Z.div_mod (d + (4096 - 1)) 4096 ltac:(lia)).
    pose proof (Z.mod_pos_bound (d + (4096 - 1)) 4096 ltac:(lia)). lia.
Qed.

End Area.

Definition others_at (p : option Z) (v : Z * (Z * Z * Z)) (s : init_st E) : Prop :=
  exists X, others_ok X v s /\ upto other_page X p.

Lemma describe_other_ok i v s : is_Some (T0 !! i) -> others_at (Some i) v s ->
  runs (describe_other sizeof_hn_mad_t i v) s (fun r s' => dom (areas s') = dom T0 /\
    match r with inl v' => others_at (fst <$> OMap.next i (areas s')) v' s' | inr _ => False end).
Proof.
  intros [a0 Hi] (X & Ho & HX). pose proof (st_shape _ _ _ _ (oth_state _ _ _ Ho)) as Hsh.
  destruct (shape_map _ _ _ _ Hsh Hi) as (a & Ha & Hlen & Hty).
  unfold describe_other, runs. rewrite (get_area_run _ _ _ _ Ha) Hty Hlen.
  destruct (is_other (PgAlloc.type a0)) eqn:Ht; pose proof Ht as Htb; unfold is_other in Htb.
  - apply negb_true_iff in Htb. rewrite Htb.
    eapply runs_bind; [by apply (other_area_ok i a0 Hi Ht v s X) |]. intros v' s' (X' & Ho' & HX').
    apply runs_ret. pose proof (st_shape _ _ _ _ (oth_state _ _ _ Ho')) as Hsh'.
    split; [by apply shape_dom |]. exists X'. split; [done |].
    by apply (upto_next T0 HT _ _ _ _ a0 other_homed Hsh' Hi).
  - apply negb_false_iff in Htb. rewrite Htb. apply runs_ret. split; [by apply shape_dom |]. exists X. split; [done |].
    apply (upto_next T0 HT _ _ _ _ a0 other_homed Hsh Hi).
    intros x. rewrite (HX x). simpl. split; intros [Hu Hx]; (split; [done |]); [by left |].
    destruct Hx as [Hx|Hx]; [done |]. apply elem_of_pages_where in Hu as (c & b & Hc & Htc & Hxc%area_pages_in).
    assert (c = i) as -> by (by eapply (home_unique T0 HT)). simplify_eq. by rewrite Ht in Htc.
Qed.

(** Afterwards every page of these areas has a descriptor, and is free. *)
Lemma all_others_ok s : state_ok D F s -> tables_ok t0 s -> ki_global_mad_pool_list s <> [] ->
  runs (KI_PMAD_FOREACH (describe_other sizeof_hn_mad_t) (cur0, t0)) s (others_at None).
Proof.
  intros Hs Ht Hp. pose proof (st_shape _ _ _ _ Hs) as Hsh.
  eapply (foreach_rule (dom T0) others_at); [by apply shape_dom | | |].
  - exists []. split; [| by apply (upto_first T0 HT); [apply other_homed | done]].
    split; simpl; [by rewrite app_nil_r | constructor | by intros x ?%not_elem_of_nil | lia | done | done].
  - intros b v1 s1 Hb _ H1. eapply runs_mono; [apply describe_other_ok; [by apply elem_of_dom | done] |].
    intros [v2|v2] s2 [? H2]; [done | done].
  - done.
Qed.

End Others.

End MmInitO.
