(* ===== verification/MmInitDirect.v ===== *)
(** * Bringing up the physical memory: the direct mapping

    Every area but the critical ones gets a range of its own in the window of
    the direct mapping, unless memory for page tables runs out. *)

From S2P Require Import Prelude MemConf OMap PgAlloc MmInit MmInitAreas MmInitSteps.
Import MemConf MmInit MmInitA MmInitS.

Module MmInitD.

Section Direct.
Context {E : Type} `{EL : EarlyLaws E} (T0 : gmap Z PgAlloc.ki_pmad_t).
Hypothesis HT : memory_map T0.

Abbreviation areas s := (PgAlloc.ki_pmad_tree (pmads (E := E) s)).

(** ** Tables for the early mapping

    Pages come and go; the areas and the bases of the direct mapping stay. *)
Record moved (s s' : init_st E) : Prop := {
  mv_inv : PgAlloc.pg_inv (pmads s');
  mv_layout : PgAlloc.layout (pmads s') = PgAlloc.layout (pmads s);
  mv_bases : direct_map_bases s' = direct_map_bases s;
  mv_sizes : direct_map_sizes s' = direct_map_sizes s
}.

Lemma moved_refl s : PgAlloc.pg_inv (pmads s) -> moved s s.
Proof. by split. Qed.

Lemma moved_trans s1 s2 s3 : moved s1 s2 -> moved s2 s3 -> moved s1 s3.
Proof. intros [? ? ? ?] [? ? ? ?]. split; congruence. Qed.

Lemma moved_pages s s' : moved s s' -> keeps_pages s s'.
Proof. intros [_ Hl _ _] i a x Hx. by eapply PgAlloc.layout_page. Qed.

Lemma take_moved s : PgAlloc.pg_inv (pmads s) -> ends take_page s (fun x s' => moved s s' /\ spare_ok s' x).
Proof.
  intros Hi. destruct (PgAlloc.pgalloc_holds _ MM_PHYSICAL_MEMORY_TYPE_AVAILABLE Hi) as (r & P & E1 & Hi' & Hcase).
  pose proof (PgAlloc.keeps_pgalloc _ _ _ _ E1) as Hl. unfold take_page.
  destruct Hcase as [(-> & -> & _)|(b & a & Hp & _ & Hr & _)].
  - left. by rewrite (bind_ok _ _ _ _ _ (in_pmads_ok _ _ _ _ E1)).
  - right. unfold runs. rewrite (bind_ok _ _ _ _ _ (in_pmads_ok _ _ _ _ E1)) (proj2 (Z.eqb_neq _ _) Hr).
    eexists _, _. split; [reflexivity |]. split; [by split |]. right.
    destruct (PgAlloc.layout_page _ P _ _ _ Hl Hp) as [a' Hp']. by exists b, a'.
Qed.

Lemma reserve_moved s p : PgAlloc.pg_inv (pmads s) -> spare_ok s p ->
  ends (reserve p) s (fun q s' => moved s s' /\ spare_ok s' q).
Proof.
  intros Hi Hp. unfold reserve. destruct (negb (p =? 0)); [| by apply take_moved].
  apply ends_ret. split; [by apply moved_refl | done].
Qed.

Lemma reserve_tables_moved s t : PgAlloc.pg_inv (pmads s) -> tables_ok t s ->
  ends (reserve_tables t) s (fun t' s' => moved s s' /\ tables_ok t' s').
Proof.
  destruct t as [[t2 t1] t0]. intros Hi (H2 & H1 & H0). unfold reserve_tables. simpl in *.
  eapply ends_bind; [by apply reserve_moved |]. intros q2 s2 [M2 S2]. pose proof (moved_pages _ _ M2) as K2.
  eapply ends_bind; [apply reserve_moved; [apply M2 | by apply (spare_keep s)] |]. intros q1 s1 [M1 S1].
  pose proof (moved_pages _ _ M1) as K1.
  eapply ends_bind; [apply reserve_moved; [apply M1 | by apply (spare_keep s2), (spare_keep s)] |]. intros q0 s0 [M0 S0].
  pose proof (moved_pages _ _ M0) as K0. apply ends_ret.
  split; [eapply moved_trans, moved_trans; done |]. unfold tables_ok. simpl.
  split_and!; [by apply (spare_keep s1), (spare_keep s2) | by apply (spare_keep s1) | done].
Qed.

Lemma map_early_moved s va pa t : PgAlloc.pg_inv (pmads s) -> tables_ok t s ->
  runs (map_early va pa t) s (fun t' s' => moved s s' /\ tables_ok t' s').
Proof.
  intros Hi Ht. destruct (map_early_ok va pa t s) as (r & e & E1).
  exists (unused r t), (with_early s e). split; [done |]. split; [by split |].
  by apply (tables_keep _ s); [apply keeps_pages_eq | apply tables_unused].
Qed.

Lemma free_table_moved s p : PgAlloc.pg_inv (pmads s) -> spare_ok s p ->
  runs (free_table p) s (fun _ s' => moved s s').
Proof.
  intros Hi Hp. unfold free_table, runs. destruct (Z.eqb_spec p 0) as [->|Hp0]; simpl.
  { exists tt, s. split; [done | by apply moved_refl]. }
  destruct Hp as [?|(i & a & Hp)]; [done |].
  destruct (PgAlloc.free_ok _ _ _ _ Hi Hp) as (r & P & _ & E1 & Hi' & _).
  pose proof (PgAlloc.keeps_set_page_free _ _ _ _ E1) as Hlay.
  rewrite (in_pmads_ok _ _ _ _ E1). exists tt, (with_pmads s P). split; [done |]. by split.
Qed.

Lemma free_tables_moved s t : PgAlloc.pg_inv (pmads s) -> tables_ok t s ->
  runs (free_tables t) s (fun _ s' => moved s s').
Proof.
  destruct t as [[t2 t1] t0]. intros Hi (H2 & H1 & H0). unfold free_tables. simpl in *.
  eapply runs_bind; [by apply free_table_moved |]. intros [] s2 M2. pose proof (moved_pages _ _ M2) as K2.
  eapply runs_bind; [apply free_table_moved; [apply M2 | by apply (spare_keep s)] |]. intros [] s1 M1.
  pose proof (moved_pages _ _ M1) as K1.
  eapply runs_mono; [apply free_table_moved; [apply M1 | by apply (spare_keep s2), (spare_keep s)] |].
  intros [] s0 M0. eapply moved_trans, moved_trans; done.
Qed.

(** ** The pages of one area *)

Lemma direct_loop_ok i base size t s : 0 <= size < 2 ^ 47 -> PgAlloc.pg_inv (pmads s) -> tables_ok t s ->
  ends (loop (pages_bound size) (direct_round i base size) (0, t)) s (fun t' s' => moved s s' /\ tables_ok t' s').
Proof.
  intros Hsize Hi Ht. assert (HP : PAGESIZE = 4096) by done.
  eapply (loop_ends (fun x s' => 0 <= x.1 < 2 ^ 48 /\ moved s s' /\ tables_ok x.2 s') (fun x => Z.to_nat (npages (size - x.1)))).
  - split; [simpl; lia |]. split; [by apply moved_refl | done].
  - unfold npages, pages_bound. rewrite HP. simpl. rewrite Z.sub_0_r.
    pose proof (Z.div_mod (size + (4096 - 1)) 4096 ltac:(lia)). pose proof (Z.mod_pos_bound (size + (4096 - 1)) 4096 ltac:(lia)).
    pose proof (Z.div_mod size 4096 ltac:(lia)). pose proof (Z.mod_pos_bound size 4096 ltac:(lia)). lia.
  - intros [j t1] s1 (Hj & M1 & Ht1). simpl in *. destruct (Z.ltb_spec j size) as [Hlt|Hge].
    2:{ by apply ends_ret. }
    eapply ends_bind; [apply reserve_tables_moved; [apply M1 | done] |]. intros t2 s2 [M2 Ht2].
    eapply ends_bind; [apply runs_ends, map_early_moved; [apply M2 | done] |]. intros t3 s3 [M3 Ht3].
    apply ends_ret. rewrite w64_small; [unfold in64; lia |]. split.
    + split; [simpl; lia |]. split; [| done]. eapply moved_trans, moved_trans; done.
    + simpl. unfold npages. rewrite HP. replace (size - (j + 4096) + (4096 - 1)) with (size - j + (4096 - 1) + (-1) * 4096) by lia.
      rewrite Z.div_add; [lia |]. pose proof (Z.div_mod (size - j + (4096 - 1)) 4096 ltac:(lia)).
      pose proof (Z.mod_pos_bound (size - j + (4096 - 1)) 4096 ltac:(lia)). lia.
Qed.

(** ** All areas *)

(** The areas in front of a place have their ranges, below [top]. *)
Record placed (p : option Z) (top : Z) (s : init_st E) : Prop := {
  pl_critical : forall b a, T0 !! b = Some a -> before p b -> PgAlloc.type a = MM_PHYSICAL_MEMORY_TYPE_CRITICAL ->
    direct_map_bases s !! b = Some 0 /\ direct_map_sizes s !! b = Some 0;
  pl_mapped : forall b a, T0 !! b = Some a -> before p b -> PgAlloc.type a <> MM_PHYSICAL_MEMORY_TYPE_CRITICAL ->
    exists d, direct_map_bases s !! b = Some d /\ direct_map_sizes s !! b = Some (PgAlloc.len a) /\
      DIRECTPHYMEM_VBASE <= d /\ d + PgAlloc.len a <= top;
  pl_apart : forall b1 a1 b2 a2 d1 d2, T0 !! b1 = Some a1 -> T0 !! b2 = Some a2 -> b1 < b2 -> before p b2 ->
    PgAlloc.type a1 <> MM_PHYSICAL_MEMORY_TYPE_CRITICAL -> PgAlloc.type a2 <> MM_PHYSICAL_MEMORY_TYPE_CRITICAL ->
    direct_map_bases s !! b1 = Some d1 -> direct_map_bases s !! b2 = Some d2 -> d1 + PgAlloc.len a1 <= d2
}.

Lemma placed_moved p top s s' : moved s s' -> placed p top s -> placed p top s'.
Proof. intros [_ _ Hb Hs] [H1 H2 H3]. split; rewrite ?Hb ?Hs; done. Qed.

(** The next area, after it got its range *)
Definition at_step (i : Z) (p' : option Z) : Prop := forall b a, T0 !! b = Some a -> before p' b <-> b < i \/ b = i.

Definition mapped_at (s : init_st E) (i d size : Z) : init_st E :=
  mkInit (pmads s) (ki_pmad_number s) (ki_global_mad_pool_list s)
    (<[i := d]> (direct_map_bases s)) (<[i := size]> (direct_map_sizes s)) (early s).

Lemma placed_critical i a p' top s : T0 !! i = Some a -> PgAlloc.type a = MM_PHYSICAL_MEMORY_TYPE_CRITICAL ->
  at_step i p' -> placed (Some i) top s -> placed p' top (mapped_at s i 0 0).
Proof.
  intros Hi Ht Hp [Hc Hm Ha]. split; simpl.
  - intros b a' Hb [Hlt| ->]%(Hp b a' Hb) Ht'; [rewrite !lookup_insert_ne; try lia; by apply (Hc b a') | by rewrite !lookup_insert_eq].
  - intros b a' Hb [Hlt| ->]%(Hp b a' Hb) Ht'; [| simplify_eq; done]. rewrite !lookup_insert_ne; try lia. by apply Hm.
  - intros b1 a1 b2 a2 d1 d2 H1 H2 Hlt [Hlt2| ->]%(Hp b2 a2 H2) Ht1 Ht2; [| by simplify_eq].
    rewrite !lookup_insert_ne; try lia. by apply (Ha b1 a1 b2 a2).
Qed.

Lemma placed_mapped i a p' top s : T0 !! i = Some a -> PgAlloc.type a <> MM_PHYSICAL_MEMORY_TYPE_CRITICAL ->
  at_step i p' -> DIRECTPHYMEM_VBASE <= top -> placed (Some i) top s ->
  placed p' (top + PgAlloc.len a) (mapped_at s i top (PgAlloc.len a)).
Proof.
  intros Hi Ht Hp Htop [Hc Hm Ha]. destruct (map_range _ HT _ _ Hi) as (_ & Hlen & _). split; simpl.
  - intros b a' Hb [Hlt| ->]%(Hp b a' Hb) Ht'; [| by simplify_eq]. rewrite !lookup_insert_ne; try lia. by apply (Hc b a').
  - intros b a' Hb [Hlt| ->]%(Hp b a' Hb) Ht'.
    + rewrite !lookup_insert_ne; try lia. destruct (Hm b a' Hb Hlt Ht') as (d & ? & ? & ? & ?). exists d. split_and!; try done; lia.
    + simplify_eq. exists top. rewrite !lookup_insert_eq. split_and!; [done | done | done | lia].
  - intros b1 a1 b2 a2 d1 d2 H1 H2 Hlt [Hlt2| ->]%(Hp b2 a2 H2) Ht1 Ht2.
    + rewrite !lookup_insert_ne; try lia. by apply (Ha b1 a1 b2 a2).
    + rewrite lookup_insert_eq lookup_insert_ne; [lia |]. intros Hd1 [= <-].
      destruct (Hm b1 a1 H1 Hlt Ht1) as (d & Hd & _ & _ & ?). by simplify_eq.
Qed.

Record direct_inv (L : gmap Z (Z * Z * gset Z)) (p : option Z) (x : Z * (Z * Z * Z)) (s : init_st E) : Prop := {
  di_inv : PgAlloc.pg_inv (pmads s);
  di_layout : PgAlloc.layout (pmads s) = L;
  di_shape : shape T0 s;
  di_tables : tables_ok x.2 s;
  di_placed : placed p x.1 s;
  di_window : DIRECTPHYMEM_VBASE <= x.1 <= DIRECTPHYMEM_VTOP;
  di_below : forall c, p = Some c -> x.1 <= DIRECTPHYMEM_VBASE + c
}.

Lemma shape_moved s s' : moved s s' -> shape T0 s -> shape T0 s'.
Proof.
  intros [_ Hl _ _] Hsh b. rewrite -(Hsh b). destruct (areas s !! b) as [a|] eqn:Hb.
  - destruct (layout_area _ _ b a Hl Hb) as (a' & -> & Hl' & Ht' & _). simpl. congruence.
  - by rewrite (layout_none _ _ b Hl Hb).
Qed.

Lemma step_next s i a : shape T0 s -> T0 !! i = Some a -> at_step i (fst <$> OMap.next i (areas s)).
Proof.
  intros Hsh Hi b a' Hb. pose proof (shape_dom _ _ Hsh) as Hd.
  apply before_next; rewrite Hd; [by apply elem_of_dom_2 in Hi | by apply elem_of_dom_2 in Hb].
Qed.

Lemma direct_area_ok L i x s : is_Some (T0 !! i) -> direct_inv L (Some i) x s ->
  ends (direct_area i x) s (fun r s' => dom (areas s') = dom T0 /\
    match r with inl x' => direct_inv L (fst <$> OMap.next i (areas s')) x' s' | inr _ => False end).
Proof.
  destruct x as [top t]. intros [a Hi] [Hinv Hlay Hsh Htb Hpl Hw Hbel]. cbn [fst snd] in *. specialize (Hbel i eq_refl).
  destruct (shape_map _ _ _ _ Hsh Hi) as (a' & Ha' & Hlen & Hty). destruct (map_range _ HT _ _ Hi) as (Hi0 & Hl0 & _).
  assert (Hnext : forall s' c, shape T0 s' -> fst <$> OMap.next i (areas s') = Some c -> i + PgAlloc.len a <= c).
  { intros s' c Hsh' Hc. pose proof (shape_dom _ _ Hsh') as Hd. pose proof (in_next _ _ _ Hc) as Hin. rewrite Hd in Hin.
    apply elem_of_dom in Hin as [ac Hac]. destruct (OMap.next i (areas s')) as [[c' ?]|] eqn:Hn; [| done].
    apply OMap.next_some in Hn as (_ & Hlt & _). injection Hc as ->. by apply (map_apart _ HT i a c ac). }
  unfold direct_area. unfold ends, runs. rewrite (get_area_run _ _ _ _ Ha') Hty Hlen.
  destruct (Z.eqb_spec (PgAlloc.type a) MM_PHYSICAL_MEMORY_TYPE_CRITICAL) as [Ht|Ht]; cbn [orb].
  { right. eexists _, (mapped_at s i 0 0). split; [reflexivity |]. split; [by apply (shape_dom _ s) |].
    split; cbn [fst snd]; try done.
    - exact (placed_critical i a _ _ s Hi Ht (step_next s i a Hsh Hi) Hpl).
    - intros c Hc. pose proof (Hnext s c Hsh Hc). lia. }
  pose proof (map_low _ HT _ _ Hi Ht) as Hlow. unfold DIRECTPHYMEM_VBASE, DIRECTPHYMEM_VTOP in Hw, Hbel.
  assert (Hlt : DIRECTPHYMEM_VTOP <=? top = false) by (apply Z.leb_gt; unfold DIRECTPHYMEM_VTOP; lia).
  assert (Hfit : w64 (DIRECTPHYMEM_VTOP - PgAlloc.len a) <? top = false).
  { rewrite w64_small; [unfold in64, DIRECTPHYMEM_VTOP; lia |]. apply Z.ltb_ge. unfold DIRECTPHYMEM_VTOP. lia. }
  rewrite Hlt Hfit. eapply (ends_bind (loop _ _ _)); [apply direct_loop_ok; [lia | done | done] |].
  intros t1 s1 [M1 Ht1]. pose proof (shape_moved _ _ M1 Hsh) as Hsh1. right.
  eexists _, (mapped_at s1 i top (PgAlloc.len a)). split; [reflexivity |]. split; [by apply (shape_dom _ s1) |].
  rewrite w64_small; [unfold in64; lia |]. split; cbn [fst snd].
  - apply M1.
  - simpl. rewrite (mv_layout _ _ M1). done.
  - done.
  - by apply (tables_keep _ s1); [apply keeps_pages_eq |].
  - exact (placed_mapped i a _ _ s1 Hi Ht (step_next s1 i a Hsh1 Hi) (proj1 Hw) (placed_moved _ _ s s1 M1 Hpl)).
  - unfold DIRECTPHYMEM_VBASE, DIRECTPHYMEM_VTOP. lia.
  - intros c Hc. pose proof (Hnext s1 c Hsh1 Hc). unfold DIRECTPHYMEM_VBASE. lia.
Qed.

(** Either memory for page tables runs out, or every area is mapped. *)
Lemma direct_map_ok s : PgAlloc.pg_inv (pmads s) -> shape T0 s ->
  ends init_direct_map s (fun _ s' => PgAlloc.pg_inv (pmads s') /\
    PgAlloc.layout (pmads s') = PgAlloc.layout (pmads s) /\ placed None DIRECTPHYMEM_VTOP s').
Proof.
  intros Hi Hsh. unfold init_direct_map.
  apply (ends_bind _ _ _ (direct_inv (PgAlloc.layout (pmads s)) None)).
  - eapply (foreach_ends (dom T0) (direct_inv (PgAlloc.layout (pmads s)))); [by apply shape_dom | | |].
    + split; cbn [fst snd]; try done.
      * unfold tables_ok, spare_ok. simpl. auto.
      * assert (Hno : forall b a, T0 !! b = Some a -> ~ before (fst <$> OMap.first (areas s)) b).
        { intros b a Hb%elem_of_dom_2. apply before_first. by rewrite (shape_dom _ _ Hsh). }
        split; intros; exfalso; eapply Hno; done.
      * intros c Hc%in_first. rewrite (shape_dom _ _ Hsh) in Hc. apply elem_of_dom in Hc as [a Ha].
        pose proof (map_range _ HT _ _ Ha). lia.
    + intros b x s1 Hb _ H1. eapply ends_mono; [apply direct_area_ok; [by apply elem_of_dom | done] |].
      intros [x2|x2] s2 [? H2]; done.
    + done.
  - intros [top t] s1 [Hinv Hlay Hsh1 Htb Hpl Hw _]. cbn [fst snd] in *.
    apply runs_ends. eapply runs_mono; [by apply free_tables_moved |]. intros [] s2 M2.
    split; [apply M2 |]. split; [by rewrite (mv_layout _ _ M2) |].
    apply (placed_moved _ _ s1); [done |]. destruct Hpl as [H1 H2 H3]. split; try done.
    intros b a Hb Hbe Ht. destruct (H2 b a Hb Hbe Ht) as (d & ? & ? & ? & ?). exists d. split_and!; try done. lia.
Qed.

End Direct.

End MmInitD.
