(* ===== verification/MmInitMap.v ===== *)
(** * Bringing up the physical memory: the memory map

    The areas that [hn_mm_init_pmadlist] makes from the boot loader's map. *)

From S2P Require Import Prelude MemConf OMap PgAlloc MmInit MmInitAreas MmInitSteps MmInitFirst.
Import MemConf MmInit MmInitA MmInitS MmInitF.

Module MmInitM.

(** ** What the map says

    The type of memory of an entry, and the areas it stands for: memory that
    begins at 0 keeps its first page apart. *)
Definition memory_type (t : memmap_type) : Z :=
  match t with
  | LIMINE_MEMMAP_USABLE | LIMINE_MEMMAP_BOOTLOADER_RECLAIMABLE => MM_PHYSICAL_MEMORY_TYPE_AVAILABLE
  | LIMINE_MEMMAP_ACPI_RECLAIMABLE | LIMINE_MEMMAP_ACPI_NVS => MM_PHYSICAL_MEMORY_TYPE_ACPI
  | LIMINE_MEMMAP_FRAMEBUFFER => MM_PHYSICAL_MEMORY_TYPE_HARDWARE
  | LIMINE_MEMMAP_EXECUTABLE_AND_MODULES => MM_PHYSICAL_MEMORY_TYPE_BOOTDATA
  | LIMINE_MEMMAP_RESERVED | unknown_type => MM_PHYSICAL_MEMORY_TYPE_CRITICAL
  | LIMINE_MEMMAP_BAD_MEMORY => MM_PHYSICAL_MEMORY_TYPE_BAD
  end.

Definition new_area (len type : Z) : PgAlloc.ki_pmad_t := PgAlloc.mkPmad len type None ∅.

Definition areas_of (e : limine_memmap_entry) : list (Z * PgAlloc.ki_pmad_t) :=
  let t := memory_type (entry_type e) in
  if (t =? MM_PHYSICAL_MEMORY_TYPE_AVAILABLE) && (entry_base e =? 0) then
    [(0, new_area PAGESIZE MM_PHYSICAL_MEMORY_TYPE_HARDWARE); (PAGESIZE, new_area (entry_length e - PAGESIZE) t)]
  else [(entry_base e, new_area (entry_length e) t)].

Definition memory_of (entries : list limine_memmap_entry) : gmap Z PgAlloc.ki_pmad_t :=
  list_to_map (mjoin (areas_of <$> entries)).

(** What the protocol of the boot loader says of its map; memory that is
    mapped lies in the first 64 TiB. *)
Record entry_ok (e : limine_memmap_entry) : Prop := {
  entry_known : entry_type e <> unknown_type;
  entry_range : 0 <= entry_base e /\ 0 < entry_length e /\ entry_base e + entry_length e < 2 ^ 64;
  entry_low : entry_type e <> LIMINE_MEMMAP_RESERVED -> entry_base e + entry_length e < 2 ^ 46;
  entry_usable : memory_type (entry_type e) = MM_PHYSICAL_MEMORY_TYPE_AVAILABLE ->
    entry_base e mod PAGESIZE = 0 /\ entry_length e mod PAGESIZE = 0 /\ (entry_base e = 0 -> PAGESIZE < entry_length e)
}.

Definition entries_apart (e1 e2 : limine_memmap_entry) : Prop :=
  entry_base e1 + entry_length e1 <= entry_base e2 \/ entry_base e2 + entry_length e2 <= entry_base e1.

Record map_ok (entries : list limine_memmap_entry) : Prop := {
  map_entries : Forall entry_ok entries;
  map_disjoint : ForallOrdPairs entries_apart entries
}.

(** ** The areas of a map *)

Definition apart (x y : Z * PgAlloc.ki_pmad_t) : Prop :=
  x.1 + PgAlloc.len x.2 <= y.1 \/ y.1 + PgAlloc.len y.2 <= x.1.

(** An area that a memory map may have *)
Record fine (x : Z * PgAlloc.ki_pmad_t) : Prop := {
  fine_range : 0 <= x.1 /\ 0 < PgAlloc.len x.2 /\ x.1 + PgAlloc.len x.2 < 2 ^ 64;
  fine_low : PgAlloc.type x.2 <> MM_PHYSICAL_MEMORY_TYPE_CRITICAL -> x.1 + PgAlloc.len x.2 < 2 ^ 46;
  fine_available : PgAlloc.type x.2 = MM_PHYSICAL_MEMORY_TYPE_AVAILABLE ->
    x.1 mod PAGESIZE = 0 /\ PgAlloc.len x.2 mod PAGESIZE = 0 /\ x.1 <> 0;
  fine_new : exists l t, x.2 = new_area l t
}.

Lemma ord_pairs_in {A} (R : A -> A -> Prop) L x y : (forall a b, R a b -> R b a) -> ForallOrdPairs R L ->
  x ∈ L -> y ∈ L -> x <> y -> R x y.
Proof.
  intros Hsym. induction 1 as [|z L Hz _ IH]; [by intros ?%not_elem_of_nil |].
  rewrite Forall_forall in Hz. rewrite !elem_of_cons. intros [->|Hx] [->|Hy] Hne; [done | by apply Hz | by apply Hsym, Hz | by apply IH].
Qed.

Lemma ord_pairs_app {A} (R : A -> A -> Prop) L1 L2 : ForallOrdPairs R L1 -> ForallOrdPairs R L2 ->
  (forall x y, x ∈ L1 -> y ∈ L2 -> R x y) -> ForallOrdPairs R (L1 ++ L2).
Proof.
  induction 1 as [|z L1 Hz _ IH]; intros H2 H12; simpl; [done |]. constructor.
  - apply Forall_app. split; [done |]. apply Forall_forall. intros y Hy. apply H12; [left | done].
  - apply IH; [done |]. intros x y Hx. apply H12. by right.
Qed.

Lemma apart_sym x y : apart x y -> apart y x.
Proof. unfold apart. tauto. Qed.

Lemma areas_of_inside e x : entry_ok e -> x ∈ areas_of e ->
  fine x /\ entry_base e <= x.1 /\ x.1 + PgAlloc.len x.2 <= entry_base e + entry_length e.
Proof.
  intros [Hk (Hb & Hl & Hw) Hlow Hus] Hx. unfold areas_of in Hx. assert (HP : PAGESIZE = 4096) by done.
  destruct (Z.eqb_spec (memory_type (entry_type e)) MM_PHYSICAL_MEMORY_TYPE_AVAILABLE) as [Ht|Ht]; simpl in Hx.
  - destruct (Hus Ht) as (Hbm & Hlm & Hfirst).
    assert (Hl46 : entry_base e + entry_length e < 2 ^ 46) by (apply Hlow; intros He; by rewrite He in Ht).
    destruct (Z.eqb_spec (entry_base e) 0) as [Hb0|Hb0].
    + specialize (Hfirst Hb0). rewrite !elem_of_cons in Hx. destruct Hx as [->|[->|Hx]]; [| | by apply not_elem_of_nil in Hx].
      * split; [| rewrite Hb0; simpl; lia]. split; simpl; try lia; [done | by eexists _, _].
      * split; [| rewrite Hb0; simpl; lia]. split; simpl; try lia; [| by eexists _, _].
        intros _. rewrite HP in Hlm |- *. split; [done |]. split; [| done].
        replace (entry_length e - 4096) with (entry_length e + (-1) * 4096) by lia. by rewrite Z_mod_plus_full.
    + apply list_elem_of_singleton in Hx as ->. split; [| simpl; lia]. split; simpl; try done. by eexists _, _.
  - apply list_elem_of_singleton in Hx as ->. split; [| simpl; lia]. split; simpl; try done; [| by eexists _, _].
    intros Hc. apply Hlow. intros He. by rewrite He in Hc.
Qed.

Lemma areas_of_apart e : entry_ok e -> ForallOrdPairs apart (areas_of e).
Proof.
  intros _. unfold areas_of. case_match; [| by repeat constructor]. constructor; [| by repeat constructor].
  constructor; [| constructor]. unfold apart. simpl. unfold PAGESIZE. lia.
Qed.

Lemma areas_good entries : map_ok entries ->
  Forall fine (mjoin (areas_of <$> entries)) /\ ForallOrdPairs apart (mjoin (areas_of <$> entries)).
Proof.
  intros [He Hd]. induction Hd as [|e L Hz Hd IH]; [split; constructor |].
  apply Forall_cons in He as [He HL]. destruct (IH HL) as [IH1 IH2]. simpl. split.
  - apply Forall_app. split; [| done]. apply Forall_forall. intros x Hx. by apply (areas_of_inside e).
  - apply ord_pairs_app; [by apply areas_of_apart | done |]. intros x y Hx Hy.
    destruct (areas_of_inside e x He Hx) as (_ & ? & ?).
    apply list_elem_of_join in Hy as (l & Hy & (e' & -> & He')%list_elem_of_fmap).
    rewrite Forall_forall in HL. rewrite Forall_forall in Hz.
    destruct (areas_of_inside e' y (HL _ He') Hy) as (_ & ? & ?). destruct (Hz _ He'); unfold apart; lia.
Qed.

(** Any such list of areas is a memory map. *)
Lemma fine_lookup L b a : ForallOrdPairs apart L -> Forall fine L ->
  (list_to_map L : gmap Z PgAlloc.ki_pmad_t) !! b = Some a <-> (b, a) ∈ L.
Proof.
  intros Hap Hf. symmetry. apply elem_of_list_to_map. clear b a.
  induction Hap as [|[b a] L Hz Hap IH]; [constructor |]. apply Forall_cons in Hf as [Hba HL].
  simpl. constructor; [| by apply IH]. intros ([b' a'] & Hb & Hin)%list_elem_of_fmap. simpl in Hb. subst b'.
  rewrite Forall_forall in Hz. rewrite Forall_forall in HL. pose proof (Hz _ Hin) as Hx.
  pose proof (fine_range _ (HL _ Hin)) as Hr. pose proof (fine_range _ Hba) as Hr'. unfold apart in Hx. simpl in *. lia.
Qed.

Lemma fine_map L : ForallOrdPairs apart L -> Forall fine L -> memory_map (list_to_map L).
Proof.
  intros Hap Hf. assert (Hlk := fun b a => fine_lookup L b a Hap Hf). rewrite Forall_forall in Hf.
  split.
  - intros b a Hb%Hlk. exact (fine_range _ (Hf _ Hb)).
  - intros b a Hb%Hlk. exact (fine_low _ (Hf _ Hb)).
  - intros b1 a1 b2 a2 H1%Hlk H2%Hlk Hlt. pose proof (ord_pairs_in apart L _ _ apart_sym Hap H1 H2) as Hx.
    pose proof (fine_range _ (Hf _ H1)). pose proof (fine_range _ (Hf _ H2)).
    destruct Hx as [Hx|Hx]; [intros [= -> _]; lia | done |]. simpl in *. lia.
  - intros b a Hb%Hlk. exact (fine_available _ (Hf _ Hb)).
  - intros b a Hb%Hlk. destruct (fine_new _ (Hf _ Hb)) as (l & t & He). simpl in He. by rewrite He.
Qed.

(** Only one entry begins at 0. *)
Lemma areas_above L : Forall (fun e => entry_base e <> 0) L -> length (mjoin (areas_of <$> L)) = length L.
Proof.
  induction 1 as [|e L He _ IH]; [done |]. simpl. rewrite length_app IH. unfold areas_of.
  by rewrite (proj2 (Z.eqb_neq _ _) He) andb_false_r.
Qed.

Lemma areas_count entries : map_ok entries -> (length (mjoin (areas_of <$> entries)) <= length entries + 1)%nat.
Proof.
  intros [He Hd]. induction Hd as [|e L Hz _ IH]; [simpl; lia |]. apply Forall_cons in He as [He HL].
  specialize (IH HL).
  change (mjoin (areas_of <$> e :: L)) with (areas_of e ++ mjoin (areas_of <$> L)). rewrite length_app.
  change (length (e :: L)) with (S (length L)). destruct (decide (entry_base e = 0)) as [H0|H0].
  - assert (length (areas_of e) <= 2)%nat by (unfold areas_of; cbv zeta; case_match; simpl; lia).
    rewrite areas_above; [| lia].
    rewrite !Forall_forall in Hz HL |- *. intros e' He' H0'. destruct (entry_range _ He) as (? & ? & _).
    destruct (entry_range _ (HL _ He')) as (? & ? & _). destruct (Hz _ He'); lia.
  - assert (length (areas_of e) = 1%nat); [| lia]. unfold areas_of.
    by rewrite (proj2 (Z.eqb_neq _ _) H0) andb_false_r.
Qed.

(** ** Pushing areas *)

Section Push.
Context {E : Type} (STORAGE : Z).
Hypothesis HS : STORAGE < 2 ^ 64.

Abbreviation areas s := (PgAlloc.ki_pmad_tree (pmads (E := E) s)).

Fixpoint push_areas (L : list (Z * PgAlloc.ki_pmad_t)) : M (init_st E) unit :=
  match L with
  | [] => ret tt
  | (b, a) :: L => hn_push_pmad STORAGE b (PgAlloc.len a) (PgAlloc.type a);; push_areas L
  end.

Lemma push_areas_app L1 L2 s : push_areas (L1 ++ L2) s = bind (push_areas L1) (fun _ => push_areas L2) s.
Proof.
  revert s. induction L1 as [|[b a] L1 IH]; intros s; [done |]. simpl. unfold bind in IH |- *.
  destruct (hn_push_pmad _ _ _ _ s) as [[? ?]| | |]; [apply IH | done | done | done].
Qed.

Lemma push_entry_areas e s : entry_ok e -> push_entry STORAGE e s = push_areas (areas_of e) s.
Proof.
  intros [Hk (Hb & Hl & Hw) _ Hus]. unfold push_entry, areas_of.
  assert (Hsub : entry_base e = 0 -> memory_type (entry_type e) = MM_PHYSICAL_MEMORY_TYPE_AVAILABLE ->
    w64 (entry_length e - PAGESIZE) = entry_length e - PAGESIZE).
  { intros Hb0 Ht. destruct (Hus Ht) as (_ & _ & Hfirst). specialize (Hfirst Hb0).
    apply w64_small. unfold in64, PAGESIZE in *. lia. }
  assert (Hret : forall (m : M (init_st E) unit), m s = bind m (fun _ => ret tt) s).
  { intros m. unfold bind, ret. destruct (m s) as [[[] ?]| | |]; done. }
  destruct (entry_type e); try done; simpl in *; try apply Hret;
    (destruct (Z.eqb_spec (entry_base e) 0) as [Hb0|Hb0]; simpl; [| apply Hret]); rewrite (Hsub Hb0 eq_refl);
    unfold bind; (destruct (hn_push_pmad _ _ _ _ s) as [[? s1]| | |]; [| done | done | done]);
    unfold ret; by destruct (hn_push_pmad _ _ _ _ s1) as [[[] ?]| | |].
Qed.

Lemma push_entries_areas entries s : Forall entry_ok entries ->
  push_entries STORAGE entries s = push_areas (mjoin (areas_of <$> entries)) s.
Proof.
  intros He. revert s. induction He as [|e L He HL IH]; intros s; [done |]. simpl. rewrite push_areas_app.
  unfold bind at 1 2. rewrite push_entry_areas //. destruct (push_areas _ s) as [[? ?]| | |]; [apply IH | done | done | done].
Qed.

Lemma push_ok b a s : fine (b, a) -> (forall b' a', areas s !! b' = Some a' -> fine (b', a') /\ apart (b, a) (b', a')) ->
  0 <= ki_pmad_number s -> ki_pmad_number s + 1 < STORAGE ->
  hn_push_pmad STORAGE b (PgAlloc.len a) (PgAlloc.type a) s =
    Ok (tt, mkInit (PgAlloc.mkPg (<[b := a]> (areas s)) (PgAlloc.mads (pmads s))) (ki_pmad_number s + 1)
              (ki_global_mad_pool_list s) (direct_map_bases s) (direct_map_sizes s) (early s)).
Proof.
  intros Hf Hap Hn0 Hn. unfold hn_push_pmad. rewrite (w64_small (ki_pmad_number s + 1)); [unfold in64; lia |].
  rewrite (proj2 (Z.leb_gt _ _) Hn). destruct (fine_range _ Hf) as (Hb & Hl & Hw). simpl in Hb, Hl, Hw.
  assert (Hcheck : match OMap.max_lteq b (areas s) with
    | Some (d, a') => b <? w64 (d + PgAlloc.len a') | None => false end = false).
  { destruct (OMap.max_lteq b (areas s)) as [[d a']|] eqn:Hm; [| done]. apply OMap.max_lteq_some in Hm as (Hd & Hle & _).
    destruct (Hap _ _ Hd) as [Hfd Had]. destruct (fine_range _ Hfd) as (? & ? & ?). unfold apart in Had. simpl in *.
    rewrite w64_small; [unfold in64; lia |]. apply Z.ltb_ge. lia. }
  rewrite Hcheck. unfold bind, when, ret, in_pmads, insert_pmad.
  destruct (areas s !! b) as [a'|] eqn:Hex.
  { destruct (Hap _ _ Hex) as [Hfd Had]. destruct (fine_range _ Hfd) as (? & ? & ?). unfold apart in Had. simpl in *. lia. }
  destruct (fine_new _ Hf) as (l & t & He). simpl in He. subst a. simpl.
  rewrite (w64_small (ki_pmad_number s + 1)); [unfold in64; lia | done].
Qed.

Lemma push_areas_ok L s : Forall fine L -> ForallOrdPairs apart L ->
  (forall x b' a', x ∈ L -> areas s !! b' = Some a' -> fine (b', a') /\ apart x (b', a')) ->
  0 <= ki_pmad_number s -> ki_pmad_number s + Z.of_nat (length L) < STORAGE ->
  exists s', push_areas L s = Ok (tt, s') /\
    (forall b a, areas s' !! b = Some a <-> areas s !! b = Some a \/ (b, a) ∈ L) /\
    PgAlloc.mads (pmads s') = PgAlloc.mads (pmads s) /\ ki_global_mad_pool_list s' = ki_global_mad_pool_list s /\
    early s' = early s /\ ki_pmad_number s' = ki_pmad_number s + Z.of_nat (length L).
Proof.
  intros Hf Hap. revert s. induction Hap as [|[b a] L Hz Hap IH]; intros s Hold Hn0 Hn; simpl in Hn |- *.
  { exists s. split_and!; try done; [| lia]. intros b a. split; [by left |]. intros [?|?%not_elem_of_nil]; done. }
  apply Forall_cons in Hf as [Hba HL]. rewrite Forall_forall in Hz.
  assert (Hfree : areas s !! b = None).
  { destruct (areas s !! b) as [a'|] eqn:Hb; [| done]. destruct (Hold (b, a) b a' ltac:(left) Hb) as [Hfa Hx].
    pose proof (fine_range _ Hfa). pose proof (fine_range _ Hba). unfold apart in Hx. simpl in *. lia. }
  erewrite bind_ok; [| apply push_ok; [done | intros b' a'; apply Hold; left | done | lia]].
  edestruct IH as (s' & E1 & Hs' & Hm & Hp & He & Hnum); [done | | | |]; [| | | exists s'; split; [exact E1 |]].
  - intros x b' a' Hx. simpl. intros [[<- <-]|[Hne Hb']]%lookup_insert_Some.
    + split; [done |]. by apply apart_sym, Hz.
    + apply Hold; [by right | done].
  - simpl. lia.
  - simpl. lia.
  - simpl in *. split_and!; try done; [| lia]. intros b' a'. rewrite Hs' lookup_insert_Some elem_of_cons.
    split; [intros [[[-> ->]|[? ?]]|?]; auto |]. intros [?|[[= -> ->]|?]]; auto. left. right. split; [congruence | done].
Qed.

(** Before anything is registered *)
Record blank (s : init_st E) : Prop := {
  blank_areas : areas s = ∅;
  blank_mads : PgAlloc.mads (pmads s) = ∅;
  blank_pools : ki_global_mad_pool_list s = [];
  blank_number : ki_pmad_number s = 0
}.

Lemma pmadlist_ok entries s : map_ok entries -> blank s -> Z.of_nat (length entries) + 1 < STORAGE ->
  runs (hn_mm_init_pmadlist STORAGE entries) s (fun _ s' => unprepared (memory_of entries) s' /\ early s' = early s).
Proof.
  intros Hok [Ha Hm Hp Hn] Hlen. destruct (areas_good entries Hok) as [Hf Hap]. pose proof (areas_count _ Hok) as Hcount.
  unfold hn_mm_init_pmadlist, runs. rewrite (proj2 (Z.ltb_ge STORAGE (Z.of_nat (length entries)))); [lia |]. simpl. rewrite bind_ret.
  rewrite push_entries_areas; [apply Hok |].
  destruct (push_areas_ok (mjoin (areas_of <$> entries)) s Hf Hap) as (s' & E1 & Hs' & Hm' & Hp' & He' & _).
  { intros x b' a' _. by rewrite Ha lookup_empty. }
  { lia. }
  { lia. }
  exists tt, s'. split; [done |]. split; [| done]. split; [| by rewrite Hm' | by rewrite Hp'].
  apply map_eq. intros b. apply option_eq. intros a. rewrite Hs' Ha lookup_empty /memory_of fine_lookup //. naive_solver.
Qed.

(** An area that begins inside a registered one stops the kernel. *)
Lemma push_overlap b len ty d a s : 0 <= ki_pmad_number s -> ki_pmad_number s + 1 < 2 ^ 64 ->
  OMap.max_lteq b (areas s) = Some (d, a) -> b < w64 (d + PgAlloc.len a) ->
  hn_push_pmad STORAGE b len ty s = Panic.
Proof.
  intros Hn0 Hn Hd Hb. unfold hn_push_pmad. unfold when at 1, bind. destruct (STORAGE <=? _); [done |].
  unfold ret. simpl. rewrite Hd. by rewrite (proj2 (Z.ltb_lt _ _) Hb).
Qed.

End Push.

(** ** A small machine

    16 KiB of memory at 0, a page of ACPI tables, 192 KiB of memory and a
    reserved range; the early mapping gives out one address after the other,
    and needs all three tables at first and a new one now and then. *)
#[export] Instance demo_vm : EarlyVm Z := {
  mm_kvmalloc_early := fun _ n => Ok (0xffffc00000000000 + n * PAGESIZE, n + 1);
  hn_mm_mmap_early := fun _ _ _ _ _ n => Ok (if n <=? 1 then 7 else if n mod 5 =? 0 then 1 else 0, n + 1)
}.

#[export] Instance demo_laws : EarlyLaws Z.
Proof. split; intros; by eexists _, _. Defined.

Definition demo_entries : list limine_memmap_entry :=
  [mkEntry 0 0x3000 LIMINE_MEMMAP_USABLE; mkEntry 0x10000 0x1000 LIMINE_MEMMAP_ACPI_NVS;
   mkEntry 0x20000 0x30000 LIMINE_MEMMAP_USABLE; mkEntry 0x100000 0x10000 LIMINE_MEMMAP_RESERVED].

Definition nothing : init_st Z := mkInit (PgAlloc.mkPg ∅ ∅) 0 [] ∅ ∅ 0.

Lemma demo_blank : blank nothing.
Proof. by split. Qed.

Lemma demo_map : map_ok demo_entries.
Proof.
  split.
  - repeat apply Forall_cons_2; try apply Forall_nil_2; split; simpl; try done; try lia;
      unfold PAGESIZE; intros; split_and?; try done; lia.
  - unfold entries_apart. repeat constructor; simpl; lia.
Qed.

(** ** Theorems *)

(** C9: from a map of disjoint entries of known types [hn_mm_init_pmadlist]
    makes exactly the areas that the entries stand for, with nothing described
    yet: available memory never has page 0, areas are disjoint and do not wrap,
    and the storage for areas suffices. *)
Theorem pmadlist_correct {E} STORAGE entries (s : init_st E) :
  STORAGE < 2 ^ 64 -> map_ok entries -> blank s -> Z.of_nat (length entries) + 1 < STORAGE ->
  memory_map (memory_of entries) /\
  runs (hn_mm_init_pmadlist STORAGE entries) s (fun _ s' => unprepared (memory_of entries) s' /\ early s' = early s).
Proof.
  intros HS Hok Hs Hlen. destruct (areas_good entries Hok) as [Hf Hap].
  split; [by apply fine_map | by apply pmadlist_ok].
Qed.

Lemma pmadlist_correct_witness : map_ok demo_entries /\ blank nothing /\
  exists s', hn_mm_init_pmadlist 64 demo_entries nothing = Ok (tt, s') /\ unprepared (memory_of demo_entries) s'.
Proof.
  split; [exact demo_map |]. split; [exact demo_blank |].
  destruct (pmadlist_correct 64 demo_entries nothing ltac:(lia) demo_map demo_blank ltac:(simpl; lia)) as (_ & [] & s' & E1 & Hs' & _).
  by exists s'.
Defined.

(** The test compares an area with the one that begins before it only: of two
    areas that overlap the second is refused when it begins inside the first,
    and accepted when it reaches into it from below. *)
Fact overlap_from_below :
  let e1 := mkEntry 0x2000 0x2000 LIMINE_MEMMAP_RESERVED in
  let e2 := mkEntry 0x1000 0x2000 LIMINE_MEMMAP_RESERVED in
  hn_mm_init_pmadlist 64 [e2; e1] nothing = Panic /\
  exists s', hn_mm_init_pmadlist 64 [e1; e2] nothing = Ok (tt, s').
Proof. split; [by vm_compute |]. eexists. vm_compute. reflexivity. Qed.

End MmInitM.
