(* ===== verification/MmInitTheorems.v ===== *)
(** * Bringing up the physical memory: theorems

    All pages that get a descriptor, and the free lists afterwards. *)

From S2P Require Import Prelude MemConf OMap PgAlloc MmInit MmInitAreas MmInitSteps MmInitFirst MmInitLoops MmInitOthers MmInitMap.
Import MemConf MmInit MmInitA MmInitS MmInitF MmInitL MmInitO MmInitM.

Module MmInitT.

Section Init.
Context {E : Type} `{EL : EarlyLaws E} (T0 : gmap Z PgAlloc.ki_pmad_t).
Hypothesis HT : memory_map T0.

Abbreviation areas s := (PgAlloc.ki_pmad_tree (pmads (E := E) s)).
Abbreviation state_ok := (state_ok (E := E) T0).

(** ** Giving back the spare tables *)

Lemma state_ok_layout D F s P : state_ok D F s -> PgAlloc.pg_inv P -> PgAlloc.layout P = PgAlloc.layout (pmads s) ->
  (forall y, is_Some (PgAlloc.refs P y) <-> is_Some (PgAlloc.refs (pmads s) y)) ->
  (forall b, PgAlloc.free_pages P b = PgAlloc.free_pages (pmads s) b) -> state_ok D F (with_pmads s P).
Proof.
  intros [Hinv Hsh Hq Hd Hh Hn Hf] Hinv' Hlay Hrefs Hfree. split; simpl; try done.
  - intros b. simpl. destruct (areas s !! b) as [a1|] eqn:Hb.
    + destruct (layout_area _ _ b a1 Hlay Hb) as (a2 & -> & Hl2 & Ht2 & _). rewrite -(Hsh b) Hb /=. congruence.
    + rewrite -(Hsh b) Hb. by rewrite (layout_none _ _ b Hlay Hb).
  - intros b a2 y Hb. destruct (layout_area _ _ b a2 (eq_sym Hlay) Hb) as (a1 & Ha1 & Hl1 & _ & Hq1).
    rewrite -Hq1 -Hl1. by apply Hq.
  - intros y. rewrite -Hd. specialize (Hrefs y). unfold PgAlloc.refs in Hrefs. by rewrite !fmap_is_Some in Hrefs.
  - intros b a2 Hb. destruct (layout_area _ _ b a2 (eq_sym Hlay) Hb) as (a1 & Ha1 & Hl1 & _ & _).
    by rewrite Hfree -Hl1 (Hf _ _ Ha1).
Qed.

Lemma free_table_ok D F s p : state_ok D F s -> spare_ok s p ->
  runs (free_table p) s (fun _ s' => exists P, s' = with_pmads s P /\ state_ok D F s' /\ keeps_pages s s').
Proof.
  intros Hs Hp. unfold free_table, runs. destruct (Z.eqb_spec p 0) as [->|Hp0]; simpl.
  { exists tt, s. split; [done |]. exists (pmads s). split_and!; [by destruct s | done | by intros i a x Hx; exists a]. }
  destruct Hp as [?|(i & a & Hp)]; [done |].
  destruct (PgAlloc.free_ok _ _ _ _ (st_inv _ _ _ _ Hs) Hp) as (r & P & Hr & E1 & Hinv & Hr' & Href & _ & Hfi & Hfo).
  pose proof (PgAlloc.keeps_set_page_free _ _ _ _ E1) as Hlay.
  rewrite (in_pmads_ok _ _ _ _ E1). exists tt, (with_pmads s P). split; [done |]. exists P. split; [done |].
  split; [| by intros c b x Hx; eapply PgAlloc.layout_page].
  apply state_ok_layout; try done.
  - intros y. destruct (decide (y = p)) as [->|Hy]; [by rewrite Hr Hr' | by rewrite Href].
  - intros b. destruct (decide (b = i)) as [->|Hb]; [done | by apply Hfo].
Qed.

Lemma free_tables_ok D F s t : state_ok D F s -> tables_ok t s ->
  runs (free_tables t) s (fun _ s' => exists P, s' = with_pmads s P /\ state_ok D F s').
Proof.
  destruct t as [[t2 t1] t0]. intros Hs (H2 & H1 & H0). simpl in *. unfold free_tables.
  eapply runs_bind; [by apply (free_table_ok D F) |]. intros _ s1 (P1 & -> & Hs1 & K1).
  eapply runs_bind; [by apply (free_table_ok D F); [| apply (spare_keep s)] |]. intros _ s2 (P2 & -> & Hs2 & K2).
  eapply runs_mono; [apply (free_table_ok D F); [done |]; by apply (spare_keep (with_pmads s P1)), (spare_keep s) |].
  intros _ s3 (P3 & -> & Hs3 & _). by exists P3.
Qed.

(** ** All descriptors *)

Context (sizeof_hn_mad_t : Z).
Abbreviation N := (kh_mad_pool_descs_num_per_page sizeof_hn_mad_t).
Abbreviation available := (pages_where is_available T0).
Abbreviation others := (pages_where is_other T0).

Lemma elem_available x : x ∈ available <-> exists i a, T0 !! i = Some a /\
  PgAlloc.type a = MM_PHYSICAL_MEMORY_TYPE_AVAILABLE /\ x ∈ area_pages i (PgAlloc.len a).
Proof. rewrite elem_of_pages_where. unfold is_available. by setoid_rewrite Z.eqb_eq. Qed.

(** The pages of an area that get descriptors *)
Definition described_pages (b : Z) (a : PgAlloc.ki_pmad_t) : list Z :=
  if PgAlloc.type a =? MM_PHYSICAL_MEMORY_TYPE_CRITICAL then [] else area_pages b (PgAlloc.len a).

(** What the boot leaves: descriptors for all pages but those of critical
    areas, and on the free lists all of these in ascending order but the ones
    that are in use. *)
Definition prepared (used : gset Z) (p : PgAlloc.pg_st) : Prop :=
  PgAlloc.pg_inv p /\ dom (PgAlloc.ki_pmad_tree p) = dom T0 /\
  forall b a, T0 !! b = Some a ->
    PgAlloc.free_pages p b = filter (fun x => x ∉ used) (described_pages b a) /\
    exists a', PgAlloc.ki_pmad_tree p !! b = Some a' /\ PgAlloc.len a' = PgAlloc.len a /\
      PgAlloc.type a' = PgAlloc.type a /\ PgAlloc.query_tree a' = list_to_set (described_pages b a).

Lemma described_in b a x : x ∈ described_pages b a -> in_area b (PgAlloc.len a) x.
Proof. unfold described_pages. case_match; [by intros ?%not_elem_of_nil | apply area_pages_in]. Qed.

Lemma elem_described b a x : T0 !! b = Some a ->
  x ∈ described_pages b a <-> (x ∈ available \/ x ∈ others) /\ in_area b (PgAlloc.len a) x.
Proof.
  intros Hb. split.
  - intros Hx. split; [| by apply described_in]. unfold described_pages in Hx. case_match eqn:Hc; [by apply not_elem_of_nil in Hx |].
    rewrite !elem_of_pages_where. destruct (is_available (PgAlloc.type a)) eqn:Ha; [left | right]; exists b, a; (split; [done |]);
      (split; [| done]); [done |]. unfold is_other, is_available in *. by rewrite Ha Hc.
  - intros [Hx Hin]. assert (Hc : exists c a', T0 !! c = Some a' /\ PgAlloc.type a' <> MM_PHYSICAL_MEMORY_TYPE_CRITICAL /\
      x ∈ area_pages c (PgAlloc.len a')).
    { destruct Hx as [(c & a' & Hc & Ht & Hx)%elem_of_pages_where|(c & a' & Hc & Ht & Hx)%elem_of_pages_where]; exists c, a';
        (split; [done |]); (split; [| done]); intros He; rewrite He in Ht; done. }
    destruct Hc as (c & a' & Hc & Ht & Hxc).
    assert (c = b) as -> by (eapply (home_unique T0 HT); [done | done | by apply area_pages_in | done]).
    simplify_eq. unfold described_pages. by rewrite (proj2 (Z.eqb_neq _ _) Ht).
Qed.

Lemma described_sorted b a : StronglySorted Z.lt (described_pages b a).
Proof. unfold described_pages. case_match; [constructor | apply area_pages_sorted]. Qed.

(** The two loops described the available pages [init ++ W], of which [k] of
    [W] were taken, and the others [X]. *)
Lemma prepared_ok init W k X s : state_ok (init ++ take k W) (drop k W ++ X) s ->
  StronglySorted Z.lt W -> StronglySorted Z.lt X ->
  (forall x, x ∈ init ++ W <-> x ∈ available) -> (forall x, x ∈ X <-> x ∈ others) ->
  prepared (list_to_set (init ++ take k W)) (pmads s).
Proof.
  intros Hs HW HX Hav Hoth. pose proof (st_nodup _ _ _ _ Hs) as Hnd.
  assert (Hall : forall x, x ∈ (init ++ take k W) ++ drop k W ++ X <-> x ∈ available \/ x ∈ others).
  { intros x. pose proof (elem_of_app (take k W) (drop k W) x) as Hx. rewrite take_drop in Hx.
    rewrite -Hav -Hoth !elem_of_app. tauto. }
  split; [apply Hs |]. split; [apply shape_dom, Hs |]. intros b a Hb.
  destruct (shape_map _ _ _ _ (st_shape _ _ _ _ Hs) Hb) as (a' & Hb' & Hl & Ht). split.
  - rewrite (st_free _ _ _ _ Hs _ _ Hb') Hl. apply sorted_same.
    + rewrite filter_app. destruct (PgAlloc.type a =? MM_PHYSICAL_MEMORY_TYPE_AVAILABLE) eqn:Hta.
      * rewrite (filter_nothing _ X); [| rewrite app_nil_r; by apply sorted_filter, sorted_drop].
        intros x Hx Hxb. apply Hoth, elem_of_pages_where in Hx as (c & a2 & Hc & Htc & Hxc%area_pages_in).
        assert (c = b) as -> by (by eapply (home_unique T0 HT)). simplify_eq. unfold is_other in Htc. by rewrite Hta in Htc.
      * rewrite (filter_nothing _ (drop k W)); [| by apply sorted_filter].
        intros x Hx Hxb. assert (Hxa : x ∈ available) by (rewrite -Hav -(take_drop k W) !elem_of_app; tauto).
        apply elem_available in Hxa as (c & a2 & Hc & Htc & Hxc%area_pages_in).
        assert (c = b) as -> by (by eapply (home_unique T0 HT)). simplify_eq. by rewrite Htc in Hta.
    + apply sorted_filter, described_sorted.
    + intros x. rewrite !list_elem_of_filter (elem_described _ _ _ Hb) -Hall elem_of_list_to_set.
      rewrite (elem_of_app (init ++ take k W)). rewrite list.NoDup_app in Hnd. destruct Hnd as (_ & Hdis & _).
      specialize (Hdis x). tauto.
  - exists a'. split_and!; [done | done | done |]. apply set_eq. intros x.
    rewrite (st_query _ _ _ _ Hs _ _ _ Hb') elem_of_list_to_set (elem_described _ _ _ Hb) Hall Hl. done.
Qed.

Hypothesis HN : 9 <= N.

(** The pages of available memory after the loop over it *)
Lemma available_pages n W k v (s : init_st E) : loop_ok T0 sizeof_hn_mad_t (initial_pages n) W k v s ->
  pages_available T0 (initial_pages n) -> upto (usable T0 (initial_pages n)) W None ->
  (forall x, x ∈ initial_pages n ++ W <-> x ∈ available) /\
  Z.of_nat (size available) = (pools s - 1) * N + v.1.
Proof.
  intros Hl Hinit HW. set (init := initial_pages n) in *.
  assert (Hel : forall x, x ∈ init ++ W <-> x ∈ available).
  { intros x. rewrite elem_available elem_of_app (HW x). split.
    - intros [Hx|[(i & a & Hi & Ht & Hx & _) _]]; [by apply Hinit | by exists i, a].
    - intros (i & a & Hi & Ht & Hx). destruct (decide (x ∈ init)) as [?|Hni]; [by left | right]. split; [| done].
      by exists i, a. }
  split; [done |]. rewrite -(loop_slots _ _ _ _ _ _ _ Hl). f_equal.
  pose proof (st_nodup _ _ _ _ (av_state _ _ _ _ _ (loop_state _ _ _ _ _ _ _ Hl))) as Hnd.
  rewrite -app_assoc take_drop in Hnd. rewrite -length_app -(size_list_to_set (C := gset Z)) //.
  f_equal. apply set_eq. intros x. by rewrite elem_of_list_to_set Hel.
Qed.

(** All pages used: four initial ones, and at most four for each pool *)
Definition pages_used : Z := 4 + 4 * ((Z.of_nat (size available) - 1) / N).

Lemma last_slot p v : 1 <= v <= N -> Z.of_nat (size available) = (p - 1) * N + v ->
  (Z.of_nat (size available) - 1) mod N = v - 1 /\ (Z.of_nat (size available) - 1) / N = p - 1.
Proof.
  intros Hv ->. replace ((p - 1) * N + v - 1) with ((v - 1) + (p - 1) * N) by lia.
  rewrite Z.mod_add ?Z.div_add; try lia. rewrite Z.mod_small ?Z.div_small; lia.
Qed.

Lemma init_descriptors_ok s : unprepared T0 s -> early_room s -> (exists i a, T0 !! i = Some a /\ roomy a) ->
  (Z.of_nat (size available) - 1) mod N + 1 + Z.of_nat (size others) <= N ->
  runs (init_descriptors sizeof_hn_mad_t) s (fun _ s' => exists used, prepared used (pmads s') /\
    used ⊆ available /\ Z.of_nat (size used) <= pages_used).
Proof.
  intros Hun Hearly Hroomy Hroom. unfold init_descriptors.
  eapply runs_bind; [by apply (first_pool_ok T0 HT) |]. intros [n cur] s1 (Hl1 & Hcur & Hinit). simpl in Hl1, Hcur, Hinit.
  pose proof (initial_pages_short n) as [_ Hshort].
  eapply runs_bind.
  { apply (all_available_ok T0 HT _ HN n (initial_pages n) Hshort (fun j => initial_pages_ok n j)); [exact Hl1 | exact Hcur]. }
  intros [cur2 t2] s2 (W & k & Hl2 & Hcur2 & HW). simpl in Hcur2.
  destruct (available_pages _ _ _ _ _ Hl2 Hinit HW) as [Hav Hsize]. simpl in Hsize.
  pose proof Hl2 as [[Hs2 HsW HhW] Hp2 _ Hc2 Hk2 _ Ht2]. simpl in *.
  destruct (last_slot _ _ (conj Hcur2 (proj2 Hc2)) Hsize) as [Hmod Hdiv].
  eapply runs_bind.
  { apply (all_others_ok T0 HT sizeof_hn_mad_t (initial_pages n ++ take k W) (drop k W) cur2 t2); try done.
    - intros x Hx. assert (Hxa : x ∈ available) by (rewrite -Hav -(take_drop k W) app_assoc //).
      apply elem_available in Hxa as (i & a & Hi & Ht & Hx'%area_pages_in). by exists i, a.
    - rewrite Hmod in Hroom. lia.
    - intros Hnil. unfold pools in Hp2. rewrite Hnil /= in Hp2. lia. }
  intros [cur3 t3] s3 (X & Ho & HX). pose proof Ho as [Hs3 HsX HpX _ [Ht3 Htb3] _]. simpl in Ht3. subst t3.
  eapply runs_mono; [by apply (free_tables_ok (initial_pages n ++ take k W) (drop k W ++ X)) |].
  intros _ s4 (P & -> & Hs4). exists (list_to_set (initial_pages n ++ take k W)). split_and!.
  - apply (prepared_ok (initial_pages n) W k X _ Hs4 HsW HsX Hav). intros x. rewrite (HX x). split; [by intros [? _] | done].
  - intros x. rewrite elem_of_list_to_set -Hav !(elem_of_app (initial_pages n)). intros [Hx|Hx]; [by left | right].
    rewrite -(take_drop k W) elem_of_app. by left.
  - unfold pages_used. rewrite Hdiv. pose proof (st_nodup _ _ _ _ Hs4) as Hnd. apply list.NoDup_app in Hnd as (Hnd & _).
    rewrite size_list_to_set // (length_app (initial_pages n)) length_take.
    pose proof (initial_pages_short n) as Hin. clear -Hk2 Hin. lia.
Qed.

End Init.

(** ** The small machine *)

Definition demo_init : init_st Z :=
  mkInit (PgAlloc.mkPg (memory_of demo_entries) ∅) 5 [] ∅ ∅ 0.

Lemma demo_memory : memory_map (memory_of demo_entries).
Proof. destruct (areas_good demo_entries demo_map). by apply fine_map. Qed.

Lemma demo_unprepared : unprepared (memory_of demo_entries) demo_init.
Proof. by split. Qed.

Lemma demo_early_room : early_room demo_init.
Proof. by eexists _, _. Qed.

Lemma demo_roomy : exists i a, memory_of demo_entries !! i = Some a /\ roomy a.
Proof. exists 0x20000. eexists. split; [vm_compute; reflexivity |]. by split. Qed.

(** A descriptor of 450 bytes: nine in a pool *)
Lemma demo_slots : kh_mad_pool_descs_num_per_page 450 = 9.
Proof. by vm_compute. Qed.

Lemma demo_sizes : size (pages_where is_available (memory_of demo_entries)) = 50%nat /\
  size (pages_where is_other (memory_of demo_entries)) = 2%nat.
Proof. split; by vm_compute. Qed.

(** ** Theorems *)



(** When the pages of an area that is not available memory go over from one
    pool to the next, the code links the first descriptor of the new pool to
    the slot in front of it, which is none. *)
Fact pool_boundary :
  let entries := [mkEntry 0 0x10000 LIMINE_MEMMAP_USABLE; mkEntry 0x20000 0xc000 LIMINE_MEMMAP_ACPI_NVS] in
  (hn_mm_init_pmadlist 64 entries;; init_descriptors 450) nothing = Fault.
Proof. by vm_compute. Qed.

End MmInitT.
