(* ===== verification/MmInitBoot.v ===== *)
(** * Bringing up the physical memory: the whole of it

    From the boot loader's map to the state on which the page tables of
    [PageTable] work: the areas, the descriptors and the direct mapping. *)

From S2P Require Import Prelude MemConf OMap PgAlloc PageTable PageMap.
From S2P Require Import MmInit MmInitAreas MmInitSteps MmInitFirst MmInitOthers MmInitDirect MmInitMap MmInitTheorems.
Import MemConf MmInit MmInitA MmInitS MmInitF MmInitO MmInitD MmInitM MmInitT.

Module MmInitB.

Section Boot.
Context {E : Type} `{EL : EarlyLaws E} (T0 : gmap Z PgAlloc.ki_pmad_t).
Hypothesis HT : memory_map T0.

(** The pages that can be allocated, wherever the lists of free pages are *)
Definition all_memory (p : PgAlloc.pg_st) : Prop :=
  forall x, (exists b a, PgAlloc.ram_page p b a x) <-> x ∈ pages_where is_available T0.

Lemma prepared_page used p b a x : prepared T0 used p -> PgAlloc.ram_page p b a x ->
  exists a0, T0 !! b = Some a0 /\ PgAlloc.type a0 = MM_PHYSICAL_MEMORY_TYPE_AVAILABLE /\ x ∈ area_pages b (PgAlloc.len a0).
Proof.
  intros (_ & Hd & Hp) [[Hb Hx] Ht]. pose proof (elem_of_dom_2 _ _ _ Hb) as Hin. rewrite Hd in Hin.
  apply elem_of_dom in Hin as [a0 Ha0]. exists a0. split; [done |].
  destruct (Hp _ _ Ha0) as (_ & a' & Hb' & _ & Ht' & Hq). simplify_eq. split; [congruence |].
  rewrite Hq elem_of_list_to_set in Hx. unfold described_pages in Hx. by rewrite -Ht' Ht in Hx.
Qed.

Lemma prepared_memory used p : prepared T0 used p -> all_memory p.
Proof.
  intros Hp x. rewrite elem_available. split.
  - intros (b & a & Hx). destruct (prepared_page _ _ _ _ _ Hp Hx) as (a0 & ? & ? & ?). by exists b, a0.
  - intros (b & a0 & Hb & Ht & Hx). destruct Hp as (_ & _ & Hp). destruct (Hp _ _ Hb) as (_ & a & Ha & _ & Hta & Hq).
    exists b, a. split; [split; [done |] | congruence]. rewrite Hq elem_of_list_to_set. unfold described_pages. by rewrite Ht.
Qed.

Lemma layout_memory p p' : PgAlloc.layout p' = PgAlloc.layout p -> all_memory p -> all_memory p'.
Proof.
  intros Hl Hp x. rewrite -(Hp x). split; intros (b & a & Hx).
  - destruct (PgAlloc.layout_ram p' p b a x (eq_sym Hl) Hx) as [a' Hx']. by exists b, a'.
  - destruct (PgAlloc.layout_ram p p' b a x Hl Hx) as [a' Hx']. by exists b, a'.
Qed.

(** The page tables find all of available memory mapped. *)
Lemma mapped_env used p (s : init_st E) (st : PageTable.pt_st) : prepared T0 used p ->
  PgAlloc.layout (pmads s) = PgAlloc.layout p -> PgAlloc.pg_inv (pmads s) -> placed T0 None DIRECTPHYMEM_VTOP s ->
  PageTable.frames st = pmads s -> PageTable.direct_bases st = direct_map_bases s -> PageMap.env st.
Proof.
  intros Hp Hl Hi Hpl Hf Hb. split; [by rewrite Hf |]. intros b a x. rewrite Hf Hb. intros Hx.
  destruct (PgAlloc.layout_ram _ p _ _ _ (eq_sym Hl) Hx) as [a' Hx'].
  destruct (prepared_page _ _ _ _ _ Hp Hx') as (a0 & Ha0 & Ht & Hin).
  destruct (map_available _ HT _ _ Ha0 Ht) as (Hbm & _ & Hb0). destruct (map_range _ HT _ _ Ha0) as (? & ? & _).
  assert (Hnc : PgAlloc.type a0 <> MM_PHYSICAL_MEMORY_TYPE_CRITICAL) by (by rewrite Ht).
  pose proof (map_low _ HT _ _ Ha0 Hnc). destruct (pl_mapped _ _ _ _ Hpl b a0 Ha0 I Hnc) as (d & Hd & _ & Hd1 & Hd2).
  pose proof Hin as (k & -> & Hk & Hlt)%in_area_pages. unfold PAGESIZE, DIRECTPHYMEM_VBASE in *. split_and!.
  - by rewrite Z.mul_comm Z_mod_plus_full.
  - lia.
  - lia.
  - exists d. split_and!; [done | lia | lia].
Qed.

Lemma prepared_shape used (s : init_st E) : prepared T0 used (pmads s) -> shape T0 s.
Proof.
  intros (_ & Hd & Hp) b. destruct (T0 !! b) as [a|] eqn:Hb.
  - destruct (Hp _ _ Hb) as (_ & a' & -> & Hl & Ht & _). simpl. congruence.
  - apply not_elem_of_dom in Hb. rewrite -Hd in Hb. by apply not_elem_of_dom in Hb as ->.
Qed.

End Boot.

(** ** Theorems *)


Lemma nothing_early_room : early_room nothing.
Proof. by eexists _, _. Qed.


(** On this machine memory does not run out. *)
Fact demo_boots : exists s', (hn_mm_init_pmadlist 64 demo_entries;; hn_mm_init_areas 450) nothing = Ok (tt, s').
Proof. eexists. vm_compute. reflexivity. Qed.

End MmInitB.
