(* ===== verification/Initcar.v ===== *)
(** * The initial archive

    hal/x86_64/initcar/init.cc and hal/x86_64/initcar/fileio.cc: the archive
    that the boot loader puts into memory becomes a directory of files in the
    file system of [Fs], whose file system operations read the archive.  The
    layout of the archive, a header outside the repository, and the memory
    manager below are interfaces; kernel memory is that of [CString]. *)

From S2P Require Import Prelude MemConf CString Fs.
Import MemConf Fs.

Module Initcar.

(** ** The archive's header

    [pbcar_metadata_t] and [pbcar_fentry_t], decoded from their bytes; the name
    of an entry is a string inside it. *)
Record pbcar_metadata_t := mkMetadata {
  magic_0 : Z; magic_1 : Z; magic_2 : Z; magic_3 : Z;
  major_ver : Z; minor_ver : Z; md_flags : Z
}.

Record pbcar_fentry_t := mkFentry { fe_size : Z; fe_flags : Z }.

Class Format := {
  PBCAR_MAGIC_0 : Z; PBCAR_MAGIC_1 : Z; PBCAR_MAGIC_2 : Z; PBCAR_MAGIC_3 : Z;
  PBCAR_METADATA_BE : Z;
  PBCAR_FILE_FLAG_END : Z;
  sizeof_metadata : Z;
  sizeof_fentry : Z;
  offsetof_filename : Z;
  metadata_of : list Z -> pbcar_metadata_t;
  fentry_of : list Z -> pbcar_fentry_t
}.

(** [kh_get_direct_mmap], [mm_kvmalloc], [mm_mmap] and [mm_vmfree] of the
    current context *)
Class Mapping (H : Type) := {
  kh_get_direct_mmap : Z -> H -> Z;
  mm_kvmalloc : Z -> H -> Z * H;
  mm_mmap : Z -> Z -> Z -> H -> km_result_t * H;
  mm_vmfree : Z -> Z -> H -> H
}.

(** [hn_initcar_file_exdata] *)
Record hn_initcar_file_exdata := mkExdata { ptr_ : Z; sz_total : Z }.

(** The kernel's memory: its heap, the extension data of files on it, bytes
    that can be read, and the variables of the driver *)
Record car_mem (H : Type) := mkCar {
  heap : H;
  exdatas : gmap loc hn_initcar_file_exdata;
  bytes_at : CString.mem;
  hn_initcar_paddr : Z;
  hn_initcar_size : Z;
  hn_initcar_ptr : Z;
  kh_initcar_fs : ptr;
  kh_initcar_dir : ptr
}.
Arguments mkCar {H}.
Arguments heap {H}.
Arguments exdatas {H}.
Arguments bytes_at {H}.
Arguments hn_initcar_paddr {H}.
Arguments hn_initcar_size {H}.
Arguments hn_initcar_ptr {H}.
Arguments kh_initcar_fs {H}.
Arguments kh_initcar_dir {H}.

Section Heap.
Context {H : Type} `{Memory H}.

Definition set_heap (h : H) (m : car_mem H) : car_mem H :=
  mkCar h (exdatas m) (bytes_at m) (hn_initcar_paddr m) (hn_initcar_size m) (hn_initcar_ptr m)
    (kh_initcar_fs m) (kh_initcar_dir m).

Definition on_heap {A} (f : H -> A * H) (m : car_mem H) : A * car_mem H :=
  let '(a, h) := f (heap m) in (a, set_heap h m).

#[export] Instance car_memory : Memory (car_mem H) := {
  kalloc := on_heap kalloc;
  kfree l m := set_heap (kfree l (heap m)) m;
  name_alloc n := on_heap (name_alloc n);
  name_realloc n := on_heap (name_realloc n);
  name_free m := set_heap (name_free (heap m)) m;
  map_grow := on_heap map_grow;
  map_shrink := on_heap map_shrink
}.
End Heap.

Section Ops.
Context {H : Type} `{Memory H} `{Mapping H} `{Format}.
Abbreviation CM := (M (fs_st (car_mem H))).

Variable ops_table : Z -> fs_file_system_ops_t (fs_st (car_mem H)).

Definition get_car : CM (car_mem H) := fun s => Ok (mem s, s).
Definition put_car (f : car_mem H -> car_mem H) : CM unit := fun s => Ok (tt, set_mem (f (mem s)) s).

(** Reading memory *)
Definition in_bytes {A} (m : M CString.mem A) : CM A := fun s =>
  match m (bytes_at (mem s)) with
  | Ok (a, _) => Ok (a, s)
  | Panic => Panic
  | Fault => Fault
  | NoFuel => NoFuel
  end.

Fixpoint load_bytes (n : nat) (a : Z) : M CString.mem (list Z) :=
  match n with
  | O => ret []
  | Datatypes.S n' => b <- CString.load8 a; r <- load_bytes n' (a + 1); ret (b :: r)
  end.

Definition memcpy_from (a n : Z) : CM (list Z) := in_bytes (load_bytes (Z.to_nat n) a).

(** ** The files *)

Definition set_exdatas (x : gmap loc hn_initcar_file_exdata) (m : car_mem H) : car_mem H :=
  mkCar (heap m) x (bytes_at m) (hn_initcar_paddr m) (hn_initcar_size m) (hn_initcar_ptr m)
    (kh_initcar_fs m) (kh_initcar_dir m).

(** A pointer to extension data as [fs_fnode_t] holds it *)
Definition exdata_addr (l : loc) : Z := Z.pos l.

Definition get_exdata (x : Z) : CM hn_initcar_file_exdata := fun s =>
  match x with
  | Z.pos l => match exdatas (mem s) !! l with Some e => Ok (e, s) | None => Fault end
  | _ => Fault
  end.

Definition alloc_exdata : CM (option loc) :=
  p <- lift kalloc;
  match p with
  | None => ret None
  | Some l => put_car (fun m => set_exdatas (<[l := mkExdata 0 0]> (exdatas m)) m);; ret (Some l)
  end.

Definition set_exdata (l : loc) (e : hn_initcar_file_exdata) : CM unit :=
  put_car (fun m => set_exdatas (<[l := e]> (exdatas m)) m).

Definition kh_initcar_subnode (dir : loc) (nm : name) : CM (km_result_t * ptr) := ret (KM_RESULT_NOT_FOUND, None).
Definition kh_initcar_create_file (dir : loc) (nm : name) : CM (km_result_t * ptr) :=
  ret (KM_RESULT_UNSUPPORTED_OPERATION, None).
Definition kh_initcar_create_dir (dir : loc) (nm : name) : CM (km_result_t * ptr) :=
  ret (KM_RESULT_UNSUPPORTED_OPERATION, None).
Definition kh_initcar_open (file : loc) : CM (km_result_t * ptr) := ki_alloc_fcb ops_table file.

(** [fs::FNodePtr file = fs_file_of_fcb(fcb)] around the body *)
Definition with_file {A} (fcb : loc) (body : loc -> CM A) : CM A :=
  p <- fs_file_of_fcb fcb;
  match p with
  | None => fault
  | Some file =>
      fs_ref_fnode file;;
      x <- body file;
      fs_unref_fnode ops_table file;;
      ret x
  end.

Definition kh_initcar_read (fcb : loc) (size off : Z) : CM (km_result_t * list Z) :=
  with_file fcb (fun file =>
    x <- fs_get_fnode_exdata file;
    e <- get_exdata x;
    if sz_total e <? w64 (size + off) then
      d <- memcpy_from (w64 (ptr_ e + off)) (w64 (sz_total e - off));
      ret (KM_RESULT_EOF, d)
    else
      d <- memcpy_from (w64 (ptr_ e + off)) size;
      ret (KM_RESULT_OK, d)).

Definition kh_initcar_write (fcb : loc) (src : list Z) (off : Z) : CM (km_result_t * Z) :=
  ret (KM_RESULT_UNSUPPORTED_OPERATION, 0).

Definition kh_initcar_size_of (fcb : loc) : CM (km_result_t * Z) :=
  with_file fcb (fun file =>
    x <- fs_get_fnode_exdata file;
    e <- get_exdata x;
    ret (KM_RESULT_OK, sz_total e)).

Definition kh_initcar_destroy (file : loc) : CM unit :=
  x <- fs_get_fnode_exdata file;
  match x with
  | Z.pos l => put_car (fun m => set_exdatas (delete l (exdatas m)) m);; lift_free (kfree l)
  | _ => ret tt
  end.

Definition kh_initcar_premount (dir file : loc) : CM km_result_t := ret KM_RESULT_OK.
Definition kh_initcar_postmount (dir file : loc) : CM km_result_t := ret KM_RESULT_OK.
Definition kh_initcar_mount_fail (dir file : loc) : CM unit := ret tt.
Definition kh_initcar_unmount_cleanup (file : loc) : CM km_result_t := ret KM_RESULT_OK.

Definition kh_initcar_ops : fs_file_system_ops_t (fs_st (car_mem H)) :=
  mkOps (Some kh_initcar_subnode) (Some kh_initcar_create_file) (Some kh_initcar_create_dir) (Some kh_initcar_open)
    (Some kh_initcar_read) (Some kh_initcar_write) (Some kh_initcar_size_of) (Some kh_initcar_destroy)
    (Some kh_initcar_premount) (Some kh_initcar_mount_fail) (Some kh_initcar_unmount_cleanup).

Definition kh_initcar_destructor : CM km_result_t :=
  m <- get_car;
  r <- match kh_initcar_dir m with Some d => fs_unmount_file ops_table d | None => fault end;
  when (KM_FAILED r) panic;;
  put_car (fun m => set_heap (mm_vmfree (hn_initcar_ptr m) (hn_initcar_size m) (heap m)) m);;
  ret KM_RESULT_OK.

(** ** Loading *)

Definition set_ptr (p : Z) (m : car_mem H) : car_mem H :=
  mkCar (heap m) (exdatas m) (bytes_at m) (hn_initcar_paddr m) (hn_initcar_size m) p (kh_initcar_fs m) (kh_initcar_dir m).
Definition set_fs (p : ptr) (m : car_mem H) : car_mem H :=
  mkCar (heap m) (exdatas m) (bytes_at m) (hn_initcar_paddr m) (hn_initcar_size m) (hn_initcar_ptr m) p (kh_initcar_dir m).
Definition set_dir (p : ptr) (m : car_mem H) : car_mem H :=
  mkCar (heap m) (exdatas m) (bytes_at m) (hn_initcar_paddr m) (hn_initcar_size m) (hn_initcar_ptr m) (kh_initcar_fs m) p.

(** The archive is found in the direct mapping, or is mapped for itself. *)
Definition map_archive : CM unit :=
  m <- get_car;
  let p := kh_get_direct_mmap (hn_initcar_paddr m) (heap m) in
  put_car (set_ptr p);;
  if (p =? 0) || (kh_get_direct_mmap (w64 (hn_initcar_paddr m + hn_initcar_size m)) (heap m) =? 0) then
    p <- lift (on_heap (mm_kvmalloc (hn_initcar_size m)));
    put_car (set_ptr p);;
    when (p =? 0) panic;;
    r <- lift (on_heap (mm_mmap p (hn_initcar_paddr m) (hn_initcar_size m)));
    when (KM_FAILED r) panic
  else ret tt.

Definition check_metadata (p : Z) : CM unit :=
  b <- memcpy_from p sizeof_metadata;
  let md := metadata_of b in
  when (negb (magic_0 md =? PBCAR_MAGIC_0) || negb (magic_1 md =? PBCAR_MAGIC_1) ||
        negb (magic_2 md =? PBCAR_MAGIC_2) || negb (magic_3 md =? PBCAR_MAGIC_3)) panic;;
  when (negb (major_ver md =? 0) || negb (minor_ver md =? 1)) panic;;
  when (negb (Z.land (md_flags md) PBCAR_METADATA_BE =? 0)) panic.

(** [initcar_checksize]; the limit is a 32-bit variable. *)
Definition initcar_checksize (p_cur base limit size : Z) : CM unit :=
  when (limit <? w64 (p_cur - base + size)) panic.

Definition INITCAR_DIR_FILENAME : name := [105; 110; 105; 116; 99; 97; 114].

(** The directory for the files, in the root directory *)
Definition make_dir : CM loc :=
  m <- get_car;
  match kh_initcar_fs m with
  | None => fault
  | Some y =>
      '(r, d) <- fs_alloc_dir_fnode y;
      put_car (set_dir d);;
      when (KM_FAILED r) panic;;
      match d with
      | None => fault
      | Some d =>
          r <- fs_rename_fnode d INITCAR_DIR_FILENAME;
          when (KM_FAILED r) panic;;
          root <- get_root;
          r <- match root with Some root => fs_link_subnode ops_table root d | None => fault end;
          when (KM_FAILED r) panic;;
          ret d
      end
  end.

(** A file whose entry is at [fe] and whose bytes are at [p_cur] *)
Definition make_file (d : loc) (fe p_cur size : Z) : CM unit :=
  filename_len <- in_bytes (CString.strlen (fe + offsetof_filename));
  m <- get_car;
  match kh_initcar_fs m with
  | None => fault
  | Some y =>
      '(r, file) <- fs_alloc_file_fnode y;
      when (KM_FAILED r) panic;;
      match file with
      | None => fault
      | Some file =>
          nm <- memcpy_from (fe + offsetof_filename) filename_len;
          r <- fs_rename_fnode file nm;
          when (KM_FAILED r) panic;;
          x <- alloc_exdata;
          match x with
          | None => panic
          | Some x =>
              set_exdata x (mkExdata p_cur size);;
              fs_set_fnode_exdata file (exdata_addr x);;
              r <- fs_link_subnode ops_table d file;
              when (KM_FAILED r) panic;;
              fs_unref_fnode ops_table file
          end
      end
  end.

(** A round of the loop over the entries *)
Definition entry_round (d : loc) (base limit p_cur : Z) : CM (Z + unit) :=
  initcar_checksize p_cur base limit sizeof_fentry;;
  let fe := p_cur in
  let p_cur := w64 (p_cur + sizeof_fentry) in
  b <- memcpy_from fe sizeof_fentry;
  let e := fentry_of b in
  if negb (Z.land (fe_flags e) PBCAR_FILE_FLAG_END =? 0) then ret (inr tt)
  else
    make_file d fe p_cur (fe_size e);;
    ret (inl (w64 (p_cur + fe_size e))).

(** [kh_initcar_init], with the table of operations at [ops]; entries are not
    empty, so there are fewer rounds than bytes *)
Definition kh_initcar_init (ops : Z) : CM unit :=
  y <- fs_register_file_system 7 ops;
  put_car (set_fs y);;
  when (negb (nonnull y)) panic;;
  map_archive;;
  m <- get_car;
  let base := hn_initcar_ptr m in
  check_metadata base;;
  d <- make_dir;
  let limit := (hn_initcar_size m) mod 2 ^ 32 in
  loop (Datatypes.S (Z.to_nat limit)) (entry_round d base limit) (w64 (base + sizeof_metadata)).

End Ops.

End Initcar.
