(* ===== verification/InitcarLoad.v ===== *)
(** * The initial archive: loading

    One entry after the other becomes a file in the directory. *)

From S2P Require Import Prelude MemConf CString CStringTheorems Fs FsTheorems Initcar.
Import MemConf Fs Initcar.

Module InitcarL.

(** ** What the heap and the mapping promise

    A block that is given out was not in use; the other operations leave the
    blocks in use alone. *)
Class HeapLaws (H : Type) `{Memory H} `{Mapping H} := {
  live : H -> gset loc;
  kalloc_fresh h l h' : kalloc h = (Some l, h') -> l ∉ live h /\ live h' = {[l]} ∪ live h;
  kalloc_none h h' : kalloc h = (None, h') -> live h' = live h;
  name_alloc_live n h : live (name_alloc n h).2 = live h;
  map_grow_live h : live (map_grow h).2 = live h;
  kvmalloc_live n h : live (mm_kvmalloc n h).2 = live h;
  mmap_live v p n h : live (mm_mmap v p n h).2 = live h
}.

(** ** Archives in memory *)

(** The bytes [l] are at [a]. *)
Record stored (m : CString.mem) (a : Z) (l : list Z) : Prop := {
  sd_lo : 0 <= a;
  sd_hi : a + Z.of_nat (length l) <= 2 ^ 64;
  sd_at : forall i b, l !! i = Some b -> m !! (a + Z.of_nat i) = Some b
}.

Lemma stored_cons m a b l : stored m a (b :: l) -> m !! a = Some b /\ stored m (a + 1) l.
Proof.
  intros [Hlo Hhi Hat]. simpl in Hhi. split.
  - rewrite -(Z.add_0_r a). by apply (Hat O).
  - split; try lia. intros i x Hx. specialize (Hat (S i) x Hx). by replace (a + 1 + Z.of_nat i) with (a + Z.of_nat (S i)) by lia.
Qed.

Lemma stored_drop m a l n : stored m a l -> (n <= length l)%nat -> stored m (a + Z.of_nat n) (drop n l).
Proof.
  intros [Hlo Hhi Hat] Hn. split; rewrite ?length_drop; try lia. intros i b. rewrite lookup_drop. intros Hb.
  rewrite -(Hat _ _ Hb). f_equal. lia.
Qed.

Lemma stored_take m a l n : stored m a l -> stored m a (take n l).
Proof.
  intros [Hlo Hhi Hat]. split; [done | rewrite length_take; lia |]. intros i b Hb. apply Hat.
  apply lookup_take_Some in Hb. tauto.
Qed.

Lemma load_bytes_ok m a l : stored m a l -> load_bytes (length l) a m = Ok (l, m).
Proof.
  revert a. induction l as [|b l IH]; intros a Hs; [done |]. pose proof Hs as [Hlo Hhi _]. simpl in Hhi.
  apply stored_cons in Hs as [Hb Hs]. simpl. erewrite bind_ok; [| unfold CString.load8; rewrite w64_small; [unfold in64; lia | by rewrite Hb]].
  by rewrite (bind_ok _ _ _ _ _ (IH _ Hs)).
Qed.

Lemma cstr_stored m a l : CStringT.cstr m a l -> stored m a l.
Proof. intros [Hlo Hhi Hat _ _]. split; [done | lia | done]. Qed.

Section Load.
Context {H : Type} `{HL : HeapLaws H} `{F : Format}.
Hypothesis Hentry : 0 < sizeof_fentry.

Variable tbl : Z -> fs_file_system_ops_t (fs_st (car_mem H)).

Implicit Types s : fs_st (car_mem H).

(** Entries one behind the other, up to the one that ends the archive *)
Inductive archive (m : CString.mem) : Z -> list (name * list Z) -> Z -> Prop :=
  | archive_end p hb :
      stored m p hb -> Z.of_nat (length hb) = sizeof_fentry ->
      Z.land (fe_flags (fentry_of hb)) PBCAR_FILE_FLAG_END <> 0 -> archive m p [] p
  | archive_file p hb nm data rest q :
      stored m p hb -> Z.of_nat (length hb) = sizeof_fentry ->
      Z.land (fe_flags (fentry_of hb)) PBCAR_FILE_FLAG_END = 0 ->
      fe_size (fentry_of hb) = Z.of_nat (length data) ->
      CStringT.cstr m (p + offsetof_filename) nm -> nm <> [] ->
      stored m (p + sizeof_fentry) data ->
      archive m (p + sizeof_fentry + Z.of_nat (length data)) rest q ->
      archive m p ((nm, data) :: rest) q.

Lemma archive_le m p files q : archive m p files q -> p <= q.
Proof. induction 1; lia. Qed.

(** ** Primitive steps *)

Lemma memcpy_from_ok s a l : stored (bytes_at (mem s)) a l -> memcpy_from a (Z.of_nat (length l)) s = Ok (l, s).
Proof. intros Hs. unfold memcpy_from, in_bytes. by rewrite Nat2Z.id (load_bytes_ok _ _ _ Hs). Qed.

Definition with_heap (h : H) (s : fs_st (car_mem H)) : fs_st (car_mem H) := set_mem (set_heap h (mem s)) s.

Definition fresh_node (y : loc) (t : fs_filetype_t) : fs_fnode_t := mkFnode 1 None y t None 0 ∅.

(** A node of its own, or no memory *)
Lemma new_fnode_ok y t s : exists r s', new_fnode y t s = Ok (r, s') /\
  ((r.1 = KM_RESULT_NO_MEM) \/
   (exists l h, r = (KM_RESULT_OK, Some l) /\ kalloc (heap (mem s)) = (Some l, h) /\
      s' = FsT.with_node l (fresh_node y t) (with_heap h s))).
Proof.
  unfold new_fnode, lift, bind. simpl. unfold on_heap. destruct (kalloc (heap (mem s))) as [[l|] h] eqn:E; simpl.
  - unfold fs_ref_fnode, bind, get_fnode, put_fnode. simpl. rewrite !lookup_insert_eq /=.
    do 2 eexists. split; [reflexivity |].
    right. exists l, h. split_and!; [done | done |]. unfold FsT.with_node, with_heap, set_fnodes. simpl.
    by rewrite insert_insert_eq.
  - do 2 eexists. split; [reflexivity |]. by left.
Qed.

(** A new name, or no memory *)
Lemma rename_ok l nm f s : fnodes s !! l = Some f -> parent f = None -> filename f = None -> nm <> [] ->
  exists r s', fs_rename_fnode l nm s = Ok (r, s') /\
    (r = KM_RESULT_NO_MEM \/
     (exists h, r = KM_RESULT_OK /\ live h = live (heap (mem s)) /\
        s' = FsT.with_node l (set_filename (Some nm) f) (with_heap h s))).
Proof.
  intros Hl Hp Hn Hnm. unfold fs_rename_fnode, ki_do_rename_fnode, bind, get_fnode. rewrite Hl Hp /=.
  assert (Hz : Z.of_nat (length nm) =? 0 = false) by (apply Z.eqb_neq; destruct nm; [done | simpl; lia]).
  rewrite Hz /= Hl Hn. unfold lift, bind. simpl. unfold on_heap.
  pose proof (name_alloc_live (Z.of_nat (length nm)) (heap (mem s))) as Hlive.
  destruct (name_alloc (Z.of_nat (length nm)) (heap (mem s))) as [[x|] h]; simpl in Hlive |- *.
  - unfold put_fnode. simpl. rewrite Hl /=. do 2 eexists. split; [reflexivity |]. right. by exists h.
  - do 2 eexists. split; [reflexivity |]. by left.
Qed.

(** Extension data, or no memory *)
Definition with_exdatas (x : gmap loc hn_initcar_file_exdata) s : fs_st (car_mem H) := set_mem (set_exdatas x (mem s)) s.

Lemma alloc_exdata_ok s : exists r s', alloc_exdata s = Ok (r, s') /\
  (r = None \/ exists l h, r = Some l /\ kalloc (heap (mem s)) = (Some l, h) /\
     s' = with_exdatas (<[l := mkExdata 0 0]> (exdatas (mem s))) (with_heap h s)).
Proof.
  unfold alloc_exdata, lift, bind. simpl. unfold on_heap. destruct (kalloc (heap (mem s))) as [[l|] h] eqn:E; simpl.
  - do 2 eexists. split; [reflexivity |]. right. by exists l, h.
  - do 2 eexists. split; [reflexivity |]. by left.
Qed.

(** ** A file in the directory *)

(** What stays as it is while files are added *)
Record kept (s s' : fs_st (car_mem H)) : Prop := {
  kp_systems : file_systems s' = file_systems s;
  kp_root : fs_abs_root_dir s' = fs_abs_root_dir s;
  kp_bytes : bytes_at (mem s') = bytes_at (mem s);
  kp_size : hn_initcar_size (mem s') = hn_initcar_size (mem s);
  kp_ptr : hn_initcar_ptr (mem s') = hn_initcar_ptr (mem s);
  kp_fs : kh_initcar_fs (mem s') = kh_initcar_fs (mem s);
  kp_dir : kh_initcar_dir (mem s') = kh_initcar_dir (mem s)
}.

Lemma kept_refl s : kept s s.
Proof. by split. Qed.

Lemma kept_trans s1 s2 s3 : kept s1 s2 -> kept s2 s3 -> kept s1 s3.
Proof. intros [? ? ? ? ? ? ?] [? ? ? ? ? ? ?]. split; congruence. Qed.

Definition file_node (y : loc) (nm : name) (e : loc) : fs_fnode_t :=
  mkFnode 1 None y FS_FILETYPE_FILE (Some nm) (exdata_addr e) ∅.

(** Blocks in use hold what is there. *)
Definition covered s : Prop := forall l,
  is_Some (fnodes s !! l) \/ is_Some (exdatas (mem s) !! l) -> l ∈ live (heap (mem s)).

Record added (y d : loc) (dn : fs_fnode_t) (nm : name) (a n : Z) (l e : loc) (s s' : fs_st (car_mem H)) : Prop := {
  ad_file : fnodes s' !! l = Some (file_node y nm e);
  ad_dir : fnodes s' !! d = Some (set_subnodes (<[nm := l]> (subnodes dn)) dn);
  ad_rest : forall x, x <> l -> x <> d -> fnodes s' !! x = fnodes s !! x;
  ad_exdatas : exdatas (mem s') = <[e := mkExdata a n]> (exdatas (mem s));
  ad_fresh : l ∉ live (heap (mem s)) /\ e ∉ live (heap (mem s));
  ad_live : live (heap (mem s')) = {[e]} ∪ ({[l]} ∪ live (heap (mem s)));
  ad_kept : kept s s'
}.

Lemma grow_mem (m : car_mem H) : (map_grow m).2 = set_heap (map_grow (heap m)).2 m.
Proof. simpl. unfold on_heap. by destruct (map_grow (heap m)). Qed.

Lemma make_file_ok y d dn fe pc nm n s :
  covered s -> kh_initcar_fs (mem s) = Some y -> fnodes s !! d = Some dn -> file_type dn = FS_FILETYPE_DIR ->
  subnodes dn !! nm = None -> CStringT.cstr (bytes_at (mem s)) (fe + offsetof_filename) nm -> nm <> [] ->
  ends (make_file tbl d fe pc n) s (fun _ s' => exists l e, added y d dn nm pc n l e s s').
Proof.
  intros Hcov Hy Hd Hdt Hsub Hc Hnm. unfold make_file, ends, runs.
  erewrite bind_ok; [| unfold in_bytes; by rewrite (CStringT.strlen_ok _ _ _ Hc)].
  erewrite bind_ok; [| reflexivity]. rewrite Hy. unfold fs_alloc_file_fnode.
  destruct (new_fnode_ok y FS_FILETYPE_FILE s) as ([r p] & s1 & E1 & Hcase). rewrite (bind_ok _ _ _ _ _ E1).
  destruct Hcase as [Hr|(l & h & Hr & Hk & ->)]; [simpl in Hr; subst r; by left |].
  injection Hr as -> ->. destruct (kalloc_fresh _ _ _ Hk) as [Hl Hlive]. cbn [KM_FAILED when]. rewrite bind_ret.
  assert (Hld : l <> d) by (intros ->; apply Hl, Hcov; left; by eexists).
  set (s1 := FsT.with_node l (fresh_node y FS_FILETYPE_FILE) (with_heap h s)).
  rewrite (bind_ok _ _ _ _ _ (memcpy_from_ok s1 (fe + offsetof_filename) nm (cstr_stored _ _ _ Hc))).
  assert (Hl1 : fnodes s1 !! l = Some (fresh_node y FS_FILETYPE_FILE)) by (unfold s1; simpl; by rewrite lookup_insert_eq).
  destruct (rename_ok l nm _ s1 Hl1 eq_refl eq_refl Hnm) as (r & s2 & E2 & Hcase). rewrite (bind_ok _ _ _ _ _ E2).
  destruct Hcase as [->|(h2 & -> & Hlive2 & Hs2)]; [by left |]. cbn [KM_FAILED when]. rewrite bind_ret.
  destruct (alloc_exdata_ok s2) as (r & s3 & E3 & Hcase). rewrite (bind_ok _ _ _ _ _ E3).
  destruct Hcase as [->|(e & h3 & -> & Hk3 & Hs3)]; [by left |].
  destruct (kalloc_fresh _ _ _ Hk3) as [He Hlive3].
  assert (Hh2 : heap (mem s2) = h2) by by rewrite Hs2. rewrite Hh2 Hlive2 /= Hlive in He, Hlive3.
  erewrite bind_ok; [| reflexivity].
  set (s4 := set_mem _ s3).
  assert (Hl4 : fnodes s4 !! l = Some (set_filename (Some nm) (fresh_node y FS_FILETYPE_FILE)))
    by (unfold s4; rewrite Hs3 Hs2; simpl; by rewrite lookup_insert_eq).
  set (s5 := FsT.with_node l (file_node y nm e) s4).
  erewrite (bind_ok (fs_set_fnode_exdata _ _) _ _ _ s5);
    [| unfold fs_set_fnode_exdata, bind, get_fnode, put_fnode; by rewrite Hl4 Hl4].
  assert (Hl5 : fnodes s5 !! l = Some (file_node y nm e)) by (unfold s5; simpl; by rewrite lookup_insert_eq).
  assert (Hd5 : fnodes s5 !! d = Some dn)
    by (unfold s5, s4; rewrite Hs3 Hs2; unfold s1; simpl; by rewrite !lookup_insert_ne).
  pose proof (FsT.link_eq tbl s5 d l dn (file_node y nm e) Hd5 Hdt Hl5 (not_eq_sym Hld) ltac:(simpl; lia)) as Elink.
  change (view (file_node y nm e)) with nm in Elink. rewrite Hsub in Elink.
  destruct (map_grow (mem s5)).1; rewrite (bind_ok _ _ _ _ _ Elink); [| by left].
  cbn [KM_FAILED when]. rewrite bind_ret. right.
  set (s6 := FsT.link_state d l dn (file_node y nm e) s5).
  assert (Hl6 : fnodes s6 !! l = Some (set_ref 2 (file_node y nm e)))
    by (unfold s6; simpl; by rewrite lookup_insert_ne // lookup_insert_eq).
  rewrite (FsT.unref_step tbl l _ s6 Hl6); [simpl; lia |]. do 2 eexists. split; [reflexivity |]. exists l, e.
  assert (Hmem : mem s6 = set_heap (map_grow h3).2 (mem s5)).
  { unfold s6. simpl. rewrite grow_mem. unfold s4. by rewrite Hs3. }
  assert (Hd6 : forall x, x <> l -> x <> d -> fnodes s6 !! x = fnodes s !! x).
  { intros x Hxl Hxd. unfold s6, s5, s4. rewrite Hs3 Hs2. unfold s1. simpl. by rewrite !lookup_insert_ne. }
  split; cbn [fnodes mem FsT.with_node set_fnodes].
  - by rewrite lookup_insert_eq.
  - rewrite lookup_insert_ne //. unfold s6. simpl. by rewrite lookup_insert_eq.
  - intros x Hxl Hxd. rewrite lookup_insert_ne; [by apply not_eq_sym |]. by apply Hd6.
  - rewrite Hmem. unfold s5, s4. rewrite Hs3 Hs2. simpl. by rewrite insert_insert_eq.
  - split; [done | set_solver].
  - by rewrite Hmem /= map_grow_live Hlive3.
  - split; cbn [file_systems fs_abs_root_dir mem FsT.with_node set_fnodes]; rewrite ?Hmem; unfold s6, s5, s4; by rewrite Hs3 Hs2.
Qed.

(** ** All files *)

(** Where the bytes of the files are *)
Fixpoint contents (p : Z) (files : list (name * list Z)) : list (name * (Z * list Z)) :=
  match files with
  | [] => []
  | (nm, data) :: rest =>
      (nm, (p + sizeof_fentry, data)) :: contents (p + sizeof_fentry + Z.of_nat (length data)) rest
  end.

Lemma contents_names p files : (contents p files).*1 = files.*1.
Proof. revert p. induction files as [|[nm data] rest IH]; intros p; csimpl; [done | by rewrite IH]. Qed.

(** The files so far, in the directory [d]; [s0] is the state before the first *)
Record loaded (s0 : fs_st (car_mem H)) (y d : loc) (files : list (name * (Z * list Z))) (s : fs_st (car_mem H)) : Prop := {
  ld_kept : kept s0 s;
  ld_covered : covered s;
  ld_rest : forall x f, fnodes s0 !! x = Some f -> x <> d -> fnodes s !! x = Some f;
  ld_dir : exists d0 m, fnodes s0 !! d = Some d0 /\ fnodes s !! d = Some (set_subnodes m d0) /\
    file_type d0 = FS_FILETYPE_DIR /\
    (forall nm, is_Some (m !! nm) <-> nm ∈ files.*1) /\
    forall nm a data, (nm, (a, data)) ∈ files -> exists l e, m !! nm = Some l /\
      fnodes s !! l = Some (file_node y nm e) /\ exdatas (mem s) !! e = Some (mkExdata a (Z.of_nat (length data)))
}.

Lemma loaded_add s0 y d files nm a data l e s s' dn :
  loaded s0 y d files s -> fnodes s !! d = Some dn -> nm ∉ files.*1 ->
  added y d dn nm a (Z.of_nat (length data)) l e s s' -> loaded s0 y d (files ++ [(nm, (a, data))]) s'.
Proof.
  intros [Hk Hcov Hrest (d0 & m & Hd0 & Hd & Hdt & Hdom & Hfiles)] Hdn Hnm [Hf Hdir Hoth Hex [Hl He] Hlive Hkept].
  rewrite Hd in Hdn. injection Hdn as <-. simpl in Hdir.
  assert (Hlx : forall x, is_Some (fnodes s !! x) -> x <> l) by (intros x Hx ->; by apply Hl, Hcov; left).
  split.
  - by eapply kept_trans.
  - intros x. rewrite Hlive Hex lookup_insert_is_Some !elem_of_union !elem_of_singleton. intros Hx.
    destruct (decide (x = l)) as [->|Hxl]; [tauto |]. destruct (decide (x = d)) as [->|Hxd].
    { right. right. apply Hcov. left. by eexists. }
    rewrite Hoth // in Hx. destruct Hx as [Hx|[->|[_ Hx]]]; [| by left |]; right; right; apply Hcov; auto.
  - intros x f Hx Hxd. pose proof (Hrest _ _ Hx Hxd) as Hxs. rewrite Hoth //. apply Hlx. by eexists.
  - exists d0, (<[nm := l]> m). split_and!; [done | done | done | |].
    + intros nm'. rewrite lookup_insert_is_Some Hdom fmap_app elem_of_app list_elem_of_singleton /=.
      destruct (decide (nm = nm')) as [->|]; naive_solver.
    + intros nm' a' data'. rewrite elem_of_app list_elem_of_singleton. intros [Hin|[= -> -> ->]].
      * destruct (Hfiles _ _ _ Hin) as (l' & e' & Hm & Hl' & He'). exists l', e'.
        assert (Hne : nm <> nm') by (intros ->; apply Hnm, list_elem_of_fmap; by exists (nm', (a', data'))).
        assert (Hl'd : l' <> d).
        { intros ->. assert (Heq : set_subnodes m d0 = file_node y nm' e') by congruence.
          apply (f_equal file_type) in Heq. simpl in Heq. congruence. }
        rewrite lookup_insert_ne // Hoth; [by apply Hlx; eexists | done |]. split_and!; [done | done |].
        rewrite Hex lookup_insert_ne //. intros ->. apply He, Hcov. right. by eexists.
      * exists l, e. by rewrite !lookup_insert_eq Hex lookup_insert_eq.
Qed.

Lemma archive_length m p files q : archive m p files q -> Z.of_nat (length files) <= q - p.
Proof. induction 1; simpl; lia. Qed.

Lemma entries_ok s0 y d base limit p files q n fs s :
  archive (bytes_at (mem s0)) p files q -> loaded s0 y d fs s -> kh_initcar_fs (mem s0) = Some y ->
  NoDup (fs.*1 ++ files.*1) -> 0 <= base <= p -> q + sizeof_fentry <= base + limit -> base + limit < 2 ^ 64 ->
  (length files < n)%nat ->
  ends (loop n (entry_round tbl d base limit) p) s (fun _ s' => loaded s0 y d (fs ++ contents p files) s').
Proof.
  intros Har. revert n fs s. induction Har as [p hb Hhb Hlen Hend|p hb nm data rest q Hhb Hlen Hflag Hsize Hname Hnm Hdata Har IH];
    intros n fs s Hld Hy Hnd Hbase Hq Hlim Hn; (destruct n as [|n]; [lia |]); simpl;
    pose proof (kp_bytes _ _ (ld_kept _ _ _ _ _ Hld)) as Hbytes;
    (assert (Hread : memcpy_from p sizeof_fentry s = Ok (hb, s)) by (rewrite -Hlen; apply memcpy_from_ok; by rewrite Hbytes)).
  - apply (ends_bind _ _ _ (fun r s' => r = inr tt /\ s' = s)); [| intros _ _ [-> ->]; apply ends_ret; by rewrite app_nil_r].
    right. unfold entry_round, initcar_checksize, runs. rewrite w64_small; [unfold in64; lia |].
    rewrite (proj2 (Z.ltb_ge _ _)); [lia |]. simpl. rewrite bind_ret (bind_ok _ _ _ _ _ Hread).
    rewrite (proj2 (Z.eqb_neq _ _) Hend). simpl. by do 2 eexists.
  - pose proof (archive_le _ _ _ _ Har) as Hpq. destruct (ld_dir _ _ _ _ _ Hld) as (d0 & m & Hd0 & Hd & Hdt & Hdom & _).
    assert (Hnew : nm ∉ fs.*1).
    { intros Hin. rewrite list.NoDup_app in Hnd. destruct Hnd as (_ & Hdis & _). apply (Hdis _ Hin). left. }
    apply (ends_bind _ _ _ (fun r s' => r = inl (p + sizeof_fentry + Z.of_nat (length data)) /\
      loaded s0 y d (fs ++ [(nm, (p + sizeof_fentry, data))]) s')).
    + unfold entry_round, initcar_checksize. rewrite w64_small; [unfold in64; lia |].
      rewrite (proj2 (Z.ltb_ge _ _)); [lia |]. cbn [when]. rewrite w64_small; [unfold in64; lia |].
      unfold ends, runs. rewrite bind_ret. rewrite !(bind_ok _ _ _ _ _ Hread).
      rewrite Hflag Z.eqb_refl Hsize. cbn [negb].
      eapply (ends_bind (make_file _ _ _ _ _)).
      * eapply (make_file_ok y d (set_subnodes m d0)); try done.
        -- apply Hld.
        -- by rewrite (kp_fs _ _ (ld_kept _ _ _ _ _ Hld)).
        -- simpl. destruct (m !! nm) eqn:Hm; [| done]. exfalso. apply Hnew, Hdom. by eexists.
        -- by rewrite Hbytes.
      * intros [] s' (l & e & Hadd). right. do 2 eexists. split; [reflexivity |].
        rewrite w64_small; [unfold in64; lia |]. split; [done |]. by eapply loaded_add.
    + intros r s' [-> Hld']. simpl in Hn.
      eapply ends_mono; [apply (IH n (fs ++ [(nm, (p + sizeof_fentry, data))])); try done; try lia |].
      * rewrite fmap_app -app_assoc. done.
      * intros ? ?. by rewrite -app_assoc.
Qed.

End Load.

End InitcarL.
