(* ===== verification/InitcarTheorems.v ===== *)
(** * The initial archive: theorems

    [kh_initcar_init] as a whole, and reading the files afterwards. *)

From S2P Require Import Prelude MemConf CString CStringTheorems Fs FsTheorems Initcar InitcarLoad.
Import MemConf Fs Initcar InitcarL.

Module InitcarT.

Section Init.
Context {H : Type} `{HL : HeapLaws H} `{F : Format}.
Hypothesis Hentry : 0 < sizeof_fentry.
Variable tbl : Z -> fs_file_system_ops_t (fs_st (car_mem H)).
Implicit Types s : fs_st (car_mem H).

(** An archive of the files, in memory at [p] *)
Record image (m : CString.mem) (p size : Z) (files : list (name * list Z)) : Prop := {
  im_range : 0 <= p /\ p + size < 2 ^ 64 /\ 0 <= size < 2 ^ 32;
  im_metadata : exists b, stored m p b /\ Z.of_nat (length b) = sizeof_metadata /\
    metadata_of b = mkMetadata PBCAR_MAGIC_0 PBCAR_MAGIC_1 PBCAR_MAGIC_2 PBCAR_MAGIC_3 0 1 (md_flags (metadata_of b)) /\
    Z.land (md_flags (metadata_of b)) PBCAR_METADATA_BE = 0;
  im_entries : exists q, archive m (p + sizeof_metadata) files q /\ q + sizeof_fentry <= p + size;
  im_names : NoDup files.*1
}.

(** Wherever the archive is mapped, its bytes are there. *)
Record mapped (m : car_mem H) (files : list (name * list Z)) : Prop := {
  mp_direct : forall h, kh_get_direct_mmap (hn_initcar_paddr m) h <> 0 ->
    kh_get_direct_mmap (w64 (hn_initcar_paddr m + hn_initcar_size m)) h <> 0 ->
    image (bytes_at m) (kh_get_direct_mmap (hn_initcar_paddr m) h) (hn_initcar_size m) files;
  mp_alloc : forall h p h', mm_kvmalloc (hn_initcar_size m) h = (p, h') -> p <> 0 ->
    image (bytes_at m) p (hn_initcar_size m) files
}.

(** ** The steps before the first file *)

(** Nodes, extension data and the archive stay. *)
Record same s s' : Prop := {
  sm_nodes : fnodes s' = fnodes s;
  sm_root : fs_abs_root_dir s' = fs_abs_root_dir s;
  sm_exdatas : exdatas (mem s') = exdatas (mem s);
  sm_bytes : bytes_at (mem s') = bytes_at (mem s);
  sm_paddr : hn_initcar_paddr (mem s') = hn_initcar_paddr (mem s);
  sm_size : hn_initcar_size (mem s') = hn_initcar_size (mem s);
  sm_live : live (heap (mem s)) ⊆ live (heap (mem s'))
}.

Lemma same_refl s : same s s.
Proof. by split. Qed.

Lemma same_trans s1 s2 s3 : same s1 s2 -> same s2 s3 -> same s1 s3.
Proof. intros [? ? ? ? ? ? ?] [? ? ? ? ? ? ?]. split; try congruence. set_solver. Qed.

Lemma same_covered s s' : same s s' -> covered s -> covered s'.
Proof. intros [Hn _ He _ _ _ Hl] Hc l. rewrite Hn He. intros Hx. by apply Hl, Hc. Qed.

Lemma register_ok n ops s : runs (fs_register_file_system n ops) s
  (fun p s' => forall y, p = Some y -> same s s' /\ exists nm, file_systems s' !! y = Some (mkFs nm ops)).
Proof.
  unfold fs_register_file_system, runs, lift, lift_free, bind. simpl. unfold on_heap.
  destruct (kalloc (heap (mem s))) as [[y|] h] eqn:Ek; simpl; [| by do 2 eexists].
  destruct (kalloc_fresh _ _ _ Ek) as [_ Hl]. pose proof (name_alloc_live n h) as Hn.
  destruct (name_alloc n h) as [[nm|] h2]; simpl in *; [| by do 2 eexists].
  pose proof (map_grow_live h2) as Hg. destruct (map_grow h2) as [[|] h3]; simpl in *; [| by do 2 eexists].
  do 2 eexists. split; [reflexivity |]. intros y' [= <-]. split; [split; simpl; try done; set_solver |].
  exists nm. simpl. by rewrite lookup_insert_eq.
Qed.

(** The address where the archive was mapped *)
Lemma map_archive_ok files s : mapped (mem s) files -> ends map_archive s (fun _ s' => same s s' /\
  file_systems s' = file_systems s /\ kh_initcar_fs (mem s') = kh_initcar_fs (mem s) /\
  image (bytes_at (mem s')) (hn_initcar_ptr (mem s')) (hn_initcar_size (mem s')) files).
Proof.
  intros [Hdir Hall]. unfold map_archive, get_car, put_car, ends, runs, lift, bind. cbn [mem set_mem].
  set (p := kh_get_direct_mmap (hn_initcar_paddr (mem s)) (heap (mem s))).
  destruct (Z.eqb_spec p 0) as [Hp|Hp]; simpl; [| destruct (Z.eqb_spec (kh_get_direct_mmap
    (w64 (hn_initcar_paddr (mem s) + hn_initcar_size (mem s))) (heap (mem s))) 0) as [Hq|Hq]].
  3: { right. do 2 eexists. split; [reflexivity |]. split_and!; [by split | done | done |]. by apply Hdir. }
  1,2: unfold on_heap; simpl;
    pose proof (kvmalloc_live (hn_initcar_size (mem s)) (heap (mem s))) as Hl1;
    destruct (mm_kvmalloc (hn_initcar_size (mem s)) (heap (mem s))) as [v h] eqn:Ev; simpl in *;
    (destruct (Z.eqb_spec v 0) as [Hv|Hv]; simpl; [by left |]);
    pose proof (mmap_live v (hn_initcar_paddr (mem s)) (hn_initcar_size (mem s)) h) as Hl2;
    destruct (mm_mmap v (hn_initcar_paddr (mem s)) (hn_initcar_size (mem s)) h) as [r h2]; simpl in *;
    (destruct (KM_FAILED r); [by left | right]); do 2 eexists; (split; [reflexivity |]);
    (split_and!; [split; simpl; try done; by rewrite Hl2 Hl1 | done | done |]); by eapply Hall.
Qed.

Lemma check_metadata_ok p b s : stored (bytes_at (mem s)) p b -> Z.of_nat (length b) = sizeof_metadata ->
  metadata_of b = mkMetadata PBCAR_MAGIC_0 PBCAR_MAGIC_1 PBCAR_MAGIC_2 PBCAR_MAGIC_3 0 1 (md_flags (metadata_of b)) ->
  Z.land (md_flags (metadata_of b)) PBCAR_METADATA_BE = 0 -> check_metadata p s = Ok (tt, s).
Proof.
  intros Hs Hlen Hmd Hfl. unfold check_metadata. rewrite -Hlen (bind_ok _ _ _ _ _ (memcpy_from_ok _ _ _ Hs)).
  rewrite Hmd. cbn [magic_0 magic_1 magic_2 magic_3 major_ver minor_ver md_flags]. by rewrite !Z.eqb_refl Hfl.
Qed.

(** The directory, empty and linked in the root *)
Definition archive_dir (y : loc) : fs_fnode_t := mkFnode 2 None y FS_FILETYPE_DIR (Some INITCAR_DIR_FILENAME) 0 ∅.

Record dir_made (y root : loc) (rn : fs_fnode_t) (d : loc) s s' : Prop := {
  dm_dir : fnodes s' !! d = Some (archive_dir y);
  dm_root : fnodes s' !! root = Some (set_subnodes (<[INITCAR_DIR_FILENAME := d]> (subnodes rn)) rn);
  dm_rest : forall x f, fnodes s !! x = Some f -> x <> root -> fnodes s' !! x = Some f;
  dm_new : fnodes s !! d = None /\ d <> root;
  dm_covered : covered s';
  dm_globals : kh_initcar_fs (mem s') = Some y /\ kh_initcar_dir (mem s') = Some d /\
    bytes_at (mem s') = bytes_at (mem s) /\ hn_initcar_ptr (mem s') = hn_initcar_ptr (mem s) /\
    hn_initcar_size (mem s') = hn_initcar_size (mem s);
  dm_systems : file_systems s' = file_systems s /\ fs_abs_root_dir s' = fs_abs_root_dir s
}.

Lemma make_dir_ok y root rn s : covered s -> kh_initcar_fs (mem s) = Some y -> fs_abs_root_dir s = Some root ->
  fnodes s !! root = Some rn -> file_type rn = FS_FILETYPE_DIR ->
  ends (make_dir tbl) s (fun d s' => dir_made y root rn d s s').
Proof.
  intros Hcov Hy Hroot Hrn Ht. unfold make_dir, ends, runs. erewrite bind_ok; [| reflexivity]. rewrite Hy.
  unfold fs_alloc_dir_fnode. destruct (new_fnode_ok y FS_FILETYPE_DIR s) as ([r p] & s1 & E1 & Hcase).
  rewrite (bind_ok _ _ _ _ _ E1).
  destruct Hcase as [Hr|(d & h & Hr & Hk & ->)]; [simpl in Hr; subst r; by left |].
  injection Hr as -> ->. destruct (kalloc_fresh _ _ _ Hk) as [Hl Hlive].
  erewrite bind_ok; [| reflexivity]. cbn [KM_FAILED when]. rewrite bind_ret.
  set (s2 := set_mem _ _).
  assert (Hnone : fnodes s !! d = None).
  { destruct (fnodes s !! d) eqn:Hd; [| done]. exfalso. apply Hl, Hcov. left. by eexists. }
  assert (Hdr : d <> root) by (intros ->; congruence).
  assert (Hd2 : fnodes s2 !! d = Some (fresh_node y FS_FILETYPE_DIR)) by (unfold s2; simpl; by rewrite lookup_insert_eq).
  destruct (rename_ok d INITCAR_DIR_FILENAME _ s2 Hd2 eq_refl eq_refl ltac:(done)) as (r & s3 & E2 & Hcase).
  rewrite (bind_ok _ _ _ _ _ E2). destruct Hcase as [->|(h2 & -> & Hlive2 & Hs3)]; [by left |].
  cbn [KM_FAILED when]. rewrite bind_ret. erewrite bind_ok; [| reflexivity].
  assert (Hr3 : fs_abs_root_dir s3 = Some root) by by rewrite Hs3. rewrite Hr3.
  set (dn := set_filename (Some INITCAR_DIR_FILENAME) (fresh_node y FS_FILETYPE_DIR)).
  assert (Hd3 : fnodes s3 !! d = Some dn) by (rewrite Hs3; simpl; by rewrite lookup_insert_eq).
  assert (Hrn3 : fnodes s3 !! root = Some rn).
  { rewrite Hs3. unfold s2. simpl. rewrite !lookup_insert_ne //. }
  pose proof (FsT.link_eq tbl s3 root d rn dn Hrn3 Ht Hd3 (not_eq_sym Hdr) ltac:(simpl; lia)) as Elink.
  change (view dn) with INITCAR_DIR_FILENAME in Elink.
  destruct (subnodes rn !! INITCAR_DIR_FILENAME); [rewrite (bind_ok _ _ _ _ _ Elink); by left |].
  destruct (map_grow (mem s3)).1; rewrite (bind_ok _ _ _ _ _ Elink); [| by left].
  cbn [KM_FAILED when]. rewrite bind_ret. right. do 2 eexists. split; [reflexivity |].
  set (s4 := FsT.link_state root d rn dn s3).
  assert (Hmem : mem s4 = set_heap (map_grow (heap (mem s3))).2 (mem s3)).
  { unfold s4. simpl. by rewrite grow_mem. }
  split.
  - unfold s4. simpl. by rewrite lookup_insert_ne // lookup_insert_eq.
  - unfold s4. simpl. by rewrite lookup_insert_eq.
  - intros x f Hx Hxr. assert (x <> d) by (intros ->; congruence).
    unfold s4. rewrite Hs3. unfold s2. simpl. by rewrite !lookup_insert_ne.
  - done.
  - intros x. rewrite Hmem. unfold s4. rewrite Hs3. unfold s2 in Hlive2 |- *. simpl in Hlive2 |- *.
    rewrite map_grow_live Hlive2 Hlive !lookup_insert_is_Some elem_of_union elem_of_singleton. intros Hx.
    destruct (decide (x = d)) as [->|Hxd]; [by left | right]. apply Hcov.
    destruct Hx as [Hx|Hx]; [left | by right]. destruct (decide (root = x)) as [<-|]; [by eexists | naive_solver].
  - rewrite Hmem Hs3. by unfold s2.
  - unfold s4. rewrite Hs3. by unfold s2.
Qed.

(** ** Loading the archive *)

Lemma contents_stored m p files q nm data : archive m p files q -> (nm, data) ∈ files ->
  exists a, (nm, (a, data)) ∈ contents p files /\ stored m a data.
Proof.
  induction 1 as [|p hb nm' data' rest q _ _ _ _ _ _ Hs _ IH]; [by intros ?%not_elem_of_nil |].
  simpl. rewrite elem_of_cons. intros [[= -> ->]|Hin]; [exists (p + sizeof_fentry); split; [left | done] |].
  destruct (IH Hin) as (a & Ha & ?). exists a. split; [by right | done].
Qed.

(** The root directory has the directory of the archive, with exactly the
    files of the archive; a file's extension data leads to its bytes.  Nothing
    else has changed. *)
Record archive_loaded (ops : Z) (root : loc) (files : list (name * list Z)) s s' : Prop := {
  al_dir : exists rn d dn y fsn, fnodes s !! root = Some rn /\
    fnodes s' !! root = Some (set_subnodes (<[INITCAR_DIR_FILENAME := d]> (subnodes rn)) rn) /\
    kh_initcar_dir (mem s') = Some d /\ fnodes s' !! d = Some dn /\ file_type dn = FS_FILETYPE_DIR /\
    fs dn = y /\ file_systems s' !! y = Some (mkFs fsn ops) /\
    (forall nm, is_Some (subnodes dn !! nm) <-> nm ∈ files.*1) /\
    forall nm data, (nm, data) ∈ files -> exists l e a, subnodes dn !! nm = Some l /\
      fnodes s' !! l = Some (file_node y nm e) /\
      exdatas (mem s') !! e = Some (mkExdata a (Z.of_nat (length data))) /\ stored (bytes_at (mem s')) a data;
  al_rest : forall x f, fnodes s !! x = Some f -> x <> root -> fnodes s' !! x = Some f
}.

Lemma initcar_init_ok ops files root rn s : covered s -> mapped (mem s) files -> fs_abs_root_dir s = Some root ->
  fnodes s !! root = Some rn -> file_type rn = FS_FILETYPE_DIR ->
  ends (kh_initcar_init tbl ops) s (fun _ s' => archive_loaded ops root files s s').
Proof.
  intros Hcov Hmap Hroot Hrn Ht. unfold kh_initcar_init.
  eapply ends_bind; [apply runs_ends, register_ok |]. intros [y|] s1 Hreg; [| by left].
  destruct (Hreg y eq_refl) as [Hs1 [fsn Hfs]]. clear Hreg.
  unfold ends, runs. erewrite bind_ok; [| reflexivity]. cbn [nonnull negb when]. rewrite bind_ret.
  set (s2 := set_mem (set_fs (Some y) (mem s1)) s1).
  assert (Hs2 : same s s2) by (eapply same_trans; [exact Hs1 | by split]).
  assert (Hmap2 : mapped (mem s2) files).
  { destruct Hmap as [Hm1 Hm2]. split; rewrite ?(sm_paddr _ _ Hs2) (sm_size _ _ Hs2) (sm_bytes _ _ Hs2); done. }
  eapply (ends_bind map_archive); [by apply map_archive_ok |]. intros [] s3 (Hs3 & Hsys3 & Hfs3 & Him).
  pose proof (same_trans _ _ _ Hs2 Hs3) as Hs. destruct Him as [(Hb0 & Hb64 & Hsz) (b & Hb & Hlen & Hmd & Hfl) (q & Har & Hq) Hnd].
  unfold ends, runs. erewrite bind_ok; [| reflexivity].
  rewrite (bind_ok _ _ _ _ _ (check_metadata_ok _ _ _ Hb Hlen Hmd Hfl)).
  eapply (ends_bind (make_dir tbl)); [apply (make_dir_ok y root rn) |].
  { by eapply same_covered. }
  { by rewrite Hfs3. }
  { by rewrite (sm_root _ _ Hs). }
  { by rewrite (sm_nodes _ _ Hs). }
  { done. }
  intros d s4 [Hd Hr Hrest [Hnew Hdr] Hcov4 (Hy4 & Hdir4 & Hby4 & _ & _) [Hsys4 _]].
  rewrite (Z.mod_small _ (2 ^ 32)); [done |]. pose proof (archive_length Hentry _ _ _ _ Har) as Hal. pose proof (archive_le Hentry _ _ _ _ Har) as Hle.
  assert (Hsm : 0 <= sizeof_metadata) by lia. rewrite w64_small; [unfold in64; lia |].
  assert (Hld0 : loaded s4 y d [] s4).
  { split; [apply kept_refl | done | done |]. exists (archive_dir y), ∅. split_and!; try done.
    - intros nm. rewrite lookup_empty. split; [by intros [? ?] | by intros ?%not_elem_of_nil].
    - by intros nm a data ?%not_elem_of_nil. }
  eapply ends_mono; [eapply (entries_ok Hentry tbl s4 y d _ _ _ files q _ []); rewrite ?Hby4; try done; try lia |].
  intros [] s5 [Hk _ Hrest5 (d0 & m & Hd0 & Hd5 & Hdt & Hdom & Hfiles)].
  rewrite Hd in Hd0. injection Hd0 as <-. split.
  - exists rn, d, (set_subnodes m (archive_dir y)), y, fsn. split_and!; try done.
    + apply Hrest5; [done | by apply not_eq_sym].
    + by rewrite (kp_dir _ _ Hk).
    + by rewrite (kp_systems _ _ Hk) Hsys4 Hsys3.
    + intros nm. by rewrite Hdom contents_names.
    + intros nm data Hin. destruct (contents_stored _ _ _ _ _ _ Har Hin) as (a & Ha & Hst).
      destruct (Hfiles _ _ _ Ha) as (l & e & Hl & Hnode & Hex). exists l, e, a. split_and!; try done.
      by rewrite (kp_bytes _ _ Hk) Hby4.
  - intros x f Hx Hxr. rewrite -(sm_nodes _ _ Hs) in Hx. apply Hrest5; [by apply Hrest |]. intros ->. congruence.
Qed.

(** ** Reading a file *)

(** What a client does to read a file of a directory *)
Definition read_file (d : loc) (nm : name) (size off : Z) : M (fs_st (car_mem H)) (km_result_t * list Z) :=
  '(r, file) <- fs_child_of tbl (Some d) nm;
  match file with
  | None => ret (r, [])
  | Some file =>
      '(r, fcb) <- kh_initcar_open tbl file;
      match fcb with
      | None => ret (r, [])
      | Some fcb => kh_initcar_read tbl fcb size off
      end
  end.

Lemma memcpy_slice a data off n s : stored (bytes_at (mem s)) a data -> 0 <= off -> 0 <= n ->
  off + n <= Z.of_nat (length data) ->
  memcpy_from (w64 (a + off)) n s = Ok (take (Z.to_nat n) (drop (Z.to_nat off) data), s).
Proof.
  intros Hs Ho Hn Hle. destruct (Z.eq_dec n 0) as [->|Hn0]; [done |]. pose proof Hs as [Hlo Hhi _].
  rewrite w64_small; [unfold in64; lia |].
  pose proof (stored_take _ _ _ (Z.to_nat n) (stored_drop _ _ _ (Z.to_nat off) Hs ltac:(lia))) as Hst.
  rewrite Z2Nat.id // in Hst. apply memcpy_from_ok in Hst.
  rewrite length_take length_drop in Hst. by replace (Z.of_nat _) with n in Hst by lia.
Qed.

(** The bytes of a file from [off] on, at most [size] of them *)
Definition slice_of (data : list Z) (size off : Z) : list Z := take (Z.to_nat size) (drop (Z.to_nat off) data).

Lemma initcar_read_ok l f e a data size off fcb s : fnodes s !! l = Some f -> 1 <= ref_count f < 2 ^ 64 - 4 ->
  exdata f = exdata_addr e -> exdatas (mem s) !! e = Some (mkExdata a (Z.of_nat (length data))) ->
  stored (bytes_at (mem s)) a data -> fcbs s !! fcb = Some (mkFcb (Some l) 0) ->
  0 <= size -> 0 <= off <= Z.of_nat (length data) -> size + off < 2 ^ 64 ->
  kh_initcar_read tbl fcb size off s =
    Ok ((if Z.of_nat (length data) <? size + off then KM_RESULT_EOF else KM_RESULT_OK, slice_of data size off), s).
Proof.
  intros Hl Hr He Hex Hst Hfcb Hsize Hoff Hsum. pose proof Hst as [Hlo Hhi _]. unfold kh_initcar_read, with_file, fs_file_of_fcb.
  erewrite bind_ok; [| unfold get_fcb, bind; by rewrite Hfcb]. simpl.
  rewrite (bind_ok _ _ _ _ _ (FsT.ref_step l f s Hl ltac:(unfold in64; lia))).
  set (f' := set_ref (ref_count f + 1) f). set (s' := FsT.with_node l f' s).
  assert (Hl' : fnodes s' !! l = Some f') by (unfold s'; simpl; by rewrite lookup_insert_eq).
  assert (Hback : fs_unref_fnode tbl l s' = Ok (tt, s)).
  { rewrite (FsT.unref_step tbl l f' s' Hl'); [simpl; lia |]. do 2 f_equal. unfold s', f', FsT.with_node, set_fnodes. simpl.
    rewrite insert_insert_eq. replace (ref_count f + 1 - 1) with (ref_count f) by lia.
    rewrite insert_id; [rewrite Hl; by destruct f | by destruct s]. }
  match goal with |- bind ?b _ _ = Ok (?x, _) => assert (Hbody : b s' = Ok (x, s')) end;
    [| by rewrite (bind_ok _ _ _ _ _ Hbody) (bind_ok _ _ _ _ _ Hback)].
  unfold fs_get_fnode_exdata. erewrite bind_ok; [| unfold bind, get_fnode; by rewrite Hl'].
  change (exdata f') with (exdata f). rewrite He.
  erewrite bind_ok; [| unfold get_exdata, exdata_addr; by rewrite Hex]. cbn [sz_total ptr_].
  rewrite (w64_small (size + off)); [unfold in64; lia |]. destruct (Z.ltb_spec (Z.of_nat (length data)) (size + off)) as [Hlt|Hge].
  - rewrite (w64_small (_ - off)); [unfold in64; lia |]. erewrite bind_ok; [| apply (memcpy_slice _ data); try done; lia].
    unfold ret, slice_of. do 3 f_equal. rewrite !take_ge // length_drop; lia.
  - erewrite bind_ok; [| apply (memcpy_slice _ data); try done; lia]. done.
Qed.

Lemma open_ok l f s : fnodes s !! l = Some f -> 1 <= ref_count f < 2 ^ 64 - 4 ->
  exists r s', kh_initcar_open tbl l s = Ok (r, s') /\ exdatas (mem s') = exdatas (mem s) /\
    bytes_at (mem s') = bytes_at (mem s) /\
    (r = (KM_RESULT_NO_MEM, None) \/ exists c, r = (KM_RESULT_OK, Some c) /\ fcbs s' !! c = Some (mkFcb (Some l) 0) /\
       fnodes s' !! l = Some (set_ref (ref_count f + 1) f)).
Proof.
  intros Hl Hr. unfold kh_initcar_open, ki_alloc_fcb, lift. unfold bind at 1. simpl. unfold on_heap.
  destruct (kalloc (heap (mem s))) as [[c|] h]; simpl.
  2:{ do 2 eexists. split; [reflexivity |]. split_and!; [done | done | by left]. }
  set (s1 := set_mem (set_heap h (mem s)) s). assert (Hl1 : fnodes s1 !! l = Some f) by done.
  rewrite (bind_ok _ _ _ _ _ (FsT.ref_step l f s1 Hl1 ltac:(unfold in64; lia))).
  erewrite bind_ok; [| reflexivity]. set (s2 := set_fcbs _ _).
  set (f' := set_ref (ref_count f + 1) f).
  assert (Hl2 : fnodes s2 !! l = Some f') by (unfold s2; simpl; by rewrite lookup_insert_eq).
  rewrite (bind_ok _ _ _ _ _ (FsT.unref_step tbl l f' s2 Hl2 ltac:(simpl; lia))).
  set (s3 := FsT.with_node l _ s2). set (f3 := set_ref (ref_count f' - 1) f').
  assert (Hl3 : fnodes s3 !! l = Some f3) by (unfold s3; simpl; by rewrite lookup_insert_eq).
  rewrite (bind_ok _ _ _ _ _ (FsT.ref_step l f3 s3 Hl3 ltac:(simpl; unfold in64; lia))).
  do 2 eexists. split; [reflexivity |]. split_and!; [done | done |]. right. exists c. split_and!; [done | |].
  - simpl. by rewrite lookup_insert_eq.
  - simpl. rewrite lookup_insert_eq. unfold f3, f', set_ref. simpl. do 2 f_equal. lia.
Qed.

Lemma read_file_ok d dn nm l y e a data size off s :
  fnodes s !! d = Some dn -> file_type dn = FS_FILETYPE_DIR -> subnodes dn !! nm = Some l ->
  fnodes s !! l = Some (file_node y nm e) -> exdatas (mem s) !! e = Some (mkExdata a (Z.of_nat (length data))) ->
  stored (bytes_at (mem s)) a data -> 0 <= size -> 0 <= off <= Z.of_nat (length data) -> size + off < 2 ^ 64 ->
  runs (read_file d nm size off) s (fun r _ => r = (KM_RESULT_NO_MEM, []) \/
    r = (if Z.of_nat (length data) <? size + off then KM_RESULT_EOF else KM_RESULT_OK, slice_of data size off)).
Proof.
  intros Hd Ht Hnm Hl He Hst Hsize Hoff Hsum. unfold read_file, runs.
  rewrite (bind_ok _ _ _ _ _ (FsT.child_of_found tbl s d nm l dn _ Hd Ht Hnm Hl ltac:(simpl; lia))).
  set (s1 := FsT.with_node l _ s). set (f1 := set_ref (ref_count (file_node y nm e) + 1) (file_node y nm e)).
  assert (Hl1 : fnodes s1 !! l = Some f1) by (unfold s1; simpl; by rewrite lookup_insert_eq).
  destruct (open_ok l f1 s1 Hl1 ltac:(simpl; lia)) as (r & s2 & E2 & Hex2 & Hby2 & Hcase). rewrite (bind_ok _ _ _ _ _ E2).
  destruct Hcase as [->|(c & -> & Hc & Hl2)]; [do 2 eexists; split; [reflexivity | by left] |].
  eexists _, s2. split; [| by right]. eapply initcar_read_ok; by rewrite ?Hex2 ?Hby2.
Qed.

(** A read that begins behind the end of a file asks for 2^64 bytes less the
    distance: it runs into the first address without memory. *)
Lemma load_bytes_fault m k n a : (k < n)%nat -> m !! w64 (a + Z.of_nat k) = None -> load_bytes n a m = Fault.
Proof.
  revert k a. induction n as [|n IH]; intros k a Hk Hf; [lia |]. cbn [load_bytes]. unfold bind at 1, CString.load8.
  destruct (m !! w64 a) as [b|] eqn:Hb; [| done]. destruct k as [|k]; [by rewrite Z.add_0_r Hb in Hf |].
  unfold bind. rewrite (IH k (a + 1)) //; [lia |]. by replace (a + 1 + Z.of_nat k) with (a + Z.of_nat (S k)) by lia.
Qed.

(** A read behind the end of a file runs into address 0. *)
Lemma read_behind_end l f e a n size off fcb s : fnodes s !! l = Some f -> 1 <= ref_count f < 2 ^ 64 - 4 ->
  exdata f = exdata_addr e -> exdatas (mem s) !! e = Some (mkExdata a n) -> fcbs s !! fcb = Some (mkFcb (Some l) 0) ->
  bytes_at (mem s) !! 0 = None -> 0 <= n < off -> 0 <= size -> size + off < 2 ^ 64 -> 0 < a -> a + off < 2 ^ 64 ->
  kh_initcar_read tbl fcb size off s = Fault.
Proof.
  intros Hl Hr He Hex Hfcb Hzero Hn Hsize Hsum Ha Hao. unfold kh_initcar_read, with_file, fs_file_of_fcb.
  erewrite bind_ok; [| unfold get_fcb, bind; by rewrite Hfcb]. simpl.
  rewrite (bind_ok _ _ _ _ _ (FsT.ref_step l f s Hl ltac:(unfold in64; lia))).
  set (f' := set_ref (ref_count f + 1) f). set (s' := FsT.with_node l f' s).
  assert (Hl' : fnodes s' !! l = Some f') by (unfold s'; simpl; by rewrite lookup_insert_eq).
  match goal with |- bind ?b _ _ = Fault => assert (Hbody : b s' = Fault) end; [| by unfold bind at 1; rewrite Hbody].
  unfold fs_get_fnode_exdata. erewrite bind_ok; [| unfold bind, get_fnode; by rewrite Hl'].
  change (exdata f') with (exdata f). rewrite He.
  erewrite bind_ok; [| unfold get_exdata, exdata_addr; by rewrite Hex]. cbn [sz_total ptr_].
  rewrite (w64_small (size + off)); [unfold in64; lia |]. rewrite (proj2 (Z.ltb_lt _ _)); [lia |].
  unfold bind at 1, memcpy_from, in_bytes.
  assert (Hlen : w64 (n - off) = n - off + 2 ^ 64).
  { unfold w64. rewrite -(Z_mod_plus_full _ 1). rewrite Z.mod_small; lia. }
  rewrite Hlen (w64_small (a + off)); [unfold in64; lia |].
  rewrite (load_bytes_fault _ (Z.to_nat (2 ^ 64 - (a + off)))) //; [lia |].
  rewrite Z2Nat.id; [lia |]. by replace (a + off + _) with (2 ^ 64) by lia.
Qed.

Lemma child_of_none d dn nm fsn ops s : fnodes s !! d = Some dn -> file_type dn = FS_FILETYPE_DIR ->
  subnodes dn !! nm = None -> file_systems s !! fs dn = Some (mkFs fsn ops) ->
  op_subnode (tbl ops) = Some kh_initcar_subnode ->
  fs_child_of tbl (Some d) nm s = Ok ((KM_RESULT_NOT_FOUND, None), s).
Proof.
  intros Hd Ht Hnm Hy Hop. unfold fs_child_of. erewrite bind_ok; [| unfold get_fnode; by rewrite Hd].
  rewrite Ht Hnm. erewrite bind_ok; [| unfold ops_of; by rewrite Hy]. simpl. by rewrite Hop.
Qed.

(** C25: Loading an archive either stops the kernel with a panic or makes the
    directory "initcar" in the root, the rest of the file system unchanged;
    under the name of each file of the archive a client then reads exactly the
    bytes that were packed (at most [size] of them from [off] on, and the
    result says whether the end of the file came first) unless there is no
    memory for the open file, and any other name is not found. *)
Theorem initcar_roundtrip ops files root rn s :
  op_subnode (tbl ops) = Some kh_initcar_subnode ->
  covered s -> mapped (mem s) files -> fs_abs_root_dir s = Some root ->
  fnodes s !! root = Some rn -> file_type rn = FS_FILETYPE_DIR ->
  ends (kh_initcar_init tbl ops) s (fun _ s' =>
    (forall x f, fnodes s !! x = Some f -> x <> root -> fnodes s' !! x = Some f) /\
    exists d, kh_initcar_dir (mem s') = Some d /\
      fnodes s' !! root = Some (set_subnodes (<[INITCAR_DIR_FILENAME := d]> (subnodes rn)) rn) /\
      (forall nm data size off, (nm, data) ∈ files ->
         0 <= size -> 0 <= off <= Z.of_nat (length data) -> size + off < 2 ^ 64 ->
         runs (read_file d nm size off) s' (fun r _ => r = (KM_RESULT_NO_MEM, []) \/
           r = (if Z.of_nat (length data) <? size + off then KM_RESULT_EOF else KM_RESULT_OK, slice_of data size off))) /\
      forall nm size off, nm ∉ files.*1 -> read_file d nm size off s' = Ok ((KM_RESULT_NOT_FOUND, []), s')).
Proof.
  intros Hop Hcov Hmap Hroot Hrn Ht. eapply ends_mono; [by apply (initcar_init_ok ops files root rn) |].
  intros _ s' [(rn' & d & dn & y & fsn & Hrn' & Hroot' & Hdir & Hd & Hdt & Hfs & Hy & Hdom & Hfiles) Hrest].
  rewrite Hrn in Hrn'. injection Hrn' as <-. split; [done |]. exists d. split_and!; [done | done | |].
  - intros nm data size off Hin Hsize Hoff Hsum. destruct (Hfiles _ _ Hin) as (l & e & a & Hnm & Hl & He & Hst).
    by eapply read_file_ok.
  - intros nm size off Hnm. unfold read_file. subst y.
    erewrite bind_ok; [| eapply child_of_none; try done]; [done |].
    destruct (subnodes dn !! nm) eqn:E; [| done]. exfalso. by apply Hnm, Hdom.
Qed.

End Init.

(** ** A concrete archive

    Two files behind a header of eight bytes, at the physical address 4096,
    which is mapped directly; the heap gives out ever higher blocks. *)

#[local] Instance demo_heap : Memory (list loc) := {
  kalloc h := let l := Pos.succ (foldr Pos.max 1%positive h) in (Some l, l :: h);
  kfree l h := filter (fun x => x <> l) h;
  name_alloc n h := (Some (repeat 0 (Z.to_nat n)), h);
  name_realloc _ h := (true, h);
  name_free h := h;
  map_grow h := (true, h);
  map_shrink h := (true, h)
}.

#[local] Instance demo_mapping : Mapping (list loc) := {
  kh_get_direct_mmap a h := a;
  mm_kvmalloc n h := (0, h);
  mm_mmap v p n h := (KM_RESULT_NO_MEM, h);
  mm_vmfree p n h := h
}.

Lemma max_above (x : loc) (h : list loc) : x ∈ h -> (x <= foldr Pos.max 1 h)%positive.
Proof. induction 1 as [x h|x y h _ IH]; simpl; lia. Qed.

#[local] Instance demo_laws : HeapLaws (list loc).
Proof.
  refine {| live h := list_to_set h |}; try done. intros h l h' E. injection E as <- <-. split; [| done].
  rewrite elem_of_list_to_set. intros Hin%max_above. lia.
Defined.

#[local] Instance demo_format : Format := {
  PBCAR_MAGIC_0 := 80; PBCAR_MAGIC_1 := 66; PBCAR_MAGIC_2 := 67; PBCAR_MAGIC_3 := 65;
  PBCAR_METADATA_BE := 1; PBCAR_FILE_FLAG_END := 1;
  sizeof_metadata := 8; sizeof_fentry := 8; offsetof_filename := 4;
  metadata_of b := mkMetadata (nth 0 b 0) (nth 1 b 0) (nth 2 b 0) (nth 3 b 0) (nth 4 b 0) (nth 5 b 0) (nth 6 b 0);
  fentry_of b := mkFentry (nth 0 b 0) (nth 1 b 0)
}.

Definition demo_files : list (name * list Z) := [([97], [10; 20; 30]); ([98], [40; 50])].

Definition demo_bytes : list Z :=
  [80; 66; 67; 65; 0; 1; 0; 0] ++ [3; 0; 0; 0; 97; 0; 0; 0] ++ [10; 20; 30] ++
  [2; 0; 0; 0; 98; 0; 0; 0] ++ [40; 50] ++ [0; 1; 0; 0; 0; 0; 0; 0].

Definition demo_image : CString.mem := list_to_map (zip (seqZ 4096 37) demo_bytes).

Definition demo_root : fs_fnode_t := mkFnode 1 None 2%positive FS_FILETYPE_DIR None 0 ∅.

Definition demo_state : fs_st (car_mem (list loc)) :=
  mkSt {[1%positive := demo_root]} ∅ {[2%positive := mkFs [] 0]} ∅ (Some 1%positive)
    (mkCar [2%positive; 1%positive] ∅ demo_image 4096 37 0 None None).

(** The table of operations, of which loading uses none *)
Definition demo_table0 (_ : Z) : fs_file_system_ops_t (fs_st (car_mem (list loc))) :=
  mkOps None None None None None None None None None None None.
Definition demo_table (_ : Z) : fs_file_system_ops_t (fs_st (car_mem (list loc))) := kh_initcar_ops demo_table0.

Lemma stored_check m a l : 0 <= a -> a + Z.of_nat (length l) <= 2 ^ 64 ->
  ((fun i => m !! (a + Z.of_nat i)) <$> seq 0 (length l)) = Some <$> l -> stored m a l.
Proof.
  intros Hlo Hhi Heq. split; [done | done |]. intros i b Hi.
  assert (Hf : (Some <$> l) !! i = Some (Some b)) by by rewrite list_lookup_fmap Hi.
  rewrite -Heq list_lookup_fmap lookup_seq_lt in Hf; [by eapply lookup_lt_Some | by injection Hf].
Qed.

Lemma demo_cstr a c : 0 <= a < 8192 -> c <> 0 -> demo_image !! a = Some c -> demo_image !! (a + 1) = Some 0 ->
  CStringT.cstr demo_image a [c].
Proof.
  intros Ha Hc Hb Hz. split; simpl; [lia | lia | | by constructor | done].
  intros [|i] b [= <-]. by rewrite Z.add_0_r.
Qed.

Lemma demo_image_ok : image demo_image 4096 37 demo_files.
Proof.
  split; [lia | | | by apply (bool_decide_unpack _); vm_compute].
  - exists (take 8 demo_bytes). split_and!; [by apply stored_check; vm_compute | done | done | done].
  - exists 4125. split; [| simpl; lia].
    eapply (archive_file _ 4104 [3; 0; 0; 0; 97; 0; 0; 0]);
      [by apply stored_check; vm_compute | done | done | done | by apply demo_cstr | done
      | by apply stored_check; vm_compute |].
    eapply (archive_file _ 4115 [2; 0; 0; 0; 98; 0; 0; 0]);
      [by apply stored_check; vm_compute | done | done | done | by apply demo_cstr | done
      | by apply stored_check; vm_compute |].
    by eapply (archive_end _ 4125 [0; 1; 0; 0; 0; 0; 0; 0]); [apply stored_check; vm_compute | done | done].
Qed.

Lemma demo_mapped : mapped (mem demo_state) demo_files.
Proof. split; [intros h _ _; exact demo_image_ok | intros h p h' E Hp; exfalso; apply Hp; by injection E]. Qed.

Lemma demo_covered : covered demo_state.
Proof.
  intros l [[f Hl]|[? Hl]]; [| by rewrite /= lookup_empty in Hl].
  cbn [fnodes demo_state] in Hl. apply lookup_singleton_Some in Hl as [<- _]. simpl. set_solver.
Qed.

(** The archive is loaded, and its second file read. *)
Lemma initcar_roundtrip_witness :
  (exists s' d, kh_initcar_init demo_table 7 demo_state = Ok (tt, s') /\ kh_initcar_dir (mem s') = Some d /\
     exists s2, read_file demo_table d [98] 100 1 s' = Ok ((KM_RESULT_EOF, [50]), s2)) /\
  ends (kh_initcar_init demo_table 7) demo_state (fun _ s' =>
    exists d, kh_initcar_dir (mem s') = Some d /\ read_file demo_table d [99] 1 0 s' = Ok ((KM_RESULT_NOT_FOUND, []), s')).
Proof.
  split; [do 2 eexists; split; [vm_compute; reflexivity |]; split; [reflexivity | eexists; vm_compute; reflexivity] |].
  eapply ends_mono.
  - exact (initcar_roundtrip eq_refl demo_table 7 demo_files 1%positive demo_root demo_state eq_refl demo_covered
      demo_mapped eq_refl eq_refl eq_refl).
  - intros _ s' (_ & d & Hdir & _ & _ & Hnone). exists d. split; [exact Hdir |]. apply Hnone.
    apply (bool_decide_unpack _). vm_compute. exact I.
Defined.

End InitcarT.
